(* ===== verification/_CoqProject ===== *)
-Q . S2P
Prelude.v
RustStr.v
Net.v
IpText.v
Util.v
Vless.v
Xudp.v
DnsMessage.v
DnsReply.v
DnsCache.v
DnsFlight.v
Http.v
Protocol.v
Server.v
Tunnel.v
Routing.v
RoutingFacts.v
DnsRule.v
DnsTransport.v
DnsResolver.v
Sniff.v
RouteEval.v
LinuxRoute.v
SocksUdp.v
Config.v
Tls.v
Inbound.v
Outbound.v
Direct.v
Relay.v
UdpRelay.v
Srs.v
UdpNat.v
TunUdp.v
Tun.v
TunRoutes.v
TunRedirect.v
Validate.v
Download.v
Prefetch.v
Xmux.v
XhttpClient.v
Clash.v
Detour.v
TunRun.v
Startup.v
Main.v
EndToEnd.v
