(* ===== verification/Prelude.v ===== *)
(** * xhttp-rs: verification library (root file)

    xhttp-rs is a proxy written in Rust: a VLESS server and client over the XHTTP
    transport (a tunnel cut into HTTP requests), SOCKS, HTTP, TUN and AnyTLS inbounds, a
    router, a DNS resolver, and the Linux routing that sends traffic into a TUN device.
    This library models the program's own logic as Rocq functions and step relations,
    file by file, and proves the properties that make it correct.

    ** How the parts work together

    An inbound accepts a connection and learns its destination (Inbound.v for SOCKS and
    HTTP, Vless.v and Server.v for VLESS over XHTTP).  Route evaluation (RouteEval.v)
    asks the router (Routing.v, RoutingFacts.v) for the next action, learns the owner of the
    connection and the state of the network when a rule wants them (LinuxRoute.v), sniffs
    the first bytes when told to (Sniff.v), resolves names through the DNS resolver (DnsResolver.v)
    and ends with a decision.  A relay (Relay.v, SocksUdp.v, UdpRelay.v) turns the decision
    into a dialer (Outbound.v), hands over the bytes that were read, and copies; a direct
    dialer races the addresses of a name (Direct.v).  An XHTTP client spreads tunnels over
    HTTP connections (Xmux.v), writes requests (Protocol.v) that the server reads and puts
    back in order (Server.v); Tunnel.v puts client, requests, server and backend together.  The resolver chooses a rule
    (DnsRule.v) and a server, sends the message (DnsTransport.v), shares the query with
    other callers (DnsFlight.v), caches the answer (DnsCache.v) and builds or ages
    messages (DnsMessage.v, DnsReply.v).  Rule-sets come in a binary format (Srs.v), are
    downloaded (Download.v) and cached on disk (Prefetch.v).  UDP
    sessions of TUN and of the transparent proxy live in a NAT table (UdpNat.v), which a
    loop feeds (TunUdp.v), those of VLESS in the XUDP relay (Xudp.v).  A controller reads
    and changes the groups over HTTP (Clash.v).  A configuration (Config.v) is validated before
    anything runs (Validate.v), and a TUN inbound gives the configuration of the device
    (Tun.v), the plan of routes and rules for it (TunRoutes.v) and the nftables script that
    redirects forwarded traffic to it (TunRedirect.v); TunRun.v is how the device starts
    and how rule-sets that were downloaded again reach the router and nftables.  DNS
    queries that take an outbound, the probes of the groups and the warm-up are in
    Detour.v.  TLS options and the
    helpers of the AnyTLS server are in Tls.v, the construction of an XHTTP client in
    XhttpClient.v.  Startup.v puts resolver, dialers, rule-sets and router together into
    the runtime that tasks share or own, and Main.v is the program: it loads a
    configuration and turns every inbound into a task.

    ** Files and sources (under src/src/)

    - Prelude.v: outcomes of Rust code, machine integers, bytes, slices, readers, shared
      lemmas and tactics.  RustStr.v, Net.v, IpText.v: the part of the standard library
      the program uses (strings, numbers, addresses and their text); Net.v also has the
      interfaces of the crates [ipnet] and [regex].
    - Util.v: util.rs.  Config.v, Validate.v: singbox.rs, and the construction of the
      outbounds in proxy/mod.rs.  Tls.v: tls.rs, anytls.rs.
    - Vless.v, Xudp.v: vless.rs ([serve], [write_request], [relay_xudp], ...).
    - Http.v: config.rs and the interface of the HTTP crates.  Protocol.v: protocol.rs and
      the request construction of client.rs.  Server.v: server.rs ([Reorder] is the upload
      task, [Sessions] the table with its admission counter and timers, then [handler]).
      Xmux.v: xmux.rs.  XhttpClient.v: [Client::new] of client.rs.  Tunnel.v: the upload and download of client.rs and the handlers
      and tasks of server.rs as one state machine ([PacketMode] and [StreamMode] hold its
      invariants).
    - Routing.v, RoutingFacts.v: routing.rs and the rule data of singbox.rs.  Srs.v:
      srs.rs.  Sniff.v, RouteEval.v: proxy/route.rs.
      LinuxRoute.v: linux_route.rs and [connection_metadata] of proxy/inbound.rs.
    - DnsMessage.v, DnsReply.v, DnsRule.v: dns/message.rs.  DnsCache.v: dns/cache.rs.
      DnsTransport.v: dns/transport.rs.  DnsFlight.v, DnsResolver.v: dns/mod.rs.
    - Inbound.v: the handshakes of proxy/inbound.rs.  SocksUdp.v: proxy/udp.rs.
      Outbound.v: groups and dialers of proxy/mod.rs.  Relay.v: proxy/relay.rs and
      [handle] of proxy/inbound.rs.  UdpRelay.v: the UDP relays of proxy/relay.rs and
      [udp_session] of proxy/udp.rs.  UdpNat.v: proxy/udp_nat.rs.  Direct.v:
      proxy/direct.rs.  Download.v, Prefetch.v: the downloads of proxy/mod.rs and the
      rule-set cache of routing.rs.  Detour.v: the detours, probes and URL-test rounds of
      proxy/mod.rs and the client side of vless.rs.  Startup.v: [build_runtime], and the
      cache file of dns/mod.rs.  Main.v: main.rs, [Server::new], and what the tasks of the
      inbounds set up before they accept connections.
    - EndToEnd.v: [handle] of proxy/inbound.rs as a whole.  Clash.v: clash.rs.
    - Tun.v: the configuration in tun.rs.  TunUdp.v: the UDP loops of tun.rs and
      proxy/tproxy.rs.  TunRoutes.v: tun_route_linux.rs.  TunRedirect.v:
      tun_redirect_linux.rs.  TunRun.v: the start of the device and the rule-set updater
      of tun.rs.

    ** How code becomes definitions

    A fallible function returns [result]: [Ok], [Err] with the message, [Panic], and
    [Diverge] for a loop that did not finish within its fuel.  A reader of a stream is a
    function from the bytes that follow; a writer gives the bytes it wrote.  Integers are
    [Z], in range where a lemma needs it ([u8], [u16], ...), with wrapping, saturating and
    checked operations written out; indices of in-memory slices are [nat].  Hash maps are
    [gmap]; where the iteration order of a hash map can be seen it is an argument
    ([HashIter]).  Shared objects ([Arc], [Mutex]) live in a store and are referred to by
    index (pools in Xmux.v, groups in Outbound.v, flights in DnsFlight.v).  Concurrent
    code is a step relation whose steps are what the code does between two awaits or
    under one lock; theorems about it hold for every interleaving.  The clock, random
    numbers, files, the network and other processes are arguments.  Code of third-party
    crates is a class of operations ([HttpLib], [IpNetLib], [RegexLib], [UuidLib],
    [ProxyLib], [IpRoute], ...) with a second class for the documented behaviour the
    theorems rely on; each has a concrete instance, which the witnesses use.  So are the
    kernel's evaluation of nftables chains ([NftKernel], TunRedirect.v) and the wake-ups of
    tokio's [Notify] ([Notify], DnsFlight.v).

    ** What the theorems show

    - Wire formats: what one side writes the other reads (VLESS requests and XUDP frames,
      XHTTP metadata and payloads, SOCKS datagrams and requests, local DNS replies,
      ClientHellos and ALPN lists), and no parser of bytes from the network panics.
    - Access: the VLESS server and the local inbounds serve only clients that presented
      the credentials of a configured user; a pinned certificate is the only one accepted;
      a UDP answer goes to the client of the flow that answered, and only if the filtering
      behaviour lets the remote through to a session in use; whatever is asked of the Clash
      API leaves groups, final outbound and mode usable.
    - Tunnels (packet-up and stream-one, in the default layout, [plain_client]): the
      backend of an XHTTP tunnel is given a prefix of what the application
      wrote, whatever fails; without faults all of it in a bounded number of steps, so that
      a VLESS request reaches the server's relay with its data, and (EndToEnd.v) a SOCKS
      client's data reach the destination its route chose, through inbound, router, VLESS
      outbound, tunnel and server.
    - Sequence and loss: the XHTTP server writes each packet once and in order, and loses
      none inside its window; the XUDP relay does with the frames of a connection what an
      independent account of its sessions says, as long as no answer interrupts a frame; the
      bytes read while a route is evaluated reach the target, once and first, split and
      framed as the TLS options say; the datagrams of a TUN flow over VLESS arrive once, in
      order and with their addresses, both ways, under the same condition.
    - Limits: sessions, cache entries, connections per pool and policy rules stay within
      their bounds under every interleaving.
    - Routing: lazy resolution decides like eager matching, route evaluation terminates and
      decides like the router, connections are dialled only where they were routed, and a
      validated configuration routes only to outbounds that exist and comes up, every task
      with its service, under conditions on the machine and on what validation does not
      check ([Main.checked_config_runs]); metadata collected only
      as far as some rule reads it gives every rule the answer of the full collection.
    - DNS: the cache is an LRU list with expiry and keeps values of the right kind under
      each key; an answer carries the id of its own question; waiters are not left asleep and
      get the result of their leader, unless it was dropped or panicked; a query through an outbound is given the reply the
      far end wrote.
    - Connections and downloads: a direct dialer fails only when every address failed; an
      HTTP response is read as it was written; a prefetched rule-set is what the server
      had, also when writing its files fails or stops midway (but the tag must not be
      written without the data).
    - Linux routes: while removals do not fail, replacing the plan is atomic and the device
      leaves nothing behind, and the routes and the sets of nftables stay in step through
      the updates of rule-sets; the script redirects exactly the wanted packets, and the
      forwarding switches come back.
    Where the code does not do this in a corner, a lemma or example shows the case and the
    theorem's hypothesis leaves it out.

    ** Fuel

    Loops that consume their input take the length of that input (or one more) as fuel:
    the DNS and TLS parsers, chunking, [drain] (the pending packets), the readers of
    rule-sets, [relay_dns_loop] and [collect_loop].  [skip_name_loop] takes the label
    limit of the code, [allocate] the 65536 ids, [print_digits] the digits of a 128-bit
    number, [range_loop] two blocks for each bit of the width, [route_loop] two turns for
    each rule and two more.  [read_headers] and [read_chunks] take the length of the
    stream and one more, [fetch_loop] the five redirects and the first request.  The theorems that these functions return ([returns ...],
    [route_evaluation_returns], [decode_terminates]) show that the fuel is enough.

    ** Not modelled

    Sockets, TLS sessions, HTTP/2 and HTTP/3 connections, smoltcp and the TUN device
    itself are libraries or the system.  Not modelled of the program's own code, because
    it only calls these: the accept loops and the copying between sockets; the creation of
    listeners, HTTP/3 endpoints and the TUN device; the socket options and [recvmsg] of
    tproxy.rs; the command line, logging and signals of main.rs; the derived
    (de)serialization of the configuration and the benchmark code. *)

From Stdlib Require Export ZArith Lia.
From stdpp Require Export prelude gmap strings list list_numbers sorting.

#[global] Open Scope Z_scope.

(** ** Outcomes of Rust code *)

(** A fallible Rust computation returns [Ok] or [Err] (the message of the
    [anyhow] error, without its interpolated arguments), panics (an index out
    of bounds, an [unwrap] of [None], an arithmetic overflow), or, in a model
    with fuel, [Diverge]s: the loop did not finish within the fuel. *)
Inductive result (A : Type) : Type :=
  | Ok (a : A)
  | Err (msg : string)
  | Panic
  | Diverge.
Arguments Ok {A} a.
Arguments Err {A} msg.
Arguments Panic {A}.
Arguments Diverge {A}.

#[export] Instance result_ret : MRet result := λ A a, Ok a.
#[export] Instance result_bind : MBind result := λ A B f r,
  match r with
  | Ok a => f a
  | Err e => Err e
  | Panic => Panic
  | Diverge => Diverge
  end.
#[export] Instance result_fmap : FMap result := λ A B f r,
  match r with
  | Ok a => Ok (f a)
  | Err e => Err e
  | Panic => Panic
  | Diverge => Diverge
  end.

(** The call came back to its caller: no panic, no exhausted fuel. *)
Definition returns {A} (r : result A) : Prop :=
  match r with Ok _ | Err _ => True | Panic | Diverge => False end.

Definition is_ok {A} (r : result A) : bool :=
  match r with Ok _ => true | _ => false end.

(** [Option::context] of anyhow and [Result::ok]. *)
Definition context {A} (o : option A) (msg : string) : result A :=
  match o with Some a => Ok a | None => Err msg end.

Definition result_ok {A} (r : result A) : option A :=
  match r with Ok a => Some a | _ => None end.

(** [collect::<Result<Vec<_>>>()] over a mapped iterator: stops at the first
    failure. *)
Section map_result.
Context {A B : Type} (f : A → result B).

Fixpoint map_result (l : list A) : result (list B) :=
  match l with
  | [] => Ok []
  | a :: l => b ← f a; bs ← map_result l; Ok (b :: bs)
  end.

End map_result.

(** [for x in l { f(x)?; }] *)
Fixpoint iter_result {A} (f : A → result unit) (l : list A) : result unit :=
  match l with
  | [] => Ok tt
  | a :: l => _ ← f a; iter_result f l
  end.

(** [Iterator::find_map] *)
Fixpoint find_map {A B} (f : A → option B) (l : list A) : option B :=
  match l with
  | [] => None
  | a :: l => match f a with Some b => Some b | None => find_map f l end
  end.

(** ** Hash maps

    [std::collections::HashMap] as [gmap].  The order in which a [HashMap] is
    iterated is unspecified: whatever depends on it takes this interface. *)
Class HashIter K V `{Countable K} := {
  hash_iter : gmap K V → list (K * V);
  hash_iter_perm m : hash_iter m ≡ₚ map_to_list m;
}.

(** One possible order. *)
Definition key_order K V `{Countable K} : HashIter K V :=
  {| hash_iter := map_to_list; hash_iter_perm _ := reflexivity _ |}.

(** ** Tactics *)

(** Case analysis on the innermost scrutinee of a [match] in the goal or in a
    hypothesis, with its equation. *)
Ltac break_match_goal :=
  match goal with
  | |- context [match ?x with _ => _ end] =>
    lazymatch x with
    | context [match _ with _ => _ end] => fail
    | _ => destruct x eqn:?
    end
  end.

Ltac break_match_hyp H :=
  match type of H with
  | context [match ?x with _ => _ end] =>
    lazymatch x with
    | context [match _ with _ => _ end] => fail
    | _ => destruct x eqn:?
    end
  end.

(** Turns boolean comparisons on [Z] and [nat] and boolean connectives into
    propositions. *)
Ltac bool_to_prop :=
  repeat match goal with
  | H : _ && _ = true |- _ => apply andb_true_iff in H; destruct H
  | H : _ || _ = false |- _ => apply orb_false_iff in H; destruct H
  | H : negb _ = true |- _ => apply negb_true_iff in H
  | H : negb _ = false |- _ => apply negb_false_iff in H
  | H : (_ =? _)%Z = true |- _ => apply Z.eqb_eq in H
  | H : (_ =? _)%Z = false |- _ => apply Z.eqb_neq in H
  | H : (_ <? _)%Z = true |- _ => apply Z.ltb_lt in H
  | H : (_ <? _)%Z = false |- _ => apply Z.ltb_ge in H
  | H : (_ <=? _)%Z = true |- _ => apply Z.leb_le in H
  | H : (_ <=? _)%Z = false |- _ => apply Z.leb_gt in H
  | H : (_ =? _)%nat = true |- _ => apply Nat.eqb_eq in H
  | H : (_ =? _)%nat = false |- _ => apply Nat.eqb_neq in H
  | H : (_ <? _)%nat = true |- _ => apply Nat.ltb_lt in H
  | H : (_ <? _)%nat = false |- _ => apply Nat.ltb_ge in H
  | H : (_ <=? _)%nat = true |- _ => apply Nat.leb_le in H
  | H : (_ <=? _)%nat = false |- _ => apply Nat.leb_gt in H
  | H : bool_decide _ = true |- _ => apply bool_decide_eq_true in H
  | H : bool_decide _ = false |- _ => apply bool_decide_eq_false in H
  end.

(** Linear facts about the length of a concatenation of known parts. *)
Ltac length_tac :=
  repeat (progress (cbn [length]; rewrite ?length_app, ?length_take, ?length_drop,
    ?length_fmap, ?length_insert, ?length_replicate; autorewrite with rust));
  cbn [length]; lia.

Create HintDb rust discriminated.
Create Rewrite HintDb rust.

Lemma Ok_inj {A} (a b : A) : Ok a = Ok b → a = b.
Proof. by intros [=]. Qed.

(** Inverts a successful bind. *)
Lemma bind_Ok {A B} (f : A → result B) (r : result A) b :
  (a ← r; f a) = Ok b ↔ ∃ a, r = Ok a ∧ f a = Ok b.
Proof. destruct r; cbn; split; intros; destruct_and?; try naive_solver; discriminate. Qed.

Ltac inv_ok :=
  repeat match goal with
  | H : mbind _ _ = Ok _ |- _ =>
    apply bind_Ok in H; let a := fresh "v" in let E := fresh "E" in
    destruct H as (a & E & H); cbn beta iota in H
  | H : Ok _ = Ok _ |- _ => injection H as H; try subst
  | H : Err _ = Ok _ |- _ => discriminate H
  | H : Panic = Ok _ |- _ => discriminate H
  | H : Diverge = Ok _ |- _ => discriminate H
  end.

Lemma find_map_app {A B} (f : A → option B) l l' :
  find_map f (l ++ l') = match find_map f l with Some b => Some b | None => find_map f l' end.
Proof. induction l as [|a l IH]; cbn; [done|]. by destruct (f a). Qed.

Lemma existsb_ext_in {A} (f g : A → bool) l : (∀ x, x ∈ l → f x = g x) → existsb f l = existsb g l.
Proof.
  induction l as [|x l IH]; intros H; cbn; [done|]. rewrite (H x) by left.
  rewrite IH; [done|]. intros y Hy. apply H. by right.
Qed.

Lemma existsb_filter {A} (f g : A → bool) l : existsb f (List.filter g l) = existsb (λ a, g a && f a) l.
Proof. induction l as [|a l IH]; cbn; [done|]. destruct (g a); cbn; by rewrite IH. Qed.

Lemma existsb_map {A B} (f : B → bool) (g : A → B) l : existsb f (map g l) = existsb (λ a, f (g a)) l.
Proof. induction l as [|a l IH]; cbn; [done|]. by rewrite IH. Qed.

(** A sequence returns when its first part does and its continuation returns
    on every value the first part can produce. *)
Lemma returns_bind {A B} (f : A → result B) (r : result A) :
  returns r → (∀ a, r = Ok a → returns (f a)) → returns (a ← r; f a).
Proof. destruct r; cbn; auto. Qed.

Lemma returns_fmap {A B} (f : A → B) (r : result A) :
  returns r → returns (f <$> r).
Proof. by destruct r. Qed.

Lemma returns_context {A} (o : option A) msg : returns (context o msg).
Proof. by destruct o. Qed.

Lemma returns_Ok {A} (a : A) : returns (Ok a).
Proof. exact I. Qed.

Lemma returns_Err {A} msg : returns (@Err A msg).
Proof. exact I. Qed.

#[export] Hint Resolve returns_context returns_Ok returns_Err returns_fmap : rust.

Lemma context_Ok {A} (o : option A) msg a : context o msg = Ok a ↔ o = Some a.
Proof. destruct o; cbn; split; congruence. Qed.

Lemma returns_map_result {A B} (f : A → result B) l :
  (∀ a, a ∈ l → returns (f a)) → returns (map_result f l).
Proof.
  induction l as [|a l IH]; cbn; [done|]. intros H.
  apply returns_bind; [apply H; left|intros b _].
  apply returns_bind; [apply IH; intros; apply H; by right|done].
Qed.

Lemma map_result_Ok {A B} (f : A → result B) l bs :
  map_result f l = Ok bs ↔ Forall2 (λ a b, f a = Ok b) l bs.
Proof.
  revert bs; induction l as [|a l IH]; intros bs; cbn.
  - split; [intros [= <-]; constructor|by inversion 1].
  - split.
    + intros H; inv_ok. constructor; [done|by apply IH].
    + inversion 1 as [|? b ? bs' Hb Hbs]; subst. rewrite Hb; cbn.
      by rewrite (proj2 (IH bs') Hbs).
Qed.

Lemma iter_result_Ok {A} (f : A → result unit) l :
  iter_result f l = Ok tt ↔ Forall (λ a, f a = Ok tt) l.
Proof.
  induction l as [|a l IH]; cbn; [by split|].
  split.
  - intros H; inv_ok. destruct v. constructor; [done|by apply IH].
  - inversion 1 as [|? ? Ha Hl]; subst. rewrite Ha; cbn. by apply IH.
Qed.

(** ** Machine integers *)

(** A [w]-bit unsigned integer is a [Z] in range; the wrapping and saturating
    operations of the standard library are written out. *)
Definition uint (w : Z) (z : Z) : Prop := 0 ≤ z < 2 ^ w.
Abbreviation u8 := (uint 8).
Abbreviation u16 := (uint 16).
Abbreviation u32 := (uint 32).
Abbreviation u64 := (uint 64).
Abbreviation u128 := (uint 128).

Definition u8_max : Z := 255.
Definition u16_max : Z := 65535.
Definition u32_max : Z := 4294967295.
Definition u64_max : Z := 18446744073709551615.
Definition u128_max : Z := 340282366920938463463374607431768211455.

Definition wrapping_add (w a b : Z) : Z := (a + b) mod 2 ^ w.
Definition saturating_sub (a b : Z) : Z := Z.max 0 (a - b).

(** [a + b] in a build with overflow checks: a panic out of range. *)
Definition checked_or_panic (w : Z) (z : Z) : result Z :=
  if (0 <=? z) && (z <? 2 ^ w) then Ok z else Panic.

(** [T::try_from(v).ok()] into a [w]-bit unsigned integer. *)
Definition try_uint (w : Z) (z : Z) : option Z :=
  if (0 <=? z) && (z <? 2 ^ w) then Some z else None.

#[export] Instance uint_dec w z : Decision (uint w z).
Proof. unfold uint. apply _. Defined.

Lemma try_uint_Some w z v : try_uint w z = Some v ↔ uint w z ∧ v = z.
Proof.
  unfold try_uint, uint. destruct ((0 <=? z) && (z <? 2 ^ w)) eqn:E; bool_to_prop.
  - split; [intros [= <-]; lia|naive_solver].
  - apply andb_false_iff in E. split; [done|].
    intros [? ->]. destruct E; bool_to_prop; lia.
Qed.

(** ** Bytes *)

Abbreviation byte := Z (only parsing).
Abbreviation bytes := (list Z) (only parsing).

(** [to_be_bytes]: [n] bytes, most significant first. *)
Fixpoint to_be (n : nat) (z : Z) : bytes :=
  match n with
  | O => []
  | S n => Z.land (Z.shiftr z (8 * Z.of_nat n)) 255 :: to_be n z
  end.

(** [from_be_bytes] *)
Definition of_be (l : bytes) : Z := fold_left (λ acc b, Z.lor (Z.shiftl acc 8) b) l 0.

Lemma byte_land z : Z.land z 255 = z mod 256.
Proof. change 255 with (Z.ones 8). by rewrite Z.land_ones. Qed.

Lemma length_to_be n z : length (to_be n z) = n.
Proof. induction n; cbn; auto. Qed.

Lemma to_be_u8 n z : Forall u8 (to_be n z).
Proof.
  induction n; cbn; constructor; auto.
  rewrite byte_land. unfold uint. change (2 ^ 8) with 256. apply Z.mod_pos_bound; lia.
Qed.

Lemma shift_or_byte acc b : u8 b → Z.lor (Z.shiftl acc 8) b = acc * 256 + b.
Proof.
  intros Hb. rewrite Z.shiftl_mul_pow2 by lia. change (2 ^ 8) with 256.
  assert (Z.land (acc * 256) b = 0) as Hand.
  { apply Z.bits_inj'. intros n Hn. rewrite Z.land_spec, Z.bits_0.
    change 256 with (2 ^ 8).
    destruct (decide (n < 8)).
    - by rewrite Z.mul_pow2_bits_low.
    - rewrite (Z.bits_above_log2 b n), andb_false_r; [done|unfold uint in Hb; lia|].
      unfold uint in Hb. destruct (decide (b = 0)) as [->|]; [cbn; lia|].
      apply Z.log2_lt_pow2; [lia|]. eapply Z.lt_le_trans; [apply Hb|].
      apply Z.pow_le_mono_r; lia. }
  rewrite <- Z.lxor_lor, Z.add_nocarry_lxor by done. done.
Qed.

Lemma of_be_snoc l b : of_be (l ++ [b]) = Z.lor (Z.shiftl (of_be l) 8) b.
Proof. unfold of_be. by rewrite fold_left_app. Qed.

Lemma to_be_mod n z m : (0 ≤ m) → (Z.of_nat n * 8 ≤ m) → to_be n (z mod 2 ^ m) = to_be n z.
Proof.
  intros Hm. induction n as [|n IH]; cbn [to_be]; intros Hn; [done|].
  rewrite IH by lia. f_equal.
  apply Z.bits_inj'. intros k Hk. rewrite !Z.land_spec.
  destruct (decide (k < 8)).
  - rewrite !Z.shiftr_spec by lia. rewrite Z.mod_pow2_bits_low by lia. done.
  - rewrite (Z.bits_above_log2 255 k), !andb_false_r by (cbn; lia). done.
Qed.

Lemma to_be_snoc n z : to_be (S n) z = to_be n (Z.shiftr z 8) ++ [Z.land z 255].
Proof.
  revert z. induction n as [|n IH]; intros z.
  { cbn. by rewrite Z.shiftr_0_r. }
  change (to_be (S (S n)) z) with
    (Z.land (Z.shiftr z (8 * Z.of_nat (S n))) 255 :: to_be (S n) z).
  rewrite IH. cbn [to_be]. rewrite <- app_comm_cons. do 2 f_equal.
  rewrite Z.shiftr_shiftr by lia. f_equal. lia.
Qed.

Lemma of_be_to_be n z : uint (8 * Z.of_nat n) z → of_be (to_be n z) = z.
Proof.
  revert z. induction n as [|n IH]; intros z Hz.
  { unfold uint in Hz. cbn in *. lia. }
  rewrite to_be_snoc, of_be_snoc, byte_land.
  rewrite shift_or_byte by (unfold uint; change (2 ^ 8) with 256; apply Z.mod_pos_bound; lia).
  rewrite IH.
  - rewrite Z.shiftr_div_pow2 by lia. change (2 ^ 8) with 256.
    pose proof (Z.div_mod z 256). lia.
  - unfold uint in *. rewrite Z.shiftr_div_pow2 by lia. split.
    + apply Z.div_pos; lia.
    + apply Z.div_lt_upper_bound; [lia|]. rewrite <- Z.pow_add_r by lia.
      replace (8 + 8 * Z.of_nat n) with (8 * Z.of_nat (S n)) by lia. apply Hz.
Qed.

Lemma of_be_uint l : Forall u8 l → uint (8 * Z.of_nat (length l)) (of_be l).
Proof.
  induction l as [|b l IH] using rev_ind; [cbn; unfold uint; cbn; lia|].
  intros [Hl Hb]%Forall_app. rewrite Forall_singleton in Hb.
  rewrite of_be_snoc, shift_or_byte by done. specialize (IH Hl).
  unfold uint in *. rewrite length_app; cbn [length].
  replace (8 * Z.of_nat (length l + 1)) with (8 * Z.of_nat (length l) + 8) by lia.
  rewrite Z.pow_add_r by lia. change (2 ^ 8) with 256 in *. nia.
Qed.

Lemma to_be_of_be l : Forall u8 l → to_be (length l) (of_be l) = l.
Proof.
  induction l as [|b l IH] using rev_ind; [done|].
  intros [Hl Hb]%Forall_app. rewrite Forall_singleton in Hb.
  rewrite length_app; cbn [length]. rewrite Nat.add_1_r, to_be_snoc, of_be_snoc.
  rewrite shift_or_byte by done. unfold uint in Hb. change (2 ^ 8) with 256 in Hb.
  rewrite byte_land, Z.shiftr_div_pow2 by lia. change (2 ^ 8) with 256.
  rewrite Z.div_add_l, Z.div_small, Z.add_0_r by lia.
  rewrite IH by done. do 2 f_equal.
  rewrite Z.add_comm, Z.mod_add by lia. by apply Z.mod_small.
Qed.

#[export] Hint Resolve to_be_u8 : rust.
#[export] Hint Rewrite length_to_be : rust.

(** ** Slices *)

(** [l.get(a..b)] *)
Definition slice_get {A} (l : list A) (a b : nat) : option (list A) :=
  if (a <=? b)%nat && (b <=? length l)%nat then Some (take (b - a) (drop a l)) else None.

(** [l[i]]: panics out of bounds. *)
Definition index {A} (l : list A) (i : nat) : result A :=
  match l !! i with Some a => Ok a | None => Panic end.

(** [l[a..b]]: panics out of bounds. *)
Definition slice {A} (l : list A) (a b : nat) : result (list A) :=
  match slice_get l a b with Some s => Ok s | None => Panic end.

(** [l[i] = v] *)
Definition store {A} (l : list A) (i : nat) (v : A) : result (list A) :=
  if (i <? length l)%nat then Ok (<[i := v]> l) else Panic.

(** [l[a..a + src.len()].copy_from_slice(&src)] *)
Definition copy_from_slice {A} (l : list A) (a : nat) (src : list A) : result (list A) :=
  if (a + length src <=? length l)%nat
  then Ok (take a l ++ src ++ drop (a + length src) l) else Panic.

Lemma slice_get_Some {A} (l : list A) a b s :
  slice_get l a b = Some s ↔ (a ≤ b)%nat ∧ (b ≤ length l)%nat ∧ s = take (b - a) (drop a l).
Proof.
  unfold slice_get. destruct ((a <=? b)%nat && (b <=? length l)%nat) eqn:E; bool_to_prop.
  - split; [intros [= <-]; done|naive_solver].
  - split; [done|]. intros (? & ? & ->). apply andb_false_iff in E.
    destruct E; bool_to_prop; lia.
Qed.

Lemma slice_get_length {A} (l : list A) a b s :
  slice_get l a b = Some s → length s = (b - a)%nat.
Proof.
  intros (? & ? & ->)%slice_get_Some. rewrite length_take, length_drop. lia.
Qed.

Lemma slice_get_app {A} (l m r : list A) a b :
  a = length l → b = (a + length m)%nat → slice_get (l ++ m ++ r) a b = Some m.
Proof.
  intros -> ->. apply slice_get_Some. split_and!; [lia|length_tac|].
  rewrite drop_app_length. replace (length l + length m - length l)%nat with (length m) by lia.
  by rewrite take_app_length.
Qed.

Lemma slice_get_lookup {A} (l : list A) a b s i :
  slice_get l a b = Some s → (i < b - a)%nat → s !! i = l !! (a + i)%nat.
Proof.
  intros (? & ? & ->)%slice_get_Some Hi.
  rewrite lookup_take, decide_True by lia. by rewrite lookup_drop.
Qed.

Lemma index_Ok {A} (l : list A) i a : index l i = Ok a ↔ l !! i = Some a.
Proof. unfold index. destruct (l !! i); split; congruence. Qed.

Lemma returns_index {A} (l : list A) i : (i < length l)%nat → returns (index l i).
Proof. intros [a Ha]%lookup_lt_is_Some. unfold index. by rewrite Ha. Qed.

Lemma returns_slice {A} (l : list A) a b :
  (a ≤ b)%nat → (b ≤ length l)%nat → returns (slice l a b).
Proof.
  intros Hab Hb. unfold slice, slice_get.
  by rewrite (proj2 (Nat.leb_le a b) Hab), (proj2 (Nat.leb_le b _) Hb).
Qed.

Lemma copy_from_slice_Ok {A} (l : list A) a src :
  (a + length src ≤ length l)%nat →
  copy_from_slice l a src = Ok (take a l ++ src ++ drop (a + length src) l).
Proof. intros H. unfold copy_from_slice. by rewrite (proj2 (Nat.leb_le _ _) H). Qed.

Lemma copy_from_slice_length {A} (l l' : list A) a src :
  copy_from_slice l a src = Ok l' → length l' = length l.
Proof.
  unfold copy_from_slice. destruct (a + length src <=? length l)%nat eqn:E; [|done].
  bool_to_prop. intros [= <-]. rewrite !length_app, length_take, length_drop. lia.
Qed.

Lemma copy_from_slice_lookup {A} (l l' : list A) a src i :
  copy_from_slice l a src = Ok l' →
  l' !! i = if decide (a ≤ i < a + length src)%nat then src !! (i - a)%nat else l !! i.
Proof.
  unfold copy_from_slice. destruct (a + length src <=? length l)%nat eqn:E; [|done].
  bool_to_prop. intros [= <-]. case_decide as Hi.
  - rewrite lookup_app_r; rewrite length_take; [|lia].
    rewrite lookup_app_l by lia. f_equal. lia.
  - destruct (decide (i < a)%nat).
    + rewrite lookup_app_l by (rewrite length_take; lia).
      by rewrite lookup_take, decide_True by lia.
    + rewrite lookup_app_r; rewrite length_take; [|lia].
      rewrite lookup_app_r by lia. rewrite lookup_drop. f_equal. lia.
Qed.

Lemma store_Ok {A} (l : list A) i v : (i < length l)%nat → store l i v = Ok (<[i := v]> l).
Proof. intros H. unfold store. by rewrite (proj2 (Nat.ltb_lt _ _) H). Qed.

#[export] Hint Resolve returns_index returns_slice : rust.

(** ** Byte streams *)

(** Reading from a stream or a cursor: the bytes that will still arrive before
    the end of the stream are threaded. *)
Definition reader (A : Type) : Type := bytes → result (A * bytes).

#[export] Instance reader_ret : MRet reader := λ A a s, Ok (a, s).
#[export] Instance reader_bind : MBind reader := λ A B f m s,
  match m s with
  | Ok (a, s) => f a s
  | Err e => Err e
  | Panic => Panic
  | Diverge => Diverge
  end.

Definition fail {A} (msg : string) : reader A := λ _, Err msg.
Definition lift {A} (r : result A) : reader A := λ s,
  match r with Ok a => Ok (a, s) | Err e => Err e | Panic => Panic | Diverge => Diverge end.

(** [read_exact] into a buffer of [n] bytes *)
Definition read_exact (n : nat) : reader bytes := λ s,
  if (n <=? length s)%nat then Ok (take n s, drop n s) else Err "early eof".

Definition read_u8 : reader Z := λ s,
  match s with b :: s => Ok (b, s) | [] => Err "early eof" end.

Definition read_u16 : reader Z := b ← read_exact 2; mret (of_be b).

(** A reader that always comes back, and consumes from the front. *)
Definition reader_returns {A} (m : reader A) : Prop := ∀ s, returns (m s).

(** Writing to a stream: the bytes written before the outcome. *)
Definition writer (A : Type) : Type := bytes * result A.

#[export] Instance writer_ret : MRet writer := λ A a, ([], Ok a).
#[export] Instance writer_bind : MBind writer := λ A B f m,
  match m.2 with
  | Ok a => let m' := f a in (m.1 ++ m'.1, m'.2)
  | Err e => (m.1, Err e)
  | Panic => (m.1, Panic)
  | Diverge => (m.1, Diverge)
  end.

Definition write_all (b : bytes) : writer unit := (b, Ok tt).
Definition write_u16 (z : Z) : writer unit := (to_be 2 z, Ok tt).
Definition wlift {A} (r : result A) : writer A := ([], r).

Lemma reader_returns_bind {A B} (f : A → reader B) (m : reader A) :
  reader_returns m → (∀ a, reader_returns (f a)) → reader_returns (a ← m; f a).
Proof.
  intros Hm Hf s. unfold mbind, reader_bind. specialize (Hm s).
  destruct (m s) as [[a s']|e| |]; cbn in *; [by apply Hf|done..].
Qed.

Lemma reader_returns_ret {A} (a : A) : reader_returns (mret a).
Proof. done. Qed.
Lemma reader_returns_fail {A} msg : reader_returns (@fail A msg).
Proof. done. Qed.
Lemma reader_returns_lift {A} (r : result A) : returns r → reader_returns (lift r).
Proof. by destruct r. Qed.
Lemma reader_returns_exact n : reader_returns (read_exact n).
Proof. intros s. unfold read_exact. by destruct (n <=? length s)%nat. Qed.
Lemma reader_returns_u8 : reader_returns read_u8.
Proof. by intros []. Qed.
Lemma reader_returns_u16 : reader_returns read_u16.
Proof. apply reader_returns_bind; [apply reader_returns_exact|done]. Qed.

#[export] Hint Resolve reader_returns_ret reader_returns_fail reader_returns_lift
  reader_returns_exact reader_returns_u8 reader_returns_u16 : rust.

(** Closes goals that a reader built from readers returns. *)
Ltac reader_returns_tac :=
  repeat match goal with
  | |- reader_returns (mbind _ _) => apply reader_returns_bind; [|intros ?]
  | |- reader_returns (match ?x with _ => _ end) => destruct x
  end; auto with rust.

Lemma rbind_eq {A B} (f : A → reader B) (m : reader A) s a s' :
  m s = Ok (a, s') → (a ← m; f a) s = f a s'.
Proof. intros H. unfold mbind, reader_bind. by rewrite H. Qed.

Lemma read_u8_cons b s : read_u8 (b :: s) = Ok (b, s).
Proof. done. Qed.

Lemma read_exact_app n b s : length b = n → read_exact n (b ++ s) = Ok (b, s).
Proof.
  intros <-. unfold read_exact.
  rewrite (proj2 (Nat.leb_le _ _)) by (rewrite length_app; lia).
  by rewrite take_app_length, drop_app_length.
Qed.

Lemma read_u16_app z s : u16 z → read_u16 (to_be 2 z ++ s) = Ok (z, s).
Proof.
  intros Hz. unfold read_u16. erewrite rbind_eq; [|by apply read_exact_app, length_to_be].
  unfold mret, reader_ret. by rewrite of_be_to_be.
Qed.

#[export] Hint Rewrite read_u8_cons read_exact_app read_u16_app
  using (auto with rust) : rust.

(** A reader that consumes at least [k] bytes whenever it succeeds. *)
Definition shrinks {A} (k : nat) (m : reader A) : Prop :=
  ∀ s a s', m s = Ok (a, s') → (length s' + k ≤ length s)%nat.

Lemma rbind_Ok {A B} (f : A → reader B) (m : reader A) s b s' :
  (a ← m; f a) s = Ok (b, s') → ∃ a s0, m s = Ok (a, s0) ∧ f a s0 = Ok (b, s').
Proof.
  unfold mbind, reader_bind. destruct (m s) as [[a s0]|e| |] eqn:E; try discriminate. eauto.
Qed.

Lemma shrinks_bind {A B} k1 k2 k (f : A → reader B) (m : reader A) :
  shrinks k1 m → (∀ a, shrinks k2 (f a)) → (k ≤ k1 + k2)%nat → shrinks k (a ← m; f a).
Proof.
  intros Hm Hf Hk s b s' (a & s0 & Ha & Hb)%rbind_Ok.
  apply Hm in Ha. apply Hf in Hb. lia.
Qed.

Lemma read_exact_Ok n s b s' :
  read_exact n s = Ok (b, s') → s = b ++ s' ∧ length b = n.
Proof.
  unfold read_exact. destruct (n <=? length s)%nat eqn:E; [|done]. bool_to_prop.
  intros [= <- <-]. rewrite take_drop, length_take. split; [done|lia].
Qed.

Lemma read_u8_Ok s b s' : read_u8 s = Ok (b, s') → s = b :: s'.
Proof. destruct s; [done|]. by intros [= -> ->]. Qed.

Lemma shrinks_ret {A} (a : A) : shrinks 0 (mret a).
Proof. intros s b s' [= <- <-]. lia. Qed.
Lemma shrinks_fail {A} msg k : shrinks k (@fail A msg).
Proof. intros s b s' [=]. Qed.
Lemma shrinks_lift {A} (r : result A) : shrinks 0 (lift r).
Proof. intros s b s'. unfold lift. destruct r; [|done..]. intros [= <- <-]. lia. Qed.
Lemma shrinks_exact n : shrinks n (read_exact n).
Proof. intros s b s' [-> <-]%read_exact_Ok. length_tac. Qed.
Lemma shrinks_u8 : shrinks 1 read_u8.
Proof. intros s b s' ->%read_u8_Ok. length_tac. Qed.
Lemma shrinks_weaken {A} k k' (m : reader A) : shrinks k m → (k' ≤ k)%nat → shrinks k' m.
Proof. intros H Hk s a s' Ha%H. lia. Qed.
Lemma shrinks_u16 : shrinks 2 read_u16.
Proof.
  eapply shrinks_bind; [apply shrinks_exact|intros; apply shrinks_ret|lia].
Qed.

#[export] Hint Resolve shrinks_ret shrinks_fail shrinks_lift shrinks_exact shrinks_u8
  shrinks_u16 : rust.

(** Adjacent parts of a list *)
Lemma slice_app {A} (l m r : list A) a b :
  a = length l → b = (a + length m)%nat → slice (l ++ m ++ r) a b = Ok m.
Proof.
  intros -> ->. unfold slice.
  rewrite (proj2 (slice_get_Some _ _ _ m)); [done|]. split_and!; [lia|length_tac|].
  rewrite drop_app_length. replace (length l + length m - length l)%nat with (length m) by lia.
  by rewrite take_app_length.
Qed.

Lemma slice_to_end {A} (l m : list A) a :
  a = length l → slice (l ++ m) a (length (l ++ m)) = Ok m.
Proof.
  intros ->. rewrite <- (app_nil_r (l ++ m)) at 1. rewrite <- app_assoc.
  apply slice_app; [done|length_tac].
Qed.

Lemma slice_prefix {A} (m r : list A) b : b = length m → slice (m ++ r) 0 b = Ok m.
Proof. intros ->. by apply (slice_app []). Qed.

(** ** Counting *)

(** Distinct members of a list are at most as many as its elements. *)
Lemma pigeonhole {A} (f : nat → A) n l :
  (∀ j, (j < n)%nat → f j ∈ l) →
  (∀ i j, (i < n)%nat → (j < n)%nat → f i = f j → i = j) → (n ≤ length l)%nat.
Proof.
  intros Hin Hinj. cut (length (f <$> seq 0 n) ≤ length l)%nat; [by rewrite length_fmap, length_seq|].
  apply submseteq_length, NoDup_submseteq.
  - assert (∀ i, i ∈ seq 0 n → (i < n)%nat) as Hlt by (intros i Hi%elem_of_seq; lia).
    pose proof (NoDup_seq 0 n) as Hnd. induction Hnd as [|i l' Hi _ IH]; [constructor|].
    rewrite fmap_cons. constructor.
    + intros (j & Hj & Hl)%list_elem_of_fmap. apply Hi.
      rewrite (Hinj i j); [done|apply Hlt; by left|apply Hlt; by right|done].
    + apply IH. intros j Hj. apply Hlt. by right.
  - intros x (j & -> & Hj%elem_of_seq)%list_elem_of_fmap. apply Hin. lia.
Qed.
