(* ===== verification/RustStr.v ===== *)
(** * Rust strings

    [String] and [&str] are their UTF-8 bytes.  This file models the part of
    [core::str], [core::num] and [core::fmt] the program uses (splitting,
    trimming, prefix and suffix tests, ASCII case, integer parsing and
    printing, UTF-8 validation) with the lemmas the components share. *)

From S2P Require Import Prelude.

Abbreviation str := (list Z) (only parsing).

(** A literal: the bytes of an ASCII string constant of the source. *)
Fixpoint lit (s : string) : str :=
  match s with
  | EmptyString => []
  | String a s => Z.of_nat (Ascii.nat_of_ascii a) :: lit s
  end.

Definition str_eqb (a b : str) : bool := bool_decide (a = b).

Lemma str_eqb_eq a b : str_eqb a b = true ↔ a = b.
Proof. apply bool_decide_eq_true. Qed.

(** ASCII characters used as separators *)
Definition c_dot : Z := 46.
Definition c_slash : Z := 47.
Definition c_colon : Z := 58.
Definition c_star : Z := 42.
Definition c_quote : Z := 34.
Definition c_lbracket : Z := 91.

(** ** Prefixes, suffixes, search *)

Fixpoint strip_prefix (p s : str) : option str :=
  match p, s with
  | [], _ => Some s
  | a :: p, b :: s => if a =? b then strip_prefix p s else None
  | _ :: _, [] => None
  end.

Definition starts_with (p s : str) : bool :=
  match strip_prefix p s with Some _ => true | None => false end.

Definition strip_suffix (p s : str) : option str :=
  match strip_prefix (reverse p) (reverse s) with
  | Some r => Some (reverse r)
  | None => None
  end.

Definition ends_with (p s : str) : bool :=
  match strip_suffix p s with Some _ => true | None => false end.

(** [s.contains(p)] *)
Fixpoint contains (p s : str) : bool :=
  starts_with p s || match s with [] => false | _ :: s => contains p s end.

Definition contains_char (c : Z) (s : str) : bool := existsb (Z.eqb c) s.

(** ** Trimming and splitting at an ASCII character *)

Fixpoint trim_start_matches (f : Z → bool) (s : str) : str :=
  match s with
  | [] => []
  | c :: s' => if f c then trim_start_matches f s' else s
  end.

Definition trim_end_matches (f : Z → bool) (s : str) : str :=
  reverse (trim_start_matches f (reverse s)).

Definition trim_matches (f : Z → bool) (s : str) : str :=
  trim_end_matches f (trim_start_matches f s).

(** [s.split(c)]: never empty. *)
Fixpoint split (c : Z) (s : str) : list str :=
  match s with
  | [] => [[]]
  | x :: s =>
    if x =? c then [] :: split c s
    else match split c s with
         | [] => [[x]]
         | w :: ws => (x :: w) :: ws
         end
  end.

(** [s.split_once(c)] *)
Fixpoint split_once (c : Z) (s : str) : option (str * str) :=
  match s with
  | [] => None
  | x :: s =>
    if x =? c then Some ([], s)
    else match split_once c s with
         | Some (a, b) => Some (x :: a, b)
         | None => None
         end
  end.

(** [words.join(sep)] *)
Fixpoint join (sep : str) (ws : list str) : str :=
  match ws with
  | [] => []
  | [w] => w
  | w :: ws => w ++ sep ++ join sep ws
  end.

(** ** ASCII case *)

Definition ascii_lower (c : Z) : Z := if (65 <=? c) && (c <=? 90) then c + 32 else c.
Definition ascii_upper (c : Z) : Z := if (97 <=? c) && (c <=? 122) then c - 32 else c.
Definition to_ascii_lowercase (s : str) : str := ascii_lower <$> s.
Definition to_ascii_uppercase (s : str) : str := ascii_upper <$> s.
Definition eq_ignore_ascii_case (a b : str) : bool :=
  bool_decide (to_ascii_lowercase a = to_ascii_lowercase b).

(** ** Unsigned integers *)

Definition digit (c : Z) : option Z :=
  if (48 <=? c) && (c <=? 57) then Some (c - 48) else None.

Fixpoint parse_digits (acc : Z) (s : str) : option Z :=
  match s with
  | [] => Some acc
  | c :: s => d ← digit c; parse_digits (acc * 10 + d) s
  end.

Definition strip_plus (s : str) : str :=
  match s with
  | c :: r => if c =? 43 then r else s
  | [] => s
  end.

(** [s.parse::<uN>()]: an optional plus sign, at least one digit, in range. *)
Definition parse_uint (w : Z) (s : str) : option Z :=
  match strip_plus s with
  | [] => None
  | s => v ← parse_digits 0 s; try_uint w v
  end.

(** [n.to_string()] for an unsigned integer.  The fuel [w] bounds the number of
    decimal digits; 40 covers every 128-bit value. *)
Fixpoint print_digits (fuel : nat) (n : Z) (acc : str) : str :=
  match fuel with
  | O => acc
  | S fuel =>
    let acc := (48 + n mod 10) :: acc in
    if n <? 10 then acc else print_digits fuel (n / 10) acc
  end.

Definition print_uint (n : Z) : str := print_digits 40 n [].

(** ** UTF-8 validation, [String::from_utf8] *)

Definition in_range (b lo hi : Z) : bool := (lo <=? b) && (b <=? hi).
Definition cont (b : Z) : bool := in_range b 128 191.

Fixpoint utf8_valid (l : bytes) : bool :=
  match l with
  | [] => true
  | b0 :: l1 =>
    if in_range b0 0 127 then utf8_valid l1
    else if in_range b0 194 223 then
      match l1 with
      | b1 :: l2 => cont b1 && utf8_valid l2
      | [] => false
      end
    else if in_range b0 224 239 then
      match l1 with
      | b1 :: b2 :: l3 =>
        (if b0 =? 224 then in_range b1 160 191
         else if b0 =? 237 then in_range b1 128 159
         else cont b1) && cont b2 && utf8_valid l3
      | _ => false
      end
    else if in_range b0 240 244 then
      match l1 with
      | b1 :: b2 :: b3 :: l4 =>
        (if b0 =? 240 then in_range b1 144 191
         else if b0 =? 244 then in_range b1 128 143
         else cont b1) && cont b2 && cont b3 && utf8_valid l4
      | _ => false
      end
    else false
  end.

Definition from_utf8 (l : bytes) : result str :=
  if utf8_valid l then Ok l else Err "invalid utf-8 sequence".

(** *** [split_whitespace]

    The byte length of the [char::is_whitespace] character that the string
    starts with, or zero. *)
Definition whitespace (s : str) : nat :=
  match s with
  | c :: s =>
    if in_range c 9 13 || (c =? 32) then 1%nat else
    match s with
    | d :: s =>
      if (c =? 194) && ((d =? 133) || (d =? 160)) then 2%nat else
      match s with
      | e :: _ =>
        if ((c =? 225) && (d =? 154) && (e =? 128))
           || ((c =? 226) && (d =? 128)
               && (in_range e 128 138 || (e =? 168) || (e =? 169) || (e =? 175)))
           || ((c =? 226) && (d =? 129) && (e =? 159))
           || ((c =? 227) && (d =? 128) && (e =? 128))
        then 3%nat else 0%nat
      | [] => 0%nat
      end
    | [] => 0%nat
    end
  | [] => 0%nat
  end.

(** [word] is the current word, [skip] the bytes left of a white space. *)
Fixpoint split_words (skip : nat) (word : str) (s : str) : list str :=
  match s with
  | [] => match word with [] => [] | _ => [word] end
  | c :: s' =>
    match skip with
    | S k => split_words k word s'
    | O =>
      match whitespace s with
      | O => split_words 0 (word ++ [c]) s'
      | S k => match word with [] => [] | _ => [word] end ++ split_words k [] s'
      end
    end
  end.

Definition split_whitespace (s : str) : list str := split_words 0 [] s.

(** The invariant of a Rust [String]. *)
Definition rust_str (s : str) : Prop := Forall u8 s ∧ utf8_valid s = true.

#[export] Instance rust_str_dec s : Decision (rust_str s).
Proof. unfold rust_str. apply _. Defined.

(** ** Lemmas *)

Lemma returns_from_utf8 l : returns (from_utf8 l).
Proof. unfold from_utf8. by destruct (utf8_valid l). Qed.
#[export] Hint Resolve returns_from_utf8 : rust.

Lemma strip_prefix_Some p s r : strip_prefix p s = Some r ↔ s = p ++ r.
Proof.
  revert s. induction p as [|a p IH]; intros s; cbn; [naive_solver|].
  destruct s as [|b s]; [naive_solver|].
  destruct (a =? b) eqn:E; bool_to_prop; [subst; rewrite IH|]; naive_solver.
Qed.

Lemma starts_with_true p s : starts_with p s = true ↔ ∃ r, s = p ++ r.
Proof.
  unfold starts_with. destruct (strip_prefix p s) as [r|] eqn:E.
  - apply strip_prefix_Some in E. naive_solver.
  - split; [done|]. intros [r ->]. rewrite (proj2 (strip_prefix_Some p _ r)) in E; done.
Qed.

Lemma strip_suffix_Some p s r : strip_suffix p s = Some r ↔ s = r ++ p.
Proof.
  unfold strip_suffix. destruct (strip_prefix (reverse p) (reverse s)) as [r'|] eqn:E.
  - apply strip_prefix_Some in E. split.
    + intros [= <-]. rewrite <- (reverse_involutive s), E, reverse_app, reverse_involutive. done.
    + intros ->. rewrite reverse_app in E. apply app_inv_head in E.
      by rewrite <- E, reverse_involutive.
  - split; [done|]. intros ->. rewrite reverse_app in E.
    rewrite (proj2 (strip_prefix_Some _ _ (reverse r))) in E; done.
Qed.

Lemma ends_with_true p s : ends_with p s = true ↔ ∃ r, s = r ++ p.
Proof.
  unfold ends_with. destruct (strip_suffix p s) as [r|] eqn:E.
  - apply strip_suffix_Some in E. naive_solver.
  - split; [done|]. intros [r ->]. rewrite (proj2 (strip_suffix_Some p _ r)) in E; done.
Qed.

Lemma contains_true p s : contains p s = true ↔ ∃ l r, s = l ++ p ++ r.
Proof.
  induction s as [|c s IH]; cbn [contains]; rewrite orb_true_iff, starts_with_true.
  - split; [intros [[r H]|H]; [by exists [], r|done]|].
    intros (l & r & H). left. symmetry in H. apply app_nil in H as [-> H].
    by exists r.
  - rewrite IH. split.
    + intros [[r H]|(l & r & ->)]; [by exists [], r|by exists (c :: l), r].
    + intros ([|x l] & r & H); [left; by exists r|right].
      injection H as -> ->. by exists l, r.
Qed.

Lemma split_nonempty c s : split c s ≠ [].
Proof.
  induction s as [|x s IH]; cbn; [done|]. destruct (x =? c); [done|].
  by destruct (split c s).
Qed.

Lemma join_cons sep w ws : ws ≠ [] → join sep (w :: ws) = w ++ sep ++ join sep ws.
Proof. by destruct ws. Qed.

Lemma join_split c s : join [c] (split c s) = s.
Proof.
  induction s as [|x s IH]; cbn [split]; [done|].
  pose proof (split_nonempty c s) as Hne.
  destruct (x =? c) eqn:E; bool_to_prop.
  - subst. rewrite join_cons by done. cbn. by rewrite IH.
  - destruct (split c s) as [|w [|w' ws]]; [done|by cbn in *; subst|].
    rewrite join_cons in * by done. cbn in *. by rewrite IH.
Qed.

Lemma split_no_sep c s : Forall (λ w, c ∉ w) (split c s).
Proof.
  induction s as [|x s IH]; cbn; [repeat constructor; apply not_elem_of_nil|].
  destruct (x =? c) eqn:E; bool_to_prop; [constructor; [apply not_elem_of_nil|done]|].
  destruct (split c s) as [|w ws]; [repeat constructor; set_solver|].
  inversion IH; subst. constructor; [set_solver|done].
Qed.

Lemma split_word c w : c ∉ w → split c w = [w].
Proof.
  induction w as [|x w IH]; cbn; [done|]. intros Hc.
  rewrite (proj2 (Z.eqb_neq x c)), IH by set_solver. done.
Qed.

Lemma split_app c w s : c ∉ w → split c (w ++ c :: s) = w :: split c s.
Proof.
  induction w as [|x w IH]; intros Hc; cbn [app split].
  - by rewrite Z.eqb_refl.
  - rewrite (proj2 (Z.eqb_neq x c)), IH by set_solver. done.
Qed.

Lemma split_join c ws : ws ≠ [] → Forall (λ w, c ∉ w) ws → split c (join [c] ws) = ws.
Proof.
  induction ws as [|w ws IH]; [done|]. intros _ [Hw Hws]%Forall_cons.
  destruct ws as [|w' ws]; [by apply split_word|].
  rewrite join_cons by done. cbn [app]. rewrite split_app, IH by done. done.
Qed.

Lemma split_once_Some c s a b : split_once c s = Some (a, b) → s = a ++ c :: b ∧ c ∉ a.
Proof.
  revert a. induction s as [|x s IH]; intros a; cbn; [done|].
  destruct (x =? c) eqn:E; bool_to_prop.
  - intros [= <- <-]. subst. split; [done|apply not_elem_of_nil].
  - destruct (split_once c s) as [[a' b']|]; [|done]. intros [= <- <-].
    destruct (IH a' eq_refl) as [-> Hc]. split; [done|set_solver].
Qed.

Lemma split_once_app c a b : c ∉ a → split_once c (a ++ c :: b) = Some (a, b).
Proof.
  induction a as [|x a IH]; intros Hc; cbn.
  - by rewrite Z.eqb_refl.
  - rewrite (proj2 (Z.eqb_neq x c)), IH by set_solver. done.
Qed.

Lemma trim_start_id f s : (∀ c, head s = Some c → f c = false) → trim_start_matches f s = s.
Proof. destruct s as [|c s]; cbn; [done|]. intros H. by rewrite (H c). Qed.

Lemma trim_start_spec f s : ∃ p, s = p ++ trim_start_matches f s ∧ Forall (λ c, f c = true) p.
Proof.
  induction s as [|c s (p & Hs & Hp)]; [by exists []|]. cbn.
  destruct (f c) eqn:E; [|by exists []]. exists (c :: p). split; [by cbn; f_equal|by constructor].
Qed.

Lemma trim_end_spec f s : ∃ p, s = trim_end_matches f s ++ p ∧ Forall (λ c, f c = true) p.
Proof.
  destruct (trim_start_spec f (reverse s)) as (p & Hs & Hp).
  exists (reverse p). unfold trim_end_matches. split; [|by apply Forall_reverse].
  rewrite <- reverse_app, <- Hs, reverse_involutive. done.
Qed.

Lemma trim_end_id f s : (∀ c, last s = Some c → f c = false) → trim_end_matches f s = s.
Proof.
  intros H. unfold trim_end_matches. rewrite trim_start_id, reverse_involutive; [done|].
  intros c Hc. apply H. by rewrite <- head_reverse.
Qed.

Lemma trim_end_last f s c : last (trim_end_matches f s) = Some c → f c = false.
Proof.
  unfold trim_end_matches. rewrite <- head_reverse, reverse_involutive.
  induction (reverse s) as [|x l IH]; cbn; [done|].
  destruct (f x) eqn:E; [done|]. by intros [= <-].
Qed.

Lemma trim_end_idemp f s : trim_end_matches f (trim_end_matches f s) = trim_end_matches f s.
Proof. apply trim_end_id. intros c. apply trim_end_last. Qed.

Lemma ascii_lower_idemp c : ascii_lower (ascii_lower c) = ascii_lower c.
Proof.
  unfold ascii_lower at 2 3. destruct ((65 <=? c) && (c <=? 90)) eqn:E; unfold ascii_lower.
  - bool_to_prop. replace ((65 <=? c + 32) && (c + 32 <=? 90)) with false; [done|].
    symmetry. apply andb_false_iff. right. apply Z.leb_gt. lia.
  - by rewrite E.
Qed.

Lemma to_ascii_lowercase_idemp s :
  to_ascii_lowercase (to_ascii_lowercase s) = to_ascii_lowercase s.
Proof.
  unfold to_ascii_lowercase. rewrite <- list_fmap_compose.
  apply list_fmap_ext. intros i x _. apply ascii_lower_idemp.
Qed.

Lemma ascii_lower_lt c k : k < 65 → ascii_lower c = k ↔ c = k.
Proof.
  intros Hk. unfold ascii_lower. destruct ((65 <=? c) && (c <=? 90)) eqn:E; [|done].
  bool_to_prop. lia.
Qed.

Lemma to_ascii_lowercase_app a b :
  to_ascii_lowercase (a ++ b) = to_ascii_lowercase a ++ to_ascii_lowercase b.
Proof. apply fmap_app. Qed.

(** *** UTF-8 is self-synchronising at ASCII separators *)

Lemma in_range_true b lo hi : in_range b lo hi = true ↔ lo ≤ b ≤ hi.
Proof. unfold in_range. rewrite andb_true_iff, !Z.leb_le. done. Qed.

Lemma cont_ascii c : in_range c 0 127 = true → cont c = false.
Proof.
  rewrite in_range_true. intros Hc. apply not_true_iff_false.
  unfold cont. rewrite in_range_true. lia.
Qed.

Lemma cont_sub c lo hi :
  in_range c 0 127 = true → 128 ≤ lo → in_range c lo hi = false.
Proof.
  rewrite in_range_true. intros Hc Hlo. apply not_true_iff_false.
  rewrite in_range_true. lia.
Qed.

Lemma utf8_valid_app_ascii a c b :
  in_range c 0 127 = true → utf8_valid (a ++ c :: b) = utf8_valid a && utf8_valid b.
Proof.
  intros Hc. pose proof (cont_ascii c Hc) as Hcont.
  induction a as [a IH] using (induction_ltof1 _ (@length Z)). unfold ltof in IH.
  assert (∀ a', (length a' < length a)%nat →
    utf8_valid (a' ++ c :: b) = utf8_valid a' && utf8_valid b) as IH' by auto. clear IH.
  destruct a as [|b0 a1]; cbn [app utf8_valid]; [by rewrite Hc|].
  destruct (in_range b0 0 127); [apply IH'; cbn; lia|].
  destruct (in_range b0 194 223).
  { destruct a1 as [|b1 a2]; cbn [app]; [by rewrite Hcont|].
    rewrite IH' by (cbn; lia). by rewrite andb_assoc. }
  destruct (in_range b0 224 239).
  { destruct a1 as [|b1 [|b2 a3]]; cbn [app].
    - destruct b as [|b1 b2]; [done|].
      rewrite !cont_sub by (done || lia). rewrite Hcont. by repeat destruct (_ =? _).
    - rewrite Hcont, andb_false_r. done.
    - rewrite IH' by (cbn; lia). by rewrite !andb_assoc. }
  destruct (in_range b0 240 244); [|done].
  destruct a1 as [|b1 [|b2 [|b3 a4]]]; cbn [app].
  - destruct b as [|b1 [|b2 b3]]; [done|done|].
    rewrite !cont_sub by (done || lia). rewrite Hcont. by repeat destruct (_ =? _).
  - destruct b as [|b2 b3]; [done|]. rewrite Hcont, andb_false_r. done.
  - rewrite Hcont, andb_false_r. done.
  - rewrite IH' by (cbn; lia). by rewrite !andb_assoc.
Qed.

Lemma utf8_valid_split c s :
  in_range c 0 127 = true → utf8_valid s = true →
  Forall (λ w, utf8_valid w = true) (split c s).
Proof.
  intros Hc. rewrite <- (join_split c s) at 1.
  pose proof (split_nonempty c s) as Hne. revert Hne.
  generalize (split c s) as ws. induction ws as [|w ws IH]; [done|].
  destruct ws as [|w' ws]; [by repeat constructor|].
  intros _. rewrite join_cons by done. cbn [app].
  rewrite utf8_valid_app_ascii by done. intros [? ?]%andb_true_iff.
  constructor; [done|]. by apply IH.
Qed.

Lemma Forall_split (P : Z → Prop) c s : Forall P s → Forall (Forall P) (split c s).
Proof.
  induction s as [|x s IH]; cbn; [by repeat constructor|].
  intros [Hx Hs]%Forall_cons. specialize (IH Hs).
  destruct (x =? c); [by repeat constructor|].
  destruct (split c s); [by repeat constructor|].
  inversion IH; subst. by repeat constructor.
Qed.

(** *** Decimal printing and parsing *)

Definition is_digit (c : Z) : Prop := 48 ≤ c ≤ 57.

Lemma digit_Some d : 0 ≤ d < 10 → digit (48 + d) = Some d.
Proof.
  intros Hd. unfold digit.
  replace ((48 <=? 48 + d) && (48 + d <=? 57)) with true by (symmetry; apply andb_true_iff; lia).
  f_equal. lia.
Qed.

Lemma print_digits_spec fuel n :
  0 ≤ n < 10 ^ Z.of_nat fuel → (0 < fuel)%nat →
  ∃ ds, ds ≠ [] ∧ Forall is_digit ds ∧
    (∀ acc, print_digits fuel n acc = ds ++ acc) ∧
    (∀ a rest, parse_digits a (ds ++ rest) =
               parse_digits (a * 10 ^ Z.of_nat (length ds) + n) rest).
Proof.
  revert n. induction fuel as [|fuel IH]; [lia|]. intros n Hn _.
  pose proof (Z.mod_pos_bound n 10 ltac:(lia)) as Hm.
  cbn [print_digits]. destruct (n <? 10) eqn:E; bool_to_prop.
  - rewrite Z.mod_small by lia. exists [48 + n].
    split_and!; [done|apply Forall_singleton; unfold is_digit; lia|done|].
    intros a rest. cbn [app parse_digits]. rewrite digit_Some by lia. cbn [mbind option_bind].
    cbn [length]. by rewrite Z.pow_1_r.
  - destruct fuel as [|fuel].
    { change (10 ^ Z.of_nat 1) with 10 in Hn. lia. }
    destruct (IH (n / 10)) as (ds & Hne & Hds & Hp & Hv); [|lia|].
    { split; [apply Z.div_pos; lia|]. apply Z.div_lt_upper_bound; [lia|].
      rewrite <- (Z.pow_1_r 10) at 1. rewrite <- Z.pow_add_r by lia.
      replace (1 + Z.of_nat (S fuel)) with (Z.of_nat (S (S fuel))) by lia. lia. }
    exists (ds ++ [48 + n mod 10]). split_and!.
    + by destruct ds.
    + apply Forall_app; split; [done|]. apply Forall_singleton. unfold is_digit. lia.
    + intros acc. rewrite Hp, <- app_assoc. done.
    + intros a rest. rewrite <- app_assoc, Hv. cbn [app parse_digits].
      rewrite digit_Some by lia. cbn [mbind option_bind]. f_equal.
      rewrite length_app, Nat2Z.inj_add, Z.pow_add_r by lia.
      change (10 ^ Z.of_nat (length [48 + n mod 10])) with 10.
      pose proof (Z.div_mod n 10). lia.
Qed.

Lemma print_uint_spec n :
  u128 n → ∃ ds, print_uint n = ds ∧ ds ≠ [] ∧ Forall is_digit ds ∧ parse_digits 0 ds = Some n.
Proof.
  intros Hn. destruct (print_digits_spec 40 n) as (ds & Hne & Hds & Hp & Hv);
    [|lia|].
  { unfold uint in Hn. assert (2 ^ 128 < 10 ^ 40) by reflexivity.
    change (Z.of_nat 40) with 40. lia. }
  exists ds. unfold print_uint. rewrite Hp, app_nil_r. repeat split; try done.
  specialize (Hv 0 []). rewrite app_nil_r in Hv. by rewrite Hv.
Qed.

Lemma parse_print_uint w n : 0 ≤ w ≤ 128 → uint w n → parse_uint w (print_uint n) = Some n.
Proof.
  intros Hw Hn. destruct (print_uint_spec n) as (ds & -> & Hne & Hds & Hv).
  { unfold uint in *. split; [lia|]. eapply Z.lt_le_trans; [apply Hn|].
    apply Z.pow_le_mono_r; lia. }
  unfold parse_uint. destruct ds as [|c ds]; [done|].
  inversion Hds as [|? ? Hc _]; subst. unfold is_digit in Hc.
  unfold strip_plus. rewrite (proj2 (Z.eqb_neq c 43)) by lia.
  rewrite Hv. cbn. by apply try_uint_Some.
Qed.

Lemma print_uint_no_char n c : u128 n → ¬ is_digit c → c ∉ print_uint n.
Proof.
  intros Hn Hc. destruct (print_uint_spec n Hn) as (ds & -> & _ & Hds & _).
  intros Hin. rewrite Forall_forall in Hds. by apply Hc, Hds.
Qed.

Lemma print_uint_digits n : u128 n → print_uint n ≠ [] ∧ Forall is_digit (print_uint n).
Proof. intros Hn. by destruct (print_uint_spec n Hn) as (ds & -> & ? & ? & _). Qed.

Lemma print_uint_inj a b : u128 a → u128 b → print_uint a = print_uint b → a = b.
Proof.
  intros Ha Hb Heq. pose proof (parse_print_uint 128 a ltac:(lia) Ha) as H.
  rewrite Heq, (parse_print_uint 128 b ltac:(lia) Hb) in H. by injection H.
Qed.

Lemma utf8_valid_ascii s : Forall (λ c, 0 ≤ c ≤ 127) s → utf8_valid s = true.
Proof.
  induction 1 as [|c s Hc _ IH]; [done|]. cbn [utf8_valid].
  by rewrite (proj2 (in_range_true c 0 127) Hc).
Qed.

Lemma to_ascii_lowercase_digits s : Forall is_digit s → to_ascii_lowercase s = s.
Proof.
  induction 1 as [|c s Hc _ IH]; [done|]. unfold to_ascii_lowercase in *. cbn. rewrite IH. f_equal.
  unfold ascii_lower, is_digit in *. by rewrite (proj2 (Z.leb_gt 65 c)) by lia.
Qed.
