(* ===== verification/Net.v ===== *)
(** * IP addresses

    The part of [core::net] the program uses: [IpAddr] and [SocketAddr], their
    octets, the address classes the router tests, parsing ([FromStr]) and
    printing ([Display]).  An address is its numeric value: 32 bits for V4, 128
    bits for V6.  The file also states the interfaces of two third-party crates
    the program takes networks and regular expressions from. *)

From S2P Require Import Prelude RustStr.

Inductive IpAddr : Set :=
  | V4 (a : Z)
  | V6 (a : Z).

#[export] Instance IpAddr_eq_dec : EqDecision IpAddr.
Proof. solve_decision. Defined.

#[export] Instance IpAddr_countable : Countable IpAddr.
Proof.
  refine (inj_countable'
    (λ ip, match ip with V4 a => inl a | V6 a => inr a end)
    (λ s, match s with inl a => V4 a | inr a => V6 a end) _).
  by intros [].
Defined.

Definition ip_ok (ip : IpAddr) : Prop :=
  match ip with V4 a => u32 a | V6 a => u128 a end.

Definition octets (ip : IpAddr) : bytes :=
  match ip with V4 a => to_be 4 a | V6 a => to_be 16 a end.

Definition is_ipv4 (ip : IpAddr) : bool := match ip with V4 _ => true | V6 _ => false end.
Definition is_ipv6 (ip : IpAddr) : bool := negb (is_ipv4 ip).

(** [Ipv6Addr::segments] *)
Definition segment (a : Z) (i : Z) : Z := Z.land (Z.shiftr a (112 - 16 * i)) 65535.
Definition segments (a : Z) : list Z := segment a <$> [0; 1; 2; 3; 4; 5; 6; 7].

Record SocketAddr : Set := mkSocketAddr { sa_ip : IpAddr; sa_port : Z }.

#[export] Instance SocketAddr_eq_dec : EqDecision SocketAddr.
Proof. solve_decision. Defined.

#[export] Instance SocketAddr_countable : Countable SocketAddr.
Proof.
  refine (inj_countable' (λ s, (sa_ip s, sa_port s)) (λ p, mkSocketAddr p.1 p.2) _).
  by intros [].
Defined.

(** ** Parsing *)

Module IpParser.

(** The standard library's parser threads the remaining input; every reader
    is atomic: on failure nothing is consumed. *)
Definition parser (A : Type) : Type := str → option (A * str).

Definition to_digit (radix : Z) (c : Z) : option Z :=
  let d := if in_range c 48 57 then Some (c - 48)
           else if in_range c 97 102 then Some (c - 87)
           else if in_range c 65 70 then Some (c - 55) else None in
  d ← d; if d <? radix then Some d else None.

Fixpoint span_digits (radix : Z) (s : str) : list Z * str :=
  match s with
  | [] => ([], [])
  | c :: s' =>
    match to_digit radix c with
    | Some d => let '(ds, r) := span_digits radix s' in (d :: ds, r)
    | None => ([], s)
    end
  end.

Definition digits_value (radix : Z) (ds : list Z) : Z :=
  fold_left (λ acc d, acc * radix + d) ds 0.

Definition read_number (radix : Z) (max_digits : nat) (allow_zero_prefix : bool)
    (w : Z) : parser Z := λ s,
  let '(ds, r) := span_digits radix s in
  let n := length ds in
  let leading_zero := match s with c :: _ => c =? 48 | [] => false end in
  if (n =? 0)%nat || (max_digits <? n)%nat then None
  else if negb allow_zero_prefix && leading_zero && (1 <? n)%nat then None
  else v ← try_uint w (digits_value radix ds); Some (v, r).

Definition read_given_char (c : Z) : parser unit := λ s,
  match s with
  | x :: s => if x =? c then Some (tt, s) else None
  | [] => None
  end.

Definition read_separator {A} (sep : Z) (i : nat) (inner : parser A) : parser A := λ s,
  match i with
  | O => inner s
  | S _ => '(_, s) ← read_given_char sep s; inner s
  end.

Definition read_ipv4_addr : parser Z := λ s,
  '(a, s) ← read_separator c_dot 0 (read_number 10 3 false 8) s;
  '(b, s) ← read_separator c_dot 1 (read_number 10 3 false 8) s;
  '(c, s) ← read_separator c_dot 2 (read_number 10 3 false 8) s;
  '(d, s) ← read_separator c_dot 3 (read_number 10 3 false 8) s;
  Some (of_be [a; b; c; d], s).

(** [read_groups]: reads up to [limit] groups from index [i]; returns the
    groups, and whether an embedded IPv4 address ended them. *)
Fixpoint read_groups (limit : nat) (i : nat) (s : str) : list Z * bool * str :=
  match limit with
  | O => ([], false, s)
  | S k =>
    let v4 := match k with
              | O => None
              | S _ => read_separator c_colon i read_ipv4_addr s
              end in
    match v4 with
    | Some (a, s) => ([Z.shiftr a 16; Z.land a 65535], true, s)
    | None =>
      match read_separator c_colon i (read_number 16 4 true 16) s with
      | Some (g, s) =>
        let '(gs, v4, s) := read_groups k (S i) s in (g :: gs, v4, s)
      | None => ([], false, s)
      end
    end
  end.

Definition of_groups (gs : list Z) : Z :=
  fold_left (λ acc g, Z.lor (Z.shiftl acc 16) g) gs 0.

Definition read_ipv6_addr : parser Z := λ s,
  let '(head, head_ipv4, s) := read_groups 8 0 s in
  if (length head =? 8)%nat then Some (of_groups head, s)
  else if head_ipv4 then None
  else
    '(_, s) ← read_given_char c_colon s;
    '(_, s) ← read_given_char c_colon s;
    let '(tail, _, s) := read_groups (8 - (length head + 1)) 0 s in
    Some (of_groups (head ++ replicate (8 - length head - length tail) 0 ++ tail), s).

Definition read_ip_addr : parser IpAddr := λ s,
  match read_ipv4_addr s with
  | Some (a, s) => Some (V4 a, s)
  | None => '(a, s) ← read_ipv6_addr s; Some (V6 a, s)
  end.

End IpParser.

(** [s.parse::<IpAddr>()]: the whole input must be consumed. *)
Definition parse_ip (s : str) : option IpAddr :=
  match IpParser.read_ip_addr s with
  | Some (ip, []) => Some ip
  | _ => None
  end.

(** ** Printing *)

Definition hex_digit (d : Z) : Z := if d <? 10 then 48 + d else 87 + d.

(** [{:x}] of a 16-bit segment *)
Definition print_hex16 (n : Z) : str :=
  let ds := [Z.shiftr n 12; Z.land (Z.shiftr n 8) 15; Z.land (Z.shiftr n 4) 15; Z.land n 15] in
  let ds := match ds with
            | 0 :: 0 :: 0 :: r => r
            | 0 :: 0 :: r => r
            | 0 :: r => r
            | r => r
            end in
  hex_digit <$> ds.

Definition print_ipv4 (a : Z) : str := join [c_dot] (print_uint <$> to_be 4 a).

(** The first longest run of zero segments: (start, length). *)
Fixpoint longest_zeros (gs : list Z) (i : nat) (cur best : nat * nat) : nat * nat :=
  match gs with
  | [] => best
  | g :: gs =>
    if g =? 0 then
      let cur := match cur.2 with O => (i, 1%nat) | S _ => (cur.1, S cur.2) end in
      longest_zeros gs (S i) cur (if (best.2 <? cur.2)%nat then cur else best)
    else longest_zeros gs (S i) (0%nat, 0%nat) best
  end.

Definition print_ipv6 (a : Z) : str :=
  if Z.shiftr a 32 =? 65535 then lit "::ffff:" ++ print_ipv4 (Z.land a 4294967295)
  else
    let gs := segments a in
    let '(start, len) := longest_zeros gs 0 (0, 0)%nat (0, 0)%nat in
    if (1 <? len)%nat then
      join [c_colon] (print_hex16 <$> take start gs) ++ lit "::" ++
      join [c_colon] (print_hex16 <$> drop (start + len) gs)
    else join [c_colon] (print_hex16 <$> gs).

Definition print_ip (ip : IpAddr) : str :=
  match ip with V4 a => print_ipv4 a | V6 a => print_ipv6 a end.

Example parse_v4 : parse_ip (lit "192.0.2.10") = Some (V4 3221225994).
Proof. reflexivity. Qed.
Example parse_v4_octal : parse_ip (lit "192.0.02.10") = None.
Proof. reflexivity. Qed.
Example parse_v6 : parse_ip (lit "2001:db8::1:0:2") = Some (V6 0x20010db8000000000000000100000002).
Proof. reflexivity. Qed.
Example parse_v6_mapped : parse_ip (lit "::ffff:1.2.3.4") = Some (V6 0xffff01020304).
Proof. reflexivity. Qed.
Example parse_v6_short : parse_ip (lit "1:2:3") = None.
Proof. reflexivity. Qed.
Example print_v6 : print_ip (V6 0x20010db8000000000000000100000002) = lit "2001:db8::1:0:2".
Proof. reflexivity. Qed.
Example print_v6_one : print_ip (V6 1) = lit "::1".
Proof. reflexivity. Qed.

(** ** Interfaces of third-party crates *)

(** [ipnet]: a network is a V4 or V6 prefix.  The crate's parser and its
    [network] (the address with the host bits cleared) and [contains] are
    parameters; [IpNet::prefix_len] is at most the width of the family. *)
Class IpNetLib := {
  IpNet : Type;
  IpNet_eq_dec :: EqDecision IpNet;
  ipnet_parse : str → option IpNet;
  ipnet_host : IpAddr → IpNet;  (* IpNet::new(address, full width) *)
  ipnet_network : IpNet → IpAddr;
  ipnet_prefix_len : IpNet → Z;
  ipnet_contains : IpNet → IpAddr → bool;
  ipnet_print : IpNet → str;
}.

(** What the documentation of [ipnet] promises. *)
Class IpNetLaws (L : IpNetLib) := {
  ipnet_prefix_bound n :
    0 ≤ ipnet_prefix_len n ≤ match ipnet_network n with V4 _ => 32 | V6 _ => 128 end;
  ipnet_network_ok n : ip_ok (ipnet_network n);
}.

(** [regex]: [Regex::new] and [is_match]. *)
Class RegexLib := {
  Regex : Type;
  regex_new : str → option Regex;
  regex_is_match : Regex → str → bool;
}.

(** ** Lemmas *)

Lemma length_octets ip : length (octets ip) = if is_ipv4 ip then 4%nat else 16%nat.
Proof. destruct ip; cbn [octets is_ipv4]; apply length_to_be. Qed.

Lemma octets_u8 ip : Forall u8 (octets ip).
Proof. destruct ip; cbn [octets]; apply to_be_u8. Qed.

Lemma of_be_octets_v4 a : u32 a → of_be (to_be 4 a) = a.
Proof. intros Ha. by apply of_be_to_be. Qed.

Lemma of_be_octets_v6 a : u128 a → of_be (to_be 16 a) = a.
Proof. intros Ha. by apply of_be_to_be. Qed.

#[export] Hint Resolve octets_u8 : rust.

(** ** A concrete [ipnet]

    The classes above are not vacuous: CIDR prefixes as an address and a
    length.  The examples and the witnesses of the other files use it. *)

Module Cidr.

Definition width (ip : IpAddr) : Z := match ip with V4 _ => 32 | V6 _ => 128 end.

Definition prefix_len (n : IpAddr * Z) : Z := Z.max 0 (Z.min n.2 (width n.1)).

Definition mask (w p a : Z) : Z := Z.shiftl (Z.shiftr (a mod 2 ^ w) (w - p)) (w - p).

Definition network (n : IpAddr * Z) : IpAddr :=
  match n.1 with
  | V4 a => V4 (mask 32 (prefix_len n) a)
  | V6 a => V6 (mask 128 (prefix_len n) a)
  end.

Definition contains (n : IpAddr * Z) (ip : IpAddr) : bool :=
  match n.1, ip with
  | V4 a, V4 b => mask 32 (prefix_len n) a =? mask 32 (prefix_len n) b
  | V6 a, V6 b => mask 128 (prefix_len n) a =? mask 128 (prefix_len n) b
  | _, _ => false
  end.

Definition parse (s : str) : option (IpAddr * Z) :=
  '(a, p) ← split_once c_slash s;
  ip ← parse_ip a;
  p ← parse_uint 8 p;
  if p <=? width ip then Some (ip, p) else None.

#[export] Instance lib : IpNetLib := {|
  IpNet := IpAddr * Z;
  ipnet_parse := parse;
  ipnet_host ip := (ip, width ip);
  ipnet_network := network;
  ipnet_prefix_len := prefix_len;
  ipnet_contains := contains;
  ipnet_print n := print_ip n.1 ++ lit "/" ++ print_uint n.2;
|}.

Lemma mask_bounds w p a : 0 ≤ p ≤ w → 0 ≤ mask w p a < 2 ^ w.
Proof.
  intros Hp. unfold mask. rewrite Z.shiftl_mul_pow2, Z.shiftr_div_pow2 by lia.
  assert (0 < 2 ^ w) by lia. assert (0 < 2 ^ (w - p)) by lia.
  pose proof (Z.mod_pos_bound a (2 ^ w) ltac:(lia)).
  pose proof (Z.mul_div_le (a mod 2 ^ w) (2 ^ (w - p)) ltac:(lia)).
  assert (0 ≤ a mod 2 ^ w / 2 ^ (w - p)) by (apply Z.div_pos; lia). nia.
Qed.

#[export] Instance laws : IpNetLaws lib.
Proof.
  split; intros [[a|a] p]; cbn; unfold prefix_len; cbn; try lia; apply mask_bounds; lia.
Qed.

End Cidr.

(** A concrete [regex]: a pattern is a literal that may occur anywhere. *)
Module Literal.

#[export] Instance regex : RegexLib :=
  {| Regex := str; regex_new s := Some s; regex_is_match r s := contains r s |}.

End Literal.
