(* ===== verification/IpText.v ===== *)
(** * The text of IP addresses

    What the program prints as an address parses back to the same address: the
    dotted form of IPv4, and every form the standard library chooses for IPv6 (the
    longest run of zero groups compressed, IPv4-mapped addresses with a dotted
    tail).  The proxy relies on it wherever an address passes through text. *)

From S2P Require Import Prelude RustStr Net.

Import IpParser.

(** ** Digits *)

(** The input ends or goes on with something that is not a digit. *)
Definition stops (radix : Z) (s : str) : Prop := ∀ c, head s = Some c → to_digit radix c = None.

Lemma to_digit_hex radix d : 0 ≤ d < radix → radix ≤ 16 → to_digit radix (hex_digit d) = Some d.
Proof.
  intros Hd Hr. unfold to_digit, hex_digit, in_range. destruct (d <? 10) eqn:E; bool_to_prop.
  - rewrite (proj2 (Z.leb_le 48 _)), (proj2 (Z.leb_le _ 57)) by lia. cbn.
    rewrite (proj2 (Z.ltb_lt _ _)) by lia. f_equal. lia.
  - rewrite (proj2 (Z.leb_gt (87 + d) 57)), andb_false_r by lia.
    rewrite (proj2 (Z.leb_le 97 _)), (proj2 (Z.leb_le _ 102)) by lia. cbn.
    rewrite (proj2 (Z.ltb_lt _ _)) by lia. f_equal. lia.
Qed.

Lemma span_digits_app radix ds rest :
  radix ≤ 16 → Forall (λ d, 0 ≤ d < radix) ds → stops radix rest →
  span_digits radix ((hex_digit <$> ds) ++ rest) = (ds, rest).
Proof.
  intros Hr Hds Hs. induction Hds as [|d ds Hd _ IH].
  - destruct rest as [|c rest]; cbn; [done|]. by rewrite (Hs c eq_refl).
  - rewrite fmap_cons, <- app_comm_cons. cbn [span_digits]. by rewrite to_digit_hex, IH.
Qed.

(** A number as its digits. *)
Definition numeral (radix : Z) (max_digits : nat) (n : Z) (s : str) (ds : list Z) : Prop :=
  s = hex_digit <$> ds ∧ Forall (λ d, 0 ≤ d < radix) ds ∧ (0 < length ds ≤ max_digits)%nat ∧
  digits_value radix ds = n.

Lemma read_numeral radix max_digits zeros w n s ds rest :
  radix ≤ 16 → numeral radix max_digits n s ds → uint w n →
  (zeros = true ∨ ∀ d ds', ds = d :: ds' → d = 0 → ds' = []) → stops radix rest →
  read_number radix max_digits zeros w (s ++ rest) = Some (n, rest).
Proof.
  intros Hr (-> & Hds & Hlen & Hv) Hn Hz Hs. unfold read_number.
  rewrite span_digits_app by done. rewrite Hv.
  rewrite (proj2 (Nat.eqb_neq _ _)), (proj2 (Nat.ltb_ge _ _)) by lia. cbn [orb].
  assert (negb zeros && match (hex_digit <$> ds) ++ rest with c :: _ => c =? 48 | [] => false end &&
    (1 <? length ds)%nat = false) as ->.
  { destruct Hz as [->|Hz]; [done|]. destruct ds as [|d [|e ds]]; cbn; [lia|by rewrite andb_false_r|].
    destruct (hex_digit d =? 48) eqn:E; [|by rewrite andb_false_r]. bool_to_prop.
    assert (d = 0) as ->; [|by specialize (Hz 0 (e :: ds) eq_refl eq_refl)].
    unfold hex_digit in E. apply Forall_cons in Hds as [? _]. destruct (d <? 10) eqn:?; bool_to_prop; lia. }
  by rewrite (proj2 (try_uint_Some w n n)).
Qed.

Lemma stops_nil radix : stops radix [].
Proof. by intros c. Qed.

Lemma stops_char radix c s : to_digit radix c = None → stops radix (c :: s).
Proof. by intros H c' [= <-]. Qed.

#[local] Hint Resolve stops_nil stops_char : core.

(** ** IPv4 *)

(** An octet has one to three digits and no leading zero. *)
Definition octet_ok (n : Z) : bool :=
  let ds := (λ c, c - 48) <$> print_uint n in
  bool_decide (print_uint n = hex_digit <$> ds) && bool_decide (Forall (λ d, 0 ≤ d < 10) ds) &&
  (0 <? length ds)%nat && (length ds <=? 3)%nat && (digits_value 10 ds =? n) &&
  match ds with d :: _ :: _ => negb (d =? 0) | _ => true end.

Lemma octets_ok : forallb (λ i, octet_ok (Z.of_nat i)) (seq 0 256) = true.
Proof. by vm_compute. Qed.

Lemma read_octet n rest : u8 n → stops 10 rest → read_number 10 3 false 8 (print_uint n ++ rest) = Some (n, rest).
Proof.
  intros Hn Hs. assert (octet_ok n = true) as Hok.
  { pose proof octets_ok as H. rewrite forallb_forall in H. unfold uint in Hn.
    rewrite <- (Z2Nat.id n) by lia. apply H, in_seq. lia. }
  unfold octet_ok in Hok. bool_to_prop. eapply read_numeral; [done| |done|right|done].
  - split; [done|]. split; [done|]. split; [lia|done].
  - intros d ds' E ->. destruct ds' as [|e ds']; [done|].
    match goal with H : context [match ?l with _ => _ end] |- _ => rewrite E in H; done end.
Qed.

Lemma read_print_ipv4 a rest : u32 a → stops 10 rest → read_ipv4_addr (print_ipv4 a ++ rest) = Some (a, rest).
Proof.
  intros Ha Hs. pose proof (of_be_octets_v4 a Ha) as Hv. pose proof (to_be_u8 4 a) as Hu.
  unfold print_ipv4. destruct (to_be 4 a) as [|b1 [|b2 [|b3 [|b4 [|]]]]] eqn:E;
    apply (f_equal length) in E as El; rewrite length_to_be in El; try (cbn in El; lia).
  rewrite !Forall_cons in Hu. destruct Hu as (H1 & H2 & H3 & H4 & _).
  cbn [fmap list_fmap join]. rewrite <- !app_assoc. cbn [app].
  unfold read_ipv4_addr, read_separator, read_given_char.
  do 3 (rewrite read_octet by (try apply stops_char; done); cbn [mbind option_bind]; rewrite Z.eqb_refl;
    cbn [mbind option_bind]).
  rewrite read_octet by done. cbn [mbind option_bind]. by rewrite Hv.
Qed.

(** ** Groups of IPv6 *)

Lemma hex16_numeral g : u16 g → ∃ ds, numeral 16 4 g (print_hex16 g) ds.
Proof.
  intros Hg. unfold uint in Hg. change (2 ^ 16) with 65536 in Hg. unfold print_hex16.
  rewrite !Z.shiftr_div_pow2 by lia. change 15 with (Z.ones 4). rewrite !Z.land_ones by lia.
  change (2 ^ 12) with 4096. change (2 ^ 8) with 256. change (2 ^ 4) with 16.
  replace (g / 4096) with (g / 16 / 16 / 16) by (by rewrite !Z.div_div by lia).
  replace (g / 256) with (g / 16 / 16) by (by rewrite !Z.div_div by lia).
  assert (Hv : ((g / 16 / 16 / 16 * 16 + (g / 16 / 16) mod 16) * 16 + (g / 16) mod 16) * 16 + g mod 16 = g).
  { pose proof (Z.div_mod g 16). pose proof (Z.div_mod (g / 16) 16). pose proof (Z.div_mod (g / 16 / 16) 16). lia. }
  assert (H3 : 0 ≤ g / 16 / 16 / 16 < 16).
  { rewrite !Z.div_div by lia. split; [by apply Z.div_pos; lia|apply Z.div_lt_upper_bound; lia]. }
  pose proof (Z.mod_pos_bound (g / 16 / 16) 16 ltac:(lia)) as H2.
  pose proof (Z.mod_pos_bound (g / 16) 16 ltac:(lia)) as H1. pose proof (Z.mod_pos_bound g 16 ltac:(lia)) as H0.
  generalize dependent (g mod 16). generalize dependent ((g / 16) mod 16).
  generalize dependent ((g / 16 / 16) mod 16). generalize dependent (g / 16 / 16 / 16).
  intros d3 ? d2 ? d1 ? d0 Hv ?. unfold numeral.
  destruct d3; [|eexists; (split; [done|]); cbn; (split; [by repeat (apply Forall_cons; split; [lia|])|]); lia|lia].
  destruct d2; [|eexists; (split; [done|]); cbn; (split; [by repeat (apply Forall_cons; split; [lia|])|]); lia|lia].
  destruct d1; eexists; (split; [done|]); cbn; (split; [by repeat (apply Forall_cons; split; [lia|])|]); lia.
Qed.

Lemma read_number_rest radix max_digits zeros w s v r :
  read_number radix max_digits zeros w s = Some (v, r) → r = (span_digits radix s).2.
Proof.
  unfold read_number. destruct (span_digits radix s) as [ds r'] eqn:E. intros H.
  destruct (_ || _); [done|]. destruct (_ && _ && _); [done|]. by apply bind_Some in H as (? & _ & [= _ <-]).
Qed.

Lemma span_hex_rest ds rest :
  Forall (λ d, 0 ≤ d < 16) ds → stops 10 rest → head rest ≠ Some c_dot →
  head (span_digits 10 ((hex_digit <$> ds) ++ rest)).2 ≠ Some c_dot.
Proof.
  intros Hds Hs Hr. induction Hds as [|d ds Hd _ IH].
  - destruct rest as [|c rest]; cbn; [done|]. by rewrite (Hs c eq_refl).
  - rewrite fmap_cons, <- app_comm_cons. cbn [span_digits]. destruct (to_digit 10 (hex_digit d)).
    + by destruct (span_digits 10 _).
    + cbn. unfold hex_digit, c_dot. destruct (d <? 10); intros [= ?]; lia.
Qed.

(** What may follow a group: the end, another group, or the compressed zeros. *)
Definition colon_rest (s : str) : Prop := s = [] ∨ ∃ r, s = c_colon :: r.
Definition closes (s : str) : Prop := s = [] ∨ ∃ r, s = c_colon :: c_colon :: r.

Lemma colon_rest_stops radix s : colon_rest s → radix ≤ 16 → stops radix s.
Proof. intros [->|[r ->]] Hr; [done|]. by apply stops_char. Qed.

Lemma closes_colon_rest s : closes s → colon_rest s.
Proof. intros [->|[r ->]]; [by left|right; eauto]. Qed.

#[local] Hint Resolve colon_rest_stops closes_colon_rest : core.

Lemma read_group g rest : u16 g → colon_rest rest → read_number 16 4 true 16 (print_hex16 g ++ rest) = Some (g, rest).
Proof.
  intros Hg Hr. destruct (hex16_numeral g Hg) as [ds Hds].
  eapply read_numeral; [done|done|done|by left|by apply colon_rest_stops].
Qed.

(** A group is not taken for the first octet of a dotted address. *)
Lemma read_ipv4_group g rest : u16 g → colon_rest rest → read_ipv4_addr (print_hex16 g ++ rest) = None.
Proof.
  intros Hg Hr. destruct (hex16_numeral g Hg) as (ds & -> & Hds & _).
  unfold read_ipv4_addr, read_separator, read_given_char.
  destruct (read_number 10 3 false 8 _) as [[v r]|] eqn:E; [|done]. cbn [mbind option_bind].
  apply read_number_rest in E.
  assert (Hh : head r ≠ Some c_dot).
  { rewrite E. apply span_hex_rest; [done|by apply colon_rest_stops|]. by destruct Hr as [->|[? ->]]. }
  destruct r as [|c r]; [done|]. cbn in Hh.
  rewrite (proj2 (Z.eqb_neq c c_dot)); [done|]. congruence.
Qed.

(** The text of groups, the first of which has index [i]. *)
Fixpoint groups_text (i : nat) (gs : list Z) : str :=
  match gs with
  | [] => []
  | g :: gs => match i with O => [] | S _ => [c_colon] end ++ print_hex16 g ++ groups_text (S i) gs
  end.

Lemma groups_text_index i j gs : groups_text (S i) gs = groups_text (S j) gs.
Proof. revert i j. induction gs as [|g gs IH]; intros i j; [done|]. cbn. by rewrite (IH _ (S j)). Qed.

Lemma join_groups g gs : join [c_colon] (print_hex16 <$> (g :: gs)) = print_hex16 g ++ groups_text 1 gs.
Proof.
  revert g. induction gs as [|g' gs IH]; intros g; [cbn; by rewrite app_nil_r|].
  rewrite !fmap_cons, join_cons by done. rewrite <- fmap_cons, IH. cbn [groups_text]. by rewrite (groups_text_index 0 1).
Qed.

Lemma groups_text_rest i gs rest : closes rest → colon_rest (groups_text (S i) gs ++ rest).
Proof. intros Hr. destruct gs as [|g gs]; [by apply closes_colon_rest|]. right. cbn. eauto. Qed.

Lemma read_groups_text gs : ∀ limit i rest,
  Forall u16 gs → closes rest → (length gs ≤ limit)%nat →
  read_groups limit i (groups_text i gs ++ rest) = (gs, false, rest).
Proof.
  induction gs as [|g gs IH]; intros limit i rest Hgs Hr Hl.
  - cbn [groups_text app]. destruct limit as [|[|k]]; [done|..];
      destruct Hr as [->|[r ->]], i as [|i]; reflexivity.
  - apply Forall_cons in Hgs as [Hg Hgs]. destruct limit as [|k]; cbn in Hl; [lia|].
    pose proof (groups_text_rest i gs rest Hr) as Hc. cbn [groups_text read_groups].
    assert (Hs : ∀ A (inner : parser A), read_separator c_colon i inner
      ((match i with O => [] | S _ => [c_colon] end ++ print_hex16 g ++ groups_text (S i) gs) ++ rest) =
      inner (print_hex16 g ++ groups_text (S i) gs ++ rest)).
    { intros A inner. rewrite <- !app_assoc. by destruct i. }
    rewrite !Hs, read_group, read_ipv4_group by done. rewrite IH by (try done; lia). by destruct k.
Qed.

(** ** Segments *)

Lemma shift_or_group acc g : u16 g → Z.lor (Z.shiftl acc 16) g = acc * 65536 + g.
Proof.
  intros Hg. rewrite Z.shiftl_mul_pow2 by lia. change 65536 with (2 ^ 16).
  assert (Z.land (acc * 2 ^ 16) g = 0) as Hand; [|by rewrite <- Z.lxor_lor, Z.add_nocarry_lxor].
  apply Z.bits_inj'. intros n Hn. rewrite Z.land_spec, Z.bits_0.
  destruct (decide (n < 16)); [by rewrite Z.mul_pow2_bits_low|].
  rewrite <- (Z.mod_small g (2 ^ 16)) by done. rewrite Z.mod_pow2_bits_high by lia. apply andb_false_r.
Qed.

Lemma segment_u16 a i : u16 (segment a i).
Proof.
  unfold segment. change 65535 with (Z.ones 16). rewrite Z.land_ones by lia. unfold uint.
  apply Z.mod_pos_bound. lia.
Qed.

Lemma segments_u16 a : Forall u16 (segments a).
Proof. apply Forall_fmap, Forall_forall. intros i _. apply segment_u16. Qed.

Lemma segment_step a i m n :
  m = n + 16 → n = 112 - 16 * i → 0 ≤ n → Z.shiftr a m * 65536 + segment a i = Z.shiftr a n.
Proof.
  intros -> -> Hn. unfold segment. change 65535 with (Z.ones 16). rewrite Z.land_ones by lia.
  generalize dependent (112 - 16 * i). intros n Hn. rewrite <- Z.shiftr_shiftr by lia.
  rewrite (Z.shiftr_div_pow2 _ 16) by lia.
  change (2 ^ 16) with 65536. pose proof (Z.div_mod (Z.shiftr a n) 65536). lia.
Qed.

Lemma of_groups_segments a : u128 a → of_groups (segments a) = a.
Proof.
  intros Ha. unfold of_groups, segments. cbn [fmap list_fmap fold_left].
  rewrite !shift_or_group by apply segment_u16.
  assert (segment a 0 = Z.shiftr a 112) as H0.
  { unfold segment. change (112 - 16 * 0) with 112. change 65535 with (Z.ones 16). rewrite Z.land_ones by lia.
    apply Z.mod_small. rewrite Z.shiftr_div_pow2 by lia. unfold uint in Ha.
    split; [apply Z.div_pos; lia|apply Z.div_lt_upper_bound; lia]. }
  rewrite Z.mul_0_l, Z.add_0_l, H0.
  rewrite (segment_step a 1 112 96), (segment_step a 2 96 80), (segment_step a 3 80 64), (segment_step a 4 64 48),
    (segment_step a 5 48 32), (segment_step a 6 32 16), (segment_step a 7 16 0) by lia. done.
Qed.

(** ** Compressed zeros *)

Definition zeros (gs : list Z) (p : nat * nat) : Prop :=
  (p.1 + p.2 ≤ length gs)%nat ∧ take p.2 (drop p.1 gs) = replicate p.2 0.

Lemma longest_zeros_spec all : ∀ gs i cur best,
  gs = drop i all → (i ≤ length all)%nat → zeros all best → zeros all cur → (cur.2 = 0 ∨ cur.1 + cur.2 = i)%nat →
  zeros all (longest_zeros gs i cur best).
Proof.
  induction gs as [|g gs IH]; intros i [s n] best Hgs Hi Hb Hc Hend; cbn [longest_zeros]; [done|].
  assert (Hg : all !! i = Some g) by (rewrite <- (Nat.add_0_r i), <- lookup_drop, <- Hgs; done).
  pose proof (lookup_lt_Some _ _ _ Hg) as Hlt.
  assert (Hgs' : gs = drop (S i) all).
  { erewrite drop_S in Hgs by done. by injection Hgs. }
  destruct (g =? 0) eqn:E.
  2: { apply IH; [done|lia|done| |by left]. split; cbn; [lia|done]. }
  bool_to_prop. subst g.
  assert (Hz : zeros all (match (s, n).2 with O => (i, 1%nat) | S _ => ((s, n).1, S (s, n).2) end)).
  { destruct n as [|n]; unfold zeros in *; cbn [fst snd] in *.
    - split; [lia|]. erewrite drop_S by done. done.
    - destruct Hend as [?|Hend]; [lia|]. destruct Hc as [_ Hc]. split; [lia|].
      rewrite (take_S_r _ _ 0), Hc; [|rewrite lookup_drop; by rewrite Hend].
      by rewrite <- replicate_cons_app. }
  apply IH; [done|lia|by destruct (_ <? _)%nat|done|]. right. destruct n; cbn in *; lia.
Qed.

Lemma zeros_split gs s n : zeros gs (s, n) → gs = take s gs ++ replicate n 0 ++ drop (s + n) gs.
Proof.
  intros [_ H]. cbn [fst snd] in H. rewrite <- H, <- drop_drop. by rewrite !take_drop.
Qed.

(** ** Whole addresses *)

Lemma join_text gs : join [c_colon] (print_hex16 <$> gs) = groups_text 0 gs.
Proof. destruct gs as [|g gs]; [done|]. by rewrite join_groups. Qed.

Lemma read_full gs : length gs = 8%nat → Forall u16 gs → read_ipv6_addr (groups_text 0 gs) = Some (of_groups gs, []).
Proof.
  intros Hl Hgs. unfold read_ipv6_addr. rewrite <- (app_nil_r (groups_text 0 gs)).
  rewrite read_groups_text; [|done|by left|lia]. by rewrite Hl.
Qed.

Lemma read_compressed first last v4 text :
  (length first < 8)%nat → Forall u16 first → read_groups (8 - (length first + 1)) 0 text = (last, v4, []) →
  read_ipv6_addr (groups_text 0 first ++ c_colon :: c_colon :: text) =
    Some (of_groups (first ++ replicate (8 - length first - length last) 0 ++ last), []).
Proof.
  intros Hl Hgs Ht. unfold read_ipv6_addr.
  rewrite read_groups_text; [|done|right; eauto|lia].
  rewrite (proj2 (Nat.eqb_neq _ _)) by lia.
  unfold read_given_char. rewrite Z.eqb_refl. cbn [mbind option_bind]. rewrite Z.eqb_refl. cbn [mbind option_bind].
  by rewrite Ht.
Qed.

(** Compressed or not, the text is not taken for a dotted address. *)
Lemma read_ipv4_groups first rest : Forall u16 first → closes rest → read_ipv4_addr (groups_text 0 first ++ rest) = None.
Proof.
  intros Hf Hr. destruct Hf as [|g first Hg Hf]; [by destruct Hr as [->|[r ->]]|].
  cbn [groups_text app]. rewrite <- app_assoc. apply read_ipv4_group; [done|by apply groups_text_rest].
Qed.

Lemma read_mapped_tail a : u32 a →
  read_groups 7 0 (print_hex16 65535 ++ c_colon :: print_ipv4 a) = ([65535; Z.shiftr a 16; Z.land a 65535], true, []).
Proof.
  intros Ha. pose proof (read_print_ipv4 a [] Ha (stops_nil 10)) as H4. rewrite app_nil_r in H4.
  cbn [read_groups]. unfold read_separator at 1 2. cbv beta iota.
  rewrite read_ipv4_group, read_group by (try done; right; eauto).
  cbn [read_groups]. unfold read_separator, read_given_char. rewrite Z.eqb_refl. cbn [mbind option_bind].
  by rewrite H4.
Qed.

Lemma of_groups_mapped a : u128 a → Z.shiftr a 32 = 65535 →
  let v := Z.land a 4294967295 in
  u32 v ∧ of_groups (replicate 5 0 ++ [65535; Z.shiftr v 16; Z.land v 65535]) = a.
Proof.
  intros Ha Hm v. assert (Hv : v = a mod 2 ^ 32).
  { subst v. change 4294967295 with (Z.ones 32). by rewrite Z.land_ones. }
  assert (Hu : u32 v) by (rewrite Hv; apply Z.mod_pos_bound; lia). split; [done|].
  assert (Hlo : Z.land v 65535 = v mod 65536).
  { change 65535 with (Z.ones 16). by rewrite Z.land_ones. }
  assert (Hhi : Z.shiftr v 16 = v / 65536) by (by rewrite Z.shiftr_div_pow2).
  unfold of_groups. cbn [app replicate fold_left].
  rewrite !(shift_or_group _ 0), Hlo, Hhi by done.
  unfold uint in Hu. change (2 ^ 32) with 4294967296 in *.
  assert (u16 (v / 65536)) by (split; [apply Z.div_pos; lia|apply Z.div_lt_upper_bound; lia]).
  assert (u16 (v mod 65536)) by (apply Z.mod_pos_bound; lia).
  rewrite !shift_or_group by done. rewrite Z.shiftr_div_pow2 in Hm by lia. change (2 ^ 32) with 4294967296 in *.
  pose proof (Z.div_mod v 65536). pose proof (Z.div_mod a 4294967296). lia.
Qed.

Lemma read_print_ipv6 a : u128 a → read_ipv4_addr (print_ipv6 a) = None ∧ read_ipv6_addr (print_ipv6 a) = Some (a, []).
Proof.
  intros Ha. unfold print_ipv6. destruct (Z.shiftr a 32 =? 65535) eqn:E; bool_to_prop.
  - destruct (of_groups_mapped a Ha E) as [Hu Hv]. set (v := Z.land a 4294967295) in *.
    split; [done|]. change (lit "::ffff:" ++ print_ipv4 v) with
      (groups_text 0 [] ++ c_colon :: c_colon :: print_hex16 65535 ++ c_colon :: print_ipv4 v).
    rewrite (read_compressed [] _ _ _ ltac:(cbn; lia) ltac:(done) (read_mapped_tail v Hu)).
    cbn [length app]. f_equal. f_equal. exact Hv.
  - pose proof (segments_u16 a) as Hs. destruct (longest_zeros _ _ _ _) as [start len] eqn:El.
    assert (Hz : zeros (segments a) (start, len)).
    { rewrite <- El. apply longest_zeros_spec; [done|cbn; lia|split; [cbn; lia|done]|split; [cbn; lia|done]|by left]. }
    assert (Hc : closes []) by (by left). assert (H8 : length (segments a) = 8%nat) by done.
    destruct (1 <? len)%nat eqn:Hl; bool_to_prop; rewrite ?join_text.
    + change (lit "::" ++ ?x) with (c_colon :: c_colon :: x).
      pose proof (zeros_split _ _ _ Hz) as Hsplit. destruct Hz as [Hb _]. rewrite H8 in Hb. cbn [fst snd] in Hb.
      assert (H1 : Forall u16 (take start (segments a))) by by apply Forall_take.
      assert (H2 : Forall u16 (drop (start + len) (segments a))) by by apply Forall_drop.
      assert (Hl1 : length (take start (segments a)) = start) by (rewrite length_take, H8; lia).
      split; [apply read_ipv4_groups; [done|right; eauto]|].
      erewrite read_compressed; [|lia|done|].
      2: { rewrite <- (app_nil_r (groups_text 0 (drop _ _))). apply read_groups_text; [done|done|].
        rewrite length_drop, Hl1, H8. lia. }
      rewrite Hl1, length_drop. replace (8 - start - (length (segments a) - (start + len)))%nat with len by lia.
      rewrite <- Hsplit. by rewrite of_groups_segments.
    + split; [rewrite <- (app_nil_r (groups_text _ _)); by apply read_ipv4_groups|].
      rewrite read_full by done. by rewrite of_groups_segments.
Qed.

Lemma parse_print_ip ip : ip_ok ip → parse_ip (print_ip ip) = Some ip.
Proof.
  destruct ip as [a|a]; intros Ha; unfold parse_ip, read_ip_addr, print_ip.
  - pose proof (read_print_ipv4 a [] Ha (stops_nil 10)) as H. rewrite app_nil_r in H. by rewrite H.
  - by destruct (read_print_ipv6 a Ha) as [-> ->].
Qed.

(** ** What parsing can return *)

Lemma read_number_uint radix max_digits zeros w s v r : read_number radix max_digits zeros w s = Some (v, r) → uint w v.
Proof.
  unfold read_number. destruct (span_digits radix s) as [ds r']. destruct (_ || _); [done|].
  destruct (_ && _ && _); [done|]. by intros (? & [? ->]%try_uint_Some & [= <- _])%bind_Some.
Qed.

Lemma read_separator_Some {A} sep i (inner : parser A) s v r :
  read_separator sep i inner s = Some (v, r) → ∃ s', inner s' = Some (v, r).
Proof. destruct i; cbn [read_separator]; [eauto|]. intros ([[] s'] & _ & H)%bind_Some. eauto. Qed.

Lemma read_ipv4_uint s a r : read_ipv4_addr s = Some (a, r) → u32 a.
Proof.
  unfold read_ipv4_addr. intros H.
  apply bind_Some in H as ([a1 s1] & [? H1%read_number_uint]%read_separator_Some & H).
  apply bind_Some in H as ([a2 s2] & [? H2%read_number_uint]%read_separator_Some & H).
  apply bind_Some in H as ([a3 s3] & [? H3%read_number_uint]%read_separator_Some & H).
  apply bind_Some in H as ([a4 s4] & [? H4%read_number_uint]%read_separator_Some & H).
  injection H as <- _. apply (of_be_uint [_; _; _; _]). by repeat (apply Forall_cons; split).
Qed.

Lemma group_halves a : u32 a → u16 (Z.shiftr a 16) ∧ u16 (Z.land a 65535).
Proof.
  unfold uint. intros Ha. rewrite Z.shiftr_div_pow2 by lia. change 65535 with (Z.ones 16).
  rewrite Z.land_ones by lia. split; [|apply Z.mod_pos_bound; lia].
  split; [apply Z.div_pos; lia|apply Z.div_lt_upper_bound; lia].
Qed.

Lemma read_groups_u16 limit : ∀ i s gs v4 r,
  read_groups limit i s = (gs, v4, r) → (length gs ≤ limit)%nat ∧ Forall u16 gs.
Proof.
  induction limit as [|k IH]; intros i s gs v4 r; cbn [read_groups]; [by intros [= <- _ _]|].
  destruct (match k with O => None | S _ => _ end) as [[a s']|] eqn:E4.
  - intros [= <- _ _]. destruct k as [|k]; [done|]. apply read_separator_Some in E4 as [s0 E4]. apply read_ipv4_uint in E4.
    destruct (group_halves a E4). split; [cbn; lia|by repeat (apply Forall_cons; split)].
  - destruct (read_separator c_colon i (read_number 16 4 true 16) s) as [[g s']|] eqn:E;
      [|intros ?; simplify_eq; split; [cbn; lia|done]].
    destruct (read_groups k (S i) s') as [[gs' v4'] r'] eqn:Eg. intros [= <- _ _].
    apply IH in Eg as [? ?]. apply read_separator_Some in E as [s0 E]. apply read_number_uint in E.
    split; [cbn; lia|by apply Forall_cons].
Qed.

Lemma of_groups_uint gs : Forall u16 gs → uint (16 * Z.of_nat (length gs)) (of_groups gs).
Proof.
  unfold of_groups. induction gs as [|g gs IH] using rev_ind; [by intros _|].
  rewrite Forall_app, Forall_singleton. intros [Hgs Hg]. specialize (IH Hgs). rewrite fold_left_app. cbn [fold_left].
  rewrite shift_or_group by done. rewrite length_app, Nat2Z.inj_add. cbn [length]. unfold uint in *.
  replace (16 * (Z.of_nat (length gs) + Z.of_nat 1)) with (16 * Z.of_nat (length gs) + 16) by lia.
  rewrite Z.pow_add_r by lia. change (2 ^ 16) with 65536 in *. nia.
Qed.

Lemma of_groups_8 gs : Forall u16 gs → length gs = 8%nat → u128 (of_groups gs).
Proof. intros H Hl. apply of_groups_uint in H. by rewrite Hl in H. Qed.

Lemma read_ipv6_uint s a r : read_ipv6_addr s = Some (a, r) → u128 a.
Proof.
  unfold read_ipv6_addr. destruct (read_groups 8 0 s) as [[first v4] s1] eqn:E.
  apply read_groups_u16 in E as [Hl Hu]. destruct (length first =? 8)%nat eqn:E8; bool_to_prop.
  { intros [= <- _]. by apply of_groups_8. }
  destruct v4; [done|]. intros ([[] s2] & _ & H)%bind_Some. apply bind_Some in H as ([[] s3] & _ & H).
  destruct (read_groups _ 0 s3) as [[last v4] s4] eqn:E'. injection H as <- _.
  apply read_groups_u16 in E' as [Hl' Hu']. apply of_groups_8.
  - rewrite !Forall_app. split_and!; [done| |done]. by apply Forall_replicate.
  - rewrite !length_app, length_replicate. lia.
Qed.

Lemma parse_ip_ok s ip : parse_ip s = Some ip → ip_ok ip.
Proof.
  unfold parse_ip, read_ip_addr. destruct (read_ipv4_addr s) as [[a r]|] eqn:E.
  - destruct r; [|done]. intros [= <-]. by eapply read_ipv4_uint.
  - destruct (read_ipv6_addr s) as [[a r]|] eqn:E6; cbn; [|done]. destruct r; [|done]. intros [= <-].
    by eapply read_ipv6_uint.
Qed.

Lemma print_ip_inj a b : ip_ok a → ip_ok b → print_ip a = print_ip b → a = b.
Proof.
  intros Ha Hb E. apply parse_print_ip in Ha, Hb. rewrite E, Hb in Ha. congruence.
Qed.
