(* ===== verification/Util.v ===== *)
(** * Shared helpers (src/src/util.rs)

    Durations as sing-box writes them, and hosts in socket addresses and URLs.
    A [Duration] is its nanoseconds. *)

From S2P Require Import Prelude RustStr.

Definition millis : Z := 10 ^ 6.
Definition secs : Z := 10 ^ 9.

(** [multiplier * count] panics when it exceeds [Duration::MAX]. *)
Definition duration_max : Z := 2 ^ 64 * secs - 1.
Definition duration_mul (d count : Z) : result Z :=
  if d * count <=? duration_max then Ok (d * count) else Panic.

Definition parse_duration (value : str) : result Z :=
  '(number, multiplier) ←
    match strip_suffix (lit "ms") value with
    | Some n => Ok (n, millis)
    | None =>
      match strip_suffix (lit "s") value with
      | Some n => Ok (n, secs)
      | None =>
        match strip_suffix (lit "m") value with
        | Some n => Ok (n, 60 * secs)
        | None =>
          match strip_suffix (lit "h") value with
          | Some n => Ok (n, 3600 * secs)
          | None => Err "invalid duration"
          end
        end
      end
    end;
  count ← context (parse_uint 32 number) "parse duration";
  duration_mul multiplier count.

Definition parse_duration_or (value : option str) (default : Z) : result Z :=
  match value with None => Ok default | Some v => parse_duration v end.

(** [parse_duration(value).ok()] of an absent or present value; the panic of an
    overflow, which cannot occur, is not caught. *)
Definition parse_duration_lenient (value : option str) : Z :=
  default (300 * millis) (v ← value; result_ok (parse_duration v)).

Definition url_host (host : str) : str :=
  if contains_char c_colon host && negb (starts_with [c_lbracket] host)
  then lit "[" ++ host ++ lit "]" else host.

Definition socket (host : str) (port : Z) : str := url_host host ++ [c_colon] ++ print_uint port.

(** ** Properties *)

(** The units and what they stand for. *)
Definition units : list (str * Z) :=
  [(lit "ms", millis); (lit "s", secs); (lit "m", 60 * secs); (lit "h", 3600 * secs)].

Lemma parse_uint_bound w s v : parse_uint w s = Some v → v < 2 ^ w.
Proof.
  unfold parse_uint. intros H.
  repeat match type of H with
  | context [match ?x with _ => _ end] => destruct x eqn:?; try done
  | mbind _ _ = Some _ => apply bind_Some in H as (? & ? & H)
  end; try (apply try_uint_Some in H as [[? ?] ->]; lia).
  all: simplify_eq; bool_to_prop; try lia.
Qed.

(** No duration overflows: the panic of the multiplication is unreachable. *)
Lemma returns_parse_duration value : returns (parse_duration value).
Proof.
  unfold parse_duration. apply returns_bind; [by repeat break_match_goal|].
  intros [number multiplier] Hm. apply returns_bind; [apply returns_context|].
  intros count Hc%context_Ok%parse_uint_bound. unfold duration_mul.
  assert (0 ≤ multiplier ≤ 3600 * secs).
  { repeat break_match_hyp Hm; simplify_eq; unfold millis, secs; lia. }
  assert (multiplier * count ≤ duration_max); [|by rewrite (proj2 (Z.leb_le _ _))].
  unfold duration_max, secs in *. nia.
Qed.

(** A printed duration reads back. *)
Lemma parse_duration_print n unit multiplier :
  (unit, multiplier) ∈ units → u32 n → parse_duration (print_uint n ++ unit) = Ok (multiplier * n).
Proof.
  intros Hu Hn. assert (H128 : u128 n) by (unfold uint in *; lia).
  assert (Hd : Forall is_digit (print_uint n)) by (by apply print_uint_digits).
  assert (Hmul : ∀ m, 0 ≤ m ≤ 3600 * secs → duration_mul m n = Ok (m * n)).
  { intros m Hm. unfold duration_mul. rewrite (proj2 (Z.leb_le _ _)); [done|].
    unfold duration_max, secs, uint in *. nia. }
  assert (Hp : parse_uint 32 (print_uint n) = Some n) by (by apply parse_print_uint).
  rewrite <- (reverse_involutive (print_uint n)) in *.
  destruct (reverse (print_uint n)) as [|d r] eqn:E; [by rewrite reverse_nil in Hp|].
  assert (Hx : is_digit d) by (apply (proj1 (Forall_forall _ _) Hd), elem_of_reverse; left).
  unfold is_digit in Hx. unfold parse_duration, strip_suffix.
  change (reverse (lit "ms")) with [115; 109]. change (reverse (lit "s")) with [115].
  change (reverse (lit "m")) with [109]. change (reverse (lit "h")) with [104].
  unfold units in Hu. rewrite !elem_of_cons, elem_of_nil in Hu.
  destruct Hu as [Hu|[Hu|[Hu|[Hu|[]]]]]; injection Hu as -> ->; rewrite reverse_app, reverse_involutive;
    match goal with |- context [reverse ?x ++ d :: r] =>
      let y := eval vm_compute in (reverse x) in change (reverse x) with y end;
    cbn -[reverse parse_uint duration_mul Z.eqb];
    repeat ((rewrite Z.eqb_refl || rewrite (proj2 (Z.eqb_neq _ _)) by lia);
      cbn -[reverse parse_uint duration_mul Z.eqb]);
    rewrite Hp; cbn -[duration_mul];
    rewrite Hmul by (unfold millis, secs; lia); done.
Qed.

(** A host with colons is bracketed once. *)
Lemma url_host_idemp host : url_host (url_host host) = url_host host.
Proof.
  unfold url_host at 2 3. destruct (_ && _) eqn:E; [|by unfold url_host; rewrite E].
  unfold url_host. cbn. by rewrite andb_false_r.
Qed.

Example parse_duration_sample :
  parse_duration (lit "250ms") = Ok (250 * millis) ∧ parse_duration (lit "1.5s") = Err "parse duration" ∧
  parse_duration (lit "1d") = Err "invalid duration" ∧ socket (lit "::1") 53 = lit "[::1]:53".
Proof. by repeat split. Qed.
