(* ===== verification/Vless.v ===== *)
(** * VLESS requests and XUDP frames (src/src/vless.rs)

    The wire formats of the VLESS protocol: the request a client writes and the
    server reads, the response header, the XUDP frames that multiplex datagrams
    over one connection.  Readers consume a byte stream, writers produce one. *)

From S2P Require Import Prelude RustStr Net.

Inductive Destination : Set :=
  | Ip (ip : IpAddr) (port : Z)
  | Domain (name : str) (port : Z).

Inductive Command : Set := Tcp | Udp | Xudp.

Record Request : Set := mkRequest { command : Command; destination : Destination }.

#[export] Instance Destination_eq_dec : EqDecision Destination.
Proof. solve_decision. Defined.
#[export] Instance Command_eq_dec : EqDecision Command.
Proof. solve_decision. Defined.
#[export] Instance Request_eq_dec : EqDecision Request.
Proof. solve_decision. Defined.

Definition host (d : Destination) : str :=
  match d with Ip v _ => print_ip v | Domain v _ => v end.

Definition port (d : Destination) : Z :=
  match d with Ip _ p | Domain _ p => p end.

(** The type invariant of a [Destination]: machine-width address and port, a
    valid string. *)
Definition destination_ok (d : Destination) : Prop :=
  u16 (port d) ∧ match d with Ip v _ => ip_ok v | Domain v _ => rust_str v end.

(** The [uuid] crate: [Uuid::parse_str(s).ok().map(|id| id.as_bytes())]. *)
Class UuidLib := { uuid_parse : str → option bytes }.

(** A UUID is sixteen bytes. *)
Class UuidLaws (L : UuidLib) := {
  uuid_parse_ok s id : uuid_parse s = Some id → length id = 16%nat ∧ Forall u8 id;
}.

Section codec.
Context {U : UuidLib}.

(** ** Requests *)

Definition read_destination : reader Destination :=
  port ← read_u16;
  kind ← read_u8;
  match kind with
  | 1 => b ← read_exact 4; mret (Ip (V4 (of_be b)) port)
  | 2 =>
    n ← read_u8;
    b ← read_exact (Z.to_nat n);
    name ← lift (from_utf8 b);
    mret (Domain name port)
  | 3 => b ← read_exact 16; mret (Ip (V6 (of_be b)) port)
  | _ => fail "unknown VLESS address type"
  end.

(** The request that was read, and the bytes written back. *)
Definition serve (users : list str) : reader (Request * bytes) :=
  version ← read_u8;
  if negb (version =? 0) then fail "unsupported VLESS version" else
  id ← read_exact 16;
  if negb (existsb (λ v, bool_decide (uuid_parse v = Some id)) users)
  then fail "unknown VLESS user" else
  addons ← read_u8;
  _ ← (if 0 <? addons then read_exact (Z.to_nat addons) else mret []);
  kind ← read_u8;
  command ← match kind with
            | 1 => mret Tcp
            | 2 => mret Udp
            | 3 => mret Xudp
            | _ => fail "unsupported VLESS command"
            end;
  destination ← (if bool_decide (command = Xudp) then mret (Domain [] 0) else read_destination);
  mret (mkRequest command destination, [0; 0]).

Definition command_byte (c : Command) : Z :=
  match c with Tcp => 1 | Udp => 2 | Xudp => 3 end.

(** The bytes written to the stream; nothing is written on an error. *)
Definition write_request_with_command (user : str) (command : Command)
    (destination : Destination) : writer unit :=
  id ← wlift (context (uuid_parse user) "invalid VLESS UUID");
  let request := [0] ++ id ++ [0; command_byte command] in
  if bool_decide (command = Xudp) then write_all request
  else
    let request := request ++ to_be 2 (port destination) in
    match destination with
    | Ip (V4 ip) _ => write_all (request ++ [1] ++ to_be 4 ip)
    | Domain name _ =>
      if (255 <? Z.of_nat (length name)) then wlift (Err "domain too long")
      else write_all (request ++ [2; Z.of_nat (length name)] ++ name)
    | Ip (V6 ip) _ => write_all (request ++ [3] ++ to_be 16 ip)
    end.

Definition write_request (user : str) (destination : Destination) : writer unit :=
  write_request_with_command user Tcp destination.

Definition read_response : reader unit :=
  version ← read_u8;
  if negb (version =? 0) then fail "invalid VLESS response" else
  n ← read_u8;
  _ ← (if 0 <? n then read_exact (Z.to_nat n) else mret []);
  mret tt.

(** [connect]: what is written, and what the peer's bytes make of it. *)
Definition connect (user : str) (destination : Destination) (peer : bytes) : writer bytes :=
  _ ← write_request user destination;
  wlift (snd <$> read_response peer).

(** ** XUDP frames *)

Record XudpFrame : Set := mkXudpFrame {
  xf_session : Z;
  xf_status : Z;
  xf_destination : option Destination;
  xf_payload : option bytes;
}.

Definition parse_destination_bytes (b : bytes) : result Destination :=
  if (length b <? 3)%nat then Err "truncated XUDP destination" else
  p ← slice b 0 2;
  let port := of_be p in
  b ← slice b 2 (length b);
  kind ← index b 0;
  if (kind =? 1) && (5 <=? length b)%nat then
    a ← slice b 1 5; Ok (Ip (V4 (of_be a)) port)
  else if (kind =? 2) && match b !! 1%nat with
                         | Some n => (Z.to_nat n + 2 <=? length b)%nat
                         | None => false
                         end then
    n ← index b 1;
    name ← slice b 2 (2 + Z.to_nat n);
    name ← from_utf8 name;
    Ok (Domain name port)
  else if (kind =? 3) && (17 <=? length b)%nat then
    a ← slice b 1 17; Ok (Ip (V6 (of_be a)) port)
  else Err "invalid XUDP destination".

Definition read_xudp_frame : reader XudpFrame :=
  header_length ← read_u16;
  if header_length <? 4 then fail "invalid XUDP frame length" else
  session ← read_u16;
  status ← read_u8;
  option ← read_u8;
  destination ←
    (if 4 <? header_length then
       remaining ← read_exact (Z.to_nat header_length - 4);
       if negb (bool_decide (head remaining = Some 2)) then fail "XUDP frame is not UDP" else
       b ← lift (slice remaining 1 (length remaining));
       d ← lift (parse_destination_bytes b);
       mret (Some d)
     else mret None);
  payload ←
    (if negb (Z.land option 1 =? 0) then
       length ← read_u16;
       payload ← read_exact (Z.to_nat length);
       mret (Some payload)
     else mret None);
  if negb (Z.land option 2 =? 0) then fail "remote XUDP session reported an error" else
  mret (mkXudpFrame session status destination payload).

Definition encode_destination_bytes (d : Destination) : result bytes :=
  let output := to_be 2 (port d) in
  match d with
  | Ip (V4 a) _ => Ok (output ++ [1] ++ to_be 4 a)
  | Domain name _ =>
    n ← context (try_uint 8 (Z.of_nat (length name))) "XUDP domain too long";
    Ok (output ++ [2; n] ++ name)
  | Ip (V6 a) _ => Ok (output ++ [3] ++ to_be 16 a)
  end.

Definition write_xudp_frame (session status : Z) (d : Destination) (payload : bytes)
    : writer unit :=
  address ← wlift (encode_destination_bytes d);
  n ← wlift (context (try_uint 16 (5 + Z.of_nat (length address))) "XUDP header too large");
  _ ← write_u16 n;
  _ ← write_u16 session;
  _ ← write_all [status; 1; 2];
  _ ← write_all address;
  n ← wlift (context (try_uint 16 (Z.of_nat (length payload))) "XUDP payload too large");
  _ ← write_u16 n;
  write_all payload.

Definition write_xudp_packet (new_session : bool) (d : Destination) (payload : bytes)
    : writer unit :=
  write_xudp_frame 0 (if new_session then 1 else 2) d payload.

(** The loop of [read_xudp_packet]; every frame consumes at least six bytes, so
    the length of the input is enough fuel. *)
Fixpoint read_xudp_packet_loop (fuel : nat) : reader (option Destination * bytes) :=
  match fuel with
  | O => λ _, Diverge
  | S fuel =>
    frame ← read_xudp_frame;
    if xf_status frame =? 3 then fail "XUDP session ended" else
    match xf_payload frame with
    | Some payload => mret (xf_destination frame, payload)
    | None => read_xudp_packet_loop fuel
    end
  end.

Definition read_xudp_packet : reader (option Destination * bytes) := λ s,
  read_xudp_packet_loop (S (length s)) s.

Definition parse_destination (h : str) (p : Z) : Destination :=
  match parse_ip h with
  | Some ip => Ip ip p
  | None => Domain h p
  end.

End codec.

(** ** Properties *)

(** Runs the next read of a reader whose result is known. *)
Ltac read_step :=
  erewrite rbind_eq;
  [|lazymatch goal with
    | |- read_u8 _ = _ => apply read_u8_cons
    | |- read_u16 _ = _ => apply read_u16_app; assumption
    | |- read_exact _ _ = _ => apply read_exact_app; solve [auto using length_to_be | lia]
    | |- _ => reflexivity
    end]; cbn beta iota.

Section properties.
Context {U : UuidLib}.

(** The bytes after the port of an encoded destination, shared by the VLESS
    request and the XUDP frame. *)
Definition address_bytes (d : Destination) : bytes :=
  match d with
  | Ip (V4 a) _ => [1] ++ to_be 4 a
  | Domain name _ => [2; Z.of_nat (length name)] ++ name
  | Ip (V6 a) _ => [3] ++ to_be 16 a
  end.

Definition encodable (d : Destination) : Prop :=
  destination_ok d ∧ match d with Domain name _ => (length name ≤ 255)%nat | _ => True end.

Lemma from_utf8_ok s : rust_str s → from_utf8 s = Ok s.
Proof. intros [_ H]. unfold from_utf8. by rewrite H. Qed.

Lemma read_destination_app d rest :
  encodable d →
  read_destination ((to_be 2 (port d) ++ address_bytes d) ++ rest) = Ok (d, rest).
Proof.
  intros [[Hp Hd] Hlen]. unfold read_destination. rewrite <- app_assoc.
  read_step. destruct d as [[a|a] p|name p]; cbn [address_bytes]; rewrite <- ?app_assoc;
    cbn [app]; read_step; cbn [port] in *.
  - read_step. by rewrite of_be_octets_v4.
  - read_step. by rewrite of_be_octets_v6.
  - read_step. rewrite Nat2Z.id. read_step. rewrite (from_utf8_ok name Hd). done.
Qed.

Lemma write_request_bytes user id c d :
  uuid_parse user = Some id → encodable d →
  write_request_with_command user c d =
    ([0] ++ id ++ [0; command_byte c] ++
       (if bool_decide (c = Xudp) then [] else to_be 2 (port d) ++ address_bytes d), Ok tt).
Proof.
  intros Hid [_ Hlen]. unfold write_request_with_command. rewrite Hid. cbn.
  destruct (bool_decide (c = Xudp)); [done|].
  destruct d as [[a|a] p|name p]; cbn [address_bytes port].
  - unfold write_all. by rewrite <- !app_assoc.
  - unfold write_all. by rewrite <- !app_assoc.
  - rewrite (proj2 (Z.ltb_ge 255 _)) by lia. unfold write_all. by rewrite <- !app_assoc.
Qed.

Lemma existsb_user users user id :
  user ∈ users → uuid_parse user = Some id →
  existsb (λ v, bool_decide (uuid_parse v = Some id)) users = true.
Proof.
  intros Hin Hid. apply existsb_exists. exists user.
  by rewrite <- list_elem_of_In, bool_decide_true.
Qed.

Lemma serve_request_bytes {UL : UuidLaws U} users user id c d rest :
  user ∈ users → uuid_parse user = Some id → encodable d →
  (write_request_with_command user c d).2 = Ok tt ∧
  serve users ((write_request_with_command user c d).1 ++ rest) =
    Ok (mkRequest c (if bool_decide (c = Xudp) then Domain [] 0 else d), [0; 0], rest).
Proof.
  intros Hin Hid Hd. rewrite (write_request_bytes user id c d Hid Hd). split; [done|].
  destruct (uuid_parse_ok _ _ Hid) as [Hlen _]. cbn [fst].
  unfold serve. rewrite <- !app_assoc. cbn [app]. read_step. cbn [Z.eqb negb].
  read_step. rewrite (existsb_user users user id) by done. cbn [negb].
  read_step. change (0 <? 0) with false. cbn iota. read_step.
  destruct c; cbn [command_byte]; read_step; read_step; cbn [bool_decide decide decide_rel].
  - erewrite rbind_eq; [|by apply read_destination_app]. done.
  - erewrite rbind_eq; [|by apply read_destination_app]. done.
  - done.
Qed.

(** C1: Request round trip: whatever request a client with a configured UUID
    writes for an encodable destination, the server accepts it from the front
    of the stream and reads back the same command and destination (an XUDP
    request carries no destination), answers with the two-byte response header
    and leaves the bytes that follow unread. *)
Theorem serve_write_request {UL : UuidLaws U} users user id c d rest :
  user ∈ users → uuid_parse user = Some id → encodable d →
  (write_request_with_command user c d).2 = Ok tt ∧
  serve users ((write_request_with_command user c d).1 ++ rest) =
    Ok (mkRequest c (if bool_decide (c = Xudp) then Domain [] 0 else d), [0; 0], rest).
Proof. apply serve_request_bytes. Qed.

(** C2: Authentication: the server only produces a request from a stream that
    starts with version 0 followed by the sixteen bytes of a configured user's
    UUID; every other stream is refused. *)
Theorem serve_authenticates users s r out rest :
  serve users s = Ok (r, out, rest) →
  ∃ user id tail, user ∈ users ∧ uuid_parse user = Some id ∧ s = 0 :: id ++ tail.
Proof.
  unfold serve. intros H0.
  apply rbind_Ok in H0 as (version & s1 & Hv & H1). apply read_u8_Ok in Hv as ->.
  destruct (version =? 0) eqn:Ev; [|discriminate]. bool_to_prop. subst version.
  apply rbind_Ok in H1 as (id & s2 & Hi & H2). apply read_exact_Ok in Hi as [-> Hlen].
  destruct (existsb _ users) eqn:Ee; [|discriminate].
  apply existsb_exists in Ee as (user & Hin & Hu). apply bool_decide_eq_true in Hu.
  exists user, id, s2. split; [by apply list_elem_of_In|done].
Qed.

(** Writing never emits a truncated request: an unknown UUID or a domain
    longer than 255 bytes is refused with no byte written, and an accepted
    request is at most 278 bytes. *)
Theorem write_request_all_or_nothing {UL : UuidLaws U} user c d :
  let w := write_request_with_command user c d in
  (w.2 = Ok tt ∧ (length w.1 ≤ 278)%nat) ∨ ((∃ e, w.2 = Err e) ∧ w.1 = []).
Proof.
  cbn zeta. unfold write_request_with_command.
  destruct (uuid_parse user) as [id|] eqn:Hid; cbn; [|right; eauto].
  destruct (uuid_parse_ok _ _ Hid) as [Hlen _].
  destruct (bool_decide (c = Xudp)).
  { left. split; [done|]. cbn [fst write_all]. length_tac. }
  destruct d as [[a|a] p|name p].
  - left. split; [done|]. cbn [fst write_all]. length_tac.
  - left. split; [done|]. cbn [fst write_all]. length_tac.
  - destruct (255 <? Z.of_nat (length name)) eqn:E; bool_to_prop; [right; eauto|left].
    split; [done|]. cbn [fst write_all]. length_tac.
Qed.

(** ** XUDP frames *)

Lemma encode_destination_ok d :
  encodable d → encode_destination_bytes d = Ok (to_be 2 (port d) ++ address_bytes d).
Proof.
  intros [_ Hlen]. destruct d as [[a|a] p|name p]; [done..|]. cbn [encode_destination_bytes].
  rewrite (proj2 (try_uint_Some 8 _ (Z.of_nat (length name)))); [done|].
  split; [|done]. unfold uint. lia.
Qed.

Lemma length_address_bytes d :
  encodable d → (5 ≤ length (address_bytes d) + 3 ∧ length (address_bytes d) ≤ 257)%nat.
Proof.
  intros [_ Hlen]. destruct d as [[a|a] p|name p]; cbn [address_bytes]; split; length_tac.
Qed.

Lemma parse_destination_app d extra :
  encodable d →
  parse_destination_bytes ((to_be 2 (port d) ++ address_bytes d) ++ extra) = Ok d.
Proof.
  intros Hd. pose proof (length_address_bytes d Hd) as Hl. destruct Hd as [[Hp Hd] Hlen].
  unfold parse_destination_bytes.
  rewrite (proj2 (Nat.ltb_ge _ _)) by length_tac. rewrite <- app_assoc.
  rewrite slice_prefix by (autorewrite with rust; lia). cbn [mbind result_bind].
  rewrite of_be_to_be by done.
  rewrite slice_to_end by (autorewrite with rust; lia). cbn [mbind result_bind].
  destruct d as [[a|a] p|name p]; cbn [port address_bytes] in *.
  - change (index (([1] ++ to_be 4 a) ++ extra) 0) with (@Ok Z 1). cbn [mbind result_bind].
    rewrite (proj2 (Nat.leb_le 5 _)) by length_tac. change (1 =? 1) with true. cbn [andb].
    rewrite <- app_assoc, slice_app by length_tac.
    cbn [mbind result_bind].
    by rewrite of_be_octets_v4.
  - change (index (([3] ++ to_be 16 a) ++ extra) 0) with (@Ok Z 3). cbn [mbind result_bind].
    rewrite (proj2 (Nat.leb_le 17 _)) by length_tac.
    change (3 =? 1) with false. change (3 =? 2) with false. change (3 =? 3) with true.
    cbn [andb].
    rewrite <- app_assoc, slice_app by length_tac.
    cbn [mbind result_bind].
    by rewrite of_be_octets_v6.
  - change (index (([2; Z.of_nat (length name)] ++ name) ++ extra) 0) with (@Ok Z 2).
    cbn [mbind result_bind]. change (2 =? 1) with false. change (2 =? 2) with true. cbn [andb].
    change ((([2; Z.of_nat (length name)] ++ name) ++ extra) !! 1%nat)
      with (Some (Z.of_nat (length name))). cbn iota.
    rewrite (proj2 (Nat.leb_le _ _)) by length_tac.
    change (index (([2; Z.of_nat (length name)] ++ name) ++ extra) 1)
      with (Ok (Z.of_nat (length name))). cbn [mbind result_bind].
    rewrite <- app_assoc, slice_app by length_tac. cbn [mbind result_bind].
    by rewrite from_utf8_ok.
Qed.

Lemma write_xudp_frame_bytes session status d payload :
  encodable d → Z.of_nat (length payload) ≤ 65535 →
  write_xudp_frame session status d payload =
    (to_be 2 (Z.of_nat (7 + length (address_bytes d))) ++ to_be 2 session ++
     [status; 1; 2] ++ (to_be 2 (port d) ++ address_bytes d) ++
     to_be 2 (Z.of_nat (length payload)) ++ payload, Ok tt).
Proof.
  intros Hd Hp. pose proof (length_address_bytes d Hd) as Hl. unfold write_xudp_frame.
  rewrite encode_destination_ok by done. cbn [wlift mbind writer_bind snd].
  rewrite (proj2 (try_uint_Some 16 _ (Z.of_nat (7 + length (address_bytes d))))).
  2: { unfold uint. split; [|length_tac]. length_tac. }
  cbn [context mbind writer_bind snd fst write_u16 write_all wlift].
  rewrite (proj2 (try_uint_Some 16 _ (Z.of_nat (length payload)))).
  2: { unfold uint. split; [|done]. lia. }
  cbn [context mbind writer_bind snd fst app].
  by rewrite <- ?app_assoc.
Qed.

(** XUDP frame round trip: a frame written for an encodable destination and
    a payload of at most 65535 bytes is read back with the same session,
    status, destination and payload, and the bytes after it stay unread. *)
Theorem read_write_xudp_frame session status d payload rest :
  encodable d → u16 session → Z.of_nat (length payload) ≤ 65535 →
  (write_xudp_frame session status d payload).2 = Ok tt ∧
  read_xudp_frame ((write_xudp_frame session status d payload).1 ++ rest) =
    Ok (mkXudpFrame session status (Some d) (Some payload), rest).
Proof.
  intros Hd Hs Hp. rewrite write_xudp_frame_bytes by done. split; [done|].
  pose proof (length_address_bytes d Hd) as Hl.
  assert (u16 (Z.of_nat (7 + length (address_bytes d)))) as H1 by (unfold uint; lia).
  assert (u16 (Z.of_nat (length payload))) as H2 by (unfold uint; lia).
  cbn [fst]. unfold read_xudp_frame. rewrite <- ?app_assoc. read_step.
  rewrite (proj2 (Z.ltb_ge _ 4)) by lia. read_step.
  cbn [app]. do 2 read_step.
  rewrite (proj2 (Z.ltb_lt 4 _)) by lia.
  replace (Z.to_nat (Z.of_nat (7 + length (address_bytes d))) - 4)%nat
    with (S (length (to_be 2 (port d) ++ address_bytes d))) by length_tac.
  erewrite rbind_eq.
  2: { erewrite rbind_eq.
       2: { rewrite app_assoc, app_comm_cons. apply read_exact_app. done. }
       cbn beta. rewrite bool_decide_true by done. cbn [negb].
       erewrite rbind_eq.
       2: { change (2 :: to_be 2 (port d) ++ address_bytes d)
              with ([2] ++ (to_be 2 (port d) ++ address_bytes d)).
            rewrite slice_to_end by done. reflexivity. }
       erewrite rbind_eq; [reflexivity|].
       rewrite <- (app_nil_r (_ ++ _)), parse_destination_app by done. reflexivity. }
  cbn beta. change (negb (Z.land 1 1 =? 0)) with true.
  change (negb (Z.land 1 2 =? 0)) with false. cbn iota.
  erewrite rbind_eq; [reflexivity|].
  read_step. rewrite Nat2Z.id. read_step. reflexivity.
Qed.

Lemma returns_parse_destination_bytes b : returns (parse_destination_bytes b).
Proof.
  unfold parse_destination_bytes. destruct (length b <? 3)%nat eqn:E; [done|]. bool_to_prop.
  apply returns_bind; [apply returns_slice; lia|intros p _].
  apply returns_bind; [apply returns_slice; lia|intros c Hc].
  apply returns_bind.
  { apply returns_index. unfold slice in Hc. destruct (slice_get b 2 _) eqn:Es; [|done].
    injection Hc as ->. apply slice_get_length in Es. lia. }
  intros kind _.
  destruct (_ && (5 <=? _)%nat) eqn:E1; bool_to_prop.
  { apply returns_bind; [apply returns_slice; lia|done]. }
  destruct ((kind =? 2) && _) eqn:E2; bool_to_prop.
  { destruct (c !! 1%nat) as [n|] eqn:En; [|done]. bool_to_prop.
    unfold index. rewrite En. cbn [mbind result_bind].
    apply returns_bind; [apply returns_slice; lia|intros name _].
    apply returns_bind; auto with rust. }
  destruct (_ && (17 <=? _)%nat) eqn:E3; bool_to_prop; [|done].
  apply returns_bind; [apply returns_slice; lia|done].
Qed.

Lemma reader_returns_xudp_frame : reader_returns read_xudp_frame.
Proof.
  unfold read_xudp_frame.
  apply reader_returns_bind; [auto with rust|intros hl].
  destruct (hl <? 4); [auto with rust|].
  do 3 (apply reader_returns_bind; [auto with rust|intros ?]).
  apply reader_returns_bind.
  { destruct (4 <? hl); [|auto with rust].
    apply reader_returns_bind; [auto with rust|intros rem].
    destruct (bool_decide (head rem = Some 2)) eqn:Eh; cbn [negb]; [|auto with rust].
    bool_to_prop. apply reader_returns_bind.
    { apply reader_returns_lift, returns_slice; [|lia]. destruct rem; cbn in *; [done|lia]. }
    intros b. apply reader_returns_bind; [|auto with rust].
    apply reader_returns_lift, returns_parse_destination_bytes. }
  intros ?. apply reader_returns_bind.
  { destruct (negb _); [|auto with rust]. reader_returns_tac. }
  intros ?. destruct (negb _); auto with rust.
Qed.

Lemma shrinks_xudp_frame : shrinks 6 read_xudp_frame.
Proof.
  unfold read_xudp_frame.
  eapply (shrinks_bind 2 4); [auto with rust|intros hl|lia].
  destruct (hl <? 4); [auto with rust|].
  eapply (shrinks_bind 2 2); [auto with rust|intros ?|lia].
  eapply (shrinks_bind 1 1); [auto with rust|intros ?|lia].
  eapply (shrinks_bind 1 0); [auto with rust|intros ?|lia].
  eapply (shrinks_bind 0 0); [|intros ?|lia].
  { destruct (4 <? hl); [|auto with rust].
    eapply (shrinks_bind _ 0); [auto with rust|intros rem|lia].
    destruct (negb _); [auto with rust|].
    do 2 (eapply (shrinks_bind 0 0); [auto with rust|intros ?|lia]). auto with rust. }
  eapply (shrinks_bind 0 0); [|intros ?|lia].
  { destruct (negb _); [|auto with rust].
    eapply (shrinks_bind 2 0); [auto with rust|intros ?|lia].
    eapply (shrinks_bind _ 0); [auto with rust|auto with rust|lia]. }
  destruct (negb _); auto with rust.
Qed.

(** Robustness of the XUDP parser: on every byte sequence the frame reader
    and the packet reader come back with a value or an error; no index is out of
    bounds, and the packet loop ends because each frame consumes input. *)
Theorem xudp_readers_return s : returns (read_xudp_frame s) ∧ returns (read_xudp_packet s).
Proof.
  split; [apply reader_returns_xudp_frame|]. unfold read_xudp_packet.
  enough (∀ fuel s, (length s < fuel)%nat → returns (read_xudp_packet_loop fuel s)) by auto.
  clear s. induction fuel as [|fuel IH]; intros s Hs; [lia|]. cbn [read_xudp_packet_loop].
  unfold mbind, reader_bind. pose proof (reader_returns_xudp_frame s) as Hr.
  destruct (read_xudp_frame s) as [[f s']|e| |] eqn:Ef; try done.
  apply shrinks_xudp_frame in Ef. destruct (xf_status f =? 3); [done|].
  destruct (xf_payload f); [done|]. apply IH. lia.
Qed.

End properties.

(** ** Witnesses *)

(** A concrete instance of the UUID interface: the hyphenated hexadecimal form,
    hyphens ignored. *)
Module UuidExample.

Fixpoint pairs (ds : list Z) : option bytes :=
  match ds with
  | [] => Some []
  | h :: l :: ds => r ← pairs ds; Some (16 * h + l :: r)
  | [_] => None
  end.

Definition hex_digits (s : str) : option (list Z) :=
  mapM (IpParser.to_digit 16) (List.filter (λ c, negb (c =? 45)) s).

Definition parse (s : str) : option bytes :=
  ds ← hex_digits s;
  b ← pairs ds;
  if decide (length b = 16%nat ∧ Forall u8 b) then Some b else None.

#[export] Instance lib : UuidLib := {| uuid_parse := parse |}.

#[export] Instance laws : UuidLaws lib.
Proof.
  split. intros s id. cbn. unfold parse.
  destruct (hex_digits s) as [ds|]; [|done]. cbn.
  destruct (pairs ds) as [b|]; [|done]. cbn. case_decide; [|done]. by intros [= ->].
Qed.

Definition user : str := lit "00112233-4455-6677-8899-aabbccddeeff".
Definition id : bytes :=
  [0; 17; 34; 51; 68; 85; 102; 119; 136; 153; 170; 187; 204; 221; 238; 255].
Definition dest : Destination := Domain (lit "example.com") 443.

End UuidExample.

#[local] Existing Instances UuidExample.lib UuidExample.laws.

Lemma example_encodable : encodable UuidExample.dest.
Proof.
  repeat split; try (vm_compute; discriminate); try reflexivity.
  - repeat constructor; vm_compute; discriminate.
  - vm_compute. lia.
Qed.

Lemma serve_write_request_witness :
  ∃ r, serve [UuidExample.user]
    ((write_request_with_command UuidExample.user Tcp UuidExample.dest).1 ++ [7; 8]) =
    Ok (r, [0; 0], [7; 8]) ∧ destination r = UuidExample.dest.
Proof.
  exists (mkRequest Tcp UuidExample.dest). split; [|reflexivity].
  apply (serve_write_request [UuidExample.user] UuidExample.user UuidExample.id Tcp
           UuidExample.dest [7; 8]).
  - constructor.
  - vm_compute. reflexivity.
  - apply example_encodable.
Defined.

Lemma serve_authenticates_witness :
  ∃ user id tail, user ∈ [UuidExample.user] ∧ uuid_parse user = Some id ∧
    [0] ++ UuidExample.id ++ [0; 3; 9] = 0 :: id ++ tail.
Proof.
  apply (serve_authenticates [UuidExample.user] ([0] ++ UuidExample.id ++ [0; 3; 9])
           (mkRequest Xudp (Domain [] 0)) [0; 0] [9]).
  vm_compute. reflexivity.
Defined.

Lemma write_request_all_or_nothing_witness :
  let w := write_request_with_command UuidExample.user Udp UuidExample.dest in
  (w.2 = Ok tt ∧ (length w.1 ≤ 278)%nat) ∨ ((∃ e, w.2 = Err e) ∧ w.1 = []).
Proof. apply (write_request_all_or_nothing UuidExample.user Udp UuidExample.dest). Defined.

Lemma read_write_xudp_frame_witness :
  read_xudp_frame ((write_xudp_frame 3 2 UuidExample.dest [1; 2]).1 ++ [9]) =
    Ok (mkXudpFrame 3 2 (Some UuidExample.dest) (Some [1; 2]), [9]).
Proof.
  apply (read_write_xudp_frame 3 2 UuidExample.dest [1; 2] [9]).
  - apply example_encodable.
  - split; vm_compute; congruence.
  - vm_compute. discriminate.
Defined.
