(* ===== verification/Xudp.v ===== *)
(** * XUDP relay (src/src/vless.rs, [relay_xudp], [run_xudp_session], [relay_udp])

    The server side of an XUDP connection: one loop reads frames from the VLESS
    stream and dispatches them to at most 256 sessions, each a task with its own
    UDP socket, and writes the sessions' datagrams back as frames.  The tasks
    and the select loop are state machines whose events are explicit. *)

From S2P Require Import Prelude RustStr Net Vless.

(** ** Readers on a stream that arrives in pieces *)

(** A reader is streaming when a successful run consumes a determined prefix of
    the input, independently of what follows, and reports the end of the stream
    on every shorter input. *)
Definition streaming {A} (m : reader A) : Prop :=
  ∀ s a s', m s = Ok (a, s') →
  ∃ c, s = c ++ s' ∧ (∀ t, m (c ++ t) = Ok (a, t)) ∧
    (∀ p q, c = p ++ q → q ≠ [] → m p = Err "early eof").

Lemma streaming_ret {A} (a : A) : streaming (mret a).
Proof.
  intros s b s' [= <- <-]. exists []. split_and!; [done|done|].
  intros p q H Hq. symmetry in H. by apply app_nil in H as [_ ->].
Qed.

Lemma streaming_fail {A} msg : streaming (@fail A msg).
Proof. by intros s a s'. Qed.

Lemma streaming_lift {A} (r : result A) : streaming (lift r).
Proof. destruct r; [apply streaming_ret|by intros s a s'..]. Qed.

Lemma streaming_exact n : streaming (read_exact n).
Proof.
  intros s b s' [-> Hn]%read_exact_Ok. exists b. split_and!; [done| |].
  - intros t. by apply read_exact_app.
  - intros p q -> Hq. unfold read_exact. destruct q; [done|].
    rewrite (proj2 (Nat.leb_gt _ _)); [done|]. revert Hn. length_tac.
Qed.

Lemma streaming_u8 : streaming read_u8.
Proof.
  intros s b s' ->%read_u8_Ok. exists [b]. split_and!; [done|done|].
  intros [|x p] q H Hq; [done|]. injection H as <- H. symmetry in H.
  by apply app_nil in H as [_ ->].
Qed.

Lemma streaming_bind {A B} (f : A → reader B) (m : reader A) :
  streaming m → (∀ a, streaming (f a)) → streaming (a ← m; f a).
Proof.
  intros Hm Hf s b s' (a & s0 & Ha & Hb)%rbind_Ok.
  apply Hm in Ha as (c1 & -> & Ht1 & Hp1). apply Hf in Hb as (c2 & -> & Ht2 & Hp2).
  exists (c1 ++ c2). rewrite <- app_assoc. split_and!; [done| |].
  - intros t. rewrite <- app_assoc. erewrite rbind_eq by apply Ht1. apply Ht2.
  - intros p q H Hq. apply app_eq_inv in H as [(k & -> & ->)|(k & -> & ->)].
    + destruct k as [|x k].
      * specialize (Ht1 []). rewrite !app_nil_r in Ht1.
        erewrite rbind_eq by apply Ht1. by apply (Hp2 [] c2).
      * unfold mbind, reader_bind. rewrite (Hp1 p (x :: k)) by done. done.
    + erewrite rbind_eq by apply Ht1. by apply (Hp2 k q).
Qed.

Lemma streaming_u16 : streaming read_u16.
Proof. apply streaming_bind; [apply streaming_exact|intros; apply streaming_ret]. Qed.

Create HintDb streaming discriminated.
#[export] Hint Resolve streaming_ret streaming_fail streaming_lift streaming_exact
  streaming_u8 streaming_u16 : streaming.

Lemma streaming_xudp_frame : streaming read_xudp_frame.
Proof.
  unfold read_xudp_frame.
  repeat match goal with
  | |- streaming (mbind _ _) => apply streaming_bind; [|intros ?]
  | |- streaming (if ?b then _ else _) => destruct b
  end; auto with streaming.
Qed.

(** ** The relay loop *)

(** A session's channel as the relay sees it: whether its task has dropped the
    receiver, and the frames sent that the task has not received yet. *)
Record Chan : Set := mkChan { ch_closed : bool; ch_queue : list XudpFrame }.

Record RelayState : Set := mkRelay {
  rs_sessions : gmap Z Chan;
  rs_partial : bytes;  (* consumed by the pending read_xudp_frame *)
  rs_out : bytes;      (* written to the stream *)
}.

Definition MAX_XUDP_SESSIONS : nat := 256.

Inductive RelayEvent : Set :=
  | EvByte (b : Z)       (* a byte of the stream arrives *)
  | EvEof                (* the stream ends *)
  | EvResponse (session : Z) (source : Destination) (payload : bytes)
  | EvTake (session : Z) (* a session task receives its next frame *)
  | EvClose (session : Z). (* a session task ends *)

Section relay.
(** [resolve_destination] (a DNS lookup) and [UdpSocket::bind]. *)
Context (resolve : Destination → option SocketAddr) (bind_socket : SocketAddr → bool).

Definition relay_init : RelayState := mkRelay ∅ [] [].

(** The body of the [frame] branch of the select loop. *)
Definition on_frame (sessions : gmap Z Chan) (frame : XudpFrame) : result (gmap Z Chan) :=
  let sessions := filter (λ kc, ch_closed kc.2 = false) sessions in
  match xf_status frame with
  | 1 =>
    match sessions !! xf_session frame with
    | Some _ => Err "duplicate XUDP session"
    | None =>
      if (MAX_XUDP_SESSIONS <=? size sessions)%nat then Err "too many XUDP sessions" else
      d ← context (xf_destination frame) "XUDP new frame has no destination";
      target ← context (resolve d) "XUDP destination did not resolve";
      if bind_socket target
      then Ok (<[xf_session frame := mkChan false [frame]]> sessions)
      else Err "bind"
    end
  | 2 | 4 =>
    ch ← context (sessions !! xf_session frame) "XUDP continuation references unknown session";
    Ok (<[xf_session frame := mkChan (ch_closed ch) (ch_queue ch ++ [frame])]> sessions)
  | 3 =>
    match sessions !! xf_session frame with
    | None => Err "XUDP close references unknown session"
    | Some _ => Ok (delete (xf_session frame) sessions)
    end
  | _ => Err "invalid XUDP frame status"
  end.

(** One turn of the loop.  The bytes of a frame that is still incomplete belong
    to the pending [read_xudp_frame] future; when the other branch of the
    select completes first, that future is dropped with them. *)
Definition relay_step (st : RelayState) (ev : RelayEvent) : result RelayState :=
  match ev with
  | EvByte b =>
    let buf := rs_partial st ++ [b] in
    match read_xudp_frame buf with
    | Ok (frame, rest) =>
      sessions ← on_frame (rs_sessions st) frame;
      Ok (mkRelay sessions rest (rs_out st))
    | Err e =>
      if String.eqb e "early eof" then Ok (mkRelay (rs_sessions st) buf (rs_out st)) else Err e
    | Panic => Panic
    | Diverge => Diverge
    end
  | EvEof => Err "early eof"
  | EvResponse session source payload =>
    let w := write_xudp_frame session 2 source payload in
    _ ← w.2;
    Ok (mkRelay (rs_sessions st) [] (rs_out st ++ w.1))
  | EvTake session =>
    Ok (mkRelay (alter (λ c, mkChan (ch_closed c) (tail (ch_queue c))) session (rs_sessions st))
                (rs_partial st) (rs_out st))
  | EvClose session =>
    Ok (mkRelay (alter (λ c, mkChan true (ch_queue c)) session (rs_sessions st))
                (rs_partial st) (rs_out st))
  end.

Fixpoint relay_run (st : RelayState) (evs : list RelayEvent) : result RelayState :=
  match evs with
  | [] => Ok st
  | ev :: evs => st ← relay_step st ev; relay_run st evs
  end.

Inductive reachable : RelayState → Prop :=
  | reach_init : reachable relay_init
  | reach_step st ev st' : reachable st → relay_step st ev = Ok st' → reachable st'.

Lemma size_filter_le {A} (P : Z * A → Prop) `{∀ x, Decision (P x)} (m : gmap Z A) :
  (size (filter P m) ≤ size m)%nat.
Proof. rewrite <- !size_dom. apply subseteq_size, dom_filter_subseteq. Qed.

Lemma size_insert_le {A} (m : gmap Z A) k v : (size (<[k := v]> m) ≤ S (size m))%nat.
Proof.
  destruct (m !! k) eqn:E.
  - rewrite map_size_insert_Some by eauto. lia.
  - by rewrite map_size_insert_None.
Qed.

Lemma on_frame_bounded sessions f sessions' :
  (size sessions ≤ MAX_XUDP_SESSIONS)%nat → on_frame sessions f = Ok sessions' →
  (size sessions' ≤ MAX_XUDP_SESSIONS)%nat.
Proof.
  unfold on_frame. set (s := filter _ sessions).
  assert (size s ≤ size sessions)%nat as Hs by apply size_filter_le.
  intros Hb. revert Hs. generalize s. clear s. intros s Hs.
  assert (∀ ch, s !! xf_session f = Some ch → ∀ v,
    (size (<[xf_session f := v]> s) ≤ MAX_XUDP_SESSIONS)%nat) as Hcont.
  { intros ch Hch v. rewrite map_size_insert_Some by eauto. lia. }
  repeat (case_match; try discriminate); intros Hok; inv_ok; try discriminate; bool_to_prop.
  all: try (apply context_Ok in E; by eapply Hcont).
  - rewrite map_size_delete, H2. lia.
  - case_match; try discriminate. inv_ok.
    pose proof (size_insert_le s (xf_session f) (mkChan false [f])). lia.
Qed.

(** At every reachable state of the relay loop, whatever the order of
    bytes, responses and session endings, at most 256 sessions are open. *)
Theorem relay_sessions_bounded st :
  reachable st → (size (rs_sessions st) ≤ MAX_XUDP_SESSIONS)%nat.
Proof.
  induction 1 as [|st ev st' Hr IH Hs]; [cbn; rewrite map_size_empty; lia|].
  destruct ev; cbn [relay_step] in Hs.
  - destruct (read_xudp_frame _) as [[f rest]|e| |]; try discriminate.
    + inv_ok. by eapply on_frame_bounded.
    + destruct (String.eqb e _); [|discriminate]. by inv_ok.
  - discriminate.
  - inv_ok. done.
  - inv_ok. cbn [rs_sessions]. rewrite <- size_dom, dom_alter_L, size_dom. done.
  - inv_ok. cbn [rs_sessions]. rewrite <- size_dom, dom_alter_L, size_dom. done.
Qed.

Lemma relay_run_app st evs1 evs2 :
  relay_run st (evs1 ++ evs2) = (st ← relay_run st evs1; relay_run st evs2).
Proof.
  revert st. induction evs1 as [|ev evs1 IH]; intros st; [done|]. cbn [app relay_run].
  destruct (relay_step st ev); cbn; [apply IH|done..].
Qed.

Lemma reachable_run st evs st' :
  reachable st → relay_run st evs = Ok st' → reachable st'.
Proof.
  revert st. induction evs as [|ev evs IH]; intros st Hr; cbn; intros H; inv_ok; [done|].
  eapply IH; [|done]. by eapply reach_step.
Qed.

(** Bytes of one frame, without a response in between, are read as that frame. *)
Lemma relay_run_frame sessions out c f :
  (∀ t, read_xudp_frame (c ++ t) = Ok (f, t)) → c ≠ [] →
  (∀ p q, c = p ++ q → q ≠ [] → read_xudp_frame p = Err "early eof") →
  relay_run (mkRelay sessions [] out) (EvByte <$> c) =
    (sessions ← on_frame sessions f; Ok (mkRelay sessions [] out)).
Proof.
  intros Hc Hne Hp.
  assert (∀ p q, c = p ++ q → q ≠ [] →
    relay_run (mkRelay sessions p out) (EvByte <$> q) =
    (sessions ← on_frame sessions f; Ok (mkRelay sessions [] out))) as Hmain.
  2: { by apply (Hmain [] c). }
  intros p q. revert p. induction q as [|b q IH]; intros p Hpq Hq; [done|].
  cbn [fmap list_fmap relay_run relay_step rs_partial rs_sessions rs_out].
  destruct q as [|b' q].
  - rewrite <- Hpq. rewrite <- (app_nil_r c), Hc. cbn.
    by destruct (on_frame sessions f).
  - rewrite (Hp (p ++ [b]) (b' :: q)); [|by rewrite <- app_assoc|done].
    cbn [String.eqb Ascii.eqb Bool.eqb mbind result_bind].
    apply IH; [by rewrite <- app_assoc|done].
Qed.

(** ** What the relay promises *)

(** A frame as it is on the wire: the length of the header, the session, the status,
    the options (1: a payload follows), the destination of a datagram (network 2),
    the payload with its length. *)
Definition frame_address (f : XudpFrame) : bytes :=
  match xf_destination f with Some d => [2] ++ to_be 2 (port d) ++ address_bytes d | None => [] end.

Definition frame_payload (f : XudpFrame) : bytes :=
  match xf_payload f with Some p => to_be 2 (Z.of_nat (length p)) ++ p | None => [] end.

Definition frame_bytes (f : XudpFrame) : bytes :=
  to_be 2 (Z.of_nat (4 + length (frame_address f))) ++ to_be 2 (xf_session f) ++
  [xf_status f; match xf_payload f with Some _ => 1 | None => 0 end] ++ frame_address f ++ frame_payload f.

(** Frames that have such a form. *)
Definition frame_ok (f : XudpFrame) : Prop :=
  u16 (xf_session f) ∧ match xf_destination f with Some d => encodable d | None => True end ∧
  match xf_payload f with Some p => Z.of_nat (length p) ≤ 65535 | None => True end.

(** What happens at the relay, frame by frame: a frame arrives, a datagram that came
    back for a session is sent on, the task of a session takes a frame, or ends. *)
Inductive item : Set :=
  | Arrived (f : XudpFrame)
  | Answered (session : Z) (source : Destination) (payload : bytes)
  | Taken (session : Z)
  | Ended (session : Z).

(** The events at the relay, read against the frames [fs] a client sends, of which
    [n] bytes of the first have arrived: what happened, frame by frame, and the bytes
    of the frame that is incomplete.  No reading when the bytes are others, when the
    stream ends, or when an answer is sent while a frame is incomplete. *)
Fixpoint script (fs : list XudpFrame) (n : nat) (evs : list RelayEvent) : option (list item * bytes) :=
  match evs with
  | [] => Some ([], match fs with f :: _ => take n (frame_bytes f) | [] => [] end)
  | EvByte b :: evs =>
    match fs with
    | f :: fs' =>
      if negb (bool_decide (frame_bytes f !! n = Some b)) then None else
      if (S n =? length (frame_bytes f))%nat
      then prod_map (cons (Arrived f)) id <$> script fs' 0 evs
      else script fs (S n) evs
    | [] => None
    end
  | EvEof :: _ => None
  | EvResponse session source payload :: evs =>
    if (n =? 0)%nat then prod_map (cons (Answered session source payload)) id <$> script fs n evs else None
  | EvTake session :: evs => prod_map (cons (Taken session)) id <$> script fs n evs
  | EvClose session :: evs => prod_map (cons (Ended session)) id <$> script fs n evs
  end.

(** What a session has in its channel after [items]: the frames of this session since
    the one that opened it, less those its task has taken; nothing when the session is
    not open.  Items of other sessions play no part. *)
Definition session_next (k : Z) (q : option (list XudpFrame)) (i : item) : option (list XudpFrame) :=
  match i with
  | Arrived f =>
    if negb (xf_session f =? k) then q else
    match xf_status f with
    | 1 => Some [f]
    | 3 => None
    | _ => (λ q, q ++ [f]) <$> q
    end
  | Taken session => if session =? k then tail <$> q else q
  | Ended session => if session =? k then None else q
  | Answered _ _ _ => q
  end.

Definition channel (k : Z) (items : list item) : option (list XudpFrame) := fold_left (session_next k) items None.

(** The sessions that are open after [items]. *)
Definition mentioned (items : list item) : list Z :=
  omap (λ i, match i with Arrived f => Some (xf_session f) | _ => None end) items.

Definition open_sessions (items : list item) : list Z :=
  filter (λ k, is_Some (channel k items)) (remove_dups (mentioned items)).

(** A frame may open a session that is not open, when fewer than 256 are and its
    destination can be reached; go on with, or end, one that is open. *)
Definition reachable_destination (od : option Destination) : bool :=
  match od ≫= resolve with Some a => bind_socket a | None => false end.

Definition allowed (items : list item) (i : item) : bool :=
  match i with
  | Arrived f =>
    match xf_status f with
    | 1 => bool_decide (channel (xf_session f) items = None) && (length (open_sessions items) <? MAX_XUDP_SESSIONS)%nat &&
           reachable_destination (xf_destination f)
    | 2 | 3 | 4 => bool_decide (is_Some (channel (xf_session f) items))
    | _ => false
    end
  | _ => true
  end.

Fixpoint admitted (before items : list item) : bool :=
  match items with [] => true | i :: items => allowed before i && admitted (before ++ [i]) items end.

(** What the client is sent. *)
Definition answer_frame (i : item) : option XudpFrame :=
  match i with Answered session source payload => Some (mkXudpFrame session 2 (Some source) (Some payload)) | _ => None end.

Definition answers (items : list item) : bytes := mjoin (frame_bytes <$> omap answer_frame items).

Lemma frame_bytes_written session status d payload :
  encodable d → Z.of_nat (length payload) ≤ 65535 →
  write_xudp_frame session status d payload = (frame_bytes (mkXudpFrame session status (Some d) (Some payload)), Ok tt).
Proof.
  intros Hd Hp. rewrite write_xudp_frame_bytes by done. unfold frame_bytes, frame_address, frame_payload. cbn.
  by rewrite <- ?app_assoc.
Qed.

Lemma read_frame_bytes f rest : frame_ok f → read_xudp_frame (frame_bytes f ++ rest) = Ok (f, rest).
Proof.
  destruct f as [session status od op]. intros (Hs & Hd & Hp). cbn in Hs, Hd, Hp. unfold frame_bytes, read_xudp_frame.
  cbn [xf_session xf_status xf_payload].
  assert (Hlen : (length (frame_address (mkXudpFrame session status od op)) ≤ 400)%nat).
  { unfold frame_address. cbn. destruct od as [d|]; [|cbn; lia]. pose proof (length_address_bytes d Hd). length_tac. }
  set (addr := frame_address _) in *.
  assert (u16 (Z.of_nat (4 + length addr))) as H1 by (unfold uint; lia).
  rewrite <- ?app_assoc. read_step. rewrite (proj2 (Z.ltb_ge _ 4)) by lia. read_step. cbn [app]. do 2 read_step.
  assert (Haddr : ∀ t, (if 4 <? Z.of_nat (4 + length addr) then
      (remaining ← read_exact (Z.to_nat (Z.of_nat (4 + length addr)) - 4);
       if negb (bool_decide (head remaining = Some 2)) then fail "XUDP frame is not UDP" else
       b ← lift (slice remaining 1 (length remaining));
       d ← lift (parse_destination_bytes b);
       mret (Some d))
     else mret None) (addr ++ t) = Ok (od, t)).
  { intros t. subst addr. unfold frame_address. cbn [xf_destination]. destruct od as [d|]; [|done].
    rewrite (proj2 (Z.ltb_lt 4 _)) by length_tac. erewrite rbind_eq.
    2: { apply read_exact_app. length_tac. }
    cbn beta. rewrite bool_decide_true by done. cbn [negb].
    erewrite rbind_eq; [|rewrite slice_to_end by done; reflexivity].
    erewrite rbind_eq; [reflexivity|].
    rewrite <- (app_nil_r (_ ++ _)), parse_destination_app by done. reflexivity. }
  erewrite rbind_eq by apply Haddr. cbn beta. unfold frame_payload. cbn [xf_payload].
  destruct op as [p|].
  - change (negb (Z.land 1 1 =? 0)) with true. change (negb (Z.land 1 2 =? 0)) with false. cbn iota.
    assert (u16 (Z.of_nat (length p))) as H2 by (unfold uint; lia).
    erewrite rbind_eq; [reflexivity|]. rewrite <- app_assoc. read_step. rewrite Nat2Z.id. read_step. reflexivity.
  - change (negb (Z.land 0 1 =? 0)) with false. change (negb (Z.land 0 2 =? 0)) with false. reflexivity.
Qed.

(** The sessions whose tasks are alive. *)
Definition live (sessions : gmap Z Chan) : gmap Z Chan := filter (λ kc, ch_closed kc.2 = false) sessions.

(** The table holds, of each session, what the session's own items say. *)
Definition holds (sessions : gmap Z Chan) (items : list item) : Prop :=
  ∀ k, live sessions !! k = mkChan false <$> channel k items.

Lemma live_lookup sessions k :
  live sessions !! k = (sessions !! k) ≫= (λ c, if ch_closed c then None else Some c).
Proof.
  unfold live. rewrite map_lookup_filter. destruct (sessions !! k) as [c|]; [|done]. cbn.
  destruct (ch_closed c) eqn:E; [by rewrite option_guard_False by (cbn; congruence)|by rewrite option_guard_True].
Qed.

Lemma channel_snoc k items i : channel k (items ++ [i]) = session_next k (channel k items) i.
Proof. apply fold_left_app. Qed.

Lemma channel_mentioned k items : is_Some (channel k items) → k ∈ mentioned items.
Proof.
  induction items as [|i items IH] using rev_ind; [by intros []|]. rewrite channel_snoc. unfold mentioned in *.
  rewrite omap_app, elem_of_app. destruct i as [f|? ? ?|k'|k']; cbn; intros Hk; try (by left; apply IH).
  - destruct (Z.eqb_spec (xf_session f) k) as [<-|]; cbn in Hk; [right; by apply list_elem_of_singleton|by left; apply IH].
  - left. apply IH. destruct (k' =? k); [by apply fmap_is_Some in Hk|done].
  - left. apply IH. destruct (k' =? k); [by destruct Hk|done].
Qed.

Lemma live_size sessions items : holds sessions items → size (live sessions) = length (open_sessions items).
Proof.
  intros Hh. rewrite <- size_dom. rewrite <- (size_list_to_set (C := gset Z) (open_sessions items)).
  - f_equal. apply set_eq. intros k. rewrite elem_of_dom, Hh, fmap_is_Some, elem_of_list_to_set. unfold open_sessions.
    rewrite list_elem_of_filter, elem_of_remove_dups. split; [|naive_solver]. intros Hk. split; [done|by apply channel_mentioned].
  - apply NoDup_filter, NoDup_remove_dups.
Qed.

(** Changing one session. *)
Lemma holds_alter sessions items i k0 g :
  holds sessions items →
  (∀ k, k ≠ k0 → session_next k (channel k items) i = channel k items) →
  (g = λ c, mkChan (ch_closed c) (tail (ch_queue c))) ∧ session_next k0 (channel k0 items) i = tail <$> channel k0 items ∨
  (g = λ c, mkChan true (ch_queue c)) ∧ session_next k0 (channel k0 items) i = None →
  holds (alter g k0 sessions) (items ++ [i]).
Proof.
  intros Hh Hother Hown k. specialize (Hh k). rewrite live_lookup in *. rewrite channel_snoc.
  destruct (decide (k = k0)) as [->|Hne]; [|by rewrite Hother, lookup_alter_ne by done].
  rewrite lookup_alter_eq. destruct Hown as [[-> ->]|[-> ->]].
  - destruct (sessions !! k0) as [[[] q]|]; cbn in *; destruct (channel k0 items); cbn in *; congruence.
  - by destruct (sessions !! k0) as [[[] q]|].
Qed.

Lemma holds_insert sessions items f q :
  holds sessions items → session_next (xf_session f) (channel (xf_session f) items) (Arrived f) = Some q →
  holds (<[xf_session f := mkChan false q]> (live sessions)) (items ++ [Arrived f]).
Proof.
  intros Hh Hq k. rewrite live_lookup, channel_snoc.
  destruct (decide (k = xf_session f)) as [->|Hne]; [by rewrite lookup_insert_eq, Hq|].
  rewrite lookup_insert_ne, Hh by done. cbn [session_next]. rewrite (proj2 (Z.eqb_neq _ _)) by done. cbn.
  by destruct (channel k items).
Qed.

Lemma holds_delete sessions items f :
  holds sessions items → xf_status f = 3 → holds (delete (xf_session f) (live sessions)) (items ++ [Arrived f]).
Proof.
  intros Hh Hs k. rewrite live_lookup, channel_snoc. cbn [session_next]. rewrite Hs.
  destruct (decide (k = xf_session f)) as [->|Hne]; [by rewrite lookup_delete_eq, Z.eqb_refl|].
  rewrite lookup_delete_ne, Hh by done. rewrite (proj2 (Z.eqb_neq _ _)) by done. cbn.
  by destruct (channel k items).
Qed.

(** The frame branch does what the sessions promise, and refuses the frames they do
    not allow. *)
Lemma on_frame_spec sessions items f :
  holds sessions items →
  if allowed items (Arrived f) then ∃ sessions', on_frame sessions f = Ok sessions' ∧ holds sessions' (items ++ [Arrived f])
  else ∃ e, on_frame sessions f = Err e.
Proof.
  intros Hh. unfold on_frame. fold (live sessions). pose proof (live_size _ _ Hh) as Hsize.
  pose proof (Hh (xf_session f)) as Hk. cbn [allowed]. unfold reachable_destination.
  assert (Hnext : ∀ q, (xf_status f = 1 ∧ q = [f] ∨ (xf_status f = 2 ∨ xf_status f = 4) ∧
      ∃ q0, channel (xf_session f) items = Some q0 ∧ q = q0 ++ [f]) →
    session_next (xf_session f) (channel (xf_session f) items) (Arrived f) = Some q).
  { intros q Hq. cbn. rewrite Z.eqb_refl. cbn. destruct Hq as [[-> ->]|[[-> | ->] (q0 & -> & ->)]]; done. }
  destruct (decide (xf_status f = 1)) as [E|N1]; [rewrite E|].
  { destruct (live sessions !! xf_session f) as [c|] eqn:Hc.
    { destruct (channel _ items) as [q|]; [|done]. rewrite bool_decide_false by done. cbn. by eexists. }
    destruct (channel _ items) as [q|] eqn:Hch; [done|]. rewrite bool_decide_true by done. rewrite <- Hsize.
    destruct (Nat.leb_spec MAX_XUDP_SESSIONS (size (live sessions))) as [Hl|Hl].
    { rewrite (proj2 (Nat.ltb_ge _ _)) by done. by eexists. }
    rewrite (proj2 (Nat.ltb_lt _ _)) by done. cbn [andb].
    destruct (xf_destination f) as [d|]; cbn; [|by eexists]. destruct (resolve d) as [a|]; cbn; [|by eexists].
    destruct (bind_socket a); [|by eexists]. eexists. split; [done|]. apply holds_insert; [done|]. rewrite Hch. apply Hnext. by left. }
  destruct (decide (xf_status f = 3)) as [E|N3]; [rewrite E|].
  { rewrite Hk. destruct (channel (xf_session f) items); cbn; [|by eexists]. eexists. split; [done|]. by apply holds_delete. }
  destruct (decide (xf_status f = 2 ∨ xf_status f = 4)) as [E|N2].
  { assert (Hcont : if bool_decide (is_Some (channel (xf_session f) items))
      then ∃ sessions', (ch ← context (live sessions !! xf_session f) "XUDP continuation references unknown session";
        Ok (<[xf_session f := mkChan (ch_closed ch) (ch_queue ch ++ [f])]> (live sessions))) = Ok sessions' ∧
        holds sessions' (items ++ [Arrived f])
      else ∃ e, (ch ← context (live sessions !! xf_session f) "XUDP continuation references unknown session";
        Ok (<[xf_session f := mkChan (ch_closed ch) (ch_queue ch ++ [f])]> (live sessions))) = Err e).
    { rewrite Hk. destruct (channel (xf_session f) items) as [q|] eqn:Hch; cbn; [|by eexists].
      eexists. split; [done|]. apply holds_insert; [done|]. rewrite Hch. apply Hnext. right. eauto. }
    destruct E as [E|E]; rewrite E; exact Hcont. }
  destruct (xf_status f) as [|[[p|p|]|[p|[p|p|]|]|]|]; try (by eexists); naive_solver.
Qed.

(** One event. *)
Lemma relay_response_ok st session source payload :
  rs_partial st = [] → encodable source → Z.of_nat (length payload) ≤ 65535 →
  relay_step st (EvResponse session source payload) =
    Ok (mkRelay (rs_sessions st) [] (rs_out st ++ frame_bytes (mkXudpFrame session 2 (Some source) (Some payload)))).
Proof. intros Hp Hs Hl. cbn [relay_step]. by rewrite frame_bytes_written. Qed.

Lemma relay_byte_partial st f n b :
  frame_ok f → rs_partial st = take n (frame_bytes f) → frame_bytes f !! n = Some b → S n ≠ length (frame_bytes f) →
  relay_step st (EvByte b) = Ok (mkRelay (rs_sessions st) (take (S n) (frame_bytes f)) (rs_out st)).
Proof.
  intros Hf Hp Hb Hn. cbn [relay_step]. rewrite Hp, <- take_S_r by done. pose proof (lookup_lt_Some _ _ _ Hb) as Hlt.
  pose proof (read_frame_bytes f [] Hf) as Hr. apply streaming_xudp_frame in Hr as (c & Hc & _ & Hpre).
  rewrite !app_nil_r in Hc. subst c. rewrite (Hpre _ (drop (S n) (frame_bytes f))); [done|by rewrite take_drop|].
  intros E. apply (f_equal length) in E. rewrite length_drop in E. change (length (@nil Z)) with 0%nat in E. lia.
Qed.

Lemma relay_byte_last st f n b :
  frame_ok f → rs_partial st = take n (frame_bytes f) → frame_bytes f !! n = Some b → S n = length (frame_bytes f) →
  relay_step st (EvByte b) = (sessions ← on_frame (rs_sessions st) f; Ok (mkRelay sessions [] (rs_out st))).
Proof.
  intros Hf Hp Hb Hn. cbn [relay_step]. rewrite Hp, <- take_S_r, Hn, firstn_all by done.
  by rewrite <- (app_nil_r (frame_bytes f)), read_frame_bytes.
Qed.

(** Answers that have the form of a frame. *)
Definition answer_ok (i : item) : Prop := match answer_frame i with Some f => frame_ok f | None => True end.

Lemma answers_cons i items : answers (i :: items) = match answer_frame i with Some f => frame_bytes f | None => [] end ++ answers items.
Proof. unfold answers. cbn. by destruct (answer_frame i). Qed.

(** The relay, from [st] on, does what [items] promise after [before]. *)
Definition follows (st : RelayState) (evs : list RelayEvent) (before items : list item) (part : bytes) : Prop :=
  if admitted before items
  then ∃ sessions, relay_run st evs = Ok (mkRelay sessions part (rs_out st ++ answers items)) ∧ holds sessions (before ++ items)
  else ∃ e, relay_run st evs = Err e.

Lemma follows_cons st ev evs st' before i items part :
  allowed before i = true → relay_step st ev = Ok st' →
  rs_out st' = rs_out st ++ match answer_frame i with Some f => frame_bytes f | None => [] end →
  follows st' evs (before ++ [i]) items part → follows st (ev :: evs) before (i :: items) part.
Proof.
  unfold follows. intros Hal Hst Hout. cbn [admitted relay_run]. rewrite Hal, Hst. cbn [andb mbind result_bind].
  by rewrite answers_cons, app_assoc, <- Hout, <- app_assoc.
Qed.

(** The bytes that are waiting are those of the first frame that is not complete. *)
Definition waiting (st : RelayState) (fs : list XudpFrame) (n : nat) : Prop :=
  rs_partial st = match fs with f :: _ => take n (frame_bytes f) | [] => [] end.

Lemma waiting_nil sessions out fs : waiting (mkRelay sessions [] out) fs 0.
Proof. by destruct fs. Qed.

Lemma relay_follows_script evs fs n st before items part :
  Forall frame_ok fs → script fs n evs = Some (items, part) → Forall answer_ok items →
  waiting st fs n → holds (rs_sessions st) before → follows st evs before items part.
Proof.
  revert fs n st before items part. induction evs as [|ev evs IH]; intros fs n st before items part Hfs Hs Ha Hp Hh.
  { injection Hs as <- <-. unfold follows. cbn [admitted relay_run]. exists (rs_sessions st). change (answers []) with (@nil Z).
    rewrite !app_nil_r, <- Hp. by destruct st. }
  destruct ev as [b| |session source payload|session|session]; cbn [script] in Hs; [|done|..].
  - destruct fs as [|f fs]; [done|]. destruct (bool_decide_reflect (frame_bytes f !! n = Some b)) as [Hb|]; [|done]. cbn [negb] in Hs.
    apply Forall_cons in Hfs as [Hf Hfs]. destruct (Nat.eqb_spec (S n) (length (frame_bytes f))) as [El|Nl].
    + apply fmap_Some in Hs as ([items' part'] & Hs & [= -> ->]). apply Forall_cons in Ha as [_ Ha].
      pose proof (on_frame_spec (rs_sessions st) before f Hh) as Hon. destruct (allowed before (Arrived f)) eqn:Hal.
      * destruct Hon as (sessions' & Hon & Hh'). apply (follows_cons _ _ _ (mkRelay sessions' [] (rs_out st))); [done| |by rewrite app_nil_r|].
        -- by rewrite (relay_byte_last _ f n b), Hon.
        -- by eapply IH; [..|apply waiting_nil|].
      * destruct Hon as [e Hon]. unfold follows. cbn [admitted relay_run]. rewrite Hal. exists e.
        by rewrite (relay_byte_last _ f n b), Hon.
    + unfold follows. cbn [relay_run]. rewrite (relay_byte_partial _ f n b) by done. cbn [mbind result_bind].
      apply (IH (f :: fs) (S n) (mkRelay _ _ _)); try done. by apply Forall_cons.
  - destruct (Nat.eqb_spec n 0) as [->|]; [|done]. apply fmap_Some in Hs as ([items' part'] & Hs & [= -> ->]).
    apply Forall_cons in Ha as [(_ & Hd & Hl) Ha]. cbn in Hd, Hl.
    eapply follows_cons; [done|apply relay_response_ok; [by rewrite Hp; destruct fs|done..]|done|].
    eapply IH; [..|apply waiting_nil|]; try done. intros k. by rewrite channel_snoc, Hh.
  - apply fmap_Some in Hs as ([items' part'] & Hs & [= -> ->]). apply Forall_cons in Ha as [_ Ha].
    eapply follows_cons; [done..|by rewrite app_nil_r|]. eapply IH; try done.
    apply holds_alter; [done| |left; split; [done|]]; cbn; [|by rewrite Z.eqb_refl].
    intros k Hk. by rewrite (proj2 (Z.eqb_neq _ _)) by done.
  - apply fmap_Some in Hs as ([items' part'] & Hs & [= -> ->]). apply Forall_cons in Ha as [_ Ha].
    eapply follows_cons; [done..|by rewrite app_nil_r|]. eapply IH; try done.
    apply holds_alter; [done| |right; split; [done|]]; cbn; [|by rewrite Z.eqb_refl].
    intros k Hk. by rewrite (proj2 (Z.eqb_neq _ _)) by done.
Qed.

Lemma sessions_held_init : holds ∅ [].
Proof. intros k. by rewrite live_lookup, lookup_empty. Qed.

(** C6: the relay loop keeps the promises of the sessions.  A client sends any frames;
    their bytes arrive in pieces of any size, session tasks take frames and end at any
    time, and answers are sent while no frame is partly read (an answer at another
    time loses the bytes read, see [relay_response_drops_partial_frame]).  When every
    frame is allowed, the relay goes on, each session that is open holds exactly its
    own frames since it was opened, in order, less those its task took, and the client
    was sent exactly the answers.  The first frame that is not allowed ends the relay
    with an error. *)
Theorem relay_processes_frames evs fs items part :
  Forall frame_ok fs → script fs 0 evs = Some (items, part) → Forall answer_ok items →
  if admitted [] items
  then ∃ sessions, relay_run relay_init evs = Ok (mkRelay sessions part (answers items)) ∧
    ∀ k, live sessions !! k = mkChan false <$> channel k items
  else ∃ e, relay_run relay_init evs = Err e.
Proof.
  intros Hfs Hs Ha. exact (relay_follows_script evs fs 0 relay_init [] items part Hfs Hs Ha (waiting_nil _ _ _) sessions_held_init).
Qed.

(** *** Frames in full *)

(** The bytes of a sequence of events, and the frames that arrived. *)
Definition stream_bytes (evs : list RelayEvent) : bytes := omap (λ e, match e with EvByte b => Some b | _ => None end) evs.

Definition arrived (items : list item) : list XudpFrame := omap (λ i, match i with Arrived f => Some f | _ => None end) items.

(** The frames of session [k] its task has taken, from a channel [q] on. *)
Fixpoint delivered (k : Z) (q : option (list XudpFrame)) (items : list item) : list XudpFrame :=
  match items with
  | [] => []
  | i :: items =>
    match i, q with Taken session, Some (f :: _) => if session =? k then [f] else [] | _, _ => [] end ++
    delivered k (session_next k q i) items
  end.

Lemma frame_bytes_pos f : (0 < length (frame_bytes f))%nat.
Proof. unfold frame_bytes. rewrite length_app, length_to_be. lia. Qed.

(** When all bytes of some frames arrived, so did the frames. *)
Lemma script_arrived evs fs n items part :
  script fs n evs = Some (items, part) → match fs with f :: _ => (n < length (frame_bytes f))%nat | [] => n = 0%nat end →
  stream_bytes evs = drop n (mjoin (frame_bytes <$> fs)) → arrived items = fs ∧ part = [].
Proof.
  revert fs n items. induction evs as [|ev evs IH]; intros fs n items Hs Hn Hb; cbn [script] in Hs.
  - injection Hs as <- <-. destruct fs as [|f fs]; [done|]. symmetry in Hb. apply (f_equal length) in Hb.
    cbn [fmap list_fmap mjoin list_join] in Hb. rewrite length_drop, length_app in Hb. change (length (stream_bytes [])) with 0%nat in Hb. lia.
  - destruct ev as [b| |session source payload|session|session]; [|done|..].
    2: { destruct (Nat.eqb_spec n 0) as [->|]; [|done]. apply fmap_Some in Hs as ([items' part'] & Hs & [= -> ->]). exact (IH _ _ items' Hs Hn Hb). }
    2, 3: apply fmap_Some in Hs as ([items' part'] & Hs & [= -> ->]); exact (IH _ _ items' Hs Hn Hb).
    destruct fs as [|f fs]; [done|]. destruct (bool_decide_reflect (frame_bytes f !! n = Some b)) as [Hl|]; [|done]. cbn [negb] in Hs.
    cbn [fmap list_fmap mjoin list_join] in Hb. rewrite drop_app_le in Hb by lia. rewrite (drop_S _ _ _ Hl) in Hb.
    assert (Hb' : stream_bytes evs = drop (S n) (frame_bytes f) ++ mjoin (frame_bytes <$> fs)) by (by injection Hb).
    clear Hb. rename Hb' into Hb. destruct (Nat.eqb_spec (S n) (length (frame_bytes f))) as [El|Nl].
    + apply fmap_Some in Hs as ([items' part'] & Hs & [= -> ->]). rewrite El, drop_all in Hb.
      destruct (IH fs 0%nat items' Hs) as [<- ->]; [by destruct fs; [|apply frame_bytes_pos]|exact Hb|done].
    + eapply IH; [exact Hs|lia|]. cbn [fmap list_fmap mjoin list_join]. rewrite drop_app_le by lia. exact Hb.
Qed.

(** A frame for a new session, when no session is open. *)
Lemma on_frame_opens f d a :
  xf_status f = 1 → xf_destination f = Some d → resolve d = Some a → bind_socket a = true →
  on_frame ∅ f = Ok {[ xf_session f := mkChan false [f] ]}.
Proof.
  intros Hs Hd Hr Hb. unfold on_frame. rewrite map_filter_empty, Hs, lookup_empty, map_size_empty, Hd. cbn. rewrite Hr. cbn. by rewrite Hb.
Qed.

End relay.

(** Finding: the select loop is not cancellation safe.  A response that is
    written while a continuation frame is partly read drops the bytes already
    consumed: the same frame, delivered completely, then ends the relay with a
    framing error, while without the response it is dispatched. *)
Theorem relay_response_drops_partial_frame :
  ∃ resolve bind_socket st frame_bytes payload source n,
    is_ok (relay_run resolve bind_socket st (EvByte <$> frame_bytes)) = true ∧
    is_ok (relay_step resolve bind_socket st (EvResponse 0 source payload)) = true ∧
    relay_run resolve bind_socket st
      ((EvByte <$> take n frame_bytes) ++ [EvResponse 0 source payload] ++
       (EvByte <$> drop n frame_bytes)) = Err "invalid XUDP frame length".
Proof.
  exists (λ _, None), (λ _, true), (mkRelay {[ 0 := mkChan false [] ]} [] []).
  exists [0; 4; 0; 0; 2; 1; 0; 1; 7], [9], (Ip (V4 0) 53), 2%nat.
  split_and!; vm_compute; reflexivity.
Qed.

(** ** A session task *)

Module Session.

Record state : Set := mkState {
  destination : Destination;
  cached_target : option SocketAddr;
}.

Inductive event : Set :=
  | Frame (f : XudpFrame)                        (* frames.recv() *)
  | Received (payload : bytes) (source : SocketAddr) (* socket.recv_from() *)
  | Closed                                       (* the sender was dropped *)
  | Idle.                                        (* timeout or socket error *)

Inductive effect : Set :=
  | SendTo (payload : bytes) (target : SocketAddr)
  | Respond (session : Z) (source : Destination) (payload : bytes).

Section task.
(** [resolve_destination], whether [send_to] succeeds, and whether the relay
    still receives responses. *)
Context (resolve : Destination → option SocketAddr).
Context (send_ok : bytes → SocketAddr → bool) (responses_open : bool).
Context (session : Z).

(** One turn of the loop: the next state, or [None] when the task returns. *)
Definition step (st : state) (ev : event) : option state * list effect :=
  match ev with
  | Frame f =>
    let st := match xf_destination f with
              | Some d => mkState d None
              | None => st
              end in
    match xf_payload f with
    | None => (Some st, [])
    | Some payload =>
      let st' := match cached_target st with
                 | None =>
                   match resolve (destination st) with
                   | Some t => Some (mkState (destination st) (Some t))
                   | None => None
                   end
                 | Some _ => Some st
                 end in
      match st' with
      | None => (None, [])
      | Some st =>
        match cached_target st with
        | None => (None, [])
        | Some target =>
          if send_ok payload target then (Some st, [SendTo payload target]) else (None, [])
        end
      end
    end
  | Received payload source =>
    if responses_open
    then (Some st, [Respond session (Ip (sa_ip source) (sa_port source)) payload])
    else (None, [])
  | Closed | Idle => (None, [])
  end.

Fixpoint run (st : state) (evs : list event) : list effect :=
  match evs with
  | [] => []
  | ev :: evs =>
    let '(st, out) := step st ev in
    out ++ match st with Some st => run st evs | None => [] end
  end.

(** The same task without the cache: every datagram is resolved afresh. *)
Definition step_uncached (d : Destination) (ev : event) : option Destination * list effect :=
  match ev with
  | Frame f =>
    let d := default d (xf_destination f) in
    match xf_payload f with
    | None => (Some d, [])
    | Some payload =>
      match resolve d with
      | None => (None, [])
      | Some target =>
        if send_ok payload target then (Some d, [SendTo payload target]) else (None, [])
      end
    end
  | Received payload source =>
    if responses_open
    then (Some d, [Respond session (Ip (sa_ip source) (sa_port source)) payload])
    else (None, [])
  | Closed | Idle => (None, [])
  end.

Fixpoint run_uncached (d : Destination) (evs : list event) : list effect :=
  match evs with
  | [] => []
  | ev :: evs =>
    let '(d, out) := step_uncached d ev in
    out ++ match d with Some d => run_uncached d evs | None => [] end
  end.

(** The cached target is the resolution of the current destination. *)
Definition cache_ok (st : state) : Prop :=
  ∀ t, cached_target st = Some t → resolve (destination st) = Some t.

Lemma step_simulates st ev :
  cache_ok st →
  (step st ev).2 = (step_uncached (destination st) ev).2 ∧
  match (step st ev).1, (step_uncached (destination st) ev).1 with
  | Some st', Some d' => destination st' = d' ∧ cache_ok st'
  | None, None => True
  | _, _ => False
  end.
Proof.
  intros Hc. unfold cache_ok in *. destruct st as [d cached]; cbn [destination cached_target] in *.
  destruct ev as [[s k fd fp]|payload source| |]; cbn;
    [|by destruct responses_open; cbn|done|done].
  destruct fd as [d'|]; cbn; destruct fp as [payload|]; cbn; try done.
  - destruct (resolve d') eqn:E; cbn; [|done].
    destruct (send_ok payload s0); cbn; [|done]. split_and!; [done|done|congruence].
  - destruct cached as [t|]; cbn.
    + rewrite (Hc t) by done. destruct (send_ok payload t); cbn; done.
    + destruct (resolve d) eqn:E; cbn; [|done].
      destruct (send_ok payload s0); cbn; [|done]. split_and!; [done|done|congruence].
Qed.

(** Caching the resolved target is sound: for every sequence of events the
    task sends the same datagrams to the same addresses, and the same
    responses, as a task that resolves the current destination for every
    frame; in particular a frame with a new destination is never sent to the
    old one. *)
Theorem run_cached_eq_uncached d evs : run (mkState d None) evs = run_uncached d evs.
Proof.
  enough (∀ st, cache_ok st → run st evs = run_uncached (destination st) evs) as H
    by (apply (H (mkState d None)); done).
  induction evs as [|ev evs IH]; intros st Hc; [done|]. cbn [run run_uncached].
  destruct (step_simulates st ev Hc) as [Hout Hst].
  destruct (step st ev) as [[st'|] out], (step_uncached (destination st) ev) as [[d'|] out'];
    cbn [fst snd] in *; try done; subst out'; [|done].
  destruct Hst as [<- Hc']. f_equal. by apply IH.
Qed.

End task.
End Session.

(** ** Witnesses *)

(** A new-session frame of session 5 for 192.0.2.1:53 with a one-byte payload. *)
Definition example_frame_bytes : bytes :=
  [0; 12; 0; 5; 1; 1; 2; 0; 53; 1; 192; 0; 2; 1; 0; 1; 7].
Definition example_frame : XudpFrame :=
  mkXudpFrame 5 1 (Some (Ip (V4 3221225985) 53)) (Some [7]).
Definition example_resolve (d : Destination) : option SocketAddr :=
  match d with Ip ip p => Some (mkSocketAddr ip p) | Domain _ _ => None end.

Definition example_state : RelayState :=
  mkRelay {[ 5 := mkChan false [example_frame] ]} [] [].

Lemma relay_sessions_bounded_witness :
  reachable example_resolve (λ _, true) example_state ∧
  (size (rs_sessions example_state) ≤ MAX_XUDP_SESSIONS)%nat.
Proof.
  assert (reachable example_resolve (λ _, true) example_state) as Hr.
  { apply (reachable_run _ _ relay_init (EvByte <$> example_frame_bytes));
      [apply reach_init|vm_compute; reflexivity]. }
  split; [exact Hr|]. exact (relay_sessions_bounded example_resolve (λ _, true) _ Hr).
Defined.

(** A client of session 5: its first frame, whose task takes it while the second is
    arriving; an answer; the third frame is incomplete.  Session 6 is opened and its
    task ends. *)
Definition example_next : XudpFrame := mkXudpFrame 5 2 None (Some [8]).
Definition example_other : XudpFrame := mkXudpFrame 6 1 (Some (Ip (V4 3221225986) 53)) None.
Definition example_events : list RelayEvent :=
  (EvByte <$> frame_bytes example_frame) ++ (EvByte <$> take 3 (frame_bytes example_next)) ++ [EvTake 5] ++
  (EvByte <$> drop 3 (frame_bytes example_next)) ++ [EvResponse 5 (Ip (V4 3221225985) 53) [1; 2]] ++
  (EvByte <$> frame_bytes example_other) ++ [EvClose 6] ++ (EvByte <$> take 4 (frame_bytes example_next)).
Definition example_items : list item :=
  [Arrived example_frame; Taken 5; Arrived example_next; Answered 5 (Ip (V4 3221225985) 53) [1; 2];
   Arrived example_other; Ended 6].

Lemma relay_processes_frames_witness :
  ∃ sessions, relay_run example_resolve (λ _, true) relay_init example_events =
    Ok (mkRelay sessions (take 4 (frame_bytes example_next)) (answers example_items)) ∧
  ∀ k, live sessions !! k = mkChan false <$> channel k example_items.
Proof.
  pose proof (relay_processes_frames example_resolve (λ _, true) example_events
    [example_frame; example_next; example_other; example_next] example_items (take 4 (frame_bytes example_next))) as H.
  replace (admitted example_resolve (λ _, true) [] example_items) with true in H by (vm_compute; reflexivity).
  apply H; [|vm_compute; reflexivity|].
  - repeat (apply Forall_cons_2 || apply Forall_nil_2); repeat split; vm_compute; congruence.
  - repeat (apply Forall_cons_2 || apply Forall_nil_2); repeat split; vm_compute; congruence.
Defined.
