(* ===== verification/DnsMessage.v ===== *)
(** * DNS wire messages (src/src/dns/message.rs)

    Parsing of questions, answers and HTTPS records, construction of queries
    and of locally generated responses, the walk over resource records that
    finds the TTL fields, and the TTL rewriting the cache and the rules use.
    Positions and lengths are [nat] (they index an in-memory slice); field
    values are [Z] at their width. *)

From S2P Require Import Prelude RustStr Net.

(** ** Field access *)

(** [u16::from_be_bytes([b[i], b[i + 1]])] *)
Definition u16_at (b : bytes) (i : nat) : result Z :=
  x ← index b i; y ← index b (i + 1); Ok (of_be [x; y]).

(** [u32::from_be_bytes([b[i], .., b[i + 3]])] *)
Definition u32_at (b : bytes) (i : nat) : result Z :=
  w ← index b i; x ← index b (i + 1); y ← index b (i + 2); z ← index b (i + 3);
  Ok (of_be [w; x; y; z]).

Definition normalize (s : str) : str :=
  to_ascii_lowercase (trim_end_matches (Z.eqb c_dot) s).

(** ** Questions *)

(** The label loop of [parse_question].  Every turn advances the position, so
    the length of the request bounds the number of turns. *)
Fixpoint question_labels (fuel : nat) (request : bytes) (position : nat) (labels : list str)
    : result (list str * nat) :=
  match fuel with
  | O => Diverge
  | S fuel =>
    length ← context (request !! position) "truncated DNS question";
    let position := (position + 1)%nat in
    if length =? 0 then Ok (labels, position)
    else if 63 <? length then Err "compressed DNS questions are unsupported"
    else
      label ← context (slice_get request position (position + Z.to_nat length))
                "truncated DNS question label";
      label ← from_utf8 label;
      question_labels fuel request (position + Z.to_nat length) (labels ++ [label])
  end.

Definition parse_question (request : bytes) : result (str * Z * nat) :=
  if (length request <? 12)%nat then Err "invalid DNS query" else
  qdcount ← u16_at request 4;
  if qdcount =? 0 then Err "invalid DNS query" else
  '(labels, position) ← question_labels (S (length request)) request 12 [];
  fields ← context (slice_get request position (position + 4)) "truncated DNS question fields";
  qtype ← u16_at fields 0;
  Ok (normalize (join [c_dot] labels), qtype, (position + 4)%nat).

(** One answer record of a locally generated response. *)
Definition local_record (qtype : Z) (address : IpAddr) : bytes :=
  [192; 12] ++ to_be 2 qtype ++ to_be 2 1 ++ to_be 4 30 ++
  match address with
  | V4 a => to_be 2 4 ++ to_be 4 a
  | V6 a => to_be 2 16 ++ to_be 16 a
  end.

(** [matches!((qtype, address), (1, IpAddr::V4(_)) | (28, IpAddr::V6(_)))] *)
Definition family_matches (qtype : Z) (address : IpAddr) : bool :=
  match address with V4 _ => qtype =? 1 | V6 _ => qtype =? 28 end.

(** [local_response]: [found] are the addresses the system resolver returned. *)
Definition local_response (found : list IpAddr) (request : bytes) (qtype : Z)
    (question_end : nat) : result bytes :=
  let addresses := List.filter (family_matches qtype) found in
  response ← slice request 0 question_end;
  response ← store response 2 129;
  response ← store response 3 128;
  response ← copy_from_slice response 6 (to_be 2 (Z.of_nat (length addresses) mod 2 ^ 16));
  response ← copy_from_slice response 8 [0; 0; 0; 0];
  Ok (response ++ concat (local_record qtype <$> addresses)).

Definition refused_response (request : bytes) (question_end : nat) : result bytes :=
  response ← context (slice_get request 0 question_end) "truncated DNS question";
  b2 ← index response 2;
  response ← store response 2 (Z.lor b2 128);
  b3 ← index response 3;
  response ← store response 3 (Z.lor (Z.land b3 240) 5);
  copy_from_slice response 6 [0; 0; 0; 0; 0; 0].

(** ** Queries *)

Section client_subnet.
Context {N : IpNetLib}.

Definition parse_client_subnet (value : str) : result IpNet :=
  match ipnet_parse value with
  | Some net => Ok net
  | None =>
    address ← context (parse_ip value) "invalid DNS client_subnet";
    Ok (ipnet_host address)
  end.

Definition append_client_subnet_opt (output : bytes) (subnet : str) : result bytes :=
  subnet ← parse_client_subnet subnet;
  let prefix := ipnet_prefix_len subnet in
  let '(family, address) :=
    match ipnet_network subnet with
    | V4 a => (1, to_be 4 a)
    | V6 a => (2, to_be 16 a)
    end in
  let address_length := Z.to_nat ((prefix + 7) / 8) in
  option_length ← context (try_uint 16 (4 + Z.of_nat address_length))
                    "EDNS client subnet option is too large";
  data_length ← checked_or_panic 16 (4 + option_length);
  address ← slice address 0 address_length;
  Ok (output ++ [0] ++ to_be 2 41 ++ to_be 2 1232 ++ to_be 4 0 ++ to_be 2 data_length ++
      to_be 2 8 ++ to_be 2 option_length ++ to_be 2 family ++ [prefix] ++ [0] ++ address).

(** The labels of a name, each with its length byte. *)
Fixpoint encode_labels (labels : list str) (msg : string) : result bytes :=
  match labels with
  | [] => Ok []
  | label :: labels =>
    if bool_decide (label = []) || (63 <? length label)%nat then Err msg
    else
      rest ← encode_labels labels msg;
      Ok (Z.of_nat (length label) :: label ++ rest)
  end.

Definition build_query_with_subnet (id : Z) (name : str) (qtype : Z)
    (client_subnet : option str) : result bytes :=
  let b := to_be 2 id ++
    [1; 0; 0; 1; 0; 0; 0; 0; 0; match client_subnet with Some _ => 1 | None => 0 end] in
  labels ← encode_labels (split c_dot name) "invalid DNS name";
  let b := b ++ labels ++ [0] ++ to_be 2 qtype ++ to_be 2 1 in
  match client_subnet with
  | Some subnet => append_client_subnet_opt b subnet
  | None => Ok b
  end.

Definition build_query (id : Z) (name : str) (qtype : Z) : result bytes :=
  build_query_with_subnet id name qtype None.

Definition add_client_subnet (request : bytes) (subnet : str) : result bytes :=
  if (length request <? 12)%nat then Err "invalid DNS query" else
  arcount ← u16_at request 10;
  if negb (arcount =? 0) then
    Err "DNS client_subnet cannot be added to a query that already has additional records"
  else
    wire ← copy_from_slice request 10 (to_be 2 1);
    append_client_subnet_opt wire subnet.

End client_subnet.

(** ** Headers *)

Definition dns_id (message : bytes) : result Z :=
  b ← context (slice_get message 0 2) "truncated DNS message"; u16_at b 0.

Definition canonical_query (request : bytes) : bytes :=
  match request with
  | _ :: _ :: rest => 0 :: 0 :: rest
  | _ => request
  end.

Definition validate_response (expected_id : Z) (response : bytes) : result unit :=
  if (length response <? 12)%nat then Err "truncated DNS response" else
  id ← dns_id response;
  if negb (id =? expected_id) then Err "DNS response transaction ID mismatch" else
  flags ← index response 2;
  if Z.land flags 128 =? 0 then Err "DNS message is not a response" else Ok tt.

(** ** Names and records *)

(** [skip_name]: the position after the name.  The label count limit of 127
    bounds the loop, so 129 turns are enough. *)
Fixpoint skip_name_loop (fuel : nat) (b : bytes) (p : nat) (count : Z) : result nat :=
  match fuel with
  | O => Diverge
  | S fuel =>
    match b !! p with
    | None => Err "truncated DNS name"
    | Some n =>
      let p := (p + 1)%nat in
      if n =? 0 then Ok p
      else if Z.land n 192 =? 192 then
        if (length b <=? p)%nat then Err "truncated DNS pointer" else Ok (p + 1)%nat
      else if negb (Z.land n 192 =? 0) || (63 <? n) then Err "invalid DNS label"
      else
        let p := (p + Z.to_nat n)%nat in
        if (length b <? p)%nat then Err "truncated DNS label" else
        let count := count + 1 in
        if 127 <? count then Err "invalid DNS name" else skip_name_loop fuel b p count
    end
  end.

Definition skip_name (b : bytes) (p : nat) : result nat := skip_name_loop 129 b p 0.

(** [position.checked_add(n).filter(|v| *v <= len)]: positions index a slice, so
    the addition itself cannot overflow. *)
Definition advance (position n limit : nat) (msg : string) : result nat :=
  if (position + n <=? limit)%nat then Ok (position + n)%nat else Err msg.

Fixpoint skip_questions (count : nat) (message : bytes) (position : nat) (msg : string)
    : result nat :=
  match count with
  | O => Ok position
  | S count =>
    position ← skip_name message position;
    position ← advance position 4 (length message) msg;
    skip_questions count message position msg
  end.

(** The record loop of [ttl_offsets]: (offset of the TTL, type, TTL). *)
Fixpoint ttl_records (count : nat) (message : bytes) (position : nat)
    : result (list (nat * Z * Z)) :=
  match count with
  | O => Ok []
  | S count =>
    position ← skip_name message position;
    header ← context (slice_get message position (position + 10)) "truncated DNS record";
    record_type ← u16_at header 0;
    ttl ← u32_at header 4;
    len ← u16_at header 8;
    position' ← advance position (10 + Z.to_nat len) (length message) "truncated DNS record data";
    offsets ← ttl_records count message position';
    Ok (((position + 4)%nat, record_type, ttl) :: offsets)
  end.

Definition ttl_offsets (message : bytes) : result (list (nat * Z * Z)) :=
  if (length message <? 12)%nat then Err "truncated DNS message" else
  questions ← u16_at message 4;
  an ← u16_at message 6;
  ns ← u16_at message 8;
  ar ← u16_at message 10;
  position ← skip_questions (Z.to_nat questions) message 12 "truncated DNS question";
  ttl_records (Z.to_nat (an + ns + ar)) message position.

Definition response_ttl (response : bytes) : Z :=
  match ttl_offsets response with
  | Ok offsets =>
    let ttls := (λ o, o.2) <$> List.filter (λ o, negb (o.1.2 =? 41)) offsets in
    match ttls with
    | [] => 30
    | t :: ts => foldr Z.min t ts
    end
  | _ => 30
  end.

(** The write loop shared by [age_response_ttls] and [rewrite_response_ttls]. *)
Fixpoint write_ttls (f : Z → Z) (response : bytes) (offsets : list (nat * Z * Z))
    : result bytes :=
  match offsets with
  | [] => Ok response
  | (offset, record_type, ttl) :: offsets =>
    if negb (record_type =? 41) then
      response ← copy_from_slice response offset (to_be 4 (f ttl));
      write_ttls f response offsets
    else write_ttls f response offsets
  end.

Definition map_ttls (f : Z → Z) (response : bytes) : result bytes :=
  match ttl_offsets response with
  | Ok offsets => write_ttls f response offsets
  | Err _ => Ok response
  | Panic => Panic
  | Diverge => Diverge
  end.

Definition age_response_ttls (response : bytes) (elapsed : Z) : result bytes :=
  map_ttls (λ ttl, saturating_sub ttl elapsed) response.

Definition rewrite_response_ttls (response : bytes) (replacement : Z) : result bytes :=
  map_ttls (λ _, replacement) response.

(** ** Answers *)

Fixpoint response_records (count : nat) (qtype : Z) (b : bytes) (p : nat)
    (out : list IpAddr) (ttl : Z) : result (list IpAddr * Z) :=
  match count with
  | O => Ok (out, ttl)
  | S count =>
    p ← skip_name b p;
    if (length b <? p + 10)%nat then Err "truncated DNS answer" else
    typ ← u16_at b p;
    record_ttl ← u32_at b (p + 4);
    len ← u16_at b (p + 8);
    let p := (p + 10)%nat in
    if (length b <? p + Z.to_nat len)%nat then Err "truncated DNS rdata" else
    '(out, ttl) ←
      (if typ =? qtype then
         out ← (if (typ =? 1) && (len =? 4) then
                  a ← slice b p (p + 4); Ok (out ++ [V4 (of_be a)])
                else if (typ =? 28) && (len =? 16) then
                  a ← slice b p (p + 16); Ok (out ++ [V6 (of_be a)])
                else Ok out);
         Ok (out, Z.min ttl record_ttl)
       else Ok (out, ttl));
    response_records count qtype b (p + Z.to_nat len) out ttl
  end.

Definition parse_response (id qtype : Z) (b : bytes) : result (list IpAddr * Z) :=
  if (length b <? 12)%nat then Err "invalid DNS response" else
  message_id ← u16_at b 0;
  if negb (message_id =? id) then Err "invalid DNS response" else
  flags ← u16_at b 2;
  if (Z.land flags 32768 =? 0) || negb (Z.land flags 15 =? 0) then Err "DNS error rcode" else
  qd ← u16_at b 4;
  an ← u16_at b 6;
  p ← skip_questions (Z.to_nat qd) b 12 "truncated DNS question";
  '(out, ttl) ← response_records (Z.to_nat an) qtype b p [] u32_max;
  Ok (out, if ttl =? u32_max then 30 else ttl).

(** ** HTTPS records: the ECH configuration *)

(** The parameter loop inside one HTTPS record: the ECH value when key 5 is
    found.  Every turn advances the position by at least four. *)
Fixpoint https_params (fuel : nat) (message : bytes) (position end_ : nat) : result (option bytes) :=
  match fuel with
  | O => Diverge
  | S fuel =>
    if (position <? end_)%nat then
      parameter ← context (slice_get message position (position + 4)) "truncated DNS HTTPS parameter";
      key ← u16_at parameter 0;
      value_length ← u16_at parameter 2;
      let position := (position + 4)%nat in
      value_end ← advance position (Z.to_nat value_length) end_
                    "truncated DNS HTTPS parameter value";
      if key =? 5 then
        if value_length =? 0 then Err "empty ECH config in DNS HTTPS record"
        else value ← slice message position value_end; Ok (Some value)
      else https_params fuel message value_end end_
    else Ok None
  end.

Fixpoint https_records (count : nat) (message : bytes) (position : nat) : result (bytes * Z) :=
  match count with
  | O => Err "no ECH config found in DNS HTTPS records"
  | S count =>
    position ← skip_name message position;
    header ← context (slice_get message position (position + 10)) "truncated DNS HTTPS answer";
    record_type ← u16_at header 0;
    ttl ← u32_at header 4;
    len ← u16_at header 8;
    let position := (position + 10)%nat in
    end_ ← advance position (Z.to_nat len) (length message) "truncated DNS HTTPS record data";
    if negb (record_type =? 65) then https_records count message end_
    else
      position ← advance position 2 end_ "truncated DNS HTTPS priority";
      position ← skip_name message position;
      if (end_ <? position)%nat then Err "DNS HTTPS target exceeds record" else
      found ← https_params (S (length message)) message position end_;
      match found with
      | Some value => Ok (value, ttl)
      | None => https_records count message end_
      end
  end.

Definition parse_https_ech (id : Z) (message : bytes) : result (bytes * Z) :=
  if (length message <? 12)%nat then Err "invalid DNS HTTPS response" else
  message_id ← dns_id message;
  if negb (message_id =? id) then Err "invalid DNS HTTPS response" else
  flags ← u16_at message 2;
  if (Z.land flags 32768 =? 0) || negb (Z.land flags 15 =? 0) then Err "DNS HTTPS error rcode" else
  questions ← u16_at message 4;
  answers ← u16_at message 6;
  position ← skip_questions (Z.to_nat questions) message 12 "truncated DNS HTTPS question";
  https_records (Z.to_nat answers) message position.

Arguments skip_name : simpl never.
Arguments advance : simpl never.
Arguments u16_at : simpl never.
Arguments u32_at : simpl never.

(** ** Field access lemmas *)

Lemma returns_u16_at b i : (i + 1 < length b)%nat → returns (u16_at b i).
Proof.
  intros H. unfold u16_at.
  repeat (apply returns_bind; [apply returns_index; lia|intros ? _]). done.
Qed.

Lemma returns_u32_at b i : (i + 3 < length b)%nat → returns (u32_at b i).
Proof.
  intros H. unfold u32_at.
  repeat (apply returns_bind; [apply returns_index; lia|intros ? _]). done.
Qed.

Lemma index_u8 b i v : Forall u8 b → index b i = Ok v → u8 v.
Proof. rewrite index_Ok. intros Hb Hv. by eapply Forall_lookup_1. Qed.

Lemma u16_at_u16 b i v : Forall u8 b → u16_at b i = Ok v → u16 v.
Proof.
  unfold u16_at. intros Hb H. inv_ok. apply (of_be_uint [_; _]).
  repeat constructor; eapply index_u8; eauto.
Qed.

Lemma u32_at_u32 b i v : Forall u8 b → u32_at b i = Ok v → u32 v.
Proof.
  unfold u32_at. intros Hb H. inv_ok. apply (of_be_uint [_; _; _; _]).
  repeat constructor; eapply index_u8; eauto.
Qed.

Lemma index_app_r {A} (pre l : list A) k : index (pre ++ l) (length pre + k) = index l k.
Proof. unfold index. by rewrite lookup_app_r, Nat.add_comm, Nat.add_sub by lia. Qed.

Lemma u16_at_app_r pre l k : u16_at (pre ++ l) (length pre + k) = u16_at l k.
Proof. unfold u16_at. by rewrite <- Nat.add_assoc, !index_app_r. Qed.

Lemma u32_at_app_r pre l k : u32_at (pre ++ l) (length pre + k) = u32_at l k.
Proof. unfold u32_at. by rewrite <- !Nat.add_assoc, !index_app_r. Qed.

(** A field written by [to_be] is read back at its offset. *)
Lemma u16_at_app pre z post i :
  i = length pre → u16 z → u16_at (pre ++ to_be 2 z ++ post) i = Ok z.
Proof.
  intros -> Hz. rewrite <- (Nat.add_0_r (length pre)), u16_at_app_r.
  rewrite <- (of_be_to_be 2 z Hz) at 2. done.
Qed.

Lemma u32_at_app pre z post i :
  i = length pre → u32 z → u32_at (pre ++ to_be 4 z ++ post) i = Ok z.
Proof.
  intros -> Hz. rewrite <- (Nat.add_0_r (length pre)), u32_at_app_r.
  rewrite <- (of_be_to_be 4 z Hz) at 2. done.
Qed.

Lemma advance_Ok p n limit msg q : advance p n limit msg = Ok q ↔ q = (p + n)%nat ∧ (q ≤ limit)%nat.
Proof.
  unfold advance. destruct (p + n <=? limit)%nat eqn:E; bool_to_prop.
  - split; [intros [= <-]; lia|intros [-> _]; done].
  - split; [done|lia].
Qed.

Lemma returns_advance p n limit msg : returns (advance p n limit msg).
Proof. unfold advance. by destruct (p + n <=? limit)%nat. Qed.
#[export] Hint Resolve returns_advance returns_u16_at returns_u32_at : rust.

(** ** The walk over names and records comes back, in bounds *)

Lemma returns_skip_name_loop fuel b p count :
  0 ≤ count ≤ 127 → 129 ≤ Z.of_nat fuel + count → returns (skip_name_loop fuel b p count).
Proof.
  revert p count. induction fuel as [|fuel IH]; intros p count Hc Hf; [lia|].
  cbn [skip_name_loop]. repeat (case_match; try done). bool_to_prop. apply IH; lia.
Qed.

Lemma returns_skip_name b p : returns (skip_name b p).
Proof. apply returns_skip_name_loop; lia. Qed.

Lemma skip_name_loop_bounds fuel b p count q :
  skip_name_loop fuel b p count = Ok q → (p < q ≤ length b)%nat.
Proof.
  revert p count. induction fuel as [|fuel IH]; intros p count; cbn [skip_name_loop]; [done|].
  destruct (b !! p) as [n|] eqn:En; [|done]. pose proof (lookup_lt_Some _ _ _ En).
  repeat (case_match; try done); bool_to_prop; try (intros H'; apply IH in H'; lia).
  all: intros [= <-]; lia.
Qed.

Lemma skip_name_bounds b p q : skip_name b p = Ok q → (p < q ≤ length b)%nat.
Proof. apply skip_name_loop_bounds. Qed.
#[export] Hint Resolve returns_skip_name : rust.

Lemma returns_skip_questions n b p msg : returns (skip_questions n b p msg).
Proof.
  revert p. induction n as [|n IH]; intros p; cbn [skip_questions]; [done|].
  apply returns_bind; [auto with rust|intros q _].
  apply returns_bind; [auto with rust|intros r _]. apply IH.
Qed.

Lemma skip_questions_bounds n b p msg q :
  skip_questions n b p msg = Ok q → (p ≤ length b)%nat → (p ≤ q ≤ length b)%nat.
Proof.
  revert p. induction n as [|n IH]; intros p; cbn [skip_questions]; [intros [= <-]; lia|].
  intros H Hp. inv_ok. apply skip_name_bounds in E. apply advance_Ok in E0 as [-> ?].
  apply IH in H; lia.
Qed.

(** A ten-byte record header starts with its type, and holds the TTL and the
    length: reading its fields does not fail. *)
Lemma returns_header b p header :
  slice_get b p (p + 10) = Some header →
  returns (u16_at header 0) ∧ returns (u16_at header 8) ∧ returns (u32_at header 4).
Proof.
  intros H%slice_get_length.
  split_and!; [apply returns_u16_at|apply returns_u16_at|apply returns_u32_at]; lia.
Qed.

Lemma returns_ttl_records n b p : returns (ttl_records n b p).
Proof.
  revert p. induction n as [|n IH]; intros p; cbn [ttl_records]; [done|].
  apply returns_bind; [auto with rust|intros q _].
  apply returns_bind; [auto with rust|intros header Hh].
  apply context_Ok, returns_header in Hh as (? & ? & ?).
  do 3 (apply returns_bind; [done|intros ? _]).
  apply returns_bind; [auto with rust|intros r _].
  apply returns_bind; [apply IH|done].
Qed.

Lemma returns_ttl_offsets b : returns (ttl_offsets b).
Proof.
  unfold ttl_offsets. destruct (length b <? 12)%nat eqn:E; [done|]. bool_to_prop.
  do 4 (apply returns_bind; [apply returns_u16_at; lia|intros ? _]).
  apply returns_bind; [apply returns_skip_questions|intros ? _]. apply returns_ttl_records.
Qed.

Lemma returns_response_records n qtype b p out ttl : returns (response_records n qtype b p out ttl).
Proof.
  revert p out ttl. induction n as [|n IH]; intros p out ttl; cbn [response_records]; [done|].
  apply returns_bind; [auto with rust|intros q _].
  destruct (length b <? q + 10)%nat eqn:E; [done|]. bool_to_prop.
  apply returns_bind; [apply returns_u16_at; lia|intros typ _].
  apply returns_bind; [apply returns_u32_at; lia|intros rttl _].
  apply returns_bind; [apply returns_u16_at; lia|intros len _].
  destruct (length b <? _)%nat eqn:E2; [done|]. bool_to_prop.
  apply returns_bind; [|intros [out' ttl'] _; apply IH].
  destruct (typ =? qtype); [|done]. apply returns_bind; [|done].
  destruct ((typ =? 1) && _) eqn:E3; bool_to_prop.
  { apply returns_bind; [apply returns_slice; lia|done]. }
  destruct ((typ =? 28) && _) eqn:E4; bool_to_prop; [|done].
  apply returns_bind; [apply returns_slice; lia|done].
Qed.

Lemma returns_parse_response id qtype b : returns (parse_response id qtype b).
Proof.
  unfold parse_response. destruct (length b <? 12)%nat eqn:E; [done|]. bool_to_prop.
  apply returns_bind; [apply returns_u16_at; lia|intros ? _]. destruct (negb _); [done|].
  apply returns_bind; [apply returns_u16_at; lia|intros ? _]. destruct (_ || _); [done|].
  do 2 (apply returns_bind; [apply returns_u16_at; lia|intros ? _]).
  apply returns_bind; [apply returns_skip_questions|intros ? _].
  apply returns_bind; [apply returns_response_records|intros [? ?] _; done].
Qed.

Lemma returns_https_params fuel b p end_ :
  (end_ - p < fuel)%nat → (end_ ≤ length b)%nat → returns (https_params fuel b p end_).
Proof.
  revert p. induction fuel as [|fuel IH]; intros p Hf He; [lia|]. cbn [https_params].
  destruct (p <? end_)%nat eqn:E; [|done]. bool_to_prop.
  apply returns_bind; [auto with rust|intros param Hp].
  apply context_Ok, slice_get_length in Hp.
  do 2 (apply returns_bind; [apply returns_u16_at; lia|intros ? _]).
  apply returns_bind; [auto with rust|intros value_end [-> ?]%advance_Ok].
  destruct (_ =? 5); [destruct (_ =? 0); [done|]|].
  - apply returns_bind; [apply returns_slice; lia|done].
  - apply IH; lia.
Qed.

Lemma returns_https_records n b p : returns (https_records n b p).
Proof.
  revert p. induction n as [|n IH]; intros p; cbn [https_records]; [done|].
  apply returns_bind; [auto with rust|intros q _].
  apply returns_bind; [auto with rust|intros header Hh].
  apply context_Ok, returns_header in Hh as (? & ? & ?).
  do 3 (apply returns_bind; [done|intros ? _]).
  apply returns_bind; [auto with rust|intros end_ [-> ?]%advance_Ok].
  destruct (negb _); [apply IH|].
  apply returns_bind; [auto with rust|intros ? _].
  apply returns_bind; [auto with rust|intros ? _].
  destruct (_ <? _)%nat; [done|].
  apply returns_bind; [apply returns_https_params; lia|intros [?|] _; [done|apply IH]].
Qed.

Lemma returns_dns_id b : returns (dns_id b).
Proof.
  unfold dns_id. apply returns_bind; [auto with rust|intros ? H].
  apply context_Ok, slice_get_length in H. apply returns_u16_at. lia.
Qed.

Lemma returns_parse_https_ech id b : returns (parse_https_ech id b).
Proof.
  unfold parse_https_ech. destruct (length b <? 12)%nat eqn:E; [done|]. bool_to_prop.
  apply returns_bind; [apply returns_dns_id|intros ? _]. destruct (negb _); [done|].
  apply returns_bind; [apply returns_u16_at; lia|intros ? _]. destruct (_ || _); [done|].
  do 2 (apply returns_bind; [apply returns_u16_at; lia|intros ? _]).
  apply returns_bind; [apply returns_skip_questions|intros ? _]. apply returns_https_records.
Qed.

Lemma returns_question_labels fuel b p ls :
  (length b < fuel + p)%nat → (p ≤ length b)%nat → returns (question_labels fuel b p ls).
Proof.
  revert p ls. induction fuel as [|fuel IH]; intros p ls Hf Hp; [lia|].
  cbn [question_labels]. apply returns_bind; [auto with rust|intros n Hn].
  apply context_Ok, lookup_lt_Some in Hn.
  destruct (n =? 0); [done|]. destruct (63 <? n); [done|].
  apply returns_bind; [auto with rust|intros l Hl].
  apply context_Ok, slice_get_Some in Hl as (? & ? & _).
  apply returns_bind; [auto with rust|intros l' _]. apply IH; lia.
Qed.

Lemma returns_parse_question b : returns (parse_question b).
Proof.
  unfold parse_question. destruct (length b <? 12)%nat eqn:E; [done|]. bool_to_prop.
  apply returns_bind; [apply returns_u16_at; lia|intros ? _].
  destruct (_ =? 0); [done|].
  apply returns_bind; [apply returns_question_labels; lia|intros [ls q] _].
  apply returns_bind; [auto with rust|intros f Hf]. apply context_Ok, slice_get_length in Hf.
  apply returns_bind; [apply returns_u16_at; lia|done].
Qed.

(** C7: Robustness of the DNS parser: on every byte sequence, for every id and
    query type, parsing a question, an answer, an HTTPS record and walking the
    TTL fields comes back with a value or an error; no loop runs away and no
    index is out of bounds, compressed or truncated names included. *)
Theorem dns_parsers_return id qtype b :
  returns (parse_question b) ∧ returns (parse_response id qtype b) ∧
  returns (parse_https_ech id b) ∧ returns (ttl_offsets b).
Proof.
  split_and!; [apply returns_parse_question|apply returns_parse_response
              |apply returns_parse_https_ech|apply returns_ttl_offsets].
Qed.

(** ** TTL rewriting *)

(** The offset, type and TTL of a visited record, and its rewriting. *)
Definition rec_off (o : nat * Z * Z) : nat := o.1.1.
Definition rec_type (o : nat * Z * Z) : Z := o.1.2.
Definition rec_ttl (o : nat * Z * Z) : Z := o.2.
Definition map_rec (f : Z → Z) (o : nat * Z * Z) : nat * Z * Z :=
  if rec_type o =? 41 then o else (rec_off o, rec_type o, f (rec_ttl o)).

(** Index [i] belongs to a TTL field that is rewritten. *)
Definition in_ttl (offs : list (nat * Z * Z)) (i : nat) : Prop :=
  ∃ o, o ∈ offs ∧ rec_type o ≠ 41 ∧ (rec_off o ≤ i < rec_off o + 4)%nat.

#[export] Instance in_ttl_dec offs i : Decision (in_ttl offs i).
Proof.
  refine (cast_if (decide (Exists (λ o, rec_type o ≠ 41 ∧ (rec_off o ≤ i < rec_off o + 4)%nat) offs)));
    unfold in_ttl; rewrite Exists_exists in *; naive_solver.
Defined.

(** The fields are visited from left to right and do not overlap. *)
Definition spaced (len : nat) (offs : list (nat * Z * Z)) : Prop :=
  StronglySorted (λ o1 o2, (rec_off o1 + 4 ≤ rec_off o2)%nat) offs ∧
  Forall (λ o, (rec_off o + 4 ≤ len)%nat) offs.

Lemma ttl_records_step n b p offs :
  ttl_records (S n) b p = Ok offs →
  ∃ q header t ttl l offs', skip_name b p = Ok q ∧
    slice_get b q (q + 10) = Some header ∧ u16_at header 0 = Ok t ∧ u32_at header 4 = Ok ttl ∧
    u16_at header 8 = Ok l ∧ (q + 10 + Z.to_nat l ≤ length b)%nat ∧
    ttl_records n b (q + 10 + Z.to_nat l) = Ok offs' ∧ offs = ((q + 4)%nat, t, ttl) :: offs'.
Proof.
  cbn [ttl_records]. intros H. inv_ok. apply context_Ok in E0. apply advance_Ok in E4 as [-> ?].
  rewrite Nat.add_assoc in *. naive_solver.
Qed.

Lemma ttl_records_bounds n b p offs :
  ttl_records n b p = Ok offs →
  Forall (λ o, (p + 4 < rec_off o)%nat) offs ∧ spaced (length b) offs.
Proof.
  revert p offs. induction n as [|n IH]; intros p offs.
  { intros [= <-]. repeat split; constructor. }
  intros (q & header & t & ttl & l & offs' & Hq & Hh & _ & _ & _ & Hl & Hr & ->)%ttl_records_step.
  apply skip_name_bounds in Hq. apply IH in Hr as [Hlo [Hs Hb]].
  assert (Forall (λ o, (p + 4 < rec_off o)%nat) offs') as Hp.
  { eapply Forall_impl; [apply Hlo|]. cbn. lia. }
  repeat split; constructor; try done; [cbn; lia| |cbn; lia].
  eapply Forall_impl; [apply Hlo|]. cbn. lia.
Qed.

Lemma ttl_records_u32 n b p offs :
  Forall u8 b → ttl_records n b p = Ok offs → Forall (λ o, u32 (rec_ttl o)) offs.
Proof.
  intros Hb. revert p offs. induction n as [|n IH]; intros p offs.
  { intros [= <-]. constructor. }
  intros (q & header & t & ttl & l & offs' & Hq & Hh & _ & Ht & _ & Hl & Hr & ->)%ttl_records_step.
  constructor; [|by eapply IH]. eapply u32_at_u32; [|done].
  apply slice_get_Some in Hh as (_ & _ & ->). by apply Forall_take, Forall_drop.
Qed.

Lemma write_ttls_spec f b offs :
  spaced (length b) offs →
  ∃ b', write_ttls f b offs = Ok b' ∧ length b' = length b ∧
    (∀ i, ¬ in_ttl offs i → b' !! i = b !! i) ∧
    (∀ o k, o ∈ offs → rec_type o ≠ 41 → (k < 4)%nat →
       b' !! (rec_off o + k)%nat = to_be 4 (f (rec_ttl o)) !! k).
Proof.
  revert b. induction offs as [|[[off t] ttl] offs IH]; intros b [Hs Hb].
  { exists b. split_and!; [done..|]. intros o k Ho. by apply elem_of_nil in Ho. }
  inversion Hs as [|? ? Hs' Hlt]; subst. inversion Hb as [|? ? Hoff Hb']; subst.
  cbn [write_ttls rec_off rec_type] in *. destruct (t =? 41) eqn:Et; bool_to_prop; cbn [negb].
  - destruct (IH b) as (b' & Hw & Hlen & Hout & Hin); [done|].
    exists b'. split_and!; [done|done| |].
    + intros i Hi. apply Hout. intros (o & Ho & ?). apply Hi. exists o. by rewrite elem_of_cons; auto.
    + intros o k [->|Ho]%elem_of_cons; [done|]. by apply Hin.
  - destruct (copy_from_slice b off (to_be 4 (f ttl))) as [b1|e| |] eqn:Ec;
      try (rewrite copy_from_slice_Ok in Ec by (rewrite length_to_be; done); discriminate).
    pose proof (copy_from_slice_length _ _ _ _ Ec) as Hlen1.
    destruct (IH b1) as (b' & Hw & Hlen & Hout & Hin); [split; [done|by rewrite Hlen1]|].
    cbn [mbind result_bind]. exists b'. split_and!; [done|congruence| |].
    + intros i Hi. rewrite Hout; [rewrite (copy_from_slice_lookup _ _ _ _ i Ec)|].
      * rewrite decide_False; [done|]. rewrite length_to_be. intros ?. apply Hi.
        exists (off, t, ttl). split_and!; [left|done|cbn; lia..].
      * intros (o & Ho & ?). apply Hi. exists o. by rewrite elem_of_cons; auto.
    + intros o k [->|Ho]%elem_of_cons Ht Hk; [|by apply Hin]. cbn [rec_off rec_ttl fst snd] in *.
      rewrite Hout; [rewrite (copy_from_slice_lookup _ _ _ _ _ Ec)|].
      * rewrite decide_True by (rewrite length_to_be; lia). f_equal. lia.
      * intros (o & Ho & _ & Hrange). rewrite Forall_forall in Hlt. apply Hlt in Ho. cbn in Ho. lia.
Qed.

(** Two buffers of the same length with the same bytes in a range. *)
Definition agree (b b' : bytes) (lo hi : nat) : Prop :=
  ∀ i, (lo ≤ i < hi)%nat → b' !! i = b !! i.

Lemma skip_name_loop_agree fuel b b' p count q :
  length b' = length b → skip_name_loop fuel b p count = Ok q → agree b b' p q →
  skip_name_loop fuel b' p count = Ok q.
Proof.
  intros Hlen. revert p count. induction fuel as [|fuel IH]; intros p count; [done|].
  intros Hok Ha. pose proof (skip_name_loop_bounds _ _ _ _ _ Hok) as Hpq.
  cbn [skip_name_loop] in *. rewrite (Ha p) by lia. rewrite !Hlen.
  destruct (b !! p) as [n|]; [|done]. destruct (n =? 0); [done|].
  destruct (Z.land n 192 =? 192); [done|]. destruct (negb _ || _); [done|].
  destruct (length b <? _)%nat; [done|]. destruct (127 <? _); [done|].
  apply IH; [done|]. intros i Hi. apply Ha. lia.
Qed.

Lemma skip_name_agree b b' p q :
  length b' = length b → skip_name b p = Ok q → agree b b' p q → skip_name b' p = Ok q.
Proof. apply skip_name_loop_agree. Qed.

Lemma u16_at_slice b p n header i :
  slice_get b p (p + n) = Some header → (i + 1 < n)%nat → u16_at header i = u16_at b (p + i).
Proof.
  intros H Hi. unfold u16_at, index.
  rewrite !(slice_get_lookup _ _ _ _ _ H) by lia. by rewrite Nat.add_assoc.
Qed.

Lemma u32_at_slice b p n header i :
  slice_get b p (p + n) = Some header → (i + 3 < n)%nat → u32_at header i = u32_at b (p + i).
Proof.
  intros H Hi. unfold u32_at, index.
  rewrite !(slice_get_lookup _ _ _ _ _ H) by lia. by rewrite !Nat.add_assoc.
Qed.

Lemma u16_at_agree b b' i : agree b b' i (i + 2) → u16_at b' i = u16_at b i.
Proof. intros H. unfold u16_at, index. by rewrite !H by lia. Qed.

Lemma u32_at_agree b b' i : agree b b' i (i + 4) → u32_at b' i = u32_at b i.
Proof. intros H. unfold u32_at, index. by rewrite !H by lia. Qed.

Lemma skip_questions_agree n b b' p msg q :
  length b' = length b → skip_questions n b p msg = Ok q → agree b b' p q →
  skip_questions n b' p msg = Ok q.
Proof.
  intros Hlen. revert p. induction n as [|n IH]; intros p; cbn [skip_questions]; [done|].
  intros H Ha. inv_ok. pose proof (skip_name_bounds _ _ _ E).
  apply advance_Ok in E0 as [-> ?].
  pose proof (skip_questions_bounds _ _ _ _ _ H ltac:(lia)).
  rewrite (skip_name_agree b b' p v) by (done || (intros i ?; apply Ha; lia)).
  cbn [mbind result_bind]. rewrite Hlen, (proj2 (advance_Ok v 4 _ _ (v + 4))) by lia.
  cbn [mbind result_bind]. apply IH; [done|]. intros i ?. apply Ha. lia.
Qed.

(** Rewriting the TTL fields a walk visits does not change the walk: the same
    records are found, with the new TTLs. *)
Lemma ttl_records_rewritten f n b b' p offs :
  length b' = length b → ttl_records n b p = Ok offs →
  (∀ i, (p ≤ i)%nat → ¬ in_ttl offs i → b' !! i = b !! i) →
  (∀ o k, o ∈ offs → rec_type o ≠ 41 → (k < 4)%nat →
     b' !! (rec_off o + k)%nat = to_be 4 (f (rec_ttl o)) !! k) →
  Forall (λ o, u32 (f (rec_ttl o))) offs →
  ttl_records n b' p = Ok (map_rec f <$> offs).
Proof.
  intros Hlen. revert p offs. induction n as [|n IH]; intros p offs Hok Hout Hin Hf.
  { injection Hok as <-. done. }
  pose proof (ttl_records_bounds _ _ _ _ Hok) as [Hlo [Hs _]].
  apply ttl_records_step in Hok
    as (q & header & t & ttl & l & offs' & Hq & Hh & Ht & Httl & Hlenf & Hl & Hr & ->).
  pose proof (skip_name_bounds _ _ _ Hq) as Hpq.
  pose proof (ttl_records_bounds _ _ _ _ Hr) as [Hlo' _].
  inversion Hf as [|? ? Hft Hf']; subst.
  assert (∀ i, (p ≤ i < q + 10)%nat → ¬ (q + 4 ≤ i < q + 8)%nat → b' !! i = b !! i) as Hsame.
  { intros i Hi Hni. apply Hout; [lia|]. intros (o & Ho & _ & Hr').
    apply elem_of_cons in Ho as [->|Ho]; [cbn in Hr'; lia|].
    rewrite Forall_forall in Hlo'. apply Hlo' in Ho. lia. }
  destruct (slice_get b' q (q + 10)) as [header'|] eqn:Hh'.
  2: { unfold slice_get in Hh'. rewrite Hlen in Hh'.
       rewrite (proj2 (Nat.leb_le q _)), (proj2 (Nat.leb_le (q + 10) _)) in Hh' by lia. done. }
  rewrite (u16_at_slice b q 10) in Ht, Hlenf by (done || lia).
  rewrite (u32_at_slice b q 10) in Httl by (done || lia).
  cbn [ttl_records]. rewrite (skip_name_agree b b' p q); [|done|done|].
  2: { intros i Hi. apply Hsame; lia. }
  cbn [mbind result_bind]. rewrite Hh'. cbn [context mbind result_bind].
  assert (∀ k, (k = 0 ∨ k = 8)%nat → u16_at header' k = u16_at b (q + k)) as Hfield.
  { intros k Hk. rewrite (u16_at_slice b' q 10) by (done || lia).
    apply u16_at_agree. intros i Hi. apply Hsame; lia. }
  rewrite (Hfield 0%nat), Ht by auto. cbn [mbind result_bind].
  rewrite (Hfield 8%nat), Hlenf by auto. rewrite (u32_at_slice b' q 10) by (done || lia).
  assert (u32_at b' (q + 4) = Ok (if t =? 41 then ttl else f ttl)) as ->.
  { destruct (t =? 41) eqn:Et; bool_to_prop.
    - rewrite <- Httl. apply u32_at_agree. intros i Hi. apply Hout; [lia|].
      intros (o & Ho & Hot & Hr'). apply elem_of_cons in Ho as [->|Ho]; [done|].
      rewrite Forall_forall in Hlo'. apply Hlo' in Ho. lia.
    - rewrite <- (of_be_to_be 4 (f ttl)) by done. unfold u32_at, index.
      pose proof (λ k, Hin ((q + 4)%nat, t, ttl) k ltac:(left) Et) as Hk.
      cbn [rec_off rec_ttl fst snd] in Hk. rewrite <- (Nat.add_0_r (q + 4)) at 1.
      rewrite !Hk by lia. done. }
  cbn [mbind result_bind]. rewrite Hlen.
  rewrite (proj2 (advance_Ok q (10 + Z.to_nat l) _ _ (q + 10 + Z.to_nat l))) by lia.
  cbn [mbind result_bind].
  rewrite (IH _ offs' Hr).
  - cbn. unfold map_rec. cbn. by destruct (t =? 41).
  - intros i Hi Hni. apply Hout; [lia|]. intros (o & Ho & Hot & Hr').
    apply elem_of_cons in Ho as [->|Ho]; [cbn in Hr'; lia|]. apply Hni. by exists o.
  - intros o k Ho. apply Hin. by right.
  - done.
Qed.

Lemma ttl_offsets_spec b offs :
  ttl_offsets b = Ok offs →
  (12 ≤ length b)%nat ∧ Forall (λ o, (16 < rec_off o)%nat) offs ∧ spaced (length b) offs ∧
  (Forall u8 b → Forall (λ o, u32 (rec_ttl o)) offs).
Proof.
  unfold ttl_offsets. destruct (length b <? 12)%nat eqn:E; [done|]. bool_to_prop.
  intros H. inv_ok. pose proof (skip_questions_bounds _ _ _ _ _ E4 ltac:(lia)).
  pose proof (ttl_records_bounds _ _ _ _ H) as [Hlo Hs].
  split_and!; [lia| |done|intros Hb; by eapply ttl_records_u32].
  eapply Forall_impl; [apply Hlo|]. cbn. lia.
Qed.

Lemma in_ttl_map_rec f offs i : in_ttl (map_rec f <$> offs) i ↔ in_ttl offs i.
Proof.
  assert (∀ o, rec_off (map_rec f o) = rec_off o ∧ rec_type (map_rec f o) = rec_type o) as Hm.
  { intros o. unfold map_rec. by destruct (rec_type o =? 41). }
  unfold in_ttl. split.
  - intros (o & (o' & -> & Ho)%list_elem_of_fmap & Ht & Hr). destruct (Hm o') as [Hm1 Hm2].
    exists o'. by rewrite <- Hm1, <- Hm2.
  - intros (o & Ho & Ht & Hr). destruct (Hm o) as [Hm1 Hm2].
    exists (map_rec f o). rewrite Hm1, Hm2. split; [|done]. by apply list_elem_of_fmap_2.
Qed.

(** A TTL transformation that stays in range is applied to exactly the TTL of
    every record but the EDNS pseudo-record, and to no other byte. *)
Lemma map_ttls_spec f b offs :
  (∀ t, u32 t → u32 (f t)) → Forall u8 b → ttl_offsets b = Ok offs →
  ∃ b', map_ttls f b = Ok b' ∧ length b' = length b ∧ Forall u8 b' ∧
    ttl_offsets b' = Ok (map_rec f <$> offs) ∧
    (∀ i, ¬ in_ttl offs i → b' !! i = b !! i) ∧
    (∀ o k, o ∈ offs → rec_type o ≠ 41 → (k < 4)%nat →
       b' !! (rec_off o + k)%nat = to_be 4 (f (rec_ttl o)) !! k).
Proof.
  intros Hf Hb Hok. pose proof (ttl_offsets_spec _ _ Hok) as (Hlen12 & Hlo & Hs & Hu).
  specialize (Hu Hb). unfold map_ttls. rewrite Hok.
  destruct (write_ttls_spec f b offs Hs) as (b' & Hw & Hlen & Hout & Hin).
  exists b'. split_and!; [done|done| | |done|done].
  - apply Forall_lookup. intros i v Hv. destruct (decide (in_ttl offs i)) as [Hi|Hi].
    + destruct Hi as (o & Ho & Ht & Hr). replace i with (rec_off o + (i - rec_off o))%nat in Hv by lia.
      rewrite Hin in Hv by (done || lia). eapply Forall_lookup_1; [apply to_be_u8|done].
    + rewrite Hout in Hv by done. by eapply Forall_lookup_1.
  - revert Hok. unfold ttl_offsets. rewrite Hlen.
    destruct (length b <? 12)%nat eqn:E; [done|]. bool_to_prop. intros Hok. inv_ok.
    pose proof (skip_questions_bounds _ _ _ _ _ E4 ltac:(lia)) as Hq.
    pose proof (ttl_records_bounds _ _ _ _ Hok) as [Hlo' _].
    assert (∀ i, (i < v3 + 4)%nat → b' !! i = b !! i) as Hsame.
    { intros i Hi. apply Hout. intros (o & Ho & _ & Hr). rewrite Forall_forall in Hlo'.
      apply Hlo' in Ho. lia. }
    rewrite !(u16_at_agree b b') by (intros i ?; apply Hsame; lia).
    rewrite E0, E1, E2, E3. cbn [mbind result_bind].
    rewrite (skip_questions_agree _ b b' 12 _ v3) by (done || (intros i ?; apply Hsame; lia)).
    cbn [mbind result_bind]. apply (ttl_records_rewritten f _ b); [done|done|auto|done|].
    eapply Forall_impl; [apply Hu|]. intros o. apply Hf.
Qed.

Lemma map_ttls_error f b e : ttl_offsets b = Err e → map_ttls f b = Ok b.
Proof. intros H. unfold map_ttls. by rewrite H. Qed.

Lemma map_ttls_map_ttls f g b :
  (∀ t, u32 t → u32 (f t)) → (∀ t, u32 t → u32 (g t)) → Forall u8 b →
  (b1 ← map_ttls f b; map_ttls g b1) = map_ttls (λ t, g (f t)) b.
Proof.
  intros Hf Hg Hb. pose proof (returns_ttl_offsets b) as Hr.
  destruct (ttl_offsets b) as [offs|e| |] eqn:Hok; try done.
  2: { rewrite !(map_ttls_error _ b e) by done. cbn. by apply (map_ttls_error _ b e). }
  destruct (map_ttls_spec f b offs Hf Hb Hok) as (b1 & -> & Hlen1 & Hb1 & Hok1 & Hout1 & Hin1).
  destruct (map_ttls_spec g b1 _ Hg Hb1 Hok1) as (b2 & Hm2 & Hlen2 & Hb2 & _ & Hout2 & Hin2).
  destruct (map_ttls_spec (λ t, g (f t)) b offs (λ t Ht, Hg _ (Hf t Ht)) Hb Hok)
    as (b3 & -> & Hlen3 & Hb3 & _ & Hout3 & Hin3).
  cbn [mbind result_bind]. rewrite Hm2. f_equal. apply list_eq. intros i.
  destruct (decide (in_ttl offs i)) as [(o & Ho & Ht & Hr')|Hi].
  - replace i with (rec_off o + (i - rec_off o))%nat by lia.
    rewrite Hin3 by (done || lia).
    assert (map_rec f o = (rec_off o, rec_type o, f (rec_ttl o))) as Hm.
    { unfold map_rec. by rewrite (proj2 (Z.eqb_neq (rec_type o) 41)). }
    pose proof (list_elem_of_fmap_2 (map_rec f) offs o Ho) as Hel. rewrite Hm in Hel.
    apply (Hin2 _ (i - rec_off o)%nat Hel); [done|lia].
  - rewrite Hout3 by done. rewrite Hout2 by (by rewrite in_ttl_map_rec). by apply Hout1.
Qed.

Lemma saturating_sub_u32 e t : 0 ≤ e → u32 t → u32 (saturating_sub t e).
Proof. unfold saturating_sub, uint. lia. Qed.

(** Ageing a response: on every message, it succeeds (no write is out of
    bounds), keeps the length, and when the records can be walked, the aged
    message has the same records with every TTL but that of the EDNS
    pseudo-record lowered by the elapsed time, never below zero. *)
Theorem age_response_ttls_spec b elapsed :
  Forall u8 b → 0 ≤ elapsed →
  ∃ b', age_response_ttls b elapsed = Ok b' ∧ length b' = length b ∧
    match ttl_offsets b with
    | Ok offs => ttl_offsets b' = Ok (map_rec (λ t, saturating_sub t elapsed) <$> offs)
    | _ => b' = b
    end.
Proof.
  intros Hb He. unfold age_response_ttls. pose proof (returns_ttl_offsets b) as Hr.
  destruct (ttl_offsets b) as [offs|e| |] eqn:Hok; try done.
  - destruct (map_ttls_spec (λ t, saturating_sub t elapsed) b offs) as (b' & ? & ? & _ & ? & _);
      [intros t; by apply saturating_sub_u32|done|done|]. by exists b'.
  - exists b. by rewrite (map_ttls_error _ b e).
Qed.

(** Ageing twice is ageing by the sum: reading a cached response after
    [e1] and again [e2] seconds later gives the bytes one reading after
    [e1 + e2] seconds gives. *)
Theorem age_response_ttls_add b e1 e2 :
  Forall u8 b → 0 ≤ e1 → 0 ≤ e2 →
  (b1 ← age_response_ttls b e1; age_response_ttls b1 e2) = age_response_ttls b (e1 + e2).
Proof.
  intros Hb H1 H2. unfold age_response_ttls.
  rewrite map_ttls_map_ttls by (done || (intros t; by apply saturating_sub_u32)).
  unfold map_ttls. destruct (ttl_offsets b) as [offs|e| |]; [|done..].
  clear Hb. revert b. induction offs as [|[[off t] ttl] offs IH]; intros b; [done|].
  cbn [write_ttls]. destruct (negb _); [|apply IH].
  replace (saturating_sub (saturating_sub ttl e1) e2) with (saturating_sub ttl (e1 + e2))
    by (unfold saturating_sub; lia).
  destruct (copy_from_slice _ _ _); [apply IH|done..].
Qed.

Lemma foldr_min_sub e t ts :
  foldr Z.min (saturating_sub t e) ((λ t, saturating_sub t e) <$> ts) =
  saturating_sub (foldr Z.min t ts) e.
Proof.
  induction ts as [|t' ts IH]; [done|]. cbn [fmap list_fmap foldr]. rewrite IH.
  unfold saturating_sub. lia.
Qed.

Lemma nonopt_map_rec f offs :
  (λ o : nat * Z * Z, o.2) <$> List.filter (λ o, negb (o.1.2 =? 41)) (map_rec f <$> offs) =
  f <$> ((λ o : nat * Z * Z, o.2) <$> List.filter (λ o, negb (o.1.2 =? 41)) offs).
Proof.
  induction offs as [|[[off t] ttl] offs IH]; [done|]. cbn [fmap list_fmap List.filter].
  assert (map_rec f (off, t, ttl) = (off, t, if t =? 41 then ttl else f ttl)) as ->
    by (unfold map_rec; cbn; by destruct (t =? 41)).
  cbn [fst snd]. destruct (t =? 41) eqn:E; cbn [negb]; [apply IH|].
  cbn [fmap list_fmap snd]. f_equal. apply IH.
Qed.

(** The lifetime the cache derives from a message follows its ageing: when
    the message has a record besides the EDNS pseudo-record, the response TTL of
    the aged message is the response TTL lowered by the elapsed time. *)
Theorem response_ttl_aged b elapsed offs :
  Forall u8 b → 0 ≤ elapsed → ttl_offsets b = Ok offs →
  Exists (λ o, rec_type o ≠ 41) offs →
  (response_ttl <$> age_response_ttls b elapsed) = Ok (saturating_sub (response_ttl b) elapsed).
Proof.
  intros Hb He Hok Hex.
  destruct (map_ttls_spec (λ t, saturating_sub t elapsed) b offs) as (b' & Hm & _ & _ & Hok' & _);
    [intros t; by apply saturating_sub_u32|done|done|].
  unfold age_response_ttls. rewrite Hm. cbn [fmap result_fmap]. f_equal.
  unfold response_ttl. rewrite Hok', Hok. cbn zeta. rewrite nonopt_map_rec.
  destruct ((λ o : nat * Z * Z, o.2) <$> List.filter _ offs) as [|t ts] eqn:El.
  { exfalso. apply fmap_nil_inv in El. apply Exists_exists in Hex as (o & Ho & Ht).
    assert (In o []) as Hin; [|done]. rewrite <- El. apply filter_In.
    split; [by apply list_elem_of_In|]. apply negb_true_iff, Z.eqb_neq, Ht. }
  apply foldr_min_sub.
Qed.

(** ** Questions: round trips *)

Lemma lookup_app_cons (pre : bytes) x post i : i = length pre → (pre ++ x :: post) !! i = Some x.
Proof. intros ->. by rewrite lookup_app_r, Nat.sub_diag by lia. Qed.

Lemma slice_get_prefix {A} (m r : list A) b : b = length m → slice_get (m ++ r) 0 b = Some m.
Proof. intros Hb. by apply (slice_get_app []). Qed.

Lemma u16_at_prefix z post : u16 z → u16_at (to_be 2 z ++ post) 0 = Ok z.
Proof. by apply (u16_at_app []). Qed.

Lemma question_labels_encode labels msg out pre post acc fuel :
  encode_labels labels msg = Ok out → Forall (λ l, utf8_valid l = true) labels →
  (length labels < fuel)%nat →
  question_labels fuel (pre ++ out ++ 0 :: post) (length pre) acc =
    Ok (acc ++ labels, (length pre + length out + 1)%nat).
Proof.
  revert out pre acc fuel. induction labels as [|l labels IH]; intros out pre acc fuel.
  - cbn [encode_labels]. intros [= <-] _ Hf. destruct fuel as [|fuel]; [cbn in Hf; lia|].
    cbn [question_labels app]. rewrite lookup_app_cons by done. cbn.
    by rewrite app_nil_r, Nat.add_0_r.
  - cbn [encode_labels]. destruct (bool_decide (l = []) || _) eqn:El; [done|]. bool_to_prop.
    intros Henc [Hu Hus]%Forall_cons Hf. inv_ok. destruct fuel as [|fuel]; [cbn in Hf; lia|].
    cbn [question_labels app]. rewrite lookup_app_cons by done. cbn [context mbind result_bind].
    assert (length l ≠ 0)%nat by (by destruct l).
    rewrite (proj2 (Z.eqb_neq _ 0)), (proj2 (Z.ltb_ge 63 _)) by lia.
    replace (pre ++ Z.of_nat (length l) :: (l ++ v) ++ 0 :: post)
      with ((pre ++ [Z.of_nat (length l)]) ++ l ++ v ++ 0 :: post)
      by (by rewrite <- !app_assoc).
    rewrite (slice_get_app (pre ++ [Z.of_nat (length l)]) l) by length_tac.
    cbn [context mbind result_bind]. unfold from_utf8. rewrite Hu. cbn [mbind result_bind].
    rewrite (app_assoc (pre ++ _) l).
    replace (length pre + 1 + Z.to_nat (Z.of_nat (length l)))%nat
      with (length ((pre ++ [Z.of_nat (length l)]) ++ l)) by length_tac.
    rewrite (IH v) by (done || (cbn in Hf; lia)).
    f_equal. f_equal; [by rewrite <- app_assoc|length_tac].
Qed.

(** Query round trip: for every name whose labels are non-empty and at most
    63 bytes, the query built for it parses back to the normalised name, the
    query type, and a question that ends where the message ends; its id is
    read back too. *)
Theorem parse_build_query {N : IpNetLib} id name qtype b :
  u16 id → u16 qtype → rust_str name → build_query id name qtype = Ok b →
  parse_question b = Ok (normalize name, qtype, length b) ∧ dns_id b = Ok id.
Proof.
  intros Hid Hq [_ Hu] H. unfold build_query, build_query_with_subnet in H.
  cbn iota zeta in H. apply bind_Ok in H as (labels & E & H). cbn iota in H.
  apply Ok_inj in H. subst b. set (tail := [0] ++ to_be 2 qtype ++ to_be 2 1) in *.
  set (hdr := to_be 2 id ++ [1; 0; 0; 1; 0; 0; 0; 0; 0; 0]) in *.
  assert (length hdr = 12%nat) as Hhdr by (subst hdr; length_tac).
  split.
  2: { unfold dns_id, hdr. rewrite <- !app_assoc.
       rewrite slice_get_prefix by length_tac. cbn [context mbind result_bind].
       rewrite <- (app_nil_r (to_be 2 id)). by apply u16_at_prefix. }
  unfold parse_question. rewrite (proj2 (Nat.ltb_ge _ _)) by length_tac.
  assert (u16_at (hdr ++ labels ++ tail) 4 = Ok 1) as ->.
  { unfold hdr. rewrite <- app_assoc. change 4%nat with (2 + 2)%nat.
    rewrite <- (length_to_be 2 id) at 2. by rewrite u16_at_app_r. }
  cbn [mbind result_bind]. change (1 =? 0) with false. cbn iota.
  replace 12%nat with (length hdr) by done. subst tail. cbn [app].
  rewrite (question_labels_encode (split c_dot name) "invalid DNS name" labels); [|done| |].
  - cbn [mbind result_bind app]. rewrite join_split.
    assert (slice_get (hdr ++ labels ++ 0 :: to_be 2 qtype ++ to_be 2 1)
      (length hdr + length labels + 1) (length hdr + length labels + 1 + 4) =
      Some (to_be 2 qtype ++ to_be 2 1)) as ->.
    { rewrite (cons_middle 0 labels), !app_assoc, <- (app_assoc _ (to_be 2 qtype)).
      rewrite <- (app_nil_r (_ ++ to_be 2 qtype ++ _)), <- app_assoc.
      apply slice_get_app; length_tac. }
    cbn [context mbind result_bind]. rewrite u16_at_prefix by done.
    cbn [mbind result_bind]. f_equal. f_equal. length_tac.
  - by apply utf8_valid_split.
  - (* one byte of the message per label at least *)
    assert (length (split c_dot name) ≤ length labels)%nat; [|length_tac].
    revert E. clear. generalize "invalid DNS name"%string as msg. revert labels.
    induction (split c_dot name) as [|l ls IH]; intros out msg; cbn [encode_labels]; [cbn; lia|].
    destruct (_ || _); [done|]. intros H. inv_ok. apply IH in E. length_tac.
Qed.

(** ** The theorems at concrete messages *)

(** A response to a query for [a.b] with an A record of TTL 60 and an OPT
    record, which [ttl_offsets] reports and no rewriting touches. *)
Definition sample_response : bytes :=
  [0; 7; 129; 128; 0; 1; 0; 1; 0; 0; 0; 1] ++ [1; 97; 1; 98; 0; 0; 1; 0; 1]
  ++ [192; 12; 0; 1; 0; 1; 0; 0; 0; 60; 0; 4; 192; 0; 2; 1]
  ++ [0; 0; 41; 4; 208; 0; 0; 0; 0; 0; 0].

Lemma sample_response_u8 : Forall u8 sample_response.
Proof. by apply (bool_decide_unpack _). Qed.

Lemma age_response_ttls_spec_witness :
  ∃ b', age_response_ttls sample_response 45 = Ok b' ∧ length b' = 48%nat ∧
    ttl_offsets b' = Ok [(27%nat, 1, 15); (42%nat, 41, 0)].
Proof.
  destruct (age_response_ttls_spec sample_response 45 sample_response_u8 ltac:(lia))
    as (b' & H1 & H2 & H3). exists b'. split; [exact H1|]. split; [exact H2|]. exact H3.
Defined.

Lemma age_response_ttls_add_witness :
  (b1 ← age_response_ttls sample_response 20; age_response_ttls b1 25)
  = age_response_ttls sample_response 45.
Proof. apply (age_response_ttls_add sample_response 20 25 sample_response_u8); lia. Defined.

Lemma response_ttl_aged_witness :
  (response_ttl <$> age_response_ttls sample_response 45) = Ok 15.
Proof.
  apply (response_ttl_aged sample_response 45 [(27%nat, 1, 60); (42%nat, 41, 0)]
           sample_response_u8 ltac:(lia) eq_refl).
  apply Exists_cons_hd. by compute.
Defined.

Lemma parse_build_query_witness :
  parse_question [0; 7; 1; 0; 0; 1; 0; 0; 0; 0; 0; 0; 1; 65; 1; 98; 0; 0; 28; 0; 1]
  = Ok (lit "a.b", 28, 21%nat).
Proof.
  refine (proj1 (parse_build_query (N := Cidr.lib) 7 (lit "A.b") 28 _ _ _ _ _));
    [unfold uint; lia|unfold uint; lia|split; by apply (bool_decide_unpack _)|reflexivity].
Defined.
