(* ===== verification/DnsReply.v ===== *)
(** * Locally generated DNS replies (src/src/dns/message.rs)

    Properties of [refused_response] and [local_response]: the replies the
    program builds itself are well-formed responses to the question that was
    asked, and the program's own parser reads them back. *)

From S2P Require Import Prelude RustStr Net DnsMessage.

(** ** A question only depends on its own bytes *)

Lemma question_labels_mono fuel fuel' b p ls :
  question_labels fuel b p ls ≠ Diverge → (fuel ≤ fuel')%nat →
  question_labels fuel' b p ls = question_labels fuel b p ls.
Proof.
  revert fuel' p ls. induction fuel as [|fuel IH]; intros fuel' p ls Hd Hf; [done|].
  destruct fuel' as [|fuel']; [lia|]. cbn [question_labels] in *.
  destruct (context (b !! p) _) as [n|e| |]; cbn [mbind result_bind] in *; try done.
  destruct (n =? 0); [done|]. destruct (63 <? n); [done|].
  destruct (context (slice_get _ _ _) _) as [l|e| |]; cbn [mbind result_bind] in *; try done.
  destruct (from_utf8 l) as [l'|e| |]; cbn [mbind result_bind] in *; try done.
  apply IH; [done|lia].
Qed.

Lemma question_labels_bounds fuel b p ls r q :
  question_labels fuel b p ls = Ok (r, q) → (p < q ≤ length b)%nat.
Proof.
  revert p ls. induction fuel as [|fuel IH]; intros p ls; cbn [question_labels]; [done|].
  intros H. apply bind_Ok in H as (n & Hn & H). apply context_Ok, lookup_lt_Some in Hn.
  destruct (n =? 0); [injection H as <- <-; lia|]. destruct (63 <? n); [done|].
  inv_ok. apply IH in H. lia.
Qed.

Lemma slice_get_agree b b' lo hi s :
  slice_get b lo hi = Some s → agree b b' lo hi → (hi ≤ length b')%nat →
  slice_get b' lo hi = Some s.
Proof.
  intros H Ha Hlen. pose proof (slice_get_length _ _ _ _ H) as Hs.
  apply slice_get_Some in H as (Hlo & Hhi & ->). apply slice_get_Some. split_and!; [done..|].
  apply list_eq. intros i. destruct (decide (i < hi - lo)%nat).
  - rewrite !lookup_take, !decide_True, !lookup_drop by lia. symmetry. apply Ha. lia.
  - by rewrite !lookup_take, !decide_False by lia.
Qed.

Lemma question_labels_agree fuel b b' p ls r q :
  question_labels fuel b p ls = Ok (r, q) → agree b b' p q → (q ≤ length b')%nat →
  question_labels fuel b' p ls = Ok (r, q).
Proof.
  revert p ls. induction fuel as [|fuel IH]; intros p ls H Ha Hlen; [done|].
  pose proof (question_labels_bounds _ _ _ _ _ _ H) as Hpq.
  cbn [question_labels] in *. apply bind_Ok in H as (n & Hn & H).
  rewrite (Ha p), Hn by lia. cbn [mbind result_bind].
  destruct (n =? 0); [done|]. destruct (63 <? n); [done|].
  apply bind_Ok in H as (l & Hl & H). apply bind_Ok in H as (l' & Hl' & H).
  pose proof (question_labels_bounds _ _ _ _ _ _ H) as Hq.
  apply context_Ok in Hl.
  rewrite (slice_get_agree b b' _ _ l) by (done || lia || (intros i ?; apply Ha; lia)).
  cbn [context mbind result_bind]. rewrite Hl'. cbn [mbind result_bind].
  apply IH; [done| |done]. intros i ?. apply Ha. lia.
Qed.

Lemma parse_question_inv b name qtype e :
  parse_question b = Ok (name, qtype, e) →
  ∃ qd labels q fields, u16_at b 4 = Ok qd ∧ qd ≠ 0 ∧
    question_labels (S (length b)) b 12 [] = Ok (labels, q) ∧
    slice_get b q (q + 4) = Some fields ∧ u16_at fields 0 = Ok qtype ∧
    name = normalize (join [c_dot] labels) ∧ e = (q + 4)%nat ∧ (13 ≤ q)%nat ∧ (e ≤ length b)%nat.
Proof.
  unfold parse_question. destruct (length b <? 12)%nat eqn:E; [done|]. bool_to_prop.
  intros H. apply bind_Ok in H as (qd & Hqd & H). destruct (qd =? 0) eqn:E0; [done|]. bool_to_prop.
  apply bind_Ok in H as ([labels q] & Hl & H). apply bind_Ok in H as (fields & Hf & H).
  apply bind_Ok in H as (t & Ht & H). injection H as <- <- <-. apply context_Ok in Hf.
  pose proof (question_labels_bounds _ _ _ _ _ _ Hl).
  pose proof (proj1 (slice_get_Some _ _ _ _) Hf) as (? & ? & _).
  exists qd, labels, q, fields. split_and!; (done || lia).
Qed.

Lemma parse_question_agree b b' name qtype e :
  parse_question b = Ok (name, qtype, e) → (e ≤ length b')%nat →
  agree b b' 4 6 → agree b b' 12 e → parse_question b' = Ok (name, qtype, e).
Proof.
  intros (qd & labels & q & fields & Hqd & Hne & Hl & Hf & Ht & -> & -> & Hq & He)%parse_question_inv
    Hlen Ha1 Ha2.
  unfold parse_question. rewrite (proj2 (Nat.ltb_ge _ _)) by lia.
  rewrite (u16_at_agree b b' 4), Hqd by (intros i ?; apply Ha1; lia). cbn [mbind result_bind].
  rewrite (proj2 (Z.eqb_neq qd 0)) by done.
  assert (question_labels (S (length b')) b' 12 [] = Ok (labels, q)) as ->.
  { pose proof (returns_question_labels (S (length b')) b' 12 [] ltac:(lia) ltac:(lia)) as Hr.
    rewrite <- (question_labels_mono _ (S (length b') + S (length b))); [|by intros Heq; rewrite Heq in Hr|lia].
    apply (question_labels_agree _ b); [|intros i ?; apply Ha2; lia|lia].
    rewrite <- Hl. apply question_labels_mono; [by rewrite Hl|lia]. }
  cbn [mbind result_bind].
  rewrite (slice_get_agree b b' q _ fields) by (done || lia || (intros i ?; apply Ha2; lia)).
  cbn [context mbind result_bind]. by rewrite Ht.
Qed.

(** The twelve header bytes and the rest of a message that holds a question. *)
Lemma question_header b name qtype e :
  parse_question b = Ok (name, qtype, e) →
  ∃ x0 x1 x2 x3 x4 x5 x6 x7 x8 x9 x10 x11 tl,
    b = [x0; x1; x2; x3; x4; x5; x6; x7; x8; x9; x10; x11] ++ tl ∧
    slice_get b 0 e = Some ([x0; x1; x2; x3; x4; x5; x6; x7; x8; x9; x10; x11] ++ take (e - 12) tl) ∧
    (17 ≤ e)%nat ∧ (e - 12 ≤ length tl)%nat.
Proof.
  intros (qd & labels & q & fields & _ & _ & _ & _ & _ & _ & -> & Hq & He)%parse_question_inv.
  do 12 (destruct b as [|? b]; [cbn in He; lia|]).
  do 13 eexists. split; [reflexivity|]. split_and!; [|lia|cbn in He; lia].
  apply slice_get_Some. split_and!; [lia|done|]. rewrite drop_0, Nat.sub_0_r.
  replace (q + 4)%nat with (12 + (q + 4 - 12))%nat at 2 by lia. reflexivity.
Qed.

(** Changing the id, the flags and the record counts keeps the question. *)
Lemma parse_question_reply x0 x1 x2 x3 x4 x5 x6 x7 x8 x9 x10 x11 tl
    y0 y1 y2 y3 y6 y7 y8 y9 y10 y11 extra name qtype e :
  parse_question ([x0; x1; x2; x3; x4; x5; x6; x7; x8; x9; x10; x11] ++ tl) = Ok (name, qtype, e) →
  parse_question (([y0; y1; y2; y3; x4; x5; y6; y7; y8; y9; y10; y11] ++ take (e - 12) tl) ++ extra) =
    Ok (name, qtype, e).
Proof.
  intros H. pose proof (parse_question_inv _ _ _ _ H)
    as (_ & _ & q & _ & _ & _ & _ & _ & _ & _ & He & Hq & Hlen).
  rewrite length_app in Hlen. cbn [length] in Hlen.
  eapply parse_question_agree; [done|length_tac| |].
  - intros i Hi. assert (i = 4 ∨ i = 5)%nat as [-> | ->] by lia; reflexivity.
  - intros i Hi. rewrite lookup_app_l by length_tac.
    replace i with (12 + (i - 12))%nat by lia. cbn [app Nat.add lookup list_lookup].
    change ((take (e - 12) tl : list Z) !! (i - 12)%nat = tl !! (i - 12)%nat).
    by rewrite lookup_take, decide_True by lia.
Qed.

(** ** Refusals *)

Lemma land_lor_nibble x : Z.land (Z.lor (Z.land x 240) 5) 15 = 5.
Proof.
  rewrite Z.land_lor_distr_l, <- Z.land_assoc. change (Z.land 240 15) with 0.
  by rewrite Z.land_0_r.
Qed.

Lemma land_lor_qr x : Z.land (Z.lor x 128) 128 = 128.
Proof.
  apply Z.bits_inj'. intros n _. rewrite Z.land_spec, Z.lor_spec.
  by destruct (Z.testbit x n), (Z.testbit 128 n).
Qed.

(** A refusal answers the question that was asked: for every request whose
    question parses, the reply has the request's id, is a response with rcode 5
    (REFUSED), echoes the question and carries no records; the validation that
    the resolver applies to upstream responses accepts it. *)
Theorem refused_response_spec request name qtype e id :
  parse_question request = Ok (name, qtype, e) → dns_id request = Ok id →
  ∃ r, refused_response request e = Ok r ∧ length r = e ∧
    validate_response id r = Ok tt ∧ parse_question r = Ok (name, qtype, e) ∧
    (∃ b3, r !! 3%nat = Some b3 ∧ Z.land b3 15 = 5) ∧
    u16_at r 6 = Ok 0 ∧ u16_at r 8 = Ok 0 ∧ u16_at r 10 = Ok 0.
Proof.
  intros Hq Hid. destruct (question_header _ _ _ _ Hq)
    as (x0&x1&x2&x3&x4&x5&x6&x7&x8&x9&x10&x11&tl&->&Hs&He&Hl).
  exists ([x0; x1; Z.lor x2 128; Z.lor (Z.land x3 240) 5; x4; x5; 0; 0; 0; 0; 0; 0]
          ++ take (e - 12) tl).
  split_and!.
  - unfold refused_response. rewrite Hs. reflexivity.
  - length_tac.
  - unfold validate_response. rewrite (proj2 (Nat.ltb_ge _ _)) by length_tac.
    change (dns_id _) with (dns_id ([x0; x1; x2; x3; x4; x5; x6; x7; x8; x9; x10; x11] ++ tl)).
    rewrite Hid. cbn [mbind result_bind]. rewrite Z.eqb_refl. cbn [negb app].
    unfold index. cbn [lookup list_lookup mbind result_bind]. by rewrite land_lor_qr.
  - rewrite <- (app_nil_r (_ ++ _)). by eapply parse_question_reply.
  - exists (Z.lor (Z.land x3 240) 5). split; [done|apply land_lor_nibble].
  - reflexivity.
  - reflexivity.
  - reflexivity.
Qed.

(** ** Answers from the system resolver *)

Lemma land_label n : 0 ≤ n ≤ 63 → Z.land n 192 = 0.
Proof.
  intros Hn. apply Z.bits_inj'. intros k Hk. rewrite Z.land_spec, Z.bits_0.
  destruct (decide (k < 6)).
  - change 192 with (3 * 2 ^ 6). by rewrite Z.mul_pow2_bits_low, andb_false_r by lia.
  - destruct (decide (n = 0)) as [->|]; [by rewrite Z.bits_0|].
    rewrite (Z.bits_above_log2 n k); [done|lia|].
    eapply Z.lt_le_trans; [apply (Z.log2_lt_pow2 n 6)|]; lia.
Qed.

(** The walk over an uncompressed question ends where the label loop ends, as
    long as the name has at most 127 labels. *)
Lemma skip_name_question fuel fuel' b p ls r q count :
  Forall u8 (take q b) → question_labels fuel b p ls = Ok (r, q) →
  0 ≤ count → 2 * count + Z.of_nat (q - p) ≤ 255 → 129 ≤ Z.of_nat fuel' + count →
  skip_name_loop fuel' b p count = Ok q.
Proof.
  intros Hb. revert fuel' p ls count. induction fuel as [|fuel IH]; intros fuel' p ls count H Hc Hlen Hf;
    [done|].
  pose proof (question_labels_bounds _ _ _ _ _ _ H) as Hpq. cbn [question_labels] in H.
  apply bind_Ok in H as (n & Hn & H). apply context_Ok in Hn.
  destruct fuel' as [|fuel']; [lia|]. cbn [skip_name_loop]. rewrite Hn.
  destruct (n =? 0) eqn:E0; [by injection H as <- <-|].
  destruct (63 <? n) eqn:E1; [done|]. bool_to_prop.
  assert (u8 n) as Hu.
  { apply (Forall_lookup_1 _ _ p _ Hb). rewrite lookup_take, decide_True by lia. done. }
  unfold uint in Hu.
  rewrite land_label by lia. change (0 =? 192) with false. change (0 =? 0) with true. cbn [negb orb].
  apply bind_Ok in H as (l & Hl & H). apply bind_Ok in H as (l' & Hl' & H).
  pose proof (question_labels_bounds _ _ _ _ _ _ H) as Hq.
  rewrite (proj2 (Nat.ltb_ge _ _)) by lia. rewrite (proj2 (Z.ltb_ge 127 _)) by lia.
  eapply IH; [done|lia..].
Qed.

Lemma local_record_bytes qtype a :
  local_record qtype a = [192; 12] ++ to_be 2 qtype ++ to_be 2 1 ++ to_be 4 30 ++
    to_be 2 (Z.of_nat (length (octets a))) ++ octets a.
Proof. unfold local_record. rewrite length_octets. by destruct a. Qed.

(** The fields of a record after its compressed name, at any place of a message. *)
Lemma record_fields pre kind ttl data rest :
  u16 kind → u32 ttl → Z.of_nat (length data) ≤ 65535 →
  let b := pre ++ to_be 2 kind ++ to_be 2 1 ++ to_be 4 ttl ++
             to_be 2 (Z.of_nat (length data)) ++ data ++ rest in
  u16_at b (length pre) = Ok kind ∧ u32_at b (length pre + 4) = Ok ttl ∧
  u16_at b (length pre + 8) = Ok (Z.of_nat (length data)) ∧
  slice b (length pre + 10) (length pre + 10 + length data) = Ok data ∧
  (length pre + 10 + length data ≤ length b)%nat.
Proof.
  intros Hk Ht Hd b. subst b. split_and!.
  - by apply u16_at_app.
  - rewrite (app_assoc (to_be 2 kind)), (app_assoc pre). apply u32_at_app; [length_tac|done].
  - rewrite (app_assoc (to_be 2 kind)), (app_assoc _ (to_be 4 ttl)), (app_assoc pre).
    apply u16_at_app; [length_tac|unfold uint; lia].
  - rewrite (app_assoc (to_be 2 kind)), (app_assoc _ (to_be 4 ttl)),
      (app_assoc _ (to_be 2 (Z.of_nat _))), (app_assoc pre). apply slice_app; length_tac.
  - length_tac.
Qed.

Lemma skip_name_pointer pre x rest : skip_name (pre ++ 192 :: x :: rest) (length pre) = Ok (length pre + 2)%nat.
Proof.
  unfold skip_name. cbn [skip_name_loop]. rewrite lookup_app_cons by done.
  change (192 =? 0) with false. change (Z.land 192 192 =? 192) with true. cbn iota.
  rewrite (proj2 (Nat.leb_gt _ _)) by length_tac. f_equal. lia.
Qed.

(** An answer record written by [local_response] is read back. *)
Lemma response_records_local qtype addresses pre post out ttl :
  u16 qtype → Forall ip_ok addresses → 0 ≤ ttl →
  Forall (λ a, family_matches qtype a = true) addresses →
  response_records (length addresses) qtype (pre ++ concat (local_record qtype <$> addresses) ++ post)
    (length pre) out ttl =
  Ok (out ++ addresses, match addresses with [] => ttl | _ => Z.min ttl 30 end).
Proof.
  intros Hq. revert pre out ttl. induction addresses as [|a addresses IH]; intros pre out ttl Hok Httl Hfam.
  { cbn. by rewrite app_nil_r. }
  apply Forall_cons in Hok as [Ha Hok]. apply Forall_cons in Hfam as [Hfa Hfam].
  cbn [length fmap list_fmap concat response_records].
  rewrite local_record_bytes. set (rest := concat (local_record qtype <$> addresses) ++ post) in *.
  replace (pre ++ (([192; 12] ++ _) ++ _) ++ post)
    with (pre ++ 192 :: 12 :: to_be 2 qtype ++ to_be 2 1 ++ to_be 4 30 ++
            to_be 2 (Z.of_nat (length (octets a))) ++ octets a ++ rest)
    by (subst rest; rewrite <- !app_assoc; reflexivity).
  rewrite skip_name_pointer. cbn [mbind result_bind].
  assert (Z.of_nat (length (octets a)) ≤ 65535) as Hlen by (rewrite length_octets; destruct a; cbn; lia).
  pose proof (record_fields (pre ++ [192; 12]) qtype 30 (octets a) rest Hq ltac:(unfold uint; lia) Hlen)
    as (Hf1 & Hf2 & Hf3 & Hf4 & Hf5).
  rewrite <- app_assoc in Hf1, Hf2, Hf3, Hf4, Hf5. cbn [app] in Hf1, Hf2, Hf3, Hf4, Hf5.
  rewrite length_app in Hf1, Hf2, Hf3, Hf4, Hf5. cbn [length] in Hf1, Hf2, Hf3, Hf4, Hf5.
  set (b := pre ++ 192 :: _) in *.
  rewrite (proj2 (Nat.ltb_ge _ _)) by lia.
  rewrite Hf1, Hf2, Hf3. cbn [mbind result_bind]. rewrite Z.eqb_refl, Nat2Z.id.
  rewrite (proj2 (Nat.ltb_ge _ _)) by lia.
  assert (∀ out', response_records (length addresses) qtype b
    (length pre + 2 + 10 + length (octets a)) out' (Z.min ttl 30) = Ok (out' ++ addresses, Z.min ttl 30))
    as Hrest.
  { intros out'. set (pre' := pre ++ [192; 12] ++ to_be 2 qtype ++ to_be 2 1 ++ to_be 4 30 ++
      to_be 2 (Z.of_nat (length (octets a))) ++ octets a).
    replace b with (pre' ++ rest) by (subst b pre'; rewrite <- !app_assoc; reflexivity).
    replace (length pre + 2 + 10 + length (octets a))%nat with (length pre') by (subst pre'; length_tac).
    unfold rest. rewrite IH by (done || lia).
    destruct addresses; [done|]. by rewrite <- Z.min_assoc. }
  rewrite length_octets in *.
  destruct a as [v|v]; cbn [family_matches is_ipv4 octets ip_ok] in *; apply Z.eqb_eq in Hfa; subst qtype.
  - change (1 =? 1) with true. change (Z.of_nat 4 =? 4) with true. cbn [andb mbind result_bind].
    rewrite Hf4. cbn [mbind result_bind]. rewrite Hrest, of_be_octets_v4 by done. by rewrite <- app_assoc.
  - change (28 =? 1) with false. change (28 =? 28) with true.
    change (Z.of_nat 16 =? 16) with true. cbn [andb mbind result_bind].
    rewrite Hf4. cbn [mbind result_bind]. rewrite Hrest, of_be_octets_v6 by done. by rewrite <- app_assoc.
Qed.

Lemma concat_local_record_u8 qtype addresses :
  Forall u8 (concat (local_record qtype <$> addresses)).
Proof.
  apply Forall_concat, Forall_forall. intros l (a & -> & _)%list_elem_of_fmap.
  unfold local_record. repeat (apply Forall_app; split); try apply to_be_u8.
  - repeat constructor; unfold uint; lia.
  - destruct a; apply Forall_app; split; apply to_be_u8.
Qed.

(** The header and question of a local reply, whatever follows them. *)
Lemma local_response_header found request name qtype e :
  Forall u8 request → parse_question request = Ok (name, qtype, e) →
  let addresses := List.filter (family_matches qtype) found in
  u16 (Z.of_nat (length addresses)) →
  ∃ hdr, local_response found request qtype e = Ok (hdr ++ concat (local_record qtype <$> addresses)) ∧
    length hdr = e ∧ Forall u8 hdr ∧
    ∀ post, u16_at (hdr ++ post) 0 = dns_id request ∧ u16_at (hdr ++ post) 2 = Ok 33152 ∧
      u16_at (hdr ++ post) 4 = u16_at request 4 ∧
      u16_at (hdr ++ post) 6 = Ok (Z.of_nat (length addresses)) ∧
      parse_question (hdr ++ post) = Ok (name, qtype, e).
Proof.
  intros Hu Hq addresses Hcount.
  destruct (question_header _ _ _ _ Hq) as (x0&x1&x2&x3&x4&x5&x6&x7&x8&x9&x10&x11&tl&->&Hs&He17&Htl).
  assert (∃ c0 c1, to_be 2 (Z.of_nat (length addresses)) = [c0; c1]) as (c0 & c1 & Hc) by (cbn; eauto).
  exists ([x0; x1; 129; 128; x4; x5; c0; c1; 0; 0; 0; 0] ++ take (e - 12) tl). split_and!.
  - unfold local_response. fold addresses. unfold slice. rewrite Hs.
    rewrite (Z.mod_small _ (2 ^ 16)) by (unfold uint in Hcount; lia). rewrite Hc. reflexivity.
  - length_tac.
  - apply Forall_app in Hu as [Hux Hutl]. apply Forall_app. split; [|by apply Forall_take].
    pose proof (to_be_u8 2 (Z.of_nat (length addresses))) as Hcu. rewrite Hc in Hcu.
    inversion_clear Hcu as [|? ? Hc0 Hcu']. inversion_clear Hcu' as [|? ? Hc1 _].
    do 6 (inversion Hux as [|? ? ? Hux']; subst; clear Hux; rename Hux' into Hux).
    repeat (apply Forall_cons; split); try done; unfold uint; lia.
  - intros post. split_and!; try reflexivity; [|by eapply parse_question_reply].
    rewrite <- (of_be_to_be 2 _ Hcount), Hc. reflexivity.
Qed.

(** The answers of the system resolver survive the wire: for a request with
    one question whose name is at most 255 bytes, the reply built from the
    addresses found parses, under the request's id and type, to exactly the
    addresses of the matching family, in order, with a TTL of 30 seconds. *)
Theorem parse_local_response found request name qtype e id :
  Forall u8 request → parse_question request = Ok (name, qtype, e) →
  u16_at request 4 = Ok 1 → (e ≤ 271)%nat → dns_id request = Ok id →
  Forall ip_ok found → Z.of_nat (length found) ≤ 65535 →
  ∃ r, local_response found request qtype e = Ok r ∧
    parse_response id qtype r = Ok (List.filter (family_matches qtype) found, 30).
Proof.
  intros Hu Hq Hqd He Hid Hok Hn.
  pose proof (local_response_header found request name qtype e Hu Hq) as Hh. cbn zeta in Hh.
  set (addresses := List.filter (family_matches qtype) found) in *.
  assert (length addresses ≤ length found)%nat as Hlen by apply filter_length_le.
  destruct Hh as (hdr & -> & Hhdr & Hu1 & Hpost); [unfold uint; lia|].
  assert (Forall ip_ok addresses) as Hok'.
  { rewrite Forall_forall in *. intros a Ha%list_elem_of_In%filter_In.
    apply Hok, list_elem_of_In, Ha. }
  assert (Forall (λ a, family_matches qtype a = true) addresses) as Hfam.
  { apply Forall_forall. intros a Ha%list_elem_of_In%filter_In. apply Ha. }
  set (recs := concat (local_record qtype <$> addresses)). exists (hdr ++ recs). split; [done|].
  destruct (Hpost recs) as (H0 & H2 & H4 & H6 & Hq'). rewrite Hid in H0. rewrite Hqd in H4.
  assert (Forall u8 (hdr ++ recs)) as Hu' 
    by (apply Forall_app; split; [done|by apply concat_local_record_u8]).
  destruct (parse_question_inv _ _ _ _ Hq')
    as (_ & labels & q & fields & _ & _ & Hl & Hf & Ht & _ & -> & Hq13 & Hle).
  assert (u16 qtype) as Hqt.
  { eapply u16_at_u16; [|apply Ht]. apply slice_get_Some in Hf as (_ & _ & ->).
    by apply Forall_take, Forall_drop. }
  unfold parse_response. rewrite (proj2 (Nat.ltb_ge _ _)) by length_tac.
  rewrite H0, H2, H4, H6. cbn [mbind result_bind]. rewrite Z.eqb_refl. cbn [negb].
  change ((Z.land 33152 32768 =? 0) || negb (Z.land 33152 15 =? 0)) with false. cbn iota.
  change (Z.to_nat 1) with 1%nat. cbn [skip_questions]. unfold skip_name at 1.
  rewrite (skip_name_question _ 129 _ 12 [] labels q 0 (Forall_take _ _ _ Hu') Hl) by lia.
  cbn [mbind result_bind]. rewrite (proj2 (advance_Ok q 4 _ _ (q + 4))) by lia.
  cbn [mbind result_bind]. rewrite Nat2Z.id, <- Hhdr. unfold recs. rewrite <- (app_nil_r (concat _)).
  rewrite response_records_local by (done || (unfold u32_max; lia)). cbn [mbind result_bind app].
  f_equal. f_equal. by destruct addresses.
Qed.

(** ** The theorems at a concrete query *)

Definition sample_request : bytes :=
  [0; 7; 1; 0; 0; 1; 0; 0; 0; 0; 0; 0] ++ [1; 97; 1; 98; 0; 0; 28; 0; 1].

Lemma refused_response_spec_witness :
  ∃ r, refused_response sample_request 21 = Ok r ∧ length r = 21%nat ∧
    validate_response 7 r = Ok tt.
Proof.
  destruct (refused_response_spec sample_request (lit "a.b") 28 21 7 eq_refl eq_refl)
    as (r & H1 & H2 & H3 & _). by exists r.
Defined.

Lemma parse_local_response_witness :
  ∃ r, local_response [V4 1; V6 5; V6 6] sample_request 28 21 = Ok r ∧
    parse_response 7 28 r = Ok ([V6 5; V6 6], 30).
Proof.
  apply (parse_local_response [V4 1; V6 5; V6 6] sample_request (lit "a.b") 28 21 7);
    [by apply (bool_decide_unpack _)|reflexivity|reflexivity|lia|reflexivity| |cbn; lia].
  repeat constructor; cbn; unfold uint; lia.
Defined.
