(* ===== verification/DnsCache.v ===== *)
(** * The DNS cache (src/src/dns/cache.rs)

    [DnsCache] keeps its entries in a hash map, with two queues of possibly
    stale references beside it: a heap ordered by expiry and a deque ordered by
    access, both invalidated lazily through the version and the access stamp
    of an entry.  [Lru] is the abstract specification, a list of items in order
    of last access; the theorems show that the cache implements it, that its
    size is bounded, and what it returns.

    Instants and durations are nanoseconds.  An [Instant] holds an [i64] of
    seconds, and adding a duration past its end panics. *)

From S2P Require Import Prelude RustStr Net DnsMessage.

(** ** Data *)

Inductive CacheKey :=
  | Lookup (name : str) (qtype : Z) (server client_subnet : option str)
  | WireKey (query : bytes) (server : str)
  | EchKey (name : str).

Inductive CacheValue :=
  | Addresses (ips : list IpAddr)
  | WireValue (response : bytes).

#[export] Instance CacheKey_eq_dec : EqDecision CacheKey.
Proof. solve_decision. Defined.
#[export] Instance CacheValue_eq_dec : EqDecision CacheValue.
Proof. solve_decision. Defined.
#[export] Instance CacheKey_countable : Countable CacheKey.
Proof.
  refine (inj_countable'
    (λ k, match k with
          | Lookup n q s c => inl (n, q, s, c)
          | WireKey q s => inr (inl (q, s))
          | EchKey n => inr (inr n)
          end)
    (λ x, match x with
          | inl (n, q, s, c) => Lookup n q s c
          | inr (inl (q, s)) => WireKey q s
          | inr (inr n) => EchKey n
          end) _); by intros [].
Defined.

Record CacheEntry := mkEntry {
  value : CacheValue;
  expires : Z;
  inserted : Z;
  version : Z;
  last_access : Z;
}.

(** An element of the deque: access stamp, version and key. *)
Abbreviation access_ref := (Z * Z * CacheKey)%type.

(** An element of the heap: expiry, version and key. *)
Abbreviation expiry_ref := (Z * Z * CacheKey)%type.

Record DnsCache := mkCache {
  entries : gmap CacheKey CacheEntry;
  expiry : list expiry_ref;  (* the heap, in the order of its pops *)
  lru : list access_ref;
  capacity : Z;
  clock : Z;
  disable_expire : bool;
}.

Definition new (capacity : Z) (disable_expire : bool) : DnsCache :=
  mkCache ∅ [] [] capacity 0 disable_expire.

(** ** The orders of the heap and of the deque *)

(** The derived [Ord] of [CacheKey]: the variant, then the fields in order. *)
Fixpoint cmp_list (a b : list Z) : comparison :=
  match a, b with
  | [], [] => Eq
  | [], _ => Lt
  | _, [] => Gt
  | x :: a, y :: b => match x ?= y with Eq => cmp_list a b | c => c end
  end.

Definition cmp_option (a b : option str) : comparison :=
  match a, b with
  | None, None => Eq
  | None, Some _ => Lt
  | Some _, None => Gt
  | Some a, Some b => cmp_list a b
  end.

Definition then_cmp (c d : comparison) : comparison :=
  match c with Eq => d | _ => c end.

Definition cmp_key (a b : CacheKey) : comparison :=
  match a, b with
  | Lookup n q s c, Lookup n' q' s' c' =>
    then_cmp (cmp_list n n') (then_cmp (q ?= q') (then_cmp (cmp_option s s') (cmp_option c c')))
  | WireKey q s, WireKey q' s' => then_cmp (cmp_list q q') (cmp_list s s')
  | EchKey n, EchKey n' => cmp_list n n'
  | Lookup _ _ _ _, _ => Lt
  | _, Lookup _ _ _ _ => Gt
  | WireKey _ _, EchKey _ => Lt
  | EchKey _, WireKey _ _ => Gt
  end.

Definition expiry_le (a b : expiry_ref) : bool :=
  match then_cmp (a.1.1 ?= b.1.1) (then_cmp (a.1.2 ?= b.1.2) (cmp_key a.2 b.2)) with
  | Gt => false
  | _ => true
  end.

Definition access_le (a b : access_ref) : bool := a.1.1 <=? b.1.1.

(** Insertion into a sorted list, before the elements that are not smaller. *)
Fixpoint insert_by {A} (le : A → A → bool) (x : A) (l : list A) : list A :=
  match l with
  | [] => [x]
  | y :: l => if le x y then x :: y :: l else y :: insert_by le x l
  end.

(** A stable sort. *)
Definition sort_by {A} (le : A → A → bool) : list A → list A := foldr (insert_by le) [].

(** ** Operations *)

Section operations.
Context `{!HashIter CacheKey CacheEntry}.

Definition nanos : Z := 10 ^ 9.

(** [Instant + Duration] *)
Definition instant_add (now ttl : Z) : result Z :=
  if now + ttl <? 2 ^ 63 * nanos then Ok (now + ttl) else Panic.

(** [Duration::as_secs(a.saturating_duration_since(b))] *)
Definition secs_since (a b : Z) : Z := saturating_sub a b / nanos.

Definition is_current (m : gmap CacheKey CacheEntry) (r : access_ref) : bool :=
  match m !! r.2 with
  | Some e => (e.(version) =? r.1.2) && (e.(last_access) =? r.1.1)
  | None => false
  end.

Definition compact_lru (s : DnsCache) : DnsCache :=
  if Z.of_nat (length s.(lru)) <=? Z.max (Z.min (s.(capacity) * 8) u64_max) 64 then s
  else mkCache s.(entries) s.(expiry)
         (sort_by access_le
            ((λ '(k, e), (e.(last_access), e.(version), k)) <$> hash_iter s.(entries)))
         s.(capacity) s.(clock) s.(disable_expire).

Fixpoint evict_loop (m : gmap CacheKey CacheEntry) (q : list access_ref) (cap : Z)
    : gmap CacheKey CacheEntry * list access_ref :=
  if Z.of_nat (size m) >? cap then
    match q with
    | [] => (m, [])
    | r :: q => evict_loop (if is_current m r then delete r.2 m else m) q cap
    end
  else (m, q).

Definition evict_lru (s : DnsCache) : DnsCache :=
  let '(m, q) := evict_loop s.(entries) s.(lru) s.(capacity) in
  mkCache m s.(expiry) q s.(capacity) s.(clock) s.(disable_expire).

Definition is_expired (m : gmap CacheKey CacheEntry) (now : Z) (r : expiry_ref) : bool :=
  match m !! r.2 with
  | Some e => (e.(version) =? r.1.2) && (e.(expires) <=? now)
  | None => false
  end.

Fixpoint purge_loop (m : gmap CacheKey CacheEntry) (heap : list expiry_ref) (now : Z)
    : gmap CacheKey CacheEntry * list expiry_ref :=
  match heap with
  | [] => (m, [])
  | r :: heap' =>
    if r.1.1 <=? now then purge_loop (if is_expired m now r then delete r.2 m else m) heap' now
    else (m, heap)
  end.

Definition purge_expired (s : DnsCache) (now : Z) : DnsCache :=
  if s.(disable_expire) then s else
  let '(m, heap) := purge_loop s.(entries) s.(expiry) now in
  mkCache m heap s.(lru) s.(capacity) s.(clock) s.(disable_expire).

(** [now] is the value of [Instant::now()]. *)
Definition get (s : DnsCache) (key : CacheKey) (now : Z) : result (DnsCache * option CacheValue) :=
  match s.(entries) !! key with
  | None => Ok (s, None)
  | Some e =>
    if negb s.(disable_expire) && (e.(expires) <=? now) then
      Ok (mkCache (delete key s.(entries)) s.(expiry) s.(lru) s.(capacity) s.(clock)
            s.(disable_expire), None)
    else
      let clock := wrapping_add 64 s.(clock) 1 in
      let e' := mkEntry e.(value) e.(expires) e.(inserted) e.(version) clock in
      let s' := mkCache (<[key := e']> s.(entries)) s.(expiry)
                  (s.(lru) ++ [(clock, e.(version), key)]) s.(capacity) clock
                  s.(disable_expire) in
      v ← match e.(value) with
          | WireValue response =>
            r ← age_response_ttls response (Z.min (secs_since now e.(inserted)) u32_max);
            Ok (WireValue r)
          | v => Ok v
          end;
      Ok (compact_lru s', Some v)
  end.

Definition insert (s : DnsCache) (key : CacheKey) (v : CacheValue) (ttl now : Z)
    : result DnsCache :=
  let s := purge_expired s now in
  let clock := wrapping_add 64 s.(clock) 1 in
  let version := clock in
  expires ← instant_add now ttl;
  let e := mkEntry v expires now version clock in
  Ok (compact_lru (evict_lru
    (mkCache (<[key := e]> s.(entries)) (insert_by expiry_le (expires, version, key) s.(expiry))
       (s.(lru) ++ [(clock, version, key)]) s.(capacity) clock s.(disable_expire)))).

(** ** Persistence *)

Inductive PersistentKey :=
  | PersistentLookup (name : str) (qtype : Z) (server client_subnet : option str)
  | PersistentWireKey (query : bytes) (server : str)
  | PersistentEch (name : str).

Inductive PersistentValue :=
  | PersistentAddresses (ips : list IpAddr)
  | PersistentWire (response : bytes).

Record PersistentEntry := mkPersistent {
  p_key : PersistentKey;
  p_value : PersistentValue;
  expires_at : Z;
}.

Definition persist_key (k : CacheKey) : PersistentKey :=
  match k with
  | Lookup n q s c => PersistentLookup n q s c
  | WireKey q s => PersistentWireKey q s
  | EchKey n => PersistentEch n
  end.

Definition restore_key (k : PersistentKey) : CacheKey :=
  match k with
  | PersistentLookup n q s c => Lookup n q s c
  | PersistentWireKey q s => WireKey q s
  | PersistentEch n => EchKey n
  end.

Definition persist_value (v : CacheValue) : PersistentValue :=
  match v with
  | Addresses l => PersistentAddresses l
  | WireValue b => PersistentWire b
  end.

Definition restore_value (v : PersistentValue) : CacheValue :=
  match v with
  | PersistentAddresses l => Addresses l
  | PersistentWire b => WireValue b
  end.

(** [now] is the wall clock in seconds, [instant] the value of
    [Instant::now()]. *)
Definition snapshot_entry (now instant : Z) (ke : CacheKey * CacheEntry)
    : result (option PersistentEntry) :=
  let remaining := secs_since ke.2.(expires) instant in
  if remaining =? 0 then Ok None else
  at_ ← checked_or_panic 64 (now + remaining);
  Ok (Some (mkPersistent (persist_key ke.1) (persist_value ke.2.(value)) at_)).

Definition snapshot (s : DnsCache) (now instant : Z) : result (list PersistentEntry) :=
  l ← map_result (snapshot_entry now instant) (hash_iter s.(entries));
  Ok (omap id (l : list (option PersistentEntry))).

Fixpoint restore (s : DnsCache) (snap : list PersistentEntry) (now instant : Z)
    : result DnsCache :=
  match snap with
  | [] => Ok s
  | p :: snap =>
    if p.(expires_at) <=? now then restore s snap now instant else
    let remaining := p.(expires_at) - now in
    s ← insert s (restore_key p.(p_key)) (restore_value p.(p_value)) (remaining * nanos) instant;
    restore s snap now instant
  end.

(** ** Runs of the cache *)

Inductive Op :=
  | Get (key : CacheKey)
  | Insert (key : CacheKey) (v : CacheValue) (ttl : Z).

(** An operation at an instant, with what it returns. *)
Definition step (s : DnsCache) (op : Op * Z) : result (DnsCache * option CacheValue) :=
  match op.1 with
  | Get key => get s key op.2
  | Insert key v ttl => s' ← insert s key v ttl op.2; Ok (s', None)
  end.

Fixpoint run (s : DnsCache) (ops : list (Op * Z)) : result (DnsCache * list (option CacheValue)) :=
  match ops with
  | [] => Ok (s, [])
  | op :: ops =>
    '(s, r) ← step s op;
    '(s, rs) ← run s ops;
    Ok (s, r :: rs)
  end.

End operations.

(** ** The abstract specification *)

Module Lru.

(** The items from the least to the most recently used one. *)
Record item := mkItem { key : CacheKey; val : CacheValue; until : Z; since : Z }.

Definition has_key (k : CacheKey) (i : item) : bool := bool_decide (i.(key) = k).

Definition without (k : CacheKey) : list item → list item :=
  List.filter (λ i, negb (has_key k i)).

Definition fresh (never : bool) (now : Z) (i : item) : bool := never || (now <? i.(until)).

(** A wire response is handed out with its TTLs reduced by its age. *)
Definition aged (v : CacheValue) (age : Z) : result CacheValue :=
  match v with
  | WireValue r => r ← age_response_ttls r (Z.min age u32_max); Ok (WireValue r)
  | v => Ok v
  end.

Definition get (never : bool) (l : list item) (k : CacheKey) (now : Z)
    : result (list item * option CacheValue) :=
  match List.find (has_key k) l with
  | None => Ok (l, None)
  | Some i =>
    if fresh never now i then
      v ← aged i.(val) (secs_since now i.(since));
      Ok (without k l ++ [i], Some v)
    else Ok (without k l, None)
  end.

Definition insert (never : bool) (cap : Z) (l : list item) (k : CacheKey) (v : CacheValue)
    (ttl now : Z) : result (list item) :=
  until ← instant_add now ttl;
  let l := without k (List.filter (fresh never now) l) ++ [mkItem k v until now] in
  Ok (drop (length l - Z.to_nat cap) l).

Definition step (never : bool) (cap : Z) (l : list item) (op : Op * Z)
    : result (list item * option CacheValue) :=
  match op.1 with
  | Get k => get never l k op.2
  | Insert k v ttl => l' ← insert never cap l k v ttl op.2; Ok (l', None)
  end.

Fixpoint run (never : bool) (cap : Z) (l : list item) (ops : list (Op * Z))
    : result (list item * list (option CacheValue)) :=
  match ops with
  | [] => Ok (l, [])
  | op :: ops =>
    '(l, r) ← step never cap l op;
    '(l, rs) ← run never cap l ops;
    Ok (l, r :: rs)
  end.

End Lru.

(** ** The recency list of a cache *)

Definition resolve (m : gmap CacheKey CacheEntry) (r : access_ref)
    : option (CacheKey * CacheEntry) :=
  if is_current m r then pair r.2 <$> m !! r.2 else None.

(** The entries of [m] in the order of the deque [q], stale references
    skipped. *)
Definition recency (m : gmap CacheKey CacheEntry) (q : list access_ref)
    : list (CacheKey * CacheEntry) := omap (resolve m) q.

Definition to_item (ke : CacheKey * CacheEntry) : Lru.item :=
  Lru.mkItem ke.1 ke.2.(value) ke.2.(expires) ke.2.(inserted).

(** The abstraction function. *)
Definition abstract_of (s : DnsCache) : list Lru.item :=
  to_item <$> recency s.(entries) s.(lru).

Definition covered (m : gmap CacheKey CacheEntry) (q : list access_ref) : Prop :=
  ∀ k e, m !! k = Some e → (e.(last_access), e.(version), k) ∈ q.

Definition by_access (q : list access_ref) : Prop :=
  StronglySorted (λ a b, a.1.1 < b.1.1) q.

Record wf (s : DnsCache) : Prop := {
  wf_covered : covered s.(entries) s.(lru);
  wf_by_access : by_access s.(lru);
  wf_clock : ∀ r, r ∈ s.(lru) → r.1.1 ≤ s.(clock);
  wf_expiry : ∀ k e, s.(entries) !! k = Some e → (e.(expires), e.(version), k) ∈ s.(expiry);
  wf_heap : StronglySorted (λ a b, a.1.1 ≤ b.1.1) s.(expiry);
  wf_capacity : u64 s.(capacity);
  wf_size : Z.of_nat (size s.(entries)) ≤ s.(capacity);
}.

Lemma resolve_Some m r k e :
  resolve m r = Some (k, e) ↔ m !! k = Some e ∧ r = (e.(last_access), e.(version), k).
Proof.
  unfold resolve, is_current. destruct r as [[a v] k']; cbn.
  destruct (m !! k') as [e'|] eqn:E; cbn; [|naive_solver].
  destruct (andb _ _) eqn:Hb; bool_to_prop; simplify_eq/=; split.
  - intros [= <- <-]. naive_solver.
  - intros [? [= ? ? <-]]. congruence.
  - done.
  - intros [? [= -> -> <-]]. rewrite E in *. simplify_eq. rewrite !Z.eqb_refl in Hb. done.
Qed.

Lemma recency_cons m r q : recency m (r :: q) = option_list (resolve m r) ++ recency m q.
Proof. unfold recency; cbn. by destruct (resolve m r). Qed.

Lemma elem_of_recency m q k e :
  covered m q → (k, e) ∈ recency m q ↔ m !! k = Some e.
Proof.
  intros Hc. unfold recency. rewrite list_elem_of_omap. split.
  - by intros (r & _ & [? _]%resolve_Some).
  - intros E. eexists. split; [by apply Hc|]. by apply resolve_Some.
Qed.

Lemma by_access_recency m q :
  by_access q →
  StronglySorted (λ a b, a.2.(last_access) < b.2.(last_access)) (recency m q).
Proof.
  induction 1 as [|r q Hq IH Hr]; [constructor|]. unfold recency; cbn.
  destruct (resolve m r) as [[k e]|] eqn:E; [|done]. apply resolve_Some in E as [_ ->].
  constructor; [done|]. apply Forall_forall.
  intros [k' e'] (r' & Hin & [_ ->]%resolve_Some)%list_elem_of_omap.
  rewrite Forall_forall in Hr. by apply Hr in Hin.
Qed.

Lemma recency_keys_NoDup m q : by_access q → NoDup (recency m q).*1.
Proof.
  induction 1 as [|r q Hq IH Hr]; [constructor|]. unfold recency; cbn.
  destruct (resolve m r) as [[k e]|] eqn:E; [|done]. apply resolve_Some in E as [E ->].
  constructor; [|done].
  intros ([k' e'] & Heq & (r' & Hin & [E' ->]%resolve_Some)%list_elem_of_omap)%list_elem_of_fmap.
  cbn in *. subst k'. simplify_eq. rewrite Forall_forall in Hr. apply Hr in Hin. cbn in Hin. lia.
Qed.

Lemma recency_perm m q : covered m q → by_access q → recency m q ≡ₚ map_to_list m.
Proof.
  intros Hc Hq. apply NoDup_Permutation.
  - by eapply NoDup_fmap_1, recency_keys_NoDup.
  - apply NoDup_map_to_list.
  - intros [k e]. rewrite elem_of_map_to_list. by apply elem_of_recency.
Qed.

Lemma length_recency m q : covered m q → by_access q → length (recency m q) = size m.
Proof. intros Hc Hq. rewrite (recency_perm m q Hc Hq). apply length_map_to_list. Qed.

(** The lookup of the hash map is the search of the recency list. *)
Lemma find_recency m q k :
  covered m q →
  List.find (Lru.has_key k) (to_item <$> recency m q) = (λ e, to_item (k, e)) <$> m !! k.
Proof.
  intros Hc. assert (∀ ke, ke ∈ recency m q → m !! ke.1 = Some ke.2) as Hin.
  { intros [k' e'] H. by apply (elem_of_recency m q k' e' Hc). }
  destruct (m !! k) as [e|] eqn:E; cbn.
  - apply (elem_of_recency m q k e Hc) in E as Hk. revert Hin Hk. clear Hc.
    induction (recency m q) as [|[k' e'] l IH]; intros Hin Hk; [by apply not_elem_of_nil in Hk|].
    cbn. unfold Lru.has_key at 1; cbn. case_bool_decide as Heq.
    + subst. specialize (Hin _ (list_elem_of_here _ _)). cbn in Hin. by simplify_eq.
    + apply elem_of_cons in Hk as [[= -> ->]|Hk]; [done|]. apply IH; [|done].
      intros ke ?. apply Hin. by right.
  - induction (recency m q) as [|[k' e'] l IH]; [done|]. cbn. unfold Lru.has_key at 1; cbn.
    case_bool_decide as Heq.
    + subst. specialize (Hin _ (list_elem_of_here _ _)). cbn in Hin. by simplify_eq.
    + apply IH. intros ke ?. apply Hin. by right.
Qed.

(** ** What the operations do to the recency list *)

(** Restricting the map filters its recency list. *)
Lemma recency_restrict (P : CacheKey * CacheEntry → bool) m m' q :
  (∀ k, m' !! k = (e ← m !! k; if P (k, e) then Some e else None)) →
  recency m' q = List.filter P (recency m q).
Proof.
  intros Hm. induction q as [|[[a v] k] q IH]; [done|].
  rewrite !recency_cons, List.filter_app, IH. f_equal. cbn.
  unfold resolve, is_current; cbn. rewrite Hm. destruct (m !! k) as [e|]; cbn; [|done].
  destruct (P (k, e)) eqn:HP; cbn; destruct (andb _ _); cbn; by rewrite ?HP.
Qed.

Lemma filter_to_item (P : Lru.item → bool) l :
  to_item <$> List.filter (λ ke, P (to_item ke)) l = List.filter P (to_item <$> l).
Proof. induction l as [|ke l IH]; [done|]. cbn. destruct (P (to_item ke)); cbn; by rewrite IH. Qed.

Lemma abstract_delete m q k :
  to_item <$> recency (delete k m) q = Lru.without k (to_item <$> recency m q).
Proof.
  unfold Lru.without. rewrite <- filter_to_item. f_equal. apply recency_restrict.
  intros k'. unfold Lru.has_key; cbn. destruct (decide (k' = k)) as [->|Hne].
  - rewrite lookup_delete_eq. destruct (m !! k); cbn; [|done]. by rewrite bool_decide_true.
  - rewrite lookup_delete_ne by done. destruct (m !! k'); cbn; [|done]. by rewrite bool_decide_false.
Qed.

(** Storing an entry under a new access stamp moves its key to the end. *)
Lemma abstract_touch m q k e :
  (∀ r, r ∈ q → r.1.1 < e.(last_access)) →
  to_item <$> recency (<[k := e]> m) (q ++ [(e.(last_access), e.(version), k)])
  = Lru.without k (to_item <$> recency m q) ++ [to_item (k, e)].
Proof.
  intros Hlt. rewrite <- abstract_delete. unfold recency. rewrite omap_app, fmap_app. f_equal.
  - f_equal. apply list_omap_ext, Forall_Forall2_diag, Forall_forall. intros [[a v] k'] Hin.
    apply Hlt in Hin. cbn in Hin. unfold resolve, is_current; cbn. destruct (decide (k' = k)) as [->|Hne].
    + rewrite lookup_delete_eq, lookup_insert_eq.
      by rewrite (proj2 (Z.eqb_neq (last_access e) a)), andb_false_r by lia.
    + by rewrite lookup_delete_ne, lookup_insert_ne by done.
  - unfold resolve, is_current; cbn. rewrite lookup_insert_eq, !Z.eqb_refl. done.
Qed.

Lemma covered_touch m q k e :
  covered m q → covered (<[k := e]> m) (q ++ [(e.(last_access), e.(version), k)]).
Proof.
  intros Hc k' e'. rewrite lookup_insert_Some, elem_of_app. intros [[-> ->]|[_ E]].
  - right. by left.
  - left. by apply Hc.
Qed.

Lemma by_access_touch q r :
  by_access q → (∀ r', r' ∈ q → r'.1.1 < r.1.1) → by_access (q ++ [r]).
Proof.
  intros Hq Hlt. apply StronglySorted_app. split_and!; [|done|repeat constructor].
  intros r1 r2 H1 ->%list_elem_of_singleton. by apply Hlt.
Qed.

Lemma covered_tail m r q :
  by_access (r :: q) → covered m (r :: q) → covered (if is_current m r then delete r.2 m else m) q.
Proof.
  intros Hq Hc k e. destruct (is_current m r) eqn:Hr.
  - rewrite lookup_delete_Some. intros [Hne E].
    apply Hc, elem_of_cons in E as [<-|?]; [done|done].
  - intros E. pose proof E as Hin. apply Hc, elem_of_cons in Hin as [<-|?]; [|done].
    unfold is_current in Hr; cbn in Hr. rewrite E, !Z.eqb_refl in Hr. done.
Qed.

Lemma recency_tail m r q :
  by_access (r :: q) →
  recency (if is_current m r then delete r.2 m else m) q
  = drop (if is_current m r then 1 else 0) (recency m (r :: q)).
Proof.
  intros Hs. pose proof (recency_keys_NoDup m _ Hs) as Hnd. unfold recency at 2. cbn.
  unfold recency in Hnd; cbn in Hnd. unfold resolve at 1. unfold resolve at 1 in Hnd.
  destruct (is_current m r) eqn:Hr; [|done].
  unfold is_current in Hr. destruct (m !! r.2) as [e|] eqn:E; [|done]. cbn in *.
  rewrite drop_0. apply NoDup_cons in Hnd as [Hn _].
  rewrite (recency_restrict (λ ke, negb (bool_decide (ke.1 = r.2))) m).
  2: { intros k. destruct (decide (k = r.2)) as [->|Hne].
       - rewrite lookup_delete_eq, E; cbn. by rewrite bool_decide_true.
       - rewrite lookup_delete_ne by done. destruct (m !! k); cbn; [|done].
         by rewrite bool_decide_false. }
  apply forallb_filter_id, forallb_forall. intros ke Hin%list_elem_of_In.
  apply negb_true_iff, bool_decide_eq_false. intros Heq. apply Hn. rewrite <- Heq.
  by apply list_elem_of_fmap_2.
Qed.

(** The eviction loop drops the least recently used entries, as many as exceed
    the capacity. *)
Lemma evict_loop_spec q m cap :
  0 ≤ cap → covered m q → by_access q →
  let '(m', q') := evict_loop m q cap in
  recency m' q' = drop (size m - Z.to_nat cap) (recency m q) ∧ covered m' q' ∧
  q' `suffix_of` q ∧ m' ⊆ m ∧ Z.of_nat (size m') ≤ cap.
Proof.
  intros Hcap. revert m. induction q as [|r q IH]; intros m Hc Hq; cbn [evict_loop].
  - pose proof (length_recency m [] Hc Hq) as Hl. cbn in Hl. rewrite <- Hl.
    destruct (_ >? _) eqn:Hgt; rewrite Z.gtb_ltb in Hgt; bool_to_prop; [lia|]. split_and!; [done..|lia].
  - destruct (Z.of_nat (size m) >? cap) eqn:Hgt; rewrite Z.gtb_ltb in Hgt; bool_to_prop.
    + pose proof (covered_tail m r q Hq Hc) as Hc'. pose proof (recency_tail m r q Hq) as Hr.
      inversion Hq as [|? ? Hq' _]; subst.
      specialize (IH _ Hc' Hq'). destruct (evict_loop _ q cap) as [m' q'] eqn:Hev.
      destruct IH as (-> & ? & ? & ? & ?). split_and!; try done.
      * rewrite Hr. destruct (is_current m r) eqn:Hcur; [|by rewrite drop_0].
        unfold is_current in Hcur. destruct (m !! r.2) as [e|] eqn:E; [|done].
        assert (size m ≠ 0%nat) by (by eapply map_size_ne_0_lookup_2; exists e).
        rewrite map_size_delete_Some by (by exists e). rewrite drop_drop. f_equal. lia.
      * by apply suffix_cons_r.
      * etrans; [done|]. destruct (is_current m r); [apply delete_subseteq|done].
    + split_and!; [|done..|lia]. replace (size m - Z.to_nat cap)%nat with 0%nat by lia.
      by rewrite drop_0.
Qed.

(** The purge removes exactly the expired entries, and keeps the references of
    the others. *)
Lemma purge_loop_spec heap m now :
  StronglySorted (λ a b : expiry_ref, a.1.1 ≤ b.1.1) heap →
  (∀ k e, m !! k = Some e → e.(expires) ≤ now → (e.(expires), e.(version), k) ∈ heap) →
  let '(m', heap') := purge_loop m heap now in
  (∀ k, m' !! k = (e ← m !! k; if now <? e.(expires) then Some e else None)) ∧
  heap' `suffix_of` heap ∧ (∀ r, r ∈ heap → now < r.1.1 → r ∈ heap').
Proof.
  intros Hs. revert m. induction Hs as [|r heap Hs IH Hr]; intros m Hc; cbn [purge_loop].
  - split_and!; [|done..]. intros k. destruct (m !! k) as [e|] eqn:E; cbn; [|done].
    destruct (now <? expires e) eqn:Hlt; [done|]. bool_to_prop.
    by apply Hc, not_elem_of_nil in E.
  - destruct (r.1.1 <=? now) eqn:Hle; bool_to_prop.
    + lapply (IH (if is_expired m now r then delete r.2 m else m)); clear IH; [intros IH|].
      2: { intros k e E Hexp. assert (m !! k = Some e) as E'.
        { destruct (is_expired m now r); [|done]. by apply lookup_delete_Some in E as [_ ?]. }
        pose proof (Hc k e E' Hexp) as Hin. apply elem_of_cons in Hin as [<-|?]; [|done].
        revert E. unfold is_expired; cbn. rewrite E', Z.eqb_refl, (proj2 (Z.leb_le _ _)) by done.
        cbn. by rewrite lookup_delete_eq. }
      destruct (purge_loop _ heap now) as [m' heap']. destruct IH as (Hm & Hsuf & Hkeep). split_and!.
      * intros k. rewrite Hm. destruct (is_expired m now r) eqn:Hx; [|done].
        destruct (decide (k = r.2)) as [->|Hne]; [|by rewrite lookup_delete_ne].
        rewrite lookup_delete_eq; cbn. unfold is_expired in Hx.
        destruct (m !! r.2) as [e|]; [|done]. bool_to_prop. cbn.
        by rewrite (proj2 (Z.ltb_ge _ _)).
      * by apply suffix_cons_r.
      * intros r' [->|Hin]%elem_of_cons ?; [lia|auto].
    + split_and!; [|done|done]. intros k. destruct (m !! k) as [e|] eqn:E; cbn; [|done].
      destruct (now <? expires e) eqn:Hlt; [done|]. bool_to_prop.
      pose proof (Hc k e E ltac:(lia)) as Hin. apply elem_of_cons in Hin as [Heq|Hin].
      * subst r. cbn in *. lia.
      * rewrite Forall_forall in Hr. apply Hr in Hin. cbn in *. lia.
Qed.

(** ** Sorting *)

Lemma insert_by_perm {A} le (x : A) l : insert_by le x l ≡ₚ x :: l.
Proof.
  induction l as [|y l IH]; cbn; [done|]. destruct (le x y); [done|]. rewrite IH. constructor.
Qed.

Lemma insert_by_sorted {A} le (f : A → Z) (x : A) l :
  (∀ a b, le a b = true → f a ≤ f b) → (∀ a b, le a b = false → f b ≤ f a) →
  StronglySorted (λ a b, f a ≤ f b) l → StronglySorted (λ a b, f a ≤ f b) (insert_by le x l).
Proof.
  intros Ht Hf. induction 1 as [|y l Hl IH Hy]; cbn; [repeat constructor|].
  destruct (le x y) eqn:E.
  - apply Ht in E. constructor; [by constructor|]. constructor; [done|].
    eapply Forall_impl; [done|]. cbn. intros. lia.
  - constructor; [done|]. rewrite insert_by_perm. constructor; [|done]. by apply Hf.
Qed.

Lemma expiry_le_spec a b : if expiry_le a b then a.1.1 ≤ b.1.1 else b.1.1 ≤ a.1.1.
Proof.
  unfold expiry_le, then_cmp. destruct (Z.compare_spec a.1.1 b.1.1); try lia.
  destruct (match _ with Eq => _ | _ => _ end); lia.
Qed.

Lemma heap_push_sorted x heap :
  StronglySorted (λ a b : expiry_ref, a.1.1 ≤ b.1.1) heap →
  StronglySorted (λ a b : expiry_ref, a.1.1 ≤ b.1.1) (insert_by expiry_le x heap).
Proof.
  apply (insert_by_sorted expiry_le (λ r, r.1.1));
    intros a b Hab; pose proof (expiry_le_spec a b) as Hs; by rewrite Hab in Hs.
Qed.

Lemma sort_by_perm {A} le (l : list A) : sort_by le l ≡ₚ l.
Proof. induction l as [|x l IH]; cbn; [done|]. by rewrite insert_by_perm, IH. Qed.

Lemma sort_by_access_sorted l : StronglySorted (λ a b, a.1.1 ≤ b.1.1) (sort_by access_le l).
Proof.
  induction l as [|x l IH]; cbn; [constructor|].
  apply (insert_by_sorted access_le (λ r, r.1.1)); [| |done]; unfold access_le; intros; bool_to_prop; lia.
Qed.

Lemma strictly_sorted_inj {A} (f : A → Z) l x y :
  StronglySorted (λ a b, f a < f b) l → x ∈ l → y ∈ l → f x = f y → x = y.
Proof.
  induction 1 as [|z l _ IH Hz]; [by intros ?%not_elem_of_nil|].
  rewrite Forall_forall in Hz.
  intros [->|Hx]%elem_of_cons [->|Hy]%elem_of_cons Heq; auto.
  - apply Hz in Hy. lia.
  - apply Hz in Hx. lia.
Qed.

(** ** The operations preserve the invariant and implement the specification *)

Definition ref_of (ke : CacheKey * CacheEntry) : access_ref :=
  (ke.2.(last_access), ke.2.(version), ke.1).

Lemma recency_ref_of m q : recency m (ref_of <$> recency m q) = recency m q.
Proof.
  induction q as [|r q IH]; [done|]. rewrite recency_cons.
  destruct (resolve m r) as [[k e]|] eqn:E; [|done].
  change (option_list (Some (k, e)) ++ recency m q) with ((k, e) :: recency m q).
  apply resolve_Some in E as [E ->]. rewrite fmap_cons, recency_cons, IH.
  by rewrite (proj2 (resolve_Some m (ref_of (k, e)) k e)).
Qed.

Lemma by_access_refs m q : by_access q → by_access (ref_of <$> recency m q).
Proof.
  intros Hq%(by_access_recency m). unfold by_access.
  induction Hq as [|ke l _ IH Hf]; [constructor|]. constructor; [done|]. by apply Forall_fmap.
Qed.

Lemma find_drop_without n k l : List.find (Lru.has_key k) (drop n (Lru.without k l)) = None.
Proof.
  destruct (List.find _ _) as [i|] eqn:E; [|done]. apply List.find_some in E as [Hin Hk].
  apply list_elem_of_In, subseteq_drop in Hin. apply list_elem_of_In, filter_In in Hin as [_ Hin].
  by rewrite Hk in Hin.
Qed.

Lemma find_app_None {A} (f : A → bool) l l' :
  List.find f l = None → List.find f (l ++ l') = List.find f l'.
Proof. induction l as [|x l IH]; cbn; [done|]. by destruct (f x). Qed.

Section refinement.
Context `{!HashIter CacheKey CacheEntry}.

(** Rebuilding the deque leaves the references of the current entries, in their
    order, whatever the order of the hash map is. *)
Lemma rebuild_lru m q :
  covered m q → by_access q →
  sort_by access_le ((λ '(k, e), (e.(last_access), e.(version), k)) <$> hash_iter m)
  = ref_of <$> recency m q.
Proof.
  intros Hc Hq. set (l := _ <$> hash_iter m).
  pose proof (by_access_refs m q Hq) as Hs.
  assert (sort_by access_le l ≡ₚ ref_of <$> recency m q) as Hp.
  { rewrite sort_by_perm, (recency_perm m q Hc Hq), <- hash_iter_perm. unfold l.
    by erewrite list_fmap_ext; [reflexivity|intros ? [] _]. }
  apply (StronglySorted_unique_strong (λ a b, a.1.1 ≤ b.1.1)); [| | |done].
  - intros x y Hx Hy ? ?. apply (strictly_sorted_inj (λ r, r.1.1) _ _ _ Hs); [by rewrite <- Hp|done|lia].
  - apply sort_by_access_sorted.
  - clear -Hs. induction Hs; constructor; [done|]. eapply Forall_impl; [done|]. cbn. lia.
Qed.

Lemma compact_lru_spec s :
  wf s →
  wf (compact_lru s) ∧ abstract_of (compact_lru s) = abstract_of s ∧
  (compact_lru s).(capacity) = s.(capacity) ∧ (compact_lru s).(clock) = s.(clock) ∧
  (compact_lru s).(disable_expire) = s.(disable_expire) ∧
  Z.of_nat (length (compact_lru s).(lru)) ≤ Z.max (Z.min (s.(capacity) * 8) u64_max) 64.
Proof.
  intros [Hc Hq Hk He Hh Hu Hz]. unfold compact_lru. destruct (_ <=? _) eqn:Hl; bool_to_prop; [done|].
  rewrite (rebuild_lru _ _ Hc Hq). unfold abstract_of; cbn [entries lru]. rewrite recency_ref_of.
  pose proof (length_recency _ _ Hc Hq) as Hlen. split_and!; try done.
  - split; cbn; try done.
    + intros k e E. apply list_elem_of_fmap. exists (k, e). split; [done|].
      by apply elem_of_recency.
    + by apply by_access_refs.
    + intros r ([k e] & -> & (r' & Hin & [_ ->]%resolve_Some)%list_elem_of_omap)%list_elem_of_fmap.
      by apply Hk in Hin.
  - rewrite length_fmap, Hlen. unfold uint, u64_max in *. lia.
Qed.

(** Storing an entry under the next clock value, then evicting and compacting:
    the common end of [get] and [insert]. *)
Lemma touch_wf s k e heap :
  wf s → 0 ≤ s.(clock) < u64_max → e.(last_access) = wrapping_add 64 s.(clock) 1 →
  (∀ k' e', s.(entries) !! k' = Some e' → k' ≠ k → (e'.(expires), e'.(version), k') ∈ heap) →
  (e.(expires), e.(version), k) ∈ heap → StronglySorted (λ a b : expiry_ref, a.1.1 ≤ b.1.1) heap →
  let q := s.(lru) ++ [(e.(last_access), e.(version), k)] in
  let m := <[k := e]> s.(entries) in
  covered m q ∧ by_access q ∧ (∀ r, r ∈ q → r.1.1 ≤ e.(last_access)) ∧
  (∀ k' e', m !! k' = Some e' → (e'.(expires), e'.(version), k') ∈ heap) ∧
  to_item <$> recency m q = Lru.without k (abstract_of s) ++ [to_item (k, e)].
Proof.
  intros [Hc Hq Hk He Hh Hu Hz] Hclock Hla Hold Hnew Hheap. cbn zeta.
  assert (wrapping_add 64 (clock s) 1 = clock s + 1) as Hw
    by (unfold wrapping_add; apply Z.mod_small; unfold u64_max in *; lia).
  rewrite Hw in Hla. split_and!.
  - by apply covered_touch.
  - apply by_access_touch; [done|]. intros r Hr%Hk. cbn. lia.
  - intros r [Hr%Hk| ->%list_elem_of_singleton]%elem_of_app; cbn; lia.
  - intros k' e' [[-> ->]|[? ?]]%lookup_insert_Some; [done|]. apply Hold; congruence.
  - apply abstract_touch. intros r Hr%Hk. lia.
Qed.

(** The bound the compaction keeps on the deque. *)
Definition lru_bounded (s : DnsCache) : Prop :=
  Z.of_nat (length s.(lru)) ≤ Z.max (Z.min (s.(capacity) * 8) u64_max) 64.

(** [s'] is a cache with the configuration of [s], at most one tick later. *)
Definition ticks (s s' : DnsCache) : Prop :=
  s'.(capacity) = s.(capacity) ∧ s'.(disable_expire) = s.(disable_expire) ∧
  s.(clock) ≤ s'.(clock) ≤ s.(clock) + 1.

Lemma get_refines s k now :
  wf s → 0 ≤ s.(clock) < u64_max →
  ((λ '(s', r), (abstract_of s', r)) <$> get s k now)
    = Lru.get s.(disable_expire) (abstract_of s) k now ∧
  (∀ s' r, get s k now = Ok (s', r) → wf s' ∧ ticks s s' ∧ (lru_bounded s → lru_bounded s')).
Proof.
  intros Hwf Hclock. unfold get, Lru.get. pose proof Hwf as [Hc Hq Hk He Hh Hu Hz].
  rewrite (find_recency _ _ k Hc : List.find _ (abstract_of s) = _).
  destruct (entries s !! k) as [e|] eqn:E; cbn [fmap option_fmap option_map result_fmap].
  2: { split; [done|]. intros s' r [= <- <-]. unfold ticks. split_and!; (done || lia). }
  unfold Lru.fresh; cbn [to_item Lru.until Lru.val Lru.since fst snd].
  assert (disable_expire s || (now <? expires e)
          = negb (negb (disable_expire s) && (expires e <=? now))) as ->
    by (rewrite Z.ltb_antisym; by destruct (disable_expire s)).
  destruct (negb (disable_expire s) && (expires e <=? now)); cbn [negb].
  - split; [cbn; f_equal; f_equal; apply abstract_delete|].
    intros s' r [= <- <-]. split; [|unfold ticks; cbn; split_and!; (done || lia)]. split; cbn; try done.
    + intros k' e' [_ ?]%lookup_delete_Some. by apply Hc.
    + intros k' e' [_ ?]%lookup_delete_Some. by apply He.
    + rewrite map_size_delete_Some by (by exists e). lia.
  - set (c := wrapping_add 64 (clock s) 1).
    set (e' := mkEntry (value e) (expires e) (inserted e) (version e) c).
    destruct (touch_wf s k e' (expiry s) Hwf Hclock) as (H1 & H2 & H3 & H4 & H5);
      [done|by intros; apply He|by apply (He k e)|done|].
    set (s1 := mkCache _ _ _ _ _ _).
    assert (wf s1) as Hwf1.
    { split; cbn; try done. by rewrite map_size_insert_Some by (by exists e). }
    destruct (compact_lru_spec s1 Hwf1) as (Hwf2 & Habs & Hcap & Hck & Hd & Hlb).
    assert (ticks s (compact_lru s1)).
    { unfold ticks. rewrite Hcap, Hck, Hd. cbn. unfold c, wrapping_add.
      rewrite Z.mod_small by (unfold u64_max in *; lia).
      split_and!; (done || lia). }
    change (to_item <$> _) with (abstract_of s1) in H5. rewrite <- Habs in H5.
    change (to_item (k, e')) with (to_item (k, e)) in H5. split.
    + rewrite <- H5. unfold Lru.aged. destruct (value e); [done|].
      by destruct (age_response_ttls _ _).
    + intros s' r H'. apply bind_Ok in H' as (v & _ & [= <- <-]).
      unfold lru_bounded. by rewrite Hcap.
Qed.

Lemma StronglySorted_suffix {A} (R : relation A) l l' :
  l' `suffix_of` l → StronglySorted R l → StronglySorted R l'.
Proof. intros [k ->] H. by apply StronglySorted_app_1_r in H. Qed.

Lemma purge_expired_spec s now :
  wf s →
  wf (purge_expired s now) ∧
  abstract_of (purge_expired s now) = List.filter (Lru.fresh s.(disable_expire) now) (abstract_of s) ∧
  (purge_expired s now).(clock) = s.(clock) ∧ (purge_expired s now).(capacity) = s.(capacity) ∧
  (purge_expired s now).(disable_expire) = s.(disable_expire).
Proof.
  intros Hwf. unfold purge_expired. destruct (disable_expire s) eqn:Hd.
  { split_and!; try done. by rewrite (List.filter_true _ : List.filter (Lru.fresh true now) _ = _). }
  destruct Hwf as [Hc Hq Hk He Hh Hu Hz].
  pose proof (purge_loop_spec (expiry s) (entries s) now Hh (λ k e E _, He k e E)) as Hp.
  destruct (purge_loop _ _ _) as [m heap]. destruct Hp as (Hm & Hsuf & Hkeep).
  assert (∀ k e, m !! k = Some e → entries s !! k = Some e ∧ now < expires e) as Hsub.
  { intros k e. rewrite Hm. destruct (entries s !! k) as [e'|] eqn:E; cbn; [|done].
    destruct (now <? expires e') eqn:Hlt; [|done]. bool_to_prop. by intros [= ->]. }
  split_and!; try done.
  - split; cbn; try done.
    + intros k e [? _]%Hsub. by apply Hc.
    + intros k e [? ?]%Hsub. apply Hkeep; [by apply He|done].
    + by eapply StronglySorted_suffix.
    + assert (m ⊆ entries s) as Hle%map_subseteq_size; [|lia].
      apply map_subseteq_spec. intros k e [? _]%Hsub. done.
  - unfold abstract_of; cbn [entries lru]. rewrite <- filter_to_item. f_equal.
    by apply recency_restrict.
Qed.

Lemma insert_refines s k v ttl now :
  wf s → 0 ≤ s.(clock) < u64_max →
  (abstract_of <$> insert s k v ttl now)
    = Lru.insert s.(disable_expire) s.(capacity) (abstract_of s) k v ttl now ∧
  (∀ s', insert s k v ttl now = Ok s' → wf s' ∧ ticks s s' ∧ (lru_bounded s → lru_bounded s')).
Proof.
  intros Hwf0 Hclock. unfold insert, Lru.insert.
  destruct (purge_expired_spec s now Hwf0) as (Hwf & <- & Hck & Hcap & Hd).
  rewrite <- Hcap. set (s0 := purge_expired s now) in *.
  destruct (instant_add now ttl) as [until|e| |] eqn:Ei; cbn [mbind result_bind]; try done.
  set (c := wrapping_add 64 (clock s0) 1). set (e := mkEntry v until now c c).
  pose proof Hwf as [Hc Hq Hk He Hh Hu Hz]. rewrite <- Hck in Hclock.
  destruct (touch_wf s0 k e (insert_by expiry_le (until, c, k) (expiry s0)) Hwf Hclock)
    as (H1 & H2 & H3 & H4 & H5); [done| | | |].
  { intros k' e' E _. rewrite insert_by_perm. right. by apply He. }
  { rewrite insert_by_perm. by left. }
  { by apply heap_push_sorted. }
  unfold evict_lru. cbn [entries lru capacity expiry clock disable_expire].
  pose proof (evict_loop_spec _ _ (capacity s0) ltac:(unfold uint in Hu; lia) H1 H2) as Hev.
  pose proof (length_recency _ _ H1 H2) as Hlen.
  destruct (evict_loop _ _ _) as [m q]. destruct Hev as (Hr & Hcov & Hsuf & Hsub & Hsz).
  set (s1 := mkCache _ _ _ _ _ _).
  assert (wf s1) as Hwf1.
  { split; cbn; try done.
    - by eapply StronglySorted_suffix.
    - intros r Hin. apply H3. destruct Hsuf as [pre ->]. apply elem_of_app. by right.
    - intros k' e' E. apply H4. by eapply lookup_weaken.
    - by apply heap_push_sorted. }
  destruct (compact_lru_spec s1 Hwf1) as (Hwf2 & Habs & Hcap2 & Hck2 & Hd2 & Hlb).
  split.
  - cbn [fmap result_fmap]. f_equal. rewrite Habs. unfold abstract_of at 1. cbn [entries lru s1].
    rewrite Hr, fmap_drop. change (to_item (k, e)) with (Lru.mkItem k v until now) in H5.
    rewrite <- H5. f_equal. rewrite length_fmap. lia.
  - intros s' [= <-]. split; [done|]. unfold ticks, lru_bounded. rewrite Hcap2 in *. rewrite Hck2, Hd2. cbn.
    unfold c, wrapping_add. rewrite Z.mod_small by (unfold u64_max in *; lia).
    split_and!; (done || lia).
Qed.

Lemma new_wf cap never : u64 cap → wf (new cap never).
Proof.
  intros Hu. split; cbn [new entries lru expiry clock capacity]; try done; try (by constructor).
  - intros r H. by apply not_elem_of_nil in H.
  - rewrite map_size_empty. unfold uint in Hu. lia.
Qed.

Lemma step_refines s op :
  wf s → 0 ≤ s.(clock) < u64_max →
  ((λ '(s', r), (abstract_of s', r)) <$> step s op)
    = Lru.step s.(disable_expire) s.(capacity) (abstract_of s) op ∧
  (∀ s' r, step s op = Ok (s', r) → wf s' ∧ ticks s s' ∧ (lru_bounded s → lru_bounded s')).
Proof.
  intros Hwf Hc. destruct op as [[k|k v ttl] now]; unfold step, Lru.step; cbn [fst snd].
  - by apply get_refines.
  - destruct (insert_refines s k v ttl now Hwf Hc) as [<- Hs].
    destruct (insert s k v ttl now); cbn [mbind result_bind fmap result_fmap]; try done.
    split; [done|]. intros s' r [= <- _]. by apply Hs.
Qed.

Lemma run_refines ops s :
  wf s → 0 ≤ s.(clock) → s.(clock) + Z.of_nat (length ops) ≤ u64_max →
  ((λ '(s', r), (abstract_of s', r)) <$> run s ops)
    = Lru.run s.(disable_expire) s.(capacity) (abstract_of s) ops ∧
  (∀ s' r, run s ops = Ok (s', r) →
     wf s' ∧ s'.(capacity) = s.(capacity) ∧ (lru_bounded s → lru_bounded s')).
Proof.
  revert s. induction ops as [|op ops IH]; intros s Hwf H0 Hc; cbn [run Lru.run].
  { split; [done|]. intros s' r [= <- <-]. done. }
  cbn [length] in Hc. destruct (step_refines s op Hwf ltac:(lia)) as [<- Hs].
  destruct (step s op) as [[s1 r]|e| |]; cbn [mbind result_bind fmap result_fmap]; try done.
  destruct (Hs s1 r eq_refl) as (Hwf1 & (Hcap & Hd & Hck) & Hlb).
  destruct (IH s1 Hwf1 ltac:(lia) ltac:(lia)) as [IH1 IH2]. rewrite Hcap, Hd in IH1. rewrite <- IH1.
  destruct (run s1 ops) as [[s2 rs]|e| |]; cbn [mbind result_bind fmap result_fmap]; try done.
  split; [done|]. intros s' r' [= <- <-]. destruct (IH2 s2 rs eq_refl) as (? & ? & ?).
  split_and!; [done|congruence|auto].
Qed.

(** C8: The cache is an LRU cache with expiry: any sequence of fewer than 2^64
    gets and inserts on a new cache returns what the abstract list returns (an
    expired item is never returned; a get moves the item to the end; an insert
    drops the expired items and then the least recently used ones beyond the
    capacity), and leaves the same items in the same order, whatever the
    iteration order of the hash map and however often the deque is compacted. *)
Theorem cache_implements_lru cap never ops :
  u64 cap → Z.of_nat (length ops) ≤ u64_max →
  ((λ '(s, rs), (abstract_of s, rs)) <$> run (new cap never) ops) = Lru.run never cap [] ops.
Proof.
  intros Hcap Hlen.
  by apply (run_refines ops (new cap never) (new_wf cap never Hcap) ltac:(done) Hlen).
Qed.

(** Memory bounds: after any sequence of fewer than 2^64 operations the
    cache holds at most [capacity] entries and its deque at most
    [max (8 * capacity) 64] references. *)
Theorem cache_bounded cap never ops s rs :
  u64 cap → Z.of_nat (length ops) ≤ u64_max → run (new cap never) ops = Ok (s, rs) →
  Z.of_nat (size s.(entries)) ≤ cap ∧ Z.of_nat (length s.(lru)) ≤ Z.max (cap * 8) 64.
Proof.
  intros Hcap Hlen Hrun.
  destruct (run_refines ops (new cap never) (new_wf cap never Hcap) ltac:(done) Hlen) as [_ H].
  destruct (H s rs Hrun) as ([_ _ _ _ _ _ Hsz] & Hc & Hb). cbn in Hc.
  unfold lru_bounded in Hb; cbn in Hb. rewrite Hc in *. split; [done|]. lia.
Qed.

(** Insert, then get: on a cache that can hold an entry, what was inserted
    is returned until its time to live has passed, a wire response with its
    TTLs reduced by the seconds it was held. *)
Theorem get_after_insert s k v ttl now s' now' :
  wf s → 0 ≤ s.(clock) → s.(clock) + 2 ≤ u64_max → 1 ≤ s.(capacity) →
  insert s k v ttl now = Ok s' → now' < now + ttl ∨ s.(disable_expire) = true →
  (snd <$> get s' k now') = (Some <$> Lru.aged v (secs_since now' now)).
Proof.
  intros Hwf H0 Hc Hcap Hins Hexp.
  destruct (insert_refines s k v ttl now Hwf ltac:(lia)) as [Ha Hs].
  destruct (Hs s' Hins) as (Hwf' & (Hcap' & Hd & Hck) & _). rewrite Hins in Ha.
  destruct (get_refines s' k now' Hwf' ltac:(lia)) as [Hg _].
  unfold Lru.insert in Ha. destruct (instant_add now ttl) as [u|e| |] eqn:Hi; try done.
  unfold instant_add in Hi. destruct (_ <? _) in Hi; [|done]. injection Hi as Hi.
  cbn [mbind result_bind fmap result_fmap] in Ha. apply Ok_inj in Ha.
  set (l := List.filter _ (abstract_of s)) in *. set (i := Lru.mkItem k v u now) in *.
  assert (∃ l', abstract_of s' = l' ++ [i] ∧ List.find (Lru.has_key k) l' = None) as (l' & El & Hf).
  { rewrite Ha, length_app, drop_app_le by (cbn; lia). eexists. split; [done|].
    apply find_drop_without. }
  unfold Lru.get in Hg. rewrite El, (find_app_None _ _ _ Hf) in Hg. cbn [List.find] in Hg.
  assert (Lru.has_key k i = true) as Hk by (unfold Lru.has_key; by apply bool_decide_true).
  assert (Lru.fresh (disable_expire s') now' i = true) as Hfr.
  { unfold Lru.fresh; cbn. rewrite Hd, orb_true_iff, Z.ltb_lt. destruct Hexp; [right; lia|by left]. }
  rewrite Hk, Hfr in Hg. cbn [Lru.val Lru.since i] in Hg.
  destruct (Lru.aged _ _), (get s' k now') as [[]| | |]; cbn in *; simplify_eq; done.
Qed.

(** ** Snapshot and restore *)

(** What becomes of an item saved at wall-clock second [now] (instant
    [instant]) and restored at [now2] ([instant2]): the seconds left are
    counted from the restart, the value is stored as it is. *)
Definition survives (now instant now2 instant2 : Z) (i : Lru.item) : option Lru.item :=
  let left := secs_since i.(Lru.until) instant in
  if (left =? 0) || (now + left <=? now2) then None
  else Some (Lru.mkItem i.(Lru.key) i.(Lru.val) (instant2 + (now + left - now2) * nanos) instant2).

Definition restored (now2 instant2 : Z) (p : PersistentEntry) : option Lru.item :=
  if p.(expires_at) <=? now2 then None
  else Some (Lru.mkItem (restore_key p.(p_key)) (restore_value p.(p_value))
               (instant2 + (p.(expires_at) - now2) * nanos) instant2).

Lemma restore_key_persist k : restore_key (persist_key k) = k.
Proof. by destruct k. Qed.
Lemma restore_value_persist v : restore_value (persist_value v) = v.
Proof. by destruct v. Qed.

Lemma without_notin k l : k ∉ Lru.key <$> l → Lru.without k l = l.
Proof.
  intros Hn. apply forallb_filter_id, forallb_forall. intros i Hi%list_elem_of_In.
  apply negb_true_iff, bool_decide_eq_false. intros <-. by apply Hn, list_elem_of_fmap_2.
Qed.

Lemma restore_spec snap s now2 instant2 :
  wf s → 0 ≤ s.(clock) → s.(clock) + Z.of_nat (length snap) ≤ u64_max →
  Z.of_nat (length (abstract_of s) + length snap) ≤ s.(capacity) →
  NoDup ((Lru.key <$> abstract_of s) ++ (restore_key ∘ p_key <$> snap)) →
  Forall (λ i, instant2 < i.(Lru.until)) (abstract_of s) →
  Forall (λ p, instant2 + (p.(expires_at) - now2) * nanos < 2 ^ 63 * nanos) snap →
  ∃ s2, restore s snap now2 instant2 = Ok s2 ∧ wf s2 ∧
    abstract_of s2 = abstract_of s ++ omap (restored now2 instant2) snap.
Proof.
  revert s. induction snap as [|p snap IH]; intros s Hwf H0 Hck Hlen Hnd Hfr Hb.
  { exists s. split_and!; [done|done|]. cbn. by rewrite app_nil_r. }
  apply Forall_cons in Hb as [Hp Hb]. cbn [restore length] in *. rewrite fmap_cons in Hnd.
  cbn [compose] in Hnd. cbn [omap list_omap]. unfold restored at 1.
  destruct (expires_at p <=? now2) eqn:Hle; bool_to_prop.
  { apply IH; try done; try lia. apply NoDup_app in Hnd as (? & ? & [_ ?]%NoDup_cons).
    apply NoDup_app. split_and!; [done|set_solver|done]. }
  set (k := restore_key (p_key p)) in *. set (v := restore_value (p_value p)).
  destruct (insert_refines s k v ((expires_at p - now2) * nanos) instant2 Hwf ltac:(lia)) as [Ha Hs].
  unfold Lru.insert, instant_add in Ha. rewrite (proj2 (Z.ltb_lt _ _)) in Ha by done.
  cbn [mbind result_bind] in Ha.
  destruct (insert s k v _ instant2) as [s1|e| |]; try done.
  destruct (Hs s1 eq_refl) as (Hwf1 & (Hcap & Hd & Hck1) & _). cbn [fmap result_fmap] in Ha.
  apply Ok_inj in Ha. cbn [mbind result_bind].
  apply NoDup_app in Hnd as Hnd'. destruct Hnd' as (_ & Hdis & _).
  rewrite (forallb_filter_id (Lru.fresh _ _)), without_notin, length_app in Ha.
  2: { intros Hin. apply (Hdis _ Hin). by left. }
  2: { apply forallb_forall. intros i Hi%list_elem_of_In. rewrite Forall_forall in Hfr.
       apply Hfr in Hi. unfold Lru.fresh. by rewrite (proj2 (Z.ltb_lt _ _)), orb_true_r by done. }
  replace (_ + _ - Z.to_nat _)%nat with 0%nat in Ha by (cbn [length]; lia). rewrite drop_0 in Ha.
  destruct (IH s1) as (s2 & Hr & Hwf2 & Habs); try done; try lia.
  - rewrite Hcap, Ha, length_app. cbn [length]. lia.
  - rewrite Ha, fmap_app, <- app_assoc. done.
  - rewrite Ha. apply Forall_app; split; [done|]. constructor; [|done]. cbn. unfold nanos. lia.
  - exists s2. split_and!; [done|done|]. by rewrite Habs, Ha, <- app_assoc.
Qed.

(** [snapshot_entry] without its overflow check. *)
Definition saved (now instant : Z) (ke : CacheKey * CacheEntry) : option PersistentEntry :=
  let left := secs_since ke.2.(expires) instant in
  if left =? 0 then None
  else Some (mkPersistent (persist_key ke.1) (persist_value ke.2.(value)) (now + left)).

Lemma snapshot_saved s now instant :
  (∀ k e, s.(entries) !! k = Some e → u64 (now + secs_since e.(expires) instant)) →
  snapshot s now instant = Ok (omap (saved now instant) (hash_iter s.(entries))).
Proof.
  intros Hb. unfold snapshot.
  rewrite (proj2 (map_result_Ok _ _ (saved now instant <$> hash_iter (entries s)))).
  - cbn [mbind result_bind]. f_equal. induction (hash_iter _) as [|ke l IH]; [done|].
    cbn. destruct (saved now instant ke); by rewrite <- IH.
  - apply Forall2_fmap_r, Forall_Forall2_diag, Forall_forall. intros [k e] Hin.
    rewrite hash_iter_perm in Hin. apply elem_of_map_to_list, Hb in Hin as [? ?].
    unfold compose, snapshot_entry, saved; cbn zeta; cbn [fst snd]. destruct (_ =? 0); [done|].
    unfold checked_or_panic. by rewrite (proj2 (Z.leb_le _ _)), (proj2 (Z.ltb_lt _ _)).
Qed.

Lemma saved_keys now instant (l : list (CacheKey * CacheEntry)) :
  (restore_key ∘ p_key <$> omap (saved now instant) l) `sublist_of` l.*1.
Proof.
  induction l as [|[k e] l IH]; [done|]. cbn. unfold saved at 1; cbn [fst snd].
  destruct (_ =? 0); [by apply sublist_cons|]. rewrite fmap_cons. cbn [compose p_key].
  rewrite restore_key_persist. by apply sublist_skip.
Qed.

Lemma restored_saved now instant now2 instant2 (l : list (CacheKey * CacheEntry)) :
  omap (restored now2 instant2) (omap (saved now instant) l)
  = omap (survives now instant now2 instant2) (to_item <$> l).
Proof.
  induction l as [|[k e] l IH]; [done|]. cbn. unfold saved at 1, survives at 1, to_item at 1 2 3.
  cbn [fst snd Lru.until Lru.key Lru.val]. destruct (_ =? 0); cbn [orb]; [done|].
  cbn [omap list_omap]. unfold restored at 1. cbn [expires_at p_key p_value].
  rewrite restore_key_persist, restore_value_persist.
  destruct (_ <=? now2); [done|]. by rewrite <- IH.
Qed.

(** Snapshot and restore: restored into a cache that is large enough, a
    snapshot gives back exactly the items with at least a second left, under
    their keys and with their values; whole seconds of life are kept, and the
    age of the value restarts at zero. *)
Theorem restore_snapshot s cap never now instant now2 instant2 :
  wf s → u64 cap → Z.of_nat (size s.(entries)) ≤ cap →
  (∀ k e, s.(entries) !! k = Some e →
     u64 (now + secs_since e.(expires) instant) ∧
     instant2 + (now + secs_since e.(expires) instant - now2) * nanos < 2 ^ 63 * nanos) →
  ∃ snap s2, snapshot s now instant = Ok snap ∧
    restore (new cap never) snap now2 instant2 = Ok s2 ∧ wf s2 ∧
    abstract_of s2 ≡ₚ omap (survives now instant now2 instant2) (abstract_of s).
Proof.
  intros Hwf Hcap Hsz Hb. rewrite snapshot_saved by (intros k e E; by apply (Hb k e)).
  set (l := hash_iter (entries s)). set (snap := omap (saved now instant) l).
  assert (l ≡ₚ map_to_list (entries s)) as Hl by apply hash_iter_perm.
  assert (length snap ≤ size (entries s))%nat as Hlen.
  { rewrite <- length_map_to_list, <- Hl, <- (length_fmap fst l).
    rewrite <- (length_fmap (restore_key ∘ p_key) snap). apply sublist_length, saved_keys. }
  destruct (restore_spec snap (new cap never) now2 instant2) as (s2 & Hr & Hwf2 & Habs).
  - by apply new_wf.
  - done.
  - unfold uint, u64_max in *. cbn. lia.
  - cbn. lia.
  - cbn [new abstract_of recency]. eapply sublist_NoDup; [|apply saved_keys].
    rewrite Hl. apply NoDup_fst_map_to_list.
  - constructor.
  - apply Forall_forall. intros p ([k e] & Hin & Hs)%list_elem_of_omap.
    rewrite Hl in Hin. apply elem_of_map_to_list, Hb in Hin as [_ ?].
    unfold saved in Hs; cbn [fst snd] in Hs. destruct (_ =? 0); [done|]. by injection Hs as <-.
  - exists snap, s2. split_and!; [done|done|done|]. rewrite Habs. cbn [app].
    unfold abstract_of at 1; cbn. unfold snap. rewrite restored_saved.
    unfold abstract_of. by rewrite (recency_perm _ _ (wf_covered _ Hwf) (wf_by_access _ Hwf)), Hl.
Qed.

End refinement.

(** ** Two limits of the cache *)

(** A restart resets the age of a wire response but not its expiry: a
    response with a TTL of 60 seconds that was cached for 50 seconds, saved and
    restored is handed out with a TTL of 60 again, although the cache itself
    drops it 10 seconds later. *)
Theorem restored_ttl_exceeds_lifetime :
  let key := EchKey (lit "a.b") in
  let _ := key_order CacheKey CacheEntry in
  ∃ s snap s2 r,
    insert (new 8 false) key (WireValue sample_response) (60 * nanos) 0 = Ok s ∧
    snapshot s 1000 (50 * nanos) = Ok snap ∧ restore (new 8 false) snap 1000 0 = Ok s2 ∧
    (snd <$> get s2 key 0) = Ok (Some (WireValue r)) ∧ response_ttl r = 60 ∧
    (snd <$> get s2 key (10 * nanos)) = Ok None.
Proof.
  intros key o. do 4 eexists.
  split_and!; [vm_compute; reflexivity..| |vm_compute; reflexivity]. vm_compute. reflexivity.
Qed.

Lemma length_expiry_compact `{!HashIter CacheKey CacheEntry} s :
  (compact_lru s).(expiry) = s.(expiry) ∧ (compact_lru s).(disable_expire) = s.(disable_expire).
Proof. unfold compact_lru. by destruct (_ <=? _). Qed.

Lemma step_heap_grows `{!HashIter CacheKey CacheEntry} s op s' r :
  s.(disable_expire) = true → step s op = Ok (s', r) →
  s'.(disable_expire) = true ∧
  length s'.(expiry) =
    (length s.(expiry) + match op.1 with Get _ => 0 | Insert _ _ _ => 1 end)%nat.
Proof.
  intros Hd. destruct op as [[k|k v ttl] now]; unfold step; cbn [fst snd].
  - unfold get. rewrite Hd. cbn [negb andb]. destruct (entries s !! k) as [e|]; intros H.
    + apply bind_Ok in H as (x & _ & [= <- <-]). destruct (length_expiry_compact
        (mkCache (<[k := mkEntry (value e) (expires e) (inserted e) (version e)
           (wrapping_add 64 (clock s) 1)]> (entries s)) (expiry s)
           (lru s ++ [(wrapping_add 64 (clock s) 1, version e, k)]) (capacity s)
           (wrapping_add 64 (clock s) 1) (disable_expire s))) as [H1 H2].
      rewrite Hd in H1, H2. rewrite H1, H2. cbn. split; [done|lia].
    + injection H as <- <-. split; [done|lia].
  - unfold insert, purge_expired. rewrite Hd. intros H.
    apply bind_Ok in H as (s1 & H & [= <- _]). apply bind_Ok in H as (u & _ & [= <-]).
    unfold evict_lru. cbn [entries lru capacity]. destruct (evict_loop _ _ _) as [m q].
    edestruct length_expiry_compact as [H1 H2]. rewrite H1, H2. cbn.
    split; [done|]. rewrite insert_by_perm. cbn. lia.
Qed.

(** With [disable_expire] nothing ever leaves the expiry heap: it holds one
    reference, with a copy of the key, per insert ever made, while the entries
    themselves stay within the capacity. *)
Theorem disabled_expiry_heap_grows `{!HashIter CacheKey CacheEntry} cap ops s rs :
  run (new cap true) ops = Ok (s, rs) →
  length s.(expiry) = length (List.filter (λ op, match op.1 with Insert _ _ _ => true | _ => false end) ops).
Proof.
  intros H. rewrite <- (Nat.add_0_l (length (List.filter _ _))).
  change 0%nat with (length (new cap true).(expiry)).
  assert ((new cap true).(disable_expire) = true) as Hd by done. revert Hd H.
  generalize (new cap true) as s0. revert rs.
  induction ops as [|op ops IH]; intros rs s0 Hd H; cbn [run] in H; [injection H as <- <-; cbn; lia|].
  apply bind_Ok in H as ([s1 r] & Hs & H). apply bind_Ok in H as ([s2 rs'] & H & [= -> _]).
  destruct (step_heap_grows s0 op s1 r Hd Hs) as [Hd1 Hl1].
  rewrite (IH rs' s1 Hd1 H), Hl1. cbn [List.filter]. destruct (op.1); cbn [length]; lia.
Qed.

(** ** The theorems at concrete runs *)

Definition sample_key (n : Z) : CacheKey := Lookup (lit "a.b") n None None.

(** Two keys on a cache of one entry, and a get after the expiry. *)
Definition sample_ops : list (Op * Z) :=
  [(Insert (sample_key 1) (Addresses [V4 1]) 5, 0); (Get (sample_key 1), 1);
   (Insert (sample_key 28) (Addresses [V6 1]) 5, 2); (Get (sample_key 1), 3);
   (Get (sample_key 28), 4); (Get (sample_key 28), 7)].

#[local] Instance sample_order : HashIter CacheKey CacheEntry := key_order _ _.

Lemma cache_implements_lru_witness :
  ((λ '(s, rs), (abstract_of s, rs)) <$> run (new 1 false) sample_ops)
    = Lru.run false 1 [] sample_ops ∧
  (snd <$> Lru.run false 1 [] sample_ops)
    = Ok [None; Some (Addresses [V4 1]); None; None; Some (Addresses [V6 1]); None].
Proof.
  split; [|vm_compute; reflexivity].
  apply (cache_implements_lru 1 false sample_ops); [unfold uint; lia|vm_compute; discriminate].
Defined.

Lemma cache_bounded_witness :
  ∃ s rs, run (new 1 false) sample_ops = Ok (s, rs) ∧ Z.of_nat (size s.(entries)) ≤ 1 ∧
    Z.of_nat (length s.(lru)) ≤ 64.
Proof.
  destruct (run (new 1 false) sample_ops) as [[s rs]| | |] eqn:H;
    [|exfalso; revert H; vm_compute; discriminate..].
  destruct (cache_bounded 1 false sample_ops s rs ltac:(unfold uint; lia)
              ltac:(vm_compute; discriminate) H) as [H1 H2].
  exists s, rs. split; [done|]. split; [exact H1|]. exact H2.
Defined.

Lemma get_after_insert_witness :
  ∃ s', insert (new 1 false) (sample_key 1) (WireValue sample_response) (60 * nanos) 0 = Ok s' ∧
    (snd <$> get s' (sample_key 1) (45 * nanos))
    = (Some <$> Lru.aged (WireValue sample_response) 45).
Proof.
  destruct (insert (new 1 false) (sample_key 1) (WireValue sample_response) (60 * nanos) 0)
    as [s'| | |] eqn:H; [|exfalso; revert H; vm_compute; discriminate..].
  exists s'. split; [done|].
  apply (get_after_insert (new 1 false) (sample_key 1) (WireValue sample_response) (60 * nanos) 0 s'
           (45 * nanos)); [apply new_wf; unfold uint; lia|done|done|done|done|].
  left. unfold nanos. lia.
Defined.

Lemma insert_new_wf k v ttl now s : insert (new 1 false) k v ttl now = Ok s → wf s.
Proof.
  apply insert_refines; [apply new_wf; unfold uint; lia|]. cbn. unfold u64_max. lia.
Qed.

Definition sample_cache : DnsCache := Eval vm_compute in
  match insert (new 1 false) (sample_key 1) (Addresses [V4 1]) (60 * nanos) 0 with
  | Ok s => s
  | _ => new 1 false
  end.

Lemma sample_cache_eq :
  insert (new 1 false) (sample_key 1) (Addresses [V4 1]) (60 * nanos) 0 = Ok sample_cache ∧
  map_to_list sample_cache.(entries)
    = [(sample_key 1, mkEntry (Addresses [V4 1]) (60 * nanos) 0 1 1)] ∧
  abstract_of sample_cache = [Lru.mkItem (sample_key 1) (Addresses [V4 1]) (60 * nanos) 0].
Proof. vm_compute. done. Qed.

Lemma restore_snapshot_witness :
  ∃ snap s2,
    snapshot sample_cache 1000 (50 * nanos) = Ok snap ∧ restore (new 1 false) snap 1004 0 = Ok s2 ∧
    abstract_of s2 ≡ₚ [Lru.mkItem (sample_key 1) (Addresses [V4 1]) (6 * nanos) 0].
Proof.
  destruct sample_cache_eq as (H & He & Ha).
  destruct (restore_snapshot sample_cache 1 false 1000 (50 * nanos) 1004 0)
    as (snap & s2 & H1 & H2 & _ & H3).
  - exact (insert_new_wf _ _ _ _ _ H).
  - unfold uint; lia.
  - rewrite <- length_map_to_list, He. cbn. lia.
  - intros k e E%elem_of_map_to_list. rewrite He in E. apply list_elem_of_singleton in E as [= _ ->].
    vm_compute. repeat split; discriminate.
  - exists snap, s2. split; [done|]. split; [done|]. rewrite Ha in H3. exact H3.
Defined.

Lemma disabled_expiry_heap_grows_witness :
  ∃ s rs, run (new 1 true) sample_ops = Ok (s, rs) ∧ length s.(expiry) = 2%nat.
Proof.
  destruct (run (new 1 true) sample_ops) as [[s rs]| | |] eqn:H;
    [|exfalso; revert H; vm_compute; discriminate..].
  exists s, rs. split; [done|]. exact (disabled_expiry_heap_grows 1 sample_ops s rs H).
Defined.
