(* ===== verification/DnsFlight.v ===== *)
(** * Sharing a query between callers (src/src/dns/cache.rs, src/src/dns/mod.rs)

    [Flight] and the concurrent part of [DnsResolver::cached]: the first caller
    that misses the cache loads, the others wait for its result.  Tasks are
    interleaved at the places where the code takes a lock, calls the [Notify] of a
    flight or awaits; what the cache answers and what a load returns come from the
    history.  The type of keys and of values is a parameter: nothing here looks into
    them.  [Notify] is tokio's: a class with the one law its documentation gives, and
    an instance that counts the calls. *)

From S2P Require Import Prelude.

(** ** tokio's [Notify] *)

(** [notified] makes a future, here a ticket; [woken]: that future is ready when it
    is polled.  A ticket is woken by every [notify_waiters] after it was made, polled
    or not. *)
Class Notify := {
  notify : Type;
  ticket : Type;
  notify_new : notify;
  notified : notify → ticket;
  notify_waiters : notify → notify;
  woken : notify → ticket → bool;
  woken_later n k : woken (Nat.iter (S k) notify_waiters n) (notified n) = true;
}.

(** The calls are counted and a ticket remembers the count. *)
Lemma iter_succ_ne k n : negb (Nat.eqb (Nat.iter (S k) S n) n) = true.
Proof.
  apply negb_true_iff, Nat.eqb_neq.
  assert (E : ∀ j, Nat.iter j S n = (j + n)%nat) by (induction j as [|j IH]; [done|by rewrite Nat.iter_succ, IH]).
  rewrite E. lia.
Qed.

#[export] Instance counting_notify : Notify := {
  notify := nat; ticket := nat; notify_new := 0%nat; notified n := n; notify_waiters := S;
  woken n t := negb (Nat.eqb n t); woken_later n k := iter_succ_ne k n }.

Section flight.
Context {K V : Type} `{Countable K} {N : Notify}.

(** ** State *)

(** A flight is known by its number, since it is shared by reference. *)
Record Flight := mkFlight { Flight_result : option (result V); Flight_ready : notify }.

Definition Flight_new : Flight := mkFlight None notify_new.

(** Where a task is in [cached]: it missed the cache and is about to look for a
    flight; it is at the head of the loop of [Flight::wait]; it made its [notified]
    future and is about to look at the result; it awaits that future; it loads as the
    leader of a flight; it stored the result in the flight; it notified the waiters,
    the flight is still in the map; it has returned. *)
Inductive task :=
  | Missed (key : K)
  | Waiting (key : K) (flight : nat)
  | Registered (key : K) (flight : nat) (tk : ticket)
  | Asleep (key : K) (flight : nat) (tk : ticket)
  | Loading (key : K) (flight : nat)
  | Stored (key : K) (flight : nat) (r : result V)
  | Completed (key : K) (flight : nat) (r : result V)
  | Done (key : K) (r : result V).

Record state := mkState {
  flights : gmap K nat;
  store : list Flight;
  tasks : gmap nat task;
}.

Definition init : state := mkState ∅ [] ∅.

Definition set_task (s : state) (t : nat) (x : task) : state :=
  mkState s.(flights) s.(store) (<[t := x]> s.(tasks)).

(** A task ends without returning: its future was dropped or it panicked. *)
Definition end_task (s : state) (t : nat) : state :=
  mkState s.(flights) s.(store) (delete t s.(tasks)).

(** ** Steps *)

(** [Call]: a new task looks in the cache, which may hold a value.  [Join]: it
    takes the lock of the map.  [Register], [Check], [Wake]: the three places of a
    turn of [Flight::wait].  [Load]: the load of a leader ends; when it returned, its
    result is stored in the flight (the insertion into the cache is before it, under
    its own lock).  [Announce]: the leader notifies the waiters.  [Leave]: it removes
    the flight from the map and returns.  [Drop]: the future of a task is dropped at
    an await. *)
Inductive event :=
  | Call (t : nat) (key : K) (hit : option V)
  | Join (t : nat)
  | Register (t : nat)
  | Check (t : nat)
  | Wake (t : nat)
  | Load (t : nat) (r : result V)
  | Announce (t : nat)
  | Leave (t : nat)
  | Drop (t : nat).

Definition join (s : state) (t : nat) (key : K) : state :=
  match s.(flights) !! key with
  | Some f => set_task s t (Waiting key f)
  | None =>
    let f := length s.(store) in
    mkState (<[key := f]> s.(flights)) (s.(store) ++ [Flight_new]) (<[t := Loading key f]> s.(tasks))
  end.

(** [Flight::wait]: [let notified = self.ready.notified()]. *)
Definition wait_register (s : state) (t : nat) (key : K) (f : nat) : state :=
  match s.(store) !! f with
  | Some fl => set_task s t (Registered key f (notified fl.(Flight_ready)))
  | None => s
  end.

(** [Flight::wait]: return the result when there is one, otherwise [notified.await]. *)
Definition wait_check (s : state) (t : nat) (key : K) (f : nat) (tk : ticket) : state :=
  match s.(store) !! f with
  | Some fl => set_task s t (match fl.(Flight_result) with Some r => Done key r | None => Asleep key f tk end)
  | None => s
  end.

(** [Flight::wait]: the awaited future is polled; when it is ready the loop turns. *)
Definition wait_wake (s : state) (t : nat) (key : K) (f : nat) (tk : ticket) : state :=
  match s.(store) !! f with
  | Some fl => if woken fl.(Flight_ready) tk then set_task s t (Waiting key f) else s
  | None => s
  end.

(** [Flight::complete] by the leader: the result is stored under the lock. *)
Definition complete_store (s : state) (t : nat) (key : K) (f : nat) (r : result V) : state :=
  mkState s.(flights) (alter (λ fl, mkFlight (Some r) fl.(Flight_ready)) f s.(store)) (<[t := Stored key f r]> s.(tasks)).

(** [Flight::complete] by the leader: [self.ready.notify_waiters()]. *)
Definition complete_notify (s : state) (t : nat) (key : K) (f : nat) (r : result V) : state :=
  mkState s.(flights) (alter (λ fl, mkFlight fl.(Flight_result) (notify_waiters fl.(Flight_ready))) f s.(store))
    (<[t := Completed key f r]> s.(tasks)).

Definition leave (s : state) (t : nat) (key : K) (r : result V) : state :=
  mkState (delete key s.(flights)) s.(store) (<[t := Done key r]> s.(tasks)).

(** The task and its place decide which events mean something: a future is dropped
    only where it awaits, and a load that panics ends the leader's task before
    [complete]; one that does not end never reaches it. *)
Definition step_task (s : state) (e : event) (t : nat) (x : task) : state :=
  match e, x with
  | Join _, Missed key => join s t key
  | Register _, Waiting key f => wait_register s t key f
  | Check _, Registered key f tk => wait_check s t key f tk
  | Wake _, Asleep key f tk => wait_wake s t key f tk
  | Load _ (Ok v), Loading key f => complete_store s t key f (Ok v)
  | Load _ (Err m), Loading key f => complete_store s t key f (Err m)
  | Load _ Panic, Loading _ _ => end_task s t
  | Announce _, Stored key f r => complete_notify s t key f r
  | Leave _, Completed key f r => leave s t key r
  | Drop _, Loading _ _ | Drop _, Asleep _ _ _ => end_task s t
  | _, _ => s
  end.

(** The task of an event. *)
Definition actor (e : event) : nat :=
  match e with
  | Call t _ _ | Join t | Register t | Check t | Wake t | Load t _ | Announce t | Leave t | Drop t => t
  end.

Definition step (s : state) (e : event) : state :=
  match s.(tasks) !! actor e, e with
  | None, Call t key hit => set_task s t (match hit with Some v => Done key (Ok v) | None => Missed key end)
  | None, _ => s
  | Some x, e => step_task s e (actor e) x
  end.

Definition run (s : state) (es : list event) : state := fold_left step es s.

(** ** The invariant *)

(** The flight a task leads, the flight it waits for, each with its key, and the
    result it gave to its flight. *)
Definition leads (x : task) : option (K * nat) :=
  match x with Loading key f | Stored key f _ | Completed key f _ => Some (key, f) | _ => None end.

Definition waits (x : task) : option (K * nat) :=
  match x with Waiting key f | Registered key f _ | Asleep key f _ => Some (key, f) | _ => None end.

Definition gave (x : task) : option (nat * result V) :=
  match x with Stored _ f r | Completed _ f r => Some (f, r) | _ => None end.

Definition result_of (s : state) (f : nat) : option (option (result V)) := Flight_result <$> s.(store) !! f.

Record flight_ok (s : state) : Prop := {
  leader_registered t x key f : s.(tasks) !! t = Some x → leads x = Some (key, f) →
    s.(flights) !! key = Some f;
  leader_unique t t' x x' k k' f : s.(tasks) !! t = Some x → s.(tasks) !! t' = Some x' →
    leads x = Some (k, f) → leads x' = Some (k', f) → t = t';
  loading_empty t key f : s.(tasks) !! t = Some (Loading key f) → result_of s f = Some None;
  gave_stored t x f r : s.(tasks) !! t = Some x → gave x = Some (f, r) → result_of s f = Some (Some r);
  waiting_known t x key f : s.(tasks) !! t = Some x → waits x = Some (key, f) → (f < length s.(store))%nat;
  registered_known key f : s.(flights) !! key = Some f → (f < length s.(store))%nat;
  registered_inj k k' f : s.(flights) !! k = Some f → s.(flights) !! k' = Some f → k = k';
}.

(** A ticket was made [k] notifications ago. *)
Definition issued (s : state) (f : nat) (tk : ticket) (k : nat) (fl : Flight) : Prop :=
  s.(store) !! f = Some fl ∧ ∃ n, tk = notified n ∧ fl.(Flight_ready) = Nat.iter k notify_waiters n.

(** A flight whose leader stored the result and is about to notify. *)
Definition announcing (s : state) (f : nat) : Prop := ∃ t key r, s.(tasks) !! t = Some (Stored key f r).

(** A task asleep has a ticket that is woken already, or that will be: the result is
    not there yet, or the leader is about to notify. *)
Definition ticket_ok (s : state) (x : task) : Prop :=
  match x with
  | Registered _ f tk => ∃ k fl, issued s f tk k fl
  | Asleep _ f tk => ∃ k fl, issued s f tk k fl ∧ (fl.(Flight_result) = None ∨ announcing s f ∨ (0 < k)%nat)
  | _ => True
  end.

Definition tickets_ok (s : state) : Prop := ∀ t x, s.(tasks) !! t = Some x → ticket_ok s x.

Lemma init_ok : flight_ok init.
Proof. split; intros *; cbn; rewrite ?lookup_empty; done. Qed.

(** A task that leads nothing takes the place of one that led nothing. *)
Lemma set_task_ok s t x :
  flight_ok s → leads x = None → gave x = None → (∀ x', s.(tasks) !! t = Some x' → leads x' = None) →
  (∀ key f, waits x = Some (key, f) → (f < length s.(store))%nat) → flight_ok (set_task s t x).
Proof.
  intros [H1 H2 H3 H4 H5 H6 H7] Hx Hg Ht Hw. split; cbn; eauto.
  - intros t' x' key f [[<- <-]|[_ ?]]%lookup_insert_Some; [congruence|eauto].
  - intros t' t'' x' x'' k k' f [[<- <-]|[_ ?]]%lookup_insert_Some [[<- <-]|[_ ?]]%lookup_insert_Some; try congruence; eauto.
  - intros t' key f [[_ ->]|[_ ?]]%lookup_insert_Some; [done|eauto].
  - intros t' x' f r [[_ <-]|[_ ?]]%lookup_insert_Some; [congruence|eauto].
  - intros t' x' key f [[_ <-]|[_ ?]]%lookup_insert_Some; eauto.
Qed.

(** A flight alone changes, and its leader with it. *)
Lemma result_of_alter s t x f f' g fs :
  result_of (mkState fs (alter g f s.(store)) (<[t := x]> s.(tasks))) f' =
  if decide (f = f') then Flight_result ∘ g <$> s.(store) !! f' else result_of s f'.
Proof.
  unfold result_of. cbn. case_decide as E; [subst|by rewrite list_lookup_alter_ne].
  rewrite list_lookup_alter_eq. by destruct (_ !! f').
Qed.

Lemma lead_step_ok s t x x' key f g :
  flight_ok s → s.(tasks) !! t = Some x → leads x = Some (key, f) → leads x' = Some (key, f) →
  (∀ k f', x' ≠ Loading k f') → waits x' = None →
  (∀ f' r, gave x' = Some (f', r) → f' = f ∧ Flight_result ∘ g <$> s.(store) !! f = Some (Some r)) →
  flight_ok (mkState s.(flights) (alter g f s.(store)) (<[t := x']> s.(tasks))).
Proof.
  intros Hok Ht Hx Hx' Hn Hw Hg. pose proof Hok as [H1 H2 H3 H4 H5 H6 H7].
  assert (Hother : ∀ t' y k f', t' ≠ t → s.(tasks) !! t' = Some y → leads y = Some (k, f') → f ≠ f').
  { intros t' y k f' Hne Hy Hl ->. by eapply Hne, H2. }
  split; cbn [flights store tasks]; rewrite ?length_alter; eauto.
  - intros t' y k f' [[<- <-]|[_ Hy]]%lookup_insert_Some Hl; [rewrite Hl in Hx'; injection Hx' as -> ->|]; eauto.
  - intros t' t'' y y' k k' f' [[<- <-]|[Hne Hy]]%lookup_insert_Some [[<- <-]|[Hne' Hy']]%lookup_insert_Some Hl Hl'; eauto.
    + rewrite Hl in Hx'. injection Hx' as -> ->. by eapply H2.
    + rewrite Hl' in Hx'. injection Hx' as -> ->. by eapply H2.
  - intros t' k f' [[_ E]|[Hne Hy]]%lookup_insert_Some; [by destruct (Hn k f')|].
    rewrite result_of_alter, decide_False by (by eapply Hother). eauto.
  - intros t' y f' r [[<- <-]|[Hne Hy]]%lookup_insert_Some Hl; rewrite result_of_alter.
    + destruct (Hg _ _ Hl) as [-> Hr]. by rewrite decide_True.
    + destruct y as [| | | | |k g' r'|k g' r'|]; try done; injection Hl as -> ->;
        (rewrite decide_False by (by eapply Hother); by eapply H4).
  - intros t' y k f' [[_ <-]|[_ Hy]]%lookup_insert_Some; [congruence|eauto].
Qed.

Lemma join_ok s t key : flight_ok s → s.(tasks) !! t = Some (Missed key) → flight_ok (join s t key).
Proof.
  intros Hok Ht. unfold join. destruct (s.(flights) !! key) as [f|] eqn:Hf.
  { apply set_task_ok; [done..| |].
    - intros x' Hx. rewrite Ht in Hx. by injection Hx as <-.
    - intros ?? [= <- <-]. by eapply registered_known. }
  destruct Hok as [H1 H2 H3 H4 H5 H6 H7].
  assert (Hnew : ∀ t' x k f, s.(tasks) !! t' = Some x → leads x = Some (k, f) → (f < length s.(store))%nat ∧ k ≠ key).
  { intros t' x k f Hx Hl. pose proof (H1 _ _ _ _ Hx Hl). split; [by eapply H6|congruence]. }
  assert (Hres : ∀ fs ts f o, result_of s f = Some o → result_of (mkState fs (s.(store) ++ [Flight_new]) ts) f = Some o).
  { unfold result_of. cbn. intros _ _ f o (fl & Hl & ->)%fmap_Some. by rewrite (lookup_app_l_Some _ _ _ _ Hl). }
  split; cbn [flights store tasks].
  - intros t' x k f [[<- <-]|[_ Hx]]%lookup_insert_Some Hl; [injection Hl as <- <-; apply lookup_insert_eq|].
    destruct (Hnew _ _ _ _ Hx Hl). rewrite lookup_insert_ne by done. eauto.
  - intros t' t'' x x' k k' f [[<- <-]|[_ Hx]]%lookup_insert_Some [[<- <-]|[_ Hx']]%lookup_insert_Some Hl Hl'; eauto.
    + injection Hl as _ <-. destruct (Hnew _ _ _ _ Hx' Hl'). lia.
    + injection Hl' as _ <-. destruct (Hnew _ _ _ _ Hx Hl). lia.
  - intros t' k f [[_ [= <- <-]]|[_ Hx]]%lookup_insert_Some; [unfold result_of; cbn; by rewrite list_lookup_middle|].
    apply Hres. eauto.
  - intros t' x f r [[_ <-]|[_ Hx]]%lookup_insert_Some Hl; [done|]. apply Hres. eauto.
  - intros t' x k f [[_ <-]|[_ Hx]]%lookup_insert_Some Hl; [done|]. rewrite length_app. eapply H5 in Hx; [|done]. lia.
  - intros k f [[_ <-]|[_ Hx]]%lookup_insert_Some; rewrite length_app; cbn; [lia|]. apply H6 in Hx. lia.
  - intros k k' f [[<- <-]|[? Hx]]%lookup_insert_Some [[<- E]|[? Hx']]%lookup_insert_Some; eauto.
    + apply H6 in Hx'. lia.
    + apply H6 in Hx. lia.
Qed.

Lemma leave_ok s t key f r :
  flight_ok s → s.(tasks) !! t = Some (Completed key f r) → flight_ok (leave s t key r).
Proof.
  intros [H1 H2 H3 H4 H5 H6 H7] Ht. pose proof (H1 _ _ _ _ Ht eq_refl) as Hf.
  split; cbn [flights store tasks leave].
  - intros t' x k f' [[<- <-]|[Hne Hx]]%lookup_insert_Some Hl; [done|].
    pose proof (H1 _ _ _ _ Hx Hl) as Hk. rewrite lookup_delete_ne; [done|]. intros <-.
    rewrite Hf in Hk. injection Hk as <-. by eapply Hne, H2.
  - intros t' t'' x x' k k' f' [[<- <-]|[_ ?]]%lookup_insert_Some [[<- <-]|[_ ?]]%lookup_insert_Some ??; try done. eauto.
  - intros t' k f' [[_ [=]]|[_ ?]]%lookup_insert_Some. by eapply H3.
  - intros t' x f' r' [[_ <-]|[_ ?]]%lookup_insert_Some ?; [done|]. by eapply H4.
  - intros t' x k f' [[_ <-]|[_ ?]]%lookup_insert_Some; [done|eauto].
  - intros k f' [_ ?]%lookup_delete_Some. eauto.
  - intros k k' f' [_ ?]%lookup_delete_Some [_ ?]%lookup_delete_Some. eauto.
Qed.

Lemma end_ok s t : flight_ok s → flight_ok (end_task s t).
Proof.
  intros [H1 H2 H3 H4 H5 H6 H7]. split; cbn [flights store tasks end_task]; eauto; intros *.
  - intros [_ ?]%lookup_delete_Some. eauto.
  - intros [_ ?]%lookup_delete_Some [_ ?]%lookup_delete_Some. eauto.
  - intros [_ ?]%lookup_delete_Some. by eapply H3.
  - intros [_ ?]%lookup_delete_Some. by eapply H4.
  - intros [_ ?]%lookup_delete_Some. eauto.
Qed.

(** What a step does, case by case. *)
Definition returned (r : result V) : Prop := match r with Ok _ | Err _ => True | _ => False end.

Inductive stepped (s : state) : event → state → Prop :=
  | stepped_not e : stepped s e s
  | stepped_call t key hit x : s.(tasks) !! t = None → leads x = None → waits x = None → gave x = None →
      stepped s (Call t key hit) (set_task s t x)
  | stepped_join t key : s.(tasks) !! t = Some (Missed key) → stepped s (Join t) (join s t key)
  | stepped_register t key f fl : s.(tasks) !! t = Some (Waiting key f) → s.(store) !! f = Some fl →
      stepped s (Register t) (set_task s t (Registered key f (notified fl.(Flight_ready))))
  | stepped_return t key f tk fl r : s.(tasks) !! t = Some (Registered key f tk) → s.(store) !! f = Some fl →
      fl.(Flight_result) = Some r → stepped s (Check t) (set_task s t (Done key r))
  | stepped_sleep t key f tk fl : s.(tasks) !! t = Some (Registered key f tk) → s.(store) !! f = Some fl →
      fl.(Flight_result) = None → stepped s (Check t) (set_task s t (Asleep key f tk))
  | stepped_wake t key f tk fl : s.(tasks) !! t = Some (Asleep key f tk) → s.(store) !! f = Some fl →
      woken fl.(Flight_ready) tk = true → stepped s (Wake t) (set_task s t (Waiting key f))
  | stepped_load t key f r : s.(tasks) !! t = Some (Loading key f) → returned r →
      stepped s (Load t r) (complete_store s t key f r)
  | stepped_panic t key f : s.(tasks) !! t = Some (Loading key f) → stepped s (Load t Panic) (end_task s t)
  | stepped_announce t key f r : s.(tasks) !! t = Some (Stored key f r) →
      stepped s (Announce t) (complete_notify s t key f r)
  | stepped_leave t key f r : s.(tasks) !! t = Some (Completed key f r) → stepped s (Leave t) (leave s t key r)
  | stepped_drop t x : s.(tasks) !! t = Some x → gave x = None → stepped s (Drop t) (end_task s t).

Lemma step_stepped s e : stepped s e (step s e).
Proof.
  unfold step. destruct (s.(tasks) !! actor e) as [x|] eqn:Ht.
  2: { destruct e as [t key hit| | | | | | | |]; try constructor; destruct hit; done. }
  destruct e as [| | | | |? []| | |], x; cbn [step_task actor] in *; try (by constructor); try (by econstructor; eauto).
  - unfold wait_register. destruct (s.(store) !! _) eqn:?; [by econstructor|constructor].
  - unfold wait_check. destruct (s.(store) !! _) as [fl|] eqn:?; [|constructor].
    destruct (Flight_result fl) eqn:?; by econstructor.
  - unfold wait_wake. destruct (s.(store) !! _) as [fl|] eqn:?; [|constructor].
    destruct (woken _ _) eqn:?; [by econstructor|constructor].
Qed.

Lemma flight_step_ok s e : flight_ok s → flight_ok (step s e).
Proof.
  intros Hok. destruct (step_stepped s e).
  - done.
  - apply set_task_ok; try done; [naive_solver|congruence].
  - by apply join_ok.
  - apply set_task_ok; try done; [naive_solver|]. intros ?? [= <- <-]. by eapply lookup_lt_Some.
  - apply set_task_ok; try done. naive_solver.
  - apply set_task_ok; try done; [naive_solver|]. intros ?? [= <- <-]. by eapply lookup_lt_Some.
  - apply set_task_ok; try done; [naive_solver|]. intros ?? [= <- <-]. by eapply lookup_lt_Some.
  - eapply lead_step_ok; try done. intros f' r' [= <- <-]. split; [done|].
    pose proof (loading_empty _ Hok _ _ _ H0) as (fl & Hfl & _)%fmap_Some. by rewrite Hfl.
  - by apply end_ok.
  - eapply lead_step_ok; try done. intros f' r' [= <- <-]. split; [done|].
    pose proof (gave_stored _ Hok _ _ _ _ H0 eq_refl) as (fl & Hfl & Hr)%fmap_Some. rewrite Hfl. cbn. by f_equal.
  - by eapply leave_ok.
  - by apply end_ok.
Qed.

Lemma flight_run_ok es s : flight_ok s → flight_ok (run s es).
Proof. revert s. induction es as [|e es IH]; cbn; intros s Hs; [done|]. by apply IH, flight_step_ok. Qed.

Lemma flight_run_app s es es' : run s (es ++ es') = run (run s es) es'.
Proof. apply fold_left_app. Qed.

(** Whatever the order of callers, at most one of them loads a key at a time. *)
Theorem one_load_per_key es t t' key f f' :
  (run init es).(tasks) !! t = Some (Loading key f) →
  (run init es).(tasks) !! t' = Some (Loading key f') → t = t' ∧ f = f'.
Proof.
  intros Ht Ht'. pose proof (flight_run_ok es init init_ok) as Hok.
  pose proof (leader_registered _ Hok _ _ _ _ Ht eq_refl) as Hf.
  pose proof (leader_registered _ Hok _ _ _ _ Ht' eq_refl) as Hf'.
  rewrite Hf in Hf'. injection Hf' as <-. split; [|done].
  by eapply (leader_unique _ Hok t t' _ _ key key f).
Qed.

(** ** Waiters get the leader's result *)

Lemma announcing_kept s fs st t x f :
  announcing s f → (∀ key r, s.(tasks) !! t ≠ Some (Stored key f r)) →
  announcing (mkState fs st (<[t := x]> s.(tasks))) f.
Proof.
  intros (t' & k & r & Ht') Ht. exists t', k, r. cbn. rewrite lookup_insert_ne; [done|].
  intros ->. by eapply Ht.
Qed.

Lemma announcing_end s t y f : announcing s f → s.(tasks) !! t = Some y → gave y = None → announcing (end_task s t) f.
Proof. intros (t' & k & r & Ht') Ht Hy. exists t', k, r. cbn. rewrite lookup_delete_ne; [done|]. intros ->. naive_solver. Qed.

(** What a step may do to a flight: notify its waiters some number of times, give it
    a first result.  The leader that gave the result notifies after that. *)
Lemma evolve s e f fl :
  flight_ok s → s.(store) !! f = Some fl →
  ∃ fl' j, (step s e).(store) !! f = Some fl' ∧ fl'.(Flight_ready) = Nat.iter j notify_waiters fl.(Flight_ready) ∧
    (fl.(Flight_result) = None ∨ announcing s f →
     fl'.(Flight_result) = None ∨ announcing (step s e) f ∨ (0 < j)%nat) ∧
    (∀ r, fl.(Flight_result) = Some r → fl'.(Flight_result) = Some r).
Proof.
  intros Hok Hf.
  assert (Hsame : ∀ s', s'.(store) !! f = Some fl → (announcing s f → announcing s' f) →
    ∃ fl' j, s'.(store) !! f = Some fl' ∧ fl'.(Flight_ready) = Nat.iter j notify_waiters fl.(Flight_ready) ∧
      (fl.(Flight_result) = None ∨ announcing s f → fl'.(Flight_result) = None ∨ announcing s' f ∨ (0 < j)%nat) ∧
      (∀ r, fl.(Flight_result) = Some r → fl'.(Flight_result) = Some r)).
  { intros s' ??. exists fl, 0%nat. naive_solver. }
  destruct (step_stepped s e) as [|t key hit x Ht|t key Ht|t key g fl' Ht|t key g tk fl' r Ht|t key g tk fl' Ht
    |t key g tk fl' Ht|t key g r Ht|t key g Ht|t key g r Ht|t key g r Ht|t x Ht];
    try (apply Hsame; [done|]; intros; apply announcing_kept; [done|naive_solver]).
  - by apply Hsame.
  - unfold join. destruct (s.(flights) !! key); apply Hsame; cbn; try done; [| by apply lookup_app_l_Some|].
    all: intros; apply announcing_kept; [done|naive_solver].
  - destruct (decide (g = f)) as [->|Hne].
    + exists (mkFlight (Some r) fl.(Flight_ready)), 0%nat. cbn. rewrite list_lookup_alter_eq, Hf. split_and!; [done..| |].
      * intros _. right; left. exists t, key, r. apply lookup_insert_eq.
      * apply (loading_empty _ Hok) in Ht. unfold result_of in Ht. rewrite Hf in Ht. naive_solver.
    + apply Hsame; [cbn; by rewrite list_lookup_alter_ne|]. intros; apply announcing_kept; [done|naive_solver].
  - apply Hsame; [done|]. intros; by eapply announcing_end.
  - destruct (decide (g = f)) as [->|Hne].
    + exists (mkFlight fl.(Flight_result) (notify_waiters fl.(Flight_ready))), 1%nat. cbn.
      rewrite list_lookup_alter_eq, Hf. naive_solver lia.
    + apply Hsame; [cbn; by rewrite list_lookup_alter_ne|]. intros; apply announcing_kept; [done|naive_solver].
  - apply Hsame; [done|]. intros; by eapply announcing_end.
Qed.

Lemma iter_notify j k (n : notify) :
  Nat.iter j notify_waiters (Nat.iter k notify_waiters n) = Nat.iter (j + k) notify_waiters n.
Proof. by rewrite Nat.iter_add. Qed.

(** The tickets of the tasks a step leaves alone. *)
Lemma ticket_kept s e x : flight_ok s → ticket_ok s x → ticket_ok (step s e) x.
Proof.
  intros Hok. destruct x as [| |key f tk|key f tk| | | |]; try done; cbn.
  - intros (k & fl & Hf & n & -> & Hn). destruct (evolve s e f fl Hok Hf) as (fl' & j & Hf' & Hr & _).
    exists (j + k)%nat, fl'. split; [done|]. exists n. by rewrite Hr, Hn, iter_notify.
  - intros (k & fl & (Hf & n & -> & Hn) & Hc). destruct (evolve s e f fl Hok Hf) as (fl' & j & Hf' & Hr & Hc' & _).
    exists (j + k)%nat, fl'. split; [split; [done|]; exists n; by rewrite Hr, Hn, iter_notify|].
    destruct Hc as [?|[?|?]]; [| |right; right; lia]; (destruct Hc' as [?|[?|?]]; [auto|auto|auto|right; right; lia]).
Qed.

Lemma tickets_step s e : flight_ok s → tickets_ok s → tickets_ok (step s e).
Proof.
  intros Hok Hs t' x'. pose proof (λ x, ticket_kept s e x Hok) as Hk. revert Hk.
  destruct (step_stepped s e) as [|t key hit x Ht _ Hw|t key Ht|t key g fl Ht Hg|t key g tk fl r Ht|t key g tk fl Ht Hg Hr
    |t key g tk fl Ht|t key g r Ht|t key g Ht|t key g r Ht|t key g r Ht|t x Ht]; intros Hk; try (by eauto).
  all: cbn [tasks set_task complete_store complete_notify leave end_task].
  all: try (by intros [_ ?]%lookup_delete_Some; eauto).
  all: try (by intros [[<- <-]|[_ ?]]%lookup_insert_Some; [|eauto]).
  - intros [[<- <-]|[_ ?]]%lookup_insert_Some; [by destruct x|eauto].
  - unfold join in *. destruct (s.(flights) !! key); cbn [tasks set_task]; intros [[<- <-]|[_ ?]]%lookup_insert_Some; by eauto.
  - intros [[<- <-]|[_ ?]]%lookup_insert_Some; [|eauto]. exists 0%nat, fl. split; [done|]. by eexists.
  - intros [[<- <-]|[_ ?]]%lookup_insert_Some; [|eauto]. destruct (Hs _ _ Ht) as (k & fl' & Hf & Hn).
    exists k, fl'. split; [done|]. left. naive_solver.
Qed.

Lemma tickets_run es : tickets_ok (run init es).
Proof.
  induction es as [|e es IH] using rev_ind; [by intros t x; cbn; rewrite lookup_empty|].
  rewrite flight_run_app. apply tickets_step; [apply flight_run_ok, init_ok|done].
Qed.

(** The result of a flight was stored and its waiters were notified. *)
Definition announced (s : state) (f : nat) (r : result V) : Prop :=
  result_of s f = Some (Some r) ∧ ¬ announcing s f.

Lemma result_kept s e f r : flight_ok s → result_of s f = Some (Some r) → result_of (step s e) f = Some (Some r).
Proof.
  unfold result_of. intros Hok (fl & Hf & Hr)%fmap_Some. destruct (evolve s e f fl Hok Hf) as (fl' & j & -> & _ & _ & Hk).
  cbn. by rewrite (Hk r).
Qed.

Lemma announced_step s e f r : flight_ok s → announced s f r → announced (step s e) f r.
Proof.
  intros Hok [Hr Hn]. split; [by apply result_kept|].
  destruct (step_stepped s e) as [|t key hit x Ht|t key Ht|t key g fl Ht|t key g tk fl r' Ht|t key g tk fl Ht
    |t key g tk fl Ht|t key g r' Ht|t key g Ht|t key g r' Ht|t key g r' Ht|t x Ht]; try done;
    intros (t' & k & r'' & Ht'); apply Hn; cbn [tasks set_task complete_store complete_notify leave end_task] in Ht'.
  2: { unfold join in Ht'. destruct (s.(flights) !! key); cbn in Ht'; apply lookup_insert_Some in Ht' as [[_ [=]]|[_ ?]]; by exists t', k, r''. }
  all: try (apply lookup_delete_Some in Ht' as [_ ?]; by exists t', k, r'').
  all: apply lookup_insert_Some in Ht' as [[<- E]|[_ ?]]; [try done|by exists t', k, r''].
  - by subst x.
  - injection E as <- -> <-. apply (loading_empty _ Hok) in Ht. congruence.
Qed.

Lemma announced_run es s f r : flight_ok s → announced s f r → announced (run s es) f r.
Proof.
  revert s. induction es as [|e es IH]; cbn; intros s Hok Ha; [done|].
  apply IH; [by apply flight_step_ok|by apply announced_step].
Qed.

(** A waiter that is not dropped goes on waiting, or has returned the result of its
    flight. *)
Definition served (s : state) (x : task) (key : K) (f : nat) : Prop :=
  waits x = Some (key, f) ∨ ∃ r, x = Done key r ∧ result_of s f = Some (Some r).

Lemma other_task s e t : actor e ≠ t → (step s e).(tasks) !! t = s.(tasks) !! t.
Proof.
  intros Hne. destruct (step_stepped s e) as [| |t' key Ht'| | | | | | | | |]; cbn in *;
    rewrite ?lookup_insert_ne, ?lookup_delete_ne; try done.
  unfold join. destruct (s.(flights) !! key); cbn; by rewrite lookup_insert_ne.
Qed.

Lemma served_step s e t x key f :
  flight_ok s → s.(tasks) !! t = Some x → served s x key f → e ≠ Drop t →
  ∃ x', (step s e).(tasks) !! t = Some x' ∧ served (step s e) x' key f.
Proof.
  intros Hok Ht Hx He.
  assert (Hkeep : (step s e).(tasks) !! t = Some x → ∃ x', (step s e).(tasks) !! t = Some x' ∧ served (step s e) x' key f).
  { intros Hx'. exists x. split; [done|]. destruct Hx as [Hx|(r & -> & Hr)]; [by left|right]. eauto using result_kept. }
  destruct (decide (actor e = t)) as [<-|Hne].
  2: { apply Hkeep. by rewrite other_task. }
  unfold step in *. rewrite Ht in *. destruct Hx as [Hx|(r & -> & Hr)].
  2: { apply Hkeep. by destruct e as [| | | | |? []| | |]. }
  destruct x as [|k g|k g tk|k g tk| | | |]; try done; injection Hx as -> ->.
  all: destruct e as [| | | | |? []| | |]; try (by apply Hkeep); try done; cbn [step_task actor] in *.
  - unfold wait_register. destruct (s.(store) !! f) as [fl|]; [|by exists (Waiting key f); split; [|left]].
    eexists. split; [apply lookup_insert_eq|by left].
  - unfold wait_check. destruct (s.(store) !! f) as [fl|] eqn:Hf; [|by eexists; split; [|left]].
    eexists. split; [apply lookup_insert_eq|]. destruct (Flight_result fl) as [r|] eqn:Hr; [|by left].
    right. exists r. split; [done|]. unfold result_of. cbn. by rewrite Hf, <- Hr.
  - unfold wait_wake. destruct (s.(store) !! f) as [fl|]; [|by eexists; split; [|left]].
    destruct (woken _ _); eexists; (split; [apply lookup_insert_eq || done|by left]).
Qed.

Lemma served_run es s t x key f :
  flight_ok s → s.(tasks) !! t = Some x → served s x key f → Forall (λ e, e ≠ Drop t) es →
  ∃ x', (run s es).(tasks) !! t = Some x' ∧ served (run s es) x' key f.
Proof.
  revert s x. induction es as [|e es IH]; intros s x Hok Ht Hx Hes; [by exists x|].
  apply Forall_cons in Hes as [He Hes]. destruct (served_step s e t x key f) as (x' & Ht' & Hx'); [done..|].
  eapply IH; [by apply flight_step_ok|done..].
Qed.

(** The turns a waiter has left, at most: to wake, to register, to check. *)
Definition rank (x : task) : nat :=
  match x with Asleep _ _ _ => 3 | Waiting _ _ => 2 | Registered _ _ _ => 1 | _ => 0 end.

Definition turn (t n : nat) : event :=
  match n with 3%nat => Wake t | 2%nat => Register t | _ => Check t end.

Fixpoint turns (t n : nat) : list event :=
  match n with O => [] | S m => turn t (S m) :: turns t m end.

(** Once the flight was announced, no event takes a waiter back, and its turn takes
    it on: this is where a waiter asleep needs its notification. *)
Lemma rank_step s e t x x' key f r :
  flight_ok s → tickets_ok s → announced s f r → s.(tasks) !! t = Some x → served s x key f → e ≠ Drop t →
  (step s e).(tasks) !! t = Some x' →
  (rank x' ≤ rank x)%nat ∧ (e = turn t (rank x) → rank x ≠ 0%nat → (rank x' < rank x)%nat).
Proof.
  intros Hok Htk [Hr Hn] Ht Hx He Hx'.
  destruct (decide (actor e = t)) as [<-|Hne].
  2: { rewrite other_task, Ht in Hx' by done. injection Hx' as <-. split; [done|]. intros ->.
       destruct (rank x) as [|[|[|[]]]]; cbn in Hne; done. }
  unfold step in Hx'. rewrite Ht in Hx'. apply fmap_Some in Hr as (fl & Hf & Hr).
  destruct Hx as [Hx|(r' & -> & _)].
  2: { by destruct e as [| | | | |? []| | |]; cbn in Ht, Hx'; rewrite Ht in Hx'; injection Hx' as <-. }
  destruct x as [|k g|k g tk|k g tk| | | |]; try done; injection Hx as -> ->.
  all: destruct e as [| | | | |? []| | |]; try done; cbn [step_task actor] in *;
    try (rewrite Ht in Hx'; injection Hx' as <-; split; [done|discriminate]).
  - unfold wait_register in Hx'. rewrite Hf in Hx'. cbn in Hx'. rewrite lookup_insert_eq in Hx'. injection Hx' as <-. cbn; lia.
  - unfold wait_check in Hx'. rewrite Hf, <- Hr in Hx'. cbn in Hx'. rewrite lookup_insert_eq in Hx'. injection Hx' as <-. cbn; lia.
  - destruct (Htk _ _ Ht) as (k & fl' & (Hf' & n & -> & Hk) & Hc). rewrite Hf in Hf'. injection Hf' as <-.
    unfold wait_wake in Hx'. rewrite Hf, Hk in Hx'.
    destruct k as [|k]; [destruct Hc as [?|[?|?]]; [congruence|done|lia]|].
    rewrite woken_later in Hx'. cbn in Hx'. rewrite lookup_insert_eq in Hx'. injection Hx' as <-. cbn; lia.
Qed.

Lemma turns_served es s t x key f r n :
  flight_ok s → tickets_ok s → announced s f r → s.(tasks) !! t = Some x → served s x key f →
  Forall (λ e, e ≠ Drop t) es → (rank x ≤ n)%nat → turns t n `sublist_of` es →
  (run s es).(tasks) !! t = Some (Done key r).
Proof.
  revert s x n. induction es as [|e es IH]; intros s x n Hok Htk Ha Ht Hx Hes Hn Hsub.
  - apply sublist_nil_r in Hsub. destruct n; [|done]. destruct Hx as [Hx|(r' & -> & Hr')]; [destruct x; cbn in *; done || lia|].
    destruct Ha as [Hr _]. rewrite Hr in Hr'. by injection Hr' as ->.
  - apply Forall_cons in Hes as [He Hes]. destruct (served_step s e t x key f) as (x' & Ht' & Hx'); [done..|].
    destruct (rank_step s e t x x' key f r) as [Hle Hlt]; try done. cbn [run fold_left].
    assert (Hnext : ∀ m, (rank x' ≤ m)%nat → turns t m `sublist_of` es → (run (step s e) es).(tasks) !! t = Some (Done key r)).
    { intros m Hm Hm'. eapply IH; eauto using flight_step_ok, tickets_step, announced_step. }
    apply sublist_cons_r in Hsub as [Hsub|(l & Hl & Hsub)]; [apply (Hnext n); [lia|done]|].
    destruct n as [|m]; [done|]. injection Hl as <- <-. apply (Hnext m); [|done].
    destruct (decide (rank x = S m)) as [E|]; [|lia]. rewrite E in Hlt. specialize (Hlt eq_refl). lia.
Qed.

(** The leader of a flight panics or is dropped while it loads. *)
Definition leader_lost (s : state) (e : event) : bool :=
  match e with
  | Drop t | Load t Panic => match s.(tasks) !! t with Some (Loading _ _) => true | _ => false end
  | _ => false
  end.

Fixpoint no_leader_lost (s : state) (es : list event) : bool :=
  match es with [] => true | e :: es' => negb (leader_lost s e) && no_leader_lost (step s e) es' end.

(** Then a flight that nobody has completed has its leader at work. *)
Definition attended (s : state) : Prop :=
  ∀ f, result_of s f = Some None → ∃ t key, s.(tasks) !! t = Some (Loading key f).

Lemma attended_set s fs t x :
  attended s → (∀ key f, s.(tasks) !! t ≠ Some (Loading key f)) → attended (mkState fs s.(store) (<[t := x]> s.(tasks))).
Proof.
  intros Ha Ht f Hf. destruct (Ha f Hf) as (t' & k & Ht'). exists t', k. cbn.
  rewrite lookup_insert_ne; [done|]. intros ->. by eapply Ht.
Qed.

Lemma attended_step s e : flight_ok s → attended s → leader_lost s e = false → attended (step s e).
Proof.
  intros Hok Ha. destruct (step_stepped s e) as [|t key hit x Ht|t key Ht|t key g fl Ht|t key g tk fl r Ht|t key g tk fl Ht
    |t key g tk fl Ht|t key g r Ht|t key g Ht|t key g r Ht|t key g r Ht|t x Ht]; cbn [leader_lost]; rewrite ?Ht; try done.
  all: intros Hl; try (apply attended_set; [done|naive_solver]).
  - unfold join. destruct (s.(flights) !! key) as [g|]; [apply attended_set; [done|naive_solver]|].
    intros f. unfold result_of. cbn. intros (fl & [Hf|[Hge Hf]]%lookup_app_Some & Hr)%fmap_Some.
    + destruct (Ha f) as (t' & k & Ht'); [unfold result_of; by rewrite Hf, Hr|]. exists t', k.
      rewrite lookup_insert_ne; [done|]. congruence.
    + apply list_lookup_singleton_Some in Hf as [Hf _]. exists t, key.
      replace f with (length (store s)) by lia. apply lookup_insert_eq.
  - intros f. unfold complete_store. rewrite result_of_alter. case_decide as E.
    + intros (fl & _ & [=])%fmap_Some.
    + intros Hf. destruct (Ha f Hf) as (t' & k & Ht'). exists t', k. cbn. rewrite lookup_insert_ne; congruence.
  - intros f. unfold complete_notify. rewrite result_of_alter. intros Hf.
    destruct (Ha f) as (t' & k & Ht'); [by case_decide; subst; [rewrite <- Hf|]|]. exists t', k. cbn.
    rewrite lookup_insert_ne; [done|]. congruence.
  - intros f Hf. destruct (Ha f Hf) as (t' & k & Ht'). exists t', k. cbn. rewrite lookup_delete_ne; [done|].
    intros ->. rewrite Ht in Ht'. by injection Ht' as ->.
Qed.

Lemma attended_run es s : flight_ok s → attended s → no_leader_lost s es = true → attended (run s es).
Proof.
  revert s. induction es as [|e es IH]; cbn; intros s Hok Ha; [done|].
  intros [Hl%negb_true_iff Hes]%andb_prop. apply IH; [by apply flight_step_ok|by apply attended_step|done].
Qed.

#[global] Instance announcing_dec s f : Decision (announcing s f).
Proof.
  destruct (decide (map_Exists (λ _ x, Is_true (match x with Stored _ g _ => Nat.eqb g f | _ => false end)) s.(tasks))) as [Hy|Hn].
  - left. destruct Hy as (t & x & Ht & Hx). destruct x as [| | | | |key g r| |]; try done. apply Is_true_eq_true, Nat.eqb_eq in Hx as ->. by exists t, key, r.
  - right. intros (t & key & r & Ht). apply Hn. exists t, (Stored key f r). split; [done|]. by rewrite Nat.eqb_refl.
Defined.

Lemma announced_notified s t key f r :
  flight_ok s → s.(tasks) !! t = Some (Stored key f r) → announced (step s (Announce t)) f r.
Proof.
  intros Hok Ht. pose proof (gave_stored _ Hok _ _ _ _ Ht eq_refl) as Hr. split; [by apply result_kept|].
  unfold step. cbn [actor]. rewrite Ht. cbn. intros (t' & k & r' & Ht'). cbn in Ht'.
  apply lookup_insert_Some in Ht' as [[_ [=]]|[Hne Ht']]. by eapply Hne, (leader_unique _ Hok t t').
Qed.

(** C19: as long as no leader panics or is dropped while it loads, nobody waits in
    vain.  The flight of a waiter has its leader loading, or about to notify, or was
    announced; when the load returns and the leader notifies, the flight is announced
    with what was returned.  And however the steps of all tasks interleave, a waiter
    that takes its turns after the announcement and is not dropped itself has returned
    the leader's result, wherever in [wait] it was when the leader notified. *)
Theorem waiters_get_leader_result es t x key f :
  let s := run init es in
  no_leader_lost init es = true → s.(tasks) !! t = Some x → waits x = Some (key, f) →
  ((∃ leader k, s.(tasks) !! leader = Some (Loading k f) ∧
      ∀ r, returned r → announced (run s [Load leader r; Announce leader]) f r) ∨
   (∃ leader k r, s.(tasks) !! leader = Some (Stored k f r) ∧ announced (step s (Announce leader)) f r) ∨
   (∃ r, announced s f r)) ∧
  ∀ es1 es2 r, announced (run s es1) f r → Forall (λ e, e ≠ Drop t) (es1 ++ es2) →
    [Wake t; Register t; Check t] `sublist_of` es2 →
    (run s (es1 ++ es2)).(tasks) !! t = Some (Done key r).
Proof.
  intros s Hl Ht Hx. pose proof (flight_run_ok es init init_ok : flight_ok s) as Hok. split.
  - pose proof (attended_run es init init_ok (λ f Hf, ltac:(done)) Hl : attended s) as Ha.
    pose proof (waiting_known _ Hok _ _ _ _ Ht Hx) as [fl Hf]%lookup_lt_is_Some_2.
    destruct (Flight_result fl) as [r|] eqn:Hr.
    + assert (Hres : result_of s f = Some (Some r)) by (unfold result_of; by rewrite Hf, <- Hr).
      right. destruct (decide (announcing s f)) as [(leader & k & r' & Hs)|Hn]; [left|right; by exists r].
      exists leader, k, r'. split; [done|]. by eapply announced_notified.
    + left. destruct (Ha f) as (leader & k & Hd); [unfold result_of; by rewrite Hf, <- Hr|].
      exists leader, k. split; [done|]. intros r Hret. cbn [run fold_left].
      apply (announced_notified _ _ k); [by apply flight_step_ok|].
      unfold step. cbn [actor]. rewrite Hd. destruct r; try done; apply lookup_insert_eq.
  - intros es1 es2 r Ha [Hd1 Hd2]%Forall_app Hsub. rewrite flight_run_app.
    destruct (served_run es1 s t x key f) as (x' & Ht' & Hx'); [done..|by left|done|].
    eapply (turns_served _ _ _ _ _ _ _ 3); try done; [by apply flight_run_ok| |by destruct x'; cbn; lia].
    subst s. rewrite <- flight_run_app. apply tickets_run.
Qed.

(** ** A lost leader *)

(** The flight of a key with nobody to complete it. *)
Definition abandoned (s : state) (key : K) (f : nat) : Prop :=
  s.(flights) !! key = Some f ∧ result_of s f = Some None ∧
  ∀ t k, s.(tasks) !! t ≠ Some (Loading k f).

Lemma abandoned_set s t x key f :
  abandoned s key f → (∀ k, x ≠ Loading k f) → abandoned (set_task s t x) key f.
Proof.
  intros (Hk & Hf & Hn) Hx. split_and!; [done..|]. intros t' k. cbn.
  intros [[_ E]|[_ ?]]%lookup_insert_Some; [by eapply Hx|by eapply Hn].
Qed.

Lemma abandoned_alter s t x key f f' g :
  abandoned s key f → f' ≠ f → (∀ k, x ≠ Loading k f) →
  abandoned (mkState s.(flights) (alter g f' s.(store)) (<[t := x]> s.(tasks))) key f.
Proof.
  intros Ha Hne Hx. destruct (abandoned_set s t x key f Ha Hx) as (Hk & Hf & Hn). split_and!; [done| |done].
  by rewrite result_of_alter, decide_False.
Qed.

Lemma abandoned_step s e key f : flight_ok s → abandoned s key f → abandoned (step s e) key f.
Proof.
  intros Hok Ha. pose proof Ha as (Hk & Hf & Hn).
  destruct (step_stepped s e) as [|t k hit x Ht Hx|t k Ht|t k g fl Ht|t k g tk fl r Ht|t k g tk fl Ht
    |t k g tk fl Ht|t k g r Ht|t k g Ht|t k g r Ht|t k g r Ht|t x Ht]; try done; try (by apply abandoned_set).
  all: try (split_and!; [done..|]; intros t' k'; cbn; intros [_ ?]%lookup_delete_Some; by eapply Hn).
  - apply abandoned_set; [done|]. by intros ? ->.
  - unfold join. destruct (s.(flights) !! k) as [g|] eqn:Hg; [by apply abandoned_set|].
    apply fmap_Some in Hf as (fl & Hf & Hr). split_and!; cbn; [rewrite lookup_insert_ne; congruence| |].
    + unfold result_of. cbn. by rewrite (lookup_app_l_Some _ _ _ _ Hf), Hr.
    + intros t' k' [[_ [= _ E]]|[_ ?]]%lookup_insert_Some; [|by eapply Hn]. apply lookup_lt_Some in Hf. lia.
  - apply abandoned_alter; [done| |done]. intros ->. by eapply Hn.
  - apply abandoned_alter; [done| |done]. intros ->. pose proof (gave_stored _ Hok _ _ _ _ Ht eq_refl). congruence.
  - pose proof (leader_registered _ Hok _ _ _ _ Ht eq_refl) as Hg.
    pose proof (gave_stored _ Hok _ _ _ _ Ht eq_refl) as Hr. split_and!; cbn; [|done|].
    + rewrite lookup_delete_ne; [done|]. intros ->. congruence.
    + intros t' k' [[_ [=]]|[_ ?]]%lookup_insert_Some. by eapply Hn.
Qed.

(** A task of the key that has not returned yet never will. *)
Definition stuck (x : task) (key : K) (f : nat) : Prop := x = Missed key ∨ waits x = Some (key, f).

Lemma stuck_step s e key f t x :
  flight_ok s → abandoned s key f → s.(tasks) !! t = Some x → stuck x key f → e ≠ Drop t →
  ∃ x', (step s e).(tasks) !! t = Some x' ∧ stuck x' key f.
Proof.
  intros Hok Ha Ht Hx He. pose proof Ha as (Hk & Hf & _).
  destruct Hx as [->|Hx].
  - destruct (decide (actor e = t)) as [<-|Hne]; [|exists (Missed key); rewrite other_task; [by split; [|left]|done]].
    unfold step. rewrite Ht. destruct e as [| | | | |? []| | |]; cbn in *; try (by exists (Missed key); split; [|left]).
    unfold join. rewrite Hk. exists (Waiting key f). cbn. rewrite lookup_insert_eq. by split; [|right].
  - destruct (served_step s e t x key f) as (x' & Ht' & [Hw|(r & -> & Hr)]); [done..|by left|done| |].
    + exists x'. by split; [|right].
    + pose proof (abandoned_step s e key f Hok Ha) as (_ & Hf' & _). congruence.
Qed.

Lemma lost_leader_abandons s e key f :
  flight_ok s → s.(tasks) !! actor e = Some (Loading key f) → leader_lost s e = true → abandoned (step s e) key f.
Proof.
  intros Hok Ht Hl. assert (step s e = end_task s (actor e)) as ->.
  { unfold step. rewrite Ht. by destruct e as [| | | | |? []| | |]. }
  split_and!; cbn; [by eapply (leader_registered _ Hok)|by apply (loading_empty _ Hok _ _ _ Ht)|].
  intros t'' k [Hd Hl']%lookup_delete_Some. by eapply Hd, (leader_unique _ Hok (actor e) t'' _ _ key k f).
Qed.

(** A leader that is dropped or panics while it loads leaves its flight in the map
    for good: from then on no caller that misses the cache for this key ever returns,
    whatever happens. *)
Theorem dropped_leader_blocks_key es e es' key f t' :
  (run init es).(tasks) !! actor e = Some (Loading key f) → leader_lost (run init es) e = true →
  (run init es).(tasks) !! t' = None →
  Forall (λ e, e ≠ Drop t') es' →
  ∃ x, (run (step (step (run init es) e) (Call t' key None)) es').(tasks) !! t' = Some x ∧ stuck x key f.
Proof.
  intros Ht Hl Ht' Hes. pose proof (flight_run_ok es init init_ok) as Hok. revert Ht Hl Ht' Hok.
  generalize (run init es). intros s Ht Hl Ht' Hok.
  pose proof (lost_leader_abandons s e key f Hok Ht Hl) as Ha.
  set (s1 := step (step s e) (Call t' key None)).
  assert (Hok1 : flight_ok s1) by (by do 2 apply flight_step_ok).
  assert (Ha1 : abandoned s1 key f) by (apply abandoned_step; [by apply flight_step_ok|done]).
  assert (Hx : ∃ x, s1.(tasks) !! t' = Some x ∧ stuck x key f).
  { exists (Missed key). split; [|by left]. subst s1. unfold step at 1. cbn [actor].
    rewrite other_task, Ht' by congruence. apply lookup_insert_eq. }
  clearbody s1. revert s1 Hok1 Ha1 Hx. induction es' as [|e' es' IH]; intros s1 Hok1 Ha1 (x & Hx & Hst); cbn; [by eauto|].
  apply Forall_cons in Hes as [He Hes]. apply IH; [done|by apply flight_step_ok|by apply abandoned_step|].
  by eapply stuck_step.
Qed.

End flight.

(** ** Witnesses *)

(** Two callers miss the cache; the second to join sleeps. *)
Definition two_callers : list (event (K := Z) (V := Z)) :=
  [Call 0 5 None; Call 1 5 None; Join 1; Join 0; Register 0; Check 0].

Lemma one_load_per_key_witness :
  (run init two_callers).(tasks) !! 1%nat = Some (Loading 5 0) ∧ (1%nat = 1%nat ∧ 0%nat = 0%nat).
Proof.
  split; [vm_compute; reflexivity|].
  apply (one_load_per_key two_callers 1 1 5 0 0); vm_compute; reflexivity.
Defined.

(** The waiter was asleep when the leader stored its result and notified; the leader
    leaves and another caller comes before its turns. *)
Lemma waiters_get_leader_result_witness :
  (run init two_callers).(tasks) !! 0%nat = Some (Asleep (N := counting_notify) 5 0 0%nat) ∧
  (run (run init two_callers)
    ([Load 1 (Ok 7); Announce 1] ++ [Leave 1; Wake 0; Call 2 5 None; Register 0; Join 2; Check 0])).(tasks) !! 0%nat
  = Some (Done 5 (Ok 7)).
Proof.
  split; [vm_compute; reflexivity|].
  destruct (waiters_get_leader_result two_callers 0 (Asleep (N := counting_notify) 5 0 0%nat) 5 0) as [_ Hw];
    [vm_compute; reflexivity|vm_compute; reflexivity|reflexivity|].
  apply Hw; [|repeat constructor; discriminate|repeat constructor].
  split; [vm_compute; reflexivity|]. apply (bool_decide_unpack (¬ announcing _ _)). vm_compute. exact I.
Defined.

Lemma dropped_leader_blocks_key_witness :
  ∃ x, (run (step (step (run init [Call 0 5 None; Join 0]) (Load 0 Panic)) (Call 1 5 None))
    ([Join 1; Register 1; Check 1; Wake 1; Load 0 (Ok 3)] : list (event (K := Z) (V := Z)))).(tasks) !! 1%nat = Some x ∧ stuck x 5 0.
Proof.
  apply (dropped_leader_blocks_key ([Call 0 5 None; Join 0] : list (event (K := Z) (V := Z))) (Load 0 Panic));
    [vm_compute; reflexivity|vm_compute; reflexivity|vm_compute; reflexivity|repeat constructor; discriminate].
Defined.
