(* ===== verification/Http.v ===== *)
(** * HTTP interfaces and the transport configuration (src/src/config.rs)

    [HttpLib] is what the transport uses of the crates [http], [url], [base64]
    and [httlib_huffman]; [HttpLaws] is the documented behaviour the theorems
    rely on.  [Plain] is a concrete instance, which the witnesses use.  Then the
    data of config.rs and its validation. *)

From S2P Require Import Prelude RustStr.

(** ** Interfaces *)

Class HttpLib := {
  (* http: HeaderName, HeaderValue, HeaderMap, Method *)
  HeaderName : Type;
  HeaderName_eq_dec :: EqDecision HeaderName;
  HeaderValue : Type;
  HeaderMap : Type;
  header_name : str → option HeaderName;  (* HeaderName::try_from *)
  header_value : str → option HeaderValue;  (* HeaderValue::try_from, from_bytes *)
  to_str : HeaderValue → option str;
  headers_new : HeaderMap;
  get_all : HeaderMap → HeaderName → list HeaderValue;
  names : HeaderMap → list HeaderName;  (* HeaderMap::keys *)
  headers_insert : HeaderMap → HeaderName → HeaderValue → HeaderMap;
  headers_append : HeaderMap → HeaderName → HeaderValue → HeaderMap;
  headers_remove : HeaderMap → HeaderName → HeaderMap;
  AUTHORIZATION : HeaderName;
  COOKIE : HeaderName;
  SET_COOKIE : HeaderName;
  method_ok : str → bool;  (* Method::from_bytes(..).is_ok() *)
  (* url *)
  Url : Type;
  url_parse : str → option Url;
  url_as_str : Url → str;
  url_path : Url → str;
  url_query : Url → option str;
  set_path : Url → str → Url;
  append_pair : Url → str → str → Url;  (* query_pairs_mut().append_pair *)
  form_parse : str → list (str * str);  (* form_urlencoded::parse *)
  (* base64: URL_SAFE_NO_PAD *)
  b64_encode : bytes → str;
  b64_decode : str → option bytes;
  (* httlib_huffman *)
  huffman_encode : bytes → option bytes;
}.

(** Visible ASCII: what a header value can hold and give back as a string. *)
Definition visible (c : Z) : Prop := 32 ≤ c ≤ 126.
(** The characters a URL path keeps as they are. *)
Definition unreserved (c : Z) : Prop :=
  48 ≤ c ≤ 57 ∨ 65 ≤ c ≤ 90 ∨ 97 ≤ c ≤ 122 ∨ c = 45 ∨ c = 95.
(** A token, the syntax of a header name, here without its punctuation. *)
Definition token_str (s : str) : Prop := s ≠ [] ∧ Forall unreserved s.

#[export] Instance visible_dec c : Decision (visible c).
Proof. unfold visible. apply _. Defined.
#[export] Instance unreserved_dec c : Decision (unreserved c).
Proof. unfold unreserved. apply _. Defined.

#[export] Instance token_str_dec s : Decision (token_str s).
Proof. unfold token_str. apply _. Defined.

Class HttpLaws (H : HttpLib) := {
  header_name_token s : token_str s → is_Some (header_name s);
  header_name_case s s' n :
    header_name s = Some n → header_name s' = Some n →
    to_ascii_lowercase s = to_ascii_lowercase s';
  header_name_authorization : header_name (lit "authorization") = Some AUTHORIZATION;
  header_name_cookie : header_name (lit "cookie") = Some COOKIE;
  header_value_visible s :
    Forall visible s → ∃ v, header_value s = Some v ∧ to_str v = Some s;
  get_all_new n : get_all headers_new n = [];
  get_all_insert h n v n' :
    get_all (headers_insert h n v) n' = if decide (n' = n) then [v] else get_all h n';
  get_all_append h n v n' :
    get_all (headers_append h n v) n' = get_all h n' ++ (if decide (n' = n) then [v] else []);
  names_spec h n : n ∈ names h ↔ get_all h n ≠ [];
  url_path_set_path u p :
    head p = Some c_slash → Forall (λ c, unreserved c ∨ c = c_slash) p → url_path (set_path u p) = p;
  url_query_set_path u p : url_query (set_path u p) = url_query u;
  url_path_append_pair u k v : url_path (append_pair u k v) = url_path u;
  form_parse_append_pair u k v :
    ∃ q, url_query (append_pair u k v) = Some q ∧
      form_parse q = default [] (form_parse <$> url_query u) ++ [(k, v)];
  url_parse_as_str u : url_parse (url_as_str u) = Some u;
  url_as_str_visible u : Forall visible (url_as_str u);
  b64_decode_encode b : Forall u8 b → b64_decode (b64_encode b) = Some b;
  b64_encode_unreserved b : Forall unreserved (b64_encode b);
}.

(** [headers.get(key)] for a string key, and the [to_str().ok()] that follows it
    everywhere. *)
Definition header_get `{HttpLib} (h : HeaderMap) (key : str) : option str :=
  n ← header_name key; v ← head (get_all h n); to_str v.

(** [Uri]: what the server reads of a request's target. *)
Record Uri := mkUri { uri_path : str; uri_query : option str }.

(** The target the HTTP client sends for a URL. *)
Definition uri_of_url `{HttpLib} (u : Url) : Uri := mkUri (url_path u) (url_query u).
Arguments uri_of_url {_} u : simpl never.

(** ** config.rs *)

Record RangeConfig := mkRange { from : Z; to : Z }.

Definition RangeConfig_validate (r : RangeConfig) : result unit :=
  if r.(to) =? 0 then
    if negb (r.(from) =? 0) then Err "{name}.from requires a non-zero to value" else Ok tt
  else if r.(from) >? r.(to) then Err "{name}.from must not exceed {name}.to"
  else Ok tt.

(** [pick] is the value [rand::random_range] draws from its argument; the
    range must not be empty. *)
Definition sample (pick : Z → Z → Z) (r : RangeConfig) : result Z :=
  if r.(to) =? 0 then Ok 0
  else if r.(from) <=? r.(to) then Ok (pick r.(from) r.(to)) else Panic.

Record XmuxConfig := mkXmuxConfig {
  max_concurrency : RangeConfig;
  max_connections : RangeConfig;
  c_max_reuse_times : RangeConfig;
  h_max_request_times : RangeConfig;
  h_max_reusable_secs : RangeConfig;
  h_keep_alive_period : Z;
}.

Definition XmuxConfig_validate (c : XmuxConfig) : result unit :=
  if negb (c.(max_concurrency).(to) =? 0) && negb (c.(max_connections).(to) =? 0) then
    Err "xmux max_concurrency and max_connections are mutually exclusive"
  else
    iter_result RangeConfig_validate
      [c.(max_concurrency); c.(max_connections); c.(c_max_reuse_times);
       c.(h_max_request_times); c.(h_max_reusable_secs)].

Inductive Mode := ModeAuto | StreamOne | StreamUp | PacketUp.
Inductive Placement := Path | Query | Header | Cookie | Body | Auto | QueryInHeader.

#[export] Instance Mode_eq_dec : EqDecision Mode.
Proof. solve_decision. Defined.
#[export] Instance Placement_eq_dec : EqDecision Placement.
Proof. solve_decision. Defined.

Definition resolved (m : Mode) : Mode := match m with ModeAuto => PacketUp | m => m end.

Record TransportConfig := mkTransport {
  path : str;
  query : option str;
  host : option str;
  mode : Mode;
  headers : list (str * str);  (* a HashMap, in its iteration order *)
  token : option str;
  session_placement : Placement;
  session_key : str;
  sequence_placement : Placement;
  sequence_key : str;
  data_placement : Placement;
  data_key : str;
  padding_min : Z;
  padding_max : Z;
  padding_obfs : bool;
  padding_placement : Placement;
  padding_key : str;
  padding_header : str;
  padding_method : str;
  uplink_method : str;
  no_grpc_header : bool;
  no_sse_header : bool;
  max_packet_size : Z;
  max_buffered_packets : Z;
  packet_interval_ms : Z;
  session_timeout_secs : Z;
  max_sessions : Z;
  max_session_id_length : Z;
  xmux : XmuxConfig;
}.

Definition default_transport : TransportConfig :=
  let r := mkRange 0 0 in
  mkTransport (lit "/xhttp") None None ModeAuto [] None Path (lit "x_session") Path (lit "x_seq")
    Body (lit "X-Data") 100 1000 false QueryInHeader (lit "x_padding") (lit "X-Padding")
    (lit "repeat-x") (lit "POST") false false 1000000 30 30 30 4096 256
    (mkXmuxConfig r r r r r 0).

(** [while path.len() > 1 && path.ends_with('/') { path.pop(); }] *)
Fixpoint pop_slashes (fuel : nat) (p : str) : str :=
  match fuel with
  | O => p
  | S fuel =>
    if (1 <? length p)%nat && ends_with [c_slash] p
    then pop_slashes fuel (take (length p - 1) p) else p
  end.

Definition c_question : Z := 63.

(** The path and query rewriting at the head of [validate]. *)
Definition normalize_path (path : str) (query : option str) : str * option str :=
  let '(path, query) :=
    match split_once c_question path with
    | Some (p, q) => (p, if decide (q = []) then query else Some q)
    | None => (path, query)
    end in
  let path := if starts_with [c_slash] path then path else c_slash :: path in
  (pop_slashes (length path) path, query).

Section validate.
Context `{HttpLib}.

Definition check (b : bool) (msg : string) : result unit := if b then Err msg else Ok tt.

Definition metadata_placement (p : Placement) : bool :=
  match p with Path | Query | Header | Cookie => true | _ => false end.
Definition payload_placement (p : Placement) : bool :=
  match p with Body | Header | Cookie | Auto => true | _ => false end.
Definition padding_placement_ok (p : Placement) : bool :=
  match p with Header | Cookie | Query | QueryInHeader => true | _ => false end.

Definition validate_headers (hs : list (str * str)) : result unit :=
  iter_result (λ '(name, value),
    _ ← check (eq_ignore_ascii_case name (lit "host"))
          "use the XHTTP host field instead of a Host header";
    _ ← context (header_name name) "invalid XHTTP header name";
    _ ← context (header_value value) "invalid XHTTP header value";
    Ok tt) hs.

(** [TransportConfig::validate], which also rewrites the path, the query and
    the uplink method. *)
Definition validate (c : TransportConfig) : result TransportConfig :=
  let '(path, query) := normalize_path c.(path) c.(query) in
  _ ← check (c.(padding_min) >? c.(padding_max)) "padding_min must not exceed padding_max";
  _ ← check ((c.(max_packet_size) =? 0) || (c.(max_buffered_packets) =? 0)
             || (c.(session_timeout_secs) =? 0) || (c.(max_sessions) =? 0)
             || (c.(max_session_id_length) =? 0)) "packet limits must be greater than zero";
  _ ← check (negb (metadata_placement c.(session_placement))
             || negb (metadata_placement c.(sequence_placement)))
        "session and sequence metadata cannot use body placement";
  _ ← check (negb (payload_placement c.(data_placement)))
        "data placement must be body, header, cookie, or auto";
  _ ← check (negb (padding_placement_ok c.(padding_placement))) "invalid padding placement";
  _ ← check (negb (str_eqb c.(padding_method) (lit "repeat-x")
                   || str_eqb c.(padding_method) (lit "tokenish"))) "invalid padding method";
  let uplink := to_ascii_uppercase c.(uplink_method) in
  _ ← check (negb (method_ok uplink)) "invalid XHTTP uplink method";
  _ ← check (str_eqb uplink (lit "GET")
             && negb (match c.(mode) with ModeAuto | PacketUp => true | _ => false end))
        "GET uplink method requires packet-up or auto mode";
  _ ← validate_headers c.(headers);
  _ ← match c.(host) with
      | Some h => _ ← context (header_value h) "invalid XHTTP host value"; Ok tt
      | None => Ok tt
      end;
  _ ← match c.(token) with
      | Some t =>
        _ ← context (header_value (lit "Bearer " ++ t)) "invalid XHTTP authorization token"; Ok tt
      | None => Ok tt
      end;
  _ ← XmuxConfig_validate c.(xmux);
  _ ← iter_result (λ '(p, key),
        if decide (p = Header) then
          _ ← context (header_name key) "invalid metadata header name"; Ok tt
        else Ok tt)
        [(c.(session_placement), c.(session_key)); (c.(sequence_placement), c.(sequence_key))];
  Ok (mkTransport path query c.(host) c.(mode) c.(headers) c.(token) c.(session_placement)
        c.(session_key) c.(sequence_placement) c.(sequence_key) c.(data_placement) c.(data_key)
        c.(padding_min) c.(padding_max) c.(padding_obfs) c.(padding_placement) c.(padding_key)
        c.(padding_header) c.(padding_method) uplink c.(no_grpc_header) c.(no_sse_header)
        c.(max_packet_size) c.(max_buffered_packets) c.(packet_interval_ms)
        c.(session_timeout_secs) c.(max_sessions) c.(max_session_id_length) c.(xmux)).

End validate.

(** ** Properties of the validation *)

Lemma pop_slashes_id fuel p :
  length p = 1%nat ∨ ends_with [c_slash] p = false → pop_slashes fuel p = p.
Proof.
  intros Hp. destruct fuel; [done|]. cbn [pop_slashes].
  destruct Hp as [->| ->]; [done|]. by rewrite andb_false_r.
Qed.

Lemma pop_slashes_spec fuel p c :
  (length p ≤ fuel)%nat → head p = Some c →
  head (pop_slashes fuel p) = Some c ∧ pop_slashes fuel p `prefix_of` p ∧
  (length (pop_slashes fuel p) = 1%nat ∨ ends_with [c_slash] (pop_slashes fuel p) = false).
Proof.
  revert p. induction fuel as [|fuel IH]; intros p Hl Hh; [destruct p; [done|cbn in Hl; lia]|].
  cbn [pop_slashes]. destruct (1 <? length p)%nat eqn:Hlen; cbn [andb]; bool_to_prop.
  - destruct (ends_with [c_slash] p) eqn:He; [|by auto].
    assert (head (take (length p - 1) p) = Some c) as Hh'.
    { destruct p as [|x [|y p]]; cbn in *; [done|lia|done]. }
    destruct (IH (take (length p - 1) p)) as (H1 & H2 & H3); [rewrite length_take; lia|done|].
    split_and!; [done| |done]. etrans; [done|]. apply prefix_take.
  - split_and!; [done|done|]. left. destruct p; [done|]. cbn in *. lia.
Qed.

Lemma split_once_None c s : c ∉ s → split_once c s = None.
Proof.
  destruct (split_once c s) as [[a b]|] eqn:E; [|done]. apply split_once_Some in E as [-> _].
  intros []. apply elem_of_app. right. by left.
Qed.

Lemma split_once_None_inv c s : split_once c s = None → c ∉ s.
Proof.
  intros H Hin. apply list_elem_of_split in Hin as (a & b & ->).
  assert (∀ a', split_once c (a' ++ c :: b) ≠ None) as Hne; [|by apply (Hne a)].
  clear. induction a' as [|x a IH]; cbn; [by rewrite Z.eqb_refl|].
  destruct (x =? c); [done|]. by destruct (split_once c (a ++ c :: b)) as [[]|].
Qed.

Lemma normalize_path_spec p q p' q' :
  normalize_path p q = (p', q') →
  head p' = Some c_slash ∧ (c_question ∉ p') ∧
  (p' = [c_slash] ∨ ends_with [c_slash] p' = false) ∧ normalize_path p' q' = (p', q').
Proof.
  unfold normalize_path at 1. intros H.
  assert (∃ p1, (c_question ∉ p1) ∧
    p' = pop_slashes (length (if starts_with [c_slash] p1 then p1 else c_slash :: p1))
           (if starts_with [c_slash] p1 then p1 else c_slash :: p1)) as (p1 & Hq & Hp).
  { destruct (split_once c_question p) as [[a b]|] eqn:E; injection H as <- _.
    - apply split_once_Some in E as [_ ?]. by exists a.
    - apply split_once_None_inv in E. by exists p. }
  set (p2 := if starts_with [c_slash] p1 then p1 else c_slash :: p1) in *.
  assert (head p2 = Some c_slash) as Hh.
  { unfold p2. destruct (starts_with _ p1) eqn:E; [|done]. apply starts_with_true in E as [r ->]. done. }
  assert (c_question ∉ p2) as Hq2.
  { unfold p2. destruct (starts_with _ p1); [done|]. rewrite elem_of_cons. by intros [?|?]. }
  destruct (pop_slashes_spec (length p2) p2 c_slash) as (H1 & [r H2] & H3); [done..|].
  rewrite <- Hp in *. assert (c_question ∉ p') as Hq'.
  { intros Hin. apply Hq2. rewrite H2. apply elem_of_app. by left. }
  split_and!; [done|done| |].
  - destruct H3 as [H3|?]; [left|by right]. destruct p' as [|x [|]]; try done. by injection H1 as ->.
  - unfold normalize_path. rewrite split_once_None by done.
    assert (starts_with [c_slash] p' = true) as ->.
    { apply starts_with_true. destruct p' as [|x p']; [done|]. injection H1 as ->. by exists p'. }
    by rewrite pop_slashes_id.
Qed.

Lemma to_ascii_uppercase_idemp s : to_ascii_uppercase (to_ascii_uppercase s) = to_ascii_uppercase s.
Proof.
  unfold to_ascii_uppercase. rewrite <- list_fmap_compose. apply list_fmap_ext. intros _ c _.
  unfold compose, ascii_upper. destruct ((97 <=? c) && (c <=? 122)) eqn:E; [|by rewrite E].
  bool_to_prop. by rewrite (proj2 (Z.leb_gt 97 (c - 32))) by lia.
Qed.

(** A configuration that was validated is stable and well formed: checking
    it again accepts it unchanged (it is validated once by the library and once
    by the client or the server), its path is absolute, without a query and
    without a trailing slash, and none of its limits is zero. *)
Theorem validate_stable `{HttpLib} c c' :
  validate c = Ok c' →
  validate c' = Ok c' ∧ head c'.(path) = Some c_slash ∧ (c_question ∉ c'.(path)) ∧
  (c'.(path) = [c_slash] ∨ ends_with [c_slash] c'.(path) = false) ∧
  c'.(padding_min) ≤ c'.(padding_max) ∧ c'.(max_packet_size) ≠ 0 ∧
  c'.(max_buffered_packets) ≠ 0 ∧ c'.(max_sessions) ≠ 0.
Proof.
  unfold validate at 1. destruct (normalize_path _ _) as [p q] eqn:En.
  destruct (normalize_path_spec _ _ _ _ En) as (H1 & H2 & H3 & H4). intros Hv.
  repeat (apply bind_Ok in Hv as ([] & ? & Hv)). apply Ok_inj in Hv. subst c'. split.
  - unfold validate. cbn [path query padding_min padding_max max_packet_size max_buffered_packets
      session_timeout_secs max_sessions max_session_id_length session_placement sequence_placement
      data_placement padding_placement padding_method uplink_method mode headers host token xmux
      session_key sequence_key data_key padding_obfs padding_key padding_header no_grpc_header
      no_sse_header packet_interval_ms].
    rewrite H4, to_ascii_uppercase_idemp.
    repeat match goal with E : _ = Ok tt |- _ => rewrite E; clear E; cbn [mbind result_bind] end. done.
  - unfold check in *. cbn.
    repeat match goal with E : (if ?b then _ else _) = Ok tt |- _ =>
      destruct b eqn:?; [discriminate|]; clear E end.
    bool_to_prop. split_and!; try done; lia.
Qed.

(** ** A concrete instance

    The laws are not vacuous: headers as an association list, URLs as a path
    and a list of query pairs, and an injective text encoding in the place of
    percent-encoding and of base64.  The witnesses use it. *)

Module Plain.

Fixpoint bits (p : positive) : str :=
  match p with xH => [] | xO p => 48 :: bits p | xI p => 49 :: bits p end.

Fixpoint unbits (s : str) : positive :=
  match s with [] => xH | c :: s => if c =? 48 then xO (unbits s) else xI (unbits s) end.

Definition code {A} `{Countable A} (a : A) : str := bits (encode a).
Definition uncode {A} `{Countable A} (s : str) : option A := decode (unbits s).

Lemma uncode_code {A} `{Countable A} (a : A) : uncode (code a) = Some a.
Proof.
  unfold uncode, code. assert (∀ p, unbits (bits p) = p) as ->; [|apply decode_encode].
  induction p as [p IH|p IH|]; cbn; by rewrite ?IH.
Qed.

Lemma code_unreserved {A} `{Countable A} (a : A) : Forall unreserved (code a).
Proof.
  unfold code. generalize (encode a) as p. induction p as [p IH|p IH|]; cbn; constructor; try done;
    unfold unreserved; lia.
Qed.

Definition values (h : list (str * str)) (n : str) : list str :=
  snd <$> List.filter (λ nv, str_eqb nv.1 n) h.

Arguments values h n : simpl never.
Arguments code {A _ _} a : simpl never.
Arguments uncode {A _ _} s : simpl never.

#[export] Instance lib : HttpLib := {|
  HeaderName := str;
  HeaderValue := str;
  HeaderMap := list (str * str);
  header_name s := if bool_decide (s ≠ [] ∧ Forall unreserved s) then Some (to_ascii_lowercase s) else None;
  header_value s := if bool_decide (Forall visible s) then Some s else None;
  to_str v := Some v;
  headers_new := [];
  get_all := values;
  names h := fst <$> h;
  headers_insert h n v := List.filter (λ nv, negb (str_eqb nv.1 n)) h ++ [(n, v)];
  headers_append h n v := h ++ [(n, v)];
  headers_remove h n := List.filter (λ nv, negb (str_eqb nv.1 n)) h;
  AUTHORIZATION := lit "authorization";
  COOKIE := lit "cookie";
  SET_COOKIE := lit "set-cookie";
  method_ok s := negb (str_eqb s []);
  Url := str * list (str * str);
  url_parse := uncode;
  url_as_str := code;
  url_path := fst;
  url_query u := Some (code u.2);
  set_path u p := (p, u.2);
  append_pair u k v := (u.1, u.2 ++ [(k, v)]);
  form_parse q := default [] (uncode q);
  b64_encode := code;
  b64_decode := uncode;
  huffman_encode b := Some b;
|}.

Lemma values_app h h' n : values (h ++ h') n = values h n ++ values h' n.
Proof. unfold values. by rewrite List.filter_app, fmap_app. Qed.

Lemma values_one n v n' : values [(n, v)] n' = if decide (n' = n) then [v] else [].
Proof.
  unfold values, str_eqb; cbn. case_bool_decide as E; case_decide; cbn; congruence.
Qed.

Lemma values_cons n v h n' :
  values ((n, v) :: h) n' = (if decide (n' = n) then [v] else []) ++ values h n'.
Proof. rewrite <- values_one. exact (values_app [(n, v)] h n'). Qed.

Lemma values_remove h n n' :
  values (List.filter (λ nv, negb (str_eqb nv.1 n)) h) n'
  = if decide (n' = n) then [] else values h n'.
Proof.
  induction h as [|[m v] h IH]; [by case_decide|]. cbn [List.filter fst].
  destruct (str_eqb m n) eqn:E; cbn [negb].
  - apply str_eqb_eq in E as ->. rewrite IH. case_decide as Hd; [done|].
    by rewrite values_cons, decide_False.
  - rewrite !values_cons, IH.
    destruct (decide (n' = n)) as [->|Hne]; [|done]. rewrite decide_False; [done|].
    intros ->. by rewrite (proj2 (str_eqb_eq _ _)) in E.
Qed.

#[export] Instance laws : HttpLaws lib.
Proof.
  split; cbn.
  - intros s Hs. rewrite bool_decide_true by done. by eexists.
  - intros s s' n. do 2 case_bool_decide; try done. intros [= <-] [= ->]. done.
  - reflexivity.
  - reflexivity.
  - intros s Hs. exists s. by rewrite bool_decide_true.
  - done.
  - intros h n v n'. rewrite values_app, values_remove, values_one.
    case_decide; [done|by rewrite app_nil_r].
  - intros h n v n'. by rewrite values_app, values_one.
  - intros h n. induction h as [|[m v] h IH]; cbn.
    { split; [by intros ?%not_elem_of_nil|done]. }
    rewrite elem_of_cons, IH, values_cons.
    case_decide; cbn; naive_solver.
  - done.
  - done.
  - done.
  - intros u k v. exists (code (u.2 ++ [(k, v)])). split; [done|]. by rewrite !uncode_code.
  - apply uncode_code.
  - intros u. eapply Forall_impl; [apply code_unreserved|]. unfold unreserved, visible. lia.
  - intros b _. apply uncode_code.
  - apply code_unreserved.
Qed.

End Plain.

Lemma validate_stable_witness :
  ∃ c', validate (H := Plain.lib) default_transport = Ok c' ∧ validate (H := Plain.lib) c' = Ok c' ∧
    head c'.(path) = Some c_slash.
Proof.
  destruct (validate (H := Plain.lib) default_transport) as [c'| | |] eqn:E;
    [|exfalso; revert E; vm_compute; discriminate..].
  exists c'. destruct (validate_stable (H := Plain.lib) default_transport c' E) as (H1 & H2 & _). done.
Defined.
