(* ===== verification/Protocol.v ===== *)
(** * The XHTTP request encoding (src/src/protocol.rs and the request
    construction of src/src/client.rs)

    Where a request carries its session id, its sequence number, its padding,
    its token and its payload; the writing side is the client, the reading side
    the server. *)

From S2P Require Import Prelude RustStr Http.

Definition c_semicolon : Z := 59.
Definition c_equals : Z := 61.
Definition c_space : Z := 32.

Definition PADDING_QUERY_KEY : str := lit "x_padding".

Section protocol.
Context `{HttpLib}.

(** ** Headers and cookies *)

Fixpoint add_headers (hs : list (str * str)) (h : HeaderMap) : result HeaderMap :=
  match hs with
  | [] => Ok h
  | (name, value) :: hs =>
    n ← context (header_name name) "invalid configured header name";
    v ← context (header_value value) "invalid configured header value";
    add_headers hs (headers_insert h n v)
  end.

Definition add_common_headers (c : TransportConfig) (h : HeaderMap) : result HeaderMap :=
  h ← add_headers c.(headers) h;
  match c.(token) with
  | Some t =>
    v ← context (header_value (lit "Bearer " ++ t)) "invalid header value";
    Ok (headers_insert h AUTHORIZATION v)
  | None => Ok h
  end.

Definition append_cookie (h : HeaderMap) (key value : str) : result HeaderMap :=
  v ← context (header_value (key ++ [c_equals] ++ value)) "invalid header value";
  Ok (headers_append h COOKIE v).

(** [str::trim] on a cookie part: ASCII white space, the only kind a header
    value that passed [to_str] can hold. *)
Definition is_space (c : Z) : bool := (c =? c_space) || in_range c 9 13.

Definition cookie_part (key part : str) : option str :=
  '(name, value) ← split_once c_equals (trim_matches is_space part);
  if str_eqb name key then Some value else None.

(** The parts of all cookie headers, in order. *)
Definition cookie_parts (h : HeaderMap) : list str :=
  concat (split c_semicolon <$> omap to_str (get_all h COOKIE)).

Definition cookie_value (h : HeaderMap) (key : str) : option str :=
  find_map (cookie_part key) (cookie_parts h).

(** ** Padding *)

Definition tokenish (method : str) : bool := str_eqb method (lit "tokenish").

Definition huffman_length (value : bytes) : Z :=
  Z.of_nat (length (default value (huffman_encode value))).

Definition ALPHABET : bytes := lit "0123456789ABCDEFGHIJKLMNOPQRSTUVWXYZabcdefghijklmnopqrstuvwxyz".

(** [for index in 0..value.capacity()]: [n] turns are left from [i] on. *)
Fixpoint tokenish_loop (n : nat) (i len : Z) (value : bytes) : result bytes :=
  match n with
  | O => Ok value
  | S n =>
    c ← index ALPHABET (Z.to_nat ((i * 37 + len * 17) mod 62));
    let value := value ++ [c] in
    if huffman_length value >=? len then Ok value else tokenish_loop n (i + 1) len value
  end.

(** [Vec::with_capacity(n)] may reserve more than [n]: [spare] bytes more.  The
    bytes are ASCII, so [String::from_utf8] accepts them. *)
Definition padding_value (spare : nat) (method : str) (len : Z) : result str :=
  if negb (tokenish method) then Ok (replicate (Z.to_nat len) 88)
  else tokenish_loop (Z.to_nat (len + len / 2 + 8) + spare) 0 len [].

(** [rand::rng().random_range(min..=max)] is [pick min max]. *)
Definition padding_length (pick : Z → Z → Z) (c : TransportConfig) : Z :=
  if c.(padding_min) =? c.(padding_max) then c.(padding_min)
  else pick c.(padding_min) c.(padding_max).

(** Where the padding goes: the placement, the query or cookie key and the
    header. *)
Definition padding_spot (c : TransportConfig) : Placement * str * str :=
  if c.(padding_obfs) then (c.(padding_placement), c.(padding_key), c.(padding_header))
  else (QueryInHeader, PADDING_QUERY_KEY, lit "Referer").

(** [if let Ok(n) = HeaderName::try_from(..) && let Ok(v) = HeaderValue::try_from(..)] *)
Definition try_insert (h : HeaderMap) (name value : str) : HeaderMap :=
  match header_name name, header_value value with
  | Some n, Some v => headers_insert h n v
  | _, _ => h
  end.

Definition apply_padding (pick : Z → Z → Z) (spare : nat) (c : TransportConfig) (url : Url)
    (h : HeaderMap) : result (Url * HeaderMap) :=
  value ← padding_value spare c.(padding_method) (padding_length pick c);
  let '(placement, key, header) := padding_spot c in
  Ok match placement with
     | Header => (url, try_insert h header value)
     | Cookie => (url, match append_cookie h key value with Ok h => h | _ => h end)
     | Query => (append_pair url key value, h)
     | QueryInHeader => (url, try_insert h header (url_as_str (append_pair url key value)))
     | _ => (url, h)
     end.

Definition assoc_first (key : str) (pairs : list (str * str)) : option str :=
  find_map (λ '(k, v), if str_eqb k key then Some v else None) pairs.

Definition query_pairs (u : Url) : list (str * str) := default [] (form_parse <$> url_query u).

Definition valid_padding (c : TransportConfig) (uri : Uri) (h : HeaderMap) : bool :=
  let '(placement, key, header) := padding_spot c in
  let value :=
    match placement with
    | Header => header_get h header
    | Cookie => cookie_value h key
    | Query => q ← uri.(uri_query); assoc_first key (form_parse q)
    | QueryInHeader => v ← header_get h header; u ← url_parse v; assoc_first key (query_pairs u)
    | _ => None
    end in
  match value with
  | None => false
  | Some value =>
    let len := if tokenish c.(padding_method) then huffman_length value
               else Z.of_nat (length value) in
    (len + 2 >=? c.(padding_min)) && (len <=? c.(padding_max) + 2)
  end.

Definition apply_response_padding (pick : Z → Z → Z) (spare : nat) (c : TransportConfig)
    (h : HeaderMap) : result HeaderMap :=
  value ← padding_value spare c.(padding_method) (padding_length pick c);
  Ok (if negb c.(padding_obfs) then try_insert h (lit "x-padding") value
      else match c.(padding_placement) with
           | Header => try_insert h c.(padding_header) value
           | Cookie =>
             match header_value (c.(padding_key) ++ [c_equals] ++ value ++ lit "; Path=/") with
             | Some v => headers_append h SET_COOKIE v
             | None => h
             end
           | _ => h
           end).

(** ** Token *)

Definition authorized (c : TransportConfig) (h : HeaderMap) : bool :=
  match c.(token) with
  | None => true
  | Some t =>
    match v ← head (get_all h AUTHORIZATION); to_str v with
    | Some value => str_eqb value (lit "Bearer " ++ t)
    | None => false
    end
  end.

(** ** Session and sequence *)

Definition apply_value (placement : Placement) (key value : str) (url : Url) (h : HeaderMap)
    : result (Url * HeaderMap) :=
  match placement with
  | Path =>
    Ok (set_path url (trim_end_matches (Z.eqb c_slash) (url_path url) ++ [c_slash] ++ value), h)
  | Query => Ok (append_pair url key value, h)
  | Header =>
    n ← context (header_name key) "invalid header name";
    v ← context (header_value value) "invalid header value";
    Ok (url, headers_insert h n v)
  | Cookie => h ← append_cookie h key value; Ok (url, h)
  | _ => Err "invalid metadata placement"
  end.

Definition apply_metadata (c : TransportConfig) (url : Url) (h : HeaderMap)
    (session : option str) (sequence : option Z) : result (Url * HeaderMap) :=
  '(url, h) ← match session with
              | Some v => apply_value c.(session_placement) c.(session_key) v url h
              | None => Ok (url, h)
              end;
  match sequence with
  | Some v => apply_value c.(sequence_placement) c.(sequence_key) (print_uint v) url h
  | None => Ok (url, h)
  end.

(** The last value wins. *)
Definition query_value (uri : Uri) (key : str) : option str :=
  q ← uri.(uri_query);
  foldl (λ found '(k, v), if str_eqb k key then Some v else found) None (form_parse q).

Definition path_values (c : TransportConfig) (uri : Uri) : list str :=
  let suffix := default [] (strip_prefix c.(path) uri.(uri_path)) in
  List.filter (λ v, negb (bool_decide (v = []))) (split c_slash (trim_matches (Z.eqb c_slash) suffix)).

(** The closure [read]: a value and the path values that are left. *)
Definition read_value (uri : Uri) (h : HeaderMap) (placement : Placement) (key : str)
    (paths : list str) : option str * list str :=
  match placement with
  | Path => (head paths, tail paths)
  | Query => (query_value uri key, paths)
  | Header => (header_get h key, paths)
  | Cookie => (cookie_value h key, paths)
  | _ => (None, paths)
  end.

Definition extract_metadata (c : TransportConfig) (uri : Uri) (h : HeaderMap)
    : option str * option Z :=
  let '(session, paths) := read_value uri h c.(session_placement) c.(session_key) (path_values c uri) in
  let '(sequence, _) := read_value uri h c.(sequence_placement) c.(sequence_key) paths in
  (session, v ← sequence; parse_uint 64 v).

(** ** Payload *)

(** [slice.chunks(n)] *)
Fixpoint chunks_loop (fuel n : nat) (b : bytes) : list bytes :=
  match fuel, b with
  | S fuel, _ :: _ => take n b :: chunks_loop fuel n (drop n b)
  | _, _ => []
  end.
Definition chunks (n : nat) (b : bytes) : list bytes := chunks_loop (length b) n b.

Definition numbered (key sep : str) (i : nat) : str := key ++ sep ++ print_uint (Z.of_nat i).

Fixpoint put_headers (key : str) (i : nat) (cs : list bytes) (h : HeaderMap) : result HeaderMap :=
  match cs with
  | [] => Ok h
  | chunk :: cs =>
    n ← context (header_name (numbered key (lit "-") i)) "invalid header name";
    v ← context (header_value chunk) "invalid header value";
    put_headers key (S i) cs (headers_insert h n v)
  end.

Fixpoint put_cookies (key : str) (i : nat) (cs : list bytes) (h : HeaderMap) : result HeaderMap :=
  match cs with
  | [] => Ok h
  | chunk :: cs =>
    chunk ← from_utf8 chunk;
    h ← append_cookie h (numbered key (lit "_") i) chunk;
    put_cookies key (S i) cs h
  end.

Definition put_payload (c : TransportConfig) (payload : bytes) (h : HeaderMap)
    : result (option bytes * HeaderMap) :=
  match c.(data_placement) with
  | Body | Auto => Ok (Some payload, h)
  | Header =>
    h ← put_headers c.(data_key) 0 (chunks 3000 (b64_encode payload)) h; Ok (None, h)
  | Cookie =>
    h ← put_cookies c.(data_key) 0 (chunks 2000 (b64_encode payload)) h; Ok (None, h)
  | _ => Err "invalid payload placement"
  end.

Fixpoint collect_loop (fuel : nat) (key sep : str) (get : str → option str) (i : nat) (out : str)
    : result str :=
  match fuel with
  | O => Diverge
  | S fuel =>
    match get (numbered key sep i) with
    | None => Ok out
    | Some v => collect_loop fuel key sep get (S i) (out ++ v)
    end
  end.

(** The keys asked for are distinct, so a request with [n] headers or cookies
    answers at most [n] of them. *)
Definition collect_headers (c : TransportConfig) (h : HeaderMap) : result str :=
  collect_loop (S (length (names h))) c.(data_key) (lit "-") (header_get h) 0 [].
Definition collect_cookies (c : TransportConfig) (h : HeaderMap) : result str :=
  collect_loop (S (length (cookie_parts h))) c.(data_key) (lit "_") (cookie_value h) 0 [].

Definition decode_nonempty (encoded : str) : result bytes :=
  if decide (encoded = []) then Ok []
  else context (b64_decode encoded) "invalid base64url packet payload".

Definition extract_payload (c : TransportConfig) (h : HeaderMap) (body : bytes) : result bytes :=
  match c.(data_placement) with
  | Auto =>
    in_headers ← collect_headers c h;
    in_cookies ← collect_cookies c h;
    a ← decode_nonempty in_headers;
    b ← decode_nonempty in_cookies;
    Ok (a ++ b ++ body)
  | Body => Ok body
  | Header =>
    encoded ← collect_headers c h; context (b64_decode encoded) "invalid base64url packet payload"
  | Cookie =>
    encoded ← collect_cookies c h; context (b64_decode encoded) "invalid base64url packet payload"
  | _ => Err "invalid payload placement"
  end.

Definition extract_payload_bytes (c : TransportConfig) (h : HeaderMap) (body : bytes) : result bytes :=
  match c.(data_placement) with
  | Body => Ok body
  | _ => extract_payload c h body
  end.

(** ** The client's requests (client.rs) *)

Definition build_request_base (server : str) (c : TransportConfig) : result (Url * HeaderMap) :=
  url ← context (url_parse server) "invalid server URL";
  let url := if str_eqb (url_path url) (lit "/") then set_path url c.(path) else url in
  let url := if ends_with [c_slash] (url_path url) then url
             else set_path url (url_path url ++ [c_slash]) in
  let url := match c.(query) with
             | Some q => foldl (λ u '(k, v), append_pair u k v) url (form_parse q)
             | None => url
             end in
  h ← add_common_headers c headers_new;
  match c.(host) with
  | Some host =>
    v ← context (header_value host) "invalid header value";
    n ← context (header_name (lit "host")) "invalid header name";
    Ok (url, headers_insert h n v)
  | None => Ok (url, h)
  end.

Definition request (pick : Z → Z → Z) (spare : nat) (base : Url * HeaderMap) (c : TransportConfig)
    (session : option str) (sequence : option Z) : result (Url * HeaderMap) :=
  '(url, h) ← apply_padding pick spare c base.1 base.2;
  apply_metadata c url h session sequence.

End protocol.

(** ** Lemmas on headers and cookies *)

Lemma unreserved_visible c : unreserved c → visible c.
Proof. unfold unreserved, visible. lia. Qed.

Lemma unreserved_digit c : is_digit c → unreserved c.
Proof. unfold is_digit, unreserved. lia. Qed.

Lemma token_visible s : Forall unreserved s → Forall visible s.
Proof. intros H. eapply Forall_impl; [exact H|apply unreserved_visible]. Qed.

Lemma unreserved_print n : u128 n → Forall unreserved (print_uint n).
Proof.
  intros Hn. eapply Forall_impl; [apply (print_uint_digits n Hn)|]. apply unreserved_digit.
Qed.

(** The indices that occur: a message has fewer than 2^32 parts. *)
Definition small (i : nat) : Prop := Z.of_nat i < 2 ^ 32.

Lemma small_u128 i : small i → u128 (Z.of_nat i).
Proof. unfold small, uint. lia. Qed.

Lemma numbered_token key sep i :
  token_str key → Forall unreserved sep → small i → token_str (numbered key sep i).
Proof.
  intros [Hne Hk] Hs Hi. split.
  - unfold numbered. by destruct key.
  - unfold numbered. repeat (apply Forall_app; split); try done.
    by apply unreserved_print, small_u128.
Qed.

Lemma numbered_inj key sep i j :
  small i → small j →
  to_ascii_lowercase (numbered key sep i) = to_ascii_lowercase (numbered key sep j) → i = j.
Proof.
  intros Hi%small_u128 Hj%small_u128. unfold numbered. rewrite !to_ascii_lowercase_app.
  intros H%(inj _)%(inj _). rewrite !to_ascii_lowercase_digits in H by by apply print_uint_digits.
  apply print_uint_inj in H; [lia|done..].
Qed.

Lemma chunks_loop_spec (P : Z → Prop) fuel n b :
  (0 < n)%nat → (length b ≤ fuel)%nat → Forall P b →
  concat (chunks_loop fuel n b) = b ∧ Forall (Forall P) (chunks_loop fuel n b) ∧
  (length (chunks_loop fuel n b) ≤ length b)%nat.
Proof.
  intros Hn. revert b. induction fuel as [|fuel IH]; intros b Hl HP.
  { destruct b; cbn in *; [done|lia]. }
  destruct b as [|x b]; [done|]. cbn [chunks_loop].
  destruct (IH (drop n (x :: b))) as (Hc & HF & Hlen).
  { rewrite length_drop. cbn in *. lia. }
  { by apply Forall_drop. }
  split_and!.
  - cbn [concat]. rewrite Hc. apply take_drop.
  - constructor; [by apply Forall_take|done].
  - cbn [length]. rewrite length_drop in Hlen. cbn in Hlen. lia.
Qed.

Section laws.
Context `{HL : HttpLib} {laws : HttpLaws HL}.

Lemma header_get_insert h n v s s' :
  header_name s = Some n → header_name s' = Some n → header_get (headers_insert h n v) s' = to_str v.
Proof.
  intros Hn Hn'. unfold header_get. rewrite Hn'. cbn. by rewrite get_all_insert, decide_True.
Qed.

Lemma header_get_insert_ne h n v s :
  header_name s ≠ Some n → header_get (headers_insert h n v) s = header_get h s.
Proof.
  intros Hn. unfold header_get. destruct (header_name s) as [n'|]; cbn; [|done].
  by rewrite get_all_insert, decide_False by congruence.
Qed.

(** A cookie part as the client writes it is its own trimming and its own
    split. *)
Lemma cookie_part_eq key value k :
  Forall unreserved key → Forall unreserved value → key ≠ [] →
  cookie_part k (key ++ [c_equals] ++ value) = if str_eqb key k then Some value else None.
Proof.
  intros Hk Hv Hne. unfold cookie_part, trim_matches.
  assert (∀ c, unreserved c ∨ c = c_equals → is_space c = false) as Hsp.
  { intros c Hc. unfold is_space, in_range, c_space, c_equals, unreserved in *.
    apply orb_false_iff. split; [apply Z.eqb_neq|apply andb_false_iff; rewrite !Z.leb_gt]; lia. }
  assert (Forall (λ c, is_space c = false) (key ++ [c_equals] ++ value)) as Hall.
  { repeat (apply Forall_app; split).
    - eapply Forall_impl; [exact Hk|]. intros c ?. apply Hsp. by left.
    - repeat constructor.
    - eapply Forall_impl; [exact Hv|]. intros c ?. apply Hsp. by left. }
  rewrite Forall_forall in Hall.
  rewrite trim_start_id; [|intros c Hc; apply Hall; by apply head_Some_elem_of].
  rewrite trim_end_id; [|intros c Hc; apply Hall; by apply last_Some_elem_of].
  cbn [app]. rewrite split_once_app; [done|]. intros Hin. rewrite Forall_forall in Hk.
  apply Hk in Hin. unfold unreserved, c_equals in Hin. lia.
Qed.

Lemma cookie_parts_append h key value :
  Forall unreserved key → Forall unreserved value →
  ∃ h', append_cookie h key value = Ok h' ∧
    cookie_parts h' = cookie_parts h ++ [key ++ [c_equals] ++ value] ∧
    (∀ n, n ≠ COOKIE → get_all h' n = get_all h n).
Proof.
  intros Hk Hv. unfold append_cookie.
  destruct (header_value_visible (key ++ [c_equals] ++ value)) as (v & -> & Hs).
  { repeat (apply Forall_app; split); [by apply token_visible| |by apply token_visible].
    apply Forall_singleton. unfold visible, c_equals. lia. }
  cbn [context mbind result_bind]. eexists. split_and!; [done| |].
  - unfold cookie_parts. rewrite get_all_append, decide_True by done.
    rewrite omap_app. cbn [omap list_omap]. rewrite Hs.
    rewrite fmap_app, concat_app. cbn [fmap list_fmap concat]. rewrite app_nil_r. f_equal.
    apply split_word. intros [Hin|[Hin|Hin]%elem_of_app]%elem_of_app.
    + rewrite Forall_forall in Hk. apply Hk in Hin. unfold unreserved, c_semicolon in Hin. lia.
    + apply list_elem_of_singleton in Hin. done.
    + rewrite Forall_forall in Hv. apply Hv in Hin. unfold unreserved, c_semicolon in Hin. lia.
  - intros n Hn. rewrite get_all_append, decide_False by done. by rewrite app_nil_r.
Qed.

Lemma cookie_append h key value :
  Forall unreserved key → Forall unreserved value → key ≠ [] →
  ∃ h', append_cookie h key value = Ok h' ∧
    (∀ k, cookie_value h' k = match cookie_value h k with
                              | Some x => Some x
                              | None => if str_eqb key k then Some value else None
                              end) ∧
    (∀ s, header_name s ≠ Some COOKIE → header_get h' s = header_get h s).
Proof.
  intros Hk Hv Hne. destruct (cookie_parts_append h key value Hk Hv) as (h' & -> & Hp & Hg).
  exists h'. split_and!; [done| |].
  - intros k. unfold cookie_value. rewrite Hp, find_map_app. cbn [find_map].
    rewrite cookie_part_eq by done. by destruct (str_eqb key k).
  - intros s Hs. unfold header_get. destruct (header_name s); cbn; [|done]. by rewrite Hg by congruence.
Qed.

(** ** The numbered headers and cookies of a payload *)

Lemma collect_loop_found fuel key sep get i cs out :
  (∀ j c, cs !! j = Some c → get (numbered key sep (i + j)) = Some c) →
  get (numbered key sep (i + length cs)) = None → (length cs < fuel)%nat →
  collect_loop fuel key sep get i out = Ok (out ++ concat cs).
Proof.
  revert fuel i out. induction cs as [|c cs IH]; intros fuel i out Hc Hn Hf;
    (destruct fuel as [|fuel]; [cbn in Hf; lia|]); cbn [collect_loop].
  - cbn [length] in Hn. rewrite Nat.add_0_r in Hn. rewrite Hn. cbn. by rewrite app_nil_r.
  - pose proof (Hc 0%nat c eq_refl) as H0. rewrite Nat.add_0_r in H0. rewrite H0.
    rewrite IH; [by rewrite <- app_assoc| | |cbn in Hf; lia].
    + intros j c' Hj. specialize (Hc (S j) c' Hj). by rewrite Nat.add_succ_r in Hc.
    + by replace (S i + length cs)%nat with (i + length (c :: cs))%nat by (cbn; lia).
Qed.

Lemma collect_loop_returns fuel key sep get i out :
  (∃ j, (j < fuel)%nat ∧ get (numbered key sep (i + j)) = None) →
  returns (collect_loop fuel key sep get i out).
Proof.
  revert i out. induction fuel as [|fuel IH]; intros i out (j & Hj & Hn); [lia|].
  cbn [collect_loop]. destruct (get (numbered key sep i)) eqn:E; [|done].
  destruct j as [|j]; [rewrite Nat.add_0_r in Hn; congruence|].
  apply IH. exists j. split; [lia|]. by replace (S i + j)%nat with (i + S j)%nat by lia.
Qed.

Lemma headers_counted h key sep n :
  small n → (∀ j, (j < n)%nat → header_get h (numbered key sep j) ≠ None) →
  (n ≤ length (names h))%nat.
Proof.
  intros Hn Hf. apply (pigeonhole (λ j, default COOKIE (header_name (numbered key sep j)))).
  - intros j Hj. specialize (Hf j Hj). unfold header_get in Hf.
    destruct (header_name _) as [m|]; cbn in *; [|done]. apply names_spec.
    by destruct (get_all h m).
  - intros i j Hi Hj. pose proof (Hf i Hi) as Hfi. pose proof (Hf j Hj) as Hfj.
    unfold header_get in Hfi, Hfj.
    destruct (header_name (numbered key sep i)) as [m|] eqn:Ei; [|done].
    destruct (header_name (numbered key sep j)) as [m'|] eqn:Ej; [|done]. cbn. intros <-.
    eapply numbered_inj; [| |exact (header_name_case _ _ _ Ei Ej)]; unfold small in *; lia.
Qed.

Lemma find_map_Some {A B} (f : A → option B) l b : find_map f l = Some b → ∃ a, a ∈ l ∧ f a = Some b.
Proof.
  induction l as [|a l IH]; cbn; [done|]. destruct (f a) eqn:E.
  - intros [= <-]. exists a. split; [by left|done].
  - intros (a' & ? & ?)%IH. exists a'. split; [by right|done].
Qed.

Lemma cookie_part_key k part v :
  cookie_part k part = Some v → fst <$> split_once c_equals (trim_matches is_space part) = Some k.
Proof.
  unfold cookie_part. destruct (split_once _ _) as [[name value]|]; cbn; [|done].
  destruct (str_eqb name k) eqn:E; [|done]. apply str_eqb_eq in E as ->. done.
Qed.

Lemma cookies_counted h key sep n :
  small n → (∀ j, (j < n)%nat → cookie_value h (numbered key sep j) ≠ None) →
  (n ≤ length (cookie_parts h))%nat.
Proof.
  intros Hn Hf.
  set (found j := default [] (List.find
         (λ p, bool_decide (is_Some (cookie_part (numbered key sep j) p))) (cookie_parts h))).
  assert (∀ j, (j < n)%nat → found j ∈ cookie_parts h ∧ is_Some (cookie_part (numbered key sep j) (found j)))
    as Hfound.
  { intros j Hj. unfold found. specialize (Hf j Hj). unfold cookie_value in Hf.
    destruct (find_map _ _) as [v|] eqn:E; [|done]. apply find_map_Some in E as (p & Hp & Hv).
    destruct (List.find _ _) as [q|] eqn:Eq; cbn.
    - apply List.find_some in Eq as [? Hd]. split; [by apply list_elem_of_In|].
      by apply bool_decide_eq_true in Hd.
    - exfalso. apply list_elem_of_In, (List.find_none _ _ Eq), bool_decide_eq_false in Hp.
      apply Hp. by exists v. }
  apply (pigeonhole found); [by apply Hfound|]. intros i j Hi Hj Heq.
  destruct (Hfound i Hi) as [_ [v Hv]]. destruct (Hfound j Hj) as [_ [w Hw]].
  rewrite Heq in Hv. apply cookie_part_key in Hv, Hw. rewrite Hv in Hw. injection Hw as Hk.
  eapply numbered_inj; [| |by rewrite Hk]; unfold small in *; lia.
Qed.

Lemma put_headers_spec key cs i h :
  token_str key → Forall (Forall unreserved) cs → small (i + length cs) →
  ∃ h', put_headers key i cs h = Ok h' ∧
    (∀ j c, cs !! j = Some c → header_get h' (numbered key (lit "-") (i + j)) = Some c) ∧
    (∀ j, small j → (j < i ∨ i + length cs ≤ j)%nat →
       header_get h' (numbered key (lit "-") j) = header_get h (numbered key (lit "-") j)).
Proof.
  intros Hk Hcs. revert i h. induction Hcs as [|c cs Hc _ IH]; intros i h Hi.
  { exists h. split_and!; [done|by intros ? ? ?|done]. }
  cbn [put_headers length] in *. assert (Forall unreserved (lit "-")) as Hsep.
  { by apply (bool_decide_unpack _). }
  assert (small i) as Hi' by (unfold small in *; lia).
  destruct (header_name_token _ (numbered_token key _ i Hk Hsep Hi')) as [n Hn].
  destruct (header_value_visible c (token_visible c Hc)) as (v & Hv & Hs). rewrite Hn, Hv.
  cbn [context mbind result_bind].
  destruct (IH (S i) (headers_insert h n v)) as (h' & -> & Hfound & Hrest).
  { by rewrite Nat.add_succ_comm. }
  exists h'. split_and!; [done| |].
  - intros [|j] c' Hj.
    + injection Hj as <-. rewrite Nat.add_0_r, Hrest by (done || lia).
      by rewrite (header_get_insert _ _ _ _ _ Hn Hn).
    + rewrite Nat.add_succ_r. by apply (Hfound j).
  - intros j Hj Hr. rewrite Hrest by (done || lia). apply header_get_insert_ne. intros Hn'.
    assert (i = j); [|lia]. eapply numbered_inj; [done..|]. by eapply header_name_case.
Qed.

Lemma put_cookies_spec key cs i h :
  token_str key → Forall (Forall unreserved) cs → small (i + length cs) →
  (∀ j, small j → cookie_value h (numbered key (lit "_") j) = None ∨ (j < i)%nat) →
  ∃ h', put_cookies key i cs h = Ok h' ∧
    (∀ j c, cs !! j = Some c → cookie_value h' (numbered key (lit "_") (i + j)) = Some c) ∧
    (∀ j, small j → (j < i ∨ i + length cs ≤ j)%nat →
       cookie_value h' (numbered key (lit "_") j) = cookie_value h (numbered key (lit "_") j)).
Proof.
  intros Hk Hcs. revert i h. induction Hcs as [|c cs Hc _ IH]; intros i h Hi Hfree.
  { exists h. split_and!; [done|by intros ? ? ?|done]. }
  cbn [put_cookies length] in *. unfold from_utf8. rewrite utf8_valid_ascii.
  2: { eapply Forall_impl; [exact Hc|]. unfold unreserved. lia. }
  assert (small i) as Hi' by (unfold small in *; lia).
  destruct (numbered_token key (lit "_") i Hk) as [Hne Htok]; [|done|].
  { by apply (bool_decide_unpack _). }
  cbn [mbind result_bind]. destruct (cookie_append h _ c Htok Hc Hne) as (h1 & -> & Hck & _). cbn [mbind result_bind].
  assert (∀ j, small j → j ≠ i → str_eqb (numbered key (lit "_") i) (numbered key (lit "_") j) = false)
    as Hneq.
  { intros j Hj Hji. unfold str_eqb. apply bool_decide_false. intros Heq.
    apply Hji. eapply numbered_inj; [done..|]. by rewrite Heq. }
  destruct (IH (S i) h1) as (h' & -> & Hfound & Hrest).
  { by rewrite Nat.add_succ_comm. }
  { intros j Hj. destruct (decide (j < S i)%nat) as [|Hge]; [by right|left].
    rewrite Hck. destruct (Hfree j Hj) as [-> |?]; [|lia]. by rewrite Hneq by (done || lia). }
  exists h'. split_and!; [done| |].
  - intros [|j] c' Hj.
    + injection Hj as <-. rewrite Nat.add_0_r, Hrest, Hck by (done || lia).
      destruct (Hfree i Hi') as [-> |?]; [|lia].
      by rewrite (proj2 (str_eqb_eq _ _)).
    + rewrite Nat.add_succ_r. by apply (Hfound j).
  - intros j Hj Hr. rewrite Hrest, Hck by (done || lia). rewrite Hneq by (done || lia).
    by destruct (cookie_value h _).
Qed.

Lemma collect_headers_put c cs h h' :
  token_str c.(data_key) → small (length cs) → Forall (Forall unreserved) cs →
  (∀ j, small j → header_get h (numbered c.(data_key) (lit "-") j) = None) →
  put_headers c.(data_key) 0 cs h = Ok h' → collect_headers c h' = Ok (concat cs).
Proof.
  intros Hk Hs Hu Hfree Hp.
  destruct (put_headers_spec c.(data_key) cs 0 h Hk Hu Hs) as (h2 & E & Hfound & Hrest).
  rewrite Hp in E. injection E as <-. unfold collect_headers.
  rewrite (collect_loop_found _ _ _ _ _ cs); [done|done| |].
  - cbn [Nat.add]. rewrite Hrest by (done || (right; cbn; lia)). by apply Hfree.
  - apply Nat.lt_succ_r. eapply headers_counted; [done|]. intros j Hj.
    destruct (lookup_lt_is_Some_2 cs j Hj) as [x Hx].
    by rewrite (Hfound j x Hx : header_get h' (numbered _ _ j) = _).
Qed.

Lemma collect_cookies_put c cs h h' :
  token_str c.(data_key) → small (length cs) → Forall (Forall unreserved) cs →
  (∀ j, small j → cookie_value h (numbered c.(data_key) (lit "_") j) = None) →
  put_cookies c.(data_key) 0 cs h = Ok h' → collect_cookies c h' = Ok (concat cs).
Proof.
  intros Hk Hs Hu Hfree Hp.
  destruct (put_cookies_spec c.(data_key) cs 0 h Hk Hu Hs) as (h2 & E & Hfound & Hrest).
  { intros j Hj. left. by apply Hfree. }
  rewrite Hp in E. injection E as <-. unfold collect_cookies.
  rewrite (collect_loop_found _ _ _ _ _ cs); [done|done| |].
  - cbn [Nat.add]. rewrite Hrest by (done || (right; cbn; lia)). by apply Hfree.
  - apply Nat.lt_succ_r. eapply cookies_counted; [done|]. intros j Hj.
    destruct (lookup_lt_is_Some_2 cs j Hj) as [x Hx].
    by rewrite (Hfound j x Hx : cookie_value h' (numbered _ _ j) = _).
Qed.

(** No numbered header or cookie of the payload is present. *)
Definition payload_free (c : TransportConfig) (h : HeaderMap) : Prop :=
  ∀ j, small j → header_get h (numbered c.(data_key) (lit "-") j) = None ∧
    cookie_value h (numbered c.(data_key) (lit "_") j) = None.

(** C9: A packet's payload survives the request: whatever its placement (the
    body, numbered headers of 3000 characters of base64, numbered cookies of
    2000, or the automatic choice), the server extracts the bytes the client
    put in, provided the request has no header or cookie of that name yet. *)
Theorem extract_put_payload c payload h :
  payload_placement c.(data_placement) = true → token_str c.(data_key) →
  Forall u8 payload → small (length (b64_encode payload)) → payload_free c h →
  ∃ body h', put_payload c payload h = Ok (body, h') ∧
    extract_payload_bytes c h' (default [] body) = Ok payload.
Proof.
  intros Hp Hk Hu Hs Hfree. unfold put_payload, extract_payload_bytes, extract_payload, chunks.
  pose proof (b64_decode_encode payload Hu) as Hdec. set (e := b64_encode payload) in *.
  assert (∀ n, (0 < n)%nat → let cs := chunks_loop (length e) n e in
    concat cs = e ∧ Forall (Forall unreserved) cs ∧ small (length cs)) as Hcs.
  { intros n Hn. destruct (chunks_loop_spec unreserved (length e) n e Hn) as (? & ? & ?);
      [done|apply b64_encode_unreserved|]. split_and!; [done..|]. unfold small in *. lia. }
  destruct (data_placement c) eqn:Ed; try done.
  - destruct (Hcs 3000%nat) as (Hc & HF & Hl); [lia|].
    destruct (put_headers_spec c.(data_key) _ 0 h Hk HF Hl) as (h' & E & _). rewrite E.
    exists None, h'. split; [done|]. erewrite collect_headers_put by (done || (intros; by apply Hfree)).
    cbn [mbind result_bind]. by rewrite Hc, Hdec.
  - destruct (Hcs 2000%nat) as (Hc & HF & Hl); [lia|].
    destruct (put_cookies_spec c.(data_key) _ 0 h Hk HF Hl) as (h' & E & _).
    { intros j Hj. left. by apply Hfree. }
    rewrite E. exists None, h'. split; [done|].
    erewrite collect_cookies_put by (done || (intros; by apply Hfree)).
    cbn [mbind result_bind]. by rewrite Hc, Hdec.
  - by exists (Some payload), h.
  - exists (Some payload), h. split; [done|].
    rewrite (collect_headers_put c [] h h) by (done || (intros; by apply Hfree)).
    by rewrite (collect_cookies_put c [] h h) by (done || (intros; by apply Hfree)).
Qed.

Lemma first_none (get : nat → option str) n :
  ((∀ j, (j < n)%nat → get j ≠ None) → False) → ∃ j, (j < n)%nat ∧ get j = None.
Proof.
  intros Hno. destruct (decide (Exists (λ j, get j = None) (seq 0 n))) as [He|Hnone].
  - apply Exists_exists in He as (j & Hj%elem_of_seq & ?). exists j. split; [lia|done].
  - exfalso. apply Hno. intros j Hj Hj'. apply Hnone, Exists_exists. exists j.
    split; [apply elem_of_seq; lia|done].
Qed.

(** The server always finishes extracting a payload: the loop over the
    numbered headers or cookies ends on every request with fewer than 2^32 of
    them. *)
Theorem extract_payload_returns c h body :
  small (S (length (names h))) → small (S (length (cookie_parts h))) →
  returns (extract_payload_bytes c h body).
Proof.
  intros Hn Hc.
  assert (returns (collect_headers c h)) as Hh.
  { apply collect_loop_returns, first_none. intros Hall.
    apply (Nat.nle_succ_diag_l (length (names h))). by eapply headers_counted. }
  assert (returns (collect_cookies c h)) as Hk.
  { apply collect_loop_returns, first_none. intros Hall.
    apply (Nat.nle_succ_diag_l (length (cookie_parts h))). by eapply cookies_counted. }
  unfold extract_payload_bytes, extract_payload, decode_nonempty.
  destruct (data_placement c); try done;
    repeat (apply returns_bind; [|intros ? _]); try done; try case_decide; try done;
    by destruct (b64_decode _).
Qed.

(** ** Session and sequence *)

Abbreviation trim_slashes := (trim_end_matches (Z.eqb c_slash)).

(** A path as [validate] leaves it, of characters that need no escape. *)
Definition plain_path (p : str) : Prop :=
  head p = Some c_slash ∧ Forall (λ c, unreserved c ∨ c = c_slash) p ∧
  (p = [c_slash] ∨ trim_slashes p = p).

(** The path [p] carries the values [ws] after the configured path [base]. *)
Definition path_carries (base : str) (ws : list str) (p : str) : Prop :=
  Forall token_str ws ∧
  match ws with
  | [] => head p = Some c_slash ∧ trim_slashes p = trim_slashes base
  | _ => p = trim_slashes base ++ [c_slash] ++ join [c_slash] ws
  end.

Lemma token_no_slash w c : token_str w → c ∈ w → c ≠ c_slash.
Proof.
  intros [_ Hw] Hc. rewrite Forall_forall in Hw. apply Hw in Hc. unfold unreserved, c_slash in *. lia.
Qed.

Lemma join_snoc sep ws w : ws ≠ [] → join sep (ws ++ [w]) = join sep ws ++ sep ++ w.
Proof.
  induction ws as [|x ws IH]; [done|]. intros _. destruct ws as [|y ws]; [done|].
  change ((x :: y :: ws) ++ [w]) with (x :: ((y :: ws) ++ [w])).
  rewrite join_cons by (by destruct ws). rewrite IH by done. rewrite (join_cons sep x) by done.
  by rewrite <- !app_assoc.
Qed.

Lemma trim_slashes_token p w : token_str w → trim_slashes (p ++ w) = p ++ w.
Proof.
  intros Hw. apply trim_end_id. intros c Hc. apply Z.eqb_neq. intros <-.
  destruct Hw as [Hne Hall]. rewrite last_app in Hc.
  destruct (last w) as [x|] eqn:El; [|by apply last_None in El].
  injection Hc as ->. apply last_Some_elem_of in El. by eapply (token_no_slash w).
Qed.

Lemma trim_slashes_join p ws :
  ws ≠ [] → Forall token_str ws → trim_slashes (p ++ join [c_slash] ws) = p ++ join [c_slash] ws.
Proof.
  intros Hne Hws. destruct (exists_last Hne) as (init & w & ->).
  apply Forall_app in Hws as [_ [Hw _]%Forall_cons].
  destruct init as [|x init]; [exact (trim_slashes_token p w Hw)|].
  rewrite join_snoc by done. rewrite !app_assoc. by apply trim_slashes_token.
Qed.

Lemma path_carries_snoc base ws p w :
  path_carries base ws p → token_str w →
  path_carries base (ws ++ [w]) (trim_slashes p ++ [c_slash] ++ w).
Proof.
  intros [Hws Hp] Hw. split; [by apply Forall_app; auto|].
  destruct ws as [|w0 ws]; [by destruct Hp as [_ ->]|].
  change ((w0 :: ws) ++ [w]) with (w0 :: (ws ++ [w])). cbn iota. subst p.
  change (w0 :: ws ++ [w]) with ((w0 :: ws) ++ [w]). rewrite join_snoc by done.
  rewrite (app_assoc (trim_slashes base)), trim_slashes_join by done. by rewrite <- !app_assoc.
Qed.

Lemma plain_path_cases p :
  plain_path p → (p = [c_slash] ∧ trim_slashes p = []) ∨ (trim_slashes p = p).
Proof. intros (_ & _ & [-> | ?]); [by left|by right]. Qed.

Lemma trim_matches_slashes s : trim_slashes s = [] → trim_matches (Z.eqb c_slash) s = [].
Proof.
  intros Hs. destruct (trim_end_spec (Z.eqb c_slash) s) as (p & E & Hp). rewrite Hs in E.
  cbn in E. subst p. unfold trim_matches.
  assert (trim_start_matches (Z.eqb c_slash) s = []) as ->; [|done].
  clear Hs. induction Hp as [|c s Hc _ IH]; [done|]. cbn [trim_start_matches]. by rewrite Hc.
Qed.

Lemma trim_matches_join pre ws :
  ws ≠ [] → Forall token_str ws → pre = [] ∨ pre = [c_slash] →
  trim_matches (Z.eqb c_slash) (pre ++ join [c_slash] ws) = join [c_slash] ws.
Proof.
  intros Hne Hws Hpre. unfold trim_matches. destruct ws as [|w ws]; [done|].
  assert (trim_start_matches (Z.eqb c_slash) (join [c_slash] (w :: ws)) = join [c_slash] (w :: ws))
    as Hts.
  { apply trim_start_id. intros x Hx. apply Z.eqb_neq. intros <-.
    apply Forall_cons in Hws as [Hw _]. destruct w as [|y w]; [by destruct Hw|].
    assert (head (join [c_slash] ((y :: w) :: ws)) = Some y) as Hy by (by destruct ws).
    rewrite Hy in Hx. injection Hx as ->. by eapply (token_no_slash _ _ Hw); [left|]. }
  destruct Hpre as [-> | ->]; cbn [app trim_start_matches];
    [|change (c_slash =? c_slash) with true; cbn iota]; rewrite Hts;
    exact (trim_slashes_join [] (w :: ws) Hne Hws).
Qed.

(** Nothing but slashes after the configured path. *)
Lemma strip_slashes base p :
  plain_path base → trim_slashes p = trim_slashes base →
  trim_slashes (default [] (strip_prefix base p)) = [].
Proof.
  intros Hb Ht. destruct (strip_prefix _ _) as [r|] eqn:E; [|done]. cbn.
  apply strip_prefix_Some in E.
  destruct (trim_end_spec (Z.eqb c_slash) p) as (sl & Es & Hsl). rewrite Ht in Es.
  assert (Forall (λ x, (c_slash =? x) = true) r) as Hr.
  { rewrite Es in E. destruct (plain_path_cases _ Hb) as [[Hb1 Hb2]|Hb2].
    - rewrite Hb2, Hb1 in E. cbn in E. subst sl. by inversion Hsl.
    - rewrite Hb2 in E. apply (inj _) in E. by subst. }
  destruct (trim_end_spec (Z.eqb c_slash) r) as (sl' & Er & _).
  destruct (last (trim_slashes r)) as [x|] eqn:El; [|by apply last_None].
  pose proof (trim_end_last _ _ _ El) as Hx. apply last_Some_elem_of in El.
  rewrite Forall_forall in Hr. rewrite (Hr x) in Hx; [done|]. rewrite Er. apply elem_of_app. by left.
Qed.

Lemma path_values_carried c u ws :
  plain_path c.(path) → path_carries c.(path) ws (uri_path u) → path_values c u = ws.
Proof.
  intros Hb [Hws Hp]. unfold path_values. destruct ws as [|w ws].
  { destruct Hp as [_ Ht]. by rewrite (trim_matches_slashes _ (strip_slashes _ _ Hb Ht)). }
  assert (∃ pre, default [] (strip_prefix (path c) (uri_path u)) = pre ++ join [c_slash] (w :: ws)
            ∧ (pre = [] ∨ pre = [c_slash])) as (pre & -> & Hpre).
  { rewrite Hp. destruct (plain_path_cases _ Hb) as [[Hb1 Hb2]|Hb2].
    - exists []. rewrite Hb2, Hb1. split; [|by left].
      by rewrite (proj2 (strip_prefix_Some [c_slash] _ (join [c_slash] (w :: ws)))).
    - exists [c_slash]. rewrite Hb2. split; [|by right].
      by rewrite (proj2 (strip_prefix_Some (path c) _ ([c_slash] ++ join [c_slash] (w :: ws)))). }
  rewrite trim_matches_join, split_join; [|done| |done..].
  - apply forallb_filter_id, forallb_forall. intros x Hx%list_elem_of_In.
    apply negb_true_iff, bool_decide_eq_false. rewrite Forall_forall in Hws. by apply Hws.
  - eapply Forall_impl; [exact Hws|]. cbn. intros x Hx Hin. by eapply (token_no_slash x).
Qed.

(** The value a request carries outside its path. *)
Definition lookup_at (p : Placement) (key : str) (u : Url) (h : HeaderMap) : option str :=
  match p with
  | Query => query_value (uri_of_url u) key
  | Header => header_get h key
  | Cookie => cookie_value h key
  | _ => None
  end.

(** A header placement must not be the cookie header itself. *)
Definition key_ok (p : Placement) (key : str) : Prop :=
  token_str key ∧ (p = Header → header_name key ≠ Some COOKIE).

Lemma query_value_append_pair u k v key :
  query_value (uri_of_url (append_pair u k v)) key
  = if str_eqb k key then Some v else query_value (uri_of_url u) key.
Proof.
  unfold query_value, uri_of_url; cbn [uri_query].
  destruct (form_parse_append_pair u k v) as (q & -> & Hq). cbn [mbind option_bind]. rewrite Hq.
  rewrite foldl_app. cbn [foldl]. destruct (str_eqb k key); [done|]. by destruct (url_query u).
Qed.

Lemma query_value_set_path u p key :
  query_value (uri_of_url (set_path u p)) key = query_value (uri_of_url u) key.
Proof. unfold query_value, uri_of_url; cbn [uri_query]. by rewrite url_query_set_path. Qed.

Lemma path_carries_plain base ws p :
  plain_path base → path_carries base ws p →
  head (trim_slashes p ++ [c_slash]) = Some c_slash ∧
  Forall (λ c, unreserved c ∨ c = c_slash) (trim_slashes p).
Proof.
  intros Hb [Hws Hp].
  assert (head (trim_slashes base ++ [c_slash]) = Some c_slash ∧
          Forall (λ c, unreserved c ∨ c = c_slash) (trim_slashes base)) as [Hh Hf].
  { pose proof Hb as (Hb1 & Hb2 & _). destruct (plain_path_cases _ Hb) as [[_ ->]| ->].
    - split; [done|constructor].
    - split; [|done]. by destruct base. }
  destruct ws as [|w ws]; [by destruct Hp as [_ ->]|]. subst p.
  rewrite app_assoc, trim_slashes_join, <- app_assoc by done. split.
  - destruct (trim_slashes base); [done|]. exact Hh.
  - repeat (apply Forall_app; split); [done|apply Forall_singleton; by right|].
    clear -Hws. induction Hws as [|x l [_ Hx] _ IH]; [constructor|].
    assert (Forall (λ c, unreserved c ∨ c = c_slash) x) as Hx'
      by (eapply Forall_impl; [exact Hx|]; by left).
    destruct l as [|y l]; [done|]. rewrite join_cons by done.
    apply Forall_app; split; [done|]. apply Forall_app; split; [apply Forall_singleton; by right|done].
Qed.

Lemma str_eqb_neq a b : a ≠ b → str_eqb a b = false.
Proof. intros. unfold str_eqb. by apply bool_decide_false. Qed.

(** Writing a value: it can be read back, and nothing else changes. *)
Lemma apply_value_spec base p key v u h ws :
  plain_path base → metadata_placement p = true → key_ok p key → token_str v →
  (p = Cookie → cookie_value h key = None) → path_carries base ws (url_path u) →
  ∃ u' h', apply_value p key v u h = Ok (u', h') ∧
    path_carries base (ws ++ if decide (p = Path) then [v] else []) (url_path u') ∧
    (p ≠ Path → lookup_at p key u' h' = Some v) ∧
    (∀ p' k', key_ok p' k' → p' ≠ p ∨ to_ascii_lowercase k' ≠ to_ascii_lowercase key →
       lookup_at p' k' u' h' = lookup_at p' k' u h).
Proof.
  intros Hb Hp [[Hkne Hk] Hhdr] [Hvne Hv] Hck Hpath. unfold apply_value. destruct p; try done.
  - rewrite decide_True by done. destruct (path_carries_plain _ _ _ Hb Hpath) as [Hh Hf].
    do 2 eexists. split; [done|]. rewrite url_path_set_path.
    + split_and!; [by apply path_carries_snoc|done|]. intros p' k' _ _.
      destruct p'; try done. apply query_value_set_path.
    + destruct (trim_slashes (url_path u)); done.
    + repeat (apply Forall_app; split); [done|apply Forall_singleton; by right|].
      eapply Forall_impl; [exact Hv|]. by left.
  - rewrite decide_False by done. do 2 eexists. split; [done|].
    rewrite url_path_append_pair, app_nil_r. split_and!; [done| |].
    + intros _. cbn. rewrite query_value_append_pair. by rewrite (proj2 (str_eqb_eq _ _)).
    + intros p' k' _ Hne. destruct p'; try done. cbn. rewrite query_value_append_pair.
      rewrite str_eqb_neq; [done|]. intros ->. by destruct Hne.
  - rewrite decide_False by done. destruct (header_name_token key (conj Hkne Hk)) as [n Hn].
    destruct (header_value_visible v (token_visible v Hv)) as (x & Hx & Hs). rewrite Hn, Hx.
    cbn [context mbind result_bind]. do 2 eexists. split; [done|]. rewrite app_nil_r.
    split_and!; [done| |].
    + intros _. cbn. by rewrite (header_get_insert _ _ _ _ _ Hn Hn).
    + intros p' k' [_ Hk'] Hne. destruct p'; try done; cbn.
      * apply header_get_insert_ne. intros Hn'. pose proof (header_name_case _ _ _ Hn' Hn).
        by destruct Hne.
      * unfold cookie_value, cookie_parts. rewrite get_all_insert, decide_False; [done|].
        intros <-. by apply Hhdr.
  - rewrite decide_False by done. destruct (cookie_append h key v Hk Hv Hkne) as (h' & -> & Hval & Hget).
    cbn [mbind result_bind]. do 2 eexists. split; [done|]. rewrite app_nil_r. split_and!; [done| |].
    + intros _. cbn. rewrite Hval, Hck by done. by rewrite (proj2 (str_eqb_eq _ _)).
    + intros p' k' [_ Hk'] Hne. destruct p'; try done; cbn.
      * apply Hget. by apply Hk'.
      * rewrite Hval, str_eqb_neq; [by destruct (cookie_value h k')|]. intros ->. by destruct Hne.
Qed.

(** The layout of the metadata: usable keys, two different ones when both
    values share a placement other than the path. *)
Definition metadata_layout (c : TransportConfig) : Prop :=
  plain_path c.(path) ∧
  metadata_placement c.(session_placement) = true ∧ metadata_placement c.(sequence_placement) = true ∧
  key_ok c.(session_placement) c.(session_key) ∧ key_ok c.(sequence_placement) c.(sequence_key) ∧
  (c.(session_placement) ≠ c.(sequence_placement) ∨ c.(session_placement) = Path ∨
   to_ascii_lowercase c.(session_key) ≠ to_ascii_lowercase c.(sequence_key)).

(** The request carries no metadata yet. *)
Definition metadata_free (c : TransportConfig) (u : Url) (h : HeaderMap) : Prop :=
  lookup_at c.(session_placement) c.(session_key) u h = None ∧
  lookup_at c.(sequence_placement) c.(sequence_key) u h = None ∧
  path_carries c.(path) [] (url_path u).

Lemma read_value_at u h p key paths :
  metadata_placement p = true →
  read_value (uri_of_url u) h p key paths
  = (if decide (p = Path) then head paths else lookup_at p key u h,
     if decide (p = Path) then tail paths else paths).
Proof. by destruct p. Qed.

Lemma extract_metadata_at c u h ws :
  metadata_layout c → path_carries c.(path) ws (url_path u) →
  extract_metadata c (uri_of_url u) h =
  let in_path := decide (c.(session_placement) = Path) in
  (if in_path then head ws else lookup_at c.(session_placement) c.(session_key) u h,
   v ← (if decide (c.(sequence_placement) = Path) then head (if in_path then tail ws else ws)
        else lookup_at c.(sequence_placement) c.(sequence_key) u h); parse_uint 64 v).
Proof.
  intros (Hb & Hp1 & Hp2 & _) Hws. unfold extract_metadata.
  by rewrite (path_values_carried c (uri_of_url u) ws Hb Hws), !read_value_at.
Qed.

(** C10: The server recovers the metadata of a request: for every placement of
    the session id and of the sequence number, what [extract_metadata] reads
    from the request of [apply_metadata] is what was written, both of them, the
    session alone, or neither. *)
Theorem extract_apply_metadata c u h session sequence :
  metadata_layout c → metadata_free c u h →
  (∀ id, session = Some id → token_str id) → (∀ n, sequence = Some n → u64 n) →
  (session = None → sequence = None) →
  ∃ u' h', apply_metadata c u h session sequence = Ok (u', h') ∧
    extract_metadata c (uri_of_url u') h' = (session, sequence).
Proof.
  intros Hl (Hfs & Hfq & Hpath) Hid Hseq Hboth.
  pose proof Hl as (Hb & Hp1 & Hp2 & Hk1 & Hk2 & Hne). unfold apply_metadata.
  destruct session as [id|]; cycle 1.
  { rewrite Hboth by done. do 2 eexists. split; [done|]. rewrite (extract_metadata_at c u h []) by done.
    cbn zeta. rewrite Hfs, Hfq. by repeat case_decide. }
  specialize (Hid id eq_refl).
  destruct (apply_value_spec c.(path) _ _ id u h [] Hb Hp1 Hk1 Hid) as (u1 & h1 & -> & Hc1 & Hv1 & Hfr1);
    [intros E; by rewrite E in Hfs|done|]. cbn [mbind result_bind app] in *.
  assert (c.(session_placement) = Path ∨ (c.(sequence_placement) ≠ c.(session_placement) ∨
    to_ascii_lowercase (sequence_key c) ≠ to_ascii_lowercase (session_key c))) as Hne'
    by (destruct Hne as [?|[?|?]]; auto).
  assert (c.(sequence_placement) ≠ Path → lookup_at c.(sequence_placement) c.(sequence_key) u1 h1 = None)
    as Hq1.
  { intros Hnp. rewrite Hfr1; [done..|]. destruct Hne' as [E|?]; [left; congruence|done]. }
  destruct sequence as [n|]; cycle 1.
  { do 2 eexists. split; [done|]. rewrite (extract_metadata_at c u1 h1 _ Hl Hc1). cbn zeta.
    f_equal; repeat case_decide; try done; auto; by rewrite Hq1. }
  specialize (Hseq n eq_refl). assert (token_str (print_uint n)) as Htok.
  { assert (u128 n) as Hn by (unfold uint in *; lia). split; [by apply print_uint_digits|].
    by apply unreserved_print. }
  destruct (apply_value_spec c.(path) _ _ (print_uint n) u1 h1
      (if decide (c.(session_placement) = Path) then [id] else []) Hb Hp2 Hk2 Htok) as
    (u2 & h2 & -> & Hc2 & Hv2 & Hfr2);
    [intros E; rewrite E in Hq1; by apply Hq1|exact Hc1|].
  do 2 eexists. split; [done|]. rewrite (extract_metadata_at c u2 h2 _ Hl Hc2). cbn zeta.
  pose proof (parse_print_uint 64 n ltac:(lia) Hseq) as Hparse.
  f_equal; repeat case_decide; cbn [app head tail mbind option_bind]; try done.
  1-2: rewrite Hfr2; [by auto|done|]; destruct Hne as [?|[?|?]]; auto.
  all: by rewrite Hv2.
Qed.

(** ** Padding *)

(** The padding's spot is usable and still free. *)
Definition padding_free (c : TransportConfig) (u : Url) (h : HeaderMap) : Prop :=
  let '(p, key, header) := padding_spot c in
  padding_placement_ok p = true ∧ token_str key ∧ token_str header ∧
  match p with
  | Cookie => cookie_value h key = None
  | Query | QueryInHeader => assoc_first key (query_pairs u) = None
  | _ => True
  end.

Lemma assoc_first_append u k v :
  assoc_first k (query_pairs u) = None → assoc_first k (query_pairs (append_pair u k v)) = Some v.
Proof.
  intros Hf. unfold query_pairs at 1. destruct (form_parse_append_pair u k v) as (q & -> & Hq).
  change (default [] (form_parse <$> Some q)) with (form_parse q). rewrite Hq.
  unfold assoc_first in *. rewrite find_map_app. fold (query_pairs u). rewrite Hf. cbn.
  by rewrite (proj2 (str_eqb_eq _ _)).
Qed.

Lemma header_get_try_insert h name value :
  token_str name → Forall visible value → header_get (try_insert h name value) name = Some value.
Proof.
  intros Hn Hv. unfold try_insert. destruct (header_name_token name Hn) as [n En].
  destruct (header_value_visible value Hv) as (v & -> & Hs). rewrite En.
  by rewrite (header_get_insert _ _ _ _ _ En En).
Qed.

Lemma apply_padding_valid pick spare c u h :
  0 ≤ c.(padding_min) ≤ c.(padding_max) → tokenish c.(padding_method) = false →
  (∀ a b, a ≤ b → a ≤ pick a b ≤ b) → padding_free c u h →
  ∃ u' h', apply_padding pick spare c u h = Ok (u', h') ∧
    valid_padding c (uri_of_url u') h' = true.
Proof.
  intros Hr Hm Hpick Hfree. unfold apply_padding, valid_padding, padding_value, padding_free in *.
  rewrite Hm. cbn [negb mbind result_bind].
  set (len := padding_length pick c). set (value := replicate (Z.to_nat len) 88).
  assert (c.(padding_min) ≤ len ≤ c.(padding_max)) as Hlen.
  { unfold len, padding_length. destruct (_ =? _) eqn:E; bool_to_prop; [lia|]. apply Hpick. lia. }
  assert (Forall unreserved value) as Hu.
  { apply Forall_replicate. unfold unreserved. lia. }
  assert (Z.of_nat (length value) = len) as Hl by (unfold value; rewrite length_replicate; lia).
  assert ((Z.of_nat (length value) + 2 >=? c.(padding_min))
          && (Z.of_nat (length value) <=? c.(padding_max) + 2) = true) as Hok.
  { apply andb_true_iff. rewrite Z.geb_leb, !Z.leb_le. lia. }
  destruct (padding_spot c) as [[p key] header].
  destruct Hfree as (Hp & [Hkne Hk] & Hhd & Hf). destruct p; try done.
  - do 2 eexists. split; [done|]. unfold uri_of_url. cbn [uri_query].
    pose proof (assoc_first_append u key value Hf) as Ha. unfold query_pairs in Ha.
    destruct (url_query _) as [q|]; [|done].
    change (default [] (form_parse <$> Some q)) with (form_parse q) in Ha.
    cbn [mbind option_bind]. by rewrite Ha.
  - do 2 eexists. split; [done|]. rewrite header_get_try_insert; [done|done|by apply token_visible].
  - destruct (cookie_append h key value Hk Hu Hkne) as (h' & -> & Hval & _).
    do 2 eexists. split; [done|]. rewrite Hval, Hf. by rewrite (proj2 (str_eqb_eq _ _)).
  - do 2 eexists. split; [done|]. rewrite header_get_try_insert; [|done|apply url_as_str_visible].
    cbn [mbind option_bind]. rewrite url_parse_as_str. cbn [mbind option_bind].
    by rewrite assoc_first_append.
Qed.

(** The server accepts the client's padding: with the default method, the
    padding written at any of its four placements has an accepted length,
    whichever length the generator picked from the configured range. *)
Theorem valid_apply_padding pick spare c u h :
  0 ≤ c.(padding_min) ≤ c.(padding_max) → tokenish c.(padding_method) = false →
  (∀ a b, a ≤ b → a ≤ pick a b ≤ b) → padding_free c u h →
  ∃ u' h', apply_padding pick spare c u h = Ok (u', h') ∧
    valid_padding c (uri_of_url u') h' = true.
Proof. apply apply_padding_valid. Qed.

End laws.

(** ** The theorems at concrete requests *)

#[local] Existing Instance Plain.lib.
#[local] Existing Instance Plain.laws.

(** The default configuration with its payload in headers, its sequence number
    in a cookie and its session id in the path. *)
Definition sample_transport : TransportConfig :=
  let d := default_transport in
  mkTransport d.(path) d.(query) d.(host) d.(mode) d.(headers) d.(token) Path d.(session_key)
    Cookie d.(sequence_key) Header d.(data_key) d.(padding_min) d.(padding_max) d.(padding_obfs)
    d.(padding_placement) d.(padding_key) d.(padding_header) d.(padding_method) d.(uplink_method)
    d.(no_grpc_header) d.(no_sse_header) d.(max_packet_size) d.(max_buffered_packets)
    d.(packet_interval_ms) d.(session_timeout_secs) d.(max_sessions) d.(max_session_id_length)
    d.(xmux).

Lemma no_headers key : header_get (H := Plain.lib) [] key = None.
Proof. unfold header_get. by destruct (header_name key). Qed.

Lemma extract_put_payload_witness :
  ∃ body h', put_payload (H := Plain.lib) sample_transport [1; 2; 3] [] = Ok (body, h') ∧
    extract_payload_bytes sample_transport h' (default [] body) = Ok [1; 2; 3].
Proof.
  apply (extract_put_payload (HL := Plain.lib) sample_transport [1; 2; 3] []); [done| | | |].
  - by apply (bool_decide_unpack _).
  - by apply (bool_decide_unpack _).
  - by vm_compute.
  - intros j _. split; [apply no_headers|done].
Defined.

Lemma extract_payload_returns_witness :
  returns (extract_payload_bytes (H := Plain.lib) sample_transport [(lit "x-data-0", lit "01")] []).
Proof.
  apply (extract_payload_returns (HL := Plain.lib) sample_transport [(lit "x-data-0", lit "01")] []);
    by vm_compute.
Defined.

Definition sample_url : Url (HttpLib := Plain.lib) := (lit "/xhttp/", []).

Lemma plain_path_default : plain_path (lit "/xhttp").
Proof. split_and!; [done|by apply (bool_decide_unpack _)|by right]. Qed.

Lemma path_carries_sample : path_carries (lit "/xhttp") [] (lit "/xhttp/").
Proof. split_and!; [constructor|done|done]. Qed.

Lemma extract_apply_metadata_witness :
  ∃ u' h', apply_metadata (H := Plain.lib) sample_transport sample_url [] (Some (lit "ab12")) (Some 7)
    = Ok (u', h') ∧
    extract_metadata sample_transport (uri_of_url u') h' = (Some (lit "ab12"), Some 7).
Proof.
  apply (extract_apply_metadata (HL := Plain.lib) sample_transport sample_url []
           (Some (lit "ab12")) (Some 7)).
  - unfold metadata_layout, key_ok.
    split_and!; try done; try (by apply (bool_decide_unpack _)); by left.
  - split_and!; [done|done|apply path_carries_sample..].
  - intros id [= <-]. by apply (bool_decide_unpack _).
  - intros n [= <-]. unfold uint. lia.
  - done.
Defined.

Lemma valid_apply_padding_witness :
  ∃ u' h', apply_padding (H := Plain.lib) (λ a _, a) 0 sample_transport sample_url [] = Ok (u', h') ∧
    valid_padding sample_transport (uri_of_url u') h' = true.
Proof.
  apply (valid_apply_padding (HL := Plain.lib) (λ a _, a) 0 sample_transport sample_url []).
  - cbn. lia.
  - done.
  - cbn. lia.
  - split_and!; [done|by apply (bool_decide_unpack _)|by apply (bool_decide_unpack _)|done].
Defined.
