(* ===== verification/Server.v ===== *)
(** * The XHTTP server (src/src/server.rs)

    [Reorder] is the upload task of [download], which puts the packets of a
    session back in order; [Sessions] is the concurrent table of sessions with
    its admission counter and its timers; then the request checks and the
    dispatch of [handler]. *)

From S2P Require Import Prelude RustStr Http Protocol.

(** ** Packet reordering *)

Module Reorder.

Record Packet := mkPacket { sequence : Z; payload : bytes }.

(** The task: packets not yet in order, the next sequence number, and what was
    written to the backend so far. *)
Record state := mkState { pending : gmap Z bytes; next : Z; written : list bytes }.

Definition init : state := mkState ∅ 0 [].

(** A turn of the task: it goes on, or it removed the session and returned. *)
Inductive outcome :=
  | Running (s : state)
  | Removed (s : state).

Section task.
(** Whether [write.write_all] accepts a payload after the earlier ones. *)
Context (accepts : list bytes → bytes → bool).
Context (max_buffered_packets : Z).

(** [while let Some(payload) = pending.remove(&next)].  Every turn removes a
    pending packet. *)
Fixpoint drain (fuel : nat) (s : state) : result outcome :=
  match fuel with
  | O => Diverge
  | S fuel =>
    match s.(pending) !! s.(next) with
    | None => Ok (Running s)
    | Some payload =>
      let rest := delete s.(next) s.(pending) in
      if accepts s.(written) payload then
        n ← checked_or_panic 64 (s.(next) + 1);
        drain fuel (mkState rest n (s.(written) ++ [payload]))
      else Ok (Removed (mkState rest s.(next) s.(written)))
    end
  end.

(** The body of [while let Some(packet) = packets.recv().await]. *)
Definition on_packet (s : state) (p : Packet) : result outcome :=
  if p.(sequence) <? s.(next) then Ok (Running s)
  else if (Z.of_nat (size s.(pending)) >=? max_buffered_packets)
          && negb (bool_decide (is_Some (s.(pending) !! p.(sequence)))) then Ok (Removed s)
  else
    let m := <[p.(sequence) := p.(payload)]> s.(pending) in
    drain (S (size m)) (mkState m s.(next) s.(written)).

(** The packets a session receives until the channel closes. *)
Fixpoint run (s : state) (ps : list Packet) : result outcome :=
  match ps with
  | [] => Ok (Running s)
  | p :: ps =>
    o ← on_packet s p;
    match o with Running s => run s ps | Removed s => Ok (Removed s) end
  end.

End task.

End Reorder.

(** ** The table of sessions *)

Module Sessions.

(** A session object; the handle stands for its [Arc]. *)
Record Session := mkSession { handle : nat; connected : bool }.

(** Where a task stands between two atomic operations. *)
Inductive task :=
  | Missed (id : str)        (* get_session: the lookup found nothing *)
  | Reserved (id : str)      (* get_session: the counter was incremented *)
  | Removing (id : str)      (* a call of remove_session is about to run *)
  | Releasing.               (* the counter is about to be decremented *)

Record state := mkState {
  sessions : gmap str Session;
  active_sessions : Z;
  tasks : gmap nat task;
  timers : list (str * nat);  (* armed timeouts: the id, and the session it was armed for *)
  next_handle : nat;
}.

Definition init : state := mkState ∅ 0 ∅ [] 0.

Inductive event :=
  | Get (t : nat) (id : str)     (* get_session up to its lookup *)
  | Reserve (t : nat)            (* fetch_update *)
  | Enter (t : nat)              (* sessions.entry *)
  | Connect (id : str)           (* download takes the receiver *)
  | Finish (t : nat) (id : str)  (* an upload or download task ends: remove_session is called *)
  | Timeout (t : nat) (i : nat)  (* the i-th armed timer fires and checks [connected] *)
  | Remove (t : nat)             (* sessions.remove *)
  | Release (t : nat).           (* fetch_sub *)

Section table.
Context (max_sessions max_session_id_length : Z).

Definition set_task (s : state) (t : nat) (k : option task) : state :=
  mkState s.(sessions) s.(active_sessions)
    (match k with Some k => <[t := k]> s.(tasks) | None => delete t s.(tasks) end)
    s.(timers) s.(next_handle).

(** An event that does not apply in the state leaves [None]. *)
Definition step (s : state) (e : event) : option state :=
  match e with
  | Get t id =>
    match s.(tasks) !! t with
    | Some _ => None
    | None =>
      if Z.of_nat (length id) >? max_session_id_length then Some s
      else match s.(sessions) !! id with
           | Some _ => Some s
           | None => Some (set_task s t (Some (Missed id)))
           end
    end
  | Reserve t =>
    match s.(tasks) !! t with
    | Some (Missed id) =>
      if s.(active_sessions) <? max_sessions then
        Some (mkState s.(sessions) (s.(active_sessions) + 1) (<[t := Reserved id]> s.(tasks))
                s.(timers) s.(next_handle))
      else Some (set_task s t None)
    | _ => None
    end
  | Enter t =>
    match s.(tasks) !! t with
    | Some (Reserved id) =>
      match s.(sessions) !! id with
      | Some _ => Some (set_task s t (Some Releasing))
      | None =>
        Some (mkState (<[id := mkSession s.(next_handle) false]> s.(sessions)) s.(active_sessions)
                (delete t s.(tasks)) (s.(timers) ++ [(id, s.(next_handle))]) (S s.(next_handle)))
      end
    | _ => None
    end
  | Connect id =>
    match s.(sessions) !! id with
    | Some x =>
      if x.(connected) then None
      else Some (mkState (<[id := mkSession x.(handle) true]> s.(sessions)) s.(active_sessions)
                   s.(tasks) s.(timers) s.(next_handle))
    | None => None
    end
  | Finish t id =>
    match s.(tasks) !! t with
    | Some _ => None
    | None => Some (set_task s t (Some (Removing id)))
    end
  | Timeout t i =>
    match s.(tasks) !! t, s.(timers) !! i with
    | None, Some (id, _) =>
      let s := mkState s.(sessions) s.(active_sessions) s.(tasks) (delete i s.(timers))
                 s.(next_handle) in
      match s.(sessions) !! id with
      | Some x => if x.(connected) then Some s else Some (set_task s t (Some (Removing id)))
      | None => Some s
      end
    | _, _ => None
    end
  | Remove t =>
    match s.(tasks) !! t with
    | Some (Removing id) =>
      match s.(sessions) !! id with
      | Some _ =>
        Some (mkState (delete id s.(sessions)) s.(active_sessions) (<[t := Releasing]> s.(tasks))
                s.(timers) s.(next_handle))
      | None => Some (set_task s t None)
      end
    | _ => None
    end
  | Release t =>
    match s.(tasks) !! t with
    | Some Releasing =>
      Some (mkState s.(sessions) (s.(active_sessions) - 1) (delete t s.(tasks)) s.(timers)
              s.(next_handle))
    | _ => None
    end
  end.

Fixpoint run (s : state) (es : list event) : option state :=
  match es with
  | [] => Some s
  | e :: es => s ← step s e; run s es
  end.

Inductive reachable : state → Prop :=
  | reachable_init : reachable init
  | reachable_step s e s' : reachable s → step s e = Some s' → reachable s'.

End table.

(** [get_session] run without interruption: the session it returns. *)
Definition get_session (max_sessions max_session_id_length : Z) (s : state) (id : str)
    : option Session * state :=
  if Z.of_nat (length id) >? max_session_id_length then (None, s)
  else match s.(sessions) !! id with
  | Some x => (Some x, s)
  | None =>
    if s.(active_sessions) <? max_sessions then
      let x := mkSession s.(next_handle) false in
      (Some x, mkState (<[id := x]> s.(sessions)) (s.(active_sessions) + 1) s.(tasks)
                 (s.(timers) ++ [(id, s.(next_handle))]) (S s.(next_handle)))
    else (None, s)
  end.

(** [remove_session] run without interruption. *)
Definition remove_session (s : state) (id : str) : state :=
  match s.(sessions) !! id with
  | Some _ => mkState (delete id s.(sessions)) (s.(active_sessions) - 1) s.(tasks) s.(timers)
                s.(next_handle)
  | None => s
  end.

End Sessions.

(** ** Requests *)

Section requests.
Context `{HttpLib}.

Definition valid_path (base p : str) : bool :=
  str_eqb p base
  || match strip_prefix base p with Some v => starts_with [c_slash] v | None => false end.

(** Collecting the pairs into a [HashMap] keeps the last value of a key. *)
Definition valid_query (expected actual : option str) : bool :=
  match expected with
  | None => true
  | Some expected =>
    let actual : gmap str str :=
      foldl (λ m '(k, v), <[k := v]> m) ∅ (default [] (form_parse <$> actual)) in
    forallb (λ '(k, v), bool_decide (actual !! k = Some v)) (form_parse expected)
  end.

Inductive Method := GET | POST | OPTIONS | OtherMethod (name : str).

Record Request := mkRequest {
  method : Method;
  uri : Uri;
  req_headers : HeaderMap;
  body : bytes;
}.

(** The answer of [handler] before the handlers of the transport modes run. *)
Inductive Action :=
  | NotFound
  | OptionsOk
  | StreamOneAction
  | DownloadAction (id : str)
  | PacketAction (id : str) (sequence : Z)
  | StreamUpAction (id : str)
  | MethodNotAllowed.

Definition acceptable (c : TransportConfig) (r : Request) : bool :=
  valid_path c.(path) r.(uri).(uri_path)
  && valid_query c.(query) r.(uri).(uri_query)
  && match c.(host) with
     | Some h => bool_decide (header_get r.(req_headers) (lit "host") = Some h)
     | None => true
     end
  && authorized c r.(req_headers)
  && valid_padding c r.(uri) r.(req_headers).

Definition allows (m : Mode) (wanted : Mode) : bool :=
  bool_decide (m = ModeAuto) || bool_decide (m = wanted).

(** The checks and the dispatch of [handler]. *)
Definition dispatch (c : TransportConfig) (r : Request) : Action :=
  if negb (acceptable c r) then NotFound else
  match r.(method) with
  | OPTIONS => OptionsOk
  | m =>
    match extract_metadata c r.(uri) r.(req_headers), m with
    | (None, None), POST =>
      if allows c.(mode) StreamOne then StreamOneAction else MethodNotAllowed
    | (Some id, None), GET => DownloadAction id
    | (Some id, Some seq), _ =>
      if allows c.(mode) PacketUp then PacketAction id seq else MethodNotAllowed
    | (Some id, None), _ =>
      if allows c.(mode) StreamUp then StreamUpAction id else MethodNotAllowed
    | _, _ => MethodNotAllowed
    end
  end.

(** The status of [packet_upload]; [deliver] is what the session's channel says
    to the packet ([None]: the receiver is gone). *)
Inductive Status := StatusOk | PayloadTooLarge | BadRequest | ServiceUnavailable | Conflict.

Definition packet_upload (c : TransportConfig) (s : Sessions.state) (id : str) (seq : Z) (r : Request)
    (channel_open : Sessions.Session → bool)
    : result (Status * option (Sessions.Session * Reorder.Packet) * Sessions.state) :=
  if Z.of_nat (length r.(body)) >? c.(max_packet_size) then Ok (PayloadTooLarge, None, s) else
  match extract_payload_bytes c r.(req_headers) r.(body) with
  | Ok payload =>
    if Z.of_nat (length payload) >? c.(max_packet_size) then Ok (PayloadTooLarge, None, s) else
    let '(session, s) := Sessions.get_session c.(max_sessions) c.(max_session_id_length) s id in
    match session with
    | None => Ok (ServiceUnavailable, None, s)
    | Some x =>
      if channel_open x then Ok (StatusOk, Some (x, Reorder.mkPacket seq payload), s)
      else Ok (Conflict, None, s)
    end
  | Err _ => Ok (BadRequest, None, s)
  | Panic => Panic
  | Diverge => Diverge
  end.

End requests.

(** ** The reordering delivers the stream *)

Module ReorderFacts.
Import Reorder.

Section facts.
Context (accepts : list bytes → bytes → bool) (max_buffered_packets : Z).
(** The stream the client sends: packet [k] carries [f k]. *)
Context (f : Z → bytes).

Definition received (ps : list Packet) : gset Z := list_to_set (sequence <$> ps).

(** The packets are those of the stream, in any order and any number. *)
Definition consistent (ps : list Packet) : Prop :=
  Forall (λ p, p.(payload) = f p.(sequence) ∧ 0 ≤ p.(sequence) < u64_max) ps.

(** What was written is the stream up to [next], in order and without a gap. *)
Definition in_order (s : state) : Prop := 0 ≤ s.(next) ∧ s.(written) = f <$> seqZ 0 s.(next).

(** The task has received the numbers [R]: those from [next] on are pending. *)
Record holds (R : gset Z) (s : state) : Prop := {
  holds_order : in_order s;
  holds_pending : ∀ k, s.(pending) !! k = if decide (k ∈ R ∧ s.(next) ≤ k) then Some (f k) else None;
  holds_before : ∀ k, 0 ≤ k < s.(next) → k ∈ R;
}.

Definition bounded (R : gset Z) : Prop := ∀ k, k ∈ R → 0 ≤ k < u64_max.

Lemma seqZ_snoc n : 0 ≤ n → seqZ 0 (n + 1) = seqZ 0 n ++ [n].
Proof. intros Hn. by rewrite seqZ_app by lia. Qed.

Lemma decide_ext_eq {A} (P Q : Prop) `{Decision P, Decision Q} (x y : A) :
  P ↔ Q → (if decide P then x else y) = (if decide Q then x else y).
Proof. intros HPQ. by destruct (decide P), (decide Q); tauto. Qed.

Lemma drain_spec R fuel s :
  bounded R → holds R s → (size s.(pending) < fuel)%nat →
  ∃ o, drain accepts fuel s = Ok o ∧
    match o with
    | Running s' => holds R s' ∧ (s'.(next) ∉ R)
    | Removed s' => in_order s' ∧ ∃ w b, accepts w b = false
    end.
Proof.
  intros HR. revert s. induction fuel as [|fuel IH]; intros s [[H0 Ho] Hp Hb] Hf; [lia|].
  cbn [drain]. pose proof (Hp s.(next)) as Hn. destruct (pending s !! next s) as [b|] eqn:E.
  - case_decide as Hd; [|done]. destruct Hd as [Hin _]. injection Hn as ->. cbn zeta.
    destruct (accepts _ _) eqn:Ha; [|eexists; split; [done|]; split; [done|by eauto]].
    specialize (HR _ Hin). unfold checked_or_panic.
    rewrite (proj2 (Z.leb_le _ _)), (proj2 (Z.ltb_lt _ _)) by (unfold u64_max in *; lia).
    cbn [andb mbind result_bind]. apply IH.
    + split; cbn.
      * split; cbn; [lia|]. by rewrite seqZ_snoc, fmap_app, Ho by done.
      * intros k. destruct (decide (k = next s)) as [->|Hne].
        { rewrite lookup_delete_eq, decide_False; [done|]. intros [_ ?]. lia. }
        rewrite lookup_delete_ne, Hp by done.
        apply decide_ext_eq. split; intros [? ?]; split; (done || lia).
      * intros k Hk. destruct (decide (k = next s)) as [->|]; [done|]. apply Hb. lia.
    + cbn. rewrite map_size_delete_Some by (by eexists).
      assert (size (pending s) ≠ 0%nat) by (eapply map_size_ne_0_lookup_2; by eexists). lia.
  - eexists. split; [done|]. split; [done|]. case_decide as Hd; [done|].
    intros Hin. apply Hd. split; [done|lia].
Qed.

Lemma on_packet_spec R s p :
  bounded (R ∪ {[p.(sequence)]}) → holds R s → p.(payload) = f p.(sequence) →
  ∃ o, on_packet accepts max_buffered_packets s p = Ok o ∧
    match o with
    | Running s' => holds (R ∪ {[p.(sequence)]}) s' ∧ (next s ∉ R → next s' ∉ R ∪ {[p.(sequence)]})
    | Removed s' => in_order s' ∧ ((∃ w b, accepts w b = false) ∨
        s'.(pending) = s.(pending) ∧ max_buffered_packets ≤ Z.of_nat (size s.(pending)) ∧
        (p.(sequence) ∉ R))
    end.
Proof.
  intros HR [[H0 Ho] Hp Hb] Hpay. unfold on_packet.
  destruct (sequence p <? next s) eqn:Hlt; bool_to_prop.
  { assert (R ∪ {[sequence p]} = R) as ->.
    { specialize (HR (sequence p) ltac:(set_solver)).
      pose proof (Hb (sequence p) ltac:(lia)). set_solver. }
    eexists. split; [done|]. done. }
  destruct (_ && _) eqn:Hfull.
  { eexists. split; [done|]. split; [done|]. right. apply andb_true_iff in Hfull as [Hsz Hnone].
    rewrite Z.geb_leb, Z.leb_le in Hsz. apply negb_true_iff, bool_decide_eq_false in Hnone.
    rewrite Hp in Hnone. split_and!; [done|done|]. intros Hin. apply Hnone.
    rewrite decide_True by (split; [done|lia]). by eexists. }
  destruct (drain_spec (R ∪ {[sequence p]}) (S (size (<[sequence p:=payload p]> (pending s))))
    (mkState (<[sequence p:=payload p]> (pending s)) (next s) (written s))) as (o & Hd & Ho').
  - done.
  - split; cbn; [done| |].
    + intros k. destruct (decide (k = sequence p)) as [->|Hne].
      * rewrite lookup_insert_eq, decide_True by (split; [set_solver|lia]). by rewrite Hpay.
      * rewrite lookup_insert_ne, Hp by done. apply decide_ext_eq. set_solver.
    + intros k Hk. apply elem_of_union. left. by apply Hb.
  - cbn. lia.
  - exists o. split; [done|]. destruct o; destruct Ho' as [? ?]; [done|]. by auto.
Qed.

Lemma received_cons p ps : received (p :: ps) = {[p.(sequence)]} ∪ received ps.
Proof. done. Qed.

Lemma run_spec ps R s :
  consistent ps → bounded R → holds R s →
  ∃ o, run accepts max_buffered_packets s ps = Ok o ∧
    match o with
    | Running s' => holds (R ∪ received ps) s' ∧ (next s ∉ R → next s' ∉ R ∪ received ps)
    | Removed s' => in_order s'
    end.
Proof.
  intros Hc. revert R s. induction Hc as [|p ps [Hp Hb] _ IH]; intros R s HR Hs.
  { exists (Running s). rewrite (union_empty_r_L R : R ∪ received [] = R). done. }
  assert (bounded (R ∪ {[sequence p]})) as HR'.
  { intros k [?| ->%elem_of_singleton]%elem_of_union; [by apply HR|done]. }
  destruct (on_packet_spec R s p HR' Hs Hp) as (o & E & Ho). cbn [run]. rewrite E.
  cbn [mbind result_bind]. destruct o as [s1|s1]; [|by exists (Removed s1); destruct Ho].
  destruct Ho as [Hs1 Hn1]. destruct (IH _ _ HR' Hs1) as (o & E' & Ho'). exists o. split; [done|].
  rewrite received_cons, (assoc_L (∪)). destruct o; [|done]. destruct Ho'. split; [done|]. auto.
Qed.

Lemma holds_init : holds ∅ init.
Proof.
  split; [split; [cbn; lia|done]| |cbn; lia]. intros k. cbn. rewrite lookup_empty, decide_False; [done|].
  set_solver.
Qed.

(** The sender has at most [max_buffered_packets] packets under way: a packet is
    sent only when every earlier gap is less than that many numbers back. *)
Definition in_window (ps : list Packet) : Prop :=
  ∀ i p m, ps !! i = Some p → 0 ≤ m → m ∉ received (take i ps) →
    p.(sequence) < m + max_buffered_packets.

(** C11: The backend sees a prefix of the stream: whatever the order in which
    the packets of a session arrive, with duplicates and losses, and even when
    the session is dropped because its buffer is full or the backend is gone,
    the task finishes every packet without a panic and what it has written is
    packet 0 to packet [next - 1], each once and in order. *)
Theorem reorder_in_order ps :
  consistent ps →
  ∃ o, run accepts max_buffered_packets init ps = Ok o ∧
    in_order (match o with Running s | Removed s => s end).
Proof.
  intros Hc. destruct (run_spec ps ∅ init Hc) as (o & E & Ho).
  { intros k ?. set_solver. }
  { apply holds_init. }
  exists o. split; [done|]. destruct o; [|done]. by destruct Ho as [[? _ _] _].
Qed.

(** The pending packets lie within the window, so a new one fits. *)
Lemma window_size R s n :
  holds R s → next s ∉ R → (∀ k, k ∈ R → k < next s + n) → 1 ≤ n → Z.of_nat (size (pending s)) < n.
Proof.
  intros [_ Hp _] Hn Hw H1.
  assert (dom (pending s) ⊆ (list_to_set (seqZ (next s + 1) (n - 1)) : gset Z)) as Hsub.
  { intros k Hk. apply elem_of_dom in Hk as [b Hk]. rewrite Hp in Hk. case_decide as Hd; [|done].
    destruct Hd as [Hin Hle]. specialize (Hw k Hin). apply elem_of_list_to_set, elem_of_seqZ.
    assert (k ≠ next s) by (by intros ->). lia. }
  apply subseteq_size in Hsub. rewrite size_dom in Hsub.
  rewrite size_list_to_set in Hsub by apply NoDup_seqZ. rewrite length_seqZ in Hsub. lia.
Qed.

Lemma run_complete ps R s :
  consistent ps → bounded R → holds R s → next s ∉ R → 1 ≤ max_buffered_packets →
  (∀ k, k ∈ R → k < next s + max_buffered_packets) → (∀ w b, accepts w b = true) →
  (∀ i p m, ps !! i = Some p → 0 ≤ m → m ∉ R ∪ received (take i ps) →
     p.(sequence) < m + max_buffered_packets) →
  ∃ s', run accepts max_buffered_packets s ps = Ok (Running s') ∧
    holds (R ∪ received ps) s' ∧ next s' ∉ R ∪ received ps.
Proof.
  intros Hc HR Hs Hn Hmax HwR Hacc. revert R s HR Hs Hn HwR.
  induction Hc as [|p ps [Hp Hb] _ IH]; intros R s HR Hs Hn HwR Hw.
  { exists s. rewrite (union_empty_r_L R : R ∪ received [] = R). done. }
  assert (bounded (R ∪ {[sequence p]})) as HR'.
  { intros k [?| ->%elem_of_singleton]%elem_of_union; [by apply HR|done]. }
  destruct (on_packet_spec R s p HR' Hs Hp) as (o & E & Ho). cbn [run]. rewrite E.
  cbn [mbind result_bind]. destruct o as [s1|s1].
  2: { destruct Ho as [_ [(w & b & Hf)|(_ & Hfull & _)]]; [by rewrite Hacc in Hf|].
       pose proof (window_size R s _ Hs Hn HwR Hmax). lia. }
  destruct Ho as [Hs1 Hn1]. specialize (Hn1 Hn).
  assert (next s ≤ next s1) as Hle.
  { destruct (decide (next s1 < next s)); [|lia]. exfalso. apply Hn1, elem_of_union. left.
    apply (holds_before _ _ Hs). destruct (holds_order _ _ Hs1). lia. }
  pose proof (Hw 0%nat p (next s) eq_refl) as Hwp.
  rewrite (union_empty_r_L R : R ∪ received (take 0 (p :: ps)) = R) in Hwp.
  specialize (Hwp (proj1 (holds_order _ _ Hs)) Hn).
  destruct (IH _ _ HR' Hs1 Hn1) as (s' & E' & H1 & H2).
  - intros k [Hk| ->%elem_of_singleton]%elem_of_union; [specialize (HwR k Hk)|]; lia.
  - intros i q m Hi Hm Hnot. apply (Hw (S i) q m); [done|done|].
    cbn [take]. by rewrite received_cons, (assoc_L (∪)).
  - exists s'. rewrite received_cons, (assoc_L (∪)). done.
Qed.

(** Nothing is lost inside the window: with a backend that accepts
    everything and a sender that keeps its packets within the window, the
    session stays up, and the task has written the stream up to the first
    packet that has not arrived. *)
Theorem reorder_complete ps :
  consistent ps → 1 ≤ max_buffered_packets → in_window ps → (∀ w b, accepts w b = true) →
  ∃ s, run accepts max_buffered_packets init ps = Ok (Running s) ∧ in_order s ∧
    (∀ k, 0 ≤ k < next s → k ∈ received ps) ∧ next s ∉ received ps.
Proof.
  intros Hc Hmax Hw Hacc.
  destruct (run_complete ps ∅ init Hc) as (s & E & Hs & Hn); try done.
  - apply holds_init.
  - intros i p m Hi Hm. rewrite (left_id_L ∅ (∪)). by apply (Hw i).
  - rewrite (left_id_L ∅ (∪)) in Hs, Hn. exists s. destruct Hs. done.
Qed.

End facts.

(** The limit is one packet short of what it says: with the default limit
    of 30, packets 1 to 30 fill the buffer, and packet 0, the one the task
    waits for and would not have to buffer, makes it drop the session. *)
Theorem full_buffer_drops_awaited_packet :
  let ps := (λ k, mkPacket k [k]) <$> (seqZ 1 30 ++ [0]) in
  ∃ s, run (λ _ _, true) default_transport.(max_buffered_packets) init ps = Ok (Removed s) ∧
    next s = 0 ∧ written s = [] ∧ size (pending s) = 30%nat.
Proof. eexists. split_and!; [vm_compute; reflexivity|done|done|by vm_compute]. Qed.

(** Packets 1, 0, 0 and 2. *)
Definition sample_packets : list Packet := [mkPacket 1 [1]; mkPacket 0 [0]; mkPacket 0 [0]; mkPacket 2 [2]].

Lemma sample_packets_consistent : consistent (λ k, [k]) sample_packets.
Proof. repeat constructor; unfold u64_max; cbn; try lia. Qed.

Lemma reorder_in_order_witness :
  ∃ o, run (λ w _, (length w <? 2)%nat) 2 init sample_packets = Ok o ∧
    in_order (λ k, [k]) (match o with Running s | Removed s => s end).
Proof. apply (reorder_in_order _ 2 (λ k, [k])), sample_packets_consistent. Defined.

Lemma reorder_complete_witness :
  ∃ s, run (λ _ _, true) 2 init sample_packets = Ok (Running s) ∧ in_order (λ k, [k]) s ∧
    (∀ k, 0 ≤ k < next s → k ∈ received sample_packets) ∧ next s ∉ received sample_packets.
Proof.
  apply (reorder_complete (λ _ _, true) 2 (λ k, [k]) sample_packets);
    [apply sample_packets_consistent|lia| |done].
  intros i p m Hi Hm Hn. destruct i as [|[|[|[|i]]]]; cbn in Hi; try discriminate Hi; injection Hi as <-;
    cbn [sequence]; try lia. destruct (decide (m = 0)) as [->|]; [|lia]. exfalso. apply Hn.
  by apply (bool_decide_unpack _).
Defined.

End ReorderFacts.

(** ** The session table under interleaving *)

Module SessionFacts.
Import Sessions.

(** The tasks that hold a unit of the counter without a session in the table. *)
Definition counted (k : task) : bool :=
  match k with Reserved _ | Releasing => true | _ => false end.

Definition in_flight (m : gmap nat task) : nat := size (filter (λ kv, counted kv.2 = true) m).

Lemma in_flight_insert m t k :
  m !! t = None → in_flight (<[t := k]> m) = (in_flight m + if counted k then 1 else 0)%nat.
Proof.
  intros Hm. unfold in_flight. destruct (counted k) eqn:E.
  - rewrite map_filter_insert_True by done. rewrite map_size_insert_None; [lia|].
    apply map_lookup_filter_None. by left.
  - rewrite map_filter_insert_False by (cbn; congruence).
    rewrite delete_id by done. lia.
Qed.

Lemma in_flight_delete m t k :
  m !! t = Some k → in_flight m = (in_flight (delete t m) + if counted k then 1 else 0)%nat.
Proof.
  intros Hm. rewrite <- (insert_delete_id m t k Hm) at 1. apply in_flight_insert, lookup_delete_eq.
Qed.

Lemma in_flight_update m t k k' :
  m !! t = Some k →
  (in_flight (<[t := k']> m) + (if counted k then 1 else 0)
   = in_flight m + (if counted k' then 1 else 0))%nat.
Proof.
  intros Hm. rewrite <- (insert_delete_eq m t k'), in_flight_insert by apply lookup_delete_eq.
  rewrite (in_flight_delete m t k Hm). lia.
Qed.

(** The invariant: the counter counts the sessions and the reservations. *)
Definition balanced (max_sessions : Z) (s : state) : Prop :=
  s.(active_sessions) = Z.of_nat (size s.(sessions) + in_flight s.(tasks)) ∧
  s.(active_sessions) ≤ max_sessions.

Lemma step_balanced max_sessions max_id s e s' :
  balanced max_sessions s → step max_sessions max_id s e = Some s' → balanced max_sessions s'.
Proof.
  intros [Hb Hm]. unfold balanced, step, set_task.
  destruct e as [t id|t|t|id|t id|t i|t|t]; intros H;
    repeat (match goal with
            | H : match ?x with _ => _ end = Some _ |- _ => destruct x eqn:?
            end; simplify_eq); cbn in *; bool_to_prop; try done.
  all: repeat match goal with
       | E : tasks ?s !! ?t = None |- context [in_flight (<[?t := ?k]> (tasks ?s))] =>
         rewrite (in_flight_insert _ _ k E)
       | E : tasks ?s !! ?t = Some ?k |- context [in_flight (delete ?t (tasks ?s))] =>
         pose proof (in_flight_delete _ _ _ E); cbn in *; clear E
       | E : tasks ?s !! ?t = Some ?k |- context [in_flight (<[?t := ?k']> (tasks ?s))] =>
         pose proof (in_flight_update _ _ _ k' E); cbn in *; clear E
       | E : sessions ?s !! ?i = None |- context [size (<[?i := _]> (sessions ?s))] =>
         rewrite (map_size_insert_None _ _ _ E)
       | E : sessions ?s !! ?i = Some ?x |- context [size (<[?i := _]> (sessions ?s))] =>
         rewrite (map_size_insert_Some _ _ _ (mk_is_Some _ _ E))
       | E : sessions ?s !! ?i = Some ?x |- context [size (delete ?i (sessions ?s))] =>
         rewrite (map_size_delete_Some _ _ (mk_is_Some _ _ E));
         pose proof (map_size_ne_0_lookup_2 (sessions s) i (mk_is_Some _ _ E))
       end; cbn; lia.
Qed.

(** C12: Admission control: in every state that any interleaving of the
    operations of [get_session], [remove_session] and the timeouts can reach,
    the counter equals the sessions in the table plus the tasks between their
    two atomic operations, and never exceeds the limit.  So the table never
    holds more than [max_sessions] sessions, and no session or failed attempt
    leaks a unit of the counter. *)
Theorem sessions_bounded max_sessions max_id s :
  0 ≤ max_sessions → reachable max_sessions max_id s →
  s.(active_sessions) = Z.of_nat (size s.(sessions) + in_flight s.(tasks)) ∧
  Z.of_nat (size s.(sessions)) ≤ max_sessions.
Proof.
  intros H0 Hr. assert (balanced max_sessions s) as [Hb Hm]; [|lia].
  induction Hr as [|s e s' _ IH Hs]; [|by eapply step_balanced].
  unfold balanced; cbn. rewrite map_size_empty. unfold in_flight. rewrite map_filter_empty, map_size_empty.
  lia.
Qed.

(** A timeout outlives its session: the timer is armed for an id, so when
    a session has ended and a client opened a new one under the same id, the
    first session's timer removes the second one, whose own timer still runs. *)
Theorem stale_timer_removes_session :
  let id := lit "id" in
  let es := [Get 0 id; Reserve 0; Enter 0; Connect id; Finish 0 id; Remove 0; Release 0;
             Get 0 id; Reserve 0; Enter 0] in
  ∃ s s', run 4096 256 init es = Some s ∧ s.(sessions) !! id = Some (mkSession 1 false) ∧
    s.(timers) = [(id, 0%nat); (id, 1%nat)] ∧
    run 4096 256 s [Timeout 0 0; Remove 0; Release 0] = Some s' ∧
    s'.(sessions) !! id = None ∧ s'.(timers) = [(id, 1%nat)].
Proof. do 2 eexists. split_and!; vm_compute; reflexivity. Qed.

Lemma run_reachable max_sessions max_id es s s' :
  reachable max_sessions max_id s → run max_sessions max_id s es = Some s' →
  reachable max_sessions max_id s'.
Proof.
  revert s. induction es as [|e es IH]; intros s Hr; cbn; [by intros [= <-]|].
  destruct (step _ _ s e) as [s1|] eqn:E; cbn; [|done]. apply IH. by eapply reachable_step.
Qed.

Lemma sessions_bounded_witness :
  ∃ s, reachable 1 8 s ∧
    s.(active_sessions) = Z.of_nat (size s.(sessions) + in_flight s.(tasks)) ∧
    Z.of_nat (size s.(sessions)) ≤ 1.
Proof.
  set (s := default init (run 1 8 init [Get 0 (lit "a"); Reserve 0])).
  assert (reachable 1 8 s) as Hr.
  { apply (run_reachable _ _ [Get 0 (lit "a"); Reserve 0] init); [constructor|].
    vm_compute. reflexivity. }
  exists s. split; [exact Hr|]. apply (sessions_bounded 1 8 s); [lia|exact Hr].
Defined.

End SessionFacts.

(** ** The server understands the client *)

Section end_to_end.
Context `{HL : HttpLib} {laws : HttpLaws HL}.

(** The default layout: both values in the path, the padding in the referrer. *)
Definition default_layout (c : TransportConfig) : Prop :=
  c.(session_placement) = Path ∧ c.(sequence_placement) = Path ∧ c.(padding_obfs) = false ∧
  c.(query) = None ∧ c.(host) = None ∧ token_str c.(session_key) ∧ token_str c.(sequence_key) ∧
  tokenish c.(padding_method) = false ∧ 0 ≤ c.(padding_min) ≤ c.(padding_max) ∧
  plain_path c.(path) ∧ (∀ t, c.(token) = Some t → Forall visible t).

Lemma referer_not_authorization n : header_name (lit "Referer") = Some n → n ≠ AUTHORIZATION.
Proof.
  intros Hn ->. pose proof (header_name_case _ _ _ Hn header_name_authorization) as H.
  vm_compute in H. done.
Qed.

Lemma authorized_common c h h' :
  (∀ t, c.(token) = Some t → Forall visible t) → add_common_headers c h = Ok h' →
  authorized c h' = true.
Proof.
  intros Ht H. unfold add_common_headers in H. apply bind_Ok in H as (h1 & _ & H).
  unfold authorized. destruct (token c) as [t|]; [|done]. specialize (Ht t eq_refl).
  destruct (header_value_visible (lit "Bearer " ++ t)) as (v & Hv & Hs).
  { apply Forall_app. split; [by apply (bool_decide_unpack _)|done]. }
  rewrite Hv in H. cbn in H. injection H as <-. rewrite get_all_insert, decide_True by done.
  cbn [head mbind option_bind]. rewrite Hs. by apply str_eqb_eq.
Qed.

Lemma authorized_try_insert c h value :
  authorized c h = true → authorized c (try_insert h (lit "Referer") value) = true.
Proof.
  unfold authorized, try_insert. destruct (token c) as [t|]; [|done]. intros Ha.
  destruct (header_name (lit "Referer")) as [n|] eqn:En; [|done].
  destruct (header_value value); [|done]. rewrite get_all_insert, decide_False; [done|].
  intros <-. by apply (referer_not_authorization _ En).
Qed.

(** The URL of the request base: the configured path and no query. *)
Lemma build_request_base_spec c server u0 :
  default_layout c → Forall (λ nv, is_Some (header_name nv.1) ∧ is_Some (header_value nv.2)) c.(headers) →
  url_parse server = Some u0 → url_path u0 = lit "/" → query_pairs u0 = [] →
  ∃ u h, build_request_base server c = Ok (u, h) ∧ path_carries c.(path) [] (url_path u) ∧
    query_pairs u = [] ∧ authorized c h = true.
Proof.
  intros (_ & _ & _ & Hq & Hh & _ & _ & _ & _ & Hp & Ht) Hhs Hu0 Hpath Hpairs.
  unfold build_request_base. rewrite Hu0, Hq, Hh. cbn [context mbind result_bind]. rewrite Hpath.
  change (str_eqb (lit "/") (lit "/")) with true. cbn iota zeta.
  pose proof Hp as (Hp1 & Hp2 & Hp3). rewrite url_path_set_path by done.
  set (u := if ends_with [c_slash] (path c) then _ else _).
  assert (path_carries c.(path) [] (url_path u) ∧ query_pairs u = []) as [Hc Hqp].
  { unfold u, query_pairs in *. destruct (ends_with [c_slash] (path c)) eqn:He.
    - rewrite url_path_set_path, url_query_set_path by done.
      split; [split; [constructor|done]|done].
    - rewrite url_path_set_path, !url_query_set_path.
      + split; [|done]. split; [constructor|]. split; [by destruct (path c)|].
        unfold trim_end_matches. rewrite reverse_app. cbn [reverse rev_append app trim_start_matches].
        change (c_slash =? c_slash) with true. done.
      + by destruct (path c).
      + apply Forall_app. split; [done|]. apply Forall_singleton. by right. }
  assert (∃ h, add_common_headers c headers_new = Ok h) as [h Hh'].
  { unfold add_common_headers. assert (∀ h0, ∃ h1, add_headers c.(headers) h0 = Ok h1) as Hadd.
    { induction Hhs as [|[n v] hs [[n' Hn] [v' Hv]] _ IH]; intros h0; [by eexists|].
      cbn in *. rewrite Hn, Hv. cbn. apply IH. }
    destruct (Hadd headers_new) as [h1 ->]. cbn [mbind result_bind].
    destruct (token c) as [t|] eqn:Et; [|by eexists].
    destruct (header_value_visible (lit "Bearer " ++ t)) as (v & -> & _).
    { apply Forall_app. split; [by apply (bool_decide_unpack _)|by apply Ht]. }
    by eexists. }
  rewrite Hh'. cbn [mbind result_bind]. do 2 eexists. split_and!; [done|done|done|].
  by eapply authorized_common.
Qed.

Lemma valid_path_carried base ws p :
  plain_path base → base ≠ [c_slash] → ws ≠ [] → path_carries base ws p → valid_path base p = true.
Proof.
  intros (_ & _ & Hb) Hne Hws [_ Hp]. destruct Hb as [|Hb]; [done|]. destruct ws as [|w ws]; [done|].
  subst p. rewrite Hb. unfold valid_path.
  rewrite (proj2 (strip_prefix_Some base _ ([c_slash] ++ join [c_slash] (w :: ws)))) by done.
  by rewrite orb_true_r.
Qed.

(** Both values in the path: the headers stay, the path carries the values. *)
Lemma apply_metadata_path c u h id sequence :
  c.(session_placement) = Path → c.(sequence_placement) = Path → plain_path c.(path) →
  path_carries c.(path) [] (url_path u) → token_str id → (∀ n, sequence = Some n → u64 n) →
  ∃ u', apply_metadata c u h (Some id) sequence = Ok (u', h) ∧
    path_carries c.(path) (id :: option_list (print_uint <$> sequence)) (url_path u').
Proof.
  intros Hs Hq Hp Hu Hid Hseq. unfold apply_metadata. rewrite Hs, Hq.
  assert (key_ok Path (lit "k")) as Hk by (split; [by apply (bool_decide_unpack _)|done]).
  destruct (apply_value_spec c.(path) Path (lit "k") id u h []) as (u1 & h1 & E & Hc & _); try done.
  change (apply_value Path (session_key c) id u h) with (apply_value Path (lit "k") id u h).
  rewrite E. unfold apply_value in E. injection E as E <-. cbn [mbind result_bind].
  destruct sequence as [n|]; [|by exists u1].
  specialize (Hseq n eq_refl). assert (u128 n) as Hn by (unfold uint in *; lia).
  destruct (apply_value_spec c.(path) Path (lit "k") (print_uint n) u1 h [id])
    as (u2 & h2 & E2 & Hc2 & _); try done.
  { split; [by apply print_uint_digits|by apply unreserved_print]. }
  change (apply_value Path (sequence_key c) (print_uint n) u1 h)
    with (apply_value Path (lit "k") (print_uint n) u1 h).
  rewrite E2. unfold apply_value in E2. injection E2 as E2 <-. by exists u2.
Qed.

(** The request of a session, from the configuration to the server's dispatch. *)
Lemma request_dispatched pick spare c server u0 id sequence :
  default_layout c → c.(path) ≠ [c_slash] →
  Forall (λ nv, is_Some (header_name nv.1) ∧ is_Some (header_value nv.2)) c.(headers) →
  url_parse server = Some u0 → url_path u0 = lit "/" → query_pairs u0 = [] →
  (∀ a b, a ≤ b → a ≤ pick a b ≤ b) → token_str id → (∀ n, sequence = Some n → u64 n) →
  ∃ base u h, build_request_base server c = Ok base ∧
    request pick spare base c (Some id) sequence = Ok (u, h) ∧
    ∀ m b, m ≠ OPTIONS →
      dispatch c (mkRequest m (uri_of_url u) h b) =
      match sequence, m with
      | Some n, _ => if allows c.(mode) PacketUp then PacketAction id n else MethodNotAllowed
      | None, GET => DownloadAction id
      | None, _ => if allows c.(mode) StreamUp then StreamUpAction id else MethodNotAllowed
      end.
Proof.
  intros Hl Hroot Hhs Hu0 Hpath Hpairs Hpick Hid Hseq.
  destruct (build_request_base_spec c server u0 Hl Hhs Hu0 Hpath Hpairs) as (u & h & Eb & Hc & Hqp & Ha).
  exists (u, h). pose proof Hl as (Hs & Hq & Hobfs & Hquery & Hhost & Hk1 & Hk2 & Hm & Hr & Hp & _).
  assert (padding_spot c = (QueryInHeader, PADDING_QUERY_KEY, lit "Referer")) as Hspot
    by (unfold padding_spot; by rewrite Hobfs).
  destruct (apply_padding_valid pick spare c u h Hr Hm Hpick) as (u1 & h1 & E1 & Hv1).
  { unfold padding_free. rewrite Hspot, Hqp. split_and!; try done; by apply (bool_decide_unpack _). }
  assert (u1 = u ∧ ∃ v, h1 = try_insert h (lit "Referer") v) as [-> [v ->]].
  { unfold apply_padding, padding_value in E1. rewrite Hm, Hspot in E1. cbn [negb mbind result_bind] in E1.
    injection E1 as <- <-. by eauto. }
  destruct (apply_metadata_path c u (try_insert h (lit "Referer") v) id sequence Hs Hq Hp Hc Hid Hseq)
    as (u2 & E2 & Hc2).
  exists u2, (try_insert h (lit "Referer") v). split; [done|]. unfold request. cbn [fst snd].
  rewrite E1. cbn [mbind result_bind]. split; [done|]. intros m b Hm'.
  unfold dispatch, acceptable. cbn [uri req_headers method].
  assert (valid_path c.(path) (uri_path (uri_of_url u2)) = true) as ->
    by (eapply (valid_path_carried _ _ _ Hp Hroot); [|exact Hc2]; done).
  rewrite Hquery, Hhost, (authorized_try_insert c h v Ha). cbn [valid_query andb].
  unfold valid_padding in Hv1 |- *. rewrite Hspot in Hv1 |- *. rewrite Hv1. cbn [negb].
  assert (metadata_layout c) as Hml.
  { unfold metadata_layout, key_ok. rewrite Hs, Hq. split_and!; try done. by right; left. }
  rewrite (extract_metadata_at c u2 _ _ Hml Hc2), Hs, Hq. cbn zeta. rewrite !decide_True by done.
  cbn [head tail]. destruct sequence as [n|]; cbn [option_list head mbind option_bind].
  - change (head (option_list (print_uint <$> Some n))) with (Some (print_uint n)).
    cbn [mbind option_bind]. rewrite parse_print_uint by (try lia; by apply Hseq). by destruct m.
  - by destruct m.
Qed.

(** The server understands the client: with the default layout and any
    path but the root, the request the client builds from its configuration
    passes the server's checks (path, query, host, token, padding) and is
    dispatched with its session id and sequence number: a packet to the upload
    of that session, a GET to its download. *)
Theorem client_request_dispatched pick spare c server u0 id sequence :
  default_layout c → c.(path) ≠ [c_slash] →
  Forall (λ nv, is_Some (header_name nv.1) ∧ is_Some (header_value nv.2)) c.(headers) →
  url_parse server = Some u0 → url_path u0 = lit "/" → query_pairs u0 = [] →
  (∀ a b, a ≤ b → a ≤ pick a b ≤ b) → token_str id → (∀ n, sequence = Some n → u64 n) →
  ∃ base u h, build_request_base server c = Ok base ∧
    request pick spare base c (Some id) sequence = Ok (u, h) ∧
    ∀ m b, m ≠ OPTIONS →
      dispatch c (mkRequest m (uri_of_url u) h b) =
      match sequence, m with
      | Some n, _ => if allows c.(mode) PacketUp then PacketAction id n else MethodNotAllowed
      | None, GET => DownloadAction id
      | None, _ => if allows c.(mode) StreamUp then StreamUpAction id else MethodNotAllowed
      end.
Proof. apply request_dispatched. Qed.

End end_to_end.

(** A server at the root path answers nothing: for the path "/", which
    [validate] accepts and normalizes to, the client puts the session id right
    after the slash, and [valid_path] rejects every such request. *)
Theorem root_path_rejects_sessions `{HL : HttpLib} {laws : HttpLaws HL} c u h id sequence u' h' m b :
  c.(path) = [c_slash] → c.(session_placement) = Path → c.(sequence_placement) = Path →
  path_carries [c_slash] [] (url_path u) → token_str id → (∀ n, sequence = Some n → u64 n) →
  apply_metadata c u h (Some id) sequence = Ok (u', h') →
  dispatch c (mkRequest m (uri_of_url u') h' b) = NotFound.
Proof.
  intros Hp Hs Hq Hu Hid Hseq E.
  assert (plain_path [c_slash]) as Hroot.
  { split_and!; [done| |by left]. apply Forall_singleton. by right. }
  rewrite <- Hp in Hroot, Hu.
  destruct (apply_metadata_path c u h id sequence Hs Hq Hroot Hu Hid Hseq) as (u2 & E2 & [_ Hc]).
  rewrite E in E2. injection E2 as <- <-. rewrite Hp in Hc.
  set (ws := option_list (print_uint <$> sequence)) in *.
  cbn iota in Hc. unfold dispatch, acceptable, valid_path. cbn [uri uri_of_url uri_path].
  unfold uri_of_url. cbn [uri_path]. rewrite Hp, Hc. change (trim_end_matches (Z.eqb c_slash) [c_slash]) with ([] : str).
  destruct id as [|x id]; [by destruct Hid|].
  assert (x ≠ c_slash) as Hx by (eapply token_no_slash; [exact Hid|by left]).
  assert (head (join [c_slash] ((x :: id) :: ws)) = Some x) as Hh by (by destruct ws).
  destruct (join [c_slash] ((x :: id) :: ws)) as [|y r]; [done|]. injection Hh as ->.
  cbn [app strip_prefix]. rewrite Z.eqb_refl. cbn [strip_prefix].
  rewrite str_eqb_neq by done. unfold starts_with; cbn [strip_prefix].
  by rewrite (proj2 (Z.eqb_neq c_slash x)) by done.
Qed.

(** ** The theorems at concrete requests *)

#[local] Existing Instance Plain.lib.
#[local] Existing Instance Plain.laws.

Lemma client_request_dispatched_witness :
  ∃ base u h, build_request_base (Plain.code (lit "/", @nil (str * str))) default_transport = Ok base ∧
    request (λ a _, a) 0 base default_transport (Some (lit "ab12")) (Some 7) = Ok (u, h) ∧
    dispatch default_transport (mkRequest POST (uri_of_url u) h [1]) = PacketAction (lit "ab12") 7.
Proof.
  destruct (client_request_dispatched (HL := Plain.lib) (λ a _, a) 0 default_transport
    (Plain.code (lit "/", @nil (str * str))) (lit "/", []) (lit "ab12") (Some 7))
    as (base & u & h & H1 & H2 & H3).
  - unfold default_layout. split_and!; try done; try (by apply (bool_decide_unpack _)); by right.
  - done.
  - constructor.
  - apply Plain.uncode_code.
  - done.
  - reflexivity.
  - intros a b H. lia.
  - by apply (bool_decide_unpack _).
  - intros n [= <-]. unfold uint. lia.
  - exists base, u, h. split; [exact H1|]. split; [exact H2|]. exact (H3 POST [1] ltac:(done)).
Defined.

Definition root_transport : TransportConfig :=
  let d := default_transport in
  mkTransport [c_slash] d.(query) d.(host) d.(mode) d.(headers) d.(token) Path d.(session_key)
    Path d.(sequence_key) d.(data_placement) d.(data_key) d.(padding_min) d.(padding_max)
    d.(padding_obfs) d.(padding_placement) d.(padding_key) d.(padding_header) d.(padding_method)
    d.(uplink_method) d.(no_grpc_header) d.(no_sse_header) d.(max_packet_size)
    d.(max_buffered_packets) d.(packet_interval_ms) d.(session_timeout_secs) d.(max_sessions)
    d.(max_session_id_length) d.(xmux).

Definition root_url : Url (HttpLib := Plain.lib) := (lit "/", []).

Lemma root_path_rejects_sessions_witness :
  ∃ u h, apply_metadata root_transport root_url [] (Some (lit "ab12")) None = Ok (u, h) ∧
    dispatch root_transport (mkRequest GET (uri_of_url u) h []) = NotFound.
Proof.
  eexists _, _. split; [vm_compute; reflexivity|].
  eapply (root_path_rejects_sessions root_transport root_url [] (lit "ab12") None);
    [done|done|done| |by apply (bool_decide_unpack _)|done|vm_compute; reflexivity].
  split_and!; [constructor|done|done].
Defined.
