(* ===== verification/Tunnel.v ===== *)
(** * A tunnel from the application to the backend (src/src/client.rs, src/src/server.rs)

    The upload of an XHTTP connection in its three modes: what the application writes is
    read by the client, cut into requests or streamed as one body, dispatched by the
    server, put in the session's channel and written to the backend by the upload task.
    Each step is what one task does between two awaits; the steps of the client, of the
    server's tasks, of the application and of other clients interleave freely.  Then the
    download, the backend and a VLESS request through the tunnel. *)

From S2P Require Import Prelude RustStr Net Http Protocol Vless Server.

(** ** The server *)

(** The upload task of a session: what it does, or how it ended. *)
Inductive upload :=
  | Up (o : Reorder.outcome)       (* running, or removed the session and returned *)
  | Shut (s : Reorder.state)       (* the channel closed and the backend was shut down *)
  | Dead.                          (* it panicked *)

(** The task that reads the body of a streamed request. *)
Inductive body_task :=
  | ToBackend (written : list bytes) (shut : bool)     (* stream_one *)
  | ToSession (x : Sessions.Session) (sequence : Z).   (* stream_upload *)

Record server := mkServer {
  table : Sessions.state;
  channels : gmap nat (list Reorder.Packet);  (* of each session object, by its handle *)
  uploads : gmap nat (str * upload);          (* started by the download of a session *)
  stream : option body_task;                  (* of this tunnel's streamed request *)
}.

#[export] Instance Packet_eq_dec : EqDecision Reorder.Packet.
Proof. solve_decision. Defined.
#[export] Instance reorder_state_eq_dec : EqDecision Reorder.state.
Proof. solve_decision. Defined.
#[export] Instance outcome_eq_dec : EqDecision Reorder.outcome.
Proof. solve_decision. Defined.
#[export] Instance upload_eq_dec : EqDecision upload.
Proof. solve_decision. Defined.
#[export] Instance Session_eq_dec : EqDecision Sessions.Session.
Proof. solve_decision. Defined.
#[export] Instance body_task_eq_dec : EqDecision body_task.
Proof. solve_decision. Defined.

Section server.
Context `{HttpLib} (c : TransportConfig).
(** Whether the backend takes a payload after the earlier ones. *)
Context (accepts : list bytes → bytes → bool).

(** [get_session] makes a channel for a session it creates. *)
Definition with_table (v : server) (t : Sessions.state) : server :=
  let n := v.(table).(Sessions.next_handle) in
  mkServer t (if (n <? t.(Sessions.next_handle))%nat then <[n := []]> v.(channels) else v.(channels))
    v.(uploads) v.(stream).

Definition with_channel (v : server) (h : nat) (q : list Reorder.Packet) : server :=
  mkServer v.(table) (<[h := q]> v.(channels)) v.(uploads) v.(stream).

Definition with_upload (v : server) (h : nat) (u : str * upload) : server :=
  mkServer v.(table) v.(channels) (<[h := u]> v.(uploads)) v.(stream).

Definition with_stream (v : server) (b : option body_task) : server :=
  mkServer v.(table) v.(channels) v.(uploads) b.

Definition channel (v : server) (h : nat) : list Reorder.Packet := default [] (v.(channels) !! h).

(** The receiver is alive: still in the session, or in an upload task that runs. *)
Definition channel_open (v : server) (x : Sessions.Session) : bool :=
  match v.(uploads) !! x.(Sessions.handle) with
  | None | Some (_, Up (Reorder.Running _)) => true
  | _ => false
  end.

(** [sender.send(..).await] with an open channel: [None] while it is full. *)
Definition send (v : server) (x : Sessions.Session) (p : Reorder.Packet) : option server :=
  let q := channel v x.(Sessions.handle) in
  if Z.of_nat (length q) <? c.(max_buffered_packets)
  then Some (with_channel v x.(Sessions.handle) (q ++ [p])) else None.

Definition find_session (v : server) (id : str) : option Sessions.Session * server :=
  let '(x, t) := Sessions.get_session c.(max_sessions) c.(max_session_id_length) v.(table) id in
  (x, with_table v t).

(** [download] up to its response: the receiver is taken, the upload task starts. *)
Definition download (v : server) (id : str) : server * Status :=
  let '(x, v) := find_session v id in
  match x with
  | None => (v, ServiceUnavailable)
  | Some x =>
    if x.(Sessions.connected) then (v, Conflict)
    else
      let t := v.(table) in
      let t := Sessions.mkState
        (<[id := Sessions.mkSession x.(Sessions.handle) true]> t.(Sessions.sessions))
        t.(Sessions.active_sessions) t.(Sessions.tasks) t.(Sessions.timers) t.(Sessions.next_handle) in
      (with_upload (mkServer t v.(channels) v.(uploads) v.(stream)) x.(Sessions.handle)
         (id, Up (Reorder.Running Reorder.init)), StatusOk)
  end.

Definition stream_upload (v : server) (id : str) : server * Status :=
  let '(x, v) := find_session v id in
  match x with
  | None => (v, ServiceUnavailable)
  | Some x => (with_stream v (Some (ToSession x 0)), StatusOk)
  end.

Definition stream_one (v : server) : server * Status :=
  (with_stream v (Some (ToBackend [] false)), StatusOk).

Definition is_ok (st : Status) : bool := match st with StatusOk => true | _ => false end.

(** [handler]: the new server and whether the status is a success; [None] while the
    handler waits for room in a channel. *)
Definition handle (v : server) (r : Server.Request) : option (server * bool) :=
  match dispatch c r with
  | DownloadAction id => let '(v, st) := download v id in Some (v, is_ok st)
  | PacketAction id n =>
    match packet_upload c v.(table) id n r (channel_open v) with
    | Ok (st, delivery, t) =>
      match delivery with
      | Some (x, p) => v ← send (with_table v t) x p; Some (v, is_ok st)
      | None => Some (with_table v t, is_ok st)
      end
    | _ => Some (v, false)
    end
  | StreamUpAction id => let '(v, st) := stream_upload v id in Some (v, is_ok st)
  | StreamOneAction => let '(v, st) := stream_one v in Some (v, is_ok st)
  | OptionsOk => Some (v, true)
  | NotFound | MethodNotAllowed => Some (v, false)
  end.

(** What the upload task is after a packet. *)
Definition task_after (r : result Reorder.outcome) : upload :=
  match r with Ok o => Up o | _ => Dead end.

(** The upload task of session object [h] takes a packet. *)
Definition receive (v : server) (h : nat) : option server :=
  match v.(uploads) !! h, channel v h with
  | Some (id, Up (Reorder.Running s)), p :: q =>
    let r := Reorder.on_packet accepts c.(max_buffered_packets) s p in
    let t := match r with
             | Ok (Reorder.Removed _) => Sessions.remove_session v.(table) id
             | _ => v.(table)
             end in
    Some (with_upload (with_channel (mkServer t v.(channels) v.(uploads) v.(stream)) h q) h
            (id, task_after r))
  | _, _ => None
  end.

(** Some sender of the channel is alive: the one in the table, or a streaming handler's. *)
Definition has_sender (v : server) (id : str) (h : nat) : bool :=
  bool_decide (Sessions.handle <$> v.(table).(Sessions.sessions) !! id = Some h)
  || match v.(stream) with
     | Some (ToSession x _) => (x.(Sessions.handle) =? h)%nat
     | _ => false
     end.

(** [packets.recv()] gives [None]: [write.shutdown()]. *)
Definition close_upload (v : server) (h : nat) : option server :=
  match v.(uploads) !! h, channel v h with
  | Some (id, Up (Reorder.Running s)), [] =>
    if has_sender v id h then None else Some (with_upload v h (id, Shut s))
  | _, _ => None
  end.

(** [input.next()] of a streamed body gives a chunk, or its end. *)
Definition body_chunk (v : server) (b : bytes) : option server :=
  match v.(stream) with
  | Some (ToBackend w false) =>
    Some (with_stream v (Some (if accepts w b then ToBackend (w ++ [b]) false else ToBackend w true)))
  | Some (ToSession x n) =>
    if channel_open v x then
      v ← send v x (Reorder.mkPacket n b);
      match checked_or_panic 64 (n + 1) with
      | Ok n => Some (with_stream v (Some (ToSession x n)))
      | _ => Some (with_stream v None)
      end
    else Some (with_stream v None)
  | _ => None
  end.

Definition body_end (v : server) : option server :=
  match v.(stream) with
  | Some (ToBackend w false) => Some (with_stream v (Some (ToBackend w true)))
  | Some (ToSession _ _) => Some (with_stream v None)
  | _ => None
  end.

(** The end of the download task: the backend closed or the client went away. *)
Definition download_end (v : server) (id : str) : server :=
  mkServer (Sessions.remove_session v.(table) id) v.(channels) v.(uploads) v.(stream).

End server.

(** ** The client *)

(** Where the task of [connect] stands. *)
Inductive phase :=
  | Opening              (* before its first request *)
  | Opened               (* stream-up: the download is open, the upload not yet *)
  | Uploading
  | Ended                (* the application's bytes are all read *)
  | Failed (e : string).

#[export] Instance phase_eq_dec : EqDecision phase.
Proof. solve_decision. Defined.

Record tunnel := mkTunnel {
  app : bytes;        (* what the application has written *)
  unread : bytes;     (* of that, what the duplex holds *)
  app_open : bool;    (* the application has not shut its side down *)
  client : phase;
  next_sequence : Z;
  srv : server;
  wire : bytes;       (* of a streamed body, what the server has not read *)
  wire_open : bool;
  mine : option nat;  (* the session object of this tunnel *)
}.

(** What becomes of a request: no connection took it, or its answer was lost. *)
Inductive fate := Answered | NotSent | AnswerLost.

Inductive event :=
  | Write (b : bytes)           (* the application writes *)
  | Shutdown
  | Open                        (* the first request of a tunnel *)
  | OpenUpload                  (* the second one of stream-up *)
  | SendPacket (n : nat) (f : fate)  (* packet-up: a turn of the loop that reads [n] bytes *)
  | SendBody (n : nat)          (* the streamed body takes [n] bytes *)
  | ReadEnd                     (* a read of the client gives 0 *)
  | BodyChunk (n : nat)         (* the server reads [n] bytes of the body *)
  | BodyEnd
  | BodyBroken                  (* the connection of a streamed body fails *)
  | Receive                     (* the upload task takes a packet *)
  | CloseUpload
  | DownloadEnd
  | Others (v : server).        (* requests of other clients *)

Section client.
Context `{HttpLib} (c : TransportConfig).
Context (method_from_bytes : str → option Method).  (* Method::from_bytes *)
(** The random choices of a request and of [Vec::with_capacity]. *)
Context (pick : option Z → Z → Z → Z) (spare : nat).
Context (base : Url * HeaderMap) (id : str).
Context (accepts : list bytes → bytes → bool).

Definition uplink_method : result Method :=
  context (method_from_bytes c.(Http.uplink_method)) "invalid XHTTP uplink method".

(** [if !no_grpc_header { headers.insert("content-type", "application/grpc".parse()?) }] *)
Definition grpc_header (h : HeaderMap) : result HeaderMap :=
  if c.(no_grpc_header) then Ok h
  else
    n ← context (header_name (lit "content-type")) "invalid header name";
    v ← context (header_value (lit "application/grpc")) "invalid header value";
    Ok (headers_insert h n v).

Definition stream_one_request : result Server.Request :=
  '(url, h) ← request (pick None) spare base c None None;
  h ← grpc_header h;
  Ok (Server.mkRequest POST (uri_of_url url) h []).

Definition download_request : result Server.Request :=
  '(url, h) ← request (pick None) spare base c (Some id) None;
  Ok (Server.mkRequest GET (uri_of_url url) h []).

Definition stream_up_request : result Server.Request :=
  '(url, h) ← request (pick None) spare base c (Some id) None;
  h ← grpc_header h;
  m ← uplink_method;
  Ok (Server.mkRequest m (uri_of_url url) h []).

(** The body of the loop of [packet_upload] up to [send]. *)
Definition packet_request (sequence : Z) (payload : bytes) : result Server.Request :=
  '(url, h) ← request (pick (Some sequence)) spare base c (Some id) (Some sequence);
  '(body, h) ← put_payload c payload h;
  m ← uplink_method;
  Ok (Server.mkRequest m (uri_of_url url) h (default [] body)).

(** The first request of [connect]'s task, and where the task is after it. *)
Definition first_request : result Server.Request * phase :=
  match resolved c.(mode) with
  | StreamOne => (stream_one_request, Uploading)
  | StreamUp => (download_request, Opened)
  | _ => (download_request, Uploading)
  end.

Definition with_srv (s : tunnel) (v : server) : tunnel :=
  mkTunnel s.(app) s.(unread) s.(app_open) s.(client) s.(next_sequence) v s.(wire) s.(wire_open) s.(mine).

Definition with_client (s : tunnel) (p : phase) : tunnel :=
  mkTunnel s.(app) s.(unread) s.(app_open) p s.(next_sequence) s.(srv) s.(wire) s.(wire_open) s.(mine).

(** A request and [error_for_status]: a failed one ends the task. *)
Definition exchange (s : tunnel) (r : result Server.Request) (p : phase) : option tunnel :=
  match r with
  | Ok r =>
    '(v, ok) ← handle c s.(srv) r;
    Some (with_client (with_srv s v) (if (ok : bool) then p else Failed "status"))
  | Err e => Some (with_client s (Failed e))
  | _ => Some (with_client s (Failed "panic"))
  end.

(** The session object the tunnel got. *)
Definition claim (s : tunnel) : tunnel :=
  mkTunnel s.(app) s.(unread) s.(app_open) s.(client) s.(next_sequence) s.(srv) s.(wire) s.(wire_open)
    (Sessions.handle <$> s.(srv).(table).(Sessions.sessions) !! id).

Definition take_unread (s : tunnel) (n : nat) : tunnel :=
  mkTunnel s.(app) (drop n s.(unread)) s.(app_open) s.(client) s.(next_sequence) s.(srv) s.(wire)
    s.(wire_open) s.(mine).

(** [sequence += 1] *)
Definition count_packet (s : tunnel) : tunnel :=
  match checked_or_panic 64 (s.(next_sequence) + 1) with
  | Ok n => mkTunnel s.(app) s.(unread) s.(app_open) s.(client) n s.(srv) s.(wire) s.(wire_open) s.(mine)
  | _ => with_client s (Failed "panic")
  end.

(** A turn of the loop of [packet_upload] that reads [n] bytes. *)
Definition send_packet (s : tunnel) (n : nat) (f : fate) : option tunnel :=
  let r := packet_request s.(next_sequence) (take n s.(unread)) in
  let s := take_unread s n in
  match f with
  | NotSent => Some (with_client s (Failed "request"))
  | AnswerLost => s ← exchange s r Uploading; Some (with_client s (Failed "request"))
  | Answered =>
    s ← exchange s r Uploading;
    if decide (s.(client) = Uploading) then Some (count_packet s) else Some s
  end.

(** The duplex holds at most this many bytes. *)
Definition capacity : Z := Z.max c.(max_packet_size) (64 * 1024).

Definition reads (s : tunnel) (n : nat) : bool :=
  bool_decide (s.(client) = Uploading) && (1 <=? n)%nat && (n <=? length s.(unread))%nat.

(** Another client leaves this tunnel's tasks alone, and a timeout can only remove its
    session. *)
Definition leaves_alone (s : tunnel) (v : server) : Prop :=
  (v.(table).(Sessions.sessions) !! id = s.(srv).(table).(Sessions.sessions) !! id
   ∨ v.(table).(Sessions.sessions) !! id = None)
  ∧ v.(stream) = s.(srv).(stream)
  ∧ match s.(mine) with
    | Some h =>
      v.(channels) !! h = s.(srv).(channels) !! h ∧ v.(uploads) !! h = s.(srv).(uploads) !! h
      ∧ (h < v.(table).(Sessions.next_handle))%nat
    | None => True
    end.

#[local] Instance leaves_alone_dec s v : Decision (leaves_alone s v).
Proof. unfold leaves_alone. destruct (mine s); apply _. Defined.

(** One event; [None] when it cannot happen in the state. *)
Definition step (s : tunnel) (e : event) : option tunnel :=
  match e with
  | Write b =>
    if s.(app_open) && (Z.of_nat (length s.(unread) + length b) <=? capacity) then
      Some (mkTunnel (s.(app) ++ b) (s.(unread) ++ b) true s.(client) s.(next_sequence) s.(srv)
              s.(wire) s.(wire_open) s.(mine))
    else None
  | Shutdown =>
    Some (mkTunnel s.(app) s.(unread) false s.(client) s.(next_sequence) s.(srv) s.(wire)
            s.(wire_open) s.(mine))
  | Open =>
    if decide (s.(client) = Opening)
    then let '(r, p) := first_request in claim <$> exchange s r p else None
  | OpenUpload =>
    if decide (s.(client) = Opened) then exchange s stream_up_request Uploading else None
  | SendPacket n f =>
    if reads s n && bool_decide (resolved c.(mode) = PacketUp) && (Z.of_nat n <=? c.(max_packet_size))
    then send_packet s n f else None
  | SendBody n =>
    if reads s n && negb (bool_decide (resolved c.(mode) = PacketUp)) then
      Some (mkTunnel s.(app) (drop n s.(unread)) s.(app_open) s.(client) s.(next_sequence) s.(srv)
              (s.(wire) ++ take n s.(unread)) s.(wire_open) s.(mine))
    else None
  | ReadEnd =>
    if bool_decide (s.(client) = Uploading) && bool_decide (s.(unread) = []) && negb s.(app_open) then
      Some (mkTunnel s.(app) [] false Ended s.(next_sequence) s.(srv) s.(wire) false s.(mine))
    else None
  | BodyChunk n =>
    if (1 <=? n)%nat && (n <=? length s.(wire))%nat then
      v ← body_chunk c accepts s.(srv) (take n s.(wire));
      Some (mkTunnel s.(app) s.(unread) s.(app_open) s.(client) s.(next_sequence) v
              (drop n s.(wire)) s.(wire_open) s.(mine))
    else None
  | BodyEnd =>
    if bool_decide (s.(wire) = []) && negb s.(wire_open)
    then v ← body_end s.(srv); Some (with_srv s v) else None
  | BodyBroken =>
    if bool_decide (resolved c.(mode) = PacketUp) then None
    else Some (mkTunnel s.(app) s.(unread) s.(app_open) (Failed "body") s.(next_sequence) s.(srv) []
                 false s.(mine))
  | Receive => h ← s.(mine); v ← receive c accepts s.(srv) h; Some (with_srv s v)
  | CloseUpload => h ← s.(mine); v ← close_upload s.(srv) h; Some (with_srv s v)
  | DownloadEnd => h ← s.(mine); Some (with_srv s (download_end s.(srv) id))
  | Others v =>
    if decide (leaves_alone s v) then Some (with_srv s v) else None
  end.

Fixpoint run (s : tunnel) (es : list event) : option tunnel :=
  match es with
  | [] => Some s
  | e :: es => s ← step s e; run s es
  end.

End client.

(** A tunnel of a new client: nothing written yet, no session of its id. *)
Definition start (v : server) : tunnel :=
  mkTunnel [] [] true Opening 0 (with_stream v None) [] true None.

(** What the backend of the tunnel was given. *)
Definition upload_state (u : upload) : Reorder.state :=
  match u with
  | Up (Reorder.Running s) | Up (Reorder.Removed s) | Shut s => s
  | Dead => Reorder.init
  end.

Definition backend_given (s : tunnel) : bytes :=
  match s.(srv).(stream) with
  | Some (ToBackend w _) => concat w
  | _ =>
    match h ← s.(mine); s.(srv).(uploads) !! h with
    | Some (_, u) => concat (upload_state u).(Reorder.written)
    | None => []
    end
  end.

(** ** Runs *)

Section runs.
Context `{HL : HttpLib} (c : TransportConfig) (method_from_bytes : str → option Method).
Context (pick : option Z → Z → Z → Z) (spare : nat) (base : Url * HeaderMap) (id : str).
Context (accepts : list bytes → bytes → bool).

(** The session object in the table under the tunnel's id. *)
Definition entry (v : server) : option Sessions.Session := v.(table).(Sessions.sessions) !! id.

Definition has_room (v : server) : Prop := v.(table).(Sessions.active_sessions) < c.(max_sessions).

(** Nothing fails: requests are answered, connections hold, the backend does not close, and
    the others leave the tunnel its session, or room for one. *)
Definition calm (s : tunnel) (e : event) : Prop :=
  match e with
  | SendPacket _ f => f = Answered
  | DownloadEnd | BodyBroken => False
  | Others v => entry v = entry s.(srv) ∧ has_room v
  | _ => True
  end.

(** The steps of the client and of the server, as against those of the application and of
    other clients. *)
Definition own (e : event) : bool :=
  match e with
  | Open | OpenUpload | SendPacket _ Answered | SendBody _ | ReadEnd | BodyChunk _ | BodyEnd | Receive => true
  | _ => false
  end.

(** Reached without a fault, after that many steps of the tunnel's own tasks. *)
Inductive undisturbed : nat → tunnel → Prop :=
  | undisturbed_start v : entry v = None → has_room v → undisturbed 0 (start v)
  | undisturbed_step n s e s' :
      undisturbed n s → calm s e →
      step c method_from_bytes pick spare base id accepts s e = Some s' →
      undisturbed (if own e then S n else n) s'.

(** None of the tunnel's own tasks can go on. *)
Definition quiescent (s : tunnel) : Prop :=
  ∀ e, own e = true → step c method_from_bytes pick spare base id accepts s e = None.

(** The bytes an event adds to the stream. *)
Definition grown (e : event) : nat := match e with Write b => length b | _ => 0 end.

(** Only the application's writes add to the stream. *)
Lemma step_app s e s' :
  step c method_from_bytes pick spare base id accepts s e = Some s' → s'.(app) = s.(app) ++ match e with Write b => b | _ => [] end.
Proof.
  assert (∀ s r p s', exchange c s r p = Some s' → s'.(app) = s.(app)) as Hx.
  { intros t r p t'. unfold exchange. destruct r; [|by intros [= <-]..].
    destruct (handle c (srv t) a) as [[]|]; by intros [= <-]. }
  destruct e; rewrite ?app_nil_r; cbn; repeat case_match; try done; try (by intros [= <-]);
    try (by apply Hx).
  - intros (s1 & Hs1 & ->)%fmap_Some. by apply (Hx _ _ _ _ Hs1).
  - unfold send_packet. destruct f.
    + intros (s1 & Hs1 & Hs)%bind_Some. apply Hx in Hs1. cbn in Hs1.
      case_decide; injection Hs as <-; [|done]. unfold count_packet. by destruct (checked_or_panic _ _).
    + by intros [= <-].
    + intros (s1 & Hs1 & [= <-])%bind_Some. by apply Hx in Hs1.
  - by intros (v & _ & [= <-])%bind_Some.
  - by intros (v & _ & [= <-])%bind_Some.
  - by intros (h & _ & (v & _ & [= <-])%bind_Some)%bind_Some.
  - by intros (h & _ & (v & _ & [= <-])%bind_Some)%bind_Some.
  - by intros (h & _ & [= <-])%bind_Some.
Qed.

(** The steps of the session table that other clients take do leave the tunnel's session
    alone. *)
Definition concerns (t : Sessions.state) (e : Sessions.event) : Prop :=
  match e with
  | Sessions.Connect i => i = id
  | Sessions.Enter k => t.(Sessions.tasks) !! k = Some (Sessions.Reserved id)
  | Sessions.Remove k => t.(Sessions.tasks) !! k = Some (Sessions.Removing id)
  | _ => False
  end.

Lemma other_step_keeps t e t' :
  Sessions.step c.(max_sessions) c.(max_session_id_length) t e = Some t' → ¬ concerns t e →
  t'.(Sessions.sessions) !! id = t.(Sessions.sessions) !! id
  ∧ (t.(Sessions.next_handle) ≤ t'.(Sessions.next_handle))%nat.
Proof.
  intros Hs Hc. destruct e; cbn in Hs, Hc; repeat case_match; simplify_eq; cbn; try (split; [done|lia]).
  - split; [|lia]. apply lookup_insert_ne. congruence.
  - split; [|lia]. by apply lookup_insert_ne.
  - split; [|lia]. apply lookup_delete_ne. congruence.
Qed.

End runs.

(** ** What the encoding promises to the tunnel *)

(** The server reads the client's requests as they are meant. *)
Class Understood `{HttpLib} (c : TransportConfig) (method_from_bytes : str → option Method)
    (pick : option Z → Z → Z → Z) (spare : nat) (base : Url * HeaderMap) (id : str) := {
  download_understood :
    ∃ r, download_request c pick spare base id = Ok r ∧ dispatch c r = DownloadAction id;
  packet_understood n payload : u64 n → Z.of_nat (length payload) ≤ c.(max_packet_size) →
    ∃ r, packet_request c method_from_bytes pick spare base id n payload = Ok r ∧
      dispatch c r = PacketAction id n ∧ Z.of_nat (length r.(Server.body)) ≤ c.(max_packet_size) ∧
      extract_payload_bytes c r.(req_headers) r.(Server.body) = Ok payload;
  id_fits : Z.of_nat (length id) ≤ c.(max_session_id_length);
}.

(** ** Packet-up *)

Module PacketMode.
Section packets.
Context `{HL : HttpLib} (c : TransportConfig) (method_from_bytes : str → option Method).
Context (pick : option Z → Z → Z → Z) (spare : nat) (base : Url * HeaderMap) (id : str).
Context (accepts : list bytes → bytes → bool).
Context {U : Understood c method_from_bytes pick spare base id}.
Context (Hmode : resolved c.(mode) = PacketUp) (Hmax : 1 ≤ c.(max_buffered_packets)).

Abbreviation step := (step c method_from_bytes pick spare base id accepts).
Abbreviation run := (run c method_from_bytes pick spare base id accepts).
Abbreviation entry := (entry id).
Abbreviation calm := (calm c id).
Abbreviation undisturbed := (undisturbed c method_from_bytes pick spare base id accepts).
Abbreviation quiescent := (quiescent c method_from_bytes pick spare base id accepts).

Definition attached (v : server) (h : nat) : Prop := Sessions.handle <$> entry v = Some h.

(** The packets in the channel, if the upload task still reads it. *)
Definition backlog (u : upload) (q : list Reorder.Packet) : list Reorder.Packet :=
  match u with Up (Reorder.Running _) => q | _ => [] end.

Definition running (u : upload) : Prop :=
  match u with Up (Reorder.Running _) => True | _ => False end.

#[local] Instance attached_dec v h : Decision (attached v h).
Proof. unfold attached. apply _. Defined.
#[local] Instance running_dec u : Decision (running u).
Proof. unfold running. destruct u as [[]| |]; apply _. Defined.

(** The packets of the channel are the ones the task waits for, in order. *)
Definition orderly (u : upload) (q : list Reorder.Packet) : Prop :=
  match u with
  | Up (Reorder.Running st) =>
    st.(Reorder.pending) = ∅ ∧ 0 ≤ st.(Reorder.next) ∧
    Reorder.sequence <$> q = seqZ st.(Reorder.next) (Z.of_nat (length q))
  | _ => True
  end.

(** The bytes the backend has and will get from the channel. *)
Definition committed (u : upload) (q : list Reorder.Packet) : bytes :=
  concat (upload_state u).(Reorder.written) ++ concat (Reorder.payload <$> backlog u q).

(** The client still sends, or has read everything. *)
Definition alive (p : phase) : Prop := p = Uploading ∨ p = Ended.

(** The task has a packet number for the next payload, and no byte is missing. *)
Definition lossless (s : tunnel) (u : upload) (q : list Reorder.Packet) : Prop :=
  s.(next_sequence) = (upload_state u).(Reorder.next) + Z.of_nat (length q) ∧
  committed u q ++ s.(unread) = s.(app) ∧
  s.(next_sequence) + Z.of_nat (length s.(unread)) ≤ Z.of_nat (length s.(app)).

Record inv (s : tunnel) : Prop := {
  inv_stream : s.(srv).(stream) = None;
  inv_sequence : u64 s.(next_sequence);
  inv_opened : s.(client) ≠ Opened;
  inv_opening : s.(client) = Opening →
    s.(mine) = None ∧ s.(unread) = s.(app) ∧ s.(next_sequence) = 0 ∧ entry s.(srv) = None;
  inv_session h : s.(mine) = Some h →
    (h < s.(srv).(table).(Sessions.next_handle))%nat ∧
    ∃ i u, s.(srv).(uploads) !! h = Some (i, u) ∧ orderly u (channel s.(srv) h) ∧
      committed u (channel s.(srv) h) `prefix_of` s.(app) ∧
      (alive s.(client) → attached s.(srv) h → running u → lossless s u (channel s.(srv) h));
}.

(** *** The upload task *)

Lemma on_packet_next st p :
  st.(Reorder.pending) = ∅ → p.(Reorder.sequence) = st.(Reorder.next) →
  Reorder.on_packet accepts c.(max_buffered_packets) st p =
  if accepts st.(Reorder.written) p.(Reorder.payload) then
    n ← checked_or_panic 64 (st.(Reorder.next) + 1);
    Ok (Reorder.Running (Reorder.mkState ∅ n (st.(Reorder.written) ++ [p.(Reorder.payload)])))
  else Ok (Reorder.Removed (Reorder.mkState ∅ st.(Reorder.next) st.(Reorder.written))).
Proof.
  intros Hp Hs. unfold Reorder.on_packet. rewrite Hs, Z.ltb_irrefl, Hp, map_size_empty.
  rewrite Z.geb_leb, (proj2 (Z.leb_gt _ _)) by lia. cbn [andb].
  rewrite map_size_insert_None, map_size_empty by apply lookup_empty.
  cbn [Reorder.drain Reorder.pending Reorder.next]. rewrite lookup_insert_eq.
  cbn [Reorder.written]. destruct (accepts _ _).
  - destruct (checked_or_panic _ _) as [n| | |] eqn:E; cbn [mbind result_bind]; try done.
    cbn [Reorder.drain Reorder.pending Reorder.next]. rewrite delete_insert_id by apply lookup_empty.
    by rewrite lookup_empty.
  - by rewrite delete_insert_id by apply lookup_empty.
Qed.

(** How a step of the server's tasks, or of others, may change the tunnel's session: it
    leaves the table only by being removed, and the task keeps the order of the stream. *)
Record advances (s : tunnel) (v : server) : Prop := {
  adv_stream : v.(stream) = s.(srv).(stream);
  adv_entry : entry v = entry s.(srv) ∨ entry v = None;
  adv_task h i u : s.(mine) = Some h → s.(srv).(uploads) !! h = Some (i, u) →
    orderly u (channel s.(srv) h) →
    (h < s.(srv).(table).(Sessions.next_handle))%nat →
    (h < v.(table).(Sessions.next_handle))%nat ∧
    ∃ u', v.(uploads) !! h = Some (i, u') ∧ orderly u' (channel v h) ∧
      committed u' (channel v h) `prefix_of` committed u (channel s.(srv) h) ∧
      (running u' → running u ∧ committed u' (channel v h) = committed u (channel s.(srv) h) ∧
         (upload_state u').(Reorder.next) + Z.of_nat (length (channel v h))
         = (upload_state u).(Reorder.next) + Z.of_nat (length (channel s.(srv) h)));
}.

Lemma inv_advances s v : inv s → advances s v → inv (with_srv s v).
Proof.
  intros [Hst Hseq Hop Hopening Hse] [Ast Aent Atask]. split; cbn; [congruence|done|done| |].
  - intros Ho. destruct (Hopening Ho) as (? & ? & ? & He). split_and!; try done.
    destruct Aent as [->| ->]; done.
  - intros h Hh. destruct (Hse h Hh) as (Hlt & i & u & Hu & Hord & Hpre & Hless).
    destruct (Atask h i u Hh Hu Hord Hlt) as (Hlt' & u' & Hu' & Hord' & Hpre' & Hrun).
    split; [done|]. exists i, u'. split_and!; [done|done|by trans (committed u (channel (srv s) h))|].
    intros Ha Hatt Hr. destruct (Hrun Hr) as (Hr0 & Hc & Hn).
    assert (attached (srv s) h) as Hatt0.
    { unfold attached in *. destruct Aent as [E|E]; rewrite E in Hatt; done. }
    destruct (Hless Ha Hatt0 Hr0) as (H1 & H2 & H3). unfold lossless; cbn. rewrite Hc. split_and!; try done.
    lia.
Qed.

Lemma entry_removed t i :
  (Sessions.remove_session t i).(Sessions.sessions) !! id = t.(Sessions.sessions) !! id ∨
  (Sessions.remove_session t i).(Sessions.sessions) !! id = None.
Proof.
  unfold Sessions.remove_session. destruct (_ !! i); [|by left]. cbn.
  destruct (decide (i = id)) as [->|]; [right; by apply lookup_delete_eq|left; by apply lookup_delete_ne].
Qed.

Lemma next_handle_removed t i :
  (Sessions.remove_session t i).(Sessions.next_handle) = t.(Sessions.next_handle).
Proof. unfold Sessions.remove_session. by destruct (_ !! i). Qed.

Lemma channel_with v h q : channel (with_channel v h q) h = q.
Proof. unfold channel, with_channel. cbn. by rewrite lookup_insert_eq. Qed.

(** The task takes the next packet: it is written, or the task ends. *)
Lemma task_after_next st p q :
  orderly (Up (Reorder.Running st)) (p :: q) →
  let u := Up (Reorder.Running st) in
  let u' := task_after (Reorder.on_packet accepts c.(max_buffered_packets) st p) in
  orderly u' q ∧ committed u' q `prefix_of` committed u (p :: q) ∧
  (running u' → committed u' q = committed u (p :: q) ∧
     (upload_state u').(Reorder.next) = st.(Reorder.next) + 1).
Proof.
  intros (Hp & H0 & Hseq). cbn [length fmap list_fmap] in Hseq. rewrite seqZ_cons in Hseq by lia.
  injection Hseq as Hps Hseq. cbn zeta. rewrite on_packet_next by done. destruct (accepts _ _).
  - unfold checked_or_panic. destruct (_ && _); cbn [mbind result_bind task_after].
    + set (st' := Reorder.mkState _ _ _).
      assert (committed (Up (Reorder.Running st')) q = committed (Up (Reorder.Running st)) (p :: q)) as Hc
        by (unfold committed; cbn; rewrite concat_app; cbn; by rewrite app_nil_r, <- app_assoc).
      split; [|by rewrite Hc]. split_and!; cbn; [done|lia|]. rewrite Hseq. f_equal; lia.
    + split_and!; try done. unfold committed. cbn. apply prefix_nil.
  - cbn [task_after]. split_and!; try done. unfold committed. cbn. rewrite app_nil_r. by apply prefix_app_r.
Qed.

Lemma advances_receive s h v :
  s.(mine) = Some h → receive c accepts s.(srv) h = Some v → advances s v.
Proof.
  intros Hm H. unfold receive in H. destruct (uploads (srv s) !! h) as [[i [[st|]| |]]|] eqn:Hu; try done.
  destruct (channel (srv s) h) as [|p q] eqn:Hq; [done|]. cbn zeta in H.
  set (r := Reorder.on_packet _ _ _ _) in H. injection H as <-. split; [done| |].
  - unfold entry. cbn. destruct r as [[]| | |]; try (by left). apply entry_removed.
  - intros h' i' u Hm' Hu' Hord Hlt. rewrite Hm in Hm'. injection Hm' as <-.
    rewrite Hu in Hu'. injection Hu' as <- <-. rewrite Hq in Hord |- *.
    destruct (task_after_next st p q Hord) as (Ho & Hp & Hr). fold r in Ho, Hp, Hr.
    split; [cbn; by destruct r as [[]| | |]; rewrite ?next_handle_removed|].
    exists (task_after r). cbn [with_upload uploads]. rewrite lookup_insert_eq.
    assert (∀ v u, channel (with_upload v h u) h = channel v h) as -> by done. rewrite channel_with.
    split_and!; try done. intros Hrun. destruct (Hr Hrun) as [Hc Hn]. split_and!; [done..|].
    rewrite Hn. cbn. lia.
Qed.

Lemma advances_close s h v : s.(mine) = Some h → close_upload s.(srv) h = Some v → advances s v.
Proof.
  intros Hm H. unfold close_upload in H.
  destruct (uploads (srv s) !! h) as [[i [[st|]| |]]|] eqn:Hu; try done.
  destruct (channel (srv s) h) as [|p q] eqn:Hq; [|done]. destruct (has_sender _ _ _); [done|].
  injection H as <-. split; [done|by left|].
  intros h' i' u Hm' Hu' Hord Hlt. rewrite Hm in Hm'. injection Hm' as <-.
  rewrite Hu in Hu'. injection Hu' as <- <-. split; [done|]. exists (Shut st).
  cbn [with_upload uploads]. rewrite lookup_insert_eq. split_and!; try done.
  unfold committed. cbn. by rewrite Hq.
Qed.

Lemma advances_end s : advances s (download_end s.(srv) id).
Proof.
  split; [done|apply entry_removed|]. intros h i u Hm Hu Hord Hlt. cbn. rewrite next_handle_removed.
  split; [done|]. exists u. by split_and!.
Qed.

Lemma advances_others s v : leaves_alone id s v → advances s v.
Proof.
  intros (He & Hst & Hm). split; [done|done|]. intros h i u Hh Hu Hord Hlt. rewrite Hh in Hm.
  destruct Hm as (Hc & Hup & Hn). assert (channel v h = channel (srv s) h) as Hch
    by (unfold channel; by rewrite Hc). rewrite Hch. split; [done|]. exists u. rewrite Hup.
  by split_and!.
Qed.

(** *** The handlers *)

Lemma with_table_same v : with_table v v.(table) = v.
Proof. unfold with_table. rewrite Nat.ltb_irrefl. by destruct v. Qed.

Lemma id_accepted : (Z.of_nat (length id) >? c.(max_session_id_length)) = false.
Proof. pose proof id_fits. rewrite Z.gtb_ltb. apply Z.ltb_ge. done. Qed.

(** The download of a new id: a session object of its own, or no room for it. *)
Lemma handle_download v r :
  dispatch c r = DownloadAction id → entry v = None →
  let n := v.(table).(Sessions.next_handle) in
  ∃ v' ok, handle c v r = Some (v', ok) ∧ v'.(stream) = v.(stream) ∧
    (v.(table).(Sessions.active_sessions) < c.(max_sessions) → ok = true) ∧
    if ok : bool then
      entry v' = Some (Sessions.mkSession n true) ∧ channel v' n = [] ∧
      v'.(uploads) !! n = Some (id, Up (Reorder.Running Reorder.init)) ∧
      (n < v'.(table).(Sessions.next_handle))%nat
    else entry v' = None.
Proof.
  intros Hd He. unfold handle, download, find_session, Sessions.get_session, entry in *. rewrite Hd, id_accepted, He.
  destruct (_ <? _) eqn:Ea; bool_to_prop.
  - do 2 eexists. split; [done|]. cbn. split_and!; try done.
    + by rewrite lookup_insert_eq.
    + unfold channel, with_upload, with_table. cbn.
      by rewrite Nat.leb_refl, lookup_insert_eq.
    + by rewrite lookup_insert_eq.
    + lia.
  - do 2 eexists. split; [done|]. cbn. split_and!; try done. lia.
Qed.

Lemma send_Some v x p v' :
  send c v x p = Some v' →
  v' = with_channel v x.(Sessions.handle) (channel v x.(Sessions.handle) ++ [p]).
Proof. unfold send. destruct (_ <? _); [|done]. by intros [= <-]. Qed.

Lemma channel_with_ne v h h' q : h ≠ h' → channel (with_channel v h' q) h = channel v h.
Proof. intros Hne. unfold channel, with_channel. cbn. by rewrite lookup_insert_ne. Qed.

Lemma channel_open_running v x i u :
  v.(uploads) !! x.(Sessions.handle) = Some (i, u) → channel_open v x = true ↔ running u.
Proof. intros Hu. unfold channel_open. rewrite Hu. by destruct u as [[]| |]. Qed.

(** [get_session] makes a new object for an unknown id. *)
Lemma with_table_fresh v t h :
  (h < v.(table).(Sessions.next_handle))%nat → channel (with_table v t) h = channel v h.
Proof.
  intros Hh. unfold channel, with_table. cbn zeta. cbn [channels]. case_match; [|done].
  rewrite lookup_insert_ne; [done|lia].
Qed.

Lemma stream_handle_packet v r n v' ok :
  dispatch c r = PacketAction id n → handle c v r = Some (v', ok) → v'.(stream) = v.(stream).
Proof.
  intros Hd. unfold handle. rewrite Hd. destruct (packet_upload _ _ _ _ _ _) as [[[st [[x p]|]] t]| | |];
    try (by intros [= <- _]). destruct (send _ _ _ _) as [v1|] eqn:Es; [|done].
  apply send_Some in Es as ->. by intros [= <- _].
Qed.

(** A packet goes into the channel of the session in the table, if its task runs, and
    touches no other session object. *)
Lemma handle_packet v r n payload v' ok h i u :
  dispatch c r = PacketAction id n → Z.of_nat (length r.(Server.body)) ≤ c.(max_packet_size) →
  extract_payload_bytes c r.(req_headers) r.(Server.body) = Ok payload →
  Z.of_nat (length payload) ≤ c.(max_packet_size) → handle c v r = Some (v', ok) →
  (h < v.(table).(Sessions.next_handle))%nat → v.(uploads) !! h = Some (i, u) →
  (h < v'.(table).(Sessions.next_handle))%nat ∧ v'.(uploads) !! h = Some (i, u) ∧
  (attached v' h → attached v h ∧ entry v' = entry v) ∧
  (attached v h → running u → channel v' h = channel v h ++ [Reorder.mkPacket n payload] ∧ ok = true) ∧
  (¬ (attached v h ∧ running u) → channel v' h = channel v h).
Proof.
  intros Hd Hb Hx Hp Hh Hn Hu. unfold handle in Hh. rewrite Hd in Hh. unfold packet_upload in Hh.
  assert (∀ z, z ≤ max_packet_size c → (z >? max_packet_size c) = false) as Hle
    by (intros z Hz; rewrite Z.gtb_ltb; by apply Z.ltb_ge).
  rewrite Hle, Hx, Hle in Hh by done. unfold Sessions.get_session in Hh. rewrite id_accepted in Hh.
  unfold attached, entry. destruct (Sessions.sessions (table v) !! id) as [x|] eqn:Ex.
  - destruct (channel_open v x) eqn:Eo; rewrite with_table_same in Hh.
    + destruct (send _ _ _ _) as [v1|] eqn:Es; [|done].
      apply send_Some in Es as ->. injection Hh as <- <-. cbn. rewrite Ex. cbn. split_and!; try done.
      * intros [= <-] _. by rewrite channel_with.
      * intros Hn'. apply channel_with_ne. intros ->. apply Hn'. split; [done|].
        by eapply channel_open_running.
    + injection Hh as <- <-. rewrite Ex. cbn. split_and!; try done.
      intros [= <-] Hr. apply (channel_open_running v x i u Hu) in Hr. congruence.
  - destruct (_ <? _); cbn zeta iota beta in Hh.
    + destruct (channel_open _ _).
      * destruct (send _ _ _ _) as [v1|] eqn:Es; [|done]. apply send_Some in Es as ->.
        injection Hh as <- <-. cbn. rewrite lookup_insert_eq. cbn. split_and!; try done; try lia.
        -- intros [= <-]. lia.
        -- intros _. rewrite channel_with_ne by lia. by apply with_table_fresh.
      * injection Hh as <- <-. cbn. rewrite lookup_insert_eq. cbn. split_and!; try done; try lia.
        -- intros [= <-]. lia.
        -- intros _. by apply with_table_fresh.
    + rewrite with_table_same in Hh. injection Hh as <- <-. rewrite Ex. by split_and!.
Qed.

(** *** Every step keeps the invariant *)

Lemma resolved_first : first_request c pick spare base id = (download_request c pick spare base id, Uploading).
Proof. unfold first_request. by rewrite Hmode. Qed.

Lemma inv_open s s' : inv s → step s Open = Some s' → inv s'.
Proof using U Hmode.
  intros Hi Hs. cbn in Hs. case_decide as Ho; [|done]. rewrite resolved_first in Hs.
  destruct Hi as [Hst Hseq _ Hopening _]. destruct (Hopening Ho) as (Hm & Hun & H0 & He).
  destruct download_understood as (r & Er & Hd). unfold exchange in Hs. rewrite Er in Hs.
  destruct (handle_download (srv s) r Hd He) as (v' & ok & Hh & Hst' & _ & Hok). rewrite Hh in Hs.
  cbn in Hs. injection Hs as <-. destruct ok.
  - destruct Hok as (He' & Hch & Hu & Hn). split; cbn; [congruence|done|done|done|].
    intros h. unfold entry in He'. rewrite He'. cbn. intros [= <-]. split; [done|].
    do 2 eexists. split; [done|]. rewrite Hch. split_and!; cbn; try done.
    + apply prefix_nil.
    + intros _ _ _. unfold lossless. cbn. rewrite H0, Hun. split_and!; (done || lia).
  - split; cbn; [congruence|done|done|done|]. intros h. unfold entry in Hok. by rewrite Hok.
Qed.

(** A packet that was handled, whatever the client learns about it. *)
Lemma inv_handled s n r v' ok p next :
  inv s → s.(client) = Uploading → (1 ≤ n ≤ length s.(unread))%nat → Z.of_nat n ≤ c.(max_packet_size) →
  packet_request c method_from_bytes pick spare base id s.(next_sequence) (take n s.(unread)) = Ok r →
  handle c s.(srv) r = Some (v', ok) → u64 next →
  p = Uploading ∧ next = s.(next_sequence) + 1 ∨ (∃ e, p = Failed e) →
  inv (mkTunnel s.(app) (drop n s.(unread)) s.(app_open) p next v' s.(wire) s.(wire_open) s.(mine)).
Proof using U.
  intros [Hst Hseq _ _ Hse] Hcl Hn Hmp Er Hh Hnext Hp.
  assert (length (take n s.(unread)) = n) as Hlen by (rewrite length_take; lia).
  destruct (packet_understood s.(next_sequence) (take n s.(unread)) Hseq) as (r' & Er' & Hd & Hb & Hx);
    [by rewrite Hlen|]. rewrite Er in Er'. injection Er' as <-.
  assert (Z.of_nat (length (take n (unread s))) ≤ max_packet_size c) as Hpl by (by rewrite Hlen).
  split; cbn; [|done|by destruct Hp as [[-> _]|[e ->]]|by destruct Hp as [[-> _]|[e ->]]|].
  { rewrite (stream_handle_packet _ _ _ _ _ Hd Hh). done. }
  intros h Hm. destruct (Hse h Hm) as (Hlt & i & u & Hu & Hord & Hpre & Hless).
  destruct (handle_packet _ _ _ _ _ _ h i u Hd Hb Hx Hpl Hh Hlt Hu) as (Hlt' & Hu' & Hatt & Hin & Hout).
  split; [done|]. exists i, u. split; [done|].
  destruct (decide (attached (srv s) h ∧ running u)) as [[Ha Hr]|Hnot]; cycle 1.
  { rewrite Hout by done. split_and!; [done|done|]. intros _ Ha Hr. destruct Hnot. split; [by apply Hatt|done]. }
  destruct (Hin Ha Hr) as [-> _]. destruct (Hless (or_introl Hcl) Ha Hr) as (H1 & H2 & H3).
  destruct u as [[st|]| |]; try done. destruct Hord as (Hpe & H0 & Hsq).
  assert (committed (Up (Reorder.Running st)) (channel (srv s) h ++
            [Reorder.mkPacket (next_sequence s) (take n (unread s))])
          = committed (Up (Reorder.Running st)) (channel (srv s) h) ++ take n (unread s)) as Hc.
  { unfold committed. cbn. by rewrite fmap_app, concat_app, app_assoc; cbn; rewrite app_nil_r. }
  rewrite Hc. split_and!; cbn; try done.
  - rewrite fmap_app, Hsq, length_app. cbn [length]. rewrite Nat2Z.inj_add, seqZ_app by lia. f_equal.
    cbn in H1 |- *. by rewrite H1.
  - exists (drop n (unread s)). by rewrite <- app_assoc, take_drop.
  - intros Hal _ _. assert (next = next_sequence s + 1) as ->
      by (by destruct Hp as [[_ ?]|[e ->]]; [|destruct Hal]).
    unfold lossless. cbn in *. rewrite Hc, length_app, length_drop, <- app_assoc, take_drop. cbn [length].
    split_and!; (done || lia).
Qed.

(** A client that stops has no more to send. *)
Lemma inv_failed s n e :
  inv s →
  inv (mkTunnel s.(app) (drop n s.(unread)) s.(app_open) (Failed e) s.(next_sequence) s.(srv) s.(wire)
         s.(wire_open) s.(mine)).
Proof.
  intros [Hst Hseq _ _ Hse]. split; cbn; try done. intros h Hm.
  destruct (Hse h Hm) as (Hlt & i & u & Hu & Hord & Hpre & _). split; [done|]. exists i, u.
  split_and!; try done. by intros [?|?].
Qed.

Lemma u64_next z n : checked_or_panic 64 z = Ok n → n = z ∧ u64 z.
Proof.
  unfold checked_or_panic, uint. destruct (_ && _) eqn:E; [|done]. intros [= <-].
  apply andb_true_iff in E as [?%Z.leb_le ?%Z.ltb_lt]. done.
Qed.

Lemma inv_send_packet s n f s' : inv s → step s (SendPacket n f) = Some s' → inv s'.
Proof using U.
  intros Hi Hs. cbn in Hs. destruct (reads s n) eqn:Er; [|done].
  unfold reads in Er. bool_to_prop. destruct (bool_decide _); [|done]. cbn in Hs.
  destruct (Z.of_nat n <=? _) eqn:En; [|done]. bool_to_prop.
  assert (length (take n s.(unread)) = n) as Hlen by (rewrite length_take; lia).
  destruct (packet_understood s.(next_sequence) (take n s.(unread)) (inv_sequence _ Hi))
    as (r & Hr & _); [by rewrite Hlen|].
  unfold send_packet, exchange in Hs. rewrite Hr in Hs. cbn [take_unread srv] in Hs.
  pose proof (inv_sequence _ Hi) as Hsq.
  destruct f; cbn in Hs.
  - destruct (handle c (srv s) r) as [[v' ok]|] eqn:Hh; [|done]. cbn in Hs.
    case_decide as Hp; cbn in Hp; injection Hs as <-.
    + unfold count_packet. cbn. destruct (checked_or_panic _ _) as [k| | |] eqn:Ek.
      1: destruct ok; [|done]; apply u64_next in Ek as [-> ?].
      all: eapply (inv_handled s n r v'); eauto.
    + destruct ok; [done|]. eapply (inv_handled s n r v' false); eauto.
  - injection Hs as <-. apply (inv_failed s n "request" Hi).
  - destruct (handle c (srv s) r) as [[v' ok]|] eqn:Hh; [|done]. cbn in Hs. injection Hs as <-.
    eapply (inv_handled s n r v' ok); eauto.
Qed.

Lemma inv_step s e s' : inv s → step s e = Some s' → inv s'.
Proof using U Hmode Hmax.
  intros Hi Hs. destruct e; try (by eapply inv_open); try (by eapply inv_send_packet).
  - (* Write *)
    cbn in Hs. destruct (_ && _); [|done]. injection Hs as <-. destruct Hi as [Hst Hseq Ho Hop Hse].
    split; cbn; try done.
    + intros Hc. destruct (Hop Hc) as (? & -> & ? & ?). by split_and!.
    + intros h Hm. destruct (Hse h Hm) as (Hlt & i & u & Hu & Hord & Hpre & Hl). split; [done|].
      exists i, u. split_and!; try done; [by apply prefix_app_r|]. intros Ha Hat Hr.
      destruct (Hl Ha Hat Hr) as (H1 & H2 & H3). unfold lossless. cbn.
      rewrite app_assoc, H2, !length_app. split_and!; (done || lia).
  - (* Shutdown *) cbn in Hs. injection Hs as <-. by destruct Hi.
  - (* OpenUpload *) cbn in Hs. case_decide as Ho; [|done]. by destruct (inv_opened _ Hi).
  - (* SendBody *) cbn in Hs. rewrite Hmode in Hs. by rewrite andb_false_r in Hs.
  - (* ReadEnd *)
    cbn in Hs. destruct (_ && _) eqn:E; [|done]. injection Hs as <-.
    apply andb_true_iff in E as [E _]. apply andb_true_iff in E as [Hc Hun].
    apply bool_decide_eq_true in Hc, Hun. destruct Hi as [Hst Hseq Ho Hop Hse]. split; cbn; try done.
    intros h Hm. destruct (Hse h Hm) as (Hlt & i & u & Hu & Hord & Hpre & Hl). split; [done|].
    exists i, u. split_and!; try done. intros _ Hat Hr. destruct (Hl (or_introl Hc) Hat Hr) as (H1 & H2 & H3).
    rewrite Hun in H2, H3. by split_and!.
  - (* BodyChunk *)
    cbn in Hs. destruct (_ && _); [|done]. unfold body_chunk in Hs. by rewrite (inv_stream _ Hi) in Hs.
  - (* BodyEnd *)
    cbn in Hs. destruct (_ && _); [|done]. unfold body_end in Hs. by rewrite (inv_stream _ Hi) in Hs.
  - (* BodyBroken *) cbn in Hs. by rewrite Hmode in Hs.
  - (* Receive *)
    cbn in Hs. destruct (mine s) as [h|] eqn:Hm; [|done]. cbn in Hs.
    destruct (receive _ _ _ h) as [v|] eqn:Er; [|done]. injection Hs as <-.
    apply inv_advances; [done|]. by eapply advances_receive.
  - (* CloseUpload *)
    cbn in Hs. destruct (mine s) as [h|] eqn:Hm; [|done]. cbn in Hs.
    destruct (close_upload _ h) as [v|] eqn:Er; [|done]. injection Hs as <-.
    apply inv_advances; [done|]. by eapply advances_close.
  - (* DownloadEnd *)
    cbn in Hs. destruct (mine s) as [h|] eqn:Hm; [|done]. injection Hs as <-.
    apply inv_advances; [done|]. apply advances_end.
  - (* Others *)
    cbn in Hs. case_decide; [|done]. injection Hs as <-. apply inv_advances; [done|].
    by apply advances_others.
Qed.

Lemma inv_run s es s' : inv s → run s es = Some s' → inv s'.
Proof using U Hmode Hmax.
  revert s. induction es as [|e es IH]; intros s Hi; cbn; [by intros [= <-]|].
  destruct (step s e) as [s1|] eqn:E; [|done]. apply IH. by eapply inv_step.
Qed.

Lemma inv_start v : entry v = None → inv (start v).
Proof. intros He. split; cbn; try done. Qed.

Lemma inv_given s : inv s → backend_given s `prefix_of` s.(app).
Proof.
  intros Hi. unfold backend_given. rewrite (inv_stream _ Hi). destruct (mine s) as [h|] eqn:Hm; cbn.
  2: apply prefix_nil. destruct (inv_session _ Hi h Hm) as (_ & i & u & -> & _ & Hp & _).
  etrans; [|exact Hp]. by apply prefix_app_r.
Qed.

(** *** Without faults everything arrives *)

Definition live (s : tunnel) : Prop :=
  match s.(client) with
  | Opening => has_room c s.(srv)
  | Uploading | Ended =>
    (∃ h st, s.(mine) = Some h ∧ entry s.(srv) = Some (Sessions.mkSession h true) ∧
       s.(srv).(uploads) !! h = Some (id, Up (Reorder.Running st))) ∧
    (s.(client) = Ended → s.(unread) = [] ∧ s.(app_open) = false)
  | _ => False
  end.

(** The steps that are left. *)
Definition work (s : tunnel) : nat :=
  match s.(client) with Opening => 2 | Uploading => 1 | _ => 0 end + 2 * length s.(unread) +
  match s.(mine) with Some h => length (channel s.(srv) h) | None => 0 end.

Lemma handle_attached v r n payload x :
  dispatch c r = PacketAction id n → Z.of_nat (length r.(Server.body)) ≤ c.(max_packet_size) →
  extract_payload_bytes c r.(req_headers) r.(Server.body) = Ok payload →
  Z.of_nat (length payload) ≤ c.(max_packet_size) → entry v = Some x → channel_open v x = true →
  handle c v r = v1 ← send c v x (Reorder.mkPacket n payload); Some (v1, true).
Proof using U.
  intros Hd Hb Hx Hp He Ho. unfold handle, packet_upload. rewrite Hd.
  assert (∀ z, z ≤ max_packet_size c → (z >? max_packet_size c) = false) as Hle
    by (intros z Hz; rewrite Z.gtb_ltb; by apply Z.ltb_ge).
  rewrite Hle, Hx, Hle by done. unfold Sessions.get_session. rewrite id_accepted.
  unfold entry in He. by rewrite He, Ho, with_table_same.
Qed.

(** A running session of the tunnel's own, with everything accounted for. *)
Lemma live_session s h st :
  inv s → alive s.(client) → s.(mine) = Some h → entry s.(srv) = Some (Sessions.mkSession h true) →
  s.(srv).(uploads) !! h = Some (id, Up (Reorder.Running st)) →
  lossless s (Up (Reorder.Running st)) (channel s.(srv) h) ∧
  orderly (Up (Reorder.Running st)) (channel s.(srv) h) ∧
  channel_open s.(srv) (Sessions.mkSession h true) = true.
Proof.
  intros Hi Ha Hm He Hu. destruct (inv_session _ Hi h Hm) as (_ & i & u & Hu' & Hord & _ & Hl).
  rewrite Hu in Hu'. injection Hu' as <- <-. split_and!; [|done|].
  - apply Hl; [done| |done]. unfold attached. by rewrite He.
  - unfold channel_open. cbn. by rewrite Hu.
Qed.

Lemma checked_small n m : 0 ≤ n < m → m < u64_max → checked_or_panic 64 (n + 1) = Ok (n + 1).
Proof.
  intros Hn Hm. unfold checked_or_panic, u64_max in *.
  by rewrite (proj2 (Z.leb_le _ _)), (proj2 (Z.ltb_lt _ _)) by lia.
Qed.

(** A turn of the loop with an open session and room in its channel. *)
Lemma send_packet_live s h st n :
  inv s → s.(client) = Uploading → s.(mine) = Some h →
  entry s.(srv) = Some (Sessions.mkSession h true) →
  s.(srv).(uploads) !! h = Some (id, Up (Reorder.Running st)) →
  (1 ≤ n ≤ length s.(unread))%nat → Z.of_nat n ≤ c.(max_packet_size) →
  Z.of_nat (length s.(app)) < u64_max →
  step s (SendPacket n Answered) =
  v ← send c s.(srv) (Sessions.mkSession h true)
        (Reorder.mkPacket s.(next_sequence) (take n s.(unread)));
  Some (mkTunnel s.(app) (drop n s.(unread)) s.(app_open) Uploading (s.(next_sequence) + 1) v s.(wire)
          s.(wire_open) s.(mine)).
Proof using U Hmode.
  intros Hi Hc Hm He Hu Hn Hmp Hlen. cbn. unfold reads. rewrite Hc, Hmode.
  rewrite !bool_decide_true by done. rewrite !(proj2 (Nat.leb_le _ _)), (proj2 (Z.leb_le _ _)) by lia. cbn [andb].
  assert (length (take n s.(unread)) = n) as Hl by (rewrite length_take; lia).
  destruct (packet_understood s.(next_sequence) (take n s.(unread)) (inv_sequence _ Hi))
    as (r & Hr & Hd & Hb & Hx); [by rewrite Hl|].
  destruct (live_session s h st Hi (or_introl Hc) Hm He Hu) as ((H1 & H2 & H3) & _ & Ho).
  pose proof (inv_sequence _ Hi) as Hsq.
  unfold send_packet, exchange. rewrite Hr. cbn [take_unread srv].
  rewrite (handle_attached _ _ _ _ _ Hd Hb Hx ltac:(by rewrite Hl) He Ho).
  destruct (send _ _ _ _) as [v|]; [|done]. cbn. unfold count_packet. cbn.
  by rewrite (checked_small _ (Z.of_nat (length (app s)))) by (unfold uint in *; lia).
Qed.

Section served.
Context (Hacc : ∀ w b, accepts w b = true).

Lemma receive_live s h st :
  inv s → alive s.(client) → s.(mine) = Some h → entry s.(srv) = Some (Sessions.mkSession h true) →
  s.(srv).(uploads) !! h = Some (id, Up (Reorder.Running st)) →
  Z.of_nat (length s.(app)) < u64_max →
  receive c accepts s.(srv) h =
  match channel s.(srv) h with
  | [] => None
  | p :: q =>
    Some (with_upload (with_channel s.(srv) h q) h (id, Up (Reorder.Running
      (Reorder.mkState ∅ (st.(Reorder.next) + 1) (st.(Reorder.written) ++ [p.(Reorder.payload)])))))
  end.
Proof using Hacc Hmax.
  intros Hi Ha Hm He Hu Hlen.
  destruct (live_session s h st Hi Ha Hm He Hu) as ((H1 & _ & H3) & (Hp & H0 & Hsq) & _).
  unfold receive. rewrite Hu. destruct (channel (srv s) h) as [|p q]; [done|].
  cbn [length fmap list_fmap] in Hsq, H1. rewrite seqZ_cons in Hsq by lia. injection Hsq as Hps _.
  rewrite on_packet_next, Hacc by done. cbn in H1.
  rewrite (checked_small _ (Z.of_nat (length (app s)))) by lia. cbn. by destruct (srv s).
Qed.

Lemma live_mine s h :
  inv s → live s → s.(mine) = Some h →
  alive s.(client) ∧ ∃ st, entry s.(srv) = Some (Sessions.mkSession h true) ∧
    s.(srv).(uploads) !! h = Some (id, Up (Reorder.Running st)).
Proof.
  intros Hi Hl Hm. unfold live in Hl. destruct (client s) eqn:Hc; try done.
  - by destruct (inv_opening _ Hi Hc) as [? _]; congruence.
  - destruct Hl as [(h' & st & Hm' & He & Hu) _]. rewrite Hm in Hm'. injection Hm' as <-.
    split; [by left|by eauto].
  - destruct Hl as [(h' & st & Hm' & He & Hu) _]. rewrite Hm in Hm'. injection Hm' as <-.
    split; [by right|by eauto].
Qed.

(** A step keeps the tunnel live, and the tunnel's own steps are paid for by the work. *)
Definition progress (s : tunnel) (e : event) (s' : tunnel) : Prop :=
  live s' ∧ (work s' + (if own e then 1 else 0) ≤ work s + 2 * grown e)%nat ∧
  length s'.(app) = (length s.(app) + grown e)%nat.

Lemma progress_open s s' : inv s → live s → step s Open = Some s' → progress s Open s'.
Proof using U Hmode.
  intros Hi Hl Hs. cbn in Hs. case_decide as Ho; [|done]. rewrite resolved_first in Hs.
  destruct (inv_opening _ Hi Ho) as (Hm & _ & _ & He).
  destruct download_understood as (r & Er & Hd). unfold exchange in Hs. rewrite Er in Hs.
  destruct (handle_download (srv s) r Hd He) as (v' & ok & Hh & _ & Hroom & Hok). rewrite Hh in Hs.
  cbn in Hs. injection Hs as <-. unfold live in Hl. rewrite Ho in Hl. rewrite Hroom in Hok |- * by done.
  destruct Hok as (He' & Hch & Hu & Hn). unfold entry in He'.
  unfold progress, live, work. cbn. rewrite He', Ho, Hm. cbn. rewrite Hch. cbn.
  split; [split; [by eauto 10|done]|lia].
Qed.

Lemma progress_send s n s' :
  inv s → live s → step s (SendPacket n Answered) = Some s' → Z.of_nat (length s'.(app)) < u64_max →
  progress s (SendPacket n Answered) s'.
Proof using U Hmode.
  intros Hi Hl Hs Hlen. pose proof Hs as Hg. cbn in Hg.
  destruct (reads s n) eqn:Er; [|done]. unfold reads in Er. bool_to_prop.
  destruct (Z.of_nat n <=? _) eqn:En; [|by rewrite andb_false_r in Hg]. bool_to_prop. clear Hg.
  assert (s'.(app) = s.(app)) as Happ by (apply step_app in Hs; by rewrite app_nil_r in Hs).
  assert (client s = Uploading) as Hc by done. unfold live in Hl. rewrite Hc in Hl.
  destruct Hl as [(h & st & Hm & He & Hu) _].
  rewrite Happ in Hlen. rewrite (send_packet_live s h st) in Hs by done.
  destruct (send _ _ _ _) as [v|] eqn:Es; [|done]. apply send_Some in Es as ->. injection Hs as <-.
  unfold progress, live, work. cbn. rewrite Hc, Hm, channel_with, length_app, length_drop. cbn [length].
  split; [split; [by eauto 10|done]|lia].
Qed.

Lemma progress_receive s s' :
  inv s → live s → step s Receive = Some s' → Z.of_nat (length s'.(app)) < u64_max →
  progress s Receive s'.
Proof using Hmax Hacc.
  intros Hi Hl Hs Hlen. pose proof (step_app _ _ _ _ _ _ _ _ _ _ Hs) as Happ. rewrite app_nil_r in Happ.
  rewrite Happ in Hlen. cbn in Hs. destruct (mine s) as [h|] eqn:Hm; [|done]. cbn in Hs.
  destruct (live_mine s h Hi Hl Hm) as (Ha & st & He & Hu).
  rewrite (receive_live s h st) in Hs by done.
  destruct (channel (srv s) h) as [|p q] eqn:Hq; [done|]. cbn in Hs. injection Hs as <-.
  unfold progress, live, work in *. cbn. rewrite Hm, Hq. change (channel (with_upload ?v _ _) h) with (channel v h).
  rewrite channel_with. cbn [length].
  split; [|lia]. destruct Ha as [Hc|Hc]; rewrite Hc in *; destruct Hl as [_ Hl];
    (split; [|done]); eexists _, _; (split_and!; [done|done|]); by rewrite lookup_insert_eq.
Qed.

Lemma live_step s e s' :
  inv s → live s → calm s e → step s e = Some s' → Z.of_nat (length s'.(app)) < u64_max →
  progress s e s'.
Proof using U Hmode Hmax Hacc.
  intros Hi Hl Hc Hs Hlen.
  destruct e; try (by apply progress_open); try (by apply progress_receive).
  4: by cbn in Hc; subst; apply progress_send.
  all: try done. all: cbn in Hs.
  - destruct (app_open s) eqn:Ea; [|done]. destruct (_ <=? _); [|done]. injection Hs as <-.
    unfold progress, live, work in *. cbn in *. rewrite !length_app. split; [|lia].
    destruct (client s); try done; destruct Hl as [Hl Hu]; (split; [done|]); try done;
      intros _; destruct (Hu eq_refl); by try congruence.
  - injection Hs as <-. unfold progress, live, work in *. cbn in *. split; [|lia].
    destruct (client s); try done; destruct Hl as [Hl Hu]; (split; [done|]); try done;
      intros _; destruct (Hu eq_refl); by try congruence.
  - case_decide as Ho; [|done]. by destruct (inv_opened _ Hi).
  - rewrite Hmode in Hs. by rewrite andb_false_r in Hs.
  - destruct (_ && _) eqn:E; [|done]. injection Hs as <-.
    apply andb_true_iff in E as [E _]. apply andb_true_iff in E as [Hcl Hun].
    apply bool_decide_eq_true in Hcl, Hun. unfold progress, live, work in *. cbn. rewrite Hcl, Hun in *. cbn.
    split; [by destruct Hl|lia].
  - destruct (_ && _); [|done]. unfold body_chunk in Hs. by rewrite (inv_stream _ Hi) in Hs.
  - destruct (_ && _); [|done]. unfold body_end in Hs. by rewrite (inv_stream _ Hi) in Hs.
  - destruct (mine s) as [h|] eqn:Hm; [|done]. cbn in Hs. exfalso. revert Hs. unfold close_upload.
    destruct (uploads (srv s) !! h) as [[i u]|] eqn:Hu; [|done].
    assert (i = id ∧ has_sender (srv s) id h = true) as [-> Hsend].
    { destruct (live_mine s h Hi Hl Hm) as (_ & st & He & Hu'). rewrite Hu in Hu'. injection Hu' as -> ->.
      split; [done|]. unfold has_sender. unfold entry in He. by rewrite He, bool_decide_true. }
    rewrite Hsend. by destruct u as [[]| |], (channel (srv s) h).
  - case_decide as Ha; [|done]. injection Hs as <-. destruct Hc as [He Hroom]. destruct Ha as (_ & _ & Ha).
    unfold progress, live, work in *. cbn. rewrite He. split; [|destruct (mine s) as [h|]; [|lia]].
    + destruct (client s); try done; destruct Hl as [(h & st & Hm & Hen & Hu) Hl]; rewrite Hm in *;
        destruct Ha as (_ & Ha & _); (split; [|done]); exists h, st; by rewrite Ha.
    + destruct Ha as (Ha & _ & _). unfold channel. rewrite Ha. lia.
Qed.

Lemma undisturbed_spec n s :
  undisturbed n s → Z.of_nat (length s.(app)) < u64_max →
  inv s ∧ live s ∧ (n + work s ≤ 2 * length s.(app) + 2)%nat.
Proof using U Hmode Hmax Hacc.
  induction 1 as [v He Hr|n s e s' _ IH Hc Hs]; intros Hlen.
  { split_and!; [by apply inv_start|done|done]. }
  assert (Z.of_nat (length s.(app)) < u64_max) as Hlen0.
  { rewrite (step_app _ _ _ _ _ _ _ _ _ _ Hs), length_app in Hlen. lia. }
  destruct (IH Hlen0) as (Hi & Hl & Hw).
  destruct (live_step s e s' Hi Hl Hc Hs Hlen) as (Hl' & Hw' & Happ).
  split_and!; [by eapply inv_step|done|]. destruct (own e); lia.
Qed.

Lemma quiescent_given s :
  inv s → live s → quiescent s → 1 ≤ c.(max_packet_size) → Z.of_nat (length s.(app)) < u64_max →
  backend_given s = s.(app).
Proof using U Hmode Hmax Hacc.
  intros Hi Hl Hq Hmp Hlen.
  assert (alive s.(client) ∧ is_Some s.(mine)) as [Ha [h Hm]].
  { unfold live in Hl. destruct (client s) eqn:Hc; try done.
    - specialize (Hq Open eq_refl). cbn in Hq. rewrite Hc, resolved_first in Hq. exfalso. revert Hq.
      destruct (inv_opening _ Hi Hc) as (_ & _ & _ & He).
      destruct download_understood as (r & Er & Hd). unfold exchange. rewrite Er.
      by destruct (handle_download (srv s) r Hd He) as (v' & ok & -> & _).
    - destruct Hl as [(h & st & Hm & _) _]. split; [by left|by eexists].
    - destruct Hl as [(h & st & Hm & _) _]. split; [by right|by eexists]. }
  destruct (live_mine s h Hi Hl Hm) as (_ & st & He & Hu).
  destruct (live_session s h st Hi Ha Hm He Hu) as ((_ & Hcm & _) & _ & _).
  assert (channel (srv s) h = []) as Hch.
  { specialize (Hq Receive eq_refl). cbn in Hq. rewrite Hm in Hq. cbn in Hq.
    rewrite (receive_live s h st) in Hq by done. by destruct (channel (srv s) h). }
  assert (s.(unread) = []) as Hun.
  { destruct Ha as [Hc|Hc]; [|unfold live in Hl; rewrite Hc in Hl; by apply Hl].
    destruct (unread s) as [|x l] eqn:Eu; [done|]. exfalso.
    specialize (Hq (SendPacket 1 Answered) eq_refl).
    rewrite (send_packet_live s h st) in Hq by (done || (rewrite Eu; cbn; lia) || lia).
    unfold send in Hq. cbn in Hq. rewrite Hch in Hq. cbn in Hq.
    rewrite (proj2 (Z.ltb_lt _ _)) in Hq by lia. done. }
  rewrite Hch, Hun, app_nil_r in Hcm. unfold backend_given. rewrite (inv_stream _ Hi), Hm. cbn.
  rewrite Hu, <- Hcm. unfold committed. cbn. by rewrite app_nil_r.
Qed.

End served.

End packets.
End PacketMode.

(** ** Stream-one *)

Module StreamMode.
Section streams.
Context `{HL : HttpLib} (c : TransportConfig) (method_from_bytes : str → option Method).
Context (pick : option Z → Z → Z → Z) (spare : nat) (base : Url * HeaderMap) (id : str).
Context (accepts : list bytes → bytes → bool).
Context (Hunderstood : ∃ r, stream_one_request c pick spare base = Ok r ∧ dispatch c r = StreamOneAction).
Context (Hmode : c.(mode) = StreamOne).

Abbreviation step := (step c method_from_bytes pick spare base id accepts).
Abbreviation run := (run c method_from_bytes pick spare base id accepts).
Abbreviation entry := (entry id).
Abbreviation calm := (calm c id).
Abbreviation undisturbed := (undisturbed c method_from_bytes pick spare base id accepts).
Abbreviation quiescent := (quiescent c method_from_bytes pick spare base id accepts).

(** The bytes go from the application through the duplex and the body to the backend. *)
Record inv (s : tunnel) : Prop := {
  inv_entry : entry s.(srv) = None ∧ s.(mine) = None;
  inv_opened : s.(client) ≠ Opened;
  inv_body :
    match s.(srv).(stream) with
    | None =>
      s.(wire) = [] ∧ (s.(client) = Opening ∧ s.(unread) = s.(app) ∧ s.(wire_open) = true ∨
                       ∃ e, s.(client) = Failed e)
    | Some (ToBackend w shut) =>
      s.(client) ≠ Opening ∧ concat w `prefix_of` s.(app) ∧
      (shut = false → concat w ++ s.(wire) `prefix_of` s.(app) ∧
         ((∀ e, s.(client) ≠ Failed e) → concat w ++ s.(wire) ++ s.(unread) = s.(app)))
    | Some (ToSession _ _) => False
    end;
}.

Lemma inv_with_entry s v :
  inv s → entry v = None → v.(stream) = s.(srv).(stream) → inv (with_srv s v).
Proof. intros [[_ Hm] Ho Hb] He Hs. split; cbn; [done|done|]. by rewrite Hs. Qed.

Lemma first_one :
  first_request c pick spare base id = (stream_one_request c pick spare base, Uploading).
Proof using Hmode. unfold first_request. by rewrite Hmode. Qed.

Lemma one_inv_step s e s' : inv s → step s e = Some s' → inv s'.
Proof using Hunderstood Hmode.
  intros Hi Hs. pose proof Hi as [[He Hm] Ho Hb]. destruct e; cbn in Hs; try (rewrite Hm in Hs; done).
  - destruct (_ && _); [|done]. injection Hs as <-. split; cbn; [done|done|].
    destruct (stream (srv s)) as [[w shut|]|]; [|done|].
    + destruct Hb as (Hc & Hp & Hb). split_and!; [done|by apply prefix_app_r|]. intros Hf.
      destruct (Hb Hf) as [Hp' Ha]. split; [by apply prefix_app_r|]. intros Hcl.
      by rewrite <- (Ha Hcl), <- !app_assoc.
    + destruct Hb as [? [(? & -> & ?)|?]]; split; auto.
  - injection Hs as <-. by split.
  - case_decide as Hc; [|done]. rewrite first_one in Hs. destruct Hunderstood as (r & Hr & Hd).
    unfold exchange, handle in Hs. rewrite Hr, Hd in Hs. cbn in Hs. injection Hs as <-.
    unfold entry in He. split; cbn; [by rewrite He|done|].
    destruct (stream (srv s)) as [[w shut|]|]; [by destruct Hb|done|].
    destruct Hb as [-> [(_ & Hu & _)|[e He']]]; [|congruence]. rewrite Hu.
    split_and!; [done|apply prefix_nil|]. intros _. split; [apply prefix_nil|done].
  - case_decide; [|done]. by destruct Ho.
  - rewrite Hmode in Hs. by rewrite andb_false_r in Hs.
  - destruct (reads s n) eqn:Hr; [|done]. rewrite Hmode in Hs. cbn in Hs. injection Hs as <-.
    unfold reads in Hr. bool_to_prop. assert (client s = Uploading) as Hcl by done.
    split; cbn; [done|by rewrite Hcl|]. destruct (stream (srv s)) as [[w shut|]|]; [|done|].
    + destruct Hb as (Hc & Hp & Hb). split_and!; [done|done|]. intros Hf. destruct (Hb Hf) as [_ Ha].
      assert (concat w ++ s.(wire) ++ s.(unread) = s.(app)) as Hall by (apply Ha; by rewrite Hcl).
      split; [|intros _; by rewrite <- app_assoc, take_drop].
      exists (drop n (unread s)). by rewrite <- !app_assoc, take_drop, Hall.
    + destruct Hb as [_ [(? & _)|[e ?]]]; congruence.
  - destruct (_ && _) eqn:E; [|done]. injection Hs as <-. apply andb_true_iff in E as [E _].
    apply andb_true_iff in E as [Hcl Hun]. apply bool_decide_eq_true in Hcl, Hun.
    split; cbn; [done|done|]. destruct (stream (srv s)) as [[w shut|]|]; [|done|].
    + destruct Hb as (Hc & Hp & Hb). split_and!; [done|done|]. intros Hf. destruct (Hb Hf) as [Hp' Ha].
      split; [done|]. intros _. rewrite Hun in Ha. apply Ha. by rewrite Hcl.
    + destruct Hb as [_ [(? & _)|[e ?]]]; congruence.
  - destruct (_ && _) eqn:E; [|done]. apply andb_true_iff in E as [_ Hn]. apply Nat.leb_le in Hn.
    unfold body_chunk in Hs. destruct (stream (srv s)) as [[w [|]|]|] eqn:Est; try done. cbn in Hs.
    injection Hs as <-. destruct Hb as (Hc & Hp & Hb). destruct (Hb eq_refl) as [Hp' Ha].
    split; cbn; [done|done|]. destruct (accepts w _); [|done]. split_and!; [done| |].
    + rewrite concat_app. cbn. rewrite app_nil_r. etrans; [|exact Hp'].
      exists (drop n (wire s)). by rewrite <- app_assoc, take_drop.
    + intros _. rewrite concat_app. cbn. rewrite app_nil_r, <- !app_assoc, (app_assoc (take _ _)), take_drop.
      done.
  - destruct (_ && _) eqn:E; [|done]. unfold body_end in Hs.
    destruct (stream (srv s)) as [[w [|]|]|] eqn:Est; try done. cbn in Hs.
    injection Hs as <-. destruct Hb as (Hc & Hp & Hb). split; cbn; [done|done|]. by split_and!.
  - rewrite Hmode in Hs. cbn in Hs. injection Hs as <-. split; cbn; [done|done|].
    destruct (stream (srv s)) as [[w shut|]|]; [|done|].
    + destruct Hb as (Hc & Hp & Hb). split_and!; [done|done|]. intros _. rewrite app_nil_r. split; [done|].
      intros Hf. by destruct (Hf "body").
    + destruct Hb as [Hw Hb]. split; [done|]. right. by eexists.
  - case_decide as Ha; [|done]. injection Hs as <-. destruct Ha as (Hen & Hst & _).
    apply inv_with_entry; [done| |done]. unfold entry in *. by destruct Hen as [->| ->].
Qed.

Lemma one_inv_start v : entry v = None → inv (start v).
Proof. intros He. split; cbn; try done. split; [done|]. by left. Qed.

Lemma one_inv_run s es s' : inv s → run s es = Some s' → inv s'.
Proof using Hunderstood Hmode.
  revert s. induction es as [|e es IH]; intros s Hi; cbn; [by intros [= <-]|].
  destruct (step s e) as [s1|] eqn:E; [|done]. apply IH. by eapply one_inv_step.
Qed.

Lemma one_inv_given s : inv s → backend_given s `prefix_of` s.(app).
Proof.
  intros [[_ Hm] _ Hb]. unfold backend_given. rewrite Hm.
  destruct (stream (srv s)) as [[w shut|]|]; [by destruct Hb as (_ & ? & _)|done|apply prefix_nil].
Qed.

(** Without faults: the body is open until the application shut its side down. *)
Definition live (s : tunnel) : Prop :=
  match s.(client) with
  | Opening => s.(srv).(stream) = None ∧ s.(wire_open) = true
  | Uploading => s.(wire_open) = true ∧ ∃ w, s.(srv).(stream) = Some (ToBackend w false)
  | Ended =>
    s.(wire_open) = false ∧ s.(app_open) = false ∧ s.(unread) = [] ∧
    ∃ w shut, s.(srv).(stream) = Some (ToBackend w shut) ∧
      (shut = true → s.(wire) = [] ∧ concat w = s.(app))
  | _ => False
  end.

Definition work (s : tunnel) : nat :=
  match s.(client) with Opening => 3 | Uploading => 2 | _ => 0 end + 2 * length s.(unread) +
  length s.(wire) +
  match s.(srv).(stream), s.(client) with Some (ToBackend _ false), Ended => 1 | _, _ => 0 end.

Definition progress (s : tunnel) (e : event) (s' : tunnel) : Prop :=
  live s' ∧ (work s' + (if own e then 1 else 0) ≤ work s + 2 * grown e)%nat ∧
  length s'.(app) = (length s.(app) + grown e)%nat.

Section served.
Context (Hacc : ∀ w b, accepts w b = true).

Lemma one_live_step s e s' : inv s → live s → calm s e → step s e = Some s' → progress s e s'.
Proof using Hunderstood Hmode Hacc.
  intros Hi Hl Hc Hs. pose proof Hi as [[He Hm] Ho Hb]. destruct e; cbn in Hs; try (rewrite Hm in Hs; done);
    try done.
  - destruct (app_open s) eqn:Ea; [|done]. destruct (_ <=? _); [|done]. injection Hs as <-.
    unfold progress, live, work in *. cbn in *. rewrite !length_app. split; [|lia].
    destruct (client s); try done. destruct Hl as (_ & ? & _); congruence.
  - injection Hs as <-. unfold progress, live, work in *. cbn in *. split; [|lia].
    destruct (client s); try done. by destruct Hl as (? & _ & ?).
  - case_decide as Hcl; [|done]. rewrite first_one in Hs. destruct Hunderstood as (r & Hr & Hd).
    unfold exchange, handle in Hs. rewrite Hr, Hd in Hs. cbn in Hs. injection Hs as <-.
    unfold progress, live, work in *. cbn. rewrite Hcl in *. destruct Hl as [-> ?].
    split; [split; [done|by eexists]|lia].
  - case_decide; [|done]. by destruct Ho.
  - rewrite Hmode in Hs. by rewrite andb_false_r in Hs.
  - destruct (reads s n) eqn:Hr; [|done]. rewrite Hmode in Hs. cbn in Hs. injection Hs as <-.
    unfold reads in Hr. bool_to_prop. assert (client s = Uploading) as Hcl by done.
    unfold progress, live, work in *. cbn. rewrite Hcl in *. split; [done|].
    rewrite length_app, length_take, length_drop. destruct Hl as [_ [w ->]]. lia.
  - destruct (_ && _) eqn:E; [|done]. injection Hs as <-. apply andb_true_iff in E as [E Ha].
    apply andb_true_iff in E as [Hcl Hun]. apply bool_decide_eq_true in Hcl, Hun.
    unfold progress, live, work in *. cbn. rewrite Hcl, Hun in *. destruct Hl as [_ [w ->]]. cbn.
    split; [|lia]. split_and!; try done. by eexists _, _.
  - destruct n as [|n]; [done|]. destruct (_ && _) eqn:E; [|done]. apply andb_true_iff in E as [_ Hn].
    apply Nat.leb_le in Hn. unfold body_chunk in Hs.
    destruct (stream (srv s)) as [[w [|]|]|] eqn:Est; try done. rewrite Hacc in Hs. cbn in Hs.
    injection Hs as <-. unfold progress, live, work in *. cbn. rewrite Est in *. rewrite length_drop.
    split; [|destruct (client s); lia]. destruct (client s); try done; [by destruct Hl|..].
    + destruct Hl as [? _]. split; [done|by eexists].
    + destruct Hl as (? & ? & ? & _). split_and!; try done. by eexists _, _.
  - destruct (bool_decide _) eqn:Ew; [|done]. apply bool_decide_eq_true in Ew.
    destruct (wire_open s) eqn:Eo; [done|]. cbn in Hs. unfold body_end in Hs.
    destruct (stream (srv s)) as [[w [|]|]|] eqn:Est; try done. cbn in Hs.
    injection Hs as <-. unfold progress, live, work in *. cbn. rewrite Est in *.
    destruct (client s); try done; [by destruct Hl|destruct Hl; congruence|].
    split; [|lia]. destruct Hl as (? & ? & Hun & _). split_and!; try done. eexists _, _. split; [done|].
    intros _. split; [done|]. destruct Hb as (_ & _ & Hb). destruct (Hb eq_refl) as [_ Hall].
    rewrite <- Hall by done. by rewrite Ew, Hun, app_nil_r.
  - case_decide as Ha; [|done]. injection Hs as <-. destruct Ha as (_ & Hst & _).
    unfold progress, live, work in *. cbn. rewrite Hst. split; [done|lia].
Qed.

Lemma one_undisturbed_spec n s :
  undisturbed n s → inv s ∧ live s ∧ (n + work s ≤ 2 * length s.(app) + 3)%nat.
Proof using Hunderstood Hmode Hacc.
  induction 1 as [v He Hr|n s e s' _ (Hi & Hl & Hw) Hc Hs].
  { split_and!; [by apply one_inv_start|done|done]. }
  destruct (one_live_step s e s' Hi Hl Hc Hs) as (Hl' & Hw' & Happ).
  split_and!; [by eapply one_inv_step|done|]. destruct (own e); lia.
Qed.

Lemma one_quiescent_given s :
  inv s → live s → quiescent s →
  backend_given s = s.(app) ∧
  (s.(app_open) = false → ∃ w, s.(srv).(stream) = Some (ToBackend w true)).
Proof using Hunderstood Hmode.
  intros Hi Hl Hq. pose proof Hi as [[He Hm] Ho Hb].
  assert (∀ w, stream (srv s) = Some (ToBackend w false) → s.(wire) = []) as Hwire.
  { intros w Hw. destruct (wire s) as [|x l] eqn:E; [done|]. specialize (Hq (BodyChunk 1) eq_refl).
    cbn in Hq. rewrite E in Hq. cbn in Hq. unfold body_chunk in Hq. by rewrite Hw in Hq. }
  unfold live, backend_given in *. destruct (client s) eqn:Hc; try done.
  - specialize (Hq Open eq_refl). cbn in Hq. rewrite Hc, first_one in Hq. exfalso. revert Hq.
    destruct Hunderstood as (r & Hr & Hd). unfold exchange, handle. by rewrite Hr, Hd.
  - destruct Hl as [_ [w Hw]]. rewrite Hw in *. destruct Hb as (_ & _ & Hb).
    destruct (Hb eq_refl) as [_ Hall]. rewrite <- Hall by done. rewrite (Hwire w) by done.
    assert (s.(unread) = []) as Hun.
    { destruct (unread s) as [|x l] eqn:E; [done|]. specialize (Hq (SendBody 1) eq_refl).
      cbn in Hq. unfold reads in Hq. by rewrite Hc, E, Hmode in Hq. }
    rewrite Hun, !app_nil_r. split; [done|]. intros Ha. specialize (Hq ReadEnd eq_refl). cbn in Hq.
    by rewrite Hc, Ha, Hun in Hq.
  - destruct Hl as (Hwo & _ & Hun & w & shut & Hw & Hshut). rewrite Hw.
    destruct shut; [by split; [apply Hshut|by eexists]|]. exfalso.
    specialize (Hq BodyEnd eq_refl). cbn in Hq. unfold body_end in Hq.
    by rewrite (Hwire w Hw), Hwo, Hw in Hq.
Qed.

End served.


End streams.
End StreamMode.

(** ** A client with the default layout *)

Section encoding.
Context `{HL : HttpLib} {laws : HttpLaws HL}.

(** What the configuration and the environment of a client need for its requests to be
    understood: the default layout with the payload in the body, a server URL without a
    path, random numbers in their range, an id the server accepts. *)
Record plain_client (c : TransportConfig) (method_from_bytes : str → option Method)
    (pick : option Z → Z → Z → Z) (server : str) (base : Url * HeaderMap) (id : str) : Prop := {
  plain_layout : default_layout c;
  plain_body : c.(data_placement) = Body;
  plain_root : c.(path) ≠ [c_slash];
  plain_headers : Forall (λ nv, is_Some (header_name nv.1) ∧ is_Some (header_value nv.2)) c.(headers);
  plain_server : ∃ u, url_parse server = Some u ∧ url_path u = lit "/" ∧ query_pairs u = [];
  plain_base : build_request_base server c = Ok base;
  plain_pick : ∀ k a b, a ≤ b → a ≤ pick k a b ≤ b;
  plain_id : token_str id ∧ Z.of_nat (length id) ≤ c.(max_session_id_length);
  plain_method : ∃ m, method_from_bytes c.(Http.uplink_method) = Some m ∧ m ≠ OPTIONS;
}.

Context (c : TransportConfig) (method_from_bytes : str → option Method).
Context (pick : option Z → Z → Z → Z) (spare : nat) (server : str) (base : Url * HeaderMap) (id : str).
Context (P : plain_client c method_from_bytes pick server base id).

Lemma session_request sequence :
  (∀ n, sequence = Some n → u64 n) →
  ∃ u h, request (pick sequence) spare base c (Some id) sequence = Ok (u, h) ∧
    ∀ m b, m ≠ OPTIONS →
      dispatch c (Server.mkRequest m (uri_of_url u) h b) =
      match sequence, m with
      | Some n, _ => if allows c.(mode) PacketUp then PacketAction id n else MethodNotAllowed
      | None, GET => DownloadAction id
      | None, _ => if allows c.(mode) StreamUp then StreamUpAction id else MethodNotAllowed
      end.
Proof using laws P.
  intros Hs. destruct P as [Hl _ Hr Hh (u0 & Hu & Hp & Hq) Hb Hpick [Hid _] _].
  destruct (request_dispatched (pick sequence) spare c server u0 id sequence Hl Hr Hh Hu Hp Hq
    (Hpick sequence) Hid Hs) as (base' & u & h & Hb' & Hreq & Hd).
  rewrite Hb in Hb'. injection Hb' as <-. by exists u, h.
Qed.

Lemma allows_packet : resolved c.(mode) = PacketUp → allows c.(mode) PacketUp = true.
Proof. unfold allows. by destruct (mode c). Qed.

#[local] Instance plain_understood :
  resolved c.(mode) = PacketUp → Understood c method_from_bytes pick spare base id.
Proof using laws P.
  intros Hm. split.
  - destruct (session_request None) as (u & h & Hr & Hd); [done|]. eexists.
    unfold download_request. rewrite Hr. split; [done|]. by apply Hd.
  - intros n payload Hn Hlen. destruct (session_request (Some n)) as (u & h & Hr & Hd); [by intros ? [= <-]|].
    destruct (plain_method _ _ _ _ _ _ P) as (m & Hmb & Hmo). eexists. unfold packet_request.
    rewrite Hr. cbn [mbind result_bind]. unfold put_payload, uplink_method. rewrite (plain_body _ _ _ _ _ _ P), Hmb.
    split; [done|]. rewrite Hd by done. rewrite allows_packet by done. split_and!; [done|done|].
    unfold extract_payload_bytes. by rewrite (plain_body _ _ _ _ _ _ P).
  - by apply (plain_id _ _ _ _ _ _ P).
Qed.

(** The path of the tunnel itself, with the slashes after it. *)
Lemma valid_path_bare p :
  plain_path c.(path) → c.(path) ≠ [c_slash] → path_carries c.(path) [] p → valid_path c.(path) p = true.
Proof.
  intros (_ & _ & [?|Hb]) Hne (_ & _ & Hp); [done|]. rewrite Hb in Hp.
  destruct (trim_end_spec (Z.eqb c_slash) p) as (q & Hq & Hs). rewrite Hp in Hq. unfold valid_path.
  destruct q as [|x q]; [rewrite Hq, app_nil_r; by rewrite (proj2 (str_eqb_eq _ _))|].
  apply Forall_cons in Hs as [Hx _]. apply Z.eqb_eq in Hx as <-.
  rewrite (proj2 (strip_prefix_Some (path c) p (c_slash :: q))) by done. by rewrite orb_true_r.
Qed.

Lemma content_type_apart s n :
  header_name (lit "content-type") = Some n → to_ascii_lowercase s ≠ lit "content-type" →
  header_name s ≠ Some n.
Proof using laws.
  intros Hn Hs Hs'. apply Hs. by apply (header_name_case _ _ _ Hs' Hn).
Qed.

Lemma stream_one_understood :
  c.(mode) = StreamOne →
  ∃ r, stream_one_request c pick spare base = Ok r ∧ dispatch c r = StreamOneAction.
Proof using laws P.
  intros Hmode. destruct P as [Hl _ Hroot Hhs (u0 & Hu & Hpa & Hq) Hb Hpick _ _].
  destruct (build_request_base_spec c server u0 Hl Hhs Hu Hpa Hq) as (u & h & Eb & Hc & Hqp & Ha).
  rewrite Hb in Eb. injection Eb as ->.
  pose proof Hl as (Hs & Hsq & Hobfs & Hquery & Hhost & Hk1 & Hk2 & Hm & Hr & Hp & _).
  assert (padding_spot c = (QueryInHeader, PADDING_QUERY_KEY, lit "Referer")) as Hspot
    by (unfold padding_spot; by rewrite Hobfs).
  destruct (apply_padding_valid (pick None) spare c u h Hr Hm (Hpick None)) as (u1 & h1 & E1 & Hv1).
  { unfold padding_free. rewrite Hspot, Hqp. split_and!; try done; by apply (bool_decide_unpack _). }
  assert (u1 = u ∧ ∃ v, h1 = try_insert h (lit "Referer") v) as [-> [v ->]].
  { unfold apply_padding, padding_value in E1. rewrite Hm, Hspot in E1. cbn [negb mbind result_bind] in E1.
    injection E1 as <- <-. by eauto. }
  unfold stream_one_request, request. cbn [fst snd]. rewrite E1. cbn [mbind result_bind apply_metadata].
  assert (∃ h2, grpc_header c (try_insert h (lit "Referer") v) = Ok h2 ∧ authorized c h2 = true ∧
    header_get h2 (lit "Referer") = header_get (try_insert h (lit "Referer") v) (lit "Referer"))
    as (h2 & -> & Ha2 & Hg2).
  { pose proof (authorized_try_insert c h v Ha) as Ha1. unfold grpc_header.
    destruct (no_grpc_header c); [by eexists|].
    destruct (header_name_token (lit "content-type")) as [n Hn]; [by apply (bool_decide_unpack _)|].
    destruct (header_value_visible (lit "application/grpc")) as (x & Hx & _); [by apply (bool_decide_unpack _)|].
    rewrite Hn, Hx. cbn [context mbind result_bind]. eexists. split; [done|]. split.
    - unfold authorized in *. rewrite get_all_insert, decide_False; [done|]. intros <-.
      apply (content_type_apart (lit "authorization") _ Hn); [|apply header_name_authorization].
      by apply (bool_decide_unpack _).
    - apply header_get_insert_ne, (content_type_apart _ _ Hn). by apply (bool_decide_unpack _). }
  eexists. split; [done|]. unfold dispatch, acceptable. cbn [uri req_headers method].
  rewrite (valid_path_bare _ Hp Hroot Hc : valid_path _ (uri_path (uri_of_url u)) = true).
  rewrite Hquery, Hhost, Ha2. cbn [valid_query andb].
  unfold valid_padding in Hv1 |- *. rewrite Hspot in Hv1 |- *. rewrite Hg2, Hv1. cbn [negb].
  assert (metadata_layout c) as Hml.
  { unfold metadata_layout, key_ok. rewrite Hs, Hsq. split_and!; try done. by right; left. }
  rewrite (extract_metadata_at c u _ _ Hml Hc), Hs, Hsq. cbn zeta. rewrite !decide_True by done.
  cbn [head tail mbind option_bind]. unfold allows. by rewrite Hmode.
Qed.

End encoding.

(** ** The way back *)

(** The loop of [download] and of [stream_response]: what was read from the backend
    becomes the body of the response.  [taken] is how many chunks the client's side takes
    before it goes away. *)
Fixpoint relay_reads (taken : nat) (rs : list (result bytes)) : list (result bytes) :=
  match rs with
  | [] | Ok [] :: _ => []
  | Ok b :: rs => match taken with O => [] | S taken => Ok b :: relay_reads taken rs end
  | e :: _ => match taken with O => [] | S _ => [e] end
  end.

(** What is written to the application, and how it ends. *)
Fixpoint copy_response (chunks : list (result bytes)) : writer unit :=
  match chunks with
  | [] => mret tt
  | chunk :: chunks =>
    b ← wlift chunk;
    _ ← write_all b;
    copy_response chunks
  end.

Lemma copy_response_app bs rest :
  copy_response ((Ok <$> bs) ++ rest) = (concat bs ++ (copy_response rest).1, (copy_response rest).2).
Proof.
  induction bs as [|b bs IH]; cbn; [by destruct (copy_response rest)|]. rewrite IH. cbn.
  by rewrite <- app_assoc.
Qed.

Lemma relay_reads_app taken bs rest :
  Forall (λ b, b ≠ []) bs →
  relay_reads (length bs + taken) ((Ok <$> bs) ++ rest) = (Ok <$> bs) ++ relay_reads taken rest.
Proof.
  induction 1 as [|b bs Hb _ IH]; [done|]. cbn. destruct b; [done|]. by rewrite IH.
Qed.

(** The application gets the backend's bytes, and a failed read is not taken for their end. *)
Lemma download_whole taken bs e :
  Forall (λ b, b ≠ []) bs →
  copy_response (relay_reads (length bs + S taken) ((Ok <$> bs) ++ [Ok []])) = (concat bs, Ok tt) ∧
  copy_response (relay_reads (length bs + S taken) ((Ok <$> bs) ++ [Err e])) = (concat bs, Err e).
Proof.
  intros Hb. split; by rewrite relay_reads_app, copy_response_app by done; cbn; rewrite app_nil_r.
Qed.

(** ** The backend *)

(** What [backend] does with the stream of a tunnel. *)
Inductive backend_task :=
  | FixedRelay (target : str) (sent : bytes)
  | VlessRelay (r : Vless.Request) (answer rest : bytes)
  | BackendClosed.

(** [reachable] is whether the connection to the target comes up within ten seconds. *)
Definition backend `{UuidLib} (reachable : str → bool) (users : list str) (target : str) (b : bytes)
    : backend_task :=
  match users with
  | [] => if reachable target then FixedRelay target b else BackendClosed
  | _ =>
    match Vless.serve users b with
    | Ok (r, answer, rest) => VlessRelay r answer rest
    | _ => BackendClosed
    end
  end.

(** ** The tunnel as a whole *)

Section tunnels.
Context `{HL : HttpLib} {laws : HttpLaws HL}.
Context (c : TransportConfig) (method_from_bytes : str → option Method).
Context (pick : option Z → Z → Z → Z) (spare : nat) (server : str) (base : Url * HeaderMap) (id : str).
Context (accepts : list bytes → bytes → bool).

Definition modes_covered : Prop :=
  resolved c.(mode) = PacketUp ∧ 1 ≤ c.(max_buffered_packets) ∧ 1 ≤ c.(max_packet_size)
  ∨ c.(mode) = StreamOne.

Lemma undisturbed_given n s :
  plain_client c method_from_bytes pick server base id → modes_covered → (∀ w b, accepts w b = true) →
  undisturbed c method_from_bytes pick spare base id accepts n s → Z.of_nat (length s.(app)) < u64_max →
  (n ≤ 2 * length s.(app) + 3)%nat ∧
  (quiescent c method_from_bytes pick spare base id accepts s → backend_given s = s.(app)).
Proof using laws.
  intros P [(Hm & Hmax & Hmp)|Hm] Hacc Hu Hlen.
  - pose proof (plain_understood c method_from_bytes pick spare server base id P Hm) as U.
    destruct (PacketMode.undisturbed_spec c method_from_bytes pick spare base id accepts Hm Hmax Hacc n s Hu Hlen)
      as (Hi & Hl & Hw). split; [lia|]. intros Hq.
    by apply (PacketMode.quiescent_given c method_from_bytes pick spare base id accepts Hm Hmax Hacc s).
  - pose proof (stream_one_understood c method_from_bytes pick spare server base id P Hm) as U.
    destruct (StreamMode.one_undisturbed_spec c method_from_bytes pick spare base id accepts U Hm Hacc n s Hu)
      as (Hi & Hl & Hw). split; [lia|]. intros Hq.
    by apply (StreamMode.one_quiescent_given c method_from_bytes pick spare base id accepts U Hm s).
Qed.

(** C4: The backend never sees anything but the application's bytes: in packet-up and in
    stream-one, whatever the sizes of reads, the interleaving of the client, the server's
    tasks and other clients, and whichever request, connection, backend or session fails,
    what was written to the backend is a prefix of what the application wrote.  The client
    is a [plain_client]. *)
Theorem tunnel_in_order v es s :
  plain_client c method_from_bytes pick server base id → modes_covered → entry id v = None →
  run c method_from_bytes pick spare base id accepts (start v) es = Some s →
  backend_given s `prefix_of` s.(app).
Proof using laws.
  intros P [(Hm & Hmax & _)|Hm] He Hr.
  - pose proof (plain_understood c method_from_bytes pick spare server base id P Hm) as U.
    apply (PacketMode.inv_given id), (PacketMode.inv_run c method_from_bytes pick spare base id accepts Hm Hmax _ es _
      (PacketMode.inv_start id v He) Hr).
  - pose proof (stream_one_understood c method_from_bytes pick spare server base id P Hm) as U.
    apply (StreamMode.one_inv_given id), (StreamMode.one_inv_run c method_from_bytes pick spare base id accepts U Hm _ es _
      (StreamMode.one_inv_start id v He) Hr).
Qed.

(** C5: Without faults everything arrives: the client's and the server's tasks of a tunnel
    take at most two steps per byte and three more, and when none of them can go on the
    backend was given all the application wrote.  The client is a [plain_client] (the
    default layout, data in the body, a path other than "/", where every request is
    answered with 404), the mode packet-up, auto or stream-one ([modes_covered]; not
    stream-up), and the backend accepts every write. *)
Theorem tunnel_delivers n s :
  plain_client c method_from_bytes pick server base id → modes_covered → (∀ w b, accepts w b = true) →
  undisturbed c method_from_bytes pick spare base id accepts n s → Z.of_nat (length s.(app)) < u64_max →
  (n ≤ 2 * length s.(app) + 3)%nat ∧
  (quiescent c method_from_bytes pick spare base id accepts s → backend_given s = s.(app)).
Proof using laws. apply undisturbed_given. Qed.

(** A VLESS connection through an XHTTP tunnel: when an application has written the
    request of a configured user and then its data, and the tunnel has come to rest, the
    server relays to the destination of the request, answers with the response header and
    has the data, and nothing else, for the destination. *)
Theorem tunnel_carries_request `{UL : UuidLib} {ulaws : UuidLaws UL} reachable users target user uid k d data n s :
  plain_client c method_from_bytes pick server base id → modes_covered → (∀ w b, accepts w b = true) →
  undisturbed c method_from_bytes pick spare base id accepts n s → Z.of_nat (length s.(app)) < u64_max →
  quiescent c method_from_bytes pick spare base id accepts s →
  user ∈ users → uuid_parse user = Some uid → encodable d → k ≠ Xudp →
  s.(app) = (write_request_with_command user k d).1 ++ data →
  backend reachable users target (backend_given s) = VlessRelay (Vless.mkRequest k d) [0; 0] data.
Proof using laws.
  intros P Hm Hacc Hu Hlen Hq Hin Hid Hd Hk Happ.
  destruct (undisturbed_given n s P Hm Hacc Hu Hlen) as [_ Hg]. rewrite (Hg Hq), Happ.
  destruct (serve_request_bytes users user uid k d data Hin Hid Hd) as [_ Hs].
  unfold backend. destruct users; [by apply not_elem_of_nil in Hin|]. rewrite Hs.
  by rewrite bool_decide_false by done.
Qed.

End tunnels.

(** ** A tunnel at work *)

Module Samples.
#[local] Existing Instance Plain.lib.
#[local] Existing Instance Plain.laws.
#[local] Existing Instance UuidExample.lib.
#[local] Existing Instance UuidExample.laws.

Definition sample_id : str := lit "0123456789abcdef0123456789abcdef".
Definition sample_server : str := Plain.code (lit "/", @nil (str * str)).
Definition methods (s : str) : option Method := if str_eqb s (lit "POST") then Some POST else Some (OtherMethod s).

(** The default configuration in another mode. *)
Definition in_mode (m : Mode) : TransportConfig :=
  let d := default_transport in
  mkTransport d.(path) d.(query) d.(Http.host) m d.(headers) d.(token) Path d.(session_key)
    Path d.(sequence_key) d.(data_placement) d.(data_key) d.(padding_min) d.(padding_max)
    d.(padding_obfs) d.(padding_placement) d.(padding_key) d.(padding_header) d.(padding_method)
    d.(Http.uplink_method) d.(no_grpc_header) d.(no_sse_header) d.(max_packet_size)
    d.(max_buffered_packets) d.(packet_interval_ms) d.(session_timeout_secs) d.(max_sessions)
    d.(max_session_id_length) d.(xmux).

Definition sample_base (m : Mode) : Url * HeaderMap :=
  match build_request_base sample_server (in_mode m) with
  | Ok b => b
  | _ => ((lit "/", []), headers_new)
  end.

Definition empty_server : server := mkServer Sessions.init ∅ ∅ None.

Abbreviation sample_run m :=
  (run (in_mode m) methods (λ _ a _, a) 0 (sample_base m) sample_id (λ _ _, true)).
Abbreviation sample_step m :=
  (step (in_mode m) methods (λ _ a _, a) 0 (sample_base m) sample_id (λ _ _, true)).

Lemma sample_plain m : plain_client (in_mode m) methods (λ _ a _, a) sample_server (sample_base m) sample_id.
Proof.
  split; try done.
  - unfold default_layout. split_and!; try done; try (by apply (bool_decide_unpack _)); by right.
  - exists (lit "/", []). split_and!; [apply Plain.uncode_code|done|done].
  - split; by apply (bool_decide_unpack _).
  - by exists POST.
Qed.

(** What can be seen of a tunnel: the client's phase, the bytes the backend has, whether it
    was told that no more will come, and whether the upload task or the end of the channel
    can still change that. *)
Definition observe (m : Mode) (s : tunnel) : phase * bytes * bool * bool :=
  (s.(client), backend_given s,
   match s.(srv).(stream), h ← s.(mine); s.(srv).(uploads) !! h with
   | Some (ToBackend _ shut), _ => shut
   | _, Some (_, Shut _) => true
   | _, _ => false
   end,
   bool_decide (is_Some (sample_step m s Receive)) || bool_decide (is_Some (sample_step m s CloseUpload))).

(** The end of the upload reaches the backend in stream-one, but not in packet-up or
    stream-up: there the session in the table keeps a sender of the channel, so that the
    upload task waits on although the client has read and sent everything. *)
Example upload_end_lost :
  observe StreamOne <$> sample_run StreamOne (start empty_server)
      [Write [1; 2; 3]; Open; SendBody 3; Shutdown; ReadEnd; BodyChunk 3; BodyEnd]
  = Some (Ended, [1; 2; 3], true, false) ∧
  observe ModeAuto <$> sample_run ModeAuto (start empty_server)
      [Write [1; 2; 3]; Open; SendPacket 3 Answered; Shutdown; ReadEnd; Receive]
  = Some (Ended, [1; 2; 3], false, false) ∧
  observe StreamUp <$> sample_run StreamUp (start empty_server)
      [Write [1; 2; 3]; Open; OpenUpload; SendBody 3; BodyChunk 2; BodyChunk 1; Shutdown; ReadEnd; BodyEnd;
       Receive; Receive]
  = Some (Ended, [1; 2; 3], false, false).
Proof. split_and!; vm_compute; reflexivity. Qed.

(** Packets of a session that has ended are answered with success: the server opens a new
    session for their id, which no download will ever read. *)
Example packets_after_end_swallowed :
  (λ s, (observe ModeAuto s, s.(unread), Reorder.payload <$> channel s.(srv) 1)) <$>
    sample_run ModeAuto (start empty_server)
      [Write [1; 2; 3; 4]; Open; SendPacket 2 Answered; Receive; DownloadEnd; CloseUpload;
       SendPacket 1 Answered; SendPacket 1 Answered]
  = Some (Uploading, [1; 2], true, false, [], [[3]; [4]]).
Proof. vm_compute. reflexivity. Qed.

Lemma in_mode_covered m : m ≠ StreamUp → modes_covered (in_mode m).
Proof. intros Hm. destruct m; try done; [left|right|left]; cbn; (done || (split; [done|lia])). Qed.

(** Events without a fault and without other clients. *)
Definition faultless (e : event) : bool :=
  match e with
  | SendPacket _ Answered => true
  | SendPacket _ _ | DownloadEnd | BodyBroken | Others _ => false
  | _ => true
  end.

Lemma undisturbed_run m n s es s' :
  undisturbed (in_mode m) methods (λ _ a _, a) 0 (sample_base m) sample_id (λ _ _, true) n s →
  forallb faultless es = true → sample_run m s es = Some s' →
  ∃ n, undisturbed (in_mode m) methods (λ _ a _, a) 0 (sample_base m) sample_id (λ _ _, true) n s'.
Proof.
  revert n s. induction es as [|e es IH]; intros n s Hu Hf; cbn [run]; [by intros [= <-]; eauto|].
  apply andb_true_iff in Hf as [He Hf]. destruct (sample_step m s e) as [s1|] eqn:Es; [|done].
  apply (IH (if own e then S n else n)); [|done]. eapply undisturbed_step; [done| |done].
  by destruct e as [| | | |? []| | | | | | | | |].
Qed.

(** Three bytes in two packets, and a session that broke off. *)
Definition lossy : list event :=
  [Write [1; 2; 3]; Open; SendPacket 1 Answered; SendPacket 1 AnswerLost; Receive].

Lemma lossy_given : observe ModeAuto <$> sample_run ModeAuto (start empty_server) lossy
  = Some (Failed "request", [1], false, true).
Proof. vm_compute. reflexivity. Qed.

Lemma tunnel_in_order_witness :
  ∃ s, sample_run ModeAuto (start empty_server) lossy = Some s ∧ backend_given s `prefix_of` s.(app).
Proof.
  destruct (sample_run ModeAuto (start empty_server) lossy) as [s|] eqn:E.
  - exists s. split; [reflexivity|].
    exact (tunnel_in_order (in_mode ModeAuto) methods (λ _ a _, a) 0 sample_server (sample_base ModeAuto)
      sample_id (λ _ _, true) empty_server lossy s (sample_plain ModeAuto)
      (in_mode_covered ModeAuto ltac:(discriminate)) eq_refl E).
  - pose proof lossy_given as Hb. rewrite E in Hb. discriminate Hb.
Defined.

(** Two packets, and then the tunnel rests. *)
Definition whole (b : bytes) : list event :=
  [Write b; Open; SendPacket 20 Answered; SendPacket (length b - 20) Answered; Receive; Receive].

Definition sample_stream : bytes :=
  (write_request_with_command UuidExample.user Tcp UuidExample.dest).1 ++ [7; 8].

(** What decides whether a step is possible. *)
Definition resting (s : tunnel) : bool :=
  bool_decide (s.(client) = Uploading) && bool_decide (s.(unread) = []) && s.(app_open)
  && bool_decide (s.(wire) = []) && s.(wire_open)
  && bool_decide (match s.(mine) with Some h => channel s.(srv) h | None => [] end = []).

Lemma resting_quiescent m s :
  resting s = true → quiescent (in_mode m) methods (λ _ a _, a) 0 (sample_base m) sample_id (λ _ _, true) s.
Proof.
  unfold resting. intros Hr. apply andb_true_iff in Hr as [Hr Hch%bool_decide_eq_true].
  apply andb_true_iff in Hr as [Hr Hwo]. apply andb_true_iff in Hr as [Hr Hw%bool_decide_eq_true].
  apply andb_true_iff in Hr as [Hr Ha].
  apply andb_true_iff in Hr as [Hc%bool_decide_eq_true Hu%bool_decide_eq_true].
  assert (∀ n, reads s n = false) as Hreads.
  { intros n. unfold reads. rewrite Hu. destruct n; by rewrite ?andb_false_r. }
  intros e He. destruct e; try done; cbn; rewrite ?Hc, ?Hreads, ?Ha, ?Hw, ?Hwo; try done.
  - by rewrite andb_false_r.
  - by destruct n as [|[]].
  - destruct (mine s) as [h|]; [|done]. cbn. unfold receive. rewrite Hch.
    by destruct (uploads (srv s) !! h) as [[? [[]| |]]|].
Qed.

Lemma whole_given :
  (λ s, (resting s, s.(app))) <$> sample_run ModeAuto (start empty_server) (whole sample_stream)
  = Some (true, sample_stream).
Proof. vm_compute. reflexivity. Qed.

Lemma whole_undisturbed :
  ∃ n s, undisturbed (in_mode ModeAuto) methods (λ _ a _, a) 0 (sample_base ModeAuto) sample_id (λ _ _, true) n s ∧
    quiescent (in_mode ModeAuto) methods (λ _ a _, a) 0 (sample_base ModeAuto) sample_id (λ _ _, true) s ∧
    s.(app) = sample_stream.
Proof.
  pose proof whole_given as Hg.
  destruct (sample_run ModeAuto (start empty_server) (whole sample_stream)) as [s|] eqn:E; [|discriminate Hg].
  cbn in Hg. injection Hg as Hrest Happ.
  destruct (undisturbed_run ModeAuto 0 (start empty_server) (whole sample_stream) s) as [n Hn];
    [by apply undisturbed_start|reflexivity|exact E|].
  exists n, s. split_and!; [exact Hn|by apply resting_quiescent|exact Happ].
Qed.

Lemma sample_stream_short : Z.of_nat (length sample_stream) < u64_max.
Proof. vm_compute. reflexivity. Qed.

Lemma tunnel_delivers_witness :
  ∃ n s, undisturbed (in_mode ModeAuto) methods (λ _ a _, a) 0 (sample_base ModeAuto) sample_id (λ _ _, true) n s ∧
    s.(app) = sample_stream ∧ backend_given s = sample_stream ∧ (n ≤ 2 * length s.(app) + 3)%nat.
Proof.
  destruct whole_undisturbed as (n & s & Hu & Hq & Happ). exists n, s.
  destruct (tunnel_delivers (in_mode ModeAuto) methods (λ _ a _, a) 0 sample_server (sample_base ModeAuto)
    sample_id (λ _ _, true) n s (sample_plain ModeAuto) (in_mode_covered ModeAuto ltac:(discriminate))
    (λ _ _, eq_refl) Hu) as [Hn Hg].
  - rewrite Happ. exact sample_stream_short.
  - split; [exact Hu|]. split; [exact Happ|]. split; [rewrite <- Happ; exact (Hg Hq)|exact Hn].
Defined.

Lemma tunnel_carries_request_witness :
  ∃ s, s.(app) = sample_stream ∧
    backend (λ _, true) [UuidExample.user] [] (backend_given s)
    = VlessRelay (Vless.mkRequest Tcp UuidExample.dest) [0; 0] [7; 8].
Proof.
  destruct whole_undisturbed as (n & s & Hu & Hq & Happ). exists s. split; [exact Happ|].
  apply (tunnel_carries_request (in_mode ModeAuto) methods (λ _ a _, a) 0 sample_server (sample_base ModeAuto)
    sample_id (λ _ _, true) (λ _, true) [UuidExample.user] [] UuidExample.user UuidExample.id Tcp
    UuidExample.dest [7; 8] n s (sample_plain ModeAuto) (in_mode_covered ModeAuto ltac:(discriminate))
    (λ _ _, eq_refl) Hu).
  - rewrite Happ. exact sample_stream_short.
  - exact Hq.
  - constructor.
  - vm_compute. reflexivity.
  - apply example_encodable.
  - discriminate.
  - exact Happ.
Defined.

End Samples.
