(* ===== verification/Routing.v ===== *)
(** * The router (src/src/routing.rs, the rule data of src/src/singbox.rs)

    Rules are compiled from their configuration and matched against a context;
    a rule may nest others (logical rules, rule-sets).  [next_action_lazy]
    postpones resolving a domain until a rule needs an address, and
    [metadata_scope] limits which process and network metadata is collected. *)

From S2P Require Import Prelude RustStr Net.

#[local] Set Warnings "-register-all".

(** ** Data *)

Record RouteContext := mkContext {
  domain : option str;
  destination_ip : option IpAddr;
  destination_ips : list IpAddr;
  destination_port : option Z;
  source_ip : option IpAddr;
  source_port : option Z;
  network : option str;
  protocol : option str;
  client : option str;
  inbound : option str;
  auth_user : option str;
  process_name : option str;
  process_path : option str;
  package_name : option str;
  user : option str;
  user_id : option Z;
  clash_mode : option str;
  network_type : option str;
  network_is_expensive : bool;
  network_is_constrained : bool;
  wifi_ssid : option str;
  wifi_bssid : option str;
  interface_addresses : option (gmap str (list IpAddr));
  network_interface_addresses : option (gmap str (list IpAddr));
  source_mac_address : option str;
  source_hostname : option str;
  default_interface_addresses : list IpAddr;
  preferred_by : list str;
}.

Definition default_context : RouteContext :=
  mkContext None None [] None None None None None None None None None None None None None None None
    false false None None None None None None [] [].

Definition destination_addresses (c : RouteContext) : list IpAddr :=
  c.(destination_ips) ++ option_list c.(destination_ip).

Inductive RouteDecision := Outbound (tag : str) | Reject | HijackDns.

Record RouteOptions := mkOptions {
  override_address : option str;
  override_port : option Z;
  network_strategy : option str;
  fallback_delay : option str;
  udp_disable_domain_unmapping : bool;
  udp_connect : bool;
  udp_timeout : option str;
  tls_fragment : bool;
  tls_fragment_fallback_delay : option str;
  tls_record_fragment : bool;
  tls_spoof : option str;
  tls_spoof_method : option str;
  bind_interface : option str;
  inet4_bind_address : option str;
  inet6_bind_address : option str;
  routing_mark : option Z;
  reuse_addr : bool;
  connect_timeout : option str;
  tcp_fast_open : bool;
  tcp_multi_path : bool;
  udp_fragment : option bool;
  domain_strategy : option str;
  reject_method : option str;
  reject_no_drop : bool;
}.

Definition default_options : RouteOptions :=
  mkOptions None None None None false false None false None false None None None None None None
    false None false false None None None false.

(** [if newer.x.is_some() { self.x = newer.x.clone(); }] *)
Definition newest {A} (old newer : option A) : option A :=
  match newer with Some _ => newer | None => old end.

Definition merge (self newer : RouteOptions) : RouteOptions := {|
  override_address := newest self.(override_address) newer.(override_address);
  override_port := newest self.(override_port) newer.(override_port);
  network_strategy := newest self.(network_strategy) newer.(network_strategy);
  fallback_delay := newest self.(fallback_delay) newer.(fallback_delay);
  udp_disable_domain_unmapping :=
    self.(udp_disable_domain_unmapping) || newer.(udp_disable_domain_unmapping);
  udp_connect := self.(udp_connect) || newer.(udp_connect);
  udp_timeout := newest self.(udp_timeout) newer.(udp_timeout);
  tls_fragment := self.(tls_fragment) || newer.(tls_fragment);
  tls_fragment_fallback_delay :=
    newest self.(tls_fragment_fallback_delay) newer.(tls_fragment_fallback_delay);
  tls_record_fragment := self.(tls_record_fragment) || newer.(tls_record_fragment);
  tls_spoof := newest self.(tls_spoof) newer.(tls_spoof);
  tls_spoof_method := newest self.(tls_spoof_method) newer.(tls_spoof_method);
  bind_interface := newest self.(bind_interface) newer.(bind_interface);
  inet4_bind_address := newest self.(inet4_bind_address) newer.(inet4_bind_address);
  inet6_bind_address := newest self.(inet6_bind_address) newer.(inet6_bind_address);
  routing_mark := newest self.(routing_mark) newer.(routing_mark);
  reuse_addr := self.(reuse_addr) || newer.(reuse_addr);
  connect_timeout := newest self.(connect_timeout) newer.(connect_timeout);
  tcp_fast_open := self.(tcp_fast_open) || newer.(tcp_fast_open);
  tcp_multi_path := self.(tcp_multi_path) || newer.(tcp_multi_path);
  udp_fragment := newest self.(udp_fragment) newer.(udp_fragment);
  domain_strategy := newest self.(domain_strategy) newer.(domain_strategy);
  reject_method := newest self.(reject_method) newer.(reject_method);
  reject_no_drop := self.(reject_no_drop) || newer.(reject_no_drop);
|}.

Inductive RuleAction :=
  | Route (decision : RouteDecision) (options : RouteOptions)
  | SetOptions (options : RouteOptions)
  | Sniff (sniffers : list str) (timeout : option str)
  | Resolve (server timeout strategy : option str) (disable_cache : bool) (rewrite_ttl : option Z)
      (client_subnet : option str).

Inductive LogicalMode := And | Or.

(** A rule as configured (singbox.rs). *)
Inductive RouteRule := mkRouteRule {
  r_type : str;
  r_mode : option str;
  r_rules : list RouteRule;
  r_domain : list str;
  r_domain_suffix : list str;
  r_domain_keyword : list str;
  r_domain_regex : list str;
  r_geosite : list str;
  r_geoip : list str;
  r_source_geoip : list str;
  r_ip_cidr : list str;
  r_source_ip_cidr : list str;
  r_ip_is_private : bool;
  r_source_ip_is_private : bool;
  r_port : list Z;
  r_port_range : list str;
  r_network : list str;
  r_ip_version : list Z;
  r_auth_user : list str;
  r_protocol : list str;
  r_client : list str;
  r_inbound : list str;
  r_source_port : list Z;
  r_source_port_range : list str;
  r_process_name : list str;
  r_process_path : list str;
  r_process_path_regex : list str;
  r_package_name : list str;
  r_package_name_regex : list str;
  r_user : list str;
  r_user_id : list Z;
  r_clash_mode : option str;
  r_network_type : list str;
  r_network_is_expensive : bool;
  r_network_is_constrained : bool;
  r_wifi_ssid : list str;
  r_wifi_bssid : list str;
  r_interface_address : list (str * list str);  (* a HashMap, in its iteration order *)
  r_network_interface_address : list (str * list str);
  r_default_interface_address : list str;
  r_source_mac_address : list str;
  r_source_hostname : list str;
  r_preferred_by : list str;
  r_rule_set : list str;
  r_rule_set_ip_cidr_match_source : bool;
  r_outbound : option str;
  r_action : option str;
  r_invert : bool;
  r_options : RouteOptions;  (* the fields of RouteOptions, less the two below *)
  r_sniffer : list str;
  r_timeout : option str;
  r_server : option str;
  r_strategy : option str;
  r_disable_cache : bool;
  r_rewrite_ttl : option Z;
  r_client_subnet : option str;
  r_method : option str;
  r_no_drop : bool;
}.

(** *** Helpers *)

Definition normalize_domain (v : str) : str :=
  to_ascii_lowercase (trim_end_matches (Z.eqb c_dot) v).

Definition lower (vs : list str) : list str := to_ascii_lowercase <$> vs.

(** [expected.is_empty() || ..] *)
Definition or_empty {A} (l : list A) (b : bool) : bool :=
  match l with [] => true | _ => b end.

Definition is_some_and {A} (o : option A) (f : A → bool) : bool :=
  match o with Some a => f a | None => false end.

Definition match_field (expected : list str) (actual : option str) : bool :=
  or_empty expected (is_some_and actual (λ v, existsb (λ x, eq_ignore_ascii_case x v) expected)).

(** [RangeInclusive::contains] *)
Definition in_ports (p : Z) (r : Z * Z) : bool := (r.1 <=? p) && (p <=? r.2).

Definition parse_ports (vs : list str) : result (list (Z * Z)) :=
  map_result (λ v,
    let '(a, b) := default (v, v) (split_once c_colon v) in
    a ← context (parse_uint 16 a) "invalid port";
    b ← context (parse_uint 16 b) "invalid port";
    Ok (a, b)) vs.

Definition is_private (ip : IpAddr) : bool :=
  match ip with
  | V4 a =>
    let o := to_be 4 a in
    match o with
    | [w; x; _; _] =>
      (w =? 10) || ((w =? 172) && (16 <=? x) && (x <=? 31)) || ((w =? 192) && (x =? 168))
      || (w =? 127) || ((w =? 169) && (x =? 254)) || (a =? 0)
    | _ => false
    end
  | V6 a =>
    let s0 := Z.shiftr a 112 in
    (a =? 1) || (a =? 0) || (Z.land s0 0xfe00 =? 0xfc00) || (Z.land s0 0xffc0 =? 0xfe80)
  end.

Definition version_matches (ip : IpAddr) (version : Z) : bool :=
  match ip with V4 _ => version =? 4 | V6 _ => version =? 6 end.

Definition suffix_matches (d s : str) : bool :=
  str_eqb d s || match strip_suffix s d with Some r => ends_with [c_dot] r | None => false end.

Record LinuxMetadataScope := mkScope {
  sc_process : bool;
  sc_user : bool;
  sc_interface : bool;
  sc_network : bool;
  sc_mac : bool;
  sc_hostname : bool;
}.

Definition no_scope : LinuxMetadataScope := mkScope false false false false false false.

Definition union_scope (a b : LinuxMetadataScope) : LinuxMetadataScope :=
  mkScope (a.(sc_process) || b.(sc_process)) (a.(sc_user) || b.(sc_user))
    (a.(sc_interface) || b.(sc_interface)) (a.(sc_network) || b.(sc_network))
    (a.(sc_mac) || b.(sc_mac)) (a.(sc_hostname) || b.(sc_hostname)).

Section router.
Context `{N : IpNetLib} `{R : RegexLib}.

(** A compiled rule. *)
Inductive CompiledRule := mkCompiled {
  logical_mode : option LogicalMode;
  logical_rules : list CompiledRule;
  domains : list str;
  suffixes : list str;
  keywords : list str;
  regexes : list Regex;
  cidrs : list IpNet;
  source_cidrs : list IpNet;
  ip_versions : list Z;
  ip_private : bool;
  source_private : bool;
  source_ports : list (Z * Z);
  ports : list (Z * Z);
  networks : list str;
  protocols : list str;
  clients : list str;
  inbounds : list str;
  auth_users : list str;
  process_names : list str;
  process_paths : list str;
  process_path_regexes : list Regex;
  package_names : list str;
  package_name_regexes : list Regex;
  users : list str;
  user_ids : list Z;
  rule_clash_mode : option str;
  network_types : list str;
  is_expensive : bool;
  is_constrained : bool;
  wifi_ssids : list str;
  wifi_bssids : list str;
  rule_interface_addresses : gmap str (list IpNet);
  rule_network_interface_addresses : gmap str (list IpNet);
  source_mac_addresses : list str;
  source_hostnames : list str;
  rule_default_interface_addresses : list IpNet;
  rule_preferred_by : list str;
  rule_sets : list (list CompiledRule);
  rule_set_ip_cidr_match_source : bool;
  action : RuleAction;
  invert : bool;
  requires_destination_ip : bool;
}.

Definition in_nets (nets : list IpNet) (ip : IpAddr) : bool := existsb (λ n, ipnet_contains n ip) nets.

Definition any_regex (rs : list Regex) (v : str) : bool := existsb (λ r, regex_is_match r v) rs.

Definition address_map_matches (expected : gmap str (list IpNet))
    (actual : option (gmap str (list IpAddr))) : bool :=
  bool_decide (expected = ∅)
  || is_some_and actual (λ actual,
       existsb (λ '(key, nets),
         is_some_and (actual !! key) (λ addresses, existsb (in_nets nets) addresses))
         (map_to_list expected)).

(** The domain conditions shared by the matchers below. *)
Definition domain_conditions (r : CompiledRule) (d : str) : bool :=
  or_empty r.(domains) (existsb (λ s, str_eqb s d) r.(domains))
  && or_empty r.(suffixes) (existsb (suffix_matches d) r.(suffixes))
  && or_empty r.(keywords) (existsb (λ k, contains k d) r.(keywords))
  && or_empty r.(regexes) (any_regex r.(regexes) d).

Definition maybe_not (inv b : bool) : bool := if inv then negb b else b.

(** The context in which a rule-set's rules see the source as destination. *)
Definition source_context (c : RouteContext) : RouteContext :=
  mkContext c.(domain) c.(source_ip) c.(destination_ips) c.(destination_port) c.(source_ip)
    c.(source_port) c.(network) c.(protocol) c.(client) c.(inbound) c.(auth_user) c.(process_name)
    c.(process_path) c.(package_name) c.(user) c.(user_id) c.(clash_mode) c.(network_type)
    c.(network_is_expensive) c.(network_is_constrained) c.(wifi_ssid) c.(wifi_bssid)
    c.(interface_addresses) c.(network_interface_addresses) c.(source_mac_address)
    c.(source_hostname) c.(default_interface_addresses) c.(preferred_by).

(** The conditions of [matches] on the domain. *)
Definition match_domain (r : CompiledRule) (d : option str) : bool :=
  or_empty r.(domains) (is_some_and d (λ d, existsb (λ s, str_eqb s d) r.(domains)))
  && or_empty r.(suffixes) (is_some_and d (λ d, existsb (suffix_matches d) r.(suffixes)))
  && or_empty r.(keywords) (is_some_and d (λ d, existsb (λ k, contains k d) r.(keywords)))
  && or_empty r.(regexes) (is_some_and d (any_regex r.(regexes))).

(** Those on the destination address. *)
Definition match_destination (r : CompiledRule) (c : RouteContext) : bool :=
  or_empty r.(cidrs) (existsb (in_nets r.(cidrs)) (destination_addresses c))
  && or_empty r.(ip_versions)
       (existsb (λ ip, existsb (version_matches ip) r.(ip_versions)) (destination_addresses c))
  && (negb r.(ip_private) || existsb is_private (destination_addresses c)).

(** Those on the source, the ports and the inbound. *)
Definition match_connection (r : CompiledRule) (c : RouteContext) : bool :=
  or_empty r.(source_cidrs) (is_some_and c.(source_ip) (in_nets r.(source_cidrs)))
  && (negb r.(source_private) || is_some_and c.(source_ip) is_private)
  && or_empty r.(source_ports) (is_some_and c.(source_port) (λ p, existsb (in_ports p) r.(source_ports)))
  && or_empty r.(ports) (is_some_and c.(destination_port) (λ p, existsb (in_ports p) r.(ports)))
  && match_field r.(networks) c.(network)
  && match_field r.(protocols) c.(protocol)
  && match_field r.(clients) c.(client)
  && or_empty r.(inbounds) (is_some_and c.(inbound) (λ v, existsb (λ x, str_eqb x v) r.(inbounds)))
  && match_field r.(auth_users) c.(auth_user)
  && match r.(rule_clash_mode) with
     | None => true
     | Some e => is_some_and c.(clash_mode) (eq_ignore_ascii_case e)
     end
  && or_empty r.(rule_preferred_by)
       (existsb (λ tag, existsb (str_eqb tag) r.(rule_preferred_by)) c.(preferred_by)).

(** Those on the process and network metadata. *)
Definition match_metadata (r : CompiledRule) (c : RouteContext) : bool :=
  match_field r.(process_names) c.(process_name)
  && or_empty r.(process_paths)
       (is_some_and c.(process_path) (λ v, existsb (λ x, str_eqb x v) r.(process_paths)))
  && or_empty r.(process_path_regexes) (is_some_and c.(process_path) (any_regex r.(process_path_regexes)))
  && match_field r.(package_names) c.(package_name)
  && or_empty r.(package_name_regexes) (is_some_and c.(package_name) (any_regex r.(package_name_regexes)))
  && match_field r.(users) c.(user)
  && or_empty r.(user_ids) (is_some_and c.(user_id) (λ v, existsb (Z.eqb v) r.(user_ids)))
  && match_field r.(network_types) c.(network_type)
  && (negb r.(is_expensive) || c.(network_is_expensive))
  && (negb r.(is_constrained) || c.(network_is_constrained))
  && match_field r.(wifi_ssids) c.(wifi_ssid)
  && match_field r.(wifi_bssids) c.(wifi_bssid)
  && address_map_matches r.(rule_interface_addresses) c.(interface_addresses)
  && address_map_matches r.(rule_network_interface_addresses) c.(network_interface_addresses)
  && match_field r.(source_mac_addresses) c.(source_mac_address)
  && match_field r.(source_hostnames) c.(source_hostname)
  && or_empty r.(rule_default_interface_addresses)
       (existsb (in_nets r.(rule_default_interface_addresses)) c.(default_interface_addresses)).

(** [CompiledRule::matches].  The conditions are pure, so their order in the
    conjunction does not matter. *)
Fixpoint matches (r : CompiledRule) (c : RouteContext) (d : option str) {struct r} : bool :=
  match r.(logical_mode) with
  | Some And => maybe_not r.(invert) (forallb (λ x, matches x c d) r.(logical_rules))
  | Some Or => maybe_not r.(invert) (existsb (λ x, matches x c d) r.(logical_rules))
  | None =>
    maybe_not r.(invert)
      (match_domain r d && match_destination r c && match_connection r c && match_metadata r c
       && or_empty r.(rule_sets)
            (existsb (existsb (λ x,
               matches x (if r.(rule_set_ip_cidr_match_source) then source_context c else c) d))
               r.(rule_sets)))
  end.

(** [dns_matches_domain]: only the domain conditions take part. *)
Fixpoint dns_matches_domain (r : CompiledRule) (d : str) {struct r} : bool :=
  match r.(logical_mode) with
  | Some And => maybe_not r.(invert) (forallb (λ x, dns_matches_domain x d) r.(logical_rules))
  | Some Or => maybe_not r.(invert) (existsb (λ x, dns_matches_domain x d) r.(logical_rules))
  | None =>
    if negb (domain_conditions r d) then r.(invert)
    else if match r.(rule_sets) with
            | [] => false
            | _ => negb (existsb (existsb (λ x, dns_matches_domain x d)) r.(rule_sets))
            end then r.(invert)
    else negb r.(invert)
  end.

(** [domain_fields_match]: is the rule worth resolving the domain for? *)
Fixpoint domain_fields_match (r : CompiledRule) (d : str) {struct r} : bool :=
  match r.(logical_mode) with
  | Some And => maybe_not r.(invert) (forallb (λ x, domain_fields_match x d) r.(logical_rules))
  | Some Or => maybe_not r.(invert) (existsb (λ x, domain_fields_match x d) r.(logical_rules))
  | None =>
    maybe_not r.(invert)
      (domain_conditions r d
       && or_empty r.(rule_sets) (existsb (existsb (λ x, domain_fields_match x d)) r.(rule_sets)))
  end.

Definition domain_fields_match_opt (r : CompiledRule) (d : option str) : bool :=
  is_some_and d (domain_fields_match r).

Fixpoint dns_contains_ip_cidr (r : CompiledRule) : bool :=
  negb (match r.(cidrs) with [] => true | _ => false end)
  || existsb (existsb dns_contains_ip_cidr) r.(rule_sets)
  || existsb dns_contains_ip_cidr r.(logical_rules).

Fixpoint dns_matches_address (r : CompiledRule) (address : IpAddr) (d : option str) {struct r} : bool :=
  match r.(logical_mode) with
  | Some And =>
    maybe_not r.(invert) (forallb (λ x, dns_matches_address x address d) r.(logical_rules))
  | Some Or =>
    maybe_not r.(invert) (existsb (λ x, dns_matches_address x address d) r.(logical_rules))
  | None =>
    let domain_matches := match d with None => true | Some d => domain_conditions r d end in
    let address_matches :=
      or_empty r.(cidrs) (in_nets r.(cidrs) address)
      && or_empty r.(ip_versions) (existsb (version_matches address) r.(ip_versions))
      && (negb r.(ip_private) || is_private address)
      && or_empty r.(rule_sets)
           (existsb (existsb (λ x, dns_matches_address x address d)) r.(rule_sets)) in
    maybe_not r.(invert) (domain_matches && address_matches)
  end.

Definition nonempty {A} (l : list A) : bool := match l with [] => false | _ => true end.

Fixpoint metadata_scope (r : CompiledRule) : LinuxMetadataScope :=
  let own := mkScope
    (nonempty r.(process_names) || nonempty r.(process_paths) || nonempty r.(process_path_regexes)
     || nonempty r.(package_names) || nonempty r.(package_name_regexes))
    (nonempty r.(users) || nonempty r.(user_ids))
    (negb (bool_decide (r.(rule_interface_addresses) = ∅))
     || negb (bool_decide (r.(rule_network_interface_addresses) = ∅)))
    (nonempty r.(network_types) || r.(is_expensive) || r.(is_constrained) || nonempty r.(wifi_ssids)
     || nonempty r.(wifi_bssids) || nonempty r.(rule_default_interface_addresses))
    (nonempty r.(source_mac_addresses))
    (nonempty r.(source_hostnames)) in
  let nested := fold_left (λ sc x, union_scope sc (metadata_scope x)) r.(logical_rules) own in
  fold_left (λ sc set, fold_left (λ sc x, union_scope sc (metadata_scope x)) set sc)
    r.(rule_sets) nested.

(** ** Compiling rules *)

Definition parse_nets (vs : list str) : result (list IpNet) :=
  map_result (λ v, context (ipnet_parse v) "invalid CIDR") vs.

Definition compile_regexes (vs : list str) : result (list Regex) :=
  map_result (λ v, context (regex_new v) "invalid regular expression") vs.

Definition compile_address_map (m : list (str * list str)) : result (gmap str (list IpNet)) :=
  l ← map_result (λ '(key, values),
        nets ← map_result (λ v, context (ipnet_parse v) "invalid prefix") values;
        Ok (to_ascii_lowercase key, nets)) m;
  Ok (foldl (λ m '(k, v), <[k := v]> m) ∅ l).

Definition route_options (rule : RouteRule) : result RouteOptions :=
  let o := rule.(r_options) in
  if o.(tls_fragment) && o.(tls_record_fragment) then
    Err "tls_fragment and tls_record_fragment are mutually exclusive"
  else if match o.(tls_spoof) with Some _ => true | None => false end then
    Err "tls_spoof is not supported by sing-box or xhttp-rs on Linux"
  else if o.(tcp_multi_path) then Err "tcp_multi_path is not available on Linux"
  else if bool_decide (rule.(r_action) = Some (lit "reject"))
          && negb (match rule.(r_method) with
                   | None => true
                   | Some m => str_eqb m [] || str_eqb m (lit "drop") || str_eqb m (lit "reply")
                   end) then Err "unsupported reject method"
  else Ok (mkOptions o.(override_address) o.(override_port) o.(network_strategy) o.(fallback_delay)
    o.(udp_disable_domain_unmapping) o.(udp_connect) o.(udp_timeout) o.(tls_fragment)
    o.(tls_fragment_fallback_delay) o.(tls_record_fragment) o.(tls_spoof) o.(tls_spoof_method)
    o.(bind_interface) o.(inet4_bind_address) o.(inet6_bind_address) o.(routing_mark)
    o.(reuse_addr) o.(connect_timeout) o.(tcp_fast_open) o.(tcp_multi_path) o.(udp_fragment)
    o.(domain_strategy) rule.(r_method) rule.(r_no_drop)).

Definition compile_mode (rule : RouteRule) : result (option LogicalMode) :=
  if str_eqb rule.(r_type) (lit "logical") then
    let m := default (lit "and") rule.(r_mode) in
    if str_eqb m (lit "and") then Ok (Some And)
    else if str_eqb m (lit "or") then Ok (Some Or)
    else Err "unsupported logical route mode"
  else if str_eqb rule.(r_type) [] || str_eqb rule.(r_type) (lit "default") then Ok None
  else Err "unsupported route rule type".

Definition compile_action (rule : RouteRule) : result RuleAction :=
  match rule.(r_action) with
  | None =>
    tag ← context rule.(r_outbound) "route rule requires outbound";
    o ← route_options rule; Ok (Route (Outbound tag) o)
  | Some a =>
    if str_eqb a (lit "reject") then o ← route_options rule; Ok (Route Reject o)
    else if str_eqb a (lit "hijack-dns") then Ok (Route HijackDns default_options)
    else if str_eqb a (lit "direct") then
      o ← route_options rule; Ok (Route (Outbound (lit "direct")) o)
    else if str_eqb a (lit "bypass") then
      o ← route_options rule; Ok (Route (Outbound (default (lit "direct") rule.(r_outbound))) o)
    else if str_eqb a (lit "route") then
      tag ← context rule.(r_outbound) "route rule requires outbound";
      o ← route_options rule; Ok (Route (Outbound tag) o)
    else if str_eqb a (lit "route-options") then o ← route_options rule; Ok (SetOptions o)
    else if str_eqb a (lit "sniff") then Ok (Sniff (lower rule.(r_sniffer)) rule.(r_timeout))
    else if str_eqb a (lit "resolve") then
      Ok (Resolve rule.(r_server) rule.(r_timeout) rule.(r_strategy) rule.(r_disable_cache)
            rule.(r_rewrite_ttl) rule.(r_client_subnet))
    else Err "unsupported route action"
  end.

Definition single_ports (ps : list Z) : list (Z * Z) := (λ p, (p, p)) <$> ps.

(** [CompiledRule::compile] *)
Fixpoint compile (available_sets : gmap str (list CompiledRule)) (require_decision : bool)
    (rule : RouteRule) {struct rule} : result CompiledRule :=
  if nonempty rule.(r_geosite) || nonempty rule.(r_geoip) || nonempty rule.(r_source_geoip) then
    Err "legacy geosite/geoip fields require external databases; use source or SRS rule-sets"
  else if nonempty rule.(r_preferred_by) then
    Err "preferred_by requires an outbound with preferred-route support"
  else
  mode ← compile_mode rule;
  if match mode with Some _ => negb (nonempty rule.(r_rules)) | None => false end then
    Err "logical route rule requires nested rules"
  else
  action ← (if require_decision then compile_action rule else Ok (Route Reject default_options));
  sets ← map_result (λ tag, context (available_sets !! tag) "unknown route rule-set") rule.(r_rule_set);
  nested ← map_result (compile available_sets false) rule.(r_rules);
  let requires :=
    nonempty rule.(r_ip_cidr) || nonempty rule.(r_ip_version) || rule.(r_ip_is_private)
    || existsb (existsb requires_destination_ip) sets
    || existsb requires_destination_ip nested in
  domain_regexes ← compile_regexes rule.(r_domain_regex);
  nets ← parse_nets rule.(r_ip_cidr);
  source_nets ← parse_nets rule.(r_source_ip_cidr);
  source_ranges ← parse_ports rule.(r_source_port_range);
  ranges ← parse_ports rule.(r_port_range);
  path_regexes ← compile_regexes rule.(r_process_path_regex);
  package_regexes ← compile_regexes rule.(r_package_name_regex);
  interfaces ← compile_address_map rule.(r_interface_address);
  network_interfaces ← compile_address_map rule.(r_network_interface_address);
  default_interfaces ← parse_nets rule.(r_default_interface_address);
  Ok (mkCompiled mode nested (normalize_domain <$> rule.(r_domain))
    (normalize_domain <$> rule.(r_domain_suffix)) (lower rule.(r_domain_keyword)) domain_regexes
    nets source_nets rule.(r_ip_version) rule.(r_ip_is_private) rule.(r_source_ip_is_private)
    (single_ports rule.(r_source_port) ++ source_ranges) (single_ports rule.(r_port) ++ ranges)
    (lower rule.(r_network)) (lower rule.(r_protocol)) (lower rule.(r_client)) rule.(r_inbound)
    rule.(r_auth_user) (lower rule.(r_process_name)) rule.(r_process_path) path_regexes
    (lower rule.(r_package_name)) package_regexes rule.(r_user) rule.(r_user_id)
    (to_ascii_lowercase <$> rule.(r_clash_mode)) (lower rule.(r_network_type))
    rule.(r_network_is_expensive) rule.(r_network_is_constrained) rule.(r_wifi_ssid)
    (lower rule.(r_wifi_bssid)) interfaces network_interfaces (lower rule.(r_source_mac_address))
    (lower rule.(r_source_hostname)) default_interfaces rule.(r_preferred_by) sets
    rule.(r_rule_set_ip_cidr_match_source) action rule.(r_invert) requires).

(** ** The router *)

Record Router := mkRouter {
  rules : list CompiledRule;
  router_rule_sets : gmap str (list CompiledRule);
  final_outbound : str;
  router_default_options : RouteOptions;
  default_domain_resolver : option str;
}.

(** [Router::route] *)
Definition route (rt : Router) (c : RouteContext) : RouteDecision :=
  let d := normalize_domain <$> c.(domain) in
  default (Outbound rt.(final_outbound))
    (head (omap (λ r, match r.(action) with Route decision _ => Some decision | _ => None end)
       (List.filter (λ r, matches r c d) rt.(rules)))).

(** The first rule that [matches], with its index; [i] is the index of the head. *)
Fixpoint find_rule (p : CompiledRule → bool) (i : nat) (rs : list CompiledRule)
    : option (nat * RuleAction) :=
  match rs with
  | [] => None
  | r :: rs => if p r then Some (i, r.(action)) else find_rule p (S i) rs
  end.

(** [Router::next_action] *)
Definition next_action (rt : Router) (c : RouteContext) (from : nat) : option (nat * RuleAction) :=
  let d := normalize_domain <$> c.(domain) in
  find_rule (λ r, matches r c d) from (drop from rt.(rules)).

Inductive ActionLookup :=
  | Action (index : nat) (action : RuleAction)
  | NeedResolve (index : nat)
  | NoAction.

Fixpoint lazy_loop (needs_ip : bool) (c : RouteContext) (d : option str) (i : nat)
    (rs : list CompiledRule) : ActionLookup :=
  match rs with
  | [] => NoAction
  | r :: rs =>
    if matches r c d then Action i r.(action)
    else if needs_ip && r.(requires_destination_ip) && domain_fields_match_opt r d then NeedResolve i
    else lazy_loop needs_ip c d (S i) rs
  end.

(** [Router::next_action_lazy] *)
Definition next_action_lazy (rt : Router) (c : RouteContext) (from : nat) : ActionLookup :=
  let d := normalize_domain <$> c.(domain) in
  let needs_ip := negb (nonempty (destination_addresses c))
                  && match c.(domain) with Some _ => true | None => false end in
  lazy_loop needs_ip c d from (drop from rt.(rules)).

Definition set_final_outbound (rt : Router) (tag : str) : Router :=
  mkRouter rt.(rules) rt.(router_rule_sets) tag rt.(router_default_options)
    rt.(default_domain_resolver).

(** [Router::replace_from] keeps the final outbound and the default resolver. *)
Definition replace_from (rt updated : Router) : Router :=
  mkRouter updated.(rules) updated.(router_rule_sets) rt.(final_outbound)
    updated.(router_default_options) rt.(default_domain_resolver).

Definition linux_metadata_scope (rt : Router) : LinuxMetadataScope :=
  fold_left (λ sc r, union_scope sc (metadata_scope r)) rt.(rules) no_scope.

(** *** Rule-sets *)

Record RuleSetConfig := mkRuleSet {
  set_type : str;
  set_tag : str;
  set_format : option str;
  set_path : option str;
  set_url : option str;
  set_update_interval : option str;
  set_download_detour : option str;
  set_inline_rules : list RouteRule;
}.

(** Files, downloads and parsers. *)
Record RuleSetEnv := mkEnv {
  read_file : str → option bytes;
  read_cache : str → str → option bytes;  (* by URL and format *)
  write_cache : str → str → bytes → bool;
  download : str → option bytes;
  parse_source : bytes → result (list RouteRule);  (* serde_json *)
  srs_decode : bytes → result (list RouteRule);  (* crate::srs::decode *)
}.

Definition rule_set_format_for (set : RuleSetConfig) (location : str) : result str :=
  let format := default
    (if ends_with (lit ".srs") (default [] (head (split 35 (default [] (head (split 63 location))))))
     then lit "binary" else lit "source") set.(set_format) in
  if str_eqb format (lit "source") || str_eqb format (lit "binary") then Ok format
  else Err "unsupported route rule-set format".

Definition decode_rule_set (env : RuleSetEnv) (data : bytes) (format : str) : result (list RouteRule) :=
  if str_eqb format (lit "source") then env.(parse_source) data
  else if str_eqb format (lit "binary") then env.(srs_decode) data
  else Panic.

Definition load_remote_rule_set (env : RuleSetEnv) (set : RuleSetConfig) : result (list RouteRule) :=
  if is_some_and set.(set_download_detour) (λ tag, negb (str_eqb tag [])) then
    Err "remote rule-set download_detour is not supported"
  else
  url ← context set.(set_url) "remote rule-set requires url";
  format ← rule_set_format_for set url;
  match data ← env.(read_cache) url format; result_ok (decode_rule_set env data format) with
  | Some rules => Ok rules
  | None =>
    data ← match env.(download) url with
           | Some data =>
             if Z.of_nat (length data) >? 64 * 1024 * 1024 then Err "remote rule-set exceeds 64 MiB"
             else if env.(write_cache) url format data then Ok data
             else Err "write rule-set cache"
           | None => context (env.(read_cache) url format) "download remote rule-set and read cache"
           end;
    decode_rule_set env data format
  end.

Definition load_rule_set (env : RuleSetEnv) (fetch_remote : bool)
    (prefetched : option (gmap str bytes)) (set : RuleSetConfig) : result (list CompiledRule) :=
  if str_eqb set.(set_tag) [] then Err "route rule-set tag must not be empty" else
  rules ←
    (if str_eqb set.(set_type) (lit "inline") then Ok set.(set_inline_rules)
     else if str_eqb set.(set_type) (lit "local") || str_eqb set.(set_type) [] then
       path ← context set.(set_path) "local rule-set requires path";
       data ← context (env.(read_file) path) "read route rule-set";
       format ← rule_set_format_for set path;
       decode_rule_set env data format
     else if str_eqb set.(set_type) (lit "remote") then
       if negb fetch_remote then Ok []
       else match p ← prefetched; p !! set.(set_tag) with
            | Some data =>
              format ← rule_set_format_for set (default [] set.(set_url));
              decode_rule_set env data format
            | None => load_remote_rule_set env set
            end
     else Err "unsupported route rule-set type");
  map_result (compile ∅ false) rules.

Fixpoint load_rule_sets (env : RuleSetEnv) (fetch_remote : bool) (prefetched : option (gmap str bytes))
    (sets : list RuleSetConfig) (loaded : gmap str (list CompiledRule))
    : result (gmap str (list CompiledRule)) :=
  match sets with
  | [] => Ok loaded
  | set :: sets =>
    compiled ← load_rule_set env fetch_remote prefetched set;
    if bool_decide (is_Some (loaded !! set.(set_tag))) then Err "duplicate route rule-set tag"
    else load_rule_sets env fetch_remote prefetched sets (<[set.(set_tag) := compiled]> loaded)
  end.

Record RouteConfig := mkRouteConfig {
  config_rules : list RouteRule;
  config_rule_set : list RuleSetConfig;
  config_final : option str;
  auto_detect_interface : option bool;
  default_interface : option str;
  default_mark : option Z;
  default_network_strategy : option str;
  default_fallback_delay : option str;
  default_http_client : option str;
  config_domain_resolver : option str;
}.

(** [Router::compile_inner] *)
Definition compile_inner (env : RuleSetEnv) (config : RouteConfig) (default_outbound : str)
    (fetch_remote : bool) (prefetched : option (gmap str bytes)) : result Router :=
  let final := default default_outbound config.(config_final) in
  sets ← load_rule_sets env fetch_remote prefetched config.(config_rule_set) ∅;
  compiled ← map_result (compile sets true) config.(config_rules);
  Ok (mkRouter compiled sets final
        (mkOptions None None config.(default_network_strategy) config.(default_fallback_delay) false
           false None false None false None None config.(default_interface) None None
           config.(default_mark) false None false false None None None false)
        (tag ← config.(config_domain_resolver); if str_eqb tag [] then None else Some tag)).

Fixpoint collect_destination_cidrs (r : CompiledRule) : list IpNet :=
  (if r.(invert) then [] else r.(cidrs)) ++ concat (map collect_destination_cidrs r.(logical_rules)).

(** [Vec::dedup] *)
Fixpoint dedup (l : list IpNet) : list IpNet :=
  match l with
  | x :: l =>
    match l with
    | y :: _ => if bool_decide (x = y) then dedup l else x :: dedup l
    | [] => [x]
    end
  | [] => []
  end.

Fixpoint insert_net (le : IpNet → IpNet → bool) (x : IpNet) (l : list IpNet) : list IpNet :=
  match l with
  | [] => [x]
  | y :: l => if le x y then x :: y :: l else y :: insert_net le x l
  end.

(** Comparison of the printed forms, byte by byte. *)
Fixpoint str_le (a b : str) : bool :=
  match a, b with
  | [], _ => true
  | _, [] => false
  | x :: a, y :: b => if x =? y then str_le a b else x <? y
  end.

Definition extract_rule_set_ip_cidrs (sets : gmap str (list CompiledRule)) (tags : list str)
    : result (list IpNet) :=
  nets ← map_result (λ tag,
    rs ← context (sets !! tag) "TUN route rule-set not found";
    Ok (concat (map collect_destination_cidrs rs))) tags;
  Ok (dedup (foldr (insert_net (λ a b, str_le (ipnet_print a) (ipnet_print b))) [] (concat nets))).

Definition rule_set_ip_cidrs (rt : Router) (tags : list str) : result (list IpNet) :=
  extract_rule_set_ip_cidrs rt.(router_rule_sets) tags.

End router.
