(* ===== verification/RoutingFacts.v ===== *)
(** * Properties of the router

    Lazy resolution against eager matching, the soundness of the metadata
    scope, and the algebra of route options. *)

From S2P Require Import Prelude RustStr Net Routing.

(** ** Route options *)

Lemma newest_assoc {A} (x y z : option A) : newest (newest x y) z = newest x (newest y z).
Proof. by destruct z. Qed.

Lemma newest_None_l {A} (x : option A) : newest None x = x.
Proof. by destruct x. Qed.

(** Route options accumulate as a monoid: merging is associative, the
    default options are neutral on both sides, and merging the same options
    again changes nothing.  So the options a connection ends with depend only
    on the sequence of matching rules, however it is cut into steps. *)
Theorem merge_monoid a b c :
  merge (merge a b) c = merge a (merge b c) ∧ merge default_options a = a ∧
  merge a default_options = a ∧ merge (merge a b) b = merge a b.
Proof.
  destruct a, b, c. unfold merge; cbn.
  rewrite ?newest_assoc, ?newest_None_l, ?orb_assoc, ?orb_false_r.
  assert (∀ A (x y : option A), newest x (newest y y) = newest x y) as Hn by (by intros ? ? []).
  assert (∀ x y : bool, x || y || y = x || y) as Ho by (by intros [] []).
  rewrite ?Hn, ?Ho. done.
Qed.

Section facts.
Context `{N : IpNetLib} `{R : RegexLib}.

(** ** Induction on rules *)

Lemma CompiledRule_nested_ind (P : CompiledRule → Prop) :
  (∀ r, Forall P r.(logical_rules) → Forall (Forall P) r.(rule_sets) → P r) → ∀ r, P r.
Proof.
  intros H. fix IH 1. intros r. apply H.
  - destruct r as [m l]; cbn. induction l as [|x l IHl]; constructor; [apply IH|exact IHl].
  - destruct r as [? ? ? ? ? ? ? ? ? ? ? ? ? ? ? ? ? ? ? ? ? ? ? ? ? ? ? ? ? ? ? ? ? ? ? ? ? sets]; cbn.
    induction sets as [|s sets IHs]; constructor; [|exact IHs].
    induction s as [|x s IHx]; constructor; [apply IH|exact IHx].
Qed.

(** No rule, and no rule nested in it, is inverted. *)
Fixpoint no_invert (r : CompiledRule) : bool :=
  negb r.(invert) && forallb no_invert r.(logical_rules)
  && forallb (forallb no_invert) r.(rule_sets).

(** The flag says whether the rule, or one nested in it, looks at the
    destination address. *)
Fixpoint flagged (r : CompiledRule) : bool :=
  eqb r.(requires_destination_ip)
    (nonempty r.(cidrs) || nonempty r.(ip_versions) || r.(ip_private)
     || existsb (existsb requires_destination_ip) r.(rule_sets)
     || existsb requires_destination_ip r.(logical_rules))
  && forallb flagged r.(logical_rules) && forallb (forallb flagged) r.(rule_sets).

(** The context after the domain was resolved. *)
Definition with_ips (c : RouteContext) (ips : list IpAddr) : RouteContext :=
  mkContext c.(domain) c.(destination_ip) ips c.(destination_port) c.(source_ip) c.(source_port)
    c.(network) c.(protocol) c.(client) c.(inbound) c.(auth_user) c.(process_name)
    c.(process_path) c.(package_name) c.(user) c.(user_id) c.(clash_mode) c.(network_type)
    c.(network_is_expensive) c.(network_is_constrained) c.(wifi_ssid) c.(wifi_bssid)
    c.(interface_addresses) c.(network_interface_addresses) c.(source_mac_address)
    c.(source_hostname) c.(default_interface_addresses) c.(preferred_by).

Lemma or_empty_true {A} (l : list A) b : or_empty l b = true ↔ l = [] ∨ b = true.
Proof. destruct l; cbn; naive_solver. Qed.

Lemma existsb_mono {A} (f g : A → bool) l :
  (∀ x, x ∈ l → f x = true → g x = true) → existsb f l = true → existsb g l = true.
Proof.
  intros Hfg. rewrite !existsb_exists. intros (x & Hx & Hf). exists x. split; [done|].
  apply Hfg; [by apply list_elem_of_In|done].
Qed.

Lemma forallb_ext_in {A} (f g : A → bool) l : (∀ x, x ∈ l → f x = g x) → forallb f l = forallb g l.
Proof.
  induction l as [|x l IH]; intros H; cbn; [done|]. rewrite (H x) by left.
  rewrite IH; [done|]. intros y Hy. apply H. by right.
Qed.

Lemma forallb_elem {A} (f : A → bool) l x : forallb f l = true → x ∈ l → f x = true.
Proof. rewrite forallb_forall. intros H Hx. by apply H, list_elem_of_In. Qed.

Lemma forallb2_elem {A} (f : A → bool) l s x :
  forallb (forallb f) l = true → s ∈ l → x ∈ s → f x = true.
Proof. intros H Hs Hx. eapply forallb_elem; [|exact Hx]. by eapply (forallb_elem (forallb f)). Qed.

Lemma existsb2_false {A} (f : A → bool) l s x :
  existsb (existsb f) l = false → s ∈ l → x ∈ s → f x = false.
Proof.
  intros H Hs Hx. destruct (f x) eqn:E; [|done]. exfalso. enough (existsb (existsb f) l = true) by congruence.
  apply existsb_exists. exists s. split; [by apply list_elem_of_In|].
  apply existsb_exists. exists x. split; [by apply list_elem_of_In|done].
Qed.

Lemma match_destination_mono r c ips :
  c.(destination_ips) = [] → match_destination r c = true → match_destination r (with_ips c ips) = true.
Proof.
  intros Hc. unfold match_destination, destination_addresses, with_ips; cbn. rewrite Hc. cbn [app].
  rewrite !existsb_app. rewrite !andb_true_iff, !or_empty_true, !orb_true_iff, !negb_true_iff. tauto.
Qed.

Lemma Forall_nested {A} (P : A → Prop) sets s x : Forall (Forall P) sets → s ∈ sets → x ∈ s → P x.
Proof. intros H Hs Hx. rewrite Forall_forall in H. specialize (H s Hs). by rewrite Forall_forall in H; apply H. Qed.

(** The fixpoints unfold on any rule. *)
Lemma matches_eq r c d :
  matches r c d =
  match r.(logical_mode) with
  | Some And => maybe_not r.(invert) (forallb (λ x, matches x c d) r.(logical_rules))
  | Some Or => maybe_not r.(invert) (existsb (λ x, matches x c d) r.(logical_rules))
  | None =>
    maybe_not r.(invert)
      (match_domain r d && match_destination r c && match_connection r c && match_metadata r c
       && or_empty r.(rule_sets)
            (existsb (existsb (λ x,
               matches x (if r.(rule_set_ip_cidr_match_source) then source_context c else c) d))
               r.(rule_sets)))
  end.
Proof. by destruct r. Qed.

Lemma domain_fields_match_eq r d :
  domain_fields_match r d =
  match r.(logical_mode) with
  | Some And => maybe_not r.(invert) (forallb (λ x, domain_fields_match x d) r.(logical_rules))
  | Some Or => maybe_not r.(invert) (existsb (λ x, domain_fields_match x d) r.(logical_rules))
  | None =>
    maybe_not r.(invert)
      (domain_conditions r d
       && or_empty r.(rule_sets) (existsb (existsb (λ x, domain_fields_match x d)) r.(rule_sets)))
  end.
Proof. by destruct r. Qed.

Lemma no_invert_inv r :
  no_invert r = true →
  r.(invert) = false ∧ (∀ x, x ∈ r.(logical_rules) → no_invert x = true) ∧
  (∀ s x, s ∈ r.(rule_sets) → x ∈ s → no_invert x = true).
Proof.
  assert (no_invert r = negb r.(invert) && forallb no_invert r.(logical_rules)
    && forallb (forallb no_invert) r.(rule_sets)) as -> by (by destruct r).
  rewrite !andb_true_iff, negb_true_iff. intros [[? Hl] Hs]. split_and!; [done| |].
  - intros x. by apply forallb_elem.
  - intros st x. by apply forallb2_elem.
Qed.

Lemma flagged_inv r :
  flagged r = true →
  r.(requires_destination_ip) =
    (nonempty r.(cidrs) || nonempty r.(ip_versions) || r.(ip_private)
     || existsb (existsb requires_destination_ip) r.(rule_sets)
     || existsb requires_destination_ip r.(logical_rules)) ∧
  (∀ x, x ∈ r.(logical_rules) → flagged x = true) ∧
  (∀ s x, s ∈ r.(rule_sets) → x ∈ s → flagged x = true).
Proof.
  intros H. assert (eqb r.(requires_destination_ip)
    (nonempty r.(cidrs) || nonempty r.(ip_versions) || r.(ip_private)
     || existsb (existsb requires_destination_ip) r.(rule_sets)
     || existsb requires_destination_ip r.(logical_rules))
    && forallb flagged r.(logical_rules) && forallb (forallb flagged) r.(rule_sets) = true) as H'
    by (by destruct r). clear H.
  rewrite !andb_true_iff in H'. destruct H' as [[He Hl] Hs]. split_and!.
  - by apply eqb_prop.
  - intros x. by apply forallb_elem.
  - intros st x. by apply forallb2_elem.
Qed.

Lemma source_context_with_ips (b : bool) c ips :
  (if b then source_context (with_ips c ips) else with_ips c ips)
  = with_ips (if b then source_context c else c) ips.
Proof. by destruct b. Qed.

(** Resolving can only make a rule match that did not. *)
Lemma matches_mono r c d ips :
  no_invert r = true → c.(destination_ips) = [] → matches r c d = true →
  matches r (with_ips c ips) d = true.
Proof.
  revert c. induction r as [r IHl IHs] using CompiledRule_nested_ind. intros c Hno Hc.
  rewrite Forall_forall in IHl. destruct (no_invert_inv r Hno) as (Hi & Hl & Hs).
  rewrite !matches_eq, Hi. unfold maybe_not. destruct (logical_mode r) as [[|]|].
  - rewrite !forallb_forall. intros H x Hx. specialize (H x Hx). apply list_elem_of_In in Hx. auto.
  - apply existsb_mono. auto.
  - rewrite !andb_true_iff, !or_empty_true. intros ((((H1 & H2) & H3) & H4) & H5).
    split_and!; try done; [by apply match_destination_mono|].
    destruct H5 as [H5|H5]; [by left|right]. rewrite source_context_with_ips.
    revert H5. apply existsb_mono. intros st Hst. apply existsb_mono. intros x Hx.
    apply (Forall_nested _ _ st x IHs); [done|done|by eapply Hs|].
    by destruct (rule_set_ip_cidr_match_source r).
Qed.

(** A rule that is not flagged does not see the addresses. *)
Lemma matches_unflagged r c d ips :
  flagged r = true → r.(requires_destination_ip) = false →
  matches r (with_ips c ips) d = matches r c d.
Proof.
  revert c. induction r as [r IHl IHs] using CompiledRule_nested_ind. intros c Hf Hr.
  rewrite Forall_forall in IHl. destruct (flagged_inv r Hf) as (He & Hl & Hs). rewrite Hr in He.
  symmetry in He. rewrite !orb_false_iff in He. destruct He as ((((Hc & Hv) & Hp) & Hsets) & Hlog).
  assert (∀ x, x ∈ logical_rules r → matches x (with_ips c ips) d = matches x c d) as Hnest.
  { intros x Hx. apply IHl; [done|by apply Hl|]. destruct (requires_destination_ip x) eqn:E; [|done].
    assert (existsb requires_destination_ip (logical_rules r) = true); [|congruence].
    apply existsb_exists. exists x. by rewrite <- list_elem_of_In. }
  rewrite !matches_eq. destruct (logical_mode r) as [[|]|]; f_equal.
  - by apply forallb_ext_in.
  - by apply existsb_ext_in.
  - assert (match_destination r (with_ips c ips) = match_destination r c) as ->.
    { unfold match_destination. rewrite Hp. destruct (cidrs r), (ip_versions r); done. }
    f_equal; f_equal. rewrite source_context_with_ips. apply existsb_ext_in. intros st Hst.
    apply existsb_ext_in. intros x Hx. apply (Forall_nested _ _ st x IHs); [done..|by eapply Hs|].
    by eapply existsb2_false.
Qed.

(** A rule that matches has matching domain fields. *)
Lemma matches_domain_fields r c d :
  no_invert r = true → matches r c (Some d) = true → domain_fields_match r d = true.
Proof.
  revert c. induction r as [r IHl IHs] using CompiledRule_nested_ind. intros c Hno.
  rewrite Forall_forall in IHl. destruct (no_invert_inv r Hno) as (Hi & Hl & Hs).
  rewrite matches_eq, domain_fields_match_eq, Hi. unfold maybe_not.
  destruct (logical_mode r) as [[|]|].
  - rewrite !forallb_forall. intros H x Hx. specialize (H x Hx). apply list_elem_of_In in Hx. eauto.
  - apply existsb_mono. eauto.
  - rewrite !andb_true_iff, !or_empty_true. intros ((((H1 & _) & _) & _) & H5).
    split; [exact H1|]. destruct H5 as [H5|H5]; [by left|right]. revert H5.
    apply existsb_mono. intros st Hst. apply existsb_mono. intros x Hx.
    apply (Forall_nested _ _ st x IHs); [done|done|by eapply Hs].
Qed.

(** ** Lazy resolution *)

(** Resolve when asked to, then look up again from the same rule. *)
Definition resolve_and_retry (rt : Router) (c : RouteContext) (ips : list IpAddr) (from : nat)
    : option (nat * RuleAction) :=
  match next_action_lazy rt c from with
  | Action i a => Some (i, a)
  | NeedResolve i => next_action rt (with_ips c ips) i
  | NoAction => None
  end.

Lemma lazy_loop_spec rs c d i ips :
  Forall (λ r, no_invert r = true ∧ flagged r = true) rs → c.(destination_ips) = [] →
  match lazy_loop true c (Some d) i rs with
  | Action j a => find_rule (λ r, matches r (with_ips c ips) (Some d)) i rs = Some (j, a)
  | NeedResolve j =>
    (i ≤ j)%nat ∧
    find_rule (λ r, matches r (with_ips c ips) (Some d)) i rs
    = find_rule (λ r, matches r (with_ips c ips) (Some d)) j (drop (j - i) rs)
  | NoAction => find_rule (λ r, matches r (with_ips c ips) (Some d)) i rs = None
  end.
Proof.
  intros Hrs Hc. revert i. induction Hrs as [|r rs [Hno Hfl] _ IH]; intros i; [done|].
  cbn [lazy_loop find_rule]. destruct (matches r c (Some d)) eqn:Hm.
  { by rewrite (matches_mono r c (Some d) ips). }
  cbn [andb]. destruct (requires_destination_ip r && domain_fields_match_opt r (Some d)) eqn:Hn.
  { split; [lia|]. rewrite Nat.sub_diag. done. }
  assert (matches r (with_ips c ips) (Some d) = false) as Hm'.
  { destruct (matches r (with_ips c ips) (Some d)) eqn:E; [|done].
    destruct (requires_destination_ip r) eqn:Hr.
    - apply matches_domain_fields in E; [|done]. cbn in Hn. congruence.
    - rewrite matches_unflagged in E by done. congruence. }
  rewrite Hm'. specialize (IH (S i)).
  destruct (lazy_loop true c (Some d) (S i) rs) as [j a|j|]; try done.
  destruct IH as [Hij IH]. split; [lia|]. rewrite IH. by replace (j - i)%nat with (S (j - S i)) by lia.
Qed.

(** ** Compiled rules carry the right flag *)

Lemma RouteRule_nested_ind (P : RouteRule → Prop) :
  (∀ r, Forall P r.(r_rules) → P r) → ∀ r, P r.
Proof.
  intros H. fix IH 1. intros r. apply H. destruct r as [t m l]; cbn.
  induction l as [|x l IHl]; constructor; [apply IH|exact IHl].
Qed.

Lemma map_result_nonempty {A B} (f : A → result B) l l' :
  map_result f l = Ok l' → nonempty l' = nonempty l.
Proof. rewrite map_result_Ok. by inversion 1. Qed.

Definition sets_flagged (sets : gmap str (list CompiledRule)) : Prop :=
  ∀ tag rs, sets !! tag = Some rs → forallb flagged rs = true.

Lemma compile_flagged sets dec rule r :
  sets_flagged sets → compile sets dec rule = Ok r → flagged r = true.
Proof.
  intros Hsets. revert dec r. induction rule as [rule IH] using RouteRule_nested_ind. intros dec r H.
  rewrite Forall_forall in IH.
  assert (∃ sets' nested nets, r.(rule_sets) = sets' ∧ r.(logical_rules) = nested ∧ r.(cidrs) = nets ∧
    r.(ip_versions) = rule.(r_ip_version) ∧ r.(ip_private) = rule.(r_ip_is_private) ∧
    map_result (λ tag, context (sets !! tag) "unknown route rule-set") rule.(r_rule_set) = Ok sets' ∧
    map_result (compile sets false) rule.(r_rules) = Ok nested ∧ parse_nets rule.(r_ip_cidr) = Ok nets ∧
    r.(requires_destination_ip) = nonempty rule.(r_ip_cidr) || nonempty rule.(r_ip_version)
      || rule.(r_ip_is_private) || existsb (existsb requires_destination_ip) sets'
      || existsb requires_destination_ip nested)
    as (sets' & nested & nets & E1 & E2 & E3 & E4 & E5 & Hs & Hn & Hp & Hr).
  { assert (compile sets dec rule = Ok r) as H' by exact H. destruct rule; cbn in H'.
    repeat (destruct (_ || _) in H'; [done|]). destruct (nonempty _) in H'; [done|].
    apply bind_Ok in H' as (mode & _ & H').
    destruct (match mode with Some _ => _ | None => _ end) in H'; [done|].
    apply bind_Ok in H' as (act & _ & H'). apply bind_Ok in H' as (sets' & Hs & H').
    apply bind_Ok in H' as (nested & Hn & H'). cbn zeta in H'.
    apply bind_Ok in H' as (? & _ & H'). apply bind_Ok in H' as (nets & Hp & H').
    do 8 (apply bind_Ok in H' as (? & _ & H')). apply Ok_inj in H'. subst r.
    exists sets', nested, nets. done. }
  assert (forallb flagged nested = true) as Hnf.
  { apply forallb_forall. intros x Hx%list_elem_of_In. apply map_result_Ok in Hn.
    apply list_elem_of_lookup in Hx as [k Hk].
    destruct (Forall2_lookup_r _ _ _ _ _ Hn Hk) as (y & Hy & Hc).
    eapply IH; [by eapply list_elem_of_lookup_2|exact Hc]. }
  assert (forallb (forallb flagged) sets' = true) as Hsf.
  { apply forallb_forall. intros x Hx%list_elem_of_In. apply map_result_Ok in Hs.
    apply list_elem_of_lookup in Hx as [k Hk].
    destruct (Forall2_lookup_r _ _ _ _ _ Hs Hk) as (y & Hy & Hc).
    destruct (sets !! y) eqn:E; [|done]. injection Hc as ->. by eapply Hsets. }
  assert (flagged r = eqb r.(requires_destination_ip)
    (nonempty r.(cidrs) || nonempty r.(ip_versions) || r.(ip_private)
     || existsb (existsb requires_destination_ip) r.(rule_sets)
     || existsb requires_destination_ip r.(logical_rules))
    && forallb flagged r.(logical_rules) && forallb (forallb flagged) r.(rule_sets)) as ->
    by (by destruct r).
  rewrite E1, E2, E3, E4, E5, Hr, Hnf, Hsf, (map_result_nonempty _ _ _ Hp), eqb_reflx. done.
Qed.

Lemma load_rule_sets_flagged env fetch pre configs loaded sets :
  sets_flagged loaded → load_rule_sets env fetch pre configs loaded = Ok sets → sets_flagged sets.
Proof.
  revert loaded. induction configs as [|set configs IH]; intros loaded Hl H; cbn in H.
  { by injection H as <-. }
  apply bind_Ok in H as (compiled & Hc & H). destruct (bool_decide _); [done|]. eapply IH; [|exact H].
  intros tag rs [[<- <-]|[_ ?]]%lookup_insert_Some; [|by eapply Hl].
  unfold load_rule_set in Hc. destruct (str_eqb _ _); [done|].
  apply bind_Ok in Hc as (rules & _ & Hc). apply map_result_Ok in Hc. apply forallb_forall.
  intros x Hx%list_elem_of_In. apply list_elem_of_lookup in Hx as [k Hk].
  destruct (Forall2_lookup_r _ _ _ _ _ Hc Hk) as (y & _ & Hy). eapply compile_flagged; [|exact Hy].
  intros ? ? E. by rewrite lookup_empty in E.
Qed.

(** C13: Resolving lazily decides like resolving first: for a router compiled
    from a configuration, when none of its rules is inverted and a connection
    is known by its domain alone, looking up lazily and resolving only when a
    rule asks for an address gives the same rule and action, at every step, as
    looking up with the addresses from the start. *)
Theorem lazy_resolution_equiv env config out fetch pre rt c ips from :
  compile_inner env config out fetch pre = Ok rt → forallb no_invert rt.(rules) = true →
  is_Some c.(domain) → destination_addresses c = [] →
  resolve_and_retry rt c ips from = next_action rt (with_ips c ips) from.
Proof.
  intros Hrt Hno [d Hd] Haddr. unfold compile_inner in Hrt.
  apply bind_Ok in Hrt as (sets & Hsets & Hrt). apply bind_Ok in Hrt as (compiled & Hc & Hrt).
  apply Ok_inj in Hrt. subst rt. cbn [rules] in Hno.
  apply app_nil in Haddr as [Hips Hip].
  assert (Forall (λ r, no_invert r = true ∧ flagged r = true) compiled) as Hrs.
  { apply Forall_forall. intros r Hr. split; [by eapply forallb_elem|].
    apply list_elem_of_lookup in Hr as [k Hk]. apply map_result_Ok in Hc.
    destruct (Forall2_lookup_r _ _ _ _ _ Hc Hk) as (y & _ & Hy). eapply compile_flagged; [|exact Hy].
    eapply load_rule_sets_flagged; [|exact Hsets]. intros ? ? E. by rewrite lookup_empty in E. }
  unfold resolve_and_retry, next_action_lazy, next_action, destination_addresses. cbn [rules].
  change (domain (with_ips c ips)) with (domain c). rewrite Hd, Hips, Hip.
  change (normalize_domain <$> Some d) with (Some (normalize_domain d)).
  change (negb (nonempty ([] ++ [])) && true) with true.
  pose proof (lazy_loop_spec (drop from compiled) c (normalize_domain d) from ips) as H.
  specialize (H (Forall_drop _ _ _ Hrs) Hips).
  destruct (lazy_loop _ _ _ _ _) as [j a|j|]; [done| |done].
  destruct H as [Hj ->]. rewrite drop_drop. by replace (from + (j - from))%nat with j by lia.
Qed.

(** ** The metadata scope *)

(** A context without its process and network metadata. *)
Definition strip_metadata (c : RouteContext) : RouteContext :=
  mkContext c.(domain) c.(destination_ip) c.(destination_ips) c.(destination_port) c.(source_ip)
    c.(source_port) c.(network) c.(protocol) c.(client) c.(inbound) c.(auth_user) None None None
    None None c.(clash_mode) None false false None None None None None None [] c.(preferred_by).

(** Two contexts that differ only in metadata outside the scope [sc]. *)
Record agree (sc : LinuxMetadataScope) (c c' : RouteContext) : Prop := {
  agree_core : strip_metadata c = strip_metadata c';
  agree_process : sc.(sc_process) = true →
    c.(process_name) = c'.(process_name) ∧ c.(process_path) = c'.(process_path) ∧
    c.(package_name) = c'.(package_name);
  agree_user : sc.(sc_user) = true → c.(user) = c'.(user) ∧ c.(user_id) = c'.(user_id);
  agree_interface : sc.(sc_interface) = true →
    c.(interface_addresses) = c'.(interface_addresses) ∧
    c.(network_interface_addresses) = c'.(network_interface_addresses);
  agree_network : sc.(sc_network) = true →
    c.(network_type) = c'.(network_type) ∧ c.(network_is_expensive) = c'.(network_is_expensive) ∧
    c.(network_is_constrained) = c'.(network_is_constrained) ∧ c.(wifi_ssid) = c'.(wifi_ssid) ∧
    c.(wifi_bssid) = c'.(wifi_bssid) ∧
    c.(default_interface_addresses) = c'.(default_interface_addresses);
  agree_mac : sc.(sc_mac) = true → c.(source_mac_address) = c'.(source_mac_address);
  agree_hostname : sc.(sc_hostname) = true → c.(source_hostname) = c'.(source_hostname);
}.

Definition sub_scope (a b : LinuxMetadataScope) : Prop :=
  (a.(sc_process) = true → b.(sc_process) = true) ∧ (a.(sc_user) = true → b.(sc_user) = true) ∧
  (a.(sc_interface) = true → b.(sc_interface) = true) ∧ (a.(sc_network) = true → b.(sc_network) = true) ∧
  (a.(sc_mac) = true → b.(sc_mac) = true) ∧ (a.(sc_hostname) = true → b.(sc_hostname) = true).

#[global] Instance sub_scope_trans : Transitive sub_scope.
Proof. unfold sub_scope. intros a b c. naive_solver. Qed.

Lemma sub_scope_refl a : sub_scope a a.
Proof. unfold sub_scope. naive_solver. Qed.

Lemma union_scope_l a b : sub_scope a (union_scope a b).
Proof. unfold sub_scope, union_scope; cbn. rewrite !orb_true_iff. naive_solver. Qed.

Lemma union_scope_r a b : sub_scope b (union_scope a b).
Proof. unfold sub_scope, union_scope; cbn. rewrite !orb_true_iff. naive_solver. Qed.

Lemma agree_sub a b c c' : sub_scope a b → agree b c c' → agree a c c'.
Proof. intros (?&?&?&?&?&?) []. split; auto. Qed.

Section fold.
Context {A} (f : A → LinuxMetadataScope).

Lemma fold_scope_init l sc : sub_scope sc (fold_left (λ sc x, union_scope sc (f x)) l sc).
Proof.
  revert sc. induction l as [|x l IH]; intros sc; cbn; [apply sub_scope_refl|].
  etrans; [apply union_scope_l|apply IH].
Qed.

Lemma fold_scope_elem l sc x : x ∈ l → sub_scope (f x) (fold_left (λ sc x, union_scope sc (f x)) l sc).
Proof.
  revert sc. induction l as [|y l IH]; intros sc; [by intros ?%not_elem_of_nil|].
  intros [->|Hx]%elem_of_cons; cbn; [|by apply IH].
  etrans; [apply union_scope_r|apply fold_scope_init].
Qed.

Lemma fold_sets_init sets sc :
  sub_scope sc (fold_left (λ sc set, fold_left (λ sc x, union_scope sc (f x)) set sc) sets sc).
Proof.
  revert sc. induction sets as [|s sets IH]; intros sc; cbn; [apply sub_scope_refl|].
  etrans; [apply fold_scope_init|apply IH].
Qed.

Lemma fold_sets_elem sets sc s x :
  s ∈ sets → x ∈ s →
  sub_scope (f x) (fold_left (λ sc set, fold_left (λ sc x, union_scope sc (f x)) set sc) sets sc).
Proof.
  revert sc. induction sets as [|t sets IH]; intros sc; [by intros ?%not_elem_of_nil|].
  intros [->|Hs]%elem_of_cons Hx; cbn; [|by apply IH].
  etrans; [by apply fold_scope_elem|apply fold_sets_init].
Qed.

End fold.

(** The scope of a rule without its nested rules. *)
Definition own_scope (r : CompiledRule) : LinuxMetadataScope := mkScope
  (nonempty r.(process_names) || nonempty r.(process_paths) || nonempty r.(process_path_regexes)
   || nonempty r.(package_names) || nonempty r.(package_name_regexes))
  (nonempty r.(users) || nonempty r.(user_ids))
  (negb (bool_decide (r.(rule_interface_addresses) = ∅))
   || negb (bool_decide (r.(rule_network_interface_addresses) = ∅)))
  (nonempty r.(network_types) || r.(is_expensive) || r.(is_constrained) || nonempty r.(wifi_ssids)
   || nonempty r.(wifi_bssids) || nonempty r.(rule_default_interface_addresses))
  (nonempty r.(source_mac_addresses))
  (nonempty r.(source_hostnames)).

Lemma metadata_scope_sub r :
  sub_scope (own_scope r) (metadata_scope r) ∧
  (∀ x, x ∈ r.(logical_rules) → sub_scope (metadata_scope x) (metadata_scope r)) ∧
  (∀ s x, s ∈ r.(rule_sets) → x ∈ s → sub_scope (metadata_scope x) (metadata_scope r)).
Proof.
  assert (metadata_scope r =
    fold_left (λ sc set, fold_left (λ sc x, union_scope sc (metadata_scope x)) set sc) r.(rule_sets)
      (fold_left (λ sc x, union_scope sc (metadata_scope x)) r.(logical_rules) (own_scope r))) as ->
    by (by destruct r).
  split_and!.
  - etrans; [apply (fold_scope_init metadata_scope)|apply (fold_sets_init metadata_scope)].
  - intros x Hx. etrans; [by apply (fold_scope_elem metadata_scope)|apply (fold_sets_init metadata_scope)].
  - intros st x Hs Hx. by eapply (fold_sets_elem metadata_scope).
Qed.

Lemma match_field_same l a a' : (nonempty l = true → a = a') → match_field l a = match_field l a'.
Proof. destruct l; [done|]. intros ->; done. Qed.

Lemma or_empty_same {A} (l : list A) b b' :
  (nonempty l = true → b = b') → or_empty l b = or_empty l b'.
Proof. destruct l; [done|]. intros ->; done. Qed.

Lemma address_map_same m a a' :
  (bool_decide (m = ∅) = false → a = a') → address_map_matches m a = address_map_matches m a'.
Proof. unfold address_map_matches. destruct (bool_decide _); [done|]. intros ->; done. Qed.

Lemma match_metadata_agree r c c' : agree (own_scope r) c c' → match_metadata r c = match_metadata r c'.
Proof.
  intros [_ Hp Hu Hi Hn Hm Hh]. unfold own_scope in *; cbn in *. unfold match_metadata.
  rewrite !orb_true_iff in *. rewrite !negb_true_iff in Hi.
  repeat apply (f_equal2 andb);
    first [apply match_field_same | apply or_empty_same | apply address_map_same
          | destruct (is_expensive r) eqn:?; [cbn|done] | destruct (is_constrained r) eqn:?; [cbn|done]];
    try intros Hne;
    first [destruct Hp as (? & ? & ?); [tauto|congruence] | destruct Hu as (? & ?); [tauto|congruence]
          | destruct Hi as (? & ?); [tauto|congruence]
          | destruct Hn as (? & ? & ? & ? & ? & ?); [tauto|congruence] | auto].
Qed.

(** Matching a rule depends only on the metadata of its scope. *)
Lemma matches_agree r c c' d : agree (metadata_scope r) c c' → matches r c d = matches r c' d.
Proof.
  revert c c'. induction r as [r IHl IHs] using CompiledRule_nested_ind. intros c c' Ha.
  rewrite Forall_forall in IHl. destruct (metadata_scope_sub r) as (Ho & Hl & Hs).
  rewrite !matches_eq. destruct (logical_mode r) as [[|]|]; f_equal.
  - apply forallb_ext_in. intros x Hx. apply IHl; [done|]. eapply agree_sub; [by apply Hl|done].
  - apply existsb_ext_in. intros x Hx. apply IHl; [done|]. eapply agree_sub; [by apply Hl|done].
  - pose proof (agree_core _ _ _ Ha) as Hcore.
    assert (match_destination r c = match_destination r c') as ->
      by exact (f_equal (match_destination r) Hcore).
    assert (match_connection r c = match_connection r c') as ->
      by exact (f_equal (match_connection r) Hcore).
    rewrite (match_metadata_agree r c c') by (by eapply agree_sub).
    f_equal. f_equal. apply existsb_ext_in. intros st Hst. apply existsb_ext_in. intros x Hx.
    apply (Forall_nested _ _ st x IHs); [done..|].
    assert (agree (metadata_scope x) c c') as Hax by (eapply agree_sub; [by eapply Hs|done]).
    destruct (rule_set_ip_cidr_match_source r); [|done].
    destruct Hax. split; cbn; try done. exact (f_equal source_context agree_core0).
Qed.

(** Metadata outside the scope is never missed: the router may skip
    collecting the process, user, interface, network, MAC or host name data
    that [linux_metadata_scope] does not list, since no rule's match, and so no
    lookup, depends on it. *)
Theorem metadata_scope_sound rt c c' from :
  agree (linux_metadata_scope rt) c c' → next_action rt c from = next_action rt c' from.
Proof.
  intros Ha. unfold next_action.
  assert (c.(domain) = c'.(domain)) as -> by exact (f_equal domain (agree_core _ _ _ Ha)).
  assert (∀ r, r ∈ rules rt → agree (metadata_scope r) c c') as Hr.
  { intros r Hr. eapply agree_sub; [|exact Ha]. by apply (fold_scope_elem metadata_scope). }
  assert (∀ r, r ∈ drop from (rules rt) → agree (metadata_scope r) c c') as Hd.
  { intros r Hin. eapply Hr, subseteq_drop, Hin. }
  revert Hd. generalize from at 2 4 as i.
  induction (drop from (rules rt)) as [|r rs IH]; intros i Hd; [done|]. cbn [find_rule].
  rewrite (matches_agree r c c') by (apply Hd; left). destruct (matches r c' _); [done|].
  apply IH. intros x Hx. apply Hd. by right.
Qed.

End facts.

(** ** Two limits of the matching *)

#[local] Existing Instance Cidr.lib.
#[local] Existing Instance Literal.regex.

(** A rule with domain suffixes, destination networks and rule-sets. *)
Definition simple_rule (suffix cidr sets : list str) (match_source inv : bool) (outbound : str)
    : RouteRule :=
  mkRouteRule [] None [] [] suffix [] [] [] [] [] cidr [] false false [] [] [] [] [] [] [] [] [] [] []
    [] [] [] [] [] [] None [] false false [] [] [] [] [] [] [] [] sets match_source (Some outbound)
    None inv default_options [] None None None false None None None false.

Definition no_env : RuleSetEnv :=
  mkEnv (λ _, None) (λ _ _, None) (λ _ _ _, false) (λ _, None) (λ _, Err "") (λ _, Err "").

Definition simple_config (rs : list RouteRule) (sets : list RuleSetConfig) : RouteConfig :=
  mkRouteConfig rs sets None None None None None None None None.

Definition simple_router (rs : list RouteRule) (sets : list RuleSetConfig) : result Router :=
  compile_inner no_env (simple_config rs sets) (lit "direct") false None.

Definition domain_context (d : str) (source : option IpAddr) (ips : list IpAddr) : RouteContext :=
  mkContext (Some d) None ips None source None None None None None None None None None None None
    None None false false None None None None None None [] [].

Definition get_router (r : result Router) : Router :=
  match r with Ok rt => rt | _ => mkRouter [] ∅ [] default_options None end.

Definition inverted_router : Router := Eval vm_compute in get_router
  (simple_router [simple_rule [] [lit "10.0.0.0/8"] [] false true (lit "proxy")] []).

Definition lan_set : RuleSetConfig :=
  mkRuleSet (lit "inline") (lit "lan") None None None None None
    [simple_rule [] [lit "10.0.0.0/8"] [] false false []].

Definition source_router : Router := Eval vm_compute in get_router
  (simple_router [simple_rule [] [] [lit "lan"] true false (lit "proxy")] [lan_set]).

(** An inverted rule is taken without the address it asks for: the rule
    "not in 10.0.0.0/8" matches a connection known by its domain alone, because
    the missing address fails the inner condition before the lookup considers
    resolving; with the address 10.0.0.1 the rule does not match. *)
Theorem inverted_rule_skips_resolution :
  let c := domain_context (lit "host.lan") None [] in
  ∃ rt, simple_router [simple_rule [] [lit "10.0.0.0/8"] [] false true (lit "proxy")] [] = Ok rt ∧
    next_action_lazy rt c 0 = Action 0 (Route (Outbound (lit "proxy")) default_options) ∧
    next_action rt (with_ips c [V4 0x0a000001]) 0 = None.
Proof. exists inverted_router. split_and!; reflexivity. Qed.

(** [rule_set_ip_cidr_match_source] still looks at the destination: the
    rule-set's rules see the source in the place of the destination address,
    but the resolved destination addresses stay in the context, so a network
    that holds the destination and not the source matches. *)
Theorem match_source_sees_destination :
  let c := domain_context (lit "host.lan") (Some (V4 0xc0a80101)) [V4 0x0a000001] in
  ∃ rt, simple_router [simple_rule [] [] [lit "lan"] true false (lit "proxy")] [lan_set] = Ok rt ∧
    next_action rt c 0 = Some (0%nat, Route (Outbound (lit "proxy")) default_options) ∧
    next_action rt (with_ips c []) 0 = None.
Proof. exists source_router. split_and!; reflexivity. Qed.

(** ** The theorems at concrete routers *)

Definition sample_rules : list RouteRule :=
  [simple_rule [lit "example.org"] [lit "10.0.0.0/8"] [] false false (lit "lan");
   simple_rule [] [lit "192.168.0.0/16"] [] false false (lit "home")].

Definition sample_router : Router := Eval vm_compute in get_router (simple_router sample_rules []).

Lemma sample_router_eq : simple_router sample_rules [] = Ok sample_router.
Proof. reflexivity. Qed.

Lemma lazy_resolution_equiv_witness :
  resolve_and_retry sample_router (domain_context (lit "a.example.org") None []) [V4 0xc0a80101] 0
  = next_action sample_router
      (with_ips (domain_context (lit "a.example.org") None []) [V4 0xc0a80101]) 0.
Proof.
  apply (lazy_resolution_equiv no_env (simple_config sample_rules []) (lit "direct") false None
           sample_router); [exact sample_router_eq|reflexivity|by eexists|done].
Defined.

Definition with_process (c : RouteContext) (name : str) : RouteContext :=
  mkContext c.(domain) c.(destination_ip) c.(destination_ips) c.(destination_port) c.(source_ip)
    c.(source_port) c.(network) c.(protocol) c.(client) c.(inbound) c.(auth_user) (Some name)
    c.(process_path) c.(package_name) c.(user) c.(user_id) c.(clash_mode) c.(network_type)
    c.(network_is_expensive) c.(network_is_constrained) c.(wifi_ssid) c.(wifi_bssid)
    c.(interface_addresses) c.(network_interface_addresses) c.(source_mac_address)
    c.(source_hostname) c.(default_interface_addresses) c.(preferred_by).

Lemma metadata_scope_sound_witness :
  next_action sample_router (domain_context (lit "b.org") None [V4 0xc0a80101]) 0
  = next_action sample_router
      (with_process (domain_context (lit "b.org") None [V4 0xc0a80101]) (lit "curl")) 0.
Proof. apply (metadata_scope_sound sample_router). by split. Defined.
