(* ===== verification/DnsRule.v ===== *)
(** * DNS rules and predefined records (src/src/dns/message.rs)

    The rules that choose what happens to a DNS query: their validation and
    compilation, matching, the limits on the addresses of a response, and the
    records that a [predefined] rule answers with. *)

From S2P Require Import Prelude RustStr Net DnsMessage DnsReply Routing.

#[local] Set Warnings "-register-all".

(** ** Data *)

(** [serde_json::Value]; a number is known by its [as_u64]. *)
Inductive Value :=
  | Null
  | Bool (b : bool)
  | Number (n : option Z)
  | String (s : str)
  | Array (l : list Value)
  | Object (fields : list (str * Value)).

Definition as_u64 (v : Value) : option Z := match v with Number n => n | _ => None end.
Definition as_str (v : Value) : option str := match v with String s => Some s | _ => None end.
Definition as_bool (v : Value) : option bool := match v with Bool b => Some b | _ => None end.

(** [singbox::DnsRule] *)
Record RuleFields := mkFields {
  f_type : str;
  f_mode : option str;
  f_query_type : list Value;
  f_domain : list str;
  f_domain_suffix : list str;
  f_domain_keyword : list str;
  f_domain_regex : list str;
  f_rule_set : list str;
  f_server : option str;
  f_action : option str;
  f_outbound : option str;
  f_invert : bool;
  f_strategy : option str;
  f_disable_cache : bool;
  f_disable_optimistic_cache : bool;
  f_rewrite_ttl : option Z;
  f_timeout : option str;
  f_client_subnet : option str;
  f_method : option str;
  f_no_drop : bool;
  f_rcode : option Value;
  f_answer : list str;
  f_ns : list str;
  f_extra : list str;
}.

(** The fields of a rule, and its nested rules. *)
Inductive DnsRule := mkDnsRule (fields : RuleFields) (rules : list DnsRule).

Definition fields (r : DnsRule) : RuleFields := let '(mkDnsRule f _) := r in f.
Definition nested (r : DnsRule) : list DnsRule := let '(mkDnsRule _ l) := r in l.

(** ** Values *)

Definition is_one_of (s : str) (l : list string) : bool := existsb (λ x, str_eqb s (lit x)) l.

(** [matches!(o, None | Some("..") | ..)] *)
Definition none_or_one_of (o : option str) (l : list string) : bool :=
  match o with None => true | Some s => is_one_of s l end.

Definition named (table : list (string * Z)) (s : str) : option Z :=
  snd <$> List.find (λ e, str_eqb s (lit e.1)) table.

Definition query_types : list (string * Z) :=
  [("A", 1); ("NS", 2); ("CNAME", 5); ("SOA", 6); ("PTR", 12); ("MX", 15); ("TXT", 16);
   ("AAAA", 28); ("SRV", 33); ("OPT", 41); ("SVCB", 64); ("HTTPS", 65); ("CAA", 257)]%string.

Definition parse_query_type (v : Value) : result Z :=
  match as_u64 v with
  | Some n => context (try_uint 16 n) "DNS query_type number exceeds 65535"
  | None =>
    s ← context (as_str v) "DNS query_type must be a number or string";
    match parse_uint 16 s with
    | Some n => Ok n
    | None => context (named query_types (to_ascii_uppercase s)) "unsupported DNS query_type name"
    end
  end.

Definition rcodes : list (string * Z) :=
  [("NOERROR", 0); ("FORMERR", 1); ("SERVFAIL", 2); ("NXDOMAIN", 3); ("NOTIMP", 4); ("REFUSED", 5)]%string.

Definition parse_rcode (v : option Value) : result Z :=
  match v with
  | None => Ok 0
  | Some v =>
    match as_u64 v with
    | Some n => context (try_uint 8 n) "DNS rcode exceeds 255"
    | None =>
      s ← context (as_str v) "DNS rcode must be a number or string";
      context (named rcodes s) "unsupported DNS rcode"
    end
  end.

Definition validate_strategy (s : option str) : result unit :=
  if none_or_one_of s [""; "prefer_ipv4"; "prefer_ipv6"; "ipv4_only"; "ipv6_only"]%string then Ok tt
  else Err "unsupported DNS strategy".

Definition optimistic_enabled (v : Value) : bool :=
  match v with
  | Bool b => b
  | Object l =>
    default true (e ← List.find (λ e, str_eqb e.1 (lit "enabled")) l; as_bool e.2)
  | Null => false
  | _ => true
  end.

(** ** Records *)

Record PredefinedRecord := mkRecord {
  owner : str;
  ttl : Z;
  kind : Z;
  rdata : bytes;
}.

Definition is_dot : Z → bool := Z.eqb c_dot.

Definition encode_name (name : str) : result bytes :=
  let name := trim_end_matches is_dot name in
  match name with
  | [] => Ok [0]
  | _ => b ← encode_labels (split c_dot name) "invalid DNS record name"; Ok (b ++ [0])
  end.

(** [tokens.next().context(msg)] *)
Definition next (tokens : list str) (msg : string) : result (str * list str) :=
  match tokens with t :: tokens => Ok (t, tokens) | [] => Err msg end.

(** [tokens.next().context(..)?.parse().context(..)?] into a [w]-bit integer,
    as its bytes. *)
Definition next_uint (w : Z) (tokens : list str) (missing invalid : string)
    : result (bytes * list str) :=
  '(t, tokens) ← next tokens missing;
  v ← context (parse_uint w t) invalid;
  Ok (to_be (Z.to_nat (w / 8)) v, tokens).

Fixpoint next_uints (n : nat) (w : Z) (tokens : list str) (missing invalid : string)
    : result (bytes * list str) :=
  match n with
  | O => Ok ([], tokens)
  | S n =>
    '(b, tokens) ← next_uint w tokens missing invalid;
    '(bs, tokens) ← next_uints n w tokens missing invalid;
    Ok (b ++ bs, tokens)
  end.

(** The strings of a TXT record *)
Fixpoint txt_data (tokens : list str) : result bytes :=
  match tokens with
  | [] => Ok []
  | t :: tokens =>
    let text := trim_matches (Z.eqb c_quote) t in
    if (255 <? length text)%nat then Err "TXT record string exceeds 255 bytes" else
    data ← txt_data tokens;
    Ok (Z.of_nat (length text) :: text ++ data)
  end.

Definition record_data (kind : str) (tokens : list str) : result bytes :=
  if str_eqb kind (lit "A") then
    '(t, _) ← next tokens "A record is missing an address";
    ip ← context (parse_ip t) "invalid A record address";
    match ip with V4 a => Ok (to_be 4 a) | V6 _ => Err "A record requires an IPv4 address" end
  else if str_eqb kind (lit "AAAA") then
    '(t, _) ← next tokens "AAAA record is missing an address";
    ip ← context (parse_ip t) "invalid AAAA record address";
    match ip with V6 a => Ok (to_be 16 a) | V4 _ => Err "AAAA record requires an IPv6 address" end
  else if is_one_of kind ["CNAME"; "NS"; "PTR"]%string then
    '(t, _) ← next tokens "record is missing a name"; encode_name t
  else if str_eqb kind (lit "TXT") then
    data ← txt_data tokens;
    match data with [] => Err "TXT record requires at least one string" | _ => Ok data end
  else if str_eqb kind (lit "MX") then
    '(pref, tokens) ← next_uint 16 tokens "MX record is missing a preference" "invalid MX preference";
    '(t, _) ← next tokens "MX record is missing an exchange";
    name ← encode_name t;
    Ok (pref ++ name)
  else if str_eqb kind (lit "SOA") then
    '(t, tokens) ← next tokens "SOA record is missing mname";
    mname ← encode_name t;
    '(t, tokens) ← next tokens "SOA record is missing rname";
    rname ← encode_name t;
    '(b, _) ← next_uints 5 32 tokens "SOA record is missing a numeric field" "invalid SOA numeric field";
    Ok (mname ++ rname ++ b)
  else if str_eqb kind (lit "SRV") then
    '(b, tokens) ← next_uints 3 16 tokens "SRV record is missing a numeric field" "invalid SRV numeric field";
    '(t, _) ← next tokens "SRV record is missing a target";
    name ← encode_name t;
    Ok (b ++ name)
  else if str_eqb kind (lit "CAA") then
    '(flags, tokens) ← next_uint 8 tokens "CAA record is missing flags" "invalid CAA flags";
    '(tag, tokens) ← next tokens "CAA record is missing a tag";
    '(value, _) ← next tokens "CAA record is missing a value";
    Ok (flags ++ [Z.of_nat (length tag) mod 256] ++ tag ++ trim_matches (Z.eqb c_quote) value)
  else Err "unsupported DNS record type".

Definition record_kinds : list (string * Z) :=
  [("A", 1); ("NS", 2); ("CNAME", 5); ("SOA", 6); ("PTR", 12); ("MX", 15); ("TXT", 16);
   ("AAAA", 28); ("SRV", 33); ("CAA", 257)]%string.

Definition parse_dns_record (record : str) : result PredefinedRecord :=
  '(owner, tokens) ← next (split_whitespace record) "empty DNS record";
  let owner := trim_end_matches is_dot owner in
  '(first, rest) ← next tokens "DNS record is missing fields";
  '(ttl, tokens) ←
    match parse_uint 32 first with
    | Some ttl => Ok (ttl, rest)
    | None =>
      if is_one_of first ["IN"; "CH"; "HS"; "A"; "AAAA"; "CNAME"; "NS"; "PTR"; "MX"; "SOA"; "TXT";
                          "SRV"; "CAA"]%string
      then Ok (3600, first :: rest) else Err "invalid DNS record TTL"
    end;
  '(class, tokens) ← next tokens "DNS record is missing a class";
  if negb (str_eqb class (lit "IN")) then Err "unsupported DNS record class" else
  '(kind, tokens) ← next tokens "DNS record is missing a type";
  rdata ← record_data kind tokens;
  match named record_kinds kind with
  | Some k => Ok (mkRecord owner ttl k rdata)
  | None => Panic
  end.

(** The name a record is written with, if it applies to the query. *)
Definition record_owner (query_name : str) (r : PredefinedRecord) : option str :=
  match strip_prefix [c_star] r.(owner) with
  | Some remainder =>
    let remainder := trim_start_matches is_dot remainder in
    if match remainder with [] => true | _ => ends_with (c_dot :: remainder) query_name end
    then Some query_name else None
  | None => Some r.(owner)
  end.

Definition write_record (owner : str) (r : PredefinedRecord) : result bytes :=
  name ← encode_name owner;
  Ok (name ++ to_be 2 r.(kind) ++ to_be 2 1 ++ to_be 4 r.(ttl) ++
      to_be 2 (Z.of_nat (length r.(rdata)) mod 2 ^ 16) ++ r.(rdata)).

(** The loop of [predefined_response]; [written] panics when it overflows in a
    build with overflow checks. *)
Fixpoint write_records (checks : bool) (query_name : str) (records : list PredefinedRecord)
    (response : bytes) (written : Z) : result (bytes * Z) :=
  match records with
  | [] => Ok (response, written)
  | r :: records =>
    match record_owner query_name r with
    | None => write_records checks query_name records response written
    | Some owner =>
      b ← write_record owner r;
      w ← (if written + 1 <? 2 ^ 16 then Ok (written + 1) else if checks then Panic else Ok 0);
      write_records checks query_name records (response ++ b) w
    end
  end.

Definition predefined_response (checks : bool) (request : bytes) (question_end : nat) (rcode : Z)
    (records : list PredefinedRecord) : result bytes :=
  '(query_name, _, _) ← parse_question request;
  response ← context (slice_get request 0 question_end) "truncated DNS question";
  response ← store response 2 133;
  response ← store response 3 (Z.lor 128 (Z.land rcode 15));
  response ← copy_from_slice response 6 [0; 0; 0; 0; 0; 0];
  '(response, written) ← write_records checks query_name records response 0;
  copy_from_slice response 6 (to_be 2 written).

(** ** Rules *)

Section rules.
Context `{N : IpNetLib} `{R : RegexLib}.

Inductive CompiledDnsRule := mkCompiled {
  raw : DnsRule;
  query_type : list Z;
  d_domains : list str;
  d_suffixes : list str;
  d_keywords : list str;
  d_regexes : list Regex;
  logical : option (LogicalMode * list CompiledDnsRule);
}.

Fixpoint compile (rule : DnsRule) : result CompiledDnsRule :=
  let '(mkDnsRule f rules) := rule in
  query_type ← map_result parse_query_type f.(f_query_type);
  regexes ← map_result (λ v, context (regex_new v) "invalid DNS domain_regex") f.(f_domain_regex);
  logical ←
    (if str_eqb f.(f_type) (lit "logical") then
       let m := default (lit "and") f.(f_mode) in
       mode ← (if str_eqb m (lit "and") then Ok And else if str_eqb m (lit "or") then Ok Or
               else Err "unsupported logical DNS mode");
       l ← map_result compile rules;
       Ok (Some (mode, l))
     else Ok None);
  Ok (mkCompiled rule query_type (normalize <$> f.(f_domain)) (normalize <$> f.(f_domain_suffix))
        (to_ascii_lowercase <$> f.(f_domain_keyword)) regexes logical).

Abbreviation rule_set_map := (gmap str (list CompiledRule)).

Definition rf (r : CompiledDnsRule) : RuleFields := fields r.(raw).

(** The part of [matches] of a rule that is not logical. *)
Definition plain_matches (r : CompiledDnsRule) (name : str) (qtype : Z) (sets : option rule_set_map)
    : bool :=
  or_empty r.(query_type) (existsb (Z.eqb qtype) r.(query_type))
  && or_empty r.(d_domains) (existsb (λ v, str_eqb v name) r.(d_domains))
  && or_empty r.(d_suffixes)
       (existsb (λ v, str_eqb name v || is_some_and (strip_suffix v name) (ends_with [c_dot])) r.(d_suffixes))
  && or_empty r.(d_keywords) (existsb (λ v, contains v name) r.(d_keywords))
  && or_empty r.(d_regexes) (any_regex r.(d_regexes) name)
  && or_empty (rf r).(f_rule_set)
       (is_some_and sets (λ sets, existsb (λ tag,
          is_some_and (sets !! tag) (existsb (λ x, dns_matches_domain x name || dns_contains_ip_cidr x)))
          (rf r).(f_rule_set))).

Fixpoint matches (r : CompiledDnsRule) (name : str) (qtype : Z) (sets : option rule_set_map) : bool :=
  match r.(logical) with
  | Some (And, rules) =>
    maybe_not (rf r).(f_invert) (forallb (λ x, matches x name qtype sets) rules)
  | Some (Or, rules) =>
    maybe_not (rf r).(f_invert) (existsb (λ x, matches x name qtype sets) rules)
  | None => maybe_not (rf r).(f_invert) (plain_matches r name qtype sets)
  end.

Definition limited_tag (sets : rule_set_map) (tag : str) : bool :=
  is_some_and (sets !! tag) (existsb dns_contains_ip_cidr).

Fixpoint dns_rule_has_address_limit (r : CompiledDnsRule) (sets : option rule_set_map) : bool :=
  match r.(logical) with
  | Some (_, rules) => existsb (λ x, dns_rule_has_address_limit x sets) rules
  | None => is_some_and sets (λ sets, existsb (limited_tag sets) (rf r).(f_rule_set))
  end.

Definition sets_match (r : CompiledDnsRule) (name : str) (addresses : list IpAddr)
    (sets : option rule_set_map) : bool :=
  match sets with
  | None => true
  | Some sets =>
    existsb (λ tag, is_some_and (sets !! tag) (existsb (λ x,
      existsb (λ a, dns_matches_address x a (Some name)) addresses))) (rf r).(f_rule_set)
  end.

Fixpoint dns_rule_address_limit_matches (r : CompiledDnsRule) (name : str) (addresses : list IpAddr)
    (sets : option rule_set_map) : bool :=
  match r.(logical) with
  | Some (And, rules) =>
    maybe_not (rf r).(f_invert)
      (forallb (λ x, dns_rule_address_limit_matches x name addresses sets) rules)
  | Some (Or, rules) =>
    maybe_not (rf r).(f_invert)
      (existsb (λ x, dns_rule_address_limit_matches x name addresses sets) rules)
  | None => maybe_not (rf r).(f_invert) (sets_match r name addresses sets)
  end.

(** The checks of [validate_dns_rule] after those on the nested rules *)
Definition validate_fields (f : RuleFields) (top_level : bool) : result unit :=
  _ ← iter_result (λ v, _ ← context (regex_new v) "invalid DNS domain_regex"; Ok tt) f.(f_domain_regex);
  _ ← iter_result (λ v, _ ← parse_query_type v; Ok tt) f.(f_query_type);
  if negb top_level && is_some_and f.(f_action) nonempty then
    Err "nested logical DNS rules cannot contain actions"
  else if negb (none_or_one_of f.(f_action) [""; "route"; "reject"; "predefined"]%string) then
    Err "unsupported DNS rule action"
  else
  _ ← (if bool_decide (f.(f_action) = Some (lit "predefined")) then
         _ ← parse_rcode f.(f_rcode);
         iter_result (λ r, _ ← parse_dns_record r; Ok tt) (f.(f_answer) ++ f.(f_ns) ++ f.(f_extra))
       else Ok tt);
  if bool_decide (f.(f_action) = Some (lit "reject"))
     && negb (none_or_one_of f.(f_method) [""; "default"; "drop"]%string) then
    Err "unsupported DNS reject method"
  else
  _ ← match f.(f_client_subnet) with
      | Some subnet => _ ← parse_client_subnet subnet; Ok tt
      | None => Ok tt
      end;
  validate_strategy f.(f_strategy).

Section iter_nested.
Context (validate : DnsRule → result unit).
Fixpoint iter_nested (l : list DnsRule) : result unit :=
  match l with [] => Ok tt | r :: l => _ ← validate r; iter_nested l end.
End iter_nested.

Fixpoint validate_dns_rule (rule : DnsRule) (top_level : bool) : result unit :=
  let '(mkDnsRule f rules) := rule in
  _ ← (if str_eqb f.(f_type) (lit "logical") then
         if negb (bool_decide (f.(f_mode) = Some (lit "and"))
                  || bool_decide (f.(f_mode) = Some (lit "or"))) then
           Err "logical DNS rule requires mode and/or"
         else if negb (nonempty rules) then Err "logical DNS rule requires nested rules"
         else iter_nested (λ r, validate_dns_rule r false) rules
       else if negb (is_one_of f.(f_type) [""; "default"]%string) then
         Err "unsupported DNS rule type"
       else Ok tt);
  validate_fields f top_level.

End rules.

(** ** Validation *)

Section facts.
Context `{N : IpNetLib} `{R : RegexLib}.

Lemma DnsRule_nested_ind (P : DnsRule → Prop) :
  (∀ f rules, Forall P rules → P (mkDnsRule f rules)) → ∀ r, P r.
Proof.
  intros H. fix IH 1. intros [f rules]. apply H.
  induction rules as [|r rules IHr]; constructor; [apply IH|exact IHr].
Qed.

Lemma iter_result_map {A B} (f : A → result B) l :
  iter_result (λ a, _ ← f a; Ok tt) l = Ok tt → ∃ bs, map_result f l = Ok bs.
Proof.
  intros H%iter_result_Ok. induction l as [|a l IH]; [by exists []|].
  apply Forall_cons in H as [Ha Hl]. apply bind_Ok in Ha as (b & Hb & _).
  destruct (IH Hl) as [bs Hbs]. exists (b :: bs). cbn. by rewrite Hb; cbn; rewrite Hbs.
Qed.

(** What the checks on the fields give. *)
Lemma validate_fields_Ok f top :
  validate_fields f top = Ok tt →
  (∃ l, map_result (λ v, context (regex_new v) "invalid DNS domain_regex") f.(f_domain_regex) = Ok l) ∧
  (∃ l, map_result parse_query_type f.(f_query_type) = Ok l) ∧
  (f.(f_action) = Some (lit "predefined") → (∃ c, parse_rcode f.(f_rcode) = Ok c) ∧
    ∃ l, map_result parse_dns_record (f.(f_answer) ++ f.(f_ns) ++ f.(f_extra)) = Ok l) ∧
  (∀ s, f.(f_client_subnet) = Some s → ∃ n, parse_client_subnet s = Ok n) ∧
  validate_strategy f.(f_strategy) = Ok tt.
Proof.
  unfold validate_fields. intros H. apply bind_Ok in H as ([] & H1 & H).
  apply bind_Ok in H as ([] & H2 & H). apply iter_result_map in H1, H2.
  destruct (negb top && _); [done|]. destruct (negb (none_or_one_of _ _)); [done|].
  apply bind_Ok in H as ([] & H3 & H). destruct (_ && _); [done|].
  apply bind_Ok in H as ([] & H4 & H). split_and!; [done|done| | |done].
  - intros Ha. rewrite bool_decide_true in H3 by done. apply bind_Ok in H3 as (c & Hc & H3).
    split; [by exists c|]. by apply iter_result_map in H3.
  - intros s Hs. rewrite Hs in H4. apply bind_Ok in H4 as (n & Hn & _). eauto.
Qed.

Lemma iter_nested_Ok v l : iter_nested v l = Ok tt → Forall (λ r, v r = Ok tt) l.
Proof.
  induction l as [|r l IH]; cbn; [constructor|]. intros ([] & H1 & H2)%bind_Ok. constructor; auto.
Qed.

Lemma map_result_total {A B} (f : A → result B) l :
  Forall (λ a, ∃ b, f a = Ok b) l → ∃ bs, map_result f l = Ok bs.
Proof.
  induction 1 as [|a l [b Hb] _ [bs Hbs]]; [by exists []|].
  exists (b :: bs). cbn. by rewrite Hb; cbn; rewrite Hbs.
Qed.

(** A validated rule compiles. *)
Lemma validate_compile rule top :
  validate_dns_rule rule top = Ok tt → ∃ c, compile rule = Ok c ∧ c.(raw) = rule.
Proof.
  revert top. induction rule as [f rules IH] using DnsRule_nested_ind. intros top H.
  cbn [validate_dns_rule] in H. apply bind_Ok in H as ([] & Hl & Hf).
  apply validate_fields_Ok in Hf as ([rs Hrs] & [qs Hqs] & _).
  cbn [compile]. rewrite Hqs; cbn [mbind result_bind]. rewrite Hrs; cbn [mbind result_bind].
  destruct (str_eqb (f_type f) (lit "logical")); [|by eexists].
  destruct (negb (_ || _)) eqn:Em; [done|]. destruct (negb (nonempty rules)); [done|].
  apply iter_nested_Ok in Hl.
  assert (∃ l, map_result compile rules = Ok l) as [l Hls].
  { apply map_result_total, Forall_forall. intros r Hr.
    pose proof (proj1 (Forall_forall _ _) IH r Hr) as IHr.
    destruct (IHr false (proj1 (Forall_forall _ _) Hl r Hr)) as (c & Hc & _). eauto. }
  apply negb_false_iff, orb_true_iff in Em. rewrite !bool_decide_eq_true in Em.
  destruct Em as [-> | ->]; cbn [default from_option]; cbn; rewrite Hls; by eexists.
Qed.

(** What a rule answers without asking a server. *)
Definition answerable (f : RuleFields) : Prop :=
  f.(f_action) = Some (lit "predefined") →
  (∃ c, parse_rcode f.(f_rcode) = Ok c) ∧
  ∃ l, map_result parse_dns_record (f.(f_answer) ++ f.(f_ns) ++ f.(f_extra)) = Ok l.

(** A rule that passes validation compiles, and, if it answers with
    predefined records, its response code and its records parse, so the resolver
    never fails on the configuration of a rule it accepted. *)
Theorem validated_rule_usable rule :
  validate_dns_rule rule true = Ok tt →
  (∃ c, compile rule = Ok c ∧ c.(raw) = rule) ∧ answerable (fields rule) ∧
  validate_strategy (fields rule).(f_strategy) = Ok tt.
Proof.
  intros H. split; [by eapply validate_compile|]. destruct rule as [f rules].
  cbn [validate_dns_rule] in H. apply bind_Ok in H as ([] & _ & Hf).
  apply validate_fields_Ok in Hf as (_ & _ & Ha & _ & Hs). done.
Qed.

(** ** Address limits *)

(** A condition that only looks at the domain. *)
Definition no_rule_set (r : CompiledDnsRule) : Prop :=
  r.(logical) = None ∧ (rf r).(f_rule_set) = [] ∧ (rf r).(f_invert) = false.

(** A logical [and] rule with a nested condition on the domain alone refuses
    every response once rule-sets are loaded: the nested condition has no
    rule-set that an address could be in. *)
Theorem and_rule_refuses_responses r rules x name addresses sets :
  r.(logical) = Some (And, rules) → (rf r).(f_invert) = false → x ∈ rules → no_rule_set x →
  dns_rule_address_limit_matches r name addresses (Some sets) = false.
Proof.
  destruct r as [raw qt ds ss ks rs lg]. cbn [logical]. intros -> Hinv Hx (Hl & Hs & Hi).
  cbn [dns_rule_address_limit_matches]. cbn [logical]. rewrite Hinv. cbn [maybe_not].
  apply not_true_is_false. rewrite forallb_forall. intros Hall.
  apply list_elem_of_In in Hx. specialize (Hall x Hx).
  destruct x as [raw' qt' ds' ss' ks' rs' lg']. cbn [logical] in Hl. subst lg'.
  cbn [dns_rule_address_limit_matches logical] in Hall. unfold sets_match in Hall.
  by rewrite Hi, Hs in Hall.
Qed.


(** ** Predefined responses *)

Lemma skip_name_labels labels msg out pre post count fuel :
  encode_labels labels msg = Ok out → 0 ≤ count → 2 * count + Z.of_nat (length out) ≤ 254 →
  129 ≤ Z.of_nat fuel + count →
  skip_name_loop fuel (pre ++ out ++ 0 :: post) (length pre) count =
  Ok (length pre + length out + 1)%nat.
Proof.
  revert pre out count fuel. induction labels as [|l labels IH]; intros pre out count fuel H Hc Hlen Hf;
    cbn [encode_labels] in H.
  - injection H as <-. destruct fuel; [lia|]. cbn [skip_name_loop app length].
    rewrite lookup_app_cons by done. rewrite Z.eqb_refl. f_equal. lia.
  - destruct (_ || _) eqn:E; [done|]. bool_to_prop. apply bind_Ok in H as (rest & Hrest & [= <-]).
    destruct fuel; [lia|]. cbn [skip_name_loop].
    assert (0 < length l)%nat by (destruct l; [done|cbn; lia]).
    cbn [app]. rewrite lookup_app_cons by done.
    rewrite (proj2 (Z.eqb_neq _ 0)) by lia. rewrite land_label by lia.
    change (0 =? 192) with false. change (0 =? 0) with true. cbn [negb orb].
    rewrite (proj2 (Z.ltb_ge 63 _)) by lia. rewrite Nat2Z.id.
    cbn [length] in Hlen. rewrite length_app in Hlen.
    rewrite (proj2 (Nat.ltb_ge _ _)) by length_tac. rewrite (proj2 (Z.ltb_ge 127 _)) by lia.
    specialize (IH (pre ++ Z.of_nat (length l) :: l) rest (count + 1) fuel Hrest).
    rewrite length_app in IH. cbn [length] in IH. rewrite <- app_assoc in IH. cbn [app] in IH.
    replace (length pre + 1 + length l)%nat with (length pre + S (length l))%nat by lia.
    rewrite <- app_assoc. rewrite IH by lia. f_equal. length_tac.
Qed.

Lemma skip_encode_name o b pre post :
  encode_name o = Ok b → (length b ≤ 255)%nat →
  skip_name (pre ++ b ++ post) (length pre) = Ok (length pre + length b)%nat.
Proof.
  unfold encode_name, skip_name. intros H Hlen.
  assert (∃ out, b = out ++ [0] ∧ ∃ ls, encode_labels ls "invalid DNS record name" = Ok out) as (out & -> & ls & Hls).
  { destruct (trim_end_matches is_dot o); [injection H as <-; by exists []; split; [|exists []]|].
    apply bind_Ok in H as (out & Ho & [= <-]). eauto. }
  rewrite length_app in Hlen. cbn in Hlen. rewrite <- app_assoc. cbn [app].
  rewrite (skip_name_labels ls _ out) by (done || lia). f_equal. length_tac.
Qed.

Definition record_ok (r : PredefinedRecord) : Prop :=
  u32 r.(ttl) ∧ u16 r.(kind) ∧ Z.of_nat (length r.(rdata)) ≤ 65535.

(** The name is one that DNS can carry. *)
Definition name_ok (o : str) : Prop := ∃ b, encode_name o = Ok b ∧ (length b ≤ 255)%nat.

(** The records that apply to a query, with the names they are written with. *)
Definition applicable (name : str) (records : list PredefinedRecord) : list (str * PredefinedRecord) :=
  omap (λ r, (λ o, (o, r)) <$> record_owner name r) records.

Lemma length_applicable name records : (length (applicable name records) ≤ length records)%nat.
Proof.
  induction records as [|r records IH]; [done|]. cbn.
  destruct (record_owner name r); cbn; unfold applicable in IH; lia.
Qed.

Lemma write_records_spec checks name records response written :
  Forall (λ p, name_ok p.1) (applicable name records) →
  0 ≤ written → written + Z.of_nat (length records) < 2 ^ 16 →
  ∃ bs, Forall2 (λ p b, write_record p.1 p.2 = Ok b) (applicable name records) bs ∧
    write_records checks name records response written =
    Ok (response ++ concat bs, written + Z.of_nat (length (applicable name records))).
Proof.
  revert response written. induction records as [|r records IH]; intros response written Hn Hw Hlen.
  { exists []. split; [constructor|]. cbn. by rewrite app_nil_r, Z.add_0_r. }
  cbn [write_records applicable omap list_omap length] in *.
  destruct (record_owner name r) as [o|] eqn:Eo; cbn [fmap option_fmap option_map] in *.
  - apply Forall_cons in Hn as [(b & Hb & _) Hn]. cbn in Hb.
    assert (∃ w, write_record o r = Ok w) as [w Ew] by (unfold write_record; rewrite Hb; by eexists).
    destruct (IH (response ++ w) (written + 1) Hn) as (bs & Hbs & Heq); [lia..|].
    exists (w :: bs). split; [by constructor|]. rewrite Ew. cbn [mbind result_bind].
    rewrite (proj2 (Z.ltb_lt _ _)) by lia. cbn [mbind result_bind]. rewrite Heq.
    cbn [concat length]. rewrite <- app_assoc. do 2 f_equal. unfold applicable. lia.
  - destruct (IH response written Hn) as (bs & Hbs & Heq); [lia..|]. by exists bs.
Qed.

Lemma ttl_records_written ps bs pre :
  Forall (λ p, name_ok p.1 ∧ record_ok p.2) ps → Forall2 (λ p b, write_record p.1 p.2 = Ok b) ps bs →
  ∃ offs, ttl_records (length ps) (pre ++ concat bs) (length pre) = Ok offs ∧
    (λ o, (rec_type o, rec_ttl o)) <$> offs = (λ p, (p.2.(kind), p.2.(ttl))) <$> ps.
Proof.
  intros Hok H. revert pre. induction H as [|[o r] w ps bs Hw Hbs IH]; intros pre; [by exists []|].
  apply Forall_cons in Hok as [[(b & Hb & Hlen) (Ht & Hk & Hd)] Hok]. cbn [fst snd] in *.
  unfold write_record in Hw. rewrite Hb in Hw. cbn [mbind result_bind] in Hw. injection Hw as <-.
  rewrite (Z.mod_small (Z.of_nat _) (2 ^ 16)) by lia.
  cbn [length concat ttl_records]. rewrite <- !app_assoc.
  rewrite (skip_encode_name o b) by done. cbn [mbind result_bind].
  pose proof (record_fields (pre ++ b) r.(kind) r.(ttl) r.(rdata) (concat bs) Hk Ht Hd)
    as (F1 & F2 & F3 & _ & F5).
  rewrite length_app in F1, F2, F3, F5. rewrite <- app_assoc in F1, F2, F3, F5.
  set (m := pre ++ b ++ _) in *.
  destruct (slice_get m (length pre + length b) (length pre + length b + 10)) as [header|] eqn:Eh;
    [|exfalso; unfold slice_get in Eh; rewrite !(proj2 (Nat.leb_le _ _)) in Eh by lia; done].
  cbn [context mbind result_bind].
  rewrite (u16_at_slice _ _ _ _ 0 Eh), (u32_at_slice _ _ _ _ 4 Eh), (u16_at_slice _ _ _ _ 8 Eh) by lia.
  rewrite Nat.add_0_r, F1, F2, F3. cbn [mbind result_bind]. rewrite Nat2Z.id.
  rewrite (proj2 (advance_Ok _ _ _ _ (length pre + length b + (10 + length r.(rdata)))%nat)) by (split; [done|lia]).
  cbn [mbind result_bind].
  set (pre' := pre ++ b ++ to_be 2 r.(kind) ++ to_be 2 1 ++ to_be 4 r.(ttl) ++
    to_be 2 (Z.of_nat (length r.(rdata))) ++ r.(rdata)).
  destruct (IH Hok pre') as (offs & Hoffs & Hmap).
  assert (Hm : m = pre' ++ concat bs) by (subst m pre'; by rewrite <- !app_assoc).
  assert (Hp : length pre' = (length pre + length b + (10 + length r.(rdata)))%nat) by (subst pre'; length_tac).
  rewrite Hm, <- Hp, Hoffs. cbn [mbind result_bind]. eexists. split; [done|].
  rewrite !fmap_cons, Hmap. done.
Qed.

(** The walk over a single question. *)
Lemma skip_questions_reply r name qtype e :
  parse_question r = Ok (name, qtype, e) → Forall u8 (take e r) → (e ≤ 271)%nat → (e ≤ length r)%nat →
  skip_questions 1 r 12 "truncated DNS question" = Ok e.
Proof.
  intros Hq Hu He Hle. destruct (parse_question_inv _ _ _ _ Hq)
    as (_ & labels & q & fields & _ & _ & Hl & _ & _ & _ & -> & Hq13 & Hlen).
  cbn [skip_questions]. assert (skip_name r 12 = Ok q) as ->.
  { eapply (skip_name_question _ 129 _ 12 [] labels q 0); [|exact Hl|lia..].
    replace (take q r) with (take q (take (q + 4) r)) by (rewrite take_take; f_equal; lia).
    by apply Forall_take. }
  cbn [mbind result_bind]. by rewrite (proj2 (advance_Ok q 4 _ _ (q + 4))) by (split; [done|lia]).
Qed.

Lemma header_code_u8 rcode : u8 (Z.lor 128 (Z.land rcode 15)).
Proof.
  assert (0 ≤ Z.land rcode 15 < 16).
  { change 15 with (Z.ones 4). rewrite Z.land_ones by lia. apply Z.mod_pos_bound. lia. }
  unfold uint. split; [apply Z.lor_nonneg; lia|].
  destruct (decide (Z.land rcode 15 = 0)) as [->|]; [by rewrite Z.lor_0_r|].
  apply Z.log2_lt_pow2; [|rewrite Z.log2_lor by lia].
  - assert (0 ≤ Z.lor 128 (Z.land rcode 15)) by (apply Z.lor_nonneg; lia).
    destruct (decide (Z.lor 128 (Z.land rcode 15) = 0)) as [Hz|]; [|lia]. apply Z.lor_eq_0_iff in Hz. lia.
  - assert (Z.log2 (Z.land rcode 15) < 4) by (apply Z.log2_lt_pow2; lia).
    change (Z.log2 128) with 7. lia.
Qed.

(** A predefined rule answers with a well-formed response: for a request
    with one question, it has the request's id and question and the configured
    response code, and the program's own walk over it finds exactly the records
    that apply to the name, in order, with their types and TTLs. *)
Theorem predefined_response_spec checks request name qtype e id rcode records :
  Forall u8 request → parse_question request = Ok (name, qtype, e) → u16_at request 4 = Ok 1 →
  (e ≤ 271)%nat → dns_id request = Ok id → Forall record_ok records →
  Forall (λ p, name_ok p.1) (applicable name records) → Z.of_nat (length records) < 2 ^ 16 →
  ∃ r offs, predefined_response checks request e rcode records = Ok r ∧
    validate_response id r = Ok tt ∧ parse_question r = Ok (name, qtype, e) ∧
    r !! 3%nat = Some (Z.lor 128 (Z.land rcode 15)) ∧ ttl_offsets r = Ok offs ∧
    (λ o, (rec_type o, rec_ttl o)) <$> offs =
    (λ p, (p.2.(kind), p.2.(ttl))) <$> applicable name records.
Proof.
  intros Hu Hq Hqd He Hid Hok Hn Hlen. unfold predefined_response. rewrite Hq. cbn [mbind result_bind].
  destruct (question_header _ _ _ _ Hq) as (x0&x1&x2&x3&x4&x5&x6&x7&x8&x9&x10&x11&tl&->&Hs&He17&Hl).
  set (c := Z.lor 128 (Z.land rcode 15)). rewrite Hs. cbn [context mbind result_bind].
  set (t := take (e - 12) tl) in *.
  change (store _ 2 133) with (Ok ([x0; x1; 133; x3; x4; x5; x6; x7; x8; x9; x10; x11] ++ t)).
  cbn [mbind result_bind].
  change (store _ 3 c) with (Ok ([x0; x1; 133; c; x4; x5; x6; x7; x8; x9; x10; x11] ++ t)).
  cbn [mbind result_bind].
  change (copy_from_slice _ 6 [0; 0; 0; 0; 0; 0])
    with (Ok ([x0; x1; 133; c; x4; x5; 0; 0; 0; 0; 0; 0] ++ t)).
  cbn [mbind result_bind].
  set (n := length (applicable name records)).
  assert (Hnl : (n ≤ length records)%nat) by apply length_applicable.
  destruct (write_records_spec checks name records ([x0; x1; 133; c; x4; x5; 0; 0; 0; 0; 0; 0] ++ t) 0 Hn)
    as (bs & Hbs & ->); [lia..|].
  cbn [mbind result_bind]. rewrite Z.add_0_l. fold n.
  assert (∃ c0 c1, to_be 2 (Z.of_nat n) = [c0; c1]) as (c0 & c1 & Hc) by (cbn; eauto).
  set (r := [x0; x1; 133; c; x4; x5; c0; c1; 0; 0; 0; 0] ++ t ++ concat bs).
  assert (Hlt : length t = (e - 12)%nat) by (unfold t; rewrite length_take; lia).
  assert (Hpre : length ([x0; x1; 133; c; x4; x5; c0; c1; 0; 0; 0; 0] ++ t) = e) by length_tac.
  assert (Happ : Forall (λ p, name_ok p.1 ∧ record_ok p.2) (applicable name records)).
  { apply Forall_forall. intros [o p] Hin. split; [by apply (proj1 (Forall_forall _ _) Hn _ Hin)|].
    apply list_elem_of_omap in Hin as (p' & Hp' & Heq). destruct (record_owner name p'); [|done].
    injection Heq as _ <-. by apply (proj1 (Forall_forall _ _) Hok). }
  destruct (ttl_records_written _ _ ([x0; x1; 133; c; x4; x5; c0; c1; 0; 0; 0; 0] ++ t) Happ Hbs)
    as (offs & Hoffs & Hmap).
  rewrite Hpre, <- app_assoc in Hoffs. fold r n in Hoffs.
  assert (Hqr : parse_question r = Ok (name, qtype, e)) by (subst r; rewrite app_assoc; by eapply parse_question_reply).
  exists r, offs. split_and!; [rewrite Hc, <- app_assoc; reflexivity| |done|reflexivity| |done].
  - unfold validate_response. rewrite (proj2 (Nat.ltb_ge _ _)) by (subst r; length_tac).
    change (dns_id r) with (dns_id ([x0; x1; x2; x3; x4; x5; x6; x7; x8; x9; x10; x11] ++ tl)).
    rewrite Hid. cbn [mbind result_bind]. by rewrite Z.eqb_refl.
  - unfold ttl_offsets. rewrite (proj2 (Nat.ltb_ge _ _)) by (subst r; length_tac).
    change (u16_at r 4) with (u16_at ([x0; x1; x2; x3; x4; x5; x6; x7; x8; x9; x10; x11] ++ tl) 4).
    rewrite Hqd. cbn [mbind result_bind].
    change (u16_at r 8) with (Ok 0). change (u16_at r 10) with (Ok 0).
    assert (u16_at r 6 = Ok (Z.of_nat n)) as ->.
    { rewrite <- (of_be_to_be 2 (Z.of_nat n)) by (unfold uint; lia). rewrite Hc. reflexivity. }
    cbn [mbind result_bind]. rewrite !Z.add_0_r, Nat2Z.id. change (Z.to_nat 1) with 1%nat.
    rewrite (skip_questions_reply r name qtype e Hqr); [cbn [mbind result_bind]; exact Hoffs| |done|].
    + subst r. rewrite app_assoc, take_app_le, take_ge by (rewrite Hpre; lia).
      apply Forall_app in Hu as [Hux Hut]. apply Forall_app. split; [|by apply Forall_take].
      pose proof (to_be_u8 2 (Z.of_nat n)) as Hcu. rewrite Hc in Hcu.
      assert (u8 c) by (apply header_code_u8).
      pose proof (λ i x, Forall_lookup_1 _ _ i x Hux) as Hx. pose proof (λ i x, Forall_lookup_1 _ _ i x Hcu) as Hy.
      repeat (apply Forall_cons; split); try apply Forall_nil_2; try (unfold uint; lia); try done;
        [by apply (Hx 0%nat)|by apply (Hx 1%nat)|by apply (Hx 4%nat)|by apply (Hx 5%nat)
        |by apply (Hy 0%nat)|by apply (Hy 1%nat)].
    + subst r. rewrite app_assoc, length_app, Hpre. lia.
Qed.

(** ** No record panics *)

Lemma returns_encode_labels labels msg : returns (encode_labels labels msg).
Proof.
  induction labels as [|l labels IH]; cbn [encode_labels]; [done|]. destruct (_ || _); [done|].
  apply returns_bind; [done|]. done.
Qed.

Lemma returns_encode_name name : returns (encode_name name).
Proof.
  unfold encode_name. destruct (trim_end_matches is_dot name); [done|].
  apply returns_bind; [apply returns_encode_labels|done].
Qed.

Lemma returns_next tokens msg : returns (next tokens msg).
Proof. by destruct tokens. Qed.

Lemma returns_next_uint w tokens missing invalid : returns (next_uint w tokens missing invalid).
Proof.
  unfold next_uint. apply returns_bind; [apply returns_next|]. intros [t ts] _.
  apply returns_bind; [apply returns_context|done].
Qed.

Lemma returns_next_uints n w tokens missing invalid : returns (next_uints n w tokens missing invalid).
Proof.
  revert tokens. induction n as [|n IH]; intros tokens; cbn [next_uints]; [done|].
  apply returns_bind; [apply returns_next_uint|]. intros [b ts] _. apply returns_bind; [apply IH|]. by intros [bs ts'] _.
Qed.

Lemma returns_txt_data tokens : returns (txt_data tokens).
Proof.
  induction tokens as [|t tokens IH]; cbn [txt_data]; [done|]. destruct (_ <? _)%nat; [done|].
  apply returns_bind; [done|]. done.
Qed.

(** One step through the parsing of a record's data. *)
Ltac record_step :=
  first [ done | apply returns_next | apply returns_next_uint | apply returns_next_uints | apply returns_encode_name
        | apply returns_context | apply returns_txt_data
        | apply returns_bind; [|intros [] _]
        | match goal with |- returns (match ?x with _ => _ end) => destruct x end ].

Lemma returns_record_data kind tokens : returns (record_data kind tokens).
Proof. unfold record_data. repeat record_step. Qed.

Lemma record_data_kind kind tokens b : record_data kind tokens = Ok b → is_Some (named record_kinds kind).
Proof.
  unfold record_data, is_one_of. cbn [existsb]. intros H.
  repeat match type of H with (if ?b then _ else _) = _ =>
    destruct b eqn:?; [repeat match goal with
      | E : str_eqb _ _ = true |- _ => apply str_eqb_eq in E as ->; by eexists
      | E : _ || _ = true |- _ => apply orb_true_iff in E as [E|E] end; done|] end.
  done.
Qed.

Lemma returns_parse_dns_record record : returns (parse_dns_record record).
Proof.
  unfold parse_dns_record. apply returns_bind; [apply returns_next|]. intros [o ts] _.
  apply returns_bind; [apply returns_next|]. intros [f rest] _.
  apply returns_bind; [destruct (parse_uint 32 f); [done|by destruct (is_one_of _ _)]|]. intros [t ts'] _.
  apply returns_bind; [apply returns_next|]. intros [c ts''] _. destruct (negb _); [done|].
  apply returns_bind; [apply returns_next|]. intros [k ts3] _. apply returns_bind; [apply returns_record_data|].
  intros d [n Hn]%record_data_kind. by rewrite Hn.
Qed.

Lemma returns_parse_rcode v : returns (parse_rcode v).
Proof. unfold parse_rcode. repeat record_step. Qed.

End facts.

(** ** Witnesses *)

#[local] Existing Instance Cidr.lib.
#[local] Existing Instance Literal.regex.

Definition plain_fields (action : option str) (suffix : list str) (sets : list str) (answer : list str)
    : RuleFields :=
  mkFields [] None [] [] suffix [] [] sets None action None false None false false None None None None
    false None answer [] [].

Definition logical_fields : RuleFields :=
  mkFields (lit "logical") (Some (lit "and")) [] [] [] [] [] [] None None None false None false false
    None None None None false None [] [] [].

Definition sample_rule : DnsRule :=
  mkDnsRule (plain_fields (Some (lit "predefined")) [lit "Example.COM."] []
    [lit "*.example.com 60 IN A 192.0.2.1"; lit "example.com. IN TXT hello"]) [].

Lemma validated_rule_usable_witness :
  (∃ c, compile sample_rule = Ok c ∧ c.(raw) = sample_rule) ∧ answerable (fields sample_rule) ∧
  validate_strategy (fields sample_rule).(f_strategy) = Ok tt.
Proof. apply (validated_rule_usable sample_rule). reflexivity. Defined.

(** Chinese domains whose addresses must be in a rule-set: every response is
    refused. *)
Definition domain_part : CompiledDnsRule :=
  mkCompiled (mkDnsRule (plain_fields None [lit "cn"] [] []) []) [] [] [lit "cn"] [] [] None.
Definition address_part : CompiledDnsRule :=
  mkCompiled (mkDnsRule (plain_fields None [] [lit "geoip-cn"] []) []) [] [] [] [] [] None.
Definition and_rule : CompiledDnsRule :=
  mkCompiled (mkDnsRule logical_fields []) [] [] [] [] [] (Some (And, [domain_part; address_part])).

Lemma and_rule_refuses_responses_witness :
  dns_rule_address_limit_matches and_rule (lit "a.cn") [V4 1] (Some ∅) = false.
Proof.
  apply (and_rule_refuses_responses and_rule [domain_part; address_part] domain_part);
    [reflexivity|reflexivity|left|done].
Defined.

Definition sample_query : bytes :=
  [0; 7; 1; 0; 0; 1; 0; 0; 0; 0; 0; 0] ++ [1; 97; 1; 98; 0; 0; 1; 0; 1].

Definition sample_records : list PredefinedRecord :=
  [mkRecord (lit "*.b") 60 1 [192; 0; 2; 1]; mkRecord (lit "*.c") 60 1 [192; 0; 2; 1];
   mkRecord (lit "a.b") 5 16 [1; 97]].

Lemma predefined_response_spec_witness :
  ∃ r offs, predefined_response true sample_query 21 0 sample_records = Ok r ∧
    validate_response 7 r = Ok tt ∧ parse_question r = Ok (lit "a.b", 1, 21%nat) ∧
    r !! 3%nat = Some (Z.lor 128 (Z.land 0 15)) ∧ ttl_offsets r = Ok offs ∧
    (λ o, (rec_type o, rec_ttl o)) <$> offs =
    (λ p, (p.2.(kind), p.2.(ttl))) <$> applicable (lit "a.b") sample_records.
Proof.
  apply (predefined_response_spec true sample_query (lit "a.b") 1 21 7 0 sample_records);
    [by apply (bool_decide_unpack _)|reflexivity|reflexivity|lia|reflexivity| | |cbn; lia].
  - repeat constructor; cbn; unfold uint; lia.
  - repeat constructor; eexists; (split; [reflexivity|cbn; lia]).
Defined.

(** A record whose data does not fit its length field is written with a length
    that is wrong. *)
Lemma long_record_truncated o b r :
  encode_name o = Ok b → Z.of_nat (length r.(rdata)) = 2 ^ 16 →
  write_record o r =
  Ok (b ++ to_be 2 r.(kind) ++ to_be 2 1 ++ to_be 4 r.(ttl) ++ [0; 0] ++ r.(rdata)).
Proof. intros Hb Hl. unfold write_record. rewrite Hb, Hl. reflexivity. Qed.
