(* ===== verification/DnsTransport.v ===== *)
(** * DNS transports (src/src/dns/transport.rs)

    An upstream server and the transport its type selects, the framing of DNS
    over a stream, the pool of idle streams, and the multiplexer that shares one
    UDP socket between queries by giving each its own transaction id.  Sockets,
    TLS and HTTP are arguments: what they return for a request. *)

From S2P Require Import Prelude RustStr Net DnsMessage.

(** ** Upstreams *)

(** [singbox::DnsServer] *)
Record DnsServer := mkServer {
  ds_type : str;
  ds_tag : str;
  ds_server : option str;
  ds_port : option Z;
  ds_path : option str;
  ds_detour : option str;
}.

Record Endpoint := mkEndpoint { host : str; port : Z }.

(** [stream]: the pool of TCP or TLS streams. *)
Record Upstream := mkUpstream {
  u_config : DnsServer;
  endpoint : option Endpoint;
  stream : option Endpoint;
}.

Definition kind_in (kind : str) (l : list string) : bool := existsb (λ x, str_eqb kind (lit x)) l.

Definition upstream_new (c : DnsServer) : result Upstream :=
  let kind := c.(ds_type) in
  if negb (kind_in kind [""; "udp"; "tcp"; "tls"; "https"; "local"]%string) then
    Err "unsupported DNS server type"
  else
  endpoint ←
    (if kind_in kind [""; "udp"; "tcp"; "tls"]%string then
       host ← context c.(ds_server) "DNS server missing address";
       Ok (Some (mkEndpoint host (default (if str_eqb kind (lit "tls") then 853 else 53) c.(ds_port))))
     else Ok None);
  stream ←
    (if kind_in kind [""; "udp"; "tcp"; "tls"]%string then
       match endpoint with Some e => Ok (Some e) | None => Panic end
     else Ok None);
  Ok (mkUpstream c endpoint stream).

(** What the network answers: the datagram socket, a stream, HTTP at a URL, and
    the same through the outbound of a detour. *)
Record Io := mkIo {
  io_udp : Endpoint → bytes → result bytes;
  io_stream : Endpoint → bytes → result bytes;
  io_https : str → bytes → result bytes;
  io_detour_udp : str → Endpoint → bytes → result bytes;
  io_detour_stream : str → bool → Endpoint → bytes → result bytes;
}.

(** The TC bit: the answer did not fit the datagram. *)
Definition truncated (response : bytes) : bool :=
  match response !! 2%nat with Some flags => negb (Z.land flags 2 =? 0) | None => false end.

Definition https_url (c : DnsServer) : result str :=
  host ← context c.(ds_server) "HTTPS DNS server missing address";
  let path := default (lit "/dns-query") c.(ds_path) in
  Ok (if starts_with (lit "http://") host || starts_with (lit "https://") host
      then trim_end_matches (Z.eqb c_slash) host ++ path
      else lit "https://" ++ host ++ [c_colon] ++ print_uint (default 443 c.(ds_port)) ++ path).

Definition query_https (io : Io) (c : DnsServer) (q : bytes) : result bytes :=
  url ← https_url c; io.(io_https) url q.

(** [query_via_detour]; a detour's stream carries TLS for a [tls] server. *)
Definition query_via_detour (io : Io) (c : DnsServer) (e : Endpoint) (q : bytes) : result bytes :=
  tag ← context c.(ds_detour) "DNS detour tag missing";
  let kind := c.(ds_type) in
  if kind_in kind [""; "udp"]%string then
    response ← io.(io_detour_udp) tag e q;
    if truncated response then io.(io_detour_stream) tag false e q else Ok response
  else if str_eqb kind (lit "tcp") then io.(io_detour_stream) tag false e q
  else if str_eqb kind (lit "tls") then io.(io_detour_stream) tag true e q
  else if str_eqb kind (lit "https") then Err "HTTPS DNS over a detour outbound is not supported"
  else if str_eqb kind (lit "local") then Err "local DNS server cannot use a detour"
  else Err "unsupported DNS server type for detour".

(** [installed]: the runtime has set its detour provider. *)
Definition upstream_query (io : Io) (installed : bool) (u : Upstream) (q : bytes) : result bytes :=
  let has_detour :=
    match u.(u_config).(ds_detour) with Some (_ :: _) => true | _ => false end in
  if has_detour && installed then
    e ← context u.(endpoint) "detour DNS server missing address";
    query_via_detour io u.(u_config) e q
  else
  let kind := u.(u_config).(ds_type) in
  if kind_in kind [""; "udp"]%string then
    match u.(endpoint) with
    | None => Panic
    | Some e =>
      response ← io.(io_udp) e q;
      if truncated response then
        match u.(stream) with Some e => io.(io_stream) e q | None => Panic end
      else Ok response
    end
  else if kind_in kind ["tcp"; "tls"]%string then
    match u.(stream) with Some e => io.(io_stream) e q | None => Panic end
  else if str_eqb kind (lit "https") then query_https io u.(u_config) q
  else if str_eqb kind (lit "local") then Err "local DNS query requires parsed question"
  else Err "unsupported DNS server type".

(** ** Streams *)

(** What [exchange_stream] writes, and how it reads the answer. *)
Definition frame (q : bytes) : result bytes :=
  n ← context (try_uint 16 (Z.of_nat (length q))) "DNS query too large"; Ok (to_be 2 n ++ q).

Definition read_frame : reader bytes := n ← read_u16; read_exact (Z.to_nat n).

Definition STREAM_POOL_SIZE : nat := 32.
Definition STREAM_IDLE_TIMEOUT : Z := 60 * 10 ^ 9.

(** The idle streams, the last one on top, with the time of their last use. *)
Fixpoint take_idle {A} (now : Z) (idle : list (A * Z)) : option A * list (A * Z) :=
  match idle with
  | [] => (None, [])
  | (s, last_used) :: idle =>
    if saturating_sub now last_used <? STREAM_IDLE_TIMEOUT then (Some s, idle) else take_idle now idle
  end.

Definition put_idle {A} (now : Z) (s : A) (idle : list (A * Z)) : list (A * Z) :=
  if (length idle <? STREAM_POOL_SIZE)%nat then (s, now) :: idle else idle.

(** The loop of [TcpPool::query]: [connect] is a new stream or the error, and
    [exchange] the outcome of an attempt on a stream. *)
Fixpoint pool_query {A} (attempts : nat) (now : Z) (connect : nat → result A)
    (exchange : nat → A → result bytes) (idle : list (A * Z)) (last_error : option string)
    : list (A * Z) * result bytes :=
  match attempts with
  | O => (idle, Err (default "DNS stream query failed"%string last_error))
  | S n =>
    let '(o, idle) := take_idle now idle in
    match match o with Some s => Ok s | None => connect n end with
    | Ok s =>
      match exchange n s with
      | Ok response => (put_idle now s idle, Ok response)
      | Err e => pool_query n now connect exchange idle (Some e)
      | Panic => (idle, Panic)
      | Diverge => (idle, Diverge)
      end
    | Err e => (idle, Err e)
    | Panic => (idle, Panic)
    | Diverge => (idle, Diverge)
    end
  end.

(** ** The multiplexer

    [pending] maps a transaction id on the wire to the query whose task waits for
    it; [waiting] are the tasks inside [query], with their wire id and the id of
    the request.  Tasks are numbered in the order they start ([started]); [sent]
    are the datagrams handed to the socket and [results] the outcomes of the
    tasks, in order.  A step is what runs between two suspension points. *)
Record Mux := mkMux {
  pending : gmap Z nat;
  next_id : Z;
  reader_alive : bool;
  started : nat;
  waiting : gmap nat (Z * Z);
  sent : list bytes;
  results : list (nat * result bytes);
}.

(** The first id is random. *)
Definition mux_new (next : Z) : Mux := mkMux ∅ next true 0 ∅ [] [].

(** [for _ in 0..=u16::MAX]: the first free id from [next] on. *)
Fixpoint allocate (fuel : nat) (pending : gmap Z nat) (next : Z) : option Z * Z :=
  match fuel with
  | O => (None, next)
  | S fuel =>
    let candidate := next mod 2 ^ 16 in
    let next := wrapping_add 32 next 1 in
    match pending !! candidate with
    | None => (Some candidate, next)
    | Some _ => allocate fuel pending next
    end
  end.

(** What happens at the multiplexer: a task starts a query, its send fails, a
    datagram or an error arrives at the reader, the time of a query is up, or the
    task of a query is dropped by whoever polls it. *)
Inductive event :=
  | Query (request : bytes)
  | SendFailed (q : nat)
  | Datagram (buffer : bytes) (length : nat)
  | ReceiveError
  | Timeout (q : nat)
  | Cancel (q : nat).

Definition finish (m : Mux) (q : nat) (r : result bytes) : Mux :=
  mkMux m.(pending) m.(next_id) m.(reader_alive) m.(started) (delete q m.(waiting)) m.(sent)
    (m.(results) ++ [(q, r)]).

Definition with_pending (m : Mux) (p : gmap Z nat) : Mux :=
  mkMux p m.(next_id) m.(reader_alive) m.(started) m.(waiting) m.(sent) m.(results).

(** The end of [query], with the datagram its task received. *)
Definition restore_id (original : Z) (received : bytes) : result bytes :=
  if (2 <=? length received)%nat then Ok (to_be 2 original ++ drop 2 received)
  else Err "truncated DNS UDP response".

(** The request as it goes on the wire. *)
Definition stamp (id : Z) (request : bytes) : bytes := to_be 2 id ++ drop 2 request.

Definition on_query (m : Mux) (request : bytes) : Mux :=
  let q := m.(started) in
  match dns_id request with
  | Ok original =>
    match allocate (2 ^ 16) m.(pending) m.(next_id) with
    | (Some id, next) =>
      mkMux (<[id := q]> m.(pending)) next m.(reader_alive) (S q) (<[q := (id, original)]> m.(waiting))
        (m.(sent) ++ [stamp id request]) m.(results)
    | (None, next) =>
      finish (mkMux m.(pending) next m.(reader_alive) (S q) m.(waiting) m.(sent) m.(results)) q
        (Err "DNS UDP transaction ID space exhausted")
    end
  | _ =>
    finish (mkMux m.(pending) m.(next_id) m.(reader_alive) (S q) m.(waiting) m.(sent) m.(results)) q
      (Err "truncated DNS message")
  end.

(** [buffer] is the reader's buffer after the datagram of [length] bytes was
    written into it: the id is read from the buffer, whatever the length. *)
Definition on_datagram (m : Mux) (buffer : bytes) (length : nat) : Mux :=
  if negb m.(reader_alive) then m else
  match buffer with
  | b0 :: b1 :: _ =>
    let id := of_be [b0; b1] in
    match m.(pending) !! id with
    | Some q =>
      let m := with_pending m (delete id m.(pending)) in
      match m.(waiting) !! q with
      | Some (_, original) => finish m q (restore_id original (take length buffer))
      | None => m
      end
    | None => m
    end
  | _ => m
  end.

(** The tasks of a list fail with the reader's error. *)
Definition fail_one (m : Mux) (q : nat) : Mux :=
  match m.(waiting) !! q with
  | Some _ => finish m q (Err "DNS UDP receive failed")
  | None => m
  end.

Definition fail_all (m : Mux) (qs : list nat) : Mux := fold_left fail_one qs m.

(** The task takes its id back before it fails. *)
Definition abandon (m : Mux) (q : nat) (msg : string) : Mux :=
  match m.(waiting) !! q with
  | Some (id, _) => finish (with_pending m (delete id m.(pending))) q (Err msg)
  | None => m
  end.

(** The reader's task ends: its loop breaks. *)
Definition on_receive_error (m : Mux) : Mux :=
  if negb m.(reader_alive) then m else
  let m' := mkMux ∅ m.(next_id) false m.(started) m.(waiting) m.(sent) m.(results) in
  fail_all m' (snd <$> map_to_list m.(pending)).

Definition step (m : Mux) (e : event) : Mux :=
  match e with
  | Query request => on_query m request
  | SendFailed q => abandon m q "DNS UDP send failed"
  | Timeout q => abandon m q "DNS timeout"
  | Datagram buffer length => on_datagram m buffer length
  | ReceiveError => on_receive_error m
  | Cancel q =>
    mkMux m.(pending) m.(next_id) m.(reader_alive) m.(started) (delete q m.(waiting)) m.(sent) m.(results)
  end.

Definition run (m : Mux) (es : list event) : Mux := fold_left step es m.

(** ** Upstreams and streams *)

(** What an upstream needs is there when its type was accepted: no query hits an
    [expect]. *)
Lemma upstream_query_returns io installed c u q :
  upstream_new c = Ok u →
  (∀ e b, returns (io.(io_udp) e b)) → (∀ e b, returns (io.(io_stream) e b)) →
  (∀ url b, returns (io.(io_https) url b)) → (∀ t e b, returns (io.(io_detour_udp) t e b)) →
  (∀ t tls e b, returns (io.(io_detour_stream) t tls e b)) →
  returns (upstream_query io installed u q).
Proof.
  intros Hu H1 H2 H3 H4 H5. unfold upstream_new in Hu. destruct (negb _); [done|].
  apply bind_Ok in Hu as (e & He & Hu). apply bind_Ok in Hu as (s & Hs & [= <-]).
  assert (Hes : kind_in c.(ds_type) [""; "udp"; "tcp"; "tls"]%string = true → is_Some e ∧ is_Some s).
  { intros Hk. rewrite Hk in He, Hs. apply bind_Ok in He as (h & _ & [= <-]). injection Hs as <-. done. }
  assert (Hsub : ∀ l, kind_in c.(ds_type) l = true →
    (∀ x, x ∈ l → x ∈ [""; "udp"; "tcp"; "tls"]%string) → is_Some e ∧ is_Some s).
  { intros l Hl Hsub. apply Hes. apply existsb_exists in Hl as (x & Hx & Heq). apply existsb_exists.
    exists x. split; [|done]. apply list_elem_of_In, Hsub. by apply list_elem_of_In. }
  unfold upstream_query. cbn [u_config endpoint stream]. destruct (_ && installed).
  { apply returns_bind; [apply returns_context|]. intros e' _. unfold query_via_detour.
    apply returns_bind; [apply returns_context|]. intros tag _.
    destruct (kind_in _ [""; "udp"]%string); [apply returns_bind; [apply H4|]; intros r _; destruct (truncated r); [apply H5|done]|].
    repeat match goal with |- returns (if ?b then _ else _) => destruct b end; first [apply H5|done]. }
  destruct (kind_in _ [""; "udp"]%string) eqn:E1.
  { destruct (Hsub _ E1) as [[e' ->] [s' ->]]; [set_solver|]. apply returns_bind; [apply H1|].
    intros r _. destruct (truncated r); [apply H2|done]. }
  destruct (kind_in _ ["tcp"; "tls"]%string) eqn:E2.
  { destruct (Hsub _ E2) as [_ [s' ->]]; [set_solver|]. apply H2. }
  destruct (str_eqb _ (lit "https")); [|by destruct (str_eqb _ (lit "local"))].
  unfold query_https, https_url. apply returns_bind; [|intros; apply H3].
  apply returns_bind; [apply returns_context|done].
Qed.

(** A frame that was written is read back. *)
Lemma read_frame_frame q b rest : frame q = Ok b → read_frame (b ++ rest) = Ok (q, rest).
Proof.
  unfold frame. intros H. apply bind_Ok in H as (n & Hn%context_Ok%try_uint_Some & Hb).
  apply Ok_inj in Hb as <-. destruct Hn as [Hu ->]. rewrite <- app_assoc. unfold read_frame.
  erewrite rbind_eq; [|by apply read_u16_app]. rewrite Nat2Z.id. by apply read_exact_app.
Qed.

Lemma take_idle_fresh {A} now (idle : list (A * Z)) s rest :
  take_idle now idle = (Some s, rest) →
  ∃ t stale, idle = stale ++ (s, t) :: rest ∧ saturating_sub now t < STREAM_IDLE_TIMEOUT ∧
    Forall (λ p, STREAM_IDLE_TIMEOUT ≤ saturating_sub now p.2) stale.
Proof.
  induction idle as [|[s' t] idle IH]; cbn; [done|]. destruct (_ <? _) eqn:E; bool_to_prop.
  - intros [= -> ->]. by exists t, [].
  - intros (t' & stale & -> & ? & ?)%IH. exists t', ((s', t) :: stale). split_and!; [done..|by constructor].
Qed.

Lemma length_take_idle {A} now (idle : list (A * Z)) : (length (take_idle now idle).2 ≤ length idle)%nat.
Proof. induction idle as [|[s t] idle IH]; cbn; [done|]. destruct (_ <? _); cbn; lia. Qed.

(** The pool never keeps more than its size. *)
Lemma pool_query_bounded {A} attempts now connect exchange (idle : list (A * Z)) err :
  (length idle ≤ STREAM_POOL_SIZE)%nat →
  (length (pool_query attempts now connect exchange idle err).1 ≤ STREAM_POOL_SIZE)%nat.
Proof.
  revert idle err. induction attempts as [|n IH]; intros idle err Hl; cbn [pool_query]; [done|].
  pose proof (length_take_idle now idle). destruct (take_idle now idle) as [o idle']. cbn in *.
  destruct (match o with Some s => Ok s | None => connect n end) as [s| | |]; cbn; [|lia..].
  destruct (exchange n s); cbn; [|apply IH; lia|lia|lia].
  unfold put_idle. destruct (_ <? _)%nat eqn:E; bool_to_prop; cbn [length]; lia.
Qed.

(** ** Allocation *)

Lemma mod_mod16 z : z mod 2 ^ 32 mod 2 ^ 16 = z mod 2 ^ 16.
Proof. apply Z.mod_mod_divide. by exists (2 ^ 16). Qed.

Lemma allocate_Some fuel p next id next' :
  allocate fuel p next = (Some id, next') → p !! id = None ∧ u16 id.
Proof.
  revert next. induction fuel as [|fuel IH]; intros next; cbn [allocate]; [done|].
  destruct (p !! (next mod 2 ^ 16)) eqn:E; [apply IH|]. intros [= <- _]. split; [done|].
  apply Z.mod_pos_bound. lia.
Qed.

Lemma allocate_None fuel p next next' :
  allocate fuel p next = (None, next') →
  ∀ k, (k < fuel)%nat → is_Some (p !! ((next + Z.of_nat k) mod 2 ^ 16)).
Proof.
  revert next. induction fuel as [|fuel IH]; intros next H k Hk; [lia|]. cbn [allocate] in H.
  destruct (p !! (next mod 2 ^ 16)) eqn:E; [|done]. destruct k as [|k].
  - rewrite Z.add_0_r. by eexists.
  - specialize (IH _ H k ltac:(lia)). unfold wrapping_add in IH.
    rewrite <- Zplus_mod_idemp_l, mod_mod16, Zplus_mod_idemp_l in IH.
    by replace (next + Z.of_nat (S k)) with (next + 1 + Z.of_nat k) by lia.
Qed.

(** The search covers every id: it fails only when all of them are taken. *)
Lemma allocate_exhausted p next next' id :
  allocate (2 ^ 16) p next = (None, next') → u16 id → is_Some (p !! id).
Proof.
  intros H Hid. pose proof (Z.mod_pos_bound (id - next) (2 ^ 16) ltac:(lia)) as Hb.
  destruct (allocate_None _ _ _ _ H (Z.to_nat ((id - next) mod 2 ^ 16))) as [q Hq].
  { apply Nat2Z.inj_lt. rewrite Z2Nat.id by lia. rewrite Nat2Z.inj_pow. apply Hb. }
  exists q. rewrite <- Hq. f_equal. rewrite Z2Nat.id by lia. rewrite Zplus_mod_idemp_r.
  replace (next + (id - next)) with id by lia. symmetry. apply Z.mod_small. exact Hid.
Qed.

(** ** The state between steps *)

(** The queries of a history, by their number. *)
Definition requests (es : list event) : list bytes :=
  omap (λ e, match e with Query r => Some r | _ => None end) es.

(** A waiting task owns its id, ids are of started queries, and no two ids are
    of the same one; results are of started queries that no longer wait, one per
    query. *)
Record mux_ok (m : Mux) : Prop := {
  waiting_pending q id o : m.(waiting) !! q = Some (id, o) → m.(pending) !! id = Some q;
  waiting_started q w : m.(waiting) !! q = Some w → (q < m.(started))%nat;
  pending_started id q : m.(pending) !! id = Some q → (q < m.(started))%nat ∧ u16 id;
  pending_inj id id' q : m.(pending) !! id = Some q → m.(pending) !! id' = Some q → id = id';
  results_started q r : (q, r) ∈ m.(results) → (q < m.(started))%nat ∧ m.(waiting) !! q = None;
  results_once : NoDup m.(results).*1;
}.

Lemma mux_new_ok n : mux_ok (mux_new n).
Proof. split; cbn; try (intros *; rewrite ?lookup_empty; set_solver). constructor. Qed.

Lemma finish_ok m q r :
  mux_ok m → (q < m.(started))%nat → (∀ r, ((q, r) ∉ m.(results))) → mux_ok (finish m q r).
Proof.
  intros [H1 H2 H3 H4 H5 H6] Hq Hr. split; cbn; eauto.
  - intros q' id o [_ ?]%lookup_delete_Some. eauto.
  - intros q' w [_ ?]%lookup_delete_Some. eauto.
  - intros q' r' [Hin|[= -> ->]%list_elem_of_singleton]%elem_of_app.
    + destruct (H5 _ _ Hin). split; [done|]. rewrite lookup_delete_ne; [done|]. intros ->. by eapply Hr.
    + split; [done|]. apply lookup_delete_eq.
  - rewrite fmap_app. apply NoDup_app. split_and!; [done| |apply NoDup_singleton].
    intros x [[x' r'] [-> Hin]]%list_elem_of_fmap Hx%list_elem_of_singleton. cbn in Hx. subst. by eapply Hr.
Qed.

(** The query waits: it has no result yet. *)
Lemma waiting_no_result m q w r : mux_ok m → m.(waiting) !! q = Some w → ((q, r) ∉ m.(results)).
Proof. intros [_ _ _ _ H _] Hw Hin. destruct (H _ _ Hin). congruence. Qed.

(** Dropping the id of a query that is about to finish. *)
Lemma finish_owned_ok m q id o r :
  mux_ok m → m.(pending) !! id = Some q → m.(waiting) !! q = Some (id, o) →
  mux_ok (finish (with_pending m (delete id m.(pending))) q r).
Proof.
  intros Hok Hp Hw. pose proof Hok as [H1 H2 H3 H4 H5 H6].
  pose proof (finish_ok m q r Hok (H2 _ _ Hw) (λ r, waiting_no_result m q _ r Hok Hw)) as [G1 G2 G3 G4 G5 G6].
  split; cbn in *; eauto.
  - intros q' id' o' Hl. rewrite lookup_delete_ne; [by eapply G1|]. intros ->.
    apply G1 in Hl as Hl'. apply lookup_delete_Some in Hl as [? _]. congruence.
  - intros id' q' [_ ?]%lookup_delete_Some. eauto.
  - intros id' id'' q' [_ ?]%lookup_delete_Some [_ ?]%lookup_delete_Some. eauto.
Qed.

Lemma abandon_ok m q msg : mux_ok m → mux_ok (abandon m q msg).
Proof.
  intros Hok. unfold abandon. destruct (m.(waiting) !! q) as [[id o]|] eqn:Hw; [|done].
  eapply finish_owned_ok; eauto. by eapply waiting_pending.
Qed.

Lemma on_query_ok m r : mux_ok m → mux_ok (on_query m r).
Proof.
  intros Hok. pose proof Hok as [H1 H2 H3 H4 H5 H6]. unfold on_query.
  assert (Hfail : ∀ next e, mux_ok (finish (mkMux m.(pending) next m.(reader_alive) (S m.(started))
    m.(waiting) m.(sent) m.(results)) m.(started) e)).
  { intros. apply finish_ok; cbn; [|lia|]; [|by intros r' [? _]%H5; lia].
    split; cbn; eauto. - intros ?? Hw%H2. lia. - intros ?? Hw%H3. split; [lia|tauto].
    - intros ?? Hw%H5. split; [lia|tauto]. }
  destruct (dns_id r) as [o| | |]; try apply Hfail.
  destruct (allocate _ _ _) as [[id|] next] eqn:Ha; [|apply Hfail].
  apply allocate_Some in Ha as [Hfree Hu].
  split; cbn; eauto.
  - intros q id' o' [[<- [= <- <-]]|[? Hw]]%lookup_insert_Some; [apply lookup_insert_eq|].
    apply H1 in Hw. rewrite lookup_insert_ne; [done|]. congruence.
  - intros q w [[<- _]|[_ Hw%H2]]%lookup_insert_Some; lia.
  - intros id' q [[<- <-]|[_ Hw%H3]]%lookup_insert_Some; [split; [lia|done]|split; [lia|tauto]].
  - intros i i' q [[<- <-]|[? Hi]]%lookup_insert_Some [[<- E]|[? Hi']]%lookup_insert_Some; eauto.
    + apply H3 in Hi' as [? _]. lia.
    + apply H3 in Hi as [? _]. lia.
  - intros q e Hin. apply H5 in Hin as [? Hn]. split; [lia|]. rewrite lookup_insert_ne by lia. done.
Qed.

Lemma on_datagram_ok m b n : mux_ok m → mux_ok (on_datagram m b n).
Proof.
  intros Hok. unfold on_datagram. destruct (negb _); [done|]. destruct b as [|b0 [|b1 b]]; [done..|].
  generalize (of_be [b0; b1]). intros id0.
  destruct (m.(pending) !! id0) as [q|] eqn:Hp; [|done]. cbn [waiting with_pending].
  destruct (m.(waiting) !! q) as [[id o]|] eqn:Hw.
  - pose proof (waiting_pending _ Hok _ _ _ Hw) as Hp'.
    rewrite (pending_inj _ Hok _ _ _ Hp Hp'). by eapply finish_owned_ok.
  - destruct Hok as [H1 H2 H3 H4 H5 H6]. split; cbn; eauto.
    + intros q' id o Hw'. apply H1 in Hw' as Hp'. rewrite lookup_delete_ne; [done|]. intros E. rewrite <- E, Hp in Hp'. congruence.
    + intros id' q' [_ ?]%lookup_delete_Some. eauto.
    + intros id' id'' q' [_ ?]%lookup_delete_Some [_ ?]%lookup_delete_Some. eauto.
Qed.

(** After the reader's error the tasks of the list have failed and the others are
    as they were. *)
Lemma fail_all_spec qs m :
  (fail_all m qs).(pending) = m.(pending) ∧ (fail_all m qs).(started) = m.(started) ∧
  (fail_all m qs).(sent) = m.(sent) ∧ (fail_all m qs).(reader_alive) = m.(reader_alive) ∧
  (∀ q, (fail_all m qs).(waiting) !! q = if decide (q ∈ qs) then None else m.(waiting) !! q) ∧
  ∃ failed, (fail_all m qs).(results) = m.(results) ++ ((λ q, (q, Err "DNS UDP receive failed"%string)) <$> failed) ∧
    NoDup failed ∧ ∀ q, q ∈ failed ↔ q ∈ qs ∧ is_Some (m.(waiting) !! q).
Proof.
  unfold fail_all. revert m. induction qs as [|q qs IH]; intros m; cbn [fold_left].
  { split_and!; [done..|]. exists []. split_and!; [by rewrite app_nil_r|constructor|set_solver]. }
  destruct (IH (fail_one m q)) as (-> & -> & -> & -> & Hw & failed & -> & Hnd & Hf). clear IH.
  unfold fail_one in *. destruct (m.(waiting) !! q) as [w|] eqn:Hq.
  - cbn [pending started sent reader_alive results finish waiting] in *. split_and!; [done..| |].
    + intros q'. rewrite Hw. destruct (decide (q' = q)) as [->|].
      * rewrite lookup_delete_eq, (decide_True (P:=q ∈ q :: qs)) by set_solver. by destruct (decide _).
      * rewrite lookup_delete_ne by done. repeat case_decide; set_solver.
    + exists (q :: failed). split_and!.
      * by rewrite fmap_cons, <- app_assoc.
      * constructor; [|done]. intros [_ [? H]]%Hf. by rewrite lookup_delete_eq in H.
      * intros q'. rewrite elem_of_cons, Hf. destruct (decide (q' = q)) as [->|].
        -- split; [|naive_solver]. intros _. split; [set_solver|by eexists].
        -- rewrite lookup_delete_ne by done. set_solver.
  - split_and!; [done..| |].
    + intros q'. rewrite Hw. destruct (decide (q' = q)) as [->|]; repeat case_decide; set_solver.
    + exists failed. split_and!; [done..|]. intros q'. rewrite Hf, elem_of_cons. split; [naive_solver|].
      intros [[->|?] Hs]; [|done]. rewrite Hq in Hs. by destruct Hs.
Qed.

(** No task is left waiting when the reader stops. *)
Lemma on_receive_error_waiting m :
  mux_ok m → m.(reader_alive) = true → (on_receive_error m).(waiting) = ∅.
Proof.
  intros Hok Ha. unfold on_receive_error. rewrite Ha. cbn [negb].
  match goal with |- context [fail_all ?m' ?l] => destruct (fail_all_spec l m') as (_ & _ & _ & _ & Hw & _) end.
  apply map_eq. intros q. rewrite Hw, lookup_empty. case_decide as Hd; [done|]. cbn in *.
  destruct (m.(waiting) !! q) as [[id o]|] eqn:E; [|done]. destruct Hd.
  apply list_elem_of_fmap. exists (id, q). split; [done|]. apply elem_of_map_to_list. by eapply waiting_pending.
Qed.

Lemma on_receive_error_ok m : mux_ok m → mux_ok (on_receive_error m).
Proof.
  intros Hok. destruct m.(reader_alive) eqn:Ha; [|unfold on_receive_error; by rewrite Ha].
  pose proof (on_receive_error_waiting m Hok Ha) as Hw. unfold on_receive_error in *. rewrite Ha in *. cbn [negb] in *.
  match goal with |- mux_ok (fail_all ?m' ?l) =>
    destruct (fail_all_spec l m') as (Hp & Hs & _ & _ & _ & failed & Hr & Hnd & Hf) end.
  destruct Hok as [H1 H2 H3 H4 H5 H6]. split.
  1-4: rewrite ?Hw, ?Hp; cbn; intros *; rewrite ?lookup_empty; done.
  - intros q r. rewrite Hr, Hs, Hw. cbn. intros [[? ?]%H5|[q' [[= -> ->] Hin]]%list_elem_of_fmap]%elem_of_app.
    + by rewrite lookup_empty.
    + apply Hf in Hin as [_ [w Hw']]. split; [by eapply H2|apply lookup_empty].
  - rewrite Hr. cbn. rewrite fmap_app, <- list_fmap_compose.
    rewrite (list_fmap_ext _ id failed), list_fmap_id by done.
    apply NoDup_app. split_and!; [done| |done].
    intros q [[q' r] [-> Hin]]%list_elem_of_fmap Hq. cbn in *. apply Hf in Hq as [_ [w Hw']]. cbn in Hw'.
    apply H5 in Hin. destruct Hin. congruence.
Qed.

Lemma step_ok m e : mux_ok m → mux_ok (step m e).
Proof.
  intros Hok. destruct e; cbn [step]; auto using on_query_ok, on_datagram_ok, on_receive_error_ok, abandon_ok.
  destruct Hok as [H1 H2 H3 H4 H5 H6]. split; cbn; eauto.
  - intros q' id o [_ ?]%lookup_delete_Some. eauto.
  - intros q' w [_ ?]%lookup_delete_Some. eauto.
  - intros q' r [? ?]%H5. split; [done|]. apply lookup_delete_None. by right.
Qed.

Lemma run_ok es m : mux_ok m → mux_ok (run m es).
Proof. unfold run. revert m. induction es as [|e es IH]; cbn; intros m Hm; [done|]. by apply IH, step_ok. Qed.

(** ** Answers reach the query that asked *)

Definition wf_event (e : event) : Prop :=
  match e with Query r => Forall u8 r | Datagram b _ => Forall u8 b | _ => True end.

(** What a history says about the state: every waiting task is one of its queries,
    sent with the task's id, and every answer is a datagram with the id its query
    was sent with, which got the query's own id back. *)
Definition answer_of (es : list event) (sent : list bytes) (q : nat) (response : bytes) : Prop :=
  ∃ request id buffer n,
    requests es !! q = Some request ∧ stamp id request ∈ sent ∧ Datagram buffer n ∈ es ∧
    take 2 buffer = to_be 2 id ∧ (2 ≤ length (take n buffer))%nat ∧
    response = take 2 request ++ drop 2 (take n buffer).

Record history_ok (es : list event) (m : Mux) : Prop := {
  history_started : length (requests es) = m.(started);
  history_waiting q id o : m.(waiting) !! q = Some (id, o) →
    ∃ request, requests es !! q = Some request ∧ stamp id request ∈ m.(sent) ∧
      take 2 request = to_be 2 o ∧ u16 id;
  history_answers q response : (q, Ok response) ∈ m.(results) → answer_of es m.(sent) q response;
}.

Lemma answer_of_mono es e sent sent' q r :
  answer_of es sent q r → sent ⊆ sent' → answer_of (es ++ [e]) sent' q r.
Proof.
  intros (request & id & b & n & Hr & Hs & Hd & ?) Hsub. exists request, id, b, n.
  unfold requests. rewrite omap_app. split_and!; [by apply lookup_app_l_Some|auto|set_solver|tauto..].
Qed.

(** A step that starts no query and sends nothing keeps what is known. *)
Lemma history_quiet es e m m' :
  history_ok es m → (∀ r, e ≠ Query r) → m'.(started) = m.(started) → m'.(sent) = m.(sent) →
  (∀ q w, m'.(waiting) !! q = Some w → m.(waiting) !! q = Some w) →
  (∀ q r, (q, Ok r) ∈ m'.(results) → (q, Ok r) ∈ m.(results) ∨ answer_of (es ++ [e]) m.(sent) q r) →
  history_ok (es ++ [e]) m'.
Proof.
  intros [H1 H2 H3] He Hs Hsent Hw Hr.
  assert (Hreq : requests (es ++ [e]) = requests es).
  { unfold requests. rewrite omap_app. destruct e; cbn; rewrite ?app_nil_r; naive_solver. }
  split; rewrite ?Hreq, ?Hs, ?Hsent; [done|eauto|].
  intros q r [?%H3|?]%Hr; [|done]. eapply answer_of_mono; [done|set_solver].
Qed.

Lemma dns_id_take r o : Forall u8 r → dns_id r = Ok o → take 2 r = to_be 2 o.
Proof.
  unfold dns_id, slice_get. intros Hr H. apply bind_Ok in H as (b & Hb%context_Ok & Ho).
  destruct (_ && _) eqn:E in Hb; [|done]. bool_to_prop. injection Hb as <-.
  assert (Hl : length (take 2 r) = 2%nat) by (rewrite length_take; lia).
  destruct (take 2 r) as [|a [|b [|]]] eqn:Et; [done..| |done]. 
  assert (Hf : Forall u8 [a; b]) by (rewrite <- Et; by apply Forall_take).
  rewrite drop_0, Et in Ho. injection Ho as <-. symmetry. by apply (to_be_of_be [a; b]).
Qed.

Lemma history_query es m r :
  mux_ok m → history_ok es m → Forall u8 r → history_ok (es ++ [Query r]) (on_query m r).
Proof.
  intros Hok [H1 H2 H3] Hu.
  assert (Hreq : requests (es ++ [Query r]) = requests es ++ [r]) by (unfold requests; by rewrite omap_app).
  assert (Hfail : ∀ next e, (∀ b, e ≠ Ok b) → history_ok (es ++ [Query r]) (finish (mkMux m.(pending) next
    m.(reader_alive) (S m.(started)) m.(waiting) m.(sent) m.(results)) m.(started) e)).
  { intros next e He. split; cbn [started waiting results finish sent]; rewrite ?Hreq.
    - rewrite length_app, H1. cbn. lia.
    - intros q id o [_ (x & ? & ?)%H2]%lookup_delete_Some. exists x. split; [by apply lookup_app_l_Some|done].
    - intros q b [Hin%H3|[= -> E]%list_elem_of_singleton]%elem_of_app; [|naive_solver].
      by eapply answer_of_mono. }
  unfold on_query. destruct (dns_id r) as [o| | |] eqn:Ho; try by apply Hfail.
  destruct (allocate _ _ _) as [[id|] next] eqn:Ha; [|by apply Hfail]. apply allocate_Some in Ha as [_ Hid].
  split; cbn [started waiting results finish sent]; rewrite ?Hreq.
  - rewrite length_app, H1. cbn. lia.
  - intros q id' o' [[<- [= <- <-]]|[_ (x & ? & ? & ?)%H2]]%lookup_insert_Some.
    + exists r. split_and!; [by apply list_lookup_middle|set_solver|by apply dns_id_take|done].
    + exists x. split_and!; [by apply lookup_app_l_Some|set_solver|tauto..].
  - intros q b Hin%H3. eapply answer_of_mono; [done|set_solver].
Qed.

Lemma history_datagram es m b n :
  mux_ok m → history_ok es m → Forall u8 b → history_ok (es ++ [Datagram b n]) (on_datagram m b n).
Proof.
  intros Hok Hh Hu. unfold on_datagram.
  destruct (negb _); [by eapply history_quiet; eauto|].
  destruct b as [|b0 [|b1 b]]; [by eapply history_quiet; eauto..|].
  destruct (m.(pending) !! of_be [b0; b1]) as [q|] eqn:Hp; [|by eapply history_quiet; eauto].
  cbn [waiting with_pending]. destruct (m.(waiting) !! q) as [[id o]|] eqn:Hw; [|by eapply history_quiet; eauto].
  pose proof (pending_inj _ Hok _ _ _ Hp (waiting_pending _ Hok _ _ _ Hw)) as Hid.
  eapply history_quiet; eauto.
  { cbn. intros q' w [_ ?]%lookup_delete_Some. done. }
  cbn [results finish with_pending]. intros q' r [?|[= -> Hr]%list_elem_of_singleton]%elem_of_app; [by left|right].
  unfold restore_id in Hr. destruct (2 <=? _)%nat eqn:Hl; bool_to_prop; [|done]. injection Hr as ->.
  destruct (history_waiting _ _ Hh _ _ _ Hw) as (request & Hreq & Hs & Ht & _).
  exists request, id, (b0 :: b1 :: b), n. split_and!; [|done|set_solver| |done|by rewrite Ht].
  - unfold requests. rewrite omap_app. by apply lookup_app_l_Some.
  - rewrite <- Hid. symmetry. apply (to_be_of_be [b0; b1]). exact (Forall_take u8 2 _ Hu).
Qed.

Lemma history_step es m e :
  mux_ok m → history_ok es m → wf_event e → history_ok (es ++ [e]) (step m e).
Proof.
  intros Hok Hh Hw. destruct e as [r|q|b n| |q|q]; cbn [step] in *;
    [by apply history_query| |by apply history_datagram| | |].
  1,3: unfold abandon; destruct (m.(waiting) !! q) as [[id o]|]; eapply history_quiet; eauto; cbn;
    [by intros ?? [_ ?]%lookup_delete_Some|
     intros q' r [?|[=]%list_elem_of_singleton]%elem_of_app; by left].
  - unfold on_receive_error. destruct (negb _); [by eapply history_quiet; eauto|].
    match goal with |- history_ok _ (fail_all ?m' ?l) =>
      destruct (fail_all_spec l m') as (_ & Hs & Hsent & _ & Hwt & failed & Hr & _) end.
    eapply history_quiet; eauto.
    + intros q w. rewrite Hwt. by case_decide.
    + intros q r. rewrite Hr. intros [?|[? [[=] _]]%list_elem_of_fmap]%elem_of_app. by left.
  - eapply history_quiet; eauto. cbn. by intros ?? [_ ?]%lookup_delete_Some.
Qed.

Lemma run_snoc m es e : run m (es ++ [e]) = step (run m es) e.
Proof. apply fold_left_app. Qed.

Lemma run_history next es : Forall wf_event es → history_ok es (run (mux_new next) es).
Proof.
  induction es as [|e es IH] using rev_ind; intros Hwf.
  - split; cbn; [done| |set_solver]. intros ???. by rewrite lookup_empty.
  - apply Forall_app in Hwf as [Hes [He _]%Forall_cons]. rewrite run_snoc.
    apply history_step; [apply run_ok, mux_new_ok|auto|done].
Qed.

(** C16: however queries, datagrams, errors, timeouts and dropped tasks interleave on
    the shared socket, a query finishes at most once, and one that succeeds gets a
    datagram that carried the wire id its own request was sent with, with the id of
    its request put back and the rest of the datagram unchanged. *)
Theorem answers_match_queries next es q response :
  Forall wf_event es → (q, Ok response) ∈ (run (mux_new next) es).(results) →
  answer_of es (run (mux_new next) es).(sent) q response ∧
  NoDup (run (mux_new next) es).(results).*1.
Proof.
  intros Hwf Hin. split; [by eapply history_answers; [apply run_history|]|].
  apply results_once, run_ok, mux_new_ok.
Qed.

Lemma answers_match_queries_witness :
  let es := [Query [0; 7; 1; 0]; Query [0; 7; 1; 1]; Datagram [0; 2; 9] 3; Datagram [0; 1; 8; 0] 4] in
  (1%nat, Ok [0; 7; 9]) ∈ (run (mux_new 1) es).(results) ∧
  answer_of es (run (mux_new 1) es).(sent) 1 [0; 7; 9].
Proof.
  assert (H : (1%nat, Ok [0; 7; 9]) ∈ (run (mux_new 1)
    [Query [0; 7; 1; 0]; Query [0; 7; 1; 1]; Datagram [0; 2; 9] 3; Datagram [0; 1; 8; 0] 4]).(results))
    by (apply list_elem_of_lookup_2 with (i := 0%nat); vm_compute; reflexivity).
  split; [exact H|]. refine (proj1 (answers_match_queries _ _ _ _ _ H)).
  repeat constructor; lia.
Defined.

(** ** Ids that are never given back *)

Definition owned (m : Mux) : Prop :=
  ∀ id q, m.(pending) !! id = Some q → ∃ o, m.(waiting) !! q = Some (id, o).

Lemma owned_finish m q id o r :
  mux_ok m → owned m → m.(waiting) !! q = Some (id, o) →
  owned (finish (with_pending m (delete id m.(pending))) q r).
Proof.
  intros Hok Ho Hw id' q'. cbn. intros [Hne Hp]%lookup_delete_Some. destruct (Ho _ _ Hp) as [o' Hw'].
  exists o'. cbn. rewrite lookup_delete_ne; [done|]. intros <-. congruence.
Qed.

Lemma owned_step m e : mux_ok m → owned m → (∀ q, e ≠ Cancel q) → owned (step m e).
Proof.
  intros Hok Ho He. destruct e as [r|q|b n| |q|q]; cbn [step]; [| | | | |naive_solver].
  2,5: unfold abandon; destruct (m.(waiting) !! q) as [[id o]|] eqn:Hw; [by eapply owned_finish|done].
  - unfold on_query. assert (Hd : delete m.(started) m.(waiting) = m.(waiting)).
    { apply delete_id. destruct (_ !! _) as [w|] eqn:E; [|done]. apply (waiting_started _ Hok) in E. lia. }
    destruct (dns_id r) as [o| | |]; [|by intros ??; cbn; rewrite Hd; apply Ho..].
    destruct (allocate _ _ _) as [[id|] next]; [|by intros ??; cbn; rewrite Hd; apply Ho].
    intros id' q. cbn. intros [[<- <-]|[_ Hp]]%lookup_insert_Some; [exists o; apply lookup_insert_eq|].
    destruct (Ho _ _ Hp) as [o' Hw]. exists o'. rewrite lookup_insert_ne; [done|].
    apply (waiting_started _ Hok) in Hw. lia.
  - unfold on_datagram. destruct (negb _); [done|]. destruct b as [|b0 [|b1 b]]; [done..|].
    generalize (of_be [b0; b1]). intros id. destruct (m.(pending) !! id) as [q|] eqn:Hp; [|done].
    destruct (Ho _ _ Hp) as [o Hw]. cbn [waiting with_pending]. rewrite Hw. by eapply owned_finish.
  - unfold on_receive_error. destruct (negb _); [done|]. intros id q.
    match goal with |- context [fail_all ?m' ?l] => destruct (fail_all_spec l m') as (-> & _) end.
    cbn. by rewrite lookup_empty.
Qed.

(** While no task is dropped, an id is taken exactly as long as its query waits:
    answered, failed and timed-out queries give theirs back, so a query is refused
    for want of an id only while 65536 others wait. *)
Theorem ids_given_back next es id q :
  Forall (λ e, ∀ q, e ≠ Cancel q) es →
  let m := run (mux_new next) es in
  m.(pending) !! id = Some q ↔ ∃ o, m.(waiting) !! q = Some (id, o).
Proof.
  intros Hes m. assert (Hok : mux_ok m) by apply run_ok, mux_new_ok.
  split; [|intros [o Ho]; by eapply waiting_pending]. subst m. clear Hok. revert id q.
  induction es as [|e es IH] using rev_ind; [intros ??; cbn; by rewrite lookup_empty|].
  apply Forall_app in Hes as [Hes [He _]%Forall_cons]. rewrite run_snoc.
  apply owned_step; [apply run_ok, mux_new_ok|exact (IH Hes)|done].
Qed.

Lemma ids_given_back_witness :
  (run (mux_new 1) [Query [0; 7]; Query [0; 9]; Datagram [0; 1; 8] 3]).(pending) !! 2 = Some 1%nat.
Proof.
  refine (proj2 (ids_given_back 1 [Query [0; 7]; Query [0; 9]; Datagram [0; 1; 8] 3] 2 1 _) _);
    [repeat constructor; done|]. exists 9. vm_compute. reflexivity.
Defined.

(** Queries that are dropped one after the other, by a caller whose own time is up. *)
Fixpoint dropped (n : nat) : list event :=
  match n with O => [] | S n => dropped n ++ [Query [0; 7]; Cancel n] end.

Lemma run_app m es es' : run m (es ++ es') = run (run m es) es'.
Proof. apply fold_left_app. Qed.

Lemma pow16 : Z.to_nat (2 ^ 16) = (2 ^ 16)%nat.
Proof. apply Nat2Z.inj. rewrite Z2Nat.id, Nat2Z.inj_pow by lia. reflexivity. Qed.

Lemma full_pending (p : gmap Z nat) :
  (∀ id, is_Some (p !! id) → u16 id) → (∀ id, u16 id → is_Some (p !! id)) → size p = (2 ^ 16)%nat.
Proof.
  intros Hb Hf.
  assert (E : dom p = list_to_set (C := gset Z) (seqZ 0 (2 ^ 16))).
  { apply set_eq. intros id. rewrite elem_of_dom, elem_of_list_to_set, elem_of_seqZ. unfold u16, uint in *.
    split; [intros ?%Hb; lia|intros; apply Hf; lia]. }
  rewrite <- size_dom, E, size_list_to_set by apply NoDup_seqZ. by rewrite length_seqZ, pow16.
Qed.

Lemma run_dropped next n :
  (n ≤ 2 ^ 16)%nat →
  let m := run (mux_new next) (dropped n) in
  size m.(pending) = n ∧ m.(waiting) = ∅ ∧ m.(started) = n.
Proof.
  induction n as [|n IH]; [done|]. intros Hn. destruct IH as (Hs & Hw & Hst); [lia|].
  cbn [dropped]. rewrite run_app.
  assert (Hok : mux_ok (run (mux_new next) (dropped n))) by apply run_ok, mux_new_ok.
  revert Hs Hw Hst Hok. generalize (run (mux_new next) (dropped n)). intros m Hs Hw Hst Hok.
  unfold run. cbn [fold_left step]. unfold on_query. change (dns_id [0; 7]) with (Ok 7). cbn iota.
  destruct (allocate _ _ _) as [[id|] next'] eqn:Ha.
  - cbn. apply allocate_Some in Ha as [Hfree _]. rewrite map_size_insert_None, Hst, Hw, Hs by done.
    split_and!; [done| |done]. by rewrite delete_insert_eq, delete_empty.
  - exfalso. assert (size m.(pending) = (2 ^ 16)%nat); [|lia]. apply full_pending.
    + intros id [q Hq]. by apply (pending_started _ Hok) in Hq as [_ ?].
    + intros id Hid. by eapply allocate_exhausted.
Qed.

(** With every id taken, a query is refused. *)
Lemma full_refuses m request o :
  mux_ok m → size m.(pending) = (2 ^ 16)%nat → dns_id request = Ok o →
  (step m (Query request)).(results) =
    m.(results) ++ [(m.(started), Err "DNS UDP transaction ID space exhausted"%string)].
Proof.
  intros Hok Hs Ho. cbn [step]. unfold on_query. rewrite Ho.
  destruct (allocate _ _ _) as [[id|] next'] eqn:Ha; [|reflexivity]. exfalso.
  apply allocate_Some in Ha as [Hfree Hid].
  assert (size (<[id := 0%nat]> m.(pending)) ≤ 2 ^ 16)%nat; [|rewrite map_size_insert_None in *; [lia|assumption]].
  rewrite <- size_dom.
  assert (Hsub : dom (<[id := 0%nat]> m.(pending)) ⊆ list_to_set (C := gset Z) (seqZ 0 (2 ^ 16))).
  { intros i. rewrite dom_insert, elem_of_union, elem_of_singleton, elem_of_dom, elem_of_list_to_set, elem_of_seqZ.
    unfold u16, uint in *. intros [->|[q Hq]]; [lia|]. apply (pending_started _ Hok) in Hq as [_ ?].
    unfold u16, uint in *. lia. }
  apply subseteq_size in Hsub. rewrite size_list_to_set, length_seqZ in Hsub by apply NoDup_seqZ.
  by rewrite pow16 in Hsub.
Qed.

(** A task that is dropped while it waits never gives its id back: after 65536
    dropped queries with no answer, though none waits, the next query fails. *)
Theorem dropped_queries_exhaust_ids next request o :
  dns_id request = Ok o →
  (run (mux_new next) (dropped (2 ^ 16))).(waiting) = ∅ ∧
  (step (run (mux_new next) (dropped (2 ^ 16))) (Query request)).(results) =
    (run (mux_new next) (dropped (2 ^ 16))).(results) ++
      [((run (mux_new next) (dropped (2 ^ 16))).(started), Err "DNS UDP transaction ID space exhausted"%string)].
Proof.
  intros Ho. destruct (run_dropped next _ (le_n _)) as (Hs & Hw & _).
  exact (conj Hw (full_refuses _ _ _ (run_ok _ _ (mux_new_ok _)) Hs Ho)).
Qed.

Lemma dropped_queries_exhaust_ids_witness :
  (run (mux_new 3) (dropped (2 ^ 16))).(waiting) = ∅.
Proof. exact (proj1 (dropped_queries_exhaust_ids 3 [0; 7] 7 eq_refl)). Defined.

(** After a receive error the reader is gone for good: no query is answered over
    this socket again. *)
Lemma dead_reader_no_answers es m :
  m.(reader_alive) = false → ∀ q b, (q, Ok b) ∈ (run m es).(results) → (q, Ok b) ∈ m.(results).
Proof.
  intros Ha. cut ((run m es).(reader_alive) = false ∧ ∀ q b, (q, Ok b) ∈ (run m es).(results) → (q, Ok b) ∈ m.(results)).
  { tauto. }
  induction es as [|e es [IHa IH]] using rev_ind; [done|]. rewrite run_snoc.
  revert IHa IH. generalize (run m es). clear Ha. intros m' Ha IH.
  assert (Hfin : ∀ m1 q1 e1 q b, m1.(results) = m'.(results) → (q, Ok b) ∈ (finish m1 q1 (Err e1)).(results) → (q, Ok b) ∈ m.(results)).
  { cbn. intros m1 q1 e1 q b -> [?|[=]%list_elem_of_singleton]%elem_of_app. auto. }
  destruct e; cbn [step].
  - unfold on_query. destruct (dns_id request); [|split; [done|intros q b; by apply Hfin]..].
    destruct (allocate _ _ _) as [[]]; [done|]. split; [done|intros q b; by apply Hfin].
  - unfold abandon. destruct (_ !! _) as [[]|]; [|done]. split; [done|intros q' b; by apply Hfin].
  - unfold on_datagram. rewrite Ha. done.
  - unfold on_receive_error. by rewrite Ha.
  - unfold abandon. destruct (_ !! _) as [[]|]; [|done]. split; [done|intros q' b; by apply Hfin].
  - done.
Qed.
