(* ===== verification/DnsResolver.v ===== *)
(** * The DNS resolver (src/src/dns/mod.rs)

    What the resolver does with a name or with a DNS message: the rule that
    applies, the upstream that is asked, the key under which the answer is cached
    and what comes back.  The network, the system resolver, the random ids and the
    clock are the fields of an environment; the cache is threaded as state.  The
    sharing of a query between callers ([Flight]) is in DnsFlight.v: here a caller
    runs alone and is always the leader. *)

From S2P Require Import Prelude RustStr Net Util DnsMessage DnsReply DnsCache Routing DnsRule DnsTransport.

(** ** Data *)

(** [singbox::DnsConfig], less the field [independent_cache] that nothing reads *)
Record DnsConfig := mkDnsConfig {
  c_servers : list DnsServer;
  c_rules : list DnsRule;
  final_server : option str;
  c_strategy : option str;
  c_disable_cache : option bool;
  c_disable_expire : option bool;
  cache_capacity : option Z;
  optimistic : option Value;
  c_timeout : option str;
  reverse_mapping : bool;
  c_client_subnet : option str;
}.

Record LookupOptions := mkOptions {
  o_server : option str;
  o_disable_cache : bool;
  o_rewrite_ttl : option Z;
  o_timeout : option Z;
  o_strategy : option str;
  o_client_subnet : option str;
}.

Definition default_options : LookupOptions := mkOptions None false None None None None.

Definition DNS_TIMEOUT : Z := 5 * secs.

(** What the outside answers: [query] is [Upstream::query] under a timeout,
    [hosts] the system resolver, [id] the random transaction id, [now] the clock
    when the cache is looked up and [later] when an answer is stored. *)
Record Env := mkEnv {
  query : Upstream → Z → bytes → result bytes;
  hosts : str → result (list IpAddr);
  id : Z;
  now : Z;
  later : Z;
}.

(** [tokio::time::timeout(t, server.query(..))]: either the answer or, when it is
    late, the timeout. *)
Definition timed_query (io : Io) (installed : bool) (late : Upstream → Z → bytes → bool)
    (u : Upstream) (t : Z) (q : bytes) : result bytes :=
  if late u t q then Err "DNS query timeout" else upstream_query io installed u q.

Section resolver.
Context `{N : IpNetLib} `{R : RegexLib} `{HI : !HashIter CacheKey CacheEntry}.

Abbreviation rule_set_map := (gmap str (list CompiledRule)).

(** [Inner], less the cache. *)
Record Inner := mkInner {
  servers : gmap str Upstream;
  rules : list CompiledDnsRule;
  final_tag : str;
  cache_enabled : bool;
  i_strategy : option str;
  i_timeout : Z;
  i_client_subnet : option str;
  rule_sets : option rule_set_map;
}.

Definition build_servers (l : list DnsServer) : result (gmap str Upstream) :=
  us ← map_result (λ c, u ← upstream_new c; Ok (c.(ds_tag), u)) l;
  Ok (fold_left (λ m (p : str * Upstream), <[p.1 := p.2]> m) us ∅).

(** [roots] and [http] are the outcomes of loading the native certificates and of
    building the HTTP client. *)
Definition with_rule_sets (roots http : result unit) (config : DnsConfig) (sets : option rule_set_map)
    : result (Inner * DnsCache) :=
  _ ← validate_strategy config.(c_strategy);
  _ ← match config.(c_client_subnet) with
      | Some subnet => _ ← parse_client_subnet subnet; Ok tt
      | None => Ok tt
      end;
  if config.(reverse_mapping) then
    Err "DNS reverse_mapping requires a TUN-style inbound and is not supported"
  else if is_some_and config.(optimistic) optimistic_enabled then
    Err "optimistic DNS cache is not supported"
  else
  _ ← iter_result (λ rule, validate_dns_rule rule true) config.(c_rules);
  dns_timeout ← parse_duration_or config.(c_timeout) DNS_TIMEOUT;
  _ ← (if existsb (λ s, str_eqb s.(ds_type) (lit "tls")) config.(c_servers) then roots else Ok tt);
  servers ← build_servers config.(c_servers);
  final_tag ← context (match config.(final_server) with
                       | Some tag => Some tag
                       | None => ds_tag <$> head config.(c_servers)
                       end) "DNS requires a server";
  match servers !! final_tag with
  | None => Err "unknown final DNS server"
  | Some _ =>
    rules ← map_result DnsRule.compile config.(c_rules);
    _ ← http;
    Ok (mkInner servers rules final_tag (negb (default false config.(c_disable_cache)))
          config.(c_strategy) dns_timeout config.(c_client_subnet) sets,
        DnsCache.new (Z.max (default 4096 config.(cache_capacity)) 1)
          (default false config.(c_disable_expire)))
  end.

(** ** Rules *)

Definition select_rule (inner : Inner) (name : str) (qtype : Z) : option CompiledDnsRule :=
  List.find (λ rule, DnsRule.matches rule name qtype inner.(rule_sets)) inner.(rules).

Definition select_server (inner : Inner) (name : str) (qtype : Z) : result Upstream :=
  let tag := default inner.(final_tag) (r ← select_rule inner name qtype; (rf r).(f_server)) in
  context (inner.(servers) !! tag) "unknown DNS server".

Definition action_is (rule : option CompiledDnsRule) (action : string) : bool :=
  bool_decide ((r ← rule; (rf r).(f_action)) = Some (lit action)).

Definition rule_records (r : CompiledDnsRule) : list str :=
  (rf r).(f_answer) ++ (rf r).(f_ns) ++ (rf r).(f_extra).

(** ** The cache *)

(** [cached] for a caller that finds no flight under way. *)
Definition cached (inner : Inner) (e : Env) (key : CacheKey)
    (load : DnsCache → DnsCache * result (CacheValue * Z)) (s : DnsCache) : DnsCache * result CacheValue :=
  match (if inner.(cache_enabled) then get s key e.(now) else Ok (s, None)) with
  | Ok (s, Some value) => (s, Ok value)
  | Ok (s, None) =>
    match load s with
    | (s, Ok (value, ttl)) =>
      if inner.(cache_enabled) && negb (ttl =? 0) then
        match insert s key value ttl e.(later) with
        | Ok s => (s, Ok value)
        | Err msg => (s, Err msg)
        | Panic => (s, Panic)
        | Diverge => (s, Diverge)
        end
      else (s, Ok value)
    | (s, Err msg) => (s, Err msg)
    | (s, Panic) => (s, Panic)
    | (s, Diverge) => (s, Diverge)
    end
  | Err msg => (s, Err msg)
  | Panic => (s, Panic)
  | Diverge => (s, Diverge)
  end.

(** [.clamp(1, 86400)] seconds as a duration *)
Definition clamp_ttl (ttl : Z) : Z := Z.max 1 (Z.min ttl 86400) * secs.

(** ** Lookups *)

(** The addresses of the records of a [predefined] rule. *)
Fixpoint predefined_addresses (qtype : Z) (records : list str) : result (list IpAddr) :=
  match records with
  | [] => Ok []
  | record :: records =>
    record ← parse_dns_record record;
    found ←
      (if (qtype =? 1) && (record.(kind) =? 1) then
         Ok (if (length record.(rdata) =? 4)%nat then [V4 (of_be record.(rdata))] else [])
       else if (qtype =? 28) && (record.(kind) =? 28) then
         if (length record.(rdata) =? 16)%nat then Ok [V6 (of_be record.(rdata))]
         else Err "invalid AAAA record"
       else Ok []);
    rest ← predefined_addresses qtype records;
    Ok (found ++ rest)
  end.

(** The order of [IpAddr]: IPv4 before IPv6, then by the address. *)
Definition ip_le (a b : IpAddr) : bool :=
  match a, b with
  | V4 x, V4 y | V6 x, V6 y => x <=? y
  | V4 _, V6 _ => true
  | V6 _, V4 _ => false
  end.

(** [Vec::dedup] *)
Fixpoint dedup (l : list IpAddr) : list IpAddr :=
  match l with
  | x :: l' =>
    match l' with
    | y :: _ => if bool_decide (x = y) then dedup l' else x :: dedup l'
    | [] => [x]
    end
  | [] => []
  end.

(** What [load] of [lookup_type] returns. *)
Definition lookup_load (inner : Inner) (e : Env) (name : str) (qtype : Z) (server_tag : option str)
    (client_subnet : option str) (query_timeout : Z) (rewrite_ttl : option Z) : result (CacheValue * Z) :=
  server ←
    match server_tag with
    | Some tag => context (inner.(servers) !! tag) "unknown DNS server"
    | None => select_server inner name qtype
    end;
  if str_eqb server.(u_config).(ds_type) (lit "local") then
    found ← e.(hosts) name;
    Ok (Addresses (List.filter (family_matches qtype) found), clamp_ttl (default 30 rewrite_ttl))
  else
  request ← build_query_with_subnet e.(id) name qtype client_subnet;
  response ← e.(query) server query_timeout request;
  '(addresses, ttl) ← parse_response e.(id) qtype response;
  Ok (Addresses addresses, clamp_ttl (default ttl rewrite_ttl)).

(** The address limit of the rule on the addresses found. *)
Definition limit_addresses (inner : Inner) (rule : option CompiledDnsRule) (name : str)
    (addresses : list IpAddr) : result (list IpAddr) :=
  match rule with
  | None => Ok addresses
  | Some rule =>
    if dns_rule_has_address_limit rule inner.(rule_sets)
       && negb (dns_rule_address_limit_matches rule name addresses inner.(rule_sets))
    then Err "DNS response rejected by rule-set address limit"
    else Ok addresses
  end.

(** The first of two options. *)
Definition or {A} (a b : option A) : option A := match a with Some _ => a | None => b end.

(** The rule of a lookup: none when the caller names the server. *)
Definition lookup_rule (inner : Inner) (name : str) (qtype : Z) (options : LookupOptions)
    : option CompiledDnsRule :=
  match options.(o_server) with None => select_rule inner name qtype | Some _ => None end.

(** What [lookup_type] computes before it loads: the key, the timeout and whether
    the cache is bypassed. *)
Record Plan := mkPlan {
  p_server : option str;
  p_subnet : option str;
  p_timeout : Z;
  p_rewrite_ttl : option Z;
  p_disable_cache : bool;
}.

Definition lookup_plan (inner : Inner) (rule : option CompiledDnsRule) (options : LookupOptions)
    : result Plan :=
  let server_tag := or options.(o_server) (r ← rule; (rf r).(f_server)) in
  let client_subnet :=
    or options.(o_client_subnet) (or (r ← rule; (rf r).(f_client_subnet)) inner.(i_client_subnet)) in
  _ ← match client_subnet with
      | Some subnet => _ ← parse_client_subnet subnet; Ok tt
      | None => Ok tt
      end;
  rule_timeout ←
    match r ← rule; (rf r).(f_timeout) with
    | Some t => d ← parse_duration t; Ok (Some d)
    | None => Ok None
    end;
  Ok (mkPlan server_tag client_subnet
        (default inner.(i_timeout) (or options.(o_timeout) rule_timeout))
        (or options.(o_rewrite_ttl) (r ← rule; (rf r).(f_rewrite_ttl)))
        (options.(o_disable_cache) || is_some_and rule (λ r, (rf r).(f_disable_cache)))).

Definition lookup_key (name : str) (qtype : Z) (p : Plan) : CacheKey :=
  Lookup name qtype p.(p_server) p.(p_subnet).

(** The records of a [predefined] rule as addresses. *)
Definition predefined_lookup (qtype : Z) (r : CompiledDnsRule) : result (list IpAddr) :=
  rcode ← parse_rcode (rf r).(f_rcode);
  if negb (rcode =? 0) then Err "DNS lookup rejected by rule with rcode" else
  addresses ← predefined_addresses qtype (rule_records r);
  Ok (dedup (sort_by ip_le addresses)).

Definition lookup_type (inner : Inner) (e : Env) (name : str) (qtype : Z) (options : LookupOptions)
    (s : DnsCache) : DnsCache * result (list IpAddr) :=
  let rule := lookup_rule inner name qtype options in
  if action_is rule "reject" then (s, Err "DNS lookup rejected by rule") else
  match (if action_is rule "predefined" then rule else None) with
  | Some r => (s, predefined_lookup qtype r)
  | None =>
    match lookup_plan inner rule options with
    | Ok p =>
      let load := lookup_load inner e name qtype p.(p_server) p.(p_subnet) p.(p_timeout) p.(p_rewrite_ttl) in
      let '(s, value) :=
        if p.(p_disable_cache) then (s, v ← load; Ok v.1)
        else cached inner e (lookup_key name qtype p) (λ s, (s, load)) s in
      (s, value ← value;
          match value with
          | Addresses addresses => limit_addresses inner rule name addresses
          | WireValue _ => Err "invalid DNS address cache entry"
          end)
    | Err msg => (s, Err msg)
    | Panic => (s, Panic)
    | Diverge => (s, Diverge)
    end
  end.

(** The order of [sort_by_key] with a boolean key. *)
Definition key_le (key : IpAddr → bool) (a b : IpAddr) : bool := implb (key a) (key b).

Definition lookup_strategy (inner : Inner) (name : str) (options : LookupOptions) : option str :=
  or options.(o_strategy)
    (or (r ← or (select_rule inner name 1) (select_rule inner name 28); (rf r).(f_strategy))
       inner.(i_strategy)).

(** The addresses of both families, in the order of the strategy. *)
Definition merge_addresses (strategy : option str) (a aaaa : result (list IpAddr)) : result (list IpAddr) :=
  let found :=
    match a, aaaa with
    | Ok a, Ok aaaa => a ++ aaaa
    | Ok a, _ => a
    | _, Ok aaaa => aaaa
    | _, _ => []
    end in
  let result := dedup (sort_by ip_le found) in
  let result :=
    if bool_decide (strategy = Some (lit "prefer_ipv4")) then sort_by (key_le (λ a, negb (is_ipv4 a))) result
    else if bool_decide (strategy = Some (lit "prefer_ipv6")) then sort_by (key_le is_ipv4) result
    else result in
  match result with [] => Err "DNS returned no addresses" | _ => Ok result end.

(** A panic of a lookup is a panic of the caller; [e4] and [e6] are what the two
    lookups, which run at the same time, meet. *)
Definition lookup_with_options (inner : Inner) (e4 e6 : Env) (domain : str) (options : LookupOptions)
    (s : DnsCache) : DnsCache * result (list IpAddr) :=
  let name := normalize domain in
  let strategy := lookup_strategy inner name options in
  match validate_strategy strategy with
  | Ok _ =>
    let '(s, a) :=
      if bool_decide (strategy = Some (lit "ipv6_only")) then (s, Ok [])
      else lookup_type inner e4 name 1 options s in
    let '(s, aaaa) :=
      if bool_decide (strategy = Some (lit "ipv4_only")) then (s, Ok [])
      else lookup_type inner e6 name 28 options s in
    (s, match a, aaaa with
        | (Ok _ | Err _), (Ok _ | Err _) => merge_addresses strategy a aaaa
        | Panic, _ | _, Panic => Panic
        | _, _ => Diverge
        end)
  | Err msg => (s, Err msg)
  | Panic => (s, Panic)
  | Diverge => (s, Diverge)
  end.

Definition lookup_with (inner : Inner) (e4 e6 : Env) (domain : str) (server_tag : option str)
    (disable_cache : bool) : DnsCache → DnsCache * result (list IpAddr) :=
  lookup_with_options inner e4 e6 domain (mkOptions server_tag disable_cache None None None None).

Definition lookup (inner : Inner) (e4 e6 : Env) (domain : str) : DnsCache → DnsCache * result (list IpAddr) :=
  lookup_with_options inner e4 e6 domain default_options.

(** ** Messages *)

Definition upstream_of (inner : Inner) (rule : option CompiledDnsRule) : str :=
  default inner.(final_tag) (r ← rule; (rf r).(f_server)).

(** What [load] of [exchange] returns: the answer with a zero id. *)
Definition exchange_load (inner : Inner) (e : Env) (rule : option CompiledDnsRule) (server : Upstream)
    (request_id : Z) (name : str) (qtype : Z) (question_end : nat) (wire : bytes) : result (CacheValue * Z) :=
  response ←
    (if str_eqb server.(u_config).(ds_type) (lit "local") then
       found ← e.(hosts) name; local_response found wire qtype question_end
     else
       rule_timeout ←
         match r ← rule; (rf r).(f_timeout) with
         | Some t => d ← parse_duration t; Ok (Some d)
         | None => Ok None
         end;
       e.(query) server (default inner.(i_timeout) rule_timeout) wire);
  _ ← validate_response request_id response;
  response ←
    match r ← rule; (rf r).(f_rewrite_ttl) with
    | Some ttl => rewrite_response_ttls response ttl
    | None => Ok response
    end;
  code ← index response 3;
  let ttl := if (Z.land code 15 =? 0) || (Z.land code 15 =? 3) then clamp_ttl (response_ttl response) else 0 in
  canonical ← copy_from_slice response 0 [0; 0];
  Ok (WireValue canonical, ttl).

Definition exchange (checks : bool) (inner : Inner) (e : Env) (request : bytes) (s : DnsCache)
    : DnsCache * result bytes :=
  match parse_question request, dns_id request with
  | Ok (name, qtype, question_end), Ok request_id =>
    let rule := select_rule inner name qtype in
    if action_is rule "reject" then
      (s, if bool_decide ((r ← rule; (rf r).(f_method)) = Some (lit "drop"))
          then Err "DNS query dropped by rule" else refused_response request question_end)
    else
    match (if action_is rule "predefined" then rule else None) with
    | Some r =>
      (s, rcode ← parse_rcode (rf r).(f_rcode);
          records ← map_result parse_dns_record (rule_records r);
          predefined_response checks request question_end rcode records)
    | None =>
      let server_tag := upstream_of inner rule in
      let prepared :=
        server ← context (inner.(servers) !! server_tag) "unknown DNS server";
        wire ← match or (r ← rule; (rf r).(f_client_subnet)) inner.(i_client_subnet) with
               | Some subnet => add_client_subnet request subnet
               | None => Ok request
               end;
        Ok (server, wire) in
      match prepared with
      | Ok (server, wire) =>
        let key := WireKey (canonical_query wire) server_tag in
        let load := exchange_load inner e rule server request_id name qtype question_end wire in
        let '(s, value) :=
          if is_some_and rule (λ r, (rf r).(f_disable_cache)) then (s, v ← load; Ok v.1)
          else cached inner e key (λ s, (s, load)) s in
        (s, value ← value;
            match value with
            | WireValue response => copy_from_slice response 0 (to_be 2 request_id)
            | Addresses _ => Err "invalid DNS wire cache entry"
            end)
      | Err msg => (s, Err msg)
      | Panic => (s, Panic)
      | Diverge => (s, Diverge)
      end
    end
  | Err msg, _ => (s, Err msg)
  | Panic, _ => (s, Panic)
  | Diverge, _ => (s, Diverge)
  | _, Err msg => (s, Err msg)
  | _, Panic => (s, Panic)
  | _, Diverge => (s, Diverge)
  end.

(** ** ECH *)

Definition ech_config (checks : bool) (inner : Inner) (e : Env) (domain : str) (s : DnsCache)
    : DnsCache * result (bytes * Z) :=
  match build_query e.(id) (normalize domain) 65 with
  | Ok query =>
    let '(s, response) := exchange checks inner e query s in
    (s, response ← response;
        '(config, ttl) ← parse_https_ech e.(id) response;
        Ok (config, clamp_ttl ttl))
  | Err msg => (s, Err msg)
  | Panic => (s, Panic)
  | Diverge => (s, Diverge)
  end.

(** [inside] is what the exchange of the load meets. *)
Definition cached_ech_config (checks : bool) (inner : Inner) (e inside : Env) (domain : str) (s : DnsCache)
    : DnsCache * result bytes :=
  let load s :=
    let '(s, r) := ech_config checks inner inside domain s in
    (s, '(config, ttl) ← r; Ok (WireValue config, ttl)) in
  let '(s, value) := cached inner e (EchKey (normalize domain)) load s in
  (s, value ← value;
      match value with
      | WireValue config => Ok config
      | Addresses _ => Err "invalid DNS ECH cache entry"
      end).

(** [EchCache::config]: the configuration in use and when it ends; [now] is read
    at each of the three places. *)
Definition ech_cache_config (now1 now2 now3 : Z) (load : result (bytes * Z)) (state : option (bytes * Z))
    : option (bytes * Z) * result bytes :=
  let current now := match state with
                     | Some (config, expires) => if now <? expires then Some config else None
                     | None => None
                     end in
  match current now1, current now2 with
  | Some config, _ => (state, Ok config)
  | None, Some config => (state, Ok config)
  | None, None =>
    match load with
    | Ok (config, ttl) =>
      match instant_add now3 (Z.max ttl secs) with
      | Ok expires => (Some (config, expires), Ok config)
      | Err msg => (state, Err msg)
      | Panic => (state, Panic)
      | Diverge => (state, Diverge)
      end
    | Err msg => (state, Err msg)
    | Panic => (state, Panic)
    | Diverge => (state, Diverge)
    end
  end.

End resolver.

(** ** What the cache holds *)

(** The value a key calls for: addresses of the family that was asked for, a DNS
    message with its header, an ECH configuration. *)
Definition value_ok (k : CacheKey) (v : CacheValue) : Prop :=
  match k, v with
  | Lookup _ qtype _ _, Addresses l => Forall (λ a, family_matches qtype a = true) l
  | WireKey _ _, WireValue b => (12 ≤ length b)%nat
  | EchKey _, WireValue _ => True
  | _, _ => False
  end.

Definition cache_typed (s : DnsCache) : Prop := ∀ k e, s.(entries) !! k = Some e → value_ok k e.(value).

Lemma map_ttls_keeps f b : ∃ b', map_ttls f b = Ok b' ∧ length b' = length b.
Proof.
  pose proof (returns_ttl_offsets b) as Hr. destruct (ttl_offsets b) as [offs|msg| |] eqn:E; [| |done..].
  - pose proof (ttl_offsets_spec _ _ E) as (_ & _ & Hs & _).
    destruct (write_ttls_spec f b offs Hs) as (b' & Hw & Hl & _). exists b'. unfold map_ttls. by rewrite E.
  - exists b. by erewrite map_ttls_error.
Qed.

Lemma purge_loop_sub heap m now : (purge_loop m heap now).1 ⊆ m.
Proof.
  revert m. induction heap as [|r heap IH]; intros m; cbn; [done|]. destruct (_ <=? _); [|done].
  etrans; [apply IH|]. destruct (is_expired _ _ _); [apply delete_subseteq|done].
Qed.

Lemma evict_loop_sub q m cap : (evict_loop m q cap).1 ⊆ m.
Proof.
  revert m. induction q as [|r q IH]; intros m; cbn; destruct (_ >? _); [done..| |done].
  etrans; [apply IH|]. destruct (is_current _ _); [apply delete_subseteq|done].
Qed.

Section facts.
Context `{N : IpNetLib} `{R : RegexLib} `{HI : !HashIter CacheKey CacheEntry}.

Lemma entries_compact s : (compact_lru s).(entries) = s.(entries).
Proof. unfold compact_lru. by destruct (_ <=? _). Qed.

Lemma insert_typed s k v ttl now s' :
  cache_typed s → value_ok k v → insert s k v ttl now = Ok s' → cache_typed s'.
Proof.
  unfold insert. intros Hs Hv H. apply bind_Ok in H as (x & _ & [= <-]). intros k' e.
  rewrite entries_compact. unfold evict_lru. cbn [entries lru capacity].
  destruct (evict_loop _ _ _) as [m q] eqn:E. cbn [entries]. intros Hl.
  assert (Hm : m ⊆ (evict_loop (<[k:=mkEntry v x now (wrapping_add 64 (clock (purge_expired s now)) 1)
    (wrapping_add 64 (clock (purge_expired s now)) 1)]> (entries (purge_expired s now)))
    (lru (purge_expired s now) ++ [(wrapping_add 64 (clock (purge_expired s now)) 1,
    wrapping_add 64 (clock (purge_expired s now)) 1, k)]) (capacity (purge_expired s now))).1) by (by rewrite E).
  pose proof (transitivity Hm (evict_loop_sub _ _ _)) as Hsub.
  eapply lookup_weaken in Hl; [|exact Hsub].
  apply lookup_insert_Some in Hl as [[<- <-]|[_ Hl]]; [done|]. apply Hs.
  unfold purge_expired in Hl. destruct (disable_expire s); [done|].
  destruct (purge_loop _ _ _) as [m' h] eqn:E'. cbn in Hl.
  eapply lookup_weaken; [exact Hl|]. pose proof (purge_loop_sub (expiry s) (entries s) now) as Hp.
  by rewrite E' in Hp.
Qed.

(** A value that is handed out is what its key calls for. *)
Lemma get_typed s k now :
  cache_typed s →
  ∃ s' r, get s k now = Ok (s', r) ∧ cache_typed s' ∧ ∀ v, r = Some v → value_ok k v.
Proof.
  intros Hs. unfold get. destruct (s.(entries) !! k) as [e|] eqn:E; [|by exists s, None].
  destruct (negb _ && _).
  { eexists _, _. split; [done|]. split; [|done]. intros k' e'. cbn. intros [_ ?]%lookup_delete_Some. by apply Hs. }
  assert (Hv : value_ok k e.(value)) by (by apply Hs).
  assert (Hage : ∃ v, match e.(value) with
    | WireValue response =>
      r ← age_response_ttls response (Z.min (secs_since now e.(inserted)) u32_max); Ok (WireValue r)
    | v => Ok v end = Ok v ∧ value_ok k v).
  { destruct e.(value) as [l|b]; [by eauto|].
    destruct (map_ttls_keeps (λ t, saturating_sub t (Z.min (secs_since now e.(inserted)) u32_max)) b)
      as (b' & Hb & Hl). unfold age_response_ttls. rewrite Hb.
    exists (WireValue b'). split; [done|]. destruct k; cbn in *; [done|lia|done]. }
  destruct Hage as (v & -> & Hv'). eexists _, _. split; [reflexivity|]. split; [|by intros ? [= <-]].
  intros k' e'. rewrite entries_compact. cbn [entries].
  intros [[<- <-]|[_ ?]]%lookup_insert_Some; [done|by apply Hs].
Qed.

(** [cached] keeps the cache typed and returns what the key calls for. *)
Lemma cached_typed inner e k load s :
  cache_typed s →
  (∀ s, cache_typed s → let '(s', r) := load s in
     cache_typed s' ∧ ∀ v ttl, r = Ok (v, ttl) → value_ok k v) →
  let '(s', r) := cached inner e k load s in cache_typed s' ∧ ∀ v, r = Ok v → value_ok k v.
Proof.
  intros Hs Hload. unfold cached.
  assert (Hg : ∃ s1 r1, (if inner.(cache_enabled) then get s k e.(now) else Ok (s, None)) = Ok (s1, r1) ∧
    cache_typed s1 ∧ ∀ v, r1 = Some v → value_ok k v).
  { destruct inner.(cache_enabled); [by apply get_typed|]. by exists s, None. }
  destruct Hg as (s1 & r1 & -> & Hs1 & Hr1). destruct r1 as [v|].
  { split; [done|]. intros v' [= <-]. auto. }
  specialize (Hload s1 Hs1). destruct (load s1) as [s2 [[v ttl]|msg| |]]; destruct Hload as [Hs2 Hv]; try done.
  specialize (Hv v ttl eq_refl). destruct (_ && _); [|split; [done|by intros ? [= <-]]].
  destruct (insert s2 k v ttl e.(later)) as [s3|msg| |] eqn:Hi; try done.
  split; [exact (insert_typed _ _ _ _ _ _ Hs2 Hv Hi)|by intros ? [= <-]].
Qed.

(** ** Lookups *)

Lemma Forall_filter_family qtype l : Forall (λ a, family_matches qtype a = true) (List.filter (family_matches qtype) l).
Proof. apply Forall_forall. intros a Ha. apply list_elem_of_In, filter_In in Ha. tauto. Qed.

Lemma response_records_family n qtype b p out ttl r ttl' :
  response_records n qtype b p out ttl = Ok (r, ttl') →
  Forall (λ a, family_matches qtype a = true) out → Forall (λ a, family_matches qtype a = true) r.
Proof.
  revert p out ttl. induction n as [|n IH]; intros p out ttl; cbn [response_records]; [by intros [= <- _]|].
  intros H Ho. repeat (apply bind_Ok in H as (? & ? & H) || (destruct (_ <? _)%nat in H; [done|])).
  destruct x3 as [out' ttl1]. eapply IH; [exact H|]. clear H IH.
  destruct (x0 =? qtype) eqn:Et in H4; [|by injection H4 as <- _]. bool_to_prop. subst x0.
  apply bind_Ok in H4 as (o & Ho' & [= <- _]). destruct (_ && _) eqn:E1 in Ho'; [|destruct (_ && _) eqn:E2 in Ho'].
  - apply bind_Ok in Ho' as (a & _ & [= <-]). bool_to_prop. subst. apply Forall_app. by repeat constructor.
  - apply bind_Ok in Ho' as (a & _ & [= <-]). bool_to_prop. subst. apply Forall_app. by repeat constructor.
  - by injection Ho' as <-.
Qed.

Lemma parse_response_family id qtype b l ttl :
  parse_response id qtype b = Ok (l, ttl) → Forall (λ a, family_matches qtype a = true) l.
Proof.
  unfold parse_response. intros H.
  repeat (apply bind_Ok in H as (? & ? & H) || (destruct (_ <? _)%nat in H; [done|]) ||
    match type of H with (if ?c then Err _ else _) = _ => destruct c; [done|] end).
  match goal with x : (list IpAddr * Z)%type |- _ => destruct x as [out t] end. injection H as <- _.
  by eapply response_records_family.
Qed.

Lemma lookup_load_family inner e name qtype tag subnet t rt v ttl :
  lookup_load inner e name qtype tag subnet t rt = Ok (v, ttl) →
  ∃ l, v = Addresses l ∧ Forall (λ a, family_matches qtype a = true) l.
Proof.
  unfold lookup_load. intros H. apply bind_Ok in H as (u & _ & H). destruct (str_eqb _ _).
  - apply bind_Ok in H as (found & _ & [= <- _]). eexists. split; [done|]. apply Forall_filter_family.
  - apply bind_Ok in H as (q & _ & H). apply bind_Ok in H as (r & _ & H).
    apply bind_Ok in H as ([l ttl'] & Hp & [= <- _]). exists l. split; [done|]. by eapply parse_response_family.
Qed.

Lemma dedup_elem x l : x ∈ dedup l ↔ x ∈ l.
Proof.
  induction l as [|y [|z l] IH]; [done..|]. cbn [dedup]. cbn [dedup] in IH. case_bool_decide as E.
  - subst. rewrite IH. set_solver.
  - rewrite !elem_of_cons, IH. by rewrite elem_of_cons.
Qed.

Lemma predefined_addresses_family qtype records l :
  predefined_addresses qtype records = Ok l → Forall (λ a, family_matches qtype a = true) l.
Proof.
  revert l. induction records as [|r records IH]; intros l; cbn [predefined_addresses]; [by intros [= <-]|].
  intros H. apply bind_Ok in H as (rec & _ & H). apply bind_Ok in H as (found & Hf & H).
  apply bind_Ok in H as (rest & Hrest & [= <-]). apply Forall_app. split; [|by apply IH].
  destruct ((qtype =? 1) && _) eqn:E1; [|destruct ((qtype =? 28) && _) eqn:E2].
  - bool_to_prop. injection Hf as <-. subst. destruct (_ =? _)%nat; by repeat constructor.
  - bool_to_prop. subst. destruct (_ =? _)%nat; [|done]. injection Hf as <-. by repeat constructor.
  - injection Hf as <-. constructor.
Qed.

Lemma lookup_type_typed inner e name qtype options s :
  cache_typed s →
  let '(s', r) := lookup_type inner e name qtype options s in
  cache_typed s' ∧ ∀ l, r = Ok l → Forall (λ a, family_matches qtype a = true) l.
Proof.
  intros Hs. unfold lookup_type. destruct (action_is _ "reject"); [done|].
  destruct (if action_is _ "predefined" then _ else None) as [r|].
  { split; [done|]. intros l Hl. unfold predefined_lookup in Hl. apply bind_Ok in Hl as (c & _ & Hl).
    destruct (negb _); [done|]. apply bind_Ok in Hl as (a & Ha & [= <-]).
    apply predefined_addresses_family in Ha. rewrite Forall_forall in *. intros x Hx.
    apply Ha. by rewrite dedup_elem, sort_by_perm in Hx. }
  destruct (lookup_plan _ _ _) as [p|msg| |]; [|done..].
  set (load := lookup_load _ _ _ _ _ _ _ _).
  assert (Hload : ∀ v ttl, load = Ok (v, ttl) → value_ok (lookup_key name qtype p) v).
  { intros v ttl (l & -> & Hl)%lookup_load_family. done. }
  assert (Hlimit : ∀ rule l l', limit_addresses inner rule name l = Ok l' → l' = l).
  { intros rule l l'. unfold limit_addresses. destruct rule; [|by intros [=]]. destruct (_ && _); [done|]. by intros [=]. }
  assert (Hfin : ∀ (value : result CacheValue) rule l, (∀ v, value = Ok v → value_ok (lookup_key name qtype p) v) →
    (v ← value; match v with Addresses a => limit_addresses inner rule name a
     | WireValue _ => Err "invalid DNS address cache entry" end) = Ok l →
    Forall (λ a, family_matches qtype a = true) l).
  { intros value rule l Hv Hl. apply bind_Ok in Hl as (v & -> & Hl). specialize (Hv v eq_refl).
    destruct v; [|done]. apply Hlimit in Hl as ->. exact Hv. }
  destruct p.(p_disable_cache).
  - split; [done|]. intros l. apply Hfin. intros v Hv. apply bind_Ok in Hv as ([v' ttl] & Hl & [= <-]). eauto.
  - pose proof (cached_typed inner e (lookup_key name qtype p) (λ s, (s, load)) s Hs
      (λ s0 Hs0, conj Hs0 Hload)) as Hc.
    destruct (cached _ _ _ _ _) as [s' value]. destruct Hc as [Hs' Hv]. split; [done|]. intros l. by apply Hfin.
Qed.

(** ** Messages *)

Lemma validate_response_Ok id b : validate_response id b = Ok tt → (12 ≤ length b)%nat.
Proof. unfold validate_response. destruct (_ <? _)%nat eqn:E; [done|]. by bool_to_prop. Qed.

Lemma exchange_load_typed inner e rule server id name qtype qe wire v ttl :
  exchange_load inner e rule server id name qtype qe wire = Ok (v, ttl) →
  ∃ b, v = WireValue b ∧ (12 ≤ length b)%nat.
Proof.
  unfold exchange_load. intros H. apply bind_Ok in H as (r & _ & H).
  apply bind_Ok in H as ([] & Hv%validate_response_Ok & H). apply bind_Ok in H as (r' & Hr & H).
  apply bind_Ok in H as (c & _ & H). apply bind_Ok in H as (b & Hb & [= <- _]).
  exists b. split; [done|]. apply copy_from_slice_length in Hb as ->.
  destruct (rule ≫= _) as [t|]; [|by injection Hr as <-].
  destruct (map_ttls_keeps (λ _, t) r) as (b' & Hb' & Hl). unfold rewrite_response_ttls in Hr. rewrite Hb' in Hr.
  injection Hr as <-. lia.
Qed.

(** A message whose first bytes are those of the request. *)
Definition answers (request response : bytes) : Prop :=
  (12 ≤ length response)%nat ∧ take 2 response = take 2 request.

Lemma answers_restored id request b b' :
  Forall u8 request → dns_id request = Ok id → (12 ≤ length b)%nat →
  copy_from_slice b 0 (to_be 2 id) = Ok b' → answers request b'.
Proof.
  intros Hu Hid Hl H. pose proof (copy_from_slice_length _ _ _ _ H) as Hl'. split; [lia|].
  rewrite copy_from_slice_Ok in H by (rewrite length_to_be; lia). apply Ok_inj in H as <-.
  rewrite (dns_id_take request id) by done. rewrite take_0, app_nil_l.
  by rewrite take_app_le, take_ge by (rewrite length_to_be; lia).
Qed.

(** Writes after the id keep it. *)
Lemma answers_store request b i v b' :
  answers request b → (2 ≤ i)%nat → store b i v = Ok b' → answers request b'.
Proof.
  intros [Hl Ht] Hi. unfold store. destruct (_ <? _)%nat; [|done]. intros [= <-].
  split; [by rewrite length_insert|]. by rewrite take_insert_ge.
Qed.

Lemma answers_copy request b i src b' :
  answers request b → (2 ≤ i)%nat → copy_from_slice b i src = Ok b' → answers request b'.
Proof.
  intros [Hl Ht] Hi H. pose proof (copy_from_slice_length _ _ _ _ H). split; [lia|].
  unfold copy_from_slice in H. destruct (_ <=? _)%nat eqn:E; [|done]. bool_to_prop. injection H as <-.
  rewrite take_app_le by (rewrite length_take; lia). rewrite take_take, Nat.min_l by lia. done.
Qed.

Lemma answers_question request name qtype e b :
  parse_question request = Ok (name, qtype, e) → slice_get request 0 e = Some b → answers request b.
Proof.
  intros Hq Hb. destruct (question_header _ _ _ _ Hq) as (x0&x1&x2&x3&x4&x5&x6&x7&x8&x9&x10&x11&tl&->&Hs&He&_).
  rewrite Hs in Hb. injection Hb as <-. split; [cbn; lia|done].
Qed.

Lemma write_records_prefix checks name records b w b' w' :
  write_records checks name records b w = Ok (b', w') → ∃ post, b' = b ++ post.
Proof.
  revert b w. induction records as [|r records IH]; intros b w; cbn [write_records].
  { intros [= <- _]. exists []. by rewrite app_nil_r. }
  destruct (record_owner name r); [|apply IH]. intros H. apply bind_Ok in H as (x & _ & H).
  apply bind_Ok in H as (y & _ & H). destruct (IH _ _ H) as [post ->]. exists (x ++ post). by rewrite app_assoc.
Qed.

Lemma predefined_response_answers checks request name qtype e rcode records r :
  parse_question request = Ok (name, qtype, e) →
  predefined_response checks request e rcode records = Ok r → answers request r.
Proof.
  intros Hq H. unfold predefined_response in H. rewrite Hq in H. cbn [mbind result_bind] in H.
  apply bind_Ok in H as (b & Hb%context_Ok & H). pose proof (answers_question _ _ _ _ _ Hq Hb) as Ha.
  apply bind_Ok in H as (b1 & H1 & H). eapply answers_store in H1; [|done|lia].
  apply bind_Ok in H as (b2 & H2 & H). eapply answers_store in H2; [|done|lia].
  apply bind_Ok in H as (b3 & H3 & H). eapply answers_copy in H3 as [Hl Ht]; [|done|lia].
  apply bind_Ok in H as ([b4 w] & H4 & H). apply write_records_prefix in H4 as [post ->].
  eapply (answers_copy request (b3 ++ post) 6); [|lia|exact H].
  split; [rewrite length_app; lia|]. rewrite take_app_le by lia. done.
Qed.

Lemma refused_response_answers request name qtype e r :
  parse_question request = Ok (name, qtype, e) → refused_response request e = Ok r → answers request r.
Proof.
  intros Hq H. unfold refused_response in H.
  apply bind_Ok in H as (b & Hb%context_Ok & H). pose proof (answers_question _ _ _ _ _ Hq Hb) as Ha.
  apply bind_Ok in H as (x & _ & H). apply bind_Ok in H as (b1 & H1 & H). eapply answers_store in H1; [|done|lia].
  apply bind_Ok in H as (y & _ & H). apply bind_Ok in H as (b2 & H2 & H). eapply answers_store in H2; [|done|lia].
  eapply (answers_copy request b2 6); [done|lia|exact H].
Qed.

Lemma exchange_typed checks inner e request s :
  cache_typed s →
  let '(s', r) := exchange checks inner e request s in
  cache_typed s' ∧ (Forall u8 request → ∀ b, r = Ok b → answers request b).
Proof.
  intros Hs. unfold exchange. destruct (parse_question request) as [[[name qtype] qe]|msg| |] eqn:Hq; [|done..].
  destruct (dns_id request) as [id|msg| |] eqn:Hid; [|done..].
  destruct (action_is _ "reject").
  { split; [done|]. intros _ b. case_bool_decide; [done|]. by eapply refused_response_answers. }
  destruct (if action_is _ "predefined" then _ else None) as [r|].
  { split; [done|]. intros _ b H. apply bind_Ok in H as (c & _ & H). apply bind_Ok in H as (l & _ & H).
    by eapply predefined_response_answers. }
  match goal with |- context [match ?p with Ok _ => _ | Err _ => _ | Panic => _ | Diverge => _ end] =>
    destruct p as [[server wire]|msg| |]; [|done..] end.
  set (load := exchange_load _ _ _ _ _ _ _ _ _). set (key := WireKey _ _).
  assert (Hload : ∀ v ttl, load = Ok (v, ttl) → value_ok key v).
  { intros v ttl (b & -> & Hb)%exchange_load_typed. done. }
  assert (Hfin : ∀ (value : result CacheValue), (∀ v, value = Ok v → value_ok key v) →
    Forall u8 request → ∀ b, (v ← value; match v with WireValue r => copy_from_slice r 0 (to_be 2 id)
       | Addresses _ => Err "invalid DNS wire cache entry" end) = Ok b → answers request b).
  { intros value Hv Hu b Hb. apply bind_Ok in Hb as (v & -> & Hb). specialize (Hv v eq_refl).
    destruct v as [l|r]; [done|]. exact (answers_restored id request r b Hu Hid Hv Hb). }
  destruct (is_some_and _ _).
  - split; [done|]. apply Hfin. intros v Hv. apply bind_Ok in Hv as ([v' ttl] & Hl & [= <-]). eauto.
  - pose proof (cached_typed inner e key (λ s, (s, load)) s Hs (λ s0 Hs0, conj Hs0 Hload)) as Hc.
    destruct (cached _ _ _ _ _) as [s' value]. destruct Hc as [Hs' Hv]. split; [done|]. by apply Hfin.
Qed.

Lemma ech_config_typed checks inner e domain s :
  cache_typed s → cache_typed (ech_config checks inner e domain s).1.
Proof.
  intros Hs. unfold ech_config. destruct (build_query _ _ _) as [q|msg| |]; [|done..].
  pose proof (exchange_typed checks inner e q s Hs) as H. destruct (exchange _ _ _ _ _) as [s' r]. apply H.
Qed.

Lemma cached_ech_config_typed checks inner e inside domain s :
  cache_typed s → cache_typed (cached_ech_config checks inner e inside domain s).1.
Proof.
  intros Hs. unfold cached_ech_config.
  set (load := λ s, let '(s, r) := ech_config checks inner inside domain s in
    (s, '(config, ttl) ← r; Ok (WireValue config, ttl))).
  pose proof (cached_typed inner e (EchKey (normalize domain)) load s Hs) as H.
  destruct (cached _ _ _ load s) as [s' value]. apply H. intros s0 Hs0. subst load. cbn beta.
  pose proof (ech_config_typed checks inner inside domain s0 Hs0) as H0.
  destruct (ech_config _ _ _ _ _) as [s1 r]. split; [exact H0|]. intros v ttl Hv.
  apply bind_Ok in Hv as ([c t] & _ & [= <- _]). done.
Qed.

(** ** Histories *)

Inductive Op :=
  | OpLookup (e4 e6 : Env) (domain : str) (options : LookupOptions)
  | OpExchange (e : Env) (request : bytes)
  | OpEch (e inside : Env) (domain : str).

Definition step (checks : bool) (inner : Inner) (s : DnsCache) (op : Op) : DnsCache :=
  match op with
  | OpLookup e4 e6 domain options => (lookup_with_options inner e4 e6 domain options s).1
  | OpExchange e request => (exchange checks inner e request s).1
  | OpEch e inside domain => (cached_ech_config checks inner e inside domain s).1
  end.

Lemma lookup_with_options_typed inner e4 e6 domain options s :
  cache_typed s → cache_typed (lookup_with_options inner e4 e6 domain options s).1.
Proof.
  intros Hs. unfold lookup_with_options. destruct (validate_strategy _) as [u|msg| |]; [|done..].
  set (name := normalize domain). set (strategy := lookup_strategy _ _ _).
  assert (H : ∀ qtype e (b : bool) s, cache_typed s →
    cache_typed (if b then (s, Ok []) else lookup_type inner e name qtype options s).1).
  { intros qtype e b s0 Hs0. destruct b; [done|]. pose proof (lookup_type_typed inner e name qtype options s0 Hs0).
    destruct (lookup_type _ _ _ _ _ _). tauto. }
  pose proof (H 1 e4 (bool_decide (strategy = Some (lit "ipv6_only"))) s Hs) as H1.
  destruct (if bool_decide (strategy = Some (lit "ipv6_only")) then _ else _) as [s1 a].
  pose proof (H 28 e6 (bool_decide (strategy = Some (lit "ipv4_only"))) s1 H1) as H2.
  by destruct (if bool_decide (strategy = Some (lit "ipv4_only")) then _ else _) as [s2 aaaa].
Qed.

Lemma step_typed checks inner s op : cache_typed s → cache_typed (step checks inner s op).
Proof.
  destruct op; cbn [step]; intros Hs;
    [by apply lookup_with_options_typed| |by apply cached_ech_config_typed].
  pose proof (exchange_typed checks inner e request s Hs) as H. destruct (exchange _ _ _ _ _). apply H.
Qed.

Lemma new_typed cap never : cache_typed (DnsCache.new cap never).
Proof. intros k e. cbn. by rewrite lookup_empty. Qed.

Lemma run_typed checks inner ops s : cache_typed s → cache_typed (fold_left (step checks inner) ops s).
Proof. revert s. induction ops as [|op ops IH]; cbn; intros s Hs; [done|]. by apply IH, step_typed. Qed.

(** C17: the entries of the cache are typed by their keys: whatever lookups,
    exchanges and ECH requests are made, with any answers of the network, an entry
    for an address lookup holds addresses of the family it was asked for, one for
    a message a message with a full header, and one for ECH a configuration.  So
    what [cached] hands back is never the kind of value that is refused as an
    invalid cache entry, and the unchecked writes of the id stay inside it. *)
Theorem cache_stays_typed checks inner cap never ops k v now s' :
  let s := fold_left (step checks inner) ops (DnsCache.new cap never) in
  cache_typed s ∧ (get s k now = Ok (s', Some v) → value_ok k v).
Proof.
  intros s. assert (Hs : cache_typed s) by apply run_typed, new_typed.
  split; [done|]. intros Hg. destruct (get_typed s k now Hs) as (s1 & r & Hg' & _ & Hr).
  rewrite Hg in Hg'. injection Hg' as _ <-. auto.
Qed.

(** C18: an answer belongs to its question: whether it comes from a rule, from the
    cache, from the system resolver or from an upstream, after any history, the
    response to a DNS message is a full header that carries the id of that
    message. *)
Theorem exchange_answers checks inner cap never ops e request s' b :
  Forall u8 request →
  exchange checks inner e request (fold_left (step checks inner) ops (DnsCache.new cap never)) = (s', Ok b) →
  answers request b ∧ dns_id b = dns_id request.
Proof.
  intros Hu H.
  pose proof (exchange_typed checks inner e request _ (run_typed checks inner ops _ (new_typed cap never))) as Ht. rewrite H in Ht. destruct Ht as [_ Ht].
  destruct (Ht Hu b eq_refl) as [Hl Hid]. split; [done|].
  assert (Hr : length (take 2 request) = 2%nat) by (rewrite <- Hid, length_take; lia).
  rewrite length_take in Hr. unfold dns_id, slice_get. rewrite !(proj2 (Nat.leb_le 2 _)) by lia.
  cbn [Nat.leb andb]. by rewrite !drop_0, Nat.sub_0_r, Hid.
Qed.

(** ** The order of a lookup *)

Lemma ip_le_total a b : ip_le a b = false → ip_le b a = true.
Proof. destruct a, b; cbn; intros; bool_to_prop; try done; apply Z.leb_le; lia. Qed.

Lemma ip_le_trans a b c : ip_le a b = true → ip_le b c = true → ip_le a c = true.
Proof. destruct a, b, c; cbn; intros; bool_to_prop; try done; apply Z.leb_le; lia. Qed.

Lemma ip_le_antisym a b : ip_le a b = true → ip_le b a = true → a = b.
Proof. destruct a, b; cbn; intros; bool_to_prop; try done; f_equal; lia. Qed.

Lemma insert_by_ip_sorted x l :
  StronglySorted (λ a b, ip_le a b = true) l → StronglySorted (λ a b, ip_le a b = true) (insert_by ip_le x l).
Proof.
  induction 1 as [|y l Hl IH Hy]; cbn; [by repeat constructor|]. destruct (ip_le x y) eqn:E.
  - constructor; [by constructor|]. constructor; [done|]. eapply Forall_impl; [exact Hy|]. cbn.
    intros z. by apply ip_le_trans.
  - constructor; [done|]. rewrite insert_by_perm. constructor; [by apply ip_le_total|done].
Qed.

Lemma sort_ip_sorted l : StronglySorted (λ a b, ip_le a b = true) (sort_by ip_le l).
Proof. induction l as [|x l IH]; cbn; [constructor|by apply insert_by_ip_sorted]. Qed.

(** Sorted with no repetition. *)
Definition ip_lt (a b : IpAddr) : Prop := ip_le a b = true ∧ a ≠ b.

Lemma dedup_sorted l : StronglySorted (λ a b, ip_le a b = true) l → StronglySorted ip_lt (dedup l).
Proof.
  induction 1 as [|x l Hl IH Hx]; [constructor|]. destruct l as [|y l]; [by repeat constructor|].
  cbn [dedup] in *. case_bool_decide as E; [done|]. constructor; [done|]. apply Forall_forall. intros z Hz.
  assert (Hz' : z ∈ y :: l) by (by rewrite <- dedup_elem). rewrite Forall_forall in Hx. split; [by apply Hx|].
  intros <-. apply E. apply ip_le_antisym; [apply Hx; by left|].
  inversion Hl as [|? ? _ Hy]; subst. apply elem_of_cons in Hz' as [->|Hz']; [by apply Hx; left|].
  by apply (proj1 (Forall_forall _ _) Hy).
Qed.

Lemma ip_lt_NoDup l : StronglySorted ip_lt l → NoDup l.
Proof.
  induction 1 as [|x l _ IH Hx]; constructor; [|done]. intros Hin.
  apply (proj1 (Forall_forall _ _) Hx) in Hin as [_ ?]. done.
Qed.

(** A stable sort by a boolean key puts the elements without it first. *)
Lemma insert_by_key key x (l l' : list IpAddr) :
  Forall (λ a, key a = false) l → Forall (λ a, key a = true) l' →
  insert_by (key_le key) x (l ++ l') = if key x then l ++ x :: l' else x :: l ++ l'.
Proof.
  intros Hl Hl'. destruct (key x) eqn:Hx.
  - induction Hl as [|y l Hy Hl IH]; cbn.
    + destruct Hl' as [|z l' Hz Hl']; cbn; [done|]. unfold key_le. by rewrite Hx, Hz.
    + unfold key_le at 1. rewrite Hx, Hy. cbn. by rewrite IH.
  - destruct (l ++ l') as [|y k]; cbn; [done|]. unfold key_le. by rewrite Hx.
Qed.

Lemma sort_by_key key (l : list IpAddr) :
  sort_by (key_le key) l = List.filter (λ a, negb (key a)) l ++ List.filter key l.
Proof.
  induction l as [|x l IH]; [done|].
  change (sort_by (key_le key) (x :: l)) with (insert_by (key_le key) x (sort_by (key_le key) l)).
  rewrite IH, insert_by_key; cbn [List.filter].
  - by destruct (key x).
  - apply Forall_forall. intros a [_ ?%negb_true_iff]%list_elem_of_In%filter_In. done.
  - apply Forall_forall. intros a [_ ?]%list_elem_of_In%filter_In. done.
Qed.

Lemma StronglySorted_impl {A} (P Q : relation A) l :
  (∀ x y, P x y → Q x y) → StronglySorted P l → StronglySorted Q l.
Proof. intros HPQ. induction 1 as [|x l _ IH Hx]; constructor; [done|]. eapply Forall_impl; [exact Hx|]. auto. Qed.

Lemma StronglySorted_filter {A} (P : relation A) f l : StronglySorted P l → StronglySorted P (List.filter f l).
Proof.
  induction 1 as [|x l _ IH Hx]; cbn; [constructor|]. destruct (f x); [|done]. constructor; [done|].
  apply Forall_forall. intros y [Hy _]%list_elem_of_In%filter_In.
  apply (proj1 (Forall_forall _ _) Hx). by apply list_elem_of_In.
Qed.

(** The order a strategy asks for: by address inside a family, IPv6 before IPv4
    when it is preferred and IPv4 first otherwise. *)
Definition preferred_lt (strategy : option str) (a b : IpAddr) : Prop :=
  if bool_decide (strategy = Some (lit "prefer_ipv6")) then
    match a, b with
    | V6 x, V6 y | V4 x, V4 y => x < y
    | V6 _, V4 _ => True
    | V4 _, V6 _ => False
    end
  else
    match a, b with
    | V6 x, V6 y | V4 x, V4 y => x < y
    | V4 _, V6 _ => True
    | V6 _, V4 _ => False
    end.

Lemma ip_lt_iff strategy a b :
  strategy ≠ Some (lit "prefer_ipv6") → ip_lt a b ↔ preferred_lt strategy a b.
Proof.
  intros Hs. unfold ip_lt, preferred_lt. rewrite bool_decide_eq_false_2 by done.
  destruct a as [x|x], b as [y|y]; cbn [ip_le]; rewrite ?Z.leb_le; try naive_solver.
  all: split; [intros [? Hne]; assert (x ≠ y) by congruence; lia|intros; split; [lia|intros [= ->]; lia]].
Qed.

(** Inside a family the preference does not matter. *)
Lemma same_family strategy a b : is_ipv4 a = is_ipv4 b → ip_lt a b → preferred_lt strategy a b.
Proof.
  intros Hf [Hle Hne]. unfold preferred_lt. destruct a as [x|x], b as [y|y]; try done; cbn [ip_le] in Hle;
    apply Z.leb_le in Hle; assert (x ≠ y) by congruence; case_bool_decide; lia.
Qed.

Lemma families_sorted l :
  StronglySorted ip_lt l →
  StronglySorted (preferred_lt (Some (lit "prefer_ipv6")))
    (List.filter (λ a, negb (is_ipv4 a)) l ++ List.filter is_ipv4 l).
Proof.
  intros Hl.
  assert (Hin : ∀ f, (∀ a b, f a = true → f b = true → is_ipv4 a = is_ipv4 b) →
    StronglySorted (preferred_lt (Some (lit "prefer_ipv6"))) (List.filter f l)).
  { intros f Hf. assert (Hfa : Forall (λ a, f a = true) (List.filter f l)).
    { apply Forall_forall. intros a Ha. apply list_elem_of_In, filter_In in Ha. tauto. }
    pose proof (StronglySorted_filter ip_lt f l Hl) as Hs.
    induction Hs as [|x k Hk IH Hx]; [constructor|]. apply Forall_cons in Hfa as [Hfx Hfk].
    constructor; [by apply IH|]. apply Forall_forall. intros y Hy. rewrite Forall_forall in Hx, Hfk.
    apply same_family; auto. }
  apply StronglySorted_app_2; [|apply Hin; by intros [] []..].
  intros a b [_ Ha]%list_elem_of_In%filter_In [_ Hb]%list_elem_of_In%filter_In.
  unfold preferred_lt. rewrite bool_decide_eq_true_2 by done. by destruct a, b.
Qed.

Lemma sort_key_id l :
  StronglySorted ip_lt l → sort_by (key_le (λ a, negb (is_ipv4 a))) l = l.
Proof.
  intros Hl. rewrite sort_by_key. induction Hl as [|x l Hl IH Hx]; [done|]. destruct x as [x|x]; cbn; [by f_equal|].
  assert (H6 : Forall (λ a, is_ipv4 a = false) l).
  { eapply Forall_impl; [exact Hx|]. intros [y|y] [Hle _]; done. }
  clear -H6. assert (H : List.filter (λ a, negb (negb (is_ipv4 a))) l = [] ∧ List.filter (λ a, negb (is_ipv4 a)) l = l).
  { induction H6 as [|y l Hy H6 [IH1 IH2]]; [done|]. cbn. rewrite Hy. cbn. by rewrite IH1, IH2. }
  by destruct H as [-> ->].
Qed.

(** The addresses of both answers, each once, in the order of the strategy. *)
Lemma merge_addresses_spec strategy a aaaa l :
  merge_addresses strategy a aaaa = Ok l →
  l ≠ [] ∧ StronglySorted (preferred_lt strategy) l ∧ NoDup l ∧
  ∀ x, x ∈ l ↔ (∃ k, a = Ok k ∧ x ∈ k) ∨ (∃ k, aaaa = Ok k ∧ x ∈ k).
Proof.
  unfold merge_addresses. set (found := match a, aaaa with Ok _, Ok _ => _ | _, _ => _ end).
  pose proof (dedup_sorted _ (sort_ip_sorted found)) as Hd. set (d := dedup _) in *. intros H.
  assert (Hf : ∀ x, x ∈ found ↔ (∃ k, a = Ok k ∧ x ∈ k) ∨ (∃ k, aaaa = Ok k ∧ x ∈ k)).
  { intros x. subst found. destruct a, aaaa; rewrite ?elem_of_app; set_solver. }
  assert (Hx : ∀ x, x ∈ d ↔ (∃ k, a = Ok k ∧ x ∈ k) ∨ (∃ k, aaaa = Ok k ∧ x ∈ k)).
  { intros x. subst d. by rewrite dedup_elem, sort_by_perm. }
  assert (Hl : l ≠ [] ∧ StronglySorted (preferred_lt strategy) l ∧ l ≡ₚ d).
  { match type of H with match ?r with _ => _ end = _ => assert (Hr : l ≠ [] ∧ l = r) by
      (destruct r; [done|]; injection H as <-; done) end.
    destruct Hr as [Hne ->]. split; [done|]. clear H Hne. case_bool_decide as E1; [|case_bool_decide as E2].
    - rewrite sort_key_id by done. split; [|done]. eapply StronglySorted_impl; [|exact Hd].
      intros x y. apply ip_lt_iff. by rewrite E1.
    - rewrite E2, sort_by_key. split; [by apply families_sorted|]. rewrite <- sort_by_key. apply sort_by_perm.
    - split; [|done]. eapply StronglySorted_impl; [|exact Hd]. intros x y. by apply ip_lt_iff. }
  destruct Hl as (Hne & Hs & Hp). split_and!; [done..| |].
  - rewrite Hp. by apply ip_lt_NoDup.
  - intros x. by rewrite Hp.
Qed.

(** The family of the answers to a query type, when the strategy asks for it. *)
Definition allowed (strategy : option str) (a : IpAddr) : Prop :=
  (strategy = Some (lit "ipv4_only") → is_ipv4 a = true) ∧
  (strategy = Some (lit "ipv6_only") → is_ipv4 a = false).

(** A lookup that succeeds returns at least one address, each once, only of the
    families its strategy allows, and in the order the strategy asks for. *)
Theorem lookup_order checks inner cap never ops e4 e6 domain options s' l :
  lookup_with_options inner e4 e6 domain options
    (fold_left (step checks inner) ops (DnsCache.new cap never)) = (s', Ok l) →
  let strategy := lookup_strategy inner (normalize domain) options in
  l ≠ [] ∧ NoDup l ∧ StronglySorted (preferred_lt strategy) l ∧ Forall (allowed strategy) l.
Proof.
  pose proof (run_typed checks inner ops _ (new_typed cap never)) as Hs.
  revert Hs. generalize (fold_left (step checks inner) ops (DnsCache.new cap never)). intros s Hs H strategy.
  unfold lookup_with_options in H. fold strategy in H.
  destruct (validate_strategy strategy) as [u|msg| |]; [|done..].
  set (name := normalize domain) in *.
  assert (Hq : ∀ qtype e s, cache_typed s → let '(s', r) := lookup_type inner e name qtype options s in
    cache_typed s' ∧ ∀ l, r = Ok l → Forall (λ a, family_matches qtype a = true) l)
    by (intros; by apply lookup_type_typed).
  destruct (if bool_decide (strategy = Some (lit "ipv6_only")) then _ else _) as [s1 a] eqn:Ea.
  assert (Ha : cache_typed s1 ∧ ∀ k, a = Ok k → Forall (λ x, is_ipv4 x = true) k ∧
    (strategy = Some (lit "ipv6_only") → k = [])).
  { destruct (bool_decide (strategy = Some (lit "ipv6_only"))) eqn:E6; bool_to_prop; [injection Ea as <- <-; split; [done|by intros k [= <-]]|].
    specialize (Hq 1 e4 s Hs). rewrite Ea in Hq. destruct Hq as [? Hf]. split; [done|]. intros k Hk.
    split; [|done]. eapply Forall_impl; [by apply Hf|]. by intros []. }
  destruct Ha as [Hs1 Ha].
  destruct (if bool_decide (strategy = Some (lit "ipv4_only")) then _ else _) as [s2 aaaa] eqn:Eb.
  assert (Hb : ∀ k, aaaa = Ok k → Forall (λ x, is_ipv4 x = false) k ∧
    (strategy = Some (lit "ipv4_only") → k = [])).
  { destruct (bool_decide (strategy = Some (lit "ipv4_only"))) eqn:E4; bool_to_prop; [injection Eb as <- <-; by intros k [= <-]|].
    specialize (Hq 28 e6 s1 Hs1). rewrite Eb in Hq. destruct Hq as [_ Hf]. intros k Hk.
    split; [|done]. eapply Forall_impl; [by apply Hf|]. by intros []. }
  injection H as <- H.
  assert (Hm : merge_addresses strategy a aaaa = Ok l) by (by destruct a, aaaa).
  apply merge_addresses_spec in Hm as (Hne & Hsort & Hnd & Hin). split_and!; [done..|].
  apply Forall_forall. intros x [(k & Hk & Hx)|(k & Hk & Hx)]%Hin.
  - destruct (Ha _ Hk) as [Hf He]. split; intros E; [by apply (proj1 (Forall_forall _ _) Hf)|].
    rewrite (He E) in Hx. by apply elem_of_nil in Hx.
  - destruct (Hb _ Hk) as [Hf He]. split; intros E; [|by apply (proj1 (Forall_forall _ _) Hf)].
    rewrite (He E) in Hx. by apply elem_of_nil in Hx.
Qed.

(** ** Lookups return *)

Section returning.
Context `{NL : !IpNetLaws N}.

(** The network answers or fails, and the clock is far from its end. *)
Record env_ok (e : Env) : Prop := {
  query_returns u t q : returns (e.(query) u t q);
  hosts_returns name : returns (e.(hosts) name);
  later_bound : e.(later) + 86400 * secs < 2 ^ 63 * nanos;
}.

Lemma returns_parse_client_subnet v : returns (parse_client_subnet v).
Proof. unfold parse_client_subnet. destruct (ipnet_parse v); [done|]. apply returns_bind; [apply returns_context|done]. Qed.

Lemma returns_append_client_subnet output v : returns (append_client_subnet_opt output v).
Proof.
  unfold append_client_subnet_opt. apply returns_bind; [apply returns_parse_client_subnet|]. intros net _.
  pose proof (ipnet_prefix_bound net) as Hp.
  assert (Hn : ∀ w b, 0 ≤ ipnet_prefix_len net ≤ w → length b = Z.to_nat (w / 8) → w = 32 ∨ w = 128 →
    (Z.to_nat ((ipnet_prefix_len net + 7) / 8) ≤ length (b : bytes))%nat).
  { intros w b Hw -> H. apply Z2Nat.inj_le; [apply Z.div_pos; lia|apply Z.div_pos; lia|].
    apply (Z.le_trans _ ((w + 7) / 8)); [apply Z.div_le_mono; lia|]. by destruct H as [-> | ->]. }
  destruct (ipnet_network net) as [a|a].
  - apply returns_bind; [apply returns_context|]. intros n [Hn' ->]%context_Ok%try_uint_Some.
    specialize (Hn 32 (to_be 4 a) Hp (length_to_be _ _) (or_introl eq_refl)). rewrite length_to_be in Hn.
    apply returns_bind; [|intros; apply returns_bind; [apply returns_slice; [lia|by rewrite length_to_be]|done]].
    unfold checked_or_panic, try_uint. rewrite (proj2 (Z.leb_le _ _)), (proj2 (Z.ltb_lt _ _)) by lia. done.
  - apply returns_bind; [apply returns_context|]. intros n [Hn' ->]%context_Ok%try_uint_Some.
    specialize (Hn 128 (to_be 16 a) Hp (length_to_be _ _) (or_intror eq_refl)). rewrite length_to_be in Hn.
    apply returns_bind; [|intros; apply returns_bind; [apply returns_slice; [lia|by rewrite length_to_be]|done]].
    unfold checked_or_panic, try_uint. rewrite (proj2 (Z.leb_le _ _)), (proj2 (Z.ltb_lt _ _)) by lia. done.
Qed.

Lemma returns_build_query i name qtype subnet : returns (build_query_with_subnet i name qtype subnet).
Proof.
  unfold build_query_with_subnet. apply returns_bind; [apply returns_encode_labels|]. intros l _.
  destruct subnet; [apply returns_append_client_subnet|done].
Qed.

Lemma clamp_bound ttl : 0 < clamp_ttl ttl ≤ 86400 * secs.
Proof. unfold clamp_ttl, secs. lia. Qed.

Lemma returns_insert s k v ttl now :
  now + ttl < 2 ^ 63 * nanos → ∃ s', insert s k v ttl now = Ok s'.
Proof. intros H. unfold insert, instant_add. rewrite (proj2 (Z.ltb_lt _ _)) by done. by eexists. Qed.

(** A load that returns, with a TTL of at most a day. *)
Definition load_ok (r : result (CacheValue * Z)) : Prop :=
  returns r ∧ ∀ v ttl, r = Ok (v, ttl) → ttl ≤ 86400 * secs.

Lemma returns_cached inner e k load s :
  cache_typed s → env_ok e → (∀ s, load_ok (load s).2) → returns (cached inner e k load s).2.
Proof.
  intros Hs He Hl. unfold cached.
  assert (Hg : ∃ s1 r1, (if inner.(cache_enabled) then get s k e.(now) else Ok (s, None)) = Ok (s1, r1)).
  { destruct inner.(cache_enabled); [|by eexists _, _]. destruct (get_typed s k e.(now) Hs) as (s1 & r1 & H & _). eauto. }
  destruct Hg as (s1 & [v|] & ->); [done|]. destruct (Hl s1) as [Hr Httl].
  destruct (load s1) as [s2 [[v ttl]|msg| |]]; try done. destruct (_ && _); [|done].
  destruct (returns_insert s2 k v ttl e.(later)) as [s3 ->]; [|done].
  specialize (Httl v ttl eq_refl). pose proof (later_bound _ He). lia.
Qed.

Lemma lookup_load_ok inner e name qtype tag subnet t rt :
  env_ok e → load_ok (lookup_load inner e name qtype tag subnet t rt).
Proof.
  intros He. unfold lookup_load. split.
  - apply returns_bind; [destruct tag; [apply returns_context|apply returns_context]|]. intros u _.
    destruct (str_eqb _ _); [apply returns_bind; [by apply hosts_returns|done]|].
    apply returns_bind; [apply returns_build_query|]. intros q _. apply returns_bind; [by apply query_returns|].
    intros r _. apply returns_bind; [apply returns_parse_response|]. by intros [] _.
  - intros v ttl H. apply bind_Ok in H as (u & _ & H). destruct (str_eqb _ _).
    + apply bind_Ok in H as (f & _ & H). injection H as _ <-. apply clamp_bound.
    + apply bind_Ok in H as (q & _ & H). apply bind_Ok in H as (r & _ & H).
      apply bind_Ok in H as ([l t'] & _ & H). injection H as _ <-. apply clamp_bound.
Qed.

Lemma returns_predefined_addresses qtype records : returns (predefined_addresses qtype records).
Proof.
  induction records as [|r records IH]; cbn [predefined_addresses]; [done|].
  apply returns_bind; [apply returns_parse_dns_record|]. intros p _. apply returns_bind.
  - destruct (_ && _); [done|]. destruct (_ && _); [|done]. by destruct (_ =? _)%nat.
  - intros f _. apply returns_bind; [done|]. done.
Qed.

Lemma returns_lookup_plan inner rule options : returns (lookup_plan inner rule options).
Proof.
  unfold lookup_plan. apply returns_bind.
  { destruct (or _ _); [|done]. apply returns_bind; [apply returns_parse_client_subnet|done]. }
  intros _ _. apply returns_bind; [|done]. destruct (rule ≫= _); [|done].
  apply returns_bind; [apply returns_parse_duration|done].
Qed.

Lemma returns_limit inner rule name l : returns (limit_addresses inner rule name l).
Proof. unfold limit_addresses. destruct rule; [|done]. by destruct (_ && _). Qed.

Lemma returns_lookup_type inner e name qtype options s :
  cache_typed s → env_ok e → returns (lookup_type inner e name qtype options s).2.
Proof.
  intros Hs He. unfold lookup_type. destruct (action_is _ "reject"); [done|].
  destruct (if action_is _ "predefined" then _ else None) as [r|]; cbn [snd].
  { apply returns_bind; [apply returns_parse_rcode|]. intros c _. destruct (negb _); [done|].
    apply returns_bind; [apply returns_predefined_addresses|done]. }
  pose proof (returns_lookup_plan inner (lookup_rule inner name qtype options) options) as Hp.
  destruct (lookup_plan _ _ _) as [p|msg| |]; try done. clear Hp.
  pose proof (lookup_load_ok inner e name qtype p.(p_server) p.(p_subnet) p.(p_timeout) p.(p_rewrite_ttl) He) as Hl.
  assert (Hfin : ∀ (value : result CacheValue), returns value → returns (value ← value;
    match value with Addresses addresses => limit_addresses inner (lookup_rule inner name qtype options) name addresses
    | WireValue _ => Err "invalid DNS address cache entry" end)).
  { intros value Hv. apply returns_bind; [done|]. intros [l|b] _; [apply returns_limit|done]. }
  destruct p.(p_disable_cache).
  - apply Hfin. apply returns_bind; [apply Hl|done].
  - pose proof (returns_cached inner e (lookup_key name qtype p)
      (λ s, (s, lookup_load inner e name qtype p.(p_server) p.(p_subnet) p.(p_timeout) p.(p_rewrite_ttl)))
      s Hs He (λ s, Hl)) as Hc.
    destruct (cached _ _ _ _ _) as [s' value]. by apply Hfin.
Qed.

Lemma returns_lookup_with_options inner e4 e6 domain options s :
  cache_typed s → env_ok e4 → env_ok e6 → returns (lookup_with_options inner e4 e6 domain options s).2.
Proof.
  intros Hs H4 H6. unfold lookup_with_options.
  set (strategy := lookup_strategy _ _ _). set (name := normalize domain).
  assert (Hv : returns (validate_strategy strategy)) by (unfold validate_strategy; by destruct (none_or_one_of _ _)).
  destruct (validate_strategy strategy) as [u|msg| |]; try done. clear Hv.
  assert (H : ∀ qtype e (b : bool) s, cache_typed s → env_ok e →
    let r := if b then (s, Ok []) else lookup_type inner e name qtype options s in
    cache_typed r.1 ∧ returns r.2).
  { intros qtype e b s0 Hs0 He. destruct b; [done|]. split; [|by apply returns_lookup_type].
    pose proof (lookup_type_typed inner e name qtype options s0 Hs0). destruct (lookup_type _ _ _ _ _ _). tauto. }
  pose proof (H 1 e4 (bool_decide (strategy = Some (lit "ipv6_only"))) s Hs H4) as [Hs1 Ha].
  destruct (if bool_decide (strategy = Some (lit "ipv6_only")) then _ else _) as [s1 a]. cbn [fst snd] in *.
  pose proof (H 28 e6 (bool_decide (strategy = Some (lit "ipv4_only"))) s1 Hs1 H6) as [_ Hb].
  destruct (if bool_decide (strategy = Some (lit "ipv4_only")) then _ else _) as [s2 b]. cbn [fst snd] in *.
  assert (Hm : returns (merge_addresses strategy a b)).
  { unfold merge_addresses. by destruct (if bool_decide _ then _ else _). }
  by destruct a, b.
Qed.

End returning.

(** [EchCache::config]: what is handed out is the stored configuration before its
    end, or the one just loaded, which is then kept for its TTL. *)
Lemma ech_cache_config_Ok now1 now2 now3 load state state' config :
  ech_cache_config now1 now2 now3 load state = (state', Ok config) →
  (state' = state ∧ ∃ expires, state = Some (config, expires) ∧ (now1 < expires ∨ now2 < expires)) ∨
  (∃ ttl, load = Ok (config, ttl) ∧ state' = Some (config, now3 + Z.max ttl secs)).
Proof.
  unfold ech_cache_config. destruct state as [[c e]|].
  - destruct (now1 <? e) eqn:E1; bool_to_prop; [intros [= <- <-]; left; eauto|].
    destruct (now2 <? e) eqn:E2; bool_to_prop; [intros [= <- <-]; left; eauto|].
    destruct load as [[c' t]|msg| |]; try done. unfold instant_add. destruct (_ <? _); [|done].
    intros [= <- <-]. right. eauto.
  - destruct load as [[c' t]|msg| |]; try done. unfold instant_add. destruct (_ <? _); [|done].
    intros [= <- <-]. right. eauto.
Qed.

End facts.

(** ** Witnesses *)

#[local] Existing Instance Cidr.lib.
#[local] Existing Instance Literal.regex.
#[local] Existing Instance key_order.

Definition sample_upstream : Upstream :=
  mkUpstream (mkServer (lit "udp") (lit "dns") (Some (lit "192.0.2.53")) None None None)
    (Some (mkEndpoint (lit "192.0.2.53") 53)) (Some (mkEndpoint (lit "192.0.2.53") 53)).

(** An upstream that answers every query for IPv4 addresses with two of them, and
    refuses the others. *)
Definition sample_answer (q : bytes) : result bytes :=
  match parse_question q with
  | Ok (_, 1, e) =>
    local_response [V4 3221225986; V4 3221225985; V4 3221225985] q 1 e
  | Ok (_, _, e) => refused_response q e
  | _ => Err "no answer"
  end.

Definition sample_env : Env :=
  mkEnv (λ _ _ q, sample_answer q) (λ _, Ok []) 7 (10 * secs) (11 * secs).

Definition sample_inner : Inner :=
  mkInner {[lit "dns" := sample_upstream]} [] (lit "dns") true (Some (lit "ipv4_only")) DNS_TIMEOUT None None.

Definition sample_query : bytes :=
  [0; 9; 1; 0; 0; 1; 0; 0; 0; 0; 0; 0; 1; 97; 0; 0; 1; 0; 1].

Definition sample_ops : list Op := [OpExchange sample_env sample_query].

Lemma exchange_answers_witness :
  ∃ b, (exchange false sample_inner sample_env (5 :: 6 :: drop 2 sample_query)
     (fold_left (step false sample_inner) sample_ops (DnsCache.new 4 false))).2 = Ok b ∧
    dns_id b = Ok 1286.
Proof.
  destruct (exchange false sample_inner sample_env (5 :: 6 :: drop 2 sample_query)
     (fold_left (step false sample_inner) sample_ops (DnsCache.new 4 false))) as [s' r] eqn:E.
  assert (Hr : ∃ b, r = Ok b).
  { apply (f_equal snd) in E. cbn [snd] in E. rewrite <- E. vm_compute. eexists. reflexivity. }
  destruct Hr as [b ->]. exists b. split; [reflexivity|].
  refine (eq_trans (proj2 (exchange_answers _ _ _ _ _ _ _ _ _ _ E)) eq_refl).
  repeat constructor; lia.
Defined.

Lemma lookup_order_witness :
  ∃ l, (lookup_with_options sample_inner sample_env sample_env (lit "a") default_options
     (fold_left (step false sample_inner) sample_ops (DnsCache.new 4 false))).2 = Ok l ∧
    l = [V4 3221225985; V4 3221225986] ∧ NoDup l.
Proof.
  destruct (lookup_with_options sample_inner sample_env sample_env (lit "a") default_options
     (fold_left (step false sample_inner) sample_ops (DnsCache.new 4 false))) as [s' r] eqn:E.
  assert (Hr : r = Ok [V4 3221225985; V4 3221225986]).
  { apply (f_equal snd) in E. cbn [snd] in E. rewrite <- E. vm_compute. reflexivity. }
  subst r. eexists. split; [reflexivity|]. split; [reflexivity|].
  exact (proj1 (proj2 (lookup_order _ _ _ _ _ _ _ _ _ _ _ E))).
Defined.

Lemma cache_stays_typed_witness :
  ∃ b, value_ok (WireKey (canonical_query sample_query) (lit "dns")) (WireValue b) ∧ (12 ≤ length b)%nat.
Proof.
  destruct (get (fold_left (step false sample_inner) sample_ops (DnsCache.new 4 false))
    (WireKey (canonical_query sample_query) (lit "dns")) (12 * secs)) as [[s' [v|]]|m| |] eqn:E;
    [|exfalso; vm_compute in E; discriminate E..].
  pose proof (proj2 (cache_stays_typed false sample_inner 4 false sample_ops _ _ _ _) E) as H.
  destruct v as [l|b]; [destruct H|]. exists b. split; exact H.
Defined.
