(* ===== verification/Sniff.v ===== *)
(** * Protocol sniffing (src/src/proxy/route.rs)

    What the first bytes of a connection or a datagram say about its protocol,
    with the server name of a TLS ClientHello, the host of an HTTP request and the
    name of a DNS question.  A function that returns an [Option] is modelled with
    [Err] for [None], so that a panic of an index stays visible; [found] turns it
    back. *)

From S2P Require Import Prelude RustStr Net DnsMessage DnsReply.

(** ** Text *)

(** The length of the character at the start and whether it is valid; an invalid
    one is as long as the longest prefix of a character that is there. *)
Definition utf8_char (l : bytes) : nat * bool :=
  let at_ i := default 0 (l !! i) in
  match l with
  | [] => (0%nat, true)
  | b :: _ =>
    if in_range b 0 127 then (1%nat, true)
    else if in_range b 194 223 then if cont (at_ 1%nat) then (2%nat, true) else (1%nat, false)
    else if in_range b 224 239 then
      if negb (if b =? 224 then in_range (at_ 1%nat) 160 191
               else if b =? 237 then in_range (at_ 1%nat) 128 159
               else cont (at_ 1%nat)) then (1%nat, false)
      else if cont (at_ 2%nat) then (3%nat, true) else (2%nat, false)
    else if in_range b 240 244 then
      if negb (if b =? 240 then in_range (at_ 1%nat) 144 191
               else if b =? 244 then in_range (at_ 1%nat) 128 143
               else cont (at_ 1%nat)) then (1%nat, false)
      else if negb (cont (at_ 2%nat)) then (2%nat, false)
      else if cont (at_ 3%nat) then (4%nat, true) else (3%nat, false)
    else (1%nat, false)
  end.

(** [String::from_utf8_lossy]: every invalid part becomes U+FFFD. *)
Fixpoint lossy_loop (fuel : nat) (l : bytes) : str :=
  match fuel, l with
  | S fuel, _ :: _ =>
    let '(n, valid) := utf8_char l in
    (if valid then take n l else [239; 191; 189]) ++ lossy_loop fuel (drop n l)
  | _, _ => []
  end.

Definition from_utf8_lossy (l : bytes) : str := lossy_loop (length l) l.

(** [str::lines]: a line ends with [\n] or [\r\n]; the last one may have no end. *)
Fixpoint lines_loop (line : str) (s : str) : list str :=
  match s with
  | [] => match line with [] => [] | _ => [line] end
  | c :: s =>
    if c =? 10 then default line (strip_suffix [13] line) :: lines_loop [] s
    else lines_loop (line ++ [c]) s
  end.

Definition lines (s : str) : list str := lines_loop [] s.

(** [str::trim]: white space of Unicode at both ends.  [pending] is white space
    that may be the end. *)
Fixpoint trim_start_ws (skip : nat) (s : str) : str :=
  match s with
  | [] => []
  | _ :: s' =>
    match skip with
    | S k => trim_start_ws k s'
    | O => match whitespace s with O => s | S k => trim_start_ws k s' end
    end
  end.

Fixpoint trim_end_ws (skip : nat) (pending : str) (s : str) : str :=
  match s with
  | [] => []
  | c :: s' =>
    match skip with
    | S k => trim_end_ws k (pending ++ [c]) s'
    | O =>
      match whitespace s with
      | O => pending ++ c :: trim_end_ws 0 [] s'
      | S k => trim_end_ws k (pending ++ [c]) s'
      end
    end
  end.

Definition trim (s : str) : str := trim_end_ws 0 [] (trim_start_ws 0 s).

(** ** Results *)

Record SniffResult := mkSniff {
  s_protocol : str;
  s_domain : option str;
  s_client : option str;
}.

(** An [Option] where [Err] stands for [None]. *)
Definition found {A} (r : result A) : result (option A) :=
  match r with
  | Ok a => Ok (Some a)
  | Err _ => Ok None
  | Panic => Panic
  | Diverge => Diverge
  end.

Definition get (b : bytes) (i : nat) : result Z := context (b !! i) "none".

Definition get_u16 (b : bytes) (i : nat) : result Z := x ← get b i; y ← get b (i + 1); Ok (of_be [x; y]).

Definition get_slice (b : bytes) (lo hi : nat) : result bytes := context (slice_get b lo hi) "none".

(** ** DNS *)

Definition dns_body (data : bytes) (tcp : bool) : result bytes :=
  if tcp then
    n ← get_u16 data 0;
    get_slice data 2 (2 + Z.to_nat n)
  else Ok data.

Definition is_dns_message (data : bytes) (tcp : bool) : result bool :=
  body ← found (dns_body data tcp);
  match body with
  | None => Ok false
  | Some data =>
    if (12 <=? length data)%nat then
      flags ← index data 2;
      if Z.land flags 128 =? 0 then count ← u16_at data 4; Ok (0 <? count) else Ok false
    else Ok false
  end.

(** Every turn moves the position on, so the length of the data bounds them. *)
Fixpoint name_labels (fuel : nat) (data : bytes) (position : nat) (labels : list str) : result (list str) :=
  match fuel with
  | O => Diverge
  | S fuel =>
    length ← get data position;
    let position := (position + 1)%nat in
    if length =? 0 then Ok labels
    else if 63 <? length then Err "none"
    else
      label ← get_slice data position (position + Z.to_nat length);
      label ← from_utf8 label;
      name_labels fuel data (position + Z.to_nat length) (labels ++ [label])
  end.

Definition dns_question_name (data : bytes) (tcp : bool) : result str :=
  data ← (if tcp then get_slice data 2 (length data) else Ok data);
  labels ← name_labels (S (length data)) data 12 [];
  Ok (to_ascii_lowercase (join [c_dot] labels)).

(** ** TLS *)

(** The extensions of a ClientHello; a turn moves on by at least four bytes. *)
Fixpoint extensions_loop (fuel : nat) (handshake : bytes) (position end_ : nat) : result str :=
  match fuel with
  | O => Diverge
  | S fuel =>
    if (position + 4 <=? end_)%nat then
      kind ← u16_at handshake position;
      length ← u16_at handshake (position + 2);
      let position := (position + 4)%nat in
      extension ← get_slice handshake position (position + Z.to_nat length);
      if (kind =? 0) && (5 <=? List.length extension)%nat then
        name_length ← u16_at extension 3;
        name ← get_slice extension 5 (5 + Z.to_nat name_length);
        name ← from_utf8 name;
        Ok (to_ascii_lowercase name)
      else extensions_loop fuel handshake (position + Z.to_nat length) end_
    else Err "none"
  end.

Definition tls_server_name (data : bytes) : result str :=
  if (length data <? 5)%nat then Err "none" else
  record_length ← u16_at data 3;
  handshake ← get_slice data 5 (5 + Z.to_nat record_length);
  if negb (bool_decide (handshake !! 0%nat = Some 1)) || (length handshake <? 42)%nat then Err "none" else
  let position := 38%nat in
  n ← get handshake position;
  let position := (position + (1 + Z.to_nat n))%nat in
  suites ← get_u16 handshake position;
  let position := (position + (2 + Z.to_nat suites))%nat in
  n ← get handshake position;
  let position := (position + (1 + Z.to_nat n))%nat in
  extensions_length ← get_u16 handshake position;
  let position := (position + 2)%nat in
  let end_ := Nat.min (position + Z.to_nat extensions_length) (length handshake) in
  extensions_loop (S (length handshake)) handshake position end_.

(** ** HTTP *)

Definition is_bracket (c : Z) : bool := (c =? c_lbracket) || (c =? 93).

(** The part of the [Host] header before the port. *)
Definition host_value (value : str) : option str :=
  head (split c_colon (trim_matches is_bracket (trim value))).

Definition http_header (name : string) (f : str → option str) (line : str) : option str :=
  '(key, value) ← split_once c_colon line;
  if eq_ignore_ascii_case key (lit name) then f value else None.

Definition http_domain (text : str) : option str := find_map (http_header "host" host_value) (lines text).

Definition http_client (text : str) : option str :=
  find_map (http_header "user-agent" (λ value, Some (trim value))) (lines text).

Definition http_methods : list string :=
  ["GET "; "POST"; "HEAD"; "PUT "; "OPTI"; "CONN"; "DELE"; "PATC"]%string.

(** ** The sniffers, in their order *)

Definition data_at (data : bytes) (i : nat) (f : Z → bool) : result bool := v ← index data i; Ok (f v).

(** [a && b] and [if] on a condition that may index out of bounds. *)
Definition and_then (a : bool) (b : result bool) : result bool := if a then b else Ok false.

Definition if_ok {A} (c : result bool) (yes no : result A) : result A :=
  match c with
  | Ok true => yes
  | Ok false => no
  | Err msg => Err msg
  | Panic => Panic
  | Diverge => Diverge
  end.

Definition is_rdp (data : bytes) : result bool :=
  and_then ((7 <=? length data)%nat && starts_with [3; 0] data) (data_at data 5 (Z.eqb 224)).

Definition is_dtls (data : bytes) : result bool :=
  and_then (13 <=? length data)%nat
    (if_ok (data_at data 0 (λ v, in_range v 20 64))
       (if_ok (data_at data 1 (Z.eqb 254)) (data_at data 2 (λ v, (v =? 253) || (v =? 255))) (Ok false)) (Ok false)).

Definition is_ntp (data : bytes) : result bool :=
  and_then (48 <=? length data)%nat
    (if_ok (data_at data 0 (λ v, in_range (Z.land v 7) 1 5)) (data_at data 0 (λ v, negb (Z.shiftr v 6 =? 3))) (Ok false)).

Definition is_utp (data : bytes) : result bool :=
  and_then (20 <=? length data)%nat
    (if_ok (data_at data 0 (λ v, Z.land v 15 =? 1)) (data_at data 0 (λ v, Z.shiftr v 4 <=? 4)) (Ok false)).

Definition plain (protocol : string) : option SniffResult := Some (mkSniff (lit protocol) None None).

Definition sniff_payload (data : bytes) (udp : bool) (sniffers : list str) : result (option SniffResult) :=
  let enabled name := bool_decide (sniffers = []) || existsb (λ item, str_eqb item (lit name)) sniffers in
  if negb udp && enabled "tls"%string && starts_with [22; 3] data then
    domain ← found (tls_server_name data);
    Ok (Some (mkSniff (lit "tls") domain None))
  else if negb udp && enabled "http"%string && existsb (λ p, starts_with (lit p) data) http_methods then
    let text := from_utf8_lossy data in
    Ok (Some (mkSniff (lit "http") (http_domain text) (http_client text)))
  else if negb udp && enabled "ssh"%string && starts_with (lit "SSH-") data then
    Ok (Some (mkSniff (lit "ssh") None (head (lines (from_utf8_lossy data)))))
  else
  if_ok (and_then (negb udp && enabled "rdp"%string) (is_rdp data)) (Ok (plain "rdp")) (
  if_ok (and_then (enabled "dns"%string) (is_dns_message data (negb udp)))
    (domain ← found (dns_question_name data (negb udp));
     Ok (Some (mkSniff (lit "dns") domain None))) (
  if udp && enabled "stun"%string && bool_decide (slice_get data 4 8 = Some [33; 18; 164; 66]) then Ok (plain "stun")
  else if udp && enabled "quic"%string
          && match data with v :: _ => negb (Z.land v 128 =? 0) | [] => false end then Ok (plain "quic")
  else
  if_ok (and_then (udp && enabled "dtls"%string) (is_dtls data)) (Ok (plain "dtls")) (
  if_ok (and_then (udp && enabled "ntp"%string) (is_ntp data)) (Ok (plain "ntp")) (
  if_ok (and_then (udp && enabled "utp"%string) (is_utp data)) (Ok (plain "utp")) (
  if udp && enabled "udp_tracker"%string && (16 <=? length data)%nat
     && starts_with [0; 0; 4; 23; 39; 16; 25; 128] data then Ok (plain "udp_tracker")
  else if negb udp && enabled "bittorrent"%string && starts_with (19 :: lit "BitTorrent protocol") data
  then Ok (plain "bittorrent")
  else Ok None))))).

(** ** No sniffer panics or runs on *)

Lemma returns_found {A} (r : result A) : returns r → returns (found r).
Proof. by destruct r. Qed.

Lemma returns_get b i : returns (get b i).
Proof. apply returns_context. Qed.

Lemma returns_get_u16 b i : returns (get_u16 b i).
Proof. unfold get_u16. repeat (apply returns_bind; [apply returns_get|intros]). done. Qed.

Lemma returns_get_slice b lo hi : returns (get_slice b lo hi).
Proof. apply returns_context. Qed.

Lemma returns_if_ok {A} c (yes no : result A) : returns c → returns yes → returns no → returns (if_ok c yes no).
Proof. by destruct c as [[]| | |]. Qed.

Lemma returns_and_then a b : (a = true → returns b) → returns (and_then a b).
Proof. destruct a; cbn; auto. Qed.

Lemma returns_data_at data i f : (i < length data)%nat → returns (data_at data i f).
Proof. intros. apply returns_bind; [by apply returns_index|done]. Qed.

Lemma returns_name_labels fuel data position labels :
  (position ≤ length data)%nat → (length data - position < fuel)%nat →
  returns (name_labels fuel data position labels).
Proof.
  revert position labels. induction fuel as [|fuel IH]; intros p ls Hp Hf; cbn [name_labels]; [lia|].
  apply returns_bind; [apply returns_get|]. intros n Hn%context_Ok%lookup_lt_Some.
  destruct (n =? 0); [done|]. destruct (63 <? n); [done|].
  apply returns_bind; [apply returns_get_slice|]. intros l Hl%context_Ok%slice_get_Some.
  apply returns_bind; [apply returns_from_utf8|]. intros l' _. apply IH; lia.
Qed.

Lemma returns_dns_question_name data tcp : returns (dns_question_name data tcp).
Proof.
  unfold dns_question_name. apply returns_bind; [destruct tcp; [apply returns_get_slice|done]|]. intros d _.
  apply returns_bind; [|done]. destruct (decide (12 ≤ length d)%nat); [apply returns_name_labels; lia|].
  cbn [name_labels]. unfold get. by rewrite lookup_ge_None_2 by lia.
Qed.

Lemma returns_is_dns_message data tcp : returns (is_dns_message data tcp).
Proof.
  unfold is_dns_message. apply returns_bind.
  { apply returns_found. unfold dns_body. destruct tcp; [|done].
    apply returns_bind; [apply returns_get_u16|intros; apply returns_get_slice]. }
  intros [d|] _; [|done]. destruct (12 <=? length d)%nat eqn:E; bool_to_prop; [|done].
  apply returns_bind; [apply returns_index; lia|]. intros f _. destruct (Z.land f 128 =? 0); [|done].
  apply returns_bind; [apply returns_u16_at; lia|done].
Qed.

Lemma returns_extensions_loop fuel handshake position end_ :
  (end_ ≤ length handshake)%nat → (length handshake - position < fuel)%nat →
  returns (extensions_loop fuel handshake position end_).
Proof.
  revert position. induction fuel as [|fuel IH]; intros p He Hf; [lia|]. cbn [extensions_loop].
  destruct (p + 4 <=? end_)%nat eqn:Hp; bool_to_prop; [|done].
  apply returns_bind; [apply returns_u16_at; lia|]. intros kind _.
  apply returns_bind; [apply returns_u16_at; lia|]. intros n _.
  apply returns_bind; [apply returns_get_slice|]. intros x _.
  destruct ((kind =? 0) && _) eqn:Hk; bool_to_prop; [|apply IH; lia].
  apply returns_bind; [apply returns_u16_at; lia|]. intros m _.
  apply returns_bind; [apply returns_get_slice|]. intros y _.
  apply returns_bind; [apply returns_from_utf8|done].
Qed.

Lemma returns_tls_server_name data : returns (tls_server_name data).
Proof.
  unfold tls_server_name. destruct (length data <? 5)%nat eqn:E; bool_to_prop; [done|].
  apply returns_bind; [apply returns_u16_at; lia|]. intros n _.
  apply returns_bind; [apply returns_get_slice|]. intros h _. destruct (negb _ || _); [done|].
  apply returns_bind; [apply returns_get|]. intros a _. apply returns_bind; [apply returns_get_u16|]. intros b _.
  apply returns_bind; [apply returns_get|]. intros c _. apply returns_bind; [apply returns_get_u16|]. intros d _.
  apply returns_extensions_loop; lia.
Qed.

Lemma returns_guarded n (data : bytes) (r : result bool) :
  ((n ≤ length data)%nat → returns r) → returns (and_then (n <=? length data)%nat r).
Proof. intros H. apply returns_and_then. intros E. bool_to_prop. auto. Qed.

Lemma returns_is_rdp data : returns (is_rdp data).
Proof. apply returns_and_then. intros H. bool_to_prop. apply returns_data_at. lia. Qed.

Lemma returns_is_dtls data : returns (is_dtls data).
Proof. apply returns_guarded. intros H. repeat (apply returns_if_ok; [apply returns_data_at; lia| |done]). apply returns_data_at. lia. Qed.

Lemma returns_is_ntp data : returns (is_ntp data).
Proof. apply returns_guarded. intros H. apply returns_if_ok; [..|done]; apply returns_data_at; lia. Qed.

Lemma returns_is_utp data : returns (is_utp data).
Proof. apply returns_guarded. intros H. apply returns_if_ok; [..|done]; apply returns_data_at; lia. Qed.

(** One step through the list of sniffers. *)
Ltac sniffer :=
  match goal with
  | |- returns (Ok _) => done
  | |- returns (if ?b then _ else _) => destruct b
  | |- returns (if_ok _ _ _) => apply returns_if_ok
  | |- returns (and_then _ _) => apply returns_and_then; intros _
  | |- returns (found _ ≫= _) => apply returns_bind; [apply returns_found|done]
  | |- _ => first [apply returns_is_rdp | apply returns_is_dtls | apply returns_is_ntp | apply returns_is_utp
      | apply returns_is_dns_message | apply returns_tls_server_name | apply returns_dns_question_name]
  end.

(** Whatever bytes a peer sends, no sniffer panics or fails to end. *)
Lemma returns_sniff_payload data udp sniffers : returns (sniff_payload data udp sniffers).
Proof. unfold sniff_payload. repeat sniffer. Qed.

(** ** The server name of a ClientHello *)

(** A ClientHello as TLS (RFC 8446, 4.1.2 and RFC 6066, 3) lays it out. *)
Record ClientHello := mkHello {
  h_version : bytes;
  h_random : bytes;
  h_session : bytes;
  h_suites : bytes;
  h_compression : bytes;
  h_extensions : list (Z * bytes);
}.

Definition hello_ok (h : ClientHello) : Prop :=
  length h.(h_version) = 2%nat ∧ length h.(h_random) = 32%nat ∧
  Z.of_nat (length h.(h_session)) < 2 ^ 8 ∧ Z.of_nat (length h.(h_suites)) < 2 ^ 16 ∧
  Z.of_nat (length h.(h_compression)) < 2 ^ 8 ∧
  Forall (λ e, u16 e.1 ∧ Z.of_nat (length e.2) < 2 ^ 16) h.(h_extensions).

Definition extension_bytes (e : Z * bytes) : bytes := to_be 2 e.1 ++ to_be 2 (Z.of_nat (length e.2)) ++ e.2.

Definition hello_body (h : ClientHello) : bytes :=
  h.(h_version) ++ h.(h_random) ++ to_be 1 (Z.of_nat (length h.(h_session))) ++ h.(h_session) ++
  to_be 2 (Z.of_nat (length h.(h_suites))) ++ h.(h_suites) ++
  to_be 1 (Z.of_nat (length h.(h_compression))) ++ h.(h_compression) ++
  to_be 2 (Z.of_nat (length (concat (extension_bytes <$> h.(h_extensions))))) ++
  concat (extension_bytes <$> h.(h_extensions)).

Definition handshake_bytes (h : ClientHello) : bytes :=
  [1] ++ to_be 3 (Z.of_nat (length (hello_body h))) ++ hello_body h.

Definition record_bytes (h : ClientHello) : bytes :=
  [22; 3; 1] ++ to_be 2 (Z.of_nat (length (handshake_bytes h))) ++ handshake_bytes h.

(** The server name extension, for one host name. *)
Definition server_name (name : str) : Z * bytes :=
  (0, to_be 2 (Z.of_nat (length name) + 3) ++ [0] ++ to_be 2 (Z.of_nat (length name)) ++ name).

Lemma get_app pre x post i : i = length pre → get (pre ++ x :: post) i = Ok x.
Proof. intros ->. unfold get. by rewrite list_lookup_middle. Qed.

Lemma get_byte pre z post i : 0 ≤ z < 2 ^ 8 → i = length pre → get (pre ++ to_be 1 z ++ post) i = Ok z.
Proof.
  intros Hz ->. cbn [to_be Z.of_nat]. rewrite Z.shiftr_0_r. change 255 with (Z.ones 8).
  rewrite Z.land_ones, Z.mod_small by lia. by apply get_app.
Qed.

Lemma get_u16_app pre z post i : u16 z → i = length pre → get_u16 (pre ++ to_be 2 z ++ post) i = Ok z.
Proof.
  intros Hz ->. assert (∃ a b, to_be 2 z = [a; b]) as (a & b & E) by (cbn; eauto).
  assert (Hv : of_be [a; b] = z) by (rewrite <- E; by apply of_be_to_be).
  rewrite E. unfold get_u16. cbn [app]. rewrite (get_app pre a (b :: post) (length pre) eq_refl). cbn [mbind result_bind].
  change (pre ++ a :: b :: post) with (pre ++ [a] ++ b :: post).
  rewrite app_assoc, (get_app (pre ++ [a])) by length_tac. cbn [mbind result_bind]. by rewrite Hv.
Qed.

(** The fields of an extension at its place. *)
Lemma extension_fields pre k d post :
  u16 k → Z.of_nat (length d) < 2 ^ 16 →
  let b := pre ++ extension_bytes (k, d) ++ post in
  u16_at b (length pre) = Ok k ∧ u16_at b (length pre + 2) = Ok (Z.of_nat (length d)) ∧
  get_slice b (length pre + 4) (length pre + 4 + length d) = Ok d.
Proof.
  intros Hk Hd b. subst b. unfold extension_bytes. cbn [fst snd]. rewrite <- !app_assoc. split_and!.
  - by apply u16_at_app.
  - rewrite app_assoc. apply u16_at_app; [length_tac|unfold uint; lia].
  - do 2 rewrite app_assoc. unfold get_slice. rewrite (slice_get_app _ d) by length_tac. done.
Qed.

Lemma length_extension k d : length (extension_bytes (k, d)) = (4 + length d)%nat.
Proof. unfold extension_bytes. cbn [fst snd]. rewrite !length_app, !length_to_be. lia. Qed.

Lemma server_name_fields name :
  rust_str name → Z.of_nat (length name) + 5 < 2 ^ 16 →
  length (server_name name).2 = (length name + 5)%nat ∧
  u16_at (server_name name).2 3 = Ok (Z.of_nat (length name)) ∧
  get_slice (server_name name).2 5 (5 + length name) = Ok name.
Proof.
  intros Hn Hl. unfold server_name. cbn [snd]. split_and!.
  - rewrite !length_app, !length_to_be. cbn. lia.
  - rewrite (app_assoc _ [0]). apply u16_at_app; [length_tac|unfold uint; lia].
  - rewrite (app_assoc _ [0]), (app_assoc _ (to_be 2 (Z.of_nat (length name)))). unfold get_slice.
    rewrite <- (app_nil_r name) at 3. rewrite (slice_get_app _ name) by length_tac. done.
Qed.

(** The search walks over extensions of other kinds to the server name. *)
Lemma extensions_loop_finds others name after pre fuel end_ :
  Forall (λ e, u16 e.1 ∧ Z.of_nat (length e.2) < 2 ^ 16 ∧ e.1 ≠ 0) others → rust_str name →
  Z.of_nat (length name) + 5 < 2 ^ 16 →
  let exts := concat (extension_bytes <$> others ++ [server_name name]) in
  (length (pre ++ exts) ≤ end_)%nat → (length others < fuel)%nat →
  extensions_loop fuel (pre ++ exts ++ after) (length pre) end_ = Ok (to_ascii_lowercase name).
Proof.
  intros Ho Hn Hl. revert pre fuel. induction Ho as [|[k d] others (Hk & Hd & Hk0) Ho IH];
    intros pre fuel exts He Hf; (destruct fuel as [|fuel]; [cbn in Hf; lia|]); cbn [extensions_loop];
    subst exts; cbn [app fmap list_fmap concat] in *; rewrite ?app_nil_r in *.
  - destruct (server_name_fields name Hn Hl) as (Hlen & H3 & H5).
    destruct (extension_fields pre 0 (server_name name).2 after) as (E1 & E2 & E3); [unfold uint; lia|lia|].
    change (0, (server_name name).2) with (server_name name) in *.
    pose proof (length_extension 0 (server_name name).2 : length (extension_bytes (server_name name)) = _) as Hx.
    rewrite length_app, Hx in He.
    rewrite (proj2 (Nat.leb_le _ _)) by lia. rewrite E1, E2. cbn [mbind result_bind]. rewrite Nat2Z.id, E3.
    cbn [mbind result_bind Z.eqb andb]. rewrite (proj2 (Nat.leb_le 5 _)) by lia. rewrite H3.
    cbn [mbind result_bind]. rewrite Nat2Z.id, H5. cbn [mbind result_bind]. unfold from_utf8.
    by destruct Hn as [_ ->].
  - set (rest := concat (extension_bytes <$> others ++ [server_name name])) in *. cbn [fst snd] in *.
    destruct (extension_fields pre k d (rest ++ after)) as (E1 & E2 & E3); [done..|].
    rewrite !length_app, length_extension in He. rewrite <- app_assoc.
    rewrite (proj2 (Nat.leb_le _ _)) by lia. rewrite E1, E2. cbn [mbind result_bind]. rewrite Nat2Z.id, E3.
    cbn [mbind result_bind]. rewrite (proj2 (Z.eqb_neq k 0)) by done. cbn [andb]. rewrite app_assoc.
    replace (length pre + 4 + length d)%nat with (length (pre ++ extension_bytes (k, d)))
      by (rewrite length_app, length_extension; lia).
    apply IH; [rewrite !length_app, length_extension; lia|cbn in Hf; lia].
Qed.

Lemma length_hello_body h :
  hello_ok h →
  (38 ≤ length (hello_body h))%nat ∧
  length (hello_body h) =
    (40 + length h.(h_session) + length h.(h_suites) + length h.(h_compression)
     + length (concat (extension_bytes <$> h.(h_extensions))))%nat.
Proof.
  intros (Hv & Hr & _). unfold hello_body. rewrite !length_app, !length_to_be. lia.
Qed.

Lemma length_concat_extensions l : (length l ≤ length (concat (extension_bytes <$> l)))%nat.
Proof.
  induction l as [|[k d] l IH]; cbn [fmap list_fmap concat length]; [done|].
  rewrite length_app, length_extension. lia.
Qed.

(** What [tls_server_name] does up to the extensions. *)
Lemma tls_server_name_extensions h rest :
  hello_ok h → Z.of_nat (length (handshake_bytes h)) < 2 ^ 16 →
  ∃ pre, handshake_bytes h = pre ++ concat (extension_bytes <$> h.(h_extensions)) ∧
    tls_server_name (record_bytes h ++ rest) =
      extensions_loop (S (length (handshake_bytes h))) (handshake_bytes h) (length pre) (length (handshake_bytes h)).
Proof.
  intros Hok Hlen. destruct (length_hello_body h Hok) as [H38 Hbody].
  destruct Hok as (Hv & Hr & Hs & Hc & Hm & He). set (exts := concat _) in *.
  assert (Hh : length (handshake_bytes h) = (4 + length (hello_body h))%nat)
    by (unfold handshake_bytes; rewrite !length_app, length_to_be; cbn; lia).
  exists ([1] ++ to_be 3 (Z.of_nat (length (hello_body h))) ++ h.(h_version) ++ h.(h_random) ++
    to_be 1 (Z.of_nat (length h.(h_session))) ++ h.(h_session) ++ to_be 2 (Z.of_nat (length h.(h_suites))) ++
    h.(h_suites) ++ to_be 1 (Z.of_nat (length h.(h_compression))) ++ h.(h_compression) ++
    to_be 2 (Z.of_nat (length exts))).
  set (pre := _ ++ to_be 2 (Z.of_nat (length exts))).
  split; [subst pre; unfold handshake_bytes, hello_body; fold exts; by rewrite <- !app_assoc|].
  unfold tls_server_name. rewrite (proj2 (Nat.ltb_ge _ _)) by (unfold record_bytes; length_tac).
  unfold record_bytes at 1 2. rewrite <- !app_assoc.
  rewrite (u16_at_app [22; 3; 1]) by (done || (unfold uint; lia)). cbn [mbind result_bind]. rewrite Nat2Z.id.
  unfold get_slice. rewrite (app_assoc [22; 3; 1]). rewrite (slice_get_app _ (handshake_bytes h)) by length_tac.
  cbn [context mbind result_bind]. rewrite bool_decide_eq_true_2 by done. cbn [negb orb].
  rewrite (proj2 (Nat.ltb_ge _ _)) by lia.
  assert (E : ∀ i j k l, i = 38%nat → j = (39 + length h.(h_session))%nat →
    k = (41 + length h.(h_session) + length h.(h_suites))%nat →
    l = (42 + length h.(h_session) + length h.(h_suites) + length h.(h_compression))%nat →
    get (handshake_bytes h) i = Ok (Z.of_nat (length h.(h_session))) ∧
    get_u16 (handshake_bytes h) j = Ok (Z.of_nat (length h.(h_suites))) ∧
    get (handshake_bytes h) k = Ok (Z.of_nat (length h.(h_compression))) ∧
    get_u16 (handshake_bytes h) l = Ok (Z.of_nat (length exts))).
  { intros i j k l -> -> -> ->. unfold handshake_bytes, hello_body. fold exts.
    set (x := to_be 3 _). assert (Hx : length x = 3%nat) by apply length_to_be.
    split_and!.
    - do 3 rewrite app_assoc. apply get_byte; [lia|]. rewrite !length_app, Hx. cbn. lia.
    - do 5 rewrite app_assoc. apply get_u16_app; [unfold uint; lia|]. rewrite !length_app, Hx, length_to_be. cbn. lia.
    - do 7 rewrite app_assoc. apply get_byte; [lia|]. rewrite !length_app, Hx, !length_to_be. cbn. lia.
    - do 9 rewrite app_assoc. apply get_u16_app; [unfold uint; lia|]. rewrite !length_app, Hx, !length_to_be. cbn. lia. }
  destruct (E 38%nat (38 + (1 + length h.(h_session)))%nat
    (38 + (1 + length h.(h_session)) + (2 + length h.(h_suites)))%nat
    (38 + (1 + length h.(h_session)) + (2 + length h.(h_suites)) + (1 + length h.(h_compression)))%nat)
    as (E1 & E2 & E3 & E4); [lia..|].
  rewrite E1. cbn [mbind result_bind]. rewrite Nat2Z.id, E2. cbn [mbind result_bind]. rewrite Nat2Z.id, E3.
  cbn [mbind result_bind]. rewrite Nat2Z.id, E4. cbn [mbind result_bind]. rewrite Nat2Z.id.
  rewrite Nat.min_r by lia. f_equal. subst pre. rewrite !length_app, !length_to_be. cbn. lia.
Qed.

(** The server name of a TLS connection is found: for every ClientHello in one
    record, whatever its session id, cipher suites and other extensions, and
    whatever follows it, the sniffer reports TLS with the name of the server name
    extension, in lower case. *)
Theorem sniff_client_hello h others name after rest sniffers :
  hello_ok h → Z.of_nat (length (handshake_bytes h)) < 2 ^ 16 →
  h.(h_extensions) = others ++ server_name name :: after → Forall (λ e, e.1 ≠ 0) others →
  rust_str name → sniffers = [] ∨ lit "tls" ∈ sniffers →
  sniff_payload (record_bytes h ++ rest) false sniffers =
    Ok (Some (mkSniff (lit "tls") (Some (to_ascii_lowercase name)) None)).
Proof.
  intros Hok Hlen Hext Ho Hn Hen.
  assert (Hname : tls_server_name (record_bytes h ++ rest) = Ok (to_ascii_lowercase name)).
  { destruct (tls_server_name_extensions h rest Hok Hlen) as (pre & Hpre & ->).
    destruct Hok as (_ & _ & _ & _ & _ & He). rewrite Hext in Hpre, He.
    change (server_name name :: after) with ([server_name name] ++ after) in Hpre.
    rewrite app_assoc, fmap_app, concat_app in Hpre.
    apply Forall_app in He as [Heo [[_ Hsn] _]%Forall_cons].
    assert (Hsl : Z.of_nat (length name) + 5 < 2 ^ 16).
    { unfold server_name in Hsn. cbn [snd] in Hsn. rewrite !length_app, !length_to_be in Hsn. cbn [length] in Hsn. lia. }
    rewrite Hpre. apply extensions_loop_finds; [|done|done|rewrite !length_app; lia|].
    - rewrite Forall_forall in Ho, Heo |- *. intros e Hin. destruct (Heo e Hin). auto.
    - pose proof (length_concat_extensions (others ++ [server_name name])) as Hl.
      rewrite !length_app in *. cbn [length] in *. lia. }
  unfold sniff_payload. rewrite Hname.
  assert (Ht : (bool_decide (sniffers = []) || existsb (λ item, str_eqb item (lit "tls")) sniffers) = true).
  { destruct Hen as [->|Hin]; [done|]. apply orb_true_iff. right. apply existsb_exists. exists (lit "tls").
    split; [by apply list_elem_of_In|by apply str_eqb_eq]. }
  rewrite Ht. done.
Qed.

(** ** The name of a DNS question *)

(** The sniffer's label loop reads what the resolver's reads. *)
Lemma name_labels_question fuel b p ls r q :
  question_labels fuel b p ls = Ok (r, q) → name_labels fuel b p ls = Ok r.
Proof.
  revert p ls. induction fuel as [|fuel IH]; intros p ls; cbn [question_labels name_labels]; [done|].
  intros H. apply bind_Ok in H as (n & Hn%context_Ok & H). unfold get. rewrite Hn. cbn [context mbind result_bind].
  destruct (n =? 0); [by injection H as <- _|]. destruct (63 <? n); [done|].
  apply bind_Ok in H as (l & Hl%context_Ok & H). unfold get_slice. rewrite Hl. cbn [context mbind result_bind].
  apply bind_Ok in H as (l' & -> & H). cbn [mbind result_bind]. by apply IH.
Qed.

Lemma trim_start_lowercase s :
  trim_start_matches (Z.eqb c_dot) (to_ascii_lowercase s) = to_ascii_lowercase (trim_start_matches (Z.eqb c_dot) s).
Proof.
  induction s as [|c s IH]; [done|]. unfold to_ascii_lowercase in *. cbn [fmap list_fmap trim_start_matches].
  assert (Hc : (c_dot =? ascii_lower c) = (c_dot =? c)).
  { unfold ascii_lower, c_dot. destruct (_ && _) eqn:E; [|done]. bool_to_prop.
    rewrite (proj2 (Z.eqb_neq _ _)), (proj2 (Z.eqb_neq _ _)) by lia. done. }
  rewrite Hc. destruct (c_dot =? c); [exact IH|done].
Qed.

Lemma normalize_lowercase s : normalize (to_ascii_lowercase s) = normalize s.
Proof.
  unfold normalize, trim_end_matches.
  rewrite <- (to_ascii_lowercase_idemp (reverse (trim_start_matches (Z.eqb c_dot) (reverse s)))). f_equal.
  pose proof (trim_start_lowercase (reverse s)) as H. unfold to_ascii_lowercase in *.
  by rewrite <- fmap_reverse, H, <- fmap_reverse.
Qed.

Lemma dns_question_name_agrees b name qtype e :
  parse_question b = Ok (name, qtype, e) →
  ∃ n, dns_question_name b false = Ok n ∧ normalize n = name.
Proof.
  intros (qd & labels & q & fields & _ & _ & Hl & _ & _ & -> & _)%parse_question_inv.
  unfold dns_question_name. cbn [mbind result_bind]. rewrite (name_labels_question _ _ _ _ _ _ Hl).
  cbn [mbind result_bind]. eexists. split; [done|]. apply normalize_lowercase.
Qed.

(** The sniffer and the resolver agree on DNS queries: a datagram that the
    resolver parses as a question, and that is not a response, is sniffed as DNS,
    with the name the resolver finds, up to the dots at its end; the same holds of
    the query behind its length on a stream. *)
Theorem sniff_dns_query b name qtype e flags :
  parse_question b = Ok (name, qtype, e) → b !! 2%nat = Some flags → Z.land flags 128 = 0 → Forall u8 b →
  ∃ n, normalize n = name ∧
    (∀ sniffers, sniffers = [] ∨ lit "dns" ∈ sniffers →
       sniff_payload b true sniffers = Ok (Some (mkSniff (lit "dns") (Some n) None))) ∧
    (∀ rest, Z.of_nat (length b) < 2 ^ 16 →
       sniff_payload (to_be 2 (Z.of_nat (length b)) ++ b ++ rest) false [lit "dns"] =
         Ok (Some (mkSniff (lit "dns") (Some n) None))).
Proof.
  intros Hq Hf Hqr Hu. destruct (dns_question_name_agrees _ _ _ _ Hq) as (n & Hn & Hnorm).
  destruct (parse_question_inv _ _ _ _ Hq) as (qd & labels & q & fields & Hqd & Hqd0 & Hl & _ & _ & _ & -> & Hq13 & He).
  assert (Hmsg : ∀ d, d = b → (if (12 <=? length d)%nat then flags ← index d 2;
      if Z.land flags 128 =? 0 then count ← u16_at d 4; Ok (0 <? count) else Ok false else Ok false) = Ok true).
  { intros d ->. rewrite (proj2 (Nat.leb_le _ _)) by lia. unfold index. rewrite Hf. cbn [mbind result_bind].
    rewrite Hqr, Hqd. cbn [Z.eqb mbind result_bind]. f_equal. apply Z.ltb_lt.
    pose proof (u16_at_u16 _ _ _ Hu Hqd) as Hb. unfold uint in Hb. lia. }
  exists n. split; [done|]. split.
  - intros sniffers Hs. unfold sniff_payload. cbn [negb andb and_then if_ok].
    assert (Ht : (bool_decide (sniffers = []) || existsb (λ item, str_eqb item (lit "dns")) sniffers) = true).
    { destruct Hs as [->|Hin]; [done|]. apply orb_true_iff. right. apply existsb_exists. exists (lit "dns").
      split; [by apply list_elem_of_In|by apply str_eqb_eq]. }
    rewrite Ht. cbn [and_then]. unfold is_dns_message. cbn [dns_body found mbind result_bind].
    rewrite Hmsg by done. cbn [if_ok]. by rewrite Hn.
  - intros rest Hlen. unfold sniff_payload. cbn [negb andb orb bool_decide existsb str_eqb].
    set (d := to_be 2 _ ++ b ++ rest).
    assert (Hbody : dns_body d true = Ok b).
    { unfold dns_body, d. pose proof (get_u16_app [] (Z.of_nat (length b)) (b ++ rest) 0) as G. cbn [app] in G.
      rewrite G by (unfold uint; done || lia). cbn [mbind result_bind]. rewrite Nat2Z.id. unfold get_slice.
      rewrite (slice_get_app _ b) by length_tac. done. }
    assert (Hdns : is_dns_message d true = Ok true).
    { unfold is_dns_message. rewrite Hbody. cbn [found mbind result_bind]. by apply Hmsg. }
    assert (Hname : dns_question_name d true = Ok n).
    { unfold dns_question_name, d in *. cbn [mbind result_bind] in Hn. 
      assert (Hs : get_slice (to_be 2 (Z.of_nat (length b)) ++ b ++ rest) 2
        (length (to_be 2 (Z.of_nat (length b)) ++ b ++ rest)) = Ok (b ++ rest)).
      { unfold get_slice. rewrite <- (app_nil_r (b ++ rest)) at 1. rewrite (slice_get_app _ (b ++ rest)) by length_tac. done. }
      rewrite Hs. cbn [mbind result_bind].
      apply bind_Ok in Hn as (ls & Hls & Hn). rewrite (name_labels_question _ _ _ _ _ _ Hl) in Hls. injection Hls as <-.
      assert (Hl' : question_labels (S (length (b ++ rest))) (b ++ rest) 12 [] = Ok (labels, q)).
      { rewrite (question_labels_mono (S (length b))); [|rewrite (question_labels_agree _ b _ _ _ labels q Hl)|].
        - apply (question_labels_agree _ b); [done| |rewrite length_app; lia].
          intros i ?. by rewrite lookup_app_l by lia.
        - done.
        - intros i ?. by rewrite lookup_app_l by lia.
        - rewrite length_app. lia.
        - rewrite length_app. lia. }
      by rewrite (name_labels_question _ _ _ _ _ _ Hl'). }
    rewrite Hdns, Hname. done.
Qed.

(** ** An IPv6 literal in a Host header *)

(** The brackets are trimmed before the port is cut off at the first colon, so the
    host of a request to an IPv6 address is its first group. *)
Lemma http_ipv6_host :
  http_domain (lit "GET / HTTP/1.1" ++ [13; 10] ++ lit "Host: [2001:db8::1]:8080" ++ [13; 10]) = Some (lit "2001") ∧
  http_domain (lit "GET / HTTP/1.1" ++ [13; 10] ++ lit "Host: [::1]" ++ [13; 10]) = Some [].
Proof. by vm_compute. Qed.

(** ** Witnesses *)

Definition sample_hello : ClientHello :=
  mkHello [3; 3] (replicate 32 7) [9; 9] [19; 1] [0] [(16, [0; 1; 2]); server_name (lit "Example.com"); (43, [2; 3; 4])].

Lemma sniff_client_hello_witness :
  sniff_payload (record_bytes sample_hello ++ [1; 2]) false [] =
    Ok (Some (mkSniff (lit "tls") (Some (lit "example.com")) None)).
Proof.
  refine (sniff_client_hello sample_hello [(16, [0; 1; 2])] (lit "Example.com") [(43, [2; 3; 4])] [1; 2] []
    _ _ eq_refl _ _ (or_introl eq_refl)).
  - unfold hello_ok. cbn. split_and!; try lia. repeat constructor; cbn; unfold uint; lia.
  - vm_compute. reflexivity.
  - by repeat constructor.
  - split; [|reflexivity]. by apply (bool_decide_unpack _).
Defined.

Lemma sniff_dns_query_witness :
  sniff_payload sample_request true [lit "dns"] = Ok (Some (mkSniff (lit "dns") (Some (lit "a.b")) None)).
Proof.
  destruct (sniff_dns_query sample_request (lit "a.b") 28 21 1 eq_refl eq_refl eq_refl) as (n & Hn & H & _);
    [by apply (bool_decide_unpack _)|].
  assert (E : sniff_payload sample_request true [lit "dns"] = Ok (Some (mkSniff (lit "dns") (Some n) None))).
  { apply H. right. apply list_elem_of_here. }
  rewrite E. vm_compute in E. injection E as <-. reflexivity.
Defined.
