(* ===== verification/RouteEval.v ===== *)
(** * Route evaluation (src/src/proxy/route.rs)

    The loop that asks the router for the next action and applies it: it sniffs
    the protocol, resolves the domain when a rule asks for it or needs an address,
    collects the options of the rules on its way and ends with the decision of the
    first route rule that matches.  Its resolver is an interface, which
    DnsResolver.v implements. *)

From S2P Require Import Prelude RustStr Net Util Vless DnsMessage DnsCache Routing RoutingFacts DnsRule.
From S2P Require Import DnsTransport DnsResolver Sniff.

(** ** Data *)

(** [linux_route::LinuxRouteMetadata] *)
Record LinuxRouteMetadata := mkLinux {
  l_process_name : option str;
  l_process_path : option str;
  l_user : option str;
  l_user_id : option Z;
  l_network_type : option str;
  l_network_is_expensive : bool;
  l_network_is_constrained : bool;
  l_wifi_ssid : option str;
  l_wifi_bssid : option str;
  l_interface_addresses : gmap str (list IpAddr);
  l_network_interface_addresses : gmap str (list IpAddr);
  l_source_mac_address : option str;
  l_source_hostname : option str;
  l_default_interface_addresses : list IpAddr;
}.

(** [RouteInput], less the router and the resolver *)
Record RouteInput := mkInput {
  peer_ip : IpAddr;
  peer_port : Z;
  in_inbound : str;
  linux : LinuxRouteMetadata;
  in_auth_user : option str;
  in_clash_mode : option str;
}.

Record RouteState := mkRouteState {
  st_domain : option str;
  st_ip : option IpAddr;
  st_ips : list IpAddr;
  cursor : nat;
  resolved : bool;
}.

Definition state_new (destination : Destination) : RouteState :=
  match destination with
  | Domain value _ => mkRouteState (Some value) None [] 0 false
  | Ip value _ => mkRouteState None (Some value) [] 0 false
  end.

Definition state_context (s : RouteState) (input : RouteInput) (destination : Destination) (network : str)
    (protocol client : option str) : RouteContext :=
  mkContext s.(st_domain) s.(st_ip) s.(st_ips) (Some (Vless.port destination)) (Some input.(peer_ip))
    (Some input.(peer_port)) (Some network) protocol client (Some input.(in_inbound)) input.(in_auth_user)
    input.(linux).(l_process_name) input.(linux).(l_process_path) None input.(linux).(l_user)
    input.(linux).(l_user_id) input.(in_clash_mode) input.(linux).(l_network_type)
    input.(linux).(l_network_is_expensive) input.(linux).(l_network_is_constrained)
    input.(linux).(l_wifi_ssid) input.(linux).(l_wifi_bssid) (Some input.(linux).(l_interface_addresses))
    (Some input.(linux).(l_network_interface_addresses)) input.(linux).(l_source_mac_address)
    input.(linux).(l_source_hostname) input.(linux).(l_default_interface_addresses) [].

Definition with_cursor (s : RouteState) (n : nat) : RouteState :=
  mkRouteState s.(st_domain) s.(st_ip) s.(st_ips) n s.(resolved).

Definition with_domain (s : RouteState) (d : option str) : RouteState :=
  mkRouteState d s.(st_ip) s.(st_ips) s.(cursor) s.(resolved).

(** ** The resolver as the route sees it *)

(** The answers of a resolver to the lookups of an evaluation, by the turn they are
    made in; [late] says which of them exceed their time.  A lookup that succeeds
    has an address: the loop relies on it to make progress. *)
Class Resolver := {
  look : nat → str → LookupOptions → result (list IpAddr);
  late : nat → Z → bool;
  look_nonempty t name options l : look t name options = Ok l → l ≠ [];
  look_returns t name options : returns (look t name options);
}.

Definition resolve_for_route (r : Resolver) (turn : nat) (name : str) (options : LookupOptions)
    : result (list IpAddr) :=
  if late turn (default (5 * secs) options.(o_timeout)) then Err "route DNS resolution timeout"
  else look turn name options.

Definition select_address (addresses : list IpAddr) (strategy : option str) : option IpAddr :=
  let s := default [] strategy in
  let find f := List.find f addresses in
  if str_eqb s (lit "ipv4_only") then find is_ipv4
  else if str_eqb s (lit "ipv6_only") then find (λ a, negb (is_ipv4 a))
  else if str_eqb s (lit "prefer_ipv4") then or (find is_ipv4) (head addresses)
  else if str_eqb s (lit "prefer_ipv6") then or (find (λ a, negb (is_ipv4 a))) (head addresses)
  else head addresses.

Section evaluation.
Context `{N : IpNetLib} `{R : RegexLib}.
Context (router : Router) (resolver : option Resolver).

(** [resolve_action]; other actions do nothing. *)
Definition resolve_action (turn : nat) (s : RouteState) (a : RuleAction) : result RouteState :=
  match a, s.(st_domain), resolver with
  | Resolve server timeout strategy disable_cache rewrite_ttl client_subnet, Some name, Some r =>
    ips ← resolve_for_route r turn name
            (mkOptions (or server router.(default_domain_resolver)) disable_cache rewrite_ttl
               ((λ v, parse_duration_lenient (Some v)) <$> timeout) strategy client_subnet);
    Ok (mkRouteState s.(st_domain) (select_address ips strategy) ips s.(cursor) true)
  | _, _, _ => Ok s
  end.

Definition need_resolve (turn : nat) (s : RouteState) (index : nat) : result RouteState :=
  match s.(st_domain), resolver with
  | Some name, Some r =>
    let options := mkOptions router.(default_domain_resolver) false None None None None in
    match resolve_for_route r turn name options with
    | Ok (ip :: ips) => Ok (mkRouteState s.(st_domain) (Some ip) (ip :: ips) index true)
    | Ok [] | Err _ => Ok (mkRouteState s.(st_domain) s.(st_ip) [] (index + 1) true)
    | Panic => Panic
    | Diverge => Diverge
    end
  | _, _ => Ok (with_cursor s (index + 1))
  end.

Definition resolved_addresses (s : RouteState) : list IpAddr := if s.(resolved) then s.(st_ips) else [].

Definition override_destination (original : Destination) (options : RouteOptions) : Destination :=
  let p := default (Vless.port original) options.(override_port) in
  match options.(override_address) with
  | None => match original with Ip a _ => Ip a p | Domain d _ => Domain d p end
  | Some host => match parse_ip host with Some a => Ip a p | None => Domain host p end
  end.

(** ** The loop *)

(** What a [sniff] action learns: [source] is what the caller sniffs from, which a
    sniffer may change. *)
Context {Source : Type} (sniff : nat → list str → option str → Source → Source * result (option SniffResult)).

Record Outcome := mkOutcome {
  decision : RouteDecision;
  final_state : RouteState;
  final_options : RouteOptions;
  final_source : Source;
}.

(** The sniffed domain replaces the one the connection came with. *)
Definition apply_sniff (s : RouteState) (r : SniffResult) : RouteState :=
  match r.(s_domain) with Some d => with_domain s (Some d) | None => s end.

Context (input : RouteInput) (destination : Destination) (network : str).

Fixpoint route_loop (fuel turn : nat) (s : RouteState) (protocol client : option str) (options : RouteOptions)
    (source : Source) : result Outcome :=
  match fuel with
  | O => Diverge
  | S fuel =>
    match next_action_lazy router (state_context s input destination network protocol client) s.(cursor) with
    | Action index action =>
      let s := with_cursor s (index + 1) in
      match action with
      | Route d o => Ok (mkOutcome d s (merge options o) source)
      | SetOptions o => route_loop fuel (S turn) s protocol client (merge options o) source
      | Resolve _ _ _ _ _ _ =>
        s ← resolve_action turn s action;
        route_loop fuel (S turn) s protocol client options source
      | Sniff sniffers timeout =>
        let '(source, r) := sniff turn sniffers timeout source in
        r ← r;
        match r with
        | Some r => route_loop fuel (S turn) (apply_sniff s r) (Some r.(s_protocol)) r.(s_client) options source
        | None => route_loop fuel (S turn) s protocol client options source
        end
      end
    | NeedResolve index =>
      s ← need_resolve turn s index;
      route_loop fuel (S turn) s protocol client options source
    | NoAction => Ok (mkOutcome (Outbound router.(final_outbound)) s options source)
    end
  end.

(** A turn moves the cursor on or finds the addresses of the domain, which happens
    at most once between two moves. *)
Definition route_fuel : nat := 2 * length (Routing.rules router) + 2.

Definition evaluate (source : Source) : result Outcome :=
  route_loop route_fuel 0 (state_new destination) None None router.(router_default_options) source.

End evaluation.

(** ** The three evaluations *)

Section callers.
Context `{N : IpNetLib} `{R : RegexLib}.
Context (router : Router) (resolver : option Resolver).

Record RouteEvaluation := mkEvaluation {
  ev_decision : RouteDecision;
  ev_destination : Destination;
  ev_options : RouteOptions;
  ev_addresses : list IpAddr;
}.

Definition evaluation {S} (destination : Destination) (o : Outcome (Source := S)) : RouteEvaluation :=
  mkEvaluation o.(decision) (override_destination destination o.(final_options)) o.(final_options)
    (resolved_addresses o.(final_state)).

(** The datagram is at hand. *)
Definition udp_sniff (payload : bytes) (_ : nat) (sniffers : list str) (_ : option str) (u : unit)
    : unit * result (option SniffResult) :=
  (u, sniff_payload payload true sniffers).

Definition evaluate_udp_route (destination : Destination) (payload : bytes) (input : RouteInput)
    : result RouteEvaluation :=
  o ← evaluate router resolver (udp_sniff payload) input destination (lit "udp") tt;
  Ok (evaluation destination o).

(** The socket is peeked when no bytes are at hand: [peek] is what that finds in
    each turn, or nothing when it fails or takes too long. *)
Definition sniff_tcp (peek : nat → Z → option bytes) (initial : bytes) (turn : nat) (sniffers : list str)
    (timeout : option str) (u : unit) : unit * result (option SniffResult) :=
  (u, match initial with
      | [] =>
        match peek turn (parse_duration_lenient timeout) with
        | Some data => sniff_payload data false sniffers
        | None => Ok None
        end
      | _ => sniff_payload initial false sniffers
      end).

Definition evaluate_tcp_route (peek : nat → Z → option bytes) (initial : bytes) (destination : Destination)
    (input : RouteInput) : result RouteEvaluation :=
  o ← evaluate router resolver (sniff_tcp peek initial) input destination (lit "tcp") tt;
  Ok (evaluation destination o).

(** The stream is read until there are bytes: [read] is what a read returns in each
    turn; the source is the bytes kept and the bytes taken from the stream. *)
Definition stream_sniff (read : nat → Z → option bytes) (turn : nat) (sniffers : list str) (timeout : option str)
    (source : bytes * bytes) : (bytes * bytes) * result (option SniffResult) :=
  let '(initial, taken) := source in
  let source :=
    match initial with
    | [] =>
      match read turn (parse_duration_lenient timeout) with
      | Some data => (data, taken ++ data)
      | None => (initial, taken)
      end
    | _ => (initial, taken)
    end in
  (source, sniff_payload source.1 false sniffers).

Definition evaluate_stream_tcp_route (read : nat → Z → option bytes) (destination : Destination)
    (input : RouteInput) : result (RouteEvaluation * (bytes * bytes)) :=
  o ← evaluate router resolver (stream_sniff read) input destination (lit "tcp") ([], []);
  Ok (evaluation destination o, o.(final_source)).

End callers.

(** ** The actions of the router *)

Section facts.
Context `{N : IpNetLib} `{R : RegexLib}.

Lemma lazy_loop_action needs_ip c d i rs j a :
  lazy_loop needs_ip c d i rs = Action j a →
  (i ≤ j)%nat ∧ ∃ r, rs !! (j - i)%nat = Some r ∧ Routing.matches r c d = true ∧ Routing.action r = a.
Proof.
  revert i. induction rs as [|r rs IH]; intros i; cbn [lazy_loop]; [done|].
  destruct (Routing.matches r c d) eqn:Hm.
  { intros [= <- <-]. split; [done|]. exists r. by rewrite Nat.sub_diag. }
  destruct (_ && _); [done|]. intros [Hj (r' & Hr & ?)]%IH. split; [lia|]. exists r'.
  split; [|done]. by replace (j - i)%nat with (S (j - S i)) by lia.
Qed.

Lemma lazy_loop_resolve needs_ip c d i rs j :
  lazy_loop needs_ip c d i rs = NeedResolve j → needs_ip = true ∧ (i ≤ j < i + length rs)%nat.
Proof.
  revert i. induction rs as [|r rs IH]; intros i; cbn [lazy_loop length]; [done|].
  destruct (Routing.matches r c d); [done|]. destruct (needs_ip && _ && _) eqn:E.
  - intros [= <-]. bool_to_prop. split; [done|lia].
  - intros [? ?]%IH. split; [done|lia].
Qed.

Lemma next_action_lazy_action rt c from i a :
  next_action_lazy rt c from = Action i a →
  (from ≤ i < length (Routing.rules rt))%nat ∧
  ∃ r, Routing.rules rt !! i = Some r ∧ Routing.matches r c (normalize_domain <$> c.(domain)) = true ∧
    Routing.action r = a.
Proof.
  unfold next_action_lazy. intros (Hi & r & Hr & Hm & Ha)%lazy_loop_action.
  rewrite lookup_drop in Hr. replace (from + (i - from))%nat with i in Hr by lia.
  split; [split; [done|by eapply lookup_lt_Some]|]. eauto.
Qed.

Lemma next_action_lazy_resolve rt c from i :
  next_action_lazy rt c from = NeedResolve i →
  (from ≤ i < length (Routing.rules rt))%nat ∧ destination_addresses c = [] ∧ is_Some c.(domain).
Proof.
  unfold next_action_lazy. intros [Hn Hi]%lazy_loop_resolve. rewrite length_drop in Hi. bool_to_prop.
  split; [lia|]. split; [by destruct (destination_addresses c)|]. by destruct (domain c).
Qed.

(** ** The evaluation ends *)

Section termination.
Context (router : Router) (resolver : option Resolver) {Source : Type}.
Context (sniff : nat → list str → option str → Source → Source * result (option SniffResult)).
Context (sniff_returns : ∀ turn sniffers timeout source, returns (sniff turn sniffers timeout source).2).
Context (input : RouteInput) (destination : Destination) (network : str).

Lemma returns_resolve_for_route r turn name options : returns (resolve_for_route r turn name options).
Proof. unfold resolve_for_route. destruct (late _ _); [done|]. apply look_returns. Qed.

Lemma resolve_action_cursor turn s a :
  returns (resolve_action router resolver turn s a) ∧
  ∀ s', resolve_action router resolver turn s a = Ok s' → s'.(cursor) = s.(cursor).
Proof.
  unfold resolve_action. destruct a as [| | |sv t st dc rt cs]; try (split; [done|by intros s' [= <-]]).
  destruct (st_domain s) as [name|]; [|split; [done|by intros s' [= <-]]].
  destruct resolver as [r|]; [|split; [done|by intros s' [= <-]]]. split.
  - apply returns_bind; [apply returns_resolve_for_route|done].
  - intros s' H. apply bind_Ok in H as (ips & _ & [= <-]). done.
Qed.

(** After a resolution the rule is tried again with addresses, or skipped. *)
Lemma need_resolve_cursor turn s i :
  ∃ s', need_resolve router resolver turn s i = Ok s' ∧
    (s'.(cursor) = (i + 1)%nat ∨ s'.(cursor) = i ∧ s'.(st_ips) ≠ []).
Proof.
  unfold need_resolve. destruct (st_domain s) as [name|]; [|eexists; split; [done|by left]].
  destruct resolver as [r|]; [|eexists; split; [done|by left]].
  pose proof (returns_resolve_for_route r turn name (mkOptions (default_domain_resolver router) false None None None None)) as Hr.
  destruct (resolve_for_route _ _ _ _) as [[|ip ips]|msg| |]; [..|done|done];
    (eexists; split; [done|]); [by left|by right|by left].
Qed.

Definition measure (s : RouteState) : nat :=
  2 * (length (Routing.rules router) - s.(cursor)) +
  match s.(st_ips), s.(st_ip) with [], None => 1 | _, _ => 0 end.

Lemma measure_bound s : (measure s ≤ 2 * (length (Routing.rules router) - s.(cursor)) + 1)%nat.
Proof. unfold measure. destruct (st_ips s), (st_ip s); lia. Qed.

Lemma route_loop_returns fuel turn s protocol client options source :
  (measure s < fuel)%nat →
  returns (route_loop router resolver sniff input destination network fuel turn s protocol client options source).
Proof.
  revert turn s protocol client options source. induction fuel as [|fuel IH]; intros turn s p c o src Hm; [lia|].
  cbn [route_loop]. destruct (next_action_lazy _ _ _) as [i a|i|] eqn:Hn; [| |done].
  - apply next_action_lazy_action in Hn as [Hi _].
    assert (Hnext : ∀ s' t p c o src, s'.(cursor) = (i + 1)%nat →
      returns (route_loop router resolver sniff input destination network fuel t s' p c o src)).
    { intros s' t p' c' o' src' Hs. apply IH. pose proof (measure_bound s') as Hb. rewrite Hs in Hb.
      unfold measure in Hm. lia. }
    destruct a as [d o'|o'|sniffers timeout|sv t st dc rt cs]; [done|by apply Hnext| |].
    + pose proof (sniff_returns turn sniffers timeout src) as Hs.
      destruct (sniff turn sniffers timeout src) as [src' r]. apply returns_bind; [done|].
      intros [r'|] _; apply Hnext; [|done]. unfold apply_sniff. by destruct (s_domain r').
    + destruct (resolve_action_cursor turn (with_cursor s (i + 1)) (Resolve sv t st dc rt cs)) as [Hr Hc].
      apply returns_bind; [done|]. intros s' Hs'. apply Hnext. by rewrite (Hc _ Hs').
  - apply next_action_lazy_resolve in Hn as (Hi & Haddr & _).
    destruct (need_resolve_cursor turn s i) as (s' & -> & Hs'). cbn [mbind result_bind]. apply IH.
    unfold destination_addresses in Haddr. cbn in Haddr. apply app_nil in Haddr as [Hips Hip].
    assert (Hms : measure s = (2 * (length (Routing.rules router) - cursor s) + 1)%nat).
    { unfold measure. rewrite Hips. by destruct (st_ip s). }
    destruct Hs' as [Hc|[Hc Hne]].
    + pose proof (measure_bound s'). rewrite Hc in *. lia.
    + unfold measure at 1. rewrite Hc. destruct (st_ips s'); [done|]. lia.
Qed.

Lemma evaluate_returns source : returns (evaluate router resolver sniff input destination network source).
Proof.
  apply route_loop_returns. pose proof (measure_bound (state_new destination)) as H. unfold route_fuel.
  destruct destination; cbn in *; lia.
Qed.

End termination.

(** C20: routing a connection always ends with a decision or an error: whatever the
    rules, the sniffed bytes and the answers of the resolver are, the loop over the
    rules runs at most twice per rule, and nothing in it panics. *)
Theorem route_evaluation_returns (router : Router) (resolver : option Resolver) input destination payload peek initial read :
  returns (evaluate_udp_route router resolver destination payload input) ∧
  returns (evaluate_tcp_route router resolver peek initial destination input) ∧
  returns (evaluate_stream_tcp_route router resolver read destination input).
Proof.
  split_and!; (apply returns_bind; [apply evaluate_returns|done]);
    intros; unfold udp_sniff, sniff_tcp, stream_sniff; cbn [snd].
  - apply returns_sniff_payload.
  - destruct initial; [|apply returns_sniff_payload]. destruct (peek _ _); [apply returns_sniff_payload|done].
  - destruct source as [initial' taken]. cbn [snd]. apply returns_sniff_payload.
Qed.

(** ** Where a decision comes from *)

(** The decision of a rule that matched in some state of the evaluation. *)
Definition decided (router : Router) (input : RouteInput) (destination : Destination) (network : str)
    (d : RouteDecision) : Prop :=
  d = Outbound router.(final_outbound) ∨
  ∃ i r s protocol client o, Routing.rules router !! i = Some r ∧ Routing.action r = Route d o ∧
    let c := state_context s input destination network protocol client in
    Routing.matches r c (normalize_domain <$> c.(domain)) = true.

Lemma route_loop_decided {Source} router resolver sniff input destination network fuel turn s protocol client options
    (source : Source) o :
  route_loop router resolver sniff input destination network fuel turn s protocol client options source = Ok o →
  decided router input destination network o.(decision).
Proof.
  revert turn s protocol client options source. induction fuel as [|fuel IH]; intros turn s p c opts src; [done|].
  cbn [route_loop]. destruct (next_action_lazy _ _ _) as [i a|i|] eqn:Hn.
  - destruct a as [d o'|o'|sniffers timeout|sv t st dc rt cs].
    + intros [= <-]. right. apply next_action_lazy_action in Hn as (_ & r & Hr & Hm & Ha).
      exists i, r, s, p, c, o'. done.
    + apply IH.
    + destruct (sniff turn sniffers timeout src) as [src' r]. intros H. apply bind_Ok in H as ([r'|] & _ & H);
        by eapply IH.
    + intros H. apply bind_Ok in H as (s' & _ & H). by eapply IH.
  - intros H. apply bind_Ok in H as (s' & _ & H). by eapply IH.
  - intros [= <-]. by left.
Qed.

(** A connection goes only where the rules send it: the decision of an
    evaluation is the router's final outbound, or that of one of its rules which
    matched the connection's own port, source, inbound and network. *)
Theorem route_decision_from_rule router resolver input destination payload ev :
  evaluate_udp_route router resolver destination payload input = Ok ev →
  decided router input destination (lit "udp") ev.(ev_decision).
Proof.
  intros H. apply bind_Ok in H as (o & Ho & [= <-]). by eapply route_loop_decided.
Qed.

(** ** Agreement with the simple router *)

(** Actions that neither sniff nor resolve. *)
Definition simple_action (a : RuleAction) : Prop :=
  match a with Route _ _ | SetOptions _ => True | _ => False end.

Definition first_route (c : RouteContext) (final : str) (rs : list CompiledRule) : RouteDecision :=
  default (Outbound final)
    (head (omap (λ r, match Routing.action r with Route decision _ => Some decision | _ => None end)
       (List.filter (λ r, Routing.matches r c (normalize_domain <$> c.(domain))) rs))).

Lemma first_route_skip c final rs i :
  (∀ j r, (j < i)%nat → rs !! j = Some r → Routing.matches r c (normalize_domain <$> c.(domain)) = false) →
  first_route c final rs = first_route c final (drop i rs).
Proof.
  revert rs. induction i as [|i IH]; intros rs H; [by rewrite drop_0|]. destruct rs as [|r rs]; [done|].
  unfold first_route at 1. cbn [List.filter]. rewrite (H 0%nat r) by (done || lia). cbn [drop].
  apply IH. intros j r' Hj Hr. apply (H (S j)); [lia|done].
Qed.

(** Without lookups to make, the next action is that of the first rule that matches. *)
Lemma lazy_loop_known c d i rs :
  match lazy_loop false c d i rs with
  | Action j a => (i ≤ j)%nat ∧ (∃ r, rs !! (j - i)%nat = Some r ∧ Routing.matches r c d = true ∧ Routing.action r = a) ∧
      ∀ k r, (k < j - i)%nat → rs !! k = Some r → Routing.matches r c d = false
  | NeedResolve _ => False
  | NoAction => ∀ k r, rs !! k = Some r → Routing.matches r c d = false
  end.
Proof.
  revert i. induction rs as [|r rs IH]; intros i; cbn [lazy_loop]; [by intros k r Hk; rewrite lookup_nil in Hk|].
  destruct (Routing.matches r c d) eqn:Hm.
  { split; [done|]. split; [exists r; by rewrite Nat.sub_diag|]. lia. }
  cbn [andb]. specialize (IH (S i)). destruct (lazy_loop false c d (S i) rs) as [j a|j|]; [|done|].
  - destruct IH as (Hj & (r' & Hr & Hrest) & Hk). split; [lia|]. split.
    + exists r'. replace (j - i)%nat with (S (j - S i)) by lia. done.
    + intros [|k] r'' Hk' Hr''; [by injection Hr'' as <-|]. apply (Hk k); [lia|done].
  - intros [|k] r' Hr'; [by injection Hr' as <-|by eapply IH].
Qed.

Lemma filter_none {A} (f : A → bool) l : (∀ k x, l !! k = Some x → f x = false) → List.filter f l = [].
Proof.
  induction l as [|x l IH]; intros H; [done|]. cbn. rewrite (H 0%nat x eq_refl). apply IH. intros k y Hy. by apply (H (S k)).
Qed.

(** The decision does not depend on where the loop stands among rules it has
    passed. *)
Lemma route_loop_simple {Source} router resolver sniff input a p network fuel turn k options (source : Source) :
  Forall (λ r, simple_action (Routing.action r)) (Routing.rules router) → (length (Routing.rules router) < fuel + k)%nat →
  (k ≤ length (Routing.rules router))%nat →
  let s := mkRouteState None (Some a) [] k false in
  let c := state_context s input (Ip a p) network None None in
  ∃ o, route_loop router resolver sniff input (Ip a p) network fuel turn s None None options source = Ok o ∧
    o.(decision) = first_route c router.(final_outbound) (drop k (Routing.rules router)) ∧
    o.(final_state).(resolved) = false.
Proof.
  intros Hs. revert k turn options. induction fuel as [|fuel IH]; intros k turn opts Hf Hk s c; [lia|].
  cbn [route_loop]. unfold next_action_lazy. fold c. change (cursor s) with k.
  change (negb (nonempty (destination_addresses c)) && _) with false.
  pose proof (lazy_loop_known c (normalize_domain <$> domain c) k (drop k (Routing.rules router))) as Hl.
  destruct (lazy_loop _ _ _ _ _) as [j act|j|] eqn:E; [|done|].
  - destruct Hl as (Hj & (r & Hr & Hm & Ha) & Hbefore).
    rewrite (first_route_skip _ _ _ (j - k)) by (intros i r' Hi Hr'; by eapply Hbefore).
    rewrite drop_drop. replace (k + (j - k))%nat with j by lia.
    rewrite lookup_drop in Hr. replace (k + (j - k))%nat with j in Hr by lia.
    pose proof (lookup_lt_Some _ _ _ Hr) as Hlt. rewrite (drop_S _ _ _ Hr).
    pose proof (Forall_lookup_1 _ _ _ _ Hs Hr) as Hsimple. cbn in Hsimple. rewrite Ha in Hsimple.
    destruct act as [d o'|o'| |]; [| |done..].
    + eexists. split; [done|]. unfold first_route. cbn [List.filter]. rewrite Hm. cbn. by rewrite Ha.
    + destruct (IH (j + 1)%nat (S turn) (merge opts o')) as (o & Ho & Hd & Hres); [lia..|].
      exists o. split; [exact Ho|]. split; [|done]. rewrite Hd. replace (j + 1)%nat with (S j) by lia.
      unfold first_route at 2. cbn [List.filter]. rewrite Hm. cbn [omap list_omap]. rewrite Ha. done.
  - eexists. split; [done|]. split; [|done]. cbn [decision]. unfold first_route.
    rewrite filter_none; [done|exact Hl].
Qed.

(** For a connection to an address, under rules that neither sniff nor resolve,
    the evaluation loop decides exactly like the simple router ([Router::route])
    does with the same context, and it resolves nothing. *)
Theorem evaluation_is_route router resolver input a p payload :
  Forall (λ r, simple_action (Routing.action r)) (Routing.rules router) →
  ∃ ev, evaluate_udp_route router resolver (Ip a p) payload input = Ok ev ∧
    ev.(ev_decision) =
      Routing.route router (state_context (state_new (Ip a p)) input (Ip a p) (lit "udp") None None) ∧
    ev.(ev_addresses) = [].
Proof.
  intros Hs. unfold evaluate_udp_route, evaluate, route_fuel.
  destruct (route_loop_simple router resolver (udp_sniff payload) input a p (lit "udp")
    (2 * length (Routing.rules router) + 2) 0 0 (router_default_options router) tt Hs) as (o & Ho & Hd & Hr); [lia..|].
  change (state_new (Ip a p)) with (mkRouteState None (Some a) [] 0 false) at 1. rewrite Ho. eexists. split; [done|].
  split; [exact Hd|]. unfold evaluation, resolved_addresses. cbn. by rewrite Hr.
Qed.

(** ** No byte of a stream is lost *)

Lemma route_loop_source {Source} (P : Source → Prop) router resolver sniff input destination network fuel turn s protocol
    client options (source : Source) o :
  (∀ turn sniffers timeout source, P source → P (sniff turn sniffers timeout source).1) → P source →
  route_loop router resolver sniff input destination network fuel turn s protocol client options source = Ok o →
  P o.(final_source).
Proof.
  intros Hsniff. revert turn s protocol client options source.
  induction fuel as [|fuel IH]; intros turn s p c opts src HP; [done|].
  cbn [route_loop]. destruct (next_action_lazy _ _ _) as [i a|i|].
  - destruct a as [d o'|o'|sniffers timeout|sv t st dc rt cs].
    + by intros [= <-].
    + by apply IH.
    + pose proof (Hsniff turn sniffers timeout src HP) as HP'.
      destruct (sniff turn sniffers timeout src) as [src' r]. intros H. apply bind_Ok in H as ([r'|] & _ & H);
        by eapply IH.
    + intros H. apply bind_Ok in H as (s' & _ & H). by eapply IH.
  - intros H. apply bind_Ok in H as (s' & _ & H). by eapply IH.
  - by intros [= <-].
Qed.

(** The bytes an evaluation reads from a stream to sniff them are handed back
    whole: they are what the caller gets, however many sniff rules ran and however
    their reads ended. *)
Theorem sniffed_bytes_kept router resolver read destination input ev initial taken :
  evaluate_stream_tcp_route router resolver read destination input = Ok (ev, (initial, taken)) → initial = taken.
Proof.
  intros H. apply bind_Ok in H as (o & Ho & H). injection H as _ H.
  assert (Hkeep : ∀ turn sniffers timeout source, source.1 = source.2 →
    (stream_sniff read turn sniffers timeout source).1.1 = (stream_sniff read turn sniffers timeout source).1.2).
  { intros turn sniffers timeout [i t]. unfold stream_sniff. cbn [fst snd]. intros ->. destruct t; [|done].
    by destruct (read _ _). }
  unfold evaluate in Ho. pose proof (route_loop_source (λ s : bytes * bytes, s.1 = s.2)
    _ _ _ _ _ _ _ _ _ _ _ _ ([], []) _ Hkeep eq_refl Ho) as HP.
  by rewrite H in HP.
Qed.

End facts.

(** ** The resolver of the program *)

(** The answers of [DnsResolver::lookup_with_options] in the states of its cache at
    the time of each lookup. *)
Definition dns_lookup `{N : IpNetLib} `{R : RegexLib} `{HI : !HashIter CacheKey CacheEntry}
    (inner : Inner) (envs : nat → Env * Env) (caches : nat → DnsCache) (t : nat) (name : str) (o : LookupOptions)
    : result (list IpAddr) :=
  (lookup_with_options inner (envs t).1 (envs t).2 name o (caches t)).2.

Lemma dns_lookup_nonempty `{N : IpNetLib} `{R : RegexLib} `{HI : !HashIter CacheKey CacheEntry} inner envs caches t name o l :
  dns_lookup inner envs caches t name o = Ok l → l ≠ [].
Proof.
  unfold dns_lookup, lookup_with_options. destruct (validate_strategy _) as [u|msg| |]; [|done..].
  destruct (if bool_decide _ then _ else _) as [s1 a]. destruct (if bool_decide _ then _ else _) as [s2 aaaa]. cbn.
  intros H. assert (Hm : merge_addresses (lookup_strategy inner (normalize name) o) a aaaa = Ok l) by (by destruct a, aaaa).
  by apply merge_addresses_spec in Hm as (? & _).
Qed.

(** [DnsResolver] keeps the promises of the interface: its lookups return, and
    never with an empty list. *)
Definition dns_resolver `{N : IpNetLib} `{NL : !IpNetLaws N} `{R : RegexLib} `{HI : !HashIter CacheKey CacheEntry}
    (inner : Inner) (envs : nat → Env * Env) (caches : nat → DnsCache) (slow : nat → Z → bool)
    (He : ∀ t, env_ok (envs t).1 ∧ env_ok (envs t).2) (Hc : ∀ t, cache_typed (caches t)) : Resolver := {|
  look := dns_lookup inner envs caches;
  late := slow;
  look_nonempty := dns_lookup_nonempty inner envs caches;
  look_returns t name o :=
    returns_lookup_with_options inner _ _ name o _ (Hc t) (proj1 (He t)) (proj2 (He t));
|}.

(** ** Witnesses *)

#[local] Existing Instance Cidr.lib.
#[local] Existing Instance Literal.regex.

Definition sample_input : RouteInput :=
  mkInput (V4 3232235777) 5000 (lit "in")
    (mkLinux None None None None None false false None None ∅ ∅ None None []) None None.

Definition no_resolver : option Resolver := None.

Lemma evaluation_is_route_witness :
  ∃ ev, evaluate_udp_route sample_router no_resolver (Ip (V4 0xc0a80101) 53) [] sample_input = Ok ev ∧
    ev.(ev_decision) = Outbound (lit "home").
Proof.
  destruct (evaluation_is_route sample_router no_resolver sample_input (V4 0xc0a80101) 53 []) as (ev & H & Hd & _).
  { repeat constructor. }
  exists ev. split; [exact H|]. rewrite Hd. reflexivity.
Defined.

Lemma route_decision_from_rule_witness :
  ∃ ev, evaluate_udp_route sample_router no_resolver (Domain (lit "a.org") 53) [] sample_input = Ok ev ∧
    decided sample_router sample_input (Domain (lit "a.org") 53) (lit "udp") ev.(ev_decision).
Proof.
  destruct (evaluate_udp_route sample_router no_resolver (Domain (lit "a.org") 53) [] sample_input)
    as [ev|msg| |] eqn:E; [|exfalso; vm_compute in E; discriminate E..].
  exists ev. split; [reflexivity|]. exact (route_decision_from_rule _ _ _ _ _ _ E).
Defined.

(** A rule that sniffs every connection, before the others. *)
Definition sniff_rule : RouteRule :=
  mkRouteRule [] None [] [] [] [] [] [] [] [] [] [] false false [] [] [] [] [] [] [] [] [] [] []
    [] [] [] [] [] [] None [] false false [] [] [] [] [] [] [] [] [] false None
    (Some (lit "sniff")) false Routing.default_options [] None None None false None None None false.

Definition sniffing_router : Router := Eval vm_compute in get_router (simple_router (sniff_rule :: sample_rules) []).

Lemma sniffed_bytes_kept_witness :
  ∃ ev initial taken, evaluate_stream_tcp_route sniffing_router no_resolver (λ _ _, Some (lit "SSH-2.0-x"))
    (Ip (V4 0xc0a80101) 22) sample_input = Ok (ev, (initial, taken)) ∧ initial = taken ∧ taken = lit "SSH-2.0-x".
Proof.
  destruct (evaluate_stream_tcp_route sniffing_router no_resolver (λ _ _, Some (lit "SSH-2.0-x"))
    (Ip (V4 0xc0a80101) 22) sample_input) as [[ev [initial taken]]|msg| |] eqn:E;
    [|exfalso; vm_compute in E; discriminate E..].
  exists ev, initial, taken. split; [reflexivity|]. split; [exact (sniffed_bytes_kept _ _ _ _ _ _ _ _ E)|].
  vm_compute in E. injection E as _ _ <-. reflexivity.
Defined.
