(* ===== verification/LinuxRoute.v ===== *)
(** * Metadata of the local system (src/src/linux_route.rs)

    What the router may know of a local connection besides its addresses: the
    process and the user behind it, the network it leaves by, the interfaces and
    their addresses, the MAC address and the name of its source.  The collection
    reads /proc, /etc and the output of commands, which are a parameter here; it
    keeps the interfaces for five seconds.  Only what [linux_metadata_scope] asks for
    is collected, which RouteEval.v does not notice. *)

From S2P Require Import Prelude RustStr Net Util Vless DnsMessage DnsCache Routing RoutingFacts DnsRule.
From S2P Require Import DnsTransport DnsResolver Sniff RouteEval.

(** ** The system *)

(** An entry of /proc: its name, and the links of its [fd] directory when that can
    be read.  A link that cannot be read is [None]. *)
Record ProcEntry := mkProc {
  proc_name : bytes;
  proc_fds : option (list (option bytes));
}.

(** What the system answers during one collection: the content of files, the links
    in them, the entries of /proc, whether a path exists, and what a command prints
    when it succeeds. *)
Record System := mkSystem {
  read_file : str → option bytes;
  read_link : str → option bytes;
  read_proc : option (list ProcEntry);
  path_exists : str → bool;
  run_command : str → list str → option bytes;
}.

(** ** Strings and paths *)

(** [str::rsplit_once] *)
Definition rsplit_once (c : Z) (s : str) : option (str * str) :=
  '(a, b) ← split_once c (reverse s); Some (reverse b, reverse a).

(** [u16::from_str_radix(s, 16)]: an optional plus sign and at least one digit, in
    range. *)
Definition parse_hex (w : Z) (s : str) : option Z :=
  match strip_plus s with
  | [] => None
  | s => ds ← mapM (IpParser.to_digit 16) s; try_uint w (IpParser.digits_value 16 ds)
  end.

(** The components that [Path] compares: empty ones and dots do not count, except a
    dot at the start. *)
Definition path_components (p : bytes) : bool * list bytes :=
  let parts := split c_slash p in
  let names := List.filter (λ n, negb (str_eqb n []) && negb (str_eqb n [c_dot])) (drop 1 parts) in
  match parts with
  | [] => (false, names)
  | n :: _ => if starts_with [c_slash] p then (true, names) else if str_eqb n [] then (false, names) else (false, n :: names)
  end.

Definition path_eqb (a b : bytes) : bool := bool_decide (path_components a = path_components b).

(** [fs::read_to_string], whose error is not looked at *)
Definition read_to_string (sys : System) (path : str) : option str :=
  b ← sys.(read_file) path; result_ok (from_utf8 b).

Definition command_output (sys : System) (program : str) (arguments : list str) : option str :=
  from_utf8_lossy <$> sys.(run_command) program arguments.

(** [Option::filter] on strings that are not empty *)
Definition not_empty (o : option str) : option str :=
  v ← o; if nonempty v then Some v else None.

Definition command_line (sys : System) (program : str) (arguments : list str) : option str :=
  not_empty (trim <$> command_output sys program arguments).

(** ** The tables *)

Definition port_field (field : str) : option Z := '(_, p) ← rsplit_once c_colon field; parse_hex 16 p.

Definition socket_line (peer proxy : SocketAddr) (line : str) : option (Z * Z) :=
  let fields := split_whitespace line in
  local_port ← fields !! 1%nat ≫= port_field;
  remote_port ← fields !! 2%nat ≫= port_field;
  if negb (local_port =? peer.(sa_port)) || negb (remote_port =? proxy.(sa_port)) then None
  else
    uid ← fields !! 7%nat ≫= parse_uint 32;
    inode ← fields !! 9%nat ≫= parse_uint 64;
    Some (inode, uid).

Definition socket_tables : list str := [lit "/proc/net/tcp"; lit "/proc/net/tcp6"].

Definition find_socket_owner (sys : System) (peer proxy : SocketAddr) : option (Z * Z) :=
  find_map (socket_line peer proxy)
    (concat ((λ content, drop 1 (lines content)) <$> omap (read_to_string sys) socket_tables)).

Definition inode_process (target : str) (entry : ProcEntry) : option Z :=
  name ← result_ok (from_utf8 entry.(proc_name));
  pid ← parse_uint 32 name;
  descriptors ← entry.(proc_fds);
  if existsb (λ link, is_some_and link (λ v, path_eqb v target)) descriptors then Some pid else None.

Definition find_inode_process (sys : System) (inode : Z) : option Z :=
  entries ← sys.(read_proc);
  find_map (inode_process (lit "socket:[" ++ print_uint inode ++ lit "]")) entries.

Definition passwd_line (uid : Z) (line : str) : option str :=
  let fields := split c_colon line in
  u ← fields !! 2%nat ≫= parse_uint 32;
  if u =? uid then fields !! 0%nat else None.

Definition user_name (sys : System) (uid : Z) : option str :=
  text ← read_to_string sys (lit "/etc/passwd"); find_map (passwd_line uid) (lines text).

(** A row of the table of routes with the destination 0.0.0.0. *)
Definition default_route_line (line : str) : option (Z * str) :=
  let fields := split_whitespace line in
  destination ← fields !! 1%nat;
  if negb (str_eqb destination (lit "00000000")) then None
  else
    metric ← fields !! 6%nat ≫= parse_uint 32;
    interface ← fields !! 0%nat;
    Some (metric, interface).

(** [Iterator::min_by_key]: the first of the least ones *)
Definition min_by_metric (l : list (Z * str)) : option (Z * str) :=
  fold_left (λ best x, match best with Some b => if b.1 <=? x.1 then Some b else Some x | None => Some x end) l None.

Definition default_interface (sys : System) : option str :=
  text ← read_to_string sys (lit "/proc/net/route");
  snd <$> min_by_metric (omap default_route_line (drop 1 (lines text))).

Definition interface_type (sys : System) (interface : str) : str :=
  if str_eqb interface (lit "lo") then lit "loopback"
  else if sys.(path_exists) (lit "/sys/class/net/" ++ interface ++ lit "/wireless") then lit "wifi"
  else if starts_with (lit "wwan") interface || starts_with (lit "rmnet") interface then lit "cellular"
  else lit "ethernet".

Definition address_field (field : str) : option IpAddr := '(address, _) ← split_once c_slash field; parse_ip address.

(** [entry(key).or_default().extend(values)] *)
Definition extend_entry (m : gmap str (list IpAddr)) (key : str) (values : list IpAddr) : gmap str (list IpAddr) :=
  <[key := default [] (m !! key) ++ values]> m.

Definition address_line (line : str) : option (str * IpAddr) :=
  let fields := split_whitespace line in
  interface ← trim_end_matches (Z.eqb c_colon) <$> fields !! 1%nat;
  address ← find_map address_field fields;
  Some (to_ascii_lowercase interface, address).

Definition all_interface_addresses (sys : System) : gmap str (list IpAddr) :=
  match command_output sys (lit "ip") [lit "-o"; lit "addr"; lit "show"] with
  | None => ∅
  | Some output =>
    fold_left (λ m line, match address_line line with Some (k, a) => extend_entry m k [a] | None => m end)
      (lines output) ∅
  end.

Definition arp_line (ip : IpAddr) (field : nat) (line : str) : option str :=
  let fields := split_whitespace line in
  address ← fields !! 0%nat ≫= parse_ip;
  if bool_decide (address = ip) then to_ascii_lowercase <$> fields !! field else None.

Definition arp_value (sys : System) (ip : IpAddr) (field : nat) : option str :=
  text ← read_to_string sys (lit "/proc/net/arp"); find_map (arp_line ip field) (drop 1 (lines text)).

Definition hosts_line (ip : IpAddr) (line : str) : option str :=
  let fields := split_whitespace line in
  address ← fields !! 0%nat ≫= parse_ip;
  if bool_decide (address = ip) then fields !! 1%nat else None.

Definition is_comment (line : str) : bool := starts_with [35] (trim_start_ws 0 line).

Definition hosts_name (sys : System) (ip : IpAddr) : option str :=
  text ← read_to_string sys (lit "/etc/hosts");
  find_map (hosts_line ip) (List.filter (λ l, negb (is_comment l)) (lines text)).

(** ** The caches *)

Record Cached (A : Type) := mkCached { cached_value : A; captured : Z }.
Arguments mkCached {A} _ _.
Arguments cached_value {A} _.
Arguments captured {A} _.

Definition INTERFACE_CACHE_TTL : Z := 5 * secs.

(** A value that is kept for [INTERFACE_CACHE_TTL]: [read] makes a new one at [now]. *)
Definition cached_read {A} (now : Z) (read : A) (cache : option (Cached A)) : A * option (Cached A) :=
  match cache with
  | Some c => if Z.max 0 (now - c.(captured)) <? INTERFACE_CACHE_TTL then (c.(cached_value), cache)
              else (read, Some (mkCached read now))
  | None => (read, Some (mkCached read now))
  end.

(** The two caches of the process. *)
Record Caches := mkCaches {
  interface_cache : option (Cached (gmap str (list IpAddr)));
  default_cache : option (Cached (option str));
}.

Definition empty_caches : Caches := mkCaches None None.

Definition all_interface_addresses_cached (sys : System) (now : Z) (c : Caches) : gmap str (list IpAddr) * Caches :=
  let '(v, i) := cached_read now (all_interface_addresses sys) c.(interface_cache) in (v, mkCaches i c.(default_cache)).

Definition default_interface_cached (sys : System) (now : Z) (c : Caches) : option str * Caches :=
  let '(v, d) := cached_read now (default_interface sys) c.(default_cache) in (v, mkCaches c.(interface_cache) d).

Definition interface_addresses_cached (sys : System) (now : Z) (c : Caches) (interface : str) : list IpAddr * Caches :=
  let '(m, c) := all_interface_addresses_cached sys now c in
  (default [] (m !! to_ascii_lowercase interface), c).

(** ** The collection *)

Definition no_metadata : LinuxRouteMetadata :=
  mkLinux None None None None None false false None None ∅ ∅ None None [].

Section collection.
Context `{HI : !HashIter str (list IpAddr)}.
Context (sys : System) (now : Z).

(** The addresses of the interfaces of each type. *)
Definition by_type (m : gmap str (list IpAddr)) : gmap str (list IpAddr) :=
  fold_left (λ acc '(interface, addresses), extend_entry acc (interface_type sys interface) addresses) (hash_iter m) ∅.

Definition collect_interfaces (scope : LinuxMetadataScope) (c : Caches)
    : (gmap str (list IpAddr) * gmap str (list IpAddr)) * Caches :=
  if scope.(sc_interface) then
    let '(m, c) := all_interface_addresses_cached sys now c in ((m, by_type m), c)
  else ((∅, ∅), c).

(** Name and path of the process, user and user id. *)
Definition collect_owner (scope : LinuxMetadataScope) (peer proxy : SocketAddr)
    : (option str * option str) * (option str * option Z) :=
  if scope.(sc_process) || scope.(sc_user) then
    match find_socket_owner sys peer proxy with
    | None => ((None, None), (None, None))
    | Some (inode, uid) =>
      ((if scope.(sc_process) then
          match find_inode_process sys inode with
          | Some pid =>
            (not_empty (trim <$> read_to_string sys (lit "/proc/" ++ print_uint pid ++ lit "/comm")),
             from_utf8_lossy <$> sys.(read_link) (lit "/proc/" ++ print_uint pid ++ lit "/exe"))
          | None => (None, None)
          end
        else (None, None)),
       (user_name sys uid, Some uid))
    end
  else ((None, None), (None, None)).

Record NetworkData := mkNetwork {
  n_type : option str;
  n_expensive : bool;
  n_ssid : option str;
  n_bssid : option str;
  n_addresses : list IpAddr;
}.

(** A line of the output of [iw]. *)
Definition bssid_line (line : str) : option str :=
  value ← strip_prefix (lit "Connected to ") (trim line);
  to_ascii_lowercase <$> split_whitespace value !! 0%nat.

Definition collect_network (scope : LinuxMetadataScope) (c : Caches) : NetworkData * Caches :=
  if scope.(sc_network) then
    let '(interface, c) := default_interface_cached sys now c in
    match interface with
    | None => (mkNetwork None false None None [], c)
    | Some interface =>
      let type := interface_type sys interface in
      let metered :=
        command_line sys (lit "nmcli") [lit "-g"; lit "GENERAL.METERED"; lit "device"; lit "show"; interface] in
      let '(addresses, c) := interface_addresses_cached sys now c interface in
      let wifi := str_eqb type (lit "wifi") in
      (mkNetwork (Some type)
         (is_some_and metered (λ v, str_eqb v (lit "yes") || str_eqb v (lit "guess-yes")))
         (if wifi then command_line sys (lit "iwgetid") [lit "-r"] else None)
         (if wifi then
            output ← command_output sys (lit "iw") [lit "dev"; interface; lit "link"];
            find_map bssid_line (lines output)
          else None)
         addresses, c)
    end
  else (mkNetwork None false None None [], c).

Definition collect_tcp (peer proxy : SocketAddr) (scope : LinuxMetadataScope) (c : Caches)
    : LinuxRouteMetadata * Caches :=
  let '(interfaces, c) := collect_interfaces scope c in
  let owner := collect_owner scope peer proxy in
  let '(net, c) := collect_network scope c in
  (mkLinux owner.1.1 owner.1.2 owner.2.1 owner.2.2 net.(n_type) net.(n_expensive) false net.(n_ssid) net.(n_bssid)
     interfaces.1 interfaces.2
     (if scope.(sc_mac) then arp_value sys peer.(sa_ip) 3 else None)
     (if scope.(sc_hostname) then hosts_name sys peer.(sa_ip) else None)
     net.(n_addresses), c).

Definition scope_is_empty (s : LinuxMetadataScope) : bool :=
  negb (s.(sc_process) || s.(sc_user) || s.(sc_interface) || s.(sc_network) || s.(sc_mac) || s.(sc_hostname)).

(** What an inbound collects for a connection. *)
Definition connection_metadata (scope : LinuxMetadataScope) (peer proxy : SocketAddr) (c : Caches)
    : LinuxRouteMetadata * Caches :=
  if scope_is_empty scope then (no_metadata, c) else collect_tcp peer proxy scope c.

End collection.

(** ** Collecting less is not noticed *)

Definition full_scope : LinuxMetadataScope := mkScope true true true true true true.

Lemma cached_read_idem {A} now (read : A) c :
  (cached_read now read (cached_read now read c).2).1 = (cached_read now read c).1.
Proof.
  assert (Hnew : (Z.max 0 (now - now) <? INTERFACE_CACHE_TTL) = true) by (by rewrite Z.sub_diag).
  destruct c as [c|]; cbn [cached_read fst snd captured cached_value]; [|by rewrite Hnew].
  destruct (Z.max 0 (now - captured c) <? _) eqn:E; cbn [cached_read fst snd captured cached_value];
    [by rewrite E|by rewrite Hnew].
Qed.

Section equivalence.
Context `{HI : !HashIter str (list IpAddr)}.
Context (sys : System) (now : Z).

(** The addresses of an interface do not depend on whether all of them were read
    before. *)
Lemma interface_addresses_after_read c interface :
  (interface_addresses_cached sys now (all_interface_addresses_cached sys now c).2 interface).1 =
  (interface_addresses_cached sys now c interface).1.
Proof.
  unfold interface_addresses_cached, all_interface_addresses_cached.
  pose proof (cached_read_idem now (all_interface_addresses sys) c.(interface_cache)) as H.
  destruct (cached_read now _ (interface_cache c)) as [v i] eqn:E. cbn [fst snd interface_cache default_cache] in *.
  destruct (cached_read now _ i) as [v' i'] eqn:E'. cbn [fst snd] in *. by subst v'.
Qed.

Lemma default_cache_after_read c :
  (all_interface_addresses_cached sys now c).2.(default_cache) = c.(default_cache).
Proof. unfold all_interface_addresses_cached. by destruct (cached_read _ _ _). Qed.

Lemma interface_cache_after_default c :
  (default_interface_cached sys now c).2.(interface_cache) = c.(interface_cache).
Proof. unfold default_interface_cached. by destruct (cached_read _ _ _). Qed.

(** Two caches that answer alike. *)
Definition same_answers (c c' : Caches) : Prop :=
  c.(default_cache) = c'.(default_cache) ∧
  ∀ interface, (interface_addresses_cached sys now c interface).1 = (interface_addresses_cached sys now c' interface).1.

Lemma same_answers_refl c : same_answers c c.
Proof. done. Qed.

Lemma interface_addresses_cache c c' interface : c.(interface_cache) = c'.(interface_cache) →
  (interface_addresses_cached sys now c interface).1 = (interface_addresses_cached sys now c' interface).1.
Proof.
  intros H. unfold interface_addresses_cached, all_interface_addresses_cached. rewrite H.
  by destruct (cached_read _ _ _).
Qed.

Lemma collect_network_same c c' scope scope' :
  same_answers c c' → scope.(sc_network) = true → scope'.(sc_network) = true →
  (collect_network sys now scope c).1 = (collect_network sys now scope' c').1.
Proof.
  intros [Hd Ha] H H'. unfold collect_network. rewrite H, H'.
  pose proof (interface_cache_after_default c) as Hi. pose proof (interface_cache_after_default c') as Hi'.
  unfold default_interface_cached in *. rewrite Hd in *.
  destruct (cached_read now _ _) as [[interface|] d]; [|done]. cbn [snd] in Hi, Hi'.
  assert (Hx : (interface_addresses_cached sys now (mkCaches c.(interface_cache) d) interface).1 =
    (interface_addresses_cached sys now (mkCaches c'.(interface_cache) d) interface).1).
  { rewrite (interface_addresses_cache _ c), (interface_addresses_cache (mkCaches c'.(interface_cache) d) c') by done.
    apply Ha. }
  destruct (interface_addresses_cached sys now (mkCaches c.(interface_cache) d) interface) as [l k].
  destruct (interface_addresses_cached sys now (mkCaches c'.(interface_cache) d) interface) as [l' k'].
  cbn [fst] in *. by subst l'.
Qed.

Lemma collect_interfaces_answers scope c : same_answers (collect_interfaces sys now scope c).2 c.
Proof.
  unfold collect_interfaces. destruct (sc_interface scope); [|done].
  pose proof (default_cache_after_read c) as Hd. pose proof (interface_addresses_after_read c) as Ha.
  destruct (all_interface_addresses_cached sys now c) as [m k]. split; [exact Hd|exact Ha].
Qed.

(** What two collections under different scopes have in common. *)
Definition metadata_agree (scope : LinuxMetadataScope) (m m' : LinuxRouteMetadata) : Prop :=
  (scope.(sc_process) = true → m.(l_process_name) = m'.(l_process_name) ∧ m.(l_process_path) = m'.(l_process_path)) ∧
  (scope.(sc_user) = true → m.(l_user) = m'.(l_user) ∧ m.(l_user_id) = m'.(l_user_id)) ∧
  (scope.(sc_interface) = true → m.(l_interface_addresses) = m'.(l_interface_addresses) ∧
     m.(l_network_interface_addresses) = m'.(l_network_interface_addresses)) ∧
  (scope.(sc_network) = true → m.(l_network_type) = m'.(l_network_type) ∧
     m.(l_network_is_expensive) = m'.(l_network_is_expensive) ∧
     m.(l_network_is_constrained) = m'.(l_network_is_constrained) ∧ m.(l_wifi_ssid) = m'.(l_wifi_ssid) ∧
     m.(l_wifi_bssid) = m'.(l_wifi_bssid) ∧ m.(l_default_interface_addresses) = m'.(l_default_interface_addresses)) ∧
  (scope.(sc_mac) = true → m.(l_source_mac_address) = m'.(l_source_mac_address)) ∧
  (scope.(sc_hostname) = true → m.(l_source_hostname) = m'.(l_source_hostname)).

Lemma collect_owner_full scope peer proxy :
  (scope.(sc_process) = true → collect_owner sys scope peer proxy = collect_owner sys full_scope peer proxy) ∧
  (scope.(sc_user) = true → (collect_owner sys scope peer proxy).2 = (collect_owner sys full_scope peer proxy).2).
Proof.
  unfold collect_owner. cbn [sc_process sc_user full_scope orb].
  split; intros ->; [done|]. rewrite orb_true_r. by destruct (find_socket_owner sys peer proxy) as [[inode uid]|].
Qed.

Lemma collect_tcp_full scope peer proxy c :
  metadata_agree scope (collect_tcp sys now peer proxy scope c).1 (collect_tcp sys now peer proxy full_scope c).1.
Proof.
  unfold collect_tcp. destruct (collect_owner_full scope peer proxy) as [Hp Hu].
  assert (Hi : scope.(sc_interface) = true →
    (collect_interfaces sys now scope c).1 = (collect_interfaces sys now full_scope c).1).
  { unfold collect_interfaces. by intros ->. }
  pose proof (collect_interfaces_answers scope c) as Ha. pose proof (collect_interfaces_answers full_scope c) as Ha'.
  assert (Hn : scope.(sc_network) = true →
    (collect_network sys now scope (collect_interfaces sys now scope c).2).1 =
    (collect_network sys now full_scope (collect_interfaces sys now full_scope c).2).1).
  { intros H. apply collect_network_same; [|done|done]. destruct Ha, Ha'. split; [congruence|]. intros i. congruence. }
  destruct (collect_interfaces sys now scope c) as [ic k], (collect_interfaces sys now full_scope c) as [ic' k'].
  cbn [fst snd] in *.
  destruct (collect_network sys now scope k) as [n kn], (collect_network sys now full_scope k') as [n' kn'].
  cbn [fst snd] in *. unfold metadata_agree. cbn.
  split_and!; intros Hs.
  - by rewrite Hp.
  - by rewrite Hu.
  - by rewrite Hi.
  - by rewrite Hn.
  - by rewrite Hs.
  - by rewrite Hs.
Qed.

Lemma connection_metadata_full scope peer proxy c :
  metadata_agree scope (connection_metadata sys now scope peer proxy c).1 (collect_tcp sys now peer proxy full_scope c).1.
Proof.
  unfold connection_metadata. destruct (scope_is_empty scope) eqn:E; [|apply collect_tcp_full].
  unfold scope_is_empty in E. bool_to_prop. unfold metadata_agree. split_and!; congruence.
Qed.

End equivalence.

(** ** Routing with less metadata *)

Section routing.
Context `{N : IpNetLib} `{R : RegexLib}.

Definition with_linux (i : RouteInput) (m : LinuxRouteMetadata) : RouteInput :=
  mkInput i.(peer_ip) i.(peer_port) i.(in_inbound) m i.(in_auth_user) i.(in_clash_mode).

Lemma lazy_loop_agree needs_ip c c' d i rs :
  (∀ r, r ∈ rs → agree (metadata_scope r) c c') → lazy_loop needs_ip c d i rs = lazy_loop needs_ip c' d i rs.
Proof.
  revert i. induction rs as [|r rs IH]; intros i Hr; [done|]. cbn [lazy_loop].
  rewrite (matches_agree r c c') by (apply Hr; left). rewrite IH; [done|]. intros x Hx. apply Hr. by right.
Qed.

Lemma next_action_lazy_agree rt c c' from :
  agree (linux_metadata_scope rt) c c' → next_action_lazy rt c from = next_action_lazy rt c' from.
Proof.
  intros Ha. unfold next_action_lazy. pose proof (agree_core _ _ _ Ha) as Hc.
  assert (c.(domain) = c'.(domain)) as -> by exact (f_equal domain Hc).
  assert (destination_addresses c = destination_addresses c') as -> by exact (f_equal destination_addresses Hc).
  apply lazy_loop_agree. intros r Hr. eapply agree_sub; [|exact Ha].
  apply (fold_scope_elem metadata_scope). by eapply subseteq_drop.
Qed.

Lemma state_context_agree scope s i m destination network protocol client :
  metadata_agree scope i.(linux) m →
  agree scope (state_context s i destination network protocol client)
    (state_context s (with_linux i m) destination network protocol client).
Proof.
  intros (Hp & Hu & Hi & Hn & Hm & Hh). split; cbn; try done.
  - intros H. destruct (Hp H). done.
  - intros H. destruct (Hi H) as [-> ->]. done.
Qed.

Lemma route_loop_agree rt resolver {Source} sniff i m destination network :
  metadata_agree (linux_metadata_scope rt) i.(linux) m → ∀ fuel turn s protocol client options (source : Source),
  route_loop rt resolver sniff i destination network fuel turn s protocol client options source =
  route_loop rt resolver sniff (with_linux i m) destination network fuel turn s protocol client options source.
Proof.
  intros Hm fuel. induction fuel as [|fuel IH]; intros turn s p c o src; [done|]. cbn [route_loop].
  rewrite (next_action_lazy_agree rt _ (state_context s (with_linux i m) destination network p c))
    by (by apply state_context_agree).
  destruct (next_action_lazy _ _ _) as [j a|j|]; [| |done].
  - destruct a as [d o'|o'|sniffers timeout|sv t st dc rw cs]; [done|apply IH| |].
    + destruct (sniff turn sniffers timeout src) as [src' [r| | |]]; [|done..]. cbn [mbind result_bind].
      destruct r; apply IH.
    + destruct (resolve_action _ _ _ _ _); [|done..]. cbn [mbind result_bind]. apply IH.
  - destruct (need_resolve _ _ _ _ _); [|done..]. cbn [mbind result_bind]. apply IH.
Qed.

(** The evaluation depends on the metadata of the router's scope only. *)
Lemma evaluate_agree rt resolver {Source} sniff i m destination network (source : Source) :
  metadata_agree (linux_metadata_scope rt) i.(linux) m →
  evaluate rt resolver sniff i destination network source =
  evaluate rt resolver sniff (with_linux i m) destination network source.
Proof. intros Hm. by apply route_loop_agree. Qed.

(** C38: collecting metadata lazily changes no decision: a connection that an
    inbound accepts is routed, over TCP and for each datagram of a SOCKS association,
    as if the process, the user, the interfaces, the network, the MAC address and the
    host name had all been collected, whatever the system answers and whatever the
    caches hold. *)
Theorem lazy_metadata_equiv `{HI : !HashIter str (list IpAddr)} rt resolver sys now caches peer proxy inbound auth mode :
  let collected := (connection_metadata sys now (linux_metadata_scope rt) peer proxy caches).1 in
  let everything := (collect_tcp sys now peer proxy full_scope caches).1 in
  let input m := mkInput peer.(sa_ip) peer.(sa_port) inbound m auth mode in
  (∀ peek initial destination,
     evaluate_tcp_route rt resolver peek initial destination (input collected) =
     evaluate_tcp_route rt resolver peek initial destination (input everything)) ∧
  (∀ destination payload,
     evaluate_udp_route rt resolver destination payload (input collected) =
     evaluate_udp_route rt resolver destination payload (input everything)).
Proof.
  intros collected everything input.
  assert (Ha : metadata_agree (linux_metadata_scope rt) (input collected).(linux) everything)
    by apply connection_metadata_full.
  split; intros; unfold evaluate_tcp_route, evaluate_udp_route;
    by rewrite (evaluate_agree rt resolver _ (input collected) everything).
Qed.

End routing.

(** ** The age of what is reported *)

(** One collection: what the system was, when, and for what. *)
Record Request := mkRequest {
  rq_system : System;
  rq_now : Z;
  rq_peer : SocketAddr;
  rq_proxy : SocketAddr;
  rq_scope : LinuxMetadataScope;
}.

Section age.
Context `{HI : !HashIter str (list IpAddr)}.

(** The collections of a process, in the order of its clock. *)
Fixpoint collections (rs : list Request) (c : Caches) : list LinuxRouteMetadata :=
  match rs with
  | [] => []
  | r :: rs =>
    let '(m, c) := collect_tcp r.(rq_system) r.(rq_now) r.(rq_peer) r.(rq_proxy) r.(rq_scope) c in
    m :: collections rs c
  end.

Fixpoint clock_runs (last : Z) (rs : list Request) : Prop :=
  match rs with
  | [] => True
  | r :: rs => last ≤ r.(rq_now) ∧ clock_runs r.(rq_now) rs
  end.

(** The system answered so at a collection less than five seconds ago. *)
Definition recent (past : list Request) (now : Z) (P : System → Prop) : Prop :=
  ∃ r, r ∈ past ∧ now - INTERFACE_CACHE_TTL < r.(rq_now) ≤ now ∧ P r.(rq_system).

Definition cache_from {A} (past : list Request) (now : Z) (read : System → A) (c : option (Cached A)) : Prop :=
  ∀ v, c = Some v → ∃ r, r ∈ past ∧ r.(rq_now) = v.(captured) ∧ r.(rq_now) ≤ now ∧ v.(cached_value) = read r.(rq_system).

Definition caches_from (past : list Request) (now : Z) (c : Caches) : Prop :=
  cache_from past now all_interface_addresses c.(interface_cache) ∧
  cache_from past now default_interface c.(default_cache).

Lemma cached_read_from {A} past rq (read : System → A) cache :
  rq ∈ past → cache_from past rq.(rq_now) read cache →
  let '(v, cache') := cached_read rq.(rq_now) (read rq.(rq_system)) cache in
  recent past rq.(rq_now) (λ s, v = read s) ∧ cache_from past rq.(rq_now) read cache'.
Proof.
  intros Hrq Hc. assert (Hnew : recent past rq.(rq_now) (λ s, read rq.(rq_system) = read s) ∧
    cache_from past rq.(rq_now) read (Some (mkCached (read rq.(rq_system)) rq.(rq_now)))).
  { split; [|intros v [= <-]]; exists rq; split_and!; try done. unfold INTERFACE_CACHE_TTL, secs. lia. }
  destruct cache as [k|]; [|exact Hnew]. cbn [cached_read].
  destruct (_ <? INTERFACE_CACHE_TTL) eqn:E; [|exact Hnew]. split; [|done].
  destruct (Hc k eq_refl) as (r & Hr & Ht & Hle & Hv). exists r. bool_to_prop. split_and!; [done|lia|lia|done].
Qed.

Lemma interfaces_from past rq c :
  rq ∈ past → caches_from past rq.(rq_now) c →
  let '(m, c') := all_interface_addresses_cached rq.(rq_system) rq.(rq_now) c in
  recent past rq.(rq_now) (λ s, m = all_interface_addresses s) ∧ caches_from past rq.(rq_now) c'.
Proof.
  intros Hrq [Hi Hd]. unfold all_interface_addresses_cached.
  pose proof (cached_read_from _ _ _ _ Hrq Hi) as H. destruct (cached_read _ _ _). destruct H. done.
Qed.

Lemma default_from past rq c :
  rq ∈ past → caches_from past rq.(rq_now) c →
  let '(i, c') := default_interface_cached rq.(rq_system) rq.(rq_now) c in
  recent past rq.(rq_now) (λ s, i = default_interface s) ∧ caches_from past rq.(rq_now) c'.
Proof.
  intros Hrq [Hi Hd]. unfold default_interface_cached.
  pose proof (cached_read_from _ _ _ _ Hrq Hd) as H. destruct (cached_read _ _ _). destruct H. done.
Qed.

(** What a report says of the interfaces, and of the network, was so lately. *)
Definition report_recent (past : list Request) (rq : Request) (m : LinuxRouteMetadata) : Prop :=
  (rq.(rq_scope).(sc_interface) = true →
     recent past rq.(rq_now) (λ s, m.(l_interface_addresses) = all_interface_addresses s)) ∧
  (rq.(rq_scope).(sc_network) = true → ∃ interface,
     recent past rq.(rq_now) (λ s, interface = default_interface s) ∧
     m.(l_network_type) = interface_type rq.(rq_system) <$> interface ∧
     recent past rq.(rq_now) (λ s, m.(l_default_interface_addresses) =
       default [] (i ← interface; all_interface_addresses s !! to_ascii_lowercase i))).

Lemma collect_interfaces_from past rq c :
  rq ∈ past → caches_from past rq.(rq_now) c →
  let '(i, c') := collect_interfaces rq.(rq_system) rq.(rq_now) rq.(rq_scope) c in
  (rq.(rq_scope).(sc_interface) = true → recent past rq.(rq_now) (λ s, i.1 = all_interface_addresses s)) ∧
  caches_from past rq.(rq_now) c'.
Proof.
  intros Hrq Hc. unfold collect_interfaces. destruct (sc_interface _); [|done].
  pose proof (interfaces_from _ _ _ Hrq Hc) as H. destruct (all_interface_addresses_cached _ _ _). destruct H. done.
Qed.

Lemma collect_network_from past rq c :
  rq ∈ past → caches_from past rq.(rq_now) c →
  let '(n, c') := collect_network rq.(rq_system) rq.(rq_now) rq.(rq_scope) c in
  (rq.(rq_scope).(sc_network) = true → ∃ interface,
     recent past rq.(rq_now) (λ s, interface = default_interface s) ∧
     n.(n_type) = interface_type rq.(rq_system) <$> interface ∧
     recent past rq.(rq_now) (λ s, n.(n_addresses) =
       default [] (i ← interface; all_interface_addresses s !! to_ascii_lowercase i))) ∧
  caches_from past rq.(rq_now) c'.
Proof.
  intros Hrq Hc. unfold collect_network. destruct (sc_network _); [|done].
  pose proof (default_from _ _ _ Hrq Hc) as H. destruct (default_interface_cached _ _ c) as [interface c1].
  destruct H as [Hi Hc1]. destruct interface as [interface|].
  - unfold interface_addresses_cached. pose proof (interfaces_from _ _ _ Hrq Hc1) as H.
    destruct (all_interface_addresses_cached _ _ c1) as [m c2]. destruct H as [Hm Hc2]. split; [|done].
    intros _. exists (Some interface). split_and!; [done..|]. destruct Hm as (r & Hr & Ht & ->). by exists r.
  - split; [|done]. intros _. exists None. split_and!; [done..|]. destruct Hi as (r & Hr & Ht & _). by exists r.
Qed.

Lemma collect_tcp_from past rq c :
  rq ∈ past → caches_from past rq.(rq_now) c →
  let '(m, c') := collect_tcp rq.(rq_system) rq.(rq_now) rq.(rq_peer) rq.(rq_proxy) rq.(rq_scope) c in
  report_recent past rq m ∧ caches_from past rq.(rq_now) c'.
Proof.
  intros Hrq Hc. unfold collect_tcp. pose proof (collect_interfaces_from _ _ _ Hrq Hc) as H.
  destruct (collect_interfaces _ _ _ c) as [i c1]. destruct H as [Hi Hc1].
  pose proof (collect_network_from _ _ _ Hrq Hc1) as H.
  destruct (collect_network _ _ _ c1) as [n c2]. destruct H as [Hn Hc2]. done.
Qed.

Lemma caches_from_later past rq t c :
  t ≤ rq.(rq_now) → caches_from past t c → caches_from (past ++ [rq]) rq.(rq_now) c.
Proof.
  intros Ht [Hi Hd]. split; intros v Hv; [destruct (Hi v Hv) as (r & Hr & ? & ? & ?)|destruct (Hd v Hv) as (r & Hr & ? & ? & ?)];
    exists r; split_and!; try done; try lia; apply elem_of_app; by left.
Qed.

Lemma collections_recent past t c rs : caches_from past t c → clock_runs t rs →
  ∀ k rq m, rs !! k = Some rq → collections rs c !! k = Some m → report_recent (past ++ take (S k) rs) rq m.
Proof.
  revert past t c. induction rs as [|r rs IH]; intros past t c Hc Hrun k rq m Hk Hm; [done|].
  destruct Hrun as [Ht Hrun]. cbn [collections] in Hm.
  pose proof (collect_tcp_from (past ++ [r]) r c) as H.
  specialize (H ltac:(apply elem_of_app; right; by left) (caches_from_later _ _ _ _ Ht Hc)).
  destruct (collect_tcp _ _ _ _ _ c) as [m' c']. destruct H as [Hr Hc'].
  destruct k as [|k]; [by simplify_eq/=|]. cbn in Hk, Hm.
  specialize (IH _ _ _ Hc' Hrun k rq m Hk Hm). by rewrite <- app_assoc in IH.
Qed.

(** Whatever the connections are and however the system changes between them, the
    addresses of the interfaces, the interface of the default route and its
    addresses that are reported for a connection are what the system said at a
    collection of the last five seconds, this one included. *)
Theorem metadata_recent t rs : clock_runs t rs →
  ∀ k rq m, rs !! k = Some rq → collections rs empty_caches !! k = Some m → report_recent (take (S k) rs) rq m.
Proof. intros H k rq m. by apply (collections_recent [] t). Qed.

End age.

(** ** The tables of the kernel *)

(** A word of a table: printable ASCII. *)
Definition word (w : str) : Prop := w ≠ [] ∧ Forall (λ c, 33 ≤ c ≤ 126) w.

(** A row of words, the first after some spaces, each before at least one. *)
Definition row_text (lead : nat) (ws : list (str * nat)) : str :=
  replicate lead 32 ++ concat (((λ p, p.1 ++ replicate (S p.2) 32)) <$> ws).

Definition table_text (header : str) (rows : list str) : str := concat ((λ l, l ++ [10]) <$> (header :: rows)).

Lemma split_words_spaces w n s : w ≠ [] ∨ n = 0%nat →
  split_words 0 w (replicate n 32 ++ s) = match n with O => split_words 0 w s | S _ => w :: split_words 0 [] s end.
Proof.
  assert (Hz : ∀ n, split_words 0 [] (replicate n 32 ++ s) = split_words 0 [] s) by (induction n0; cbn; done).
  intros [H| ->]; [|done]. destruct n as [|n]; [done|]. cbn. destruct w; [done|]. cbn. by rewrite Hz.
Qed.

Lemma whitespace_printable c s : 33 ≤ c ≤ 126 → whitespace (c :: s) = 0%nat.
Proof.
  intros H. unfold whitespace, in_range. destruct s as [|d [|e s]];
    repeat match goal with |- context [c =? ?k] => destruct (Z.eqb_spec c k); [lia|] end;
    repeat match goal with |- context [?a <=? ?b] => destruct (Z.leb_spec a b); try lia end; done.
Qed.

Lemma split_words_printable w u s : Forall (λ c, 33 ≤ c ≤ 126) w → split_words 0 u (w ++ s) = split_words 0 (u ++ w) s.
Proof.
  intros H. revert u. induction H as [|c w Hc Hw IH]; intros u; [by rewrite app_nil_r|].
  rewrite <- app_comm_cons. cbn [split_words]. rewrite whitespace_printable, IH by done. by rewrite <- app_assoc.
Qed.

Lemma split_whitespace_row lead ws :
  Forall (λ p, word p.1) ws → split_whitespace (row_text lead ws) = ws.*1.
Proof.
  intros H. unfold split_whitespace, row_text.
  assert (∀ n s, split_words 0 [] (replicate n 32 ++ s) = split_words 0 [] s) as -> by (intros n s; induction n; cbn; done).
  induction H as [|[w n] ws [Hne Hw] Hws IH]; [done|]. cbn [fmap list_fmap concat fst].
  rewrite <- app_assoc, split_words_printable by done. cbn [app].
  rewrite split_words_spaces by (by left). by rewrite IH.
Qed.

Lemma lines_table header rows :
  Forall (λ l, (10 ∉ l) ∧ last l ≠ Some 13) (header :: rows) → lines (table_text header rows) = header :: rows.
Proof.
  unfold table_text. generalize (header :: rows) as ls. clear. intros ls H. unfold lines.
  induction H as [|l ls [Hn Hr] Hls IH]; [done|]. cbn [fmap list_fmap concat].
  assert (Hgo : ∀ u v s, 10 ∉ v → last (u ++ v) ≠ Some 13 →
    lines_loop u ((v ++ [10]) ++ s) = (u ++ v) :: lines_loop [] s).
  { clear. intros u v s. revert u. induction v as [|c v IH]; intros u Hn Hr.
    - cbn. rewrite app_nil_r in *. f_equal. unfold strip_suffix.
      destruct (strip_suffix [13] u) as [r|] eqn:E; [|by unfold strip_suffix in E; rewrite E].
      apply strip_suffix_Some in E as ->. by rewrite last_snoc in Hr.
    - apply not_elem_of_cons in Hn as [Hc Hn]. rewrite <- !app_comm_cons. cbn [lines_loop].
      destruct (Z.eqb_spec c 10); [lia|]. rewrite IH; rewrite <- ?app_assoc; done. }
  rewrite Hgo by done. cbn. by rewrite IH.
Qed.

(** *** The sockets *)

(** A digit and a port as the kernel prints them. *)
Definition upper_hex (d : Z) : Z := if d <? 10 then 48 + d else 55 + d.
Definition port_text (p : Z) : str :=
  upper_hex <$> [p / 4096; (p / 256) mod 16; (p / 16) mod 16; p mod 16].

Lemma upper_hex_digit d : 0 ≤ d < 16 → IpParser.to_digit 16 (upper_hex d) = Some d ∧ upper_hex d ≠ 43 ∧ upper_hex d ≠ c_colon ∧ 33 ≤ upper_hex d ≤ 126.
Proof.
  intros H. assert (d ∈ [0;1;2;3;4;5;6;7;8;9;10;11;12;13;14;15]) as Hd.
  { set_unfold. lia. }
  set_unfold. unfold c_colon. repeat destruct Hd as [->|Hd]; try done; lia.
Qed.

Lemma port_digits p : u16 p → Forall (λ d, 0 ≤ d < 16) [p / 4096; (p / 256) mod 16; (p / 16) mod 16; p mod 16].
Proof.
  unfold u16, uint. intros H. repeat constructor; try (apply Z.mod_pos_bound; lia); try (apply Z.div_pos; lia).
  apply Z.div_lt_upper_bound; lia.
Qed.

Lemma mapM_upper_hex ds : Forall (λ d, 0 ≤ d < 16) ds → mapM (IpParser.to_digit 16) (upper_hex <$> ds) = Some ds.
Proof.
  induction 1 as [|d ds Hd _ IH]; [done|]. cbn. destruct (upper_hex_digit d Hd) as [-> _]. cbn. by rewrite IH.
Qed.

Lemma port_value p :
  IpParser.digits_value 16 [p / 4096; (p / 256) mod 16; (p / 16) mod 16; p mod 16] = p.
Proof.
  unfold IpParser.digits_value. cbn [fold_left].
  pose proof (Z.div_mod p 16 ltac:(lia)) as E1. pose proof (Z.div_mod (p / 16) 16 ltac:(lia)) as E2.
  pose proof (Z.div_mod (p / 256) 16 ltac:(lia)) as E3. rewrite Z.div_div in E2, E3 by lia.
  change (16 * 16) with 256 in E2. change (256 * 16) with 4096 in E3. lia.
Qed.

Lemma parse_port_text p : u16 p → parse_hex 16 (port_text p) = Some p.
Proof.
  intros H. pose proof (port_digits p H) as Hd. unfold parse_hex, port_text.
  assert (strip_plus (upper_hex <$> [p / 4096; (p / 256) mod 16; (p / 16) mod 16; p mod 16]) =
    upper_hex <$> [p / 4096; (p / 256) mod 16; (p / 16) mod 16; p mod 16]) as ->.
  { cbn [fmap list_fmap strip_plus]. apply Forall_cons in Hd as [(_ & ? & _)%upper_hex_digit _].
    by destruct (Z.eqb_spec (upper_hex (p / 4096)) 43). }
  apply mapM_upper_hex in Hd. cbn [fmap list_fmap] in Hd |- *. rewrite Hd. cbn [mbind option_bind]. rewrite port_value.
  unfold try_uint, u16, uint in *. destruct (Z.leb_spec 0 p), (Z.ltb_spec p (2 ^ 16)); done || lia.
Qed.

Lemma rsplit_once_app c a b : c ∉ b → rsplit_once c (a ++ c :: b) = Some (a, b).
Proof.
  intros H. unfold rsplit_once. rewrite reverse_app, reverse_cons, <- app_assoc. cbn [app].
  rewrite split_once_app by (by rewrite elem_of_reverse). cbn. by rewrite !reverse_involutive.
Qed.

Lemma port_text_word p : u16 p → (c_colon ∉ port_text p) ∧ Forall (λ c, 33 ≤ c ≤ 126) (port_text p).
Proof.
  intros H. pose proof (port_digits p H) as Hd. unfold port_text. split.
  - rewrite list_elem_of_fmap. intros (d & Hc & Hin). rewrite Forall_forall in Hd. apply Hd in Hin.
    apply upper_hex_digit in Hin as (_ & _ & ? & _). done.
  - apply Forall_fmap. eapply Forall_impl; [exact Hd|]. intros d (_ & _ & _ & ?)%upper_hex_digit. done.
Qed.

(** A socket of the table: what precedes its ports, its owner, and the fields that
    are not looked at. *)
Record SocketRow := mkSocketRow {
  row_slot : str;
  row_local : str;
  row_local_port : Z;
  row_remote : str;
  row_remote_port : Z;
  row_before : list str;
  row_uid : Z;
  row_timeout : str;
  row_inode : Z;
  row_after : list str;
}.

Definition row_words (r : SocketRow) : list str :=
  [r.(row_slot); r.(row_local) ++ c_colon :: port_text r.(row_local_port);
   r.(row_remote) ++ c_colon :: port_text r.(row_remote_port)] ++ r.(row_before) ++
  [print_uint r.(row_uid); r.(row_timeout); print_uint r.(row_inode)] ++ r.(row_after).

Definition printable (w : str) : Prop := Forall (λ c, 33 ≤ c ≤ 126) w.

Record row_ok (r : SocketRow) : Prop := {
  ok_slot : word r.(row_slot);
  ok_local : printable r.(row_local);
  ok_remote : printable r.(row_remote);
  ok_ports : u16 r.(row_local_port) ∧ u16 r.(row_remote_port);
  ok_before : length r.(row_before) = 4%nat ∧ Forall word r.(row_before);
  ok_owner : u32 r.(row_uid) ∧ u64 r.(row_inode);
  ok_timeout : word r.(row_timeout);
  ok_after : Forall word r.(row_after);
}.

(** The row as text, with [pad] spaces more than one after each word. *)
Definition socket_text (lead pad : nat) (r : SocketRow) : str := row_text lead ((λ w, (w, pad)) <$> row_words r).

Lemma digits_word n : u128 n → word (print_uint n).
Proof.
  intros [Hne Hd]%print_uint_digits. split; [done|]. eapply Forall_impl; [exact Hd|]. unfold is_digit. intros c. cbn. lia.
Qed.

Lemma u128_of w n : 0 ≤ w ≤ 128 → uint w n → u128 n.
Proof. unfold u128, uint. intros Hw Hn. pose proof (Z.pow_le_mono_r 2 w 128). lia. Qed.

Lemma address_word a p : printable a → u16 p → word (a ++ c_colon :: port_text p).
Proof.
  intros Ha [_ Hp]%port_text_word. split; [by destruct a|]. apply Forall_app. split; [done|]. constructor; [done|done].
Qed.

Lemma row_words_ok r : row_ok r → Forall word (row_words r).
Proof.
  intros [Hs Hl Hr [Hlp Hrp] [_ Hb] [Hu Hi] Ht Ha]. unfold row_words.
  rewrite !Forall_app, !Forall_cons, !Forall_nil. split_and!; try done; try (by apply address_word);
    apply digits_word; [by apply (u128_of 32)|by apply (u128_of 64)].
Qed.

Definition port_match (peer proxy : SocketAddr) (r : SocketRow) : option (Z * Z) :=
  if (r.(row_local_port) =? peer.(sa_port)) && (r.(row_remote_port) =? proxy.(sa_port))
  then Some (r.(row_inode), r.(row_uid)) else None.

Lemma socket_line_row peer proxy lead pad r :
  row_ok r → socket_line peer proxy (socket_text lead pad r) = port_match peer proxy r.
Proof.
  intros Hr. unfold socket_line, socket_text. rewrite split_whitespace_row.
  2:{ apply Forall_fmap. eapply Forall_impl; [by apply row_words_ok|]. done. }
  rewrite <- list_fmap_compose, list_fmap_id. destruct Hr as [Hs Hl Hr [Hlp Hrp] [Hb _] [Hu Hi] Ht Ha].
  unfold row_words. destruct (row_before r) as [|b0 [|b1 [|b2 [|b3 [|]]]]]; try done.
  cbn [app]. match goal with |- context [?ws !! 1%nat] => set (fields := ws) end.
  assert (fields !! 1%nat = Some (row_local r ++ c_colon :: port_text (row_local_port r))) as -> by done.
  assert (fields !! 2%nat = Some (row_remote r ++ c_colon :: port_text (row_remote_port r))) as -> by done.
  assert (fields !! 7%nat = Some (print_uint (row_uid r))) as -> by done.
  assert (fields !! 9%nat = Some (print_uint (row_inode r))) as -> by done.
  cbn [mbind option_bind]. unfold port_field.
  rewrite !rsplit_once_app by (by apply port_text_word). cbn [mbind option_bind].
  rewrite !parse_port_text by done. cbn [mbind option_bind]. rewrite !parse_print_uint by (done || lia).
  cbn [mbind option_bind]. unfold port_match. by destruct (_ =? _), (_ =? _).
Qed.

(** A line of a table: ASCII, with no line end in it. *)
Definition table_line (l : str) : Prop := Forall (λ c, 0 ≤ c ≤ 127 ∧ c ≠ 10 ∧ c ≠ 13) l.

Lemma row_text_line lead ws : Forall (λ p, word p.1) ws → table_line (row_text lead ws).
Proof.
  intros H. unfold table_line, row_text. apply Forall_app. split; [apply Forall_replicate; lia|].
  induction H as [|[w n] ws [_ Hw] _ IH]; [done|]. cbn [fmap list_fmap concat fst]. rewrite !Forall_app.
  split_and!; [|apply Forall_replicate; lia|done]. eapply Forall_impl; [exact Hw|]. cbn. lia.
Qed.

Lemma socket_text_line lead pad r : row_ok r → table_line (socket_text lead pad r).
Proof.
  intros Hr. apply row_text_line. apply Forall_fmap. eapply Forall_impl; [by apply row_words_ok|]. done.
Qed.

(** A file that holds a table is read line by line. *)
Lemma read_table sys path header rows :
  Forall table_line (header :: rows) → sys.(read_file) path = Some (table_text header rows) →
  read_to_string sys path = Some (table_text header rows) ∧ drop 1 (lines (table_text header rows)) = rows.
Proof.
  intros Hl Hf. unfold read_to_string. rewrite Hf. cbn [mbind option_bind]. split.
  - unfold from_utf8. rewrite utf8_valid_ascii; [done|]. unfold table_text. clear Hf.
    induction Hl as [|l ls Hl _ IH]; [done|]. cbn [fmap list_fmap concat]. rewrite !Forall_app. split_and!; [|repeat constructor; lia|done].
    eapply Forall_impl; [exact Hl|]. cbn. lia.
  - rewrite lines_table; [done|]. eapply Forall_impl; [exact Hl|]. unfold table_line. intros l Hc. rewrite Forall_forall in Hc. split.
    + intros Hin. by apply Hc in Hin as (_ & ? & _).
    + intros [l' ->]%last_Some. destruct (Hc 13) as (_ & _ & ?); [|done]. apply elem_of_app. right. by left.
Qed.

(** The owner of a connection is read off the tables of the kernel: it is that of
    the first socket, the IPv4 ones first, with the ports of the connection, and the
    connection has none when no socket has them. *)
Theorem socket_owner_of_tables sys peer proxy lead pad header4 header6 t4 t6 :
  table_line header4 → table_line header6 → Forall row_ok t4 → Forall row_ok t6 →
  sys.(read_file) (lit "/proc/net/tcp") = Some (table_text header4 (socket_text lead pad <$> t4)) →
  sys.(read_file) (lit "/proc/net/tcp6") = Some (table_text header6 (socket_text lead pad <$> t6)) →
  find_socket_owner sys peer proxy = find_map (port_match peer proxy) (t4 ++ t6).
Proof.
  intros Hh4 Hh6 H4 H6 Hf4 Hf6.
  assert (Hrows : ∀ header t, table_line header → Forall row_ok t → Forall table_line (header :: (socket_text lead pad <$> t))).
  { intros header t Hh Ht. constructor; [done|]. apply Forall_fmap. eapply Forall_impl; [exact Ht|]. intros. by apply socket_text_line. }
  destruct (read_table _ _ _ _ (Hrows _ _ Hh4 H4) Hf4) as [Hs4 Hd4].
  destruct (read_table _ _ _ _ (Hrows _ _ Hh6 H6) Hf6) as [Hs6 Hd6].
  unfold find_socket_owner, socket_tables. cbn [omap list_omap]. rewrite Hs4, Hs6. cbn [fmap list_fmap concat].
  rewrite Hd4, Hd6, app_nil_r, <- fmap_app.
  assert (Hok : Forall row_ok (t4 ++ t6)) by (by apply Forall_app).
  induction Hok as [|r t Hr _ IH]; [done|]. cbn [fmap list_fmap find_map]. rewrite socket_line_row by done.
  by destruct (port_match peer proxy r).
Qed.

(** ** Concrete systems *)

Module LinuxSamples.

#[local] Existing Instance key_order.

Definition files (l : list (str * str)) (path : str) : option bytes :=
  find_map (λ '(p, t), if str_eqb p path then Some t else None) l.

(** The text of a table, its lines as the kernel prints them. *)
Definition text (l : list string) : str := concat ((λ s, lit s ++ [10]) <$> l).

Definition tcp_table : str := text [
  "  sl  local_address rem_address   st tx_queue rx_queue tr tm->when retrnsmt   uid  timeout inode";
  "   0: 0100007F:9C40 0100007F:0438 01 00000000:00000000 00:00000000 00000000     0        0 4711 1 0000000000000000 20 4 30 10 -1"].

Definition system : System := mkSystem
  (files [(lit "/proc/net/tcp", tcp_table);
          (lit "/proc/42/comm", text ["curl"]);
          (lit "/etc/passwd", text ["root:x:0:0:root:/root:/bin/sh"; "ann:x:1000:1000::/home/ann:/bin/sh"]);
          (lit "/proc/net/route", text ["Iface	Destination	Gateway	Flags	RefCnt	Use	Metric	Mask	MTU	Window	IRTT";
                                        "eth0	00000000	0102A8C0	0003	0	0	100	00000000	0	0	0";
                                        "tun0	00000000	00000000	0001	0	0	0	00000080	0	0	0"]);
          (lit "/proc/net/arp", text ["IP address       HW type     Flags       HW address            Mask     Device";
                                      "192.168.2.7      0x1         0x2         AA:BB:CC:00:11:22     *        eth0"]);
          (lit "/etc/hosts", text ["# 192.168.2.7 old"; "192.168.2.7 printer # third floor"])])
  (files [(lit "/proc/42/exe", lit "/usr/bin/curl")])
  (Some [mkProc (lit "self") (Some [Some (lit "socket:[4711]")]);
         mkProc (lit "42") (Some [Some (lit "/dev/null"); None; Some (lit "socket:[4711]")])])
  (λ p, str_eqb p (lit "/sys/class/net/Wlan0/wireless"))
  (λ p args, if str_eqb p (lit "ip") then
     Some (text ["2: eth0    inet 192.168.2.3/24 brd 192.168.2.255 scope global eth0";
                 "3: ppp0    inet 10.64.0.2 peer 10.64.0.1/32 scope global ppp0";
                 "4: Wlan0    inet 172.16.0.9/16 scope global Wlan0"]) else None).

(** Every source of the collection at work. *)
Theorem collect_sample :
  let m := (collect_tcp system 0 (mkSocketAddr (V4 0x7f000001) 40000) (mkSocketAddr (V4 0x7f000001) 1080)
              full_scope empty_caches).1 in
  m.(l_process_name) = Some (lit "curl") ∧ m.(l_process_path) = Some (lit "/usr/bin/curl") ∧
  m.(l_user) = Some (lit "root") ∧ m.(l_user_id) = Some 0 ∧
  m.(l_interface_addresses) !! lit "eth0" = Some [V4 0xc0a80203] ∧
  hosts_name system (V4 0xc0a80207) = Some (lit "printer") ∧
  arp_value system (V4 0xc0a80207) 3 = Some (lit "aa:bb:cc:00:11:22").
Proof. vm_compute. done. Qed.

(** The owner is looked up by the two ports alone: a connection of another host gets
    the user and the process of a local socket that happens to have its ports. *)
Theorem owner_by_ports_only :
  let m := (collect_tcp system 0 (mkSocketAddr (V4 0xc0a80207) 40000) (mkSocketAddr (V4 0xc0a80203) 1080)
              full_scope empty_caches).1 in
  m.(l_user) = Some (lit "root") ∧ m.(l_process_name) = Some (lit "curl").
Proof. vm_compute. done. Qed.

(** A route to 0.0.0.0/1 counts as a default route: its mask is not looked at. *)
Theorem half_route_taken_for_default : default_interface system = Some (lit "tun0").
Proof. vm_compute. done. Qed.

(** For a point-to-point interface the address of the other end is reported, and a
    wireless interface with a capital letter in its name counts as wired, since its
    name is lowered before its type is looked up. *)
Theorem interface_corners :
  let m := (collect_tcp system 0 (mkSocketAddr (V4 0x7f000001) 1) (mkSocketAddr (V4 0x7f000001) 2)
              full_scope empty_caches).1 in
  m.(l_interface_addresses) !! lit "ppp0" = Some [V4 0x0a400001] ∧
  interface_type system (lit "Wlan0") = lit "wifi" ∧
  m.(l_network_interface_addresses) !! lit "wifi" = None ∧
  m.(l_network_interface_addresses) !! lit "ethernet" ≠ None.
Proof. vm_compute. done. Qed.

Definition sample_request (now : Z) : Request :=
  mkRequest system now (mkSocketAddr (V4 0x7f000001) 40000) (mkSocketAddr (V4 0x7f000001) 1080) full_scope.

Definition sample_report : LinuxRouteMetadata :=
  default no_metadata (collections [sample_request 0; sample_request secs] empty_caches !! 1%nat).

Lemma metadata_recent_witness :
  report_recent [sample_request 0; sample_request secs] (sample_request secs) sample_report.
Proof.
  apply (metadata_recent 0 [sample_request 0; sample_request secs] ltac:(by split; [|split]) 1); done.
Defined.

Definition sample_row : SocketRow :=
  mkSocketRow (lit "0:") (lit "0100007F") 40000 (lit "0100007F") 1080
    [lit "01"; lit "00000000:00000000"; lit "00:00000000"; lit "00000000"] 1000 (lit "0") 4711 [lit "1"].

Definition row_system : System := mkSystem
  (files [(lit "/proc/net/tcp", table_text (lit "sl") [socket_text 2 0 sample_row]);
          (lit "/proc/net/tcp6", table_text (lit "sl") [])]) (λ _, None) None (λ _, false) (λ _ _, None).

Lemma word_dec_ok w : bool_decide (w ≠ []) && forallb (λ c, (33 <=? c) && (c <=? 126)) w = true → word w.
Proof.
  intros [H1 H2]%andb_true_iff. apply bool_decide_eq_true in H1. split; [done|]. rewrite forallb_forall in H2.
  apply Forall_forall. intros c Hc%list_elem_of_In. apply H2 in Hc. bool_to_prop. lia.
Qed.

Lemma socket_owner_of_tables_witness :
  find_socket_owner row_system (mkSocketAddr (V4 0x7f000001) 40000) (mkSocketAddr (V4 0x7f000001) 1080) = Some (4711, 1000).
Proof.
  rewrite (socket_owner_of_tables row_system _ _ 2 0 (lit "sl") (lit "sl") [sample_row] []); try done.
  - repeat constructor; done.
  - repeat constructor; done.
  - constructor; [|done]. split; try (by apply word_dec_ok); try done.
    + split; [done|]. do 4 (constructor; [by apply word_dec_ok|]). done.
    + constructor; [by apply word_dec_ok|done].
Defined.

End LinuxSamples.
