(* ===== verification/SocksUdp.v ===== *)
(** * SOCKS datagrams and hijacked DNS (src/src/proxy/udp.rs)

    The header of a SOCKS UDP datagram, the loop that serves a UDP association,
    and the relay that answers DNS messages of a hijacked TCP connection.  An
    address passes through text on its way in, so the round trip rests on
    IpText.v; routing is RouteEval.v. *)

From S2P Require Import Prelude RustStr Net IpText Vless Routing Sniff RoutingFacts RouteEval.

(** ** The datagram header *)

Definition decode_address (packet : bytes) (offset : nat) : result (Destination * nat) :=
  atyp ← context (packet !! offset) "missing SOCKS address type";
  let position := (offset + 1)%nat in
  '(host, position) ←
    match atyp with
    | 1 =>
      b ← context (slice_get packet position (position + 4)) "truncated IPv4 address";
      Ok (print_ip (V4 (of_be b)), (position + 4)%nat)
    | 3 =>
      length ← context (packet !! position) "missing domain length";
      let position := (position + 1)%nat in
      b ← context (slice_get packet position (position + Z.to_nat length)) "truncated domain";
      value ← from_utf8 b;
      Ok (value, (position + Z.to_nat length)%nat)
    | 4 =>
      b ← context (slice_get packet position (position + 16)) "truncated IPv6 address";
      Ok (print_ip (V6 (of_be b)), (position + 16)%nat)
    | _ => Err "invalid SOCKS address type"
    end;
  port_bytes ← context (slice_get packet position (position + 2)) "missing SOCKS port";
  Ok (parse_destination host (of_be port_bytes), (position + 2)%nat).

Definition parse_socks_udp (packet : bytes) : result (Destination * bytes) :=
  bad ← (if (length packet <? 4)%nat then Ok true
         else s ← slice packet 0 2; Ok (negb (bool_decide (s = [0; 0]))));
  if (bad : bool) then Err "invalid SOCKS UDP reserved field" else
  fragment ← index packet 2;
  if negb (fragment =? 0) then Err "fragmented SOCKS UDP datagrams are unsupported" else
  '(destination, offset) ← decode_address packet 3;
  payload ← slice packet offset (length packet);
  Ok (destination, payload).

Definition encode_address (output : bytes) (destination : Destination) : result bytes :=
  match destination with
  | Ip (V4 ip) port => Ok (output ++ [1] ++ to_be 4 ip ++ to_be 2 port)
  | Domain host port =>
    length ← context (try_uint 8 (Z.of_nat (length host))) "SOCKS domain is too long";
    Ok (output ++ [3; length] ++ host ++ to_be 2 port)
  | Ip (V6 ip) port => Ok (output ++ [4] ++ to_be 16 ip ++ to_be 2 port)
  end.

Definition encode_socks_udp (destination : Destination) (payload : bytes) : result bytes :=
  packet ← encode_address [0; 0; 0] destination; Ok (packet ++ payload).

(** [expect] panics on an error. *)
Definition socks_reply (address : SocketAddr) : result bytes :=
  match encode_address [5; 0; 0] (Ip address.(sa_ip) address.(sa_port)) with
  | Err _ => Panic
  | r => r
  end.

(** Which address a response seems to come from. *)
Definition udp_response_proxy_destination (requested source : Destination) (options : RouteOptions) : Destination :=
  if negb options.(udp_disable_domain_unmapping) && match requested with Domain _ _ => true | _ => false end
  then requested else source.

Definition udp_response_destination (requested : Destination) (source : SocketAddr) (options : RouteOptions)
    : Destination :=
  udp_response_proxy_destination requested (Ip source.(sa_ip) source.(sa_port)) options.

(** The address a datagram is sent to; [lookup] is the resolver's, [system] that of
    the operating system. *)
Definition resolve_udp (lookup : option (str → result (list IpAddr))) (system : str → Z → result (list SocketAddr))
    (destination : Destination) : result SocketAddr :=
  match destination with
  | Ip ip port => Ok (mkSocketAddr ip port)
  | Domain host port =>
    match lookup with
    | Some lookup =>
      ips ← lookup host;
      context (head ((λ ip, mkSocketAddr ip port) <$> ips)) "DNS returned no UDP address"
    | None => addresses ← system host port; context (head addresses) "UDP destination did not resolve"
    end
  end.

Definition destination_socket_addr (lookup : option (str → result (list IpAddr))) (destination : Destination)
    : result SocketAddr :=
  ip ← match destination with
       | Ip ip _ => Ok ip
       | Domain domain _ =>
         lookup ← context lookup "domain UDP response requires a DNS configuration";
         ips ← lookup domain;
         context (head ips) "no address for UDP response domain"
       end;
  Ok (mkSocketAddr ip (Vless.port destination)).

(** ** Facts of the header *)

(** What a datagram can be addressed to: a name is not the text of an address. *)
Definition routable (d : Destination) : Prop :=
  match d with Ip ip _ => ip_ok ip | Domain name _ => parse_ip name = None end.


Lemma parse_destination_routable h p : routable (parse_destination h p).
Proof.
  unfold parse_destination. destruct (parse_ip h) as [ip|] eqn:E; cbn; [by eapply parse_ip_ok|done].
Qed.

Lemma parse_destination_host d : routable d → parse_destination (host d) (Vless.port d) = d.
Proof.
  unfold parse_destination. destruct d as [ip p|h p]; cbn; intros H; [by rewrite parse_print_ip|by rewrite H].
Qed.

Lemma slice_get_at {A} (l m r whole : list A) a b :
  whole = l ++ m ++ r → a = length l → b = (a + length m)%nat → slice_get whole a b = Some m.
Proof. intros ->. apply slice_get_app. Qed.

Lemma lookup_at {A} (l r whole : list A) x i : whole = l ++ x :: r → i = length l → whole !! i = Some x.
Proof. intros -> ->. apply list_lookup_middle. done. Qed.

(** Rewrites the next slice of a packet that is a concatenation. *)
Ltac take_slice l m r :=
  erewrite (slice_get_at l m r); [|by rewrite <- !app_assoc|length_tac|length_tac].

Lemma decode_encoded prefix rest d packet :
  encodable d → routable d → encode_address prefix d = Ok packet →
  decode_address (packet ++ rest) (length prefix) = Ok (d, length packet).
Proof.
  intros [[Hp Hd] Hl] Hr He. pose proof (parse_destination_host d Hr) as Hparse. unfold decode_address.
  destruct d as [[ip|ip] port|name port]; cbn [encode_address Vless.port] in *.
  - apply Ok_inj in He as <-.
    erewrite (lookup_at prefix _ _ _ (length prefix)); [|by rewrite <- !app_assoc|done]. cbn [context mbind result_bind].
    take_slice (prefix ++ [1]) (to_be 4 ip) (to_be 2 port ++ rest). cbn [context mbind result_bind].
    take_slice (prefix ++ [1] ++ to_be 4 ip) (to_be 2 port) rest. cbn [context mbind result_bind].
    rewrite !of_be_to_be by done. unfold host in Hparse. rewrite Hparse. f_equal. f_equal. length_tac.
  - apply Ok_inj in He as <-.
    erewrite (lookup_at prefix _ _ _ (length prefix)); [|by rewrite <- !app_assoc|done]. cbn [context mbind result_bind].
    take_slice (prefix ++ [4]) (to_be 16 ip) (to_be 2 port ++ rest). cbn [context mbind result_bind].
    take_slice (prefix ++ [4] ++ to_be 16 ip) (to_be 2 port) rest. cbn [context mbind result_bind].
    rewrite !of_be_to_be by done. unfold host in Hparse. rewrite Hparse. f_equal. f_equal. length_tac.
  - apply bind_Ok in He as (n & Hn%context_Ok%try_uint_Some & He). destruct Hn as [Hn ->]. apply Ok_inj in He as <-.
    erewrite (lookup_at prefix _ _ _ (length prefix)); [|by rewrite <- !app_assoc|done]. cbn [context mbind result_bind].
    erewrite (lookup_at (prefix ++ [3]) _ _ _ (length prefix + 1)); [|by rewrite <- !app_assoc|length_tac]. cbn [context mbind result_bind].
    rewrite Nat2Z.id.
    take_slice (prefix ++ [3; Z.of_nat (length name)]) name (to_be 2 port ++ rest). cbn [context mbind result_bind].
    rewrite from_utf8_ok by done. cbn [mbind result_bind].
    take_slice (prefix ++ [3; Z.of_nat (length name)] ++ name) (to_be 2 port) rest. cbn [context mbind result_bind].
    rewrite of_be_to_be by done. unfold host in Hparse. rewrite Hparse. f_equal. f_equal. length_tac.
Qed.

Lemma encode_address_ok output d : encodable d → ∃ b body, encode_address output d = Ok (output ++ b :: body).
Proof.
  intros [_ Hl]. destruct d as [[ip|ip] port|name port]; cbn [encode_address]; [cbn [app]; eauto..|].
  rewrite (proj2 (try_uint_Some 8 _ (Z.of_nat (length name)))); [cbn [context mbind result_bind app]; eauto|]. split; [|done].
  unfold uint. change (2 ^ 8) with 256. lia.
Qed.

(** Every datagram of the SOCKS relay that can be encoded is read back with its
    destination and payload: IPv4 and IPv6 addresses survive the text form they take
    on the way, names stay names as long as they are not the text of an address. *)
Theorem parse_encode_socks_udp d payload :
  encodable d → routable d →
  ∃ packet, encode_socks_udp d payload = Ok packet ∧ parse_socks_udp packet = Ok (d, payload).
Proof.
  intros Hd Hr. destruct (encode_address_ok [0; 0; 0] d Hd) as (b & body & He).
  exists (([0; 0; 0] ++ b :: body) ++ payload). unfold encode_socks_udp. rewrite He. split; [done|].
  pose proof (decode_encoded [0; 0; 0] payload d _ Hd Hr He) as Hdec. unfold parse_socks_udp.
  change (length [0; 0; 0]) with 3%nat in Hdec. rewrite Hdec.
  rewrite <- (app_assoc [0; 0; 0]), (proj2 (Nat.ltb_ge _ 4)) by (rewrite !length_app; cbn; lia).
  change ([0; 0; 0] ++ ?x) with ([0; 0] ++ 0 :: x). rewrite slice_prefix by done.
  cbn [mbind result_bind]. rewrite bool_decide_eq_true_2 by done. cbn [negb].
  change (index ([0; 0] ++ 0 :: ?x) 2) with (Ok 0). cbn [mbind result_bind Z.eqb negb].
  change ([0; 0] ++ 0 :: (b :: body) ++ payload) with (([0; 0; 0] ++ b :: body) ++ payload).
  by rewrite slice_to_end.
Qed.

(** No datagram makes the parser panic: the slice behind the header is in bounds. *)
Lemma decode_address_offset packet offset d n :
  decode_address packet offset = Ok (d, n) → (n ≤ length packet)%nat ∧ routable d.
Proof.
  unfold decode_address. intros H. apply bind_Ok in H as (atyp & _ & H). apply bind_Ok in H as ([host position] & _ & H).
  apply bind_Ok in H as (b & Hb%context_Ok & H). apply Ok_inj in H. injection H as <- <-.
  apply slice_get_Some in Hb as (_ & Hb & _). split; [done|apply parse_destination_routable].
Qed.

Lemma returns_decode_address packet offset : returns (decode_address packet offset).
Proof.
  unfold decode_address. apply returns_bind; [apply returns_context|]. intros atyp _. apply returns_bind.
  - repeat break_match_goal; try done; (apply returns_bind; [apply returns_context|]; intros x _; try done).
    apply returns_bind; [apply returns_context|]. intros b _. apply returns_bind; [apply returns_from_utf8|done].
  - intros [host position] _. apply returns_bind; [apply returns_context|done].
Qed.

Lemma returns_parse_socks_udp packet : returns (parse_socks_udp packet).
Proof.
  unfold parse_socks_udp. destruct (length packet <? 4)%nat eqn:E; cbn [mbind result_bind]; [done|]. bool_to_prop.
  destruct packet as [|b1 [|b2 [|b3 [|b4 rest]]]]; cbn in E; try lia.
  change (slice (b1 :: b2 :: b3 :: b4 :: rest) 0 2) with (Ok [b1; b2]). cbn [mbind result_bind].
  destruct (negb _); [done|]. change (index (b1 :: b2 :: b3 :: b4 :: rest) 2) with (Ok b3). cbn [mbind result_bind].
  destruct (negb _); [done|]. apply returns_bind; [apply returns_decode_address|].
  intros [d n] [Hn _]%decode_address_offset. apply returns_bind; [|done]. apply returns_slice; lia.
Qed.

Lemma parse_socks_udp_routable packet d payload : parse_socks_udp packet = Ok (d, payload) → routable d.
Proof.
  unfold parse_socks_udp. intros H. apply bind_Ok in H as (bad & _ & H). destruct bad; [done|].
  apply bind_Ok in H as (f & _ & H). destruct (negb _); [done|]. apply bind_Ok in H as ([d' n] & Hd & H).
  apply bind_Ok in H as (p & _ & H). apply Ok_inj in H. injection H as <- _. by eapply decode_address_offset.
Qed.

(** An override keeps a destination routable: its text is parsed as well. *)
Lemma override_routable d options : routable d → routable (override_destination d options).
Proof.
  unfold override_destination. intros H. destruct (override_address options) as [h|].
  - apply (parse_destination_routable h).
  - by destruct d.
Qed.

(** ** Hijacked DNS over TCP *)

Section dns_relay.
Context {St : Type} (exchange : bytes → St → St * result bytes).

(** The bytes written, the state left and how the relay ended. *)
Abbreviation relayed := (bytes * St * result unit)%type.

(** A read of the length fails only at the end of the stream. *)
Fixpoint relay_dns_loop {S} (fuel : nat) (read : nat → S → result (bytes * S)) (stream : S) (st : St) : relayed :=
  match fuel with
  | O => ([], st, Diverge)
  | S fuel =>
    match read 2%nat stream with
    | Ok (length, stream) =>
      match read (Z.to_nat (of_be length)) stream with
      | Ok (request, stream) =>
        let '(st, r) := exchange request st in
        match r with
        | Ok response =>
          match try_uint 16 (Z.of_nat (List.length response)) with
          | Some n =>
            let '(written, st, end_) := relay_dns_loop fuel read stream st in
            (to_be 2 n ++ response ++ written, st, end_)
          | None => ([], st, Err "DNS response too large")
          end
        | Err e => ([], st, Err e)
        | Panic => ([], st, Panic)
        | Diverge => ([], st, Diverge)
        end
      | Err e => ([], st, Err e)
      | Panic => ([], st, Panic)
      | Diverge => ([], st, Diverge)
      end
    | Err _ => ([], st, Ok tt)
    | Panic => ([], st, Panic)
    | Diverge => ([], st, Diverge)
    end
  end.

Definition relay_dns_tcp (stream : bytes) (st : St) : relayed :=
  relay_dns_loop (S (length stream)) read_exact stream st.

(** Reads from the bytes that are already there first. *)
Definition read_prefixed_exact (n : nat) (s : bytes * bytes) : result (bytes * (bytes * bytes)) :=
  let '(prefix, stream) := s in
  let copied := Nat.min (length prefix) n in
  match read_exact (n - copied) stream with
  | Ok (rest, stream) => Ok (take copied prefix ++ rest, (drop copied prefix, stream))
  | Err e => Err e
  | Panic => Panic
  | Diverge => Diverge
  end.

Definition relay_dns_tcp_stream (stream initial : bytes) (st : St) : relayed :=
  relay_dns_loop (S (length initial + length stream)) read_prefixed_exact (initial, stream) st.

(** Reading a prefix and then the stream is reading them as one. *)
Lemma read_prefixed_spec n prefix stream :
  read_exact n (prefix ++ stream) =
  match read_prefixed_exact n (prefix, stream) with
  | Ok (b, (prefix', stream')) => Ok (b, prefix' ++ stream')
  | Err e => Err e
  | Panic => Panic
  | Diverge => Diverge
  end.
Proof.
  unfold read_prefixed_exact, read_exact. rewrite length_app.
  replace (n - Nat.min (length prefix) n)%nat with (n - length prefix)%nat by lia.
  destruct (n <=? length prefix + length stream)%nat eqn:E; bool_to_prop.
  - rewrite (proj2 (Nat.leb_le _ _)) by lia. rewrite take_app, drop_app. f_equal. f_equal; f_equal.
    + destruct (decide (length prefix ≤ n)%nat); [|by replace (Nat.min _ _) with n by lia].
      rewrite !take_ge by lia. done.
    + destruct (decide (length prefix ≤ n)%nat); [|by replace (Nat.min _ _) with n by lia].
      rewrite !drop_ge by lia. done.
  - rewrite (proj2 (Nat.leb_gt _ _)) by lia. done.
Qed.

Lemma read_prefixed_returns n prefix stream : returns (read_prefixed_exact n (prefix, stream)).
Proof.
  unfold read_prefixed_exact. pose proof (reader_returns_exact (n - Nat.min (length prefix) n) stream) as H.
  by destruct (read_exact _ _) as [[]|e| |].
Qed.

(** A hijacked connection whose first bytes were read while its route was decided is
    served like one from which nothing was read: the same exchanges in the same
    order, the same bytes written, the same end. *)
Theorem prefixed_relay_equiv initial stream st :
  relay_dns_tcp_stream stream initial st = relay_dns_tcp (initial ++ stream) st.
Proof.
  unfold relay_dns_tcp_stream, relay_dns_tcp. rewrite length_app. generalize (S (length initial + length stream)).
  intros fuel. revert initial stream st. induction fuel as [|fuel IH]; intros initial stream st; [done|].
  cbn [relay_dns_loop]. rewrite read_prefixed_spec.
  destruct (read_prefixed_exact 2 (initial, stream)) as [[length [p1 s1]]|e| |]; [|done..].
  rewrite read_prefixed_spec. destruct (read_prefixed_exact _ (p1, s1)) as [[request [p2 s2]]|e| |]; [|done..].
  destruct (exchange request st) as [st' [response|e| |]]; [|done..]. destruct (try_uint _ _); [|done].
  by rewrite IH.
Qed.

(** The exchanges of a list of requests, one after the other. *)
Fixpoint exchange_all (requests : list bytes) (st : St) : St * result (list bytes) :=
  match requests with
  | [] => (st, Ok [])
  | q :: requests =>
    let '(st, r) := exchange q st in
    match r with
    | Ok b => let '(st, rs) := exchange_all requests st in (st, (b ::.) <$> rs)
    | Err e => (st, Err e)
    | Panic => (st, Panic)
    | Diverge => (st, Diverge)
    end
  end.

Definition message (b : bytes) : bytes := to_be 2 (Z.of_nat (length b)) ++ b.
Definition short (b : bytes) : Prop := (Z.of_nat (length b) < 65536).

Lemma read_message q rest fuel st :
  short q →
  relay_dns_loop (S fuel) read_exact (message q ++ rest) st =
  let '(st, r) := exchange q st in
  match r with
  | Ok response =>
    match try_uint 16 (Z.of_nat (length response)) with
    | Some n =>
      let '(written, st, end_) := relay_dns_loop fuel read_exact rest st in
      (to_be 2 n ++ response ++ written, st, end_)
    | None => ([], st, Err "DNS response too large")
    end
  | Err e => ([], st, Err e)
  | Panic => ([], st, Panic)
  | Diverge => ([], st, Diverge)
  end.
Proof.
  intros Hq. cbn [relay_dns_loop]. unfold message. rewrite <- app_assoc.
  rewrite read_exact_app by (by rewrite length_to_be).
  rewrite of_be_to_be by (unfold uint, short in *; change (8 * Z.of_nat 2) with 16; lia).
  rewrite Nat2Z.id, read_exact_app by done. done.
Qed.

(** The requests on a hijacked connection are answered in order, one response each:
    what is written is the responses of the exchanges, each with its length. *)
Theorem relay_answers_in_order requests responses st st' :
  Forall short requests → Forall short responses → exchange_all requests st = (st', Ok responses) →
  relay_dns_tcp (concat (message <$> requests)) st = (concat (message <$> responses), st', Ok tt).
Proof.
  intros Hq. unfold relay_dns_tcp.
  assert (Hf : (length requests < S (length (concat (message <$> requests))))%nat).
  { clear. induction requests as [|q requests IH]; cbn [length fmap list_fmap concat]; [cbn; lia|].
    unfold message at 1. rewrite !length_app, length_to_be. lia. }
  revert Hf. generalize (S (length (concat (message <$> requests)))). intros fuel Hf Hr.
  revert fuel responses st Hf Hr. induction Hq as [|q requests Hq _ IH]; intros fuel responses st Hf Hr.
  - cbn. intros [= <- <-]. by destruct fuel; [lia|].
  - destruct fuel as [|fuel]; cbn in Hf; [lia|]. cbn [fmap list_fmap concat]. rewrite read_message by done.
    cbn [exchange_all]. destruct (exchange q st) as [st1 [b|e| |]]; [|done..].
    destruct (exchange_all requests st1) as [st2 [bs|e| |]] eqn:E; [|done..].
    intros [= <- <-]. apply Forall_cons in Hr as [Hb Hbs].
    rewrite (proj2 (try_uint_Some 16 _ _)) by (split; [unfold uint, short in *; lia|done]).
    rewrite (IH fuel bs st1) by (try done; lia). cbn [fmap list_fmap concat]. unfold message at 2.
    by rewrite <- app_assoc.
Qed.

End dns_relay.

(** ** A UDP association *)

Section association.
Context `{N : IpNetLib} `{R : RegexLib}.
Context (router : Router) (tcp_peer : SocketAddr) (inbound : str) (linux_metadata : LinuxRouteMetadata)
  (auth_user : option str).

(** What the rest of the runtime answers at the time of the [n]-th event: the
    resolver, the mode, the outbound of a tag. *)
Context (resolver : nat → option Resolver) (clash_mode : nat → option str).
Context {Dialer : Type} (is_block : Dialer → bool) (dialer_for : nat → str → option Dialer).

Record Association := mkAssociation {
  sessions : gmap str nat;
  closed : gset nat;
  next_session : nat;
}.

(** [SessionEnds]: the task of a session returned, so its channel is closed.  [gone]:
    it returned while the loop was sending to it. *)
Inductive assoc_event :=
  | ControlByte
  | ControlEof
  | ControlError (msg : string)
  | ReceiveError (msg : string)
  | Received (peer : SocketAddr) (packet : bytes) (gone : bool)
  | SessionEnds (id : nat).

Inductive assoc_effect :=
  | SpawnSession (id : nat) (client : SocketAddr) (tag : str) (d : Destination) (options : RouteOptions)
  | SendPayload (id : nat) (payload : bytes)
  | SpawnDns (client : SocketAddr) (d : Destination) (request : bytes).

Definition c_bar : Z := 124.

Definition session_key (tag : str) (d : Destination) : str :=
  tag ++ c_bar :: host d ++ c_colon :: print_uint (Vless.port d).

Definition route_datagram (n : nat) (d : Destination) (payload : bytes) : result RouteEvaluation :=
  evaluate_udp_route router (resolver n) d payload
    (mkInput tcp_peer.(sa_ip) tcp_peer.(sa_port) inbound linux_metadata auth_user (clash_mode n)).

(** The session of a key, new unless there is one that still runs. *)
Definition session_for (s : Association) (client : SocketAddr) (tag : str) (d : Destination) (options : RouteOptions)
    : Association * nat * list assoc_effect :=
  let key := session_key tag d in
  match s.(sessions) !! key with
  | Some id =>
    if bool_decide (id ∈ s.(closed)) then
      (mkAssociation (<[key := s.(next_session)]> s.(sessions)) s.(closed) (S s.(next_session)), s.(next_session),
       [SpawnSession s.(next_session) client tag d options])
    else (s, id, [])
  | None =>
    (mkAssociation (<[key := s.(next_session)]> s.(sessions)) s.(closed) (S s.(next_session)), s.(next_session),
     [SpawnSession s.(next_session) client tag d options])
  end.

(** A send to a session that is gone makes the loop forget the sessions that ended. *)
Definition send (s : Association) (id : nat) (payload : bytes) (gone : bool) : Association * list assoc_effect :=
  if gone then
    let closed := {[id]} ∪ s.(closed) in
    (mkAssociation (filter (λ kv, kv.2 ∉ closed) s.(sessions)) closed s.(next_session), [])
  else (s, [SendPayload id payload]).

Definition on_datagram (n : nat) (s : Association) (peer : SocketAddr) (packet : bytes) (gone : bool)
    : Association * list assoc_effect * option (result unit) :=
  if negb (bool_decide (peer.(sa_ip) = tcp_peer.(sa_ip))) then (s, [], None) else
  match parse_socks_udp packet with
  | Ok (destination, payload) =>
    match route_datagram n destination payload with
    | Ok evaluation =>
      let destination := evaluation.(ev_destination) in
      match evaluation.(ev_decision) with
      | Reject => (s, [], None)
      | HijackDns =>
        match resolver n with
        | Some _ => (s, [SpawnDns peer destination payload], None)
        | None => (s, [], None)
        end
      | Outbound tag =>
        match dialer_for n tag with
        | Some dialer =>
          if is_block dialer then (s, [], None) else
          let '(s, id, spawned) := session_for s peer tag destination evaluation.(ev_options) in
          let '(s, sent) := send s id payload gone in
          (s, spawned ++ sent, None)
        | None => (s, [], None)
        end
      end
    | Err e => (s, [], Some (Err e))
    | Panic => (s, [], Some Panic)
    | Diverge => (s, [], Some Diverge)
    end
  | Err _ => (s, [], None)
  | Panic => (s, [], Some Panic)
  | Diverge => (s, [], Some Diverge)
  end.

Definition assoc_step (n : nat) (s : Association) (e : assoc_event)
    : Association * list assoc_effect * option (result unit) :=
  match e with
  | ControlByte => (s, [], None)
  | ControlEof => (s, [], Some (Ok tt))
  | ControlError msg | ReceiveError msg => (s, [], Some (Err msg))
  | Received peer packet gone => on_datagram n s peer packet gone
  | SessionEnds id => (mkAssociation s.(sessions) ({[id]} ∪ s.(closed)) s.(next_session), [], None)
  end.

(** The states and the effects so far, for every history of the loop; a packet is
    bytes. *)
Definition event_typed (e : assoc_event) : Prop :=
  match e with Received _ packet _ => Forall u8 packet | _ => True end.

Inductive assoc_reach : nat → Association → list assoc_effect → Prop :=
  | assoc_start : assoc_reach 0 (mkAssociation ∅ ∅ 0) []
  | assoc_next n s trace e s' effects :
      assoc_reach n s trace → event_typed e → assoc_step n s e = (s', effects, None) →
      assoc_reach (S n) s' (trace ++ effects).

(** ** Sessions serve one destination *)

Lemma last_colon (a b x y : str) c : a ++ c :: x = b ++ c :: y → c ∉ x → c ∉ y → a = b ∧ x = y.
Proof.
  revert b. induction a as [|z a IH]; intros [|w b]; cbn; intros E Hx Hy.
  - by injection E.
  - injection E as -> ->. destruct Hx. apply elem_of_app. right. left.
  - injection E as <- <-. destruct Hy. apply elem_of_app. right. left.
  - injection E as <- E. by destruct (IH b E Hx Hy) as [-> ->].
Qed.

Lemma host_inj d d' : routable d → routable d' → host d = host d' → Vless.port d = Vless.port d' → d = d'.
Proof.
  destruct d as [ip p|h p], d' as [ip' p'|h' p']; cbn; intros Hd Hd' Hh ->.
  - by rewrite (print_ip_inj ip ip').
  - rewrite <- Hh, parse_print_ip in Hd' by done. done.
  - rewrite Hh, parse_print_ip in Hd by done. done.
  - by rewrite Hh.
Qed.

Lemma session_key_inj tag d tag' d' :
  c_bar ∉ tag → c_bar ∉ tag' → routable d → routable d' → u16 (Vless.port d) → u16 (Vless.port d') →
  session_key tag d = session_key tag' d' → tag = tag' ∧ d = d'.
Proof.
  intros Ht Ht' Hd Hd' Hp Hp' E. unfold session_key in E.
  apply (f_equal (split_once c_bar)) in E. rewrite !split_once_app in E by done. injection E as -> E.
  assert (H128 : ∀ z, u16 z → u128 z) by (unfold uint; lia).
  assert (Hc : ∀ z, u16 z → c_colon ∉ print_uint z).
  { intros z Hz. apply print_uint_no_char; [by apply H128|unfold is_digit, c_colon; lia]. }
  apply last_colon in E as [Eh Ep]; [|by apply Hc..]. split; [done|].
  apply host_inj; [done|done|done|]. by apply print_uint_inj; [apply H128..|].
Qed.

Lemma parse_socks_udp_port packet d payload :
  Forall u8 packet → parse_socks_udp packet = Ok (d, payload) → u16 (Vless.port d).
Proof.
  intros Hu. unfold parse_socks_udp. intros H. apply bind_Ok in H as (bad & _ & H). destruct bad; [done|].
  apply bind_Ok in H as (f & _ & H). destruct (negb _); [done|]. apply bind_Ok in H as ([d' n] & Hd & H).
  apply bind_Ok in H as (p & _ & H). apply Ok_inj in H. injection H as <- _. unfold decode_address in Hd.
  apply bind_Ok in Hd as (atyp & _ & Hd). apply bind_Ok in Hd as ([h position] & _ & Hd).
  apply bind_Ok in Hd as (b & Hb%context_Ok & Hd). apply Ok_inj in Hd. injection Hd as <- _.
  assert (Hport : Vless.port (parse_destination h (of_be b)) = of_be b).
  { unfold parse_destination. by destruct (parse_ip h). }
  rewrite Hport. apply slice_get_Some in Hb as (H1 & H2 & ->).
  assert (Hl : length (take (position + 2 - position) (drop position packet)) = 2%nat).
  { rewrite length_take, length_drop. lia. }
  assert (Hv : Forall u8 (take (position + 2 - position) (drop position packet))) by (by apply Forall_take, Forall_drop).
  apply of_be_uint in Hv. by rewrite Hl in Hv.
Qed.

Lemma route_datagram_routable n d payload ev :
  routable d → route_datagram n d payload = Ok ev → routable ev.(ev_destination).
Proof.
  intros Hd. unfold route_datagram, evaluate_udp_route. intros (o & _ & H)%bind_Ok. apply Ok_inj in H as <-.
  by apply override_routable.
Qed.

(** What the types give: ports are 16-bit.  What the configuration must have, which
    nothing checks: no outbound has a bar in its tag. *)
Definition ports_typed : Prop :=
  ∀ n d payload ev, u16 (Vless.port d) → route_datagram n d payload = Ok ev → u16 (Vless.port ev.(ev_destination)).

Definition no_bar_in_tags : Prop := ∀ n tag, is_Some (dialer_for n tag) → c_bar ∉ tag.

(** Each session was started for the tag and destination of its key, by the client. *)
Definition started (trace : list assoc_effect) (key : str) (id : nat) : Prop :=
  ∃ client tag d options, SpawnSession id client tag d options ∈ trace ∧ key = session_key tag d ∧
    client.(sa_ip) = tcp_peer.(sa_ip) ∧ (c_bar ∉ tag) ∧ routable d ∧ u16 (Vless.port d).

Definition assoc_inv (s : Association) (trace : list assoc_effect) : Prop :=
  ∀ key id, s.(sessions) !! key = Some id → started trace key id.

Lemma started_app trace effects key id : started trace key id → started (trace ++ effects) key id.
Proof.
  intros (client & tag & d & options & H & Hs). exists client, tag, d, options.
  split; [apply elem_of_app; by left|done].
Qed.

Lemma session_for_inv s trace client tag d options s' id spawned :
  assoc_inv s trace → client.(sa_ip) = tcp_peer.(sa_ip) → c_bar ∉ tag → routable d → u16 (Vless.port d) →
  session_for s client tag d options = (s', id, spawned) →
  assoc_inv s' (trace ++ spawned) ∧ started (trace ++ spawned) (session_key tag d) id.
Proof.
  intros Hs Hc Ht Hd Hp H. unfold session_for in H.
  assert (Hnew : (mkAssociation (<[session_key tag d := s.(next_session)]> s.(sessions)) s.(closed)
      (S s.(next_session)), s.(next_session), [SpawnSession s.(next_session) client tag d options]) = (s', id, spawned) →
    assoc_inv s' (trace ++ spawned) ∧ started (trace ++ spawned) (session_key tag d) id).
  { intros [= <- <- <-].
    assert (Hn : started (trace ++ [SpawnSession s.(next_session) client tag d options]) (session_key tag d)
      s.(next_session)).
    { exists client, tag, d, options. split; [apply elem_of_app; right; by left|done]. }
    split; [|done]. intros key id'. cbn [sessions]. intros [[<- <-]|[_ H']]%lookup_insert_Some; [done|]. by apply started_app, Hs. }
  destruct (s.(sessions) !! session_key tag d) as [id'|] eqn:E; [|by apply Hnew].
  destruct (bool_decide _); [by apply Hnew|]. injection H as <- <- <-. rewrite app_nil_r.
  split; [done|by apply Hs].
Qed.

Lemma send_inv s trace id payload gone s' sent :
  assoc_inv s trace → send s id payload gone = (s', sent) →
  assoc_inv s' (trace ++ sent) ∧ (sent = [] ∨ sent = [SendPayload id payload]).
Proof.
  intros Hs. unfold send. destruct gone; intros [= <- <-].
  - rewrite app_nil_r. split; [|by left]. intros key id'. cbn [sessions].
    intros [H _]%map_lookup_filter_Some. by apply Hs.
  - split; [|by right]. intros key id' H. by apply started_app, Hs.
Qed.

(** The session [id] was started for the outbound and the destination that routing
    chose for this very datagram. *)
Definition own_session (n : nat) (trace : list assoc_effect) (packet payload : bytes) (id : nat) : Prop :=
  ∃ d ev tag client options, parse_socks_udp packet = Ok (d, payload) ∧ route_datagram n d payload = Ok ev ∧
    ev.(ev_decision) = Outbound tag ∧ SpawnSession id client tag ev.(ev_destination) options ∈ trace ∧
    client.(sa_ip) = tcp_peer.(sa_ip).

Lemma started_own n trace packet payload id d ev tag :
  parse_socks_udp packet = Ok (d, payload) → route_datagram n d payload = Ok ev → ev.(ev_decision) = Outbound tag →
  c_bar ∉ tag → routable ev.(ev_destination) → u16 (Vless.port ev.(ev_destination)) →
  started trace (session_key tag ev.(ev_destination)) id → own_session n trace packet payload id.
Proof.
  intros Hp He Hd Ht Hr Hu (client & tag' & d' & options & Hin & Hk & Hc & Ht' & Hr' & Hu').
  apply session_key_inj in Hk as [<- <-]; [|done..]. by exists d, ev, tag, client, options.
Qed.

Lemma on_datagram_inv n s trace peer packet gone s' effects outcome :
  ports_typed → no_bar_in_tags → assoc_inv s trace → Forall u8 packet → on_datagram n s peer packet gone = (s', effects, outcome) →
  assoc_inv s' (trace ++ effects) ∧
  ∀ id payload, SendPayload id payload ∈ effects →
    peer.(sa_ip) = tcp_peer.(sa_ip) ∧ own_session n (trace ++ effects) packet payload id.
Proof.
  intros Hports Htags Hs Hu. unfold on_datagram.
  assert (Hskip : ∀ o, (s, @nil assoc_effect, o) = (s', effects, outcome) → assoc_inv s' (trace ++ effects) ∧
    ∀ id payload, SendPayload id payload ∈ effects →
      peer.(sa_ip) = tcp_peer.(sa_ip) ∧ own_session n (trace ++ effects) packet payload id).
  { intros o [= <- <- _]. rewrite app_nil_r. split; [done|]. by intros id payload ?%elem_of_nil. }
  destruct (bool_decide _) eqn:Epeer; cbn [negb]; [|apply Hskip]. apply bool_decide_eq_true in Epeer.
  destruct (parse_socks_udp packet) as [[d payload]|e| |] eqn:Ep; [|apply Hskip..].
  destruct (route_datagram n d payload) as [ev|e| |] eqn:Er; [|apply Hskip..].
  destruct (ev.(ev_decision)) as [tag| |] eqn:Ed; [|apply Hskip|].
  2: { destruct (resolver n); [|apply Hskip]. intros [= <- <- _]. split.
       - intros key id H. by apply started_app, Hs.
       - by intros id payload' ?%list_elem_of_singleton. }
  destruct (dialer_for n tag) as [dialer|] eqn:Edial; [|apply Hskip]. destruct (is_block dialer); [apply Hskip|].
  destruct (session_for s peer tag _ _) as [[s1 id] spawned] eqn:Es. destruct (send s1 id payload gone) as [s2 sent] eqn:Esend.
  intros [= <- <- _]. pose proof (Hports n d payload ev (parse_socks_udp_port packet d payload Hu Ep) Er) as Hport.
  pose proof (Htags n tag (mk_is_Some _ _ Edial)) as Htag. pose proof (route_datagram_routable n d payload ev (parse_socks_udp_routable _ _ _ Ep) Er) as Hr.
  destruct (session_for_inv _ _ _ _ _ _ _ _ _ Hs Epeer Htag Hr Hport Es) as [Hs1 Hstart].
  destruct (send_inv _ _ _ _ _ _ _ Hs1 Esend) as [Hs2 Hsent]. rewrite app_assoc. split; [done|].
  intros id' payload' Hin. split; [done|]. apply elem_of_app in Hin as [Hin|Hin].
  - unfold session_for in Es. repeat break_match_hyp Es; injection Es as _ _ <-;
      [apply list_elem_of_singleton in Hin|apply elem_of_nil in Hin|apply list_elem_of_singleton in Hin]; done.
  - destruct Hsent as [->| ->]; [by apply elem_of_nil in Hin|]. apply list_elem_of_singleton in Hin.
    injection Hin as -> ->. eapply started_own; [done..|]. by apply started_app.
Qed.

Lemma assoc_step_inv n s trace e s' effects outcome :
  ports_typed → no_bar_in_tags → assoc_inv s trace → event_typed e → assoc_step n s e = (s', effects, outcome) → assoc_inv s' (trace ++ effects).
Proof.
  intros Hports Htags Hs He. destruct e; cbn [assoc_step]; try (intros [= <- <- _]; by rewrite app_nil_r).
  by intros [? _]%(on_datagram_inv n s trace _ _ _ _ _ _ Hports Htags Hs He).
Qed.

Lemma assoc_reach_inv n s trace : ports_typed → no_bar_in_tags → assoc_reach n s trace → assoc_inv s trace.
Proof.
  intros Hports Htags. induction 1 as [|n s trace e s' effects _ IH He Hstep]; [intros key id; cbn [sessions]; by rewrite lookup_empty|].
  by eapply assoc_step_inv.
Qed.

(** C21: in every history of a UDP association a payload is handed only to a session that was
    started for the outbound and the destination that routing chose for that very
    datagram, and only when it came from the address of the client that opened the
    association, provided no outbound has a bar in its tag: then no two pairs of outbound
    and destination share the text by which sessions are found (see
    [bar_in_tag_collides]). *)
Theorem payload_reaches_own_destination n s trace peer packet gone s' effects outcome id payload :
  ports_typed → no_bar_in_tags → assoc_reach n s trace → Forall u8 packet →
  assoc_step n s (Received peer packet gone) = (s', effects, outcome) → SendPayload id payload ∈ effects →
  peer.(sa_ip) = tcp_peer.(sa_ip) ∧ own_session n (trace ++ effects) packet payload id.
Proof.
  intros Hports Htags Hs%assoc_reach_inv Hu Hstep Hin; [|done..].
  destruct (on_datagram_inv n s trace _ _ _ _ _ _ Hports Htags Hs Hu Hstep) as [_ H].
  by apply H.
Qed.

(** A resolution that fails while one datagram is routed ends the whole association. *)
Lemma failed_evaluation_ends n s peer packet gone d payload e :
  peer.(sa_ip) = tcp_peer.(sa_ip) → parse_socks_udp packet = Ok (d, payload) → route_datagram n d payload = Err e →
  assoc_step n s (Received peer packet gone) = (s, [], Some (Err e)).
Proof. intros Hp Hd Hr. cbn [assoc_step]. unfold on_datagram. rewrite bool_decide_eq_true_2 by done. cbn [negb]. by rewrite Hd, Hr. Qed.

End association.

(** ** Witnesses *)

Lemma parse_encode_socks_udp_witness :
  ∃ packet, encode_socks_udp (Ip (V6 0x20010db8000000000000000000000001) 53) [1; 2; 3] = Ok packet ∧
    parse_socks_udp packet = Ok (Ip (V6 0x20010db8000000000000000000000001) 53, [1; 2; 3]).
Proof. apply parse_encode_socks_udp; repeat split; cbn; lia. Defined.

(** Names that look like addresses come back as addresses. *)
Example address_text_as_name : ∃ packet,
  encode_socks_udp (Domain (lit "10.0.0.1") 53) [] = Ok packet ∧ parse_socks_udp packet = Ok (Ip (V4 0x0a000001) 53, []).
Proof. eexists. split; reflexivity. Qed.

Definition echo (request : bytes) (count : nat) : nat * result bytes := (S count, Ok (request ++ [0])).

Lemma relay_answers_in_order_witness :
  relay_dns_tcp echo (concat (message <$> [[1; 2]; [3]])) 0%nat = (concat (message <$> [[1; 2; 0]; [3; 0]]), 2%nat, Ok tt).
Proof. apply relay_answers_in_order; [by repeat constructor..|reflexivity]. Defined.

#[local] Existing Instance Cidr.lib.
#[local] Existing Instance Literal.regex.

Definition plain_router : Router := mkRouter [] ∅ (lit "direct") Routing.default_options None.
Definition sample_peer : SocketAddr := mkSocketAddr (V4 0x7f000001) 4000.
Definition sample_datagram : bytes := [0; 0; 0; 1; 10; 0; 0; 1; 0; 53; 7; 8].

Definition direct_outbound (n : nat) (tag : str) : option unit := if bool_decide (tag = lit "direct") then Some tt else None.

(** Finding: two outbounds, "a" and "a|b", and the domains "b|c" and "c".  The second
    datagram is routed to "a|b" and "c", and its payload goes to the session that was
    started for "a" and "b|c". *)
Definition bar_router : Router := Eval vm_compute in get_router (simple_router
  [simple_rule [lit "b|c"] [] [] false false (lit "a"); simple_rule [lit "c"] [] [] false false (lit "a|b")] []).
Definition bar_step := assoc_step bar_router sample_peer (lit "in") sample_input.(linux) None (λ _, None) (λ _, None)
  (λ _ : unit, false) (λ _ _, Some tt).
Definition to_domain (name : string) (payload : bytes) : bytes :=
  [0; 0; 0; 3; Z.of_nat (length (lit name))] ++ lit name ++ [0; 53] ++ payload.

Example bar_in_tag_collides :
  let '(s1, effects1, _) := bar_step 0 (mkAssociation ∅ ∅ 0) (Received sample_peer (to_domain "b|c" [1]) false) in
  let '(_, effects2, _) := bar_step 1 s1 (Received sample_peer (to_domain "c" [2]) false) in
  (ev_decision <$> result_ok (route_datagram bar_router sample_peer (lit "in") sample_input.(linux) None (λ _, None) (λ _, None)
     1 (Domain (lit "c") 53) [2])) = Some (Outbound (lit "a|b")) ∧
  effects1 = [SpawnSession 0 sample_peer (lit "a") (Domain (lit "b|c") 53) Routing.default_options; SendPayload 0 [1]] ∧
  effects2 = [SendPayload 0 [2]].
Proof. vm_compute. split_and!; reflexivity. Qed.

Lemma payload_reaches_own_destination_witness :
  ∃ s' effects,
    assoc_step plain_router sample_peer (lit "in") sample_input.(linux) None (λ _, None) (λ _, None) (λ _ : unit, false)
      direct_outbound 0 (mkAssociation ∅ ∅ 0) (Received sample_peer sample_datagram false) = (s', effects, None) ∧
    SendPayload 0 [7; 8] ∈ effects ∧
    own_session plain_router sample_peer (lit "in") sample_input.(linux) None (λ _, None) (λ _, None) 0 effects
      sample_datagram [7; 8] 0.
Proof.
  destruct (assoc_step plain_router sample_peer (lit "in") sample_input.(linux) None (λ _, None) (λ _, None)
    (λ _ : unit, false) direct_outbound 0 (mkAssociation ∅ ∅ 0) (Received sample_peer sample_datagram false))
    as [[s' effects] outcome] eqn:E.
  assert (Hin : SendPayload 0 [7; 8] ∈ effects ∧ outcome = None).
  { vm_compute in E. injection E as _ <- <-. split; [right; left|reflexivity]. }
  destruct Hin as [Hin ->]. exists s', effects. split; [reflexivity|]. split; [exact Hin|].
  refine (proj2 (payload_reaches_own_destination plain_router sample_peer (lit "in") _ _ _ _ _ _ 0 _ [] _ _ _ _ _ _ _ _ _ _
    (assoc_start _ _ _ _ _ _ _ _ _) _ E Hin)).
  - intros n d payload ev Hd Hev. unfold route_datagram, evaluate_udp_route in Hev.
    destruct d; cbn in Hev; injection Hev as <-; exact Hd.
  - intros n tag [[] H]. unfold direct_outbound in H. case_bool_decide as Ht; [|discriminate H]. rewrite Ht.
    apply (bool_decide_unpack _). vm_compute. exact I.
  - repeat constructor; lia.
Defined.
