(* ===== verification/Config.v ===== *)
(** * The configuration (src/src/singbox.rs)

    The inbounds and outbounds of a sing-box configuration and the transport they
    build.  Deserialization is the business of serde; the structures are what it
    yields. *)

From S2P Require Import Prelude RustStr Net Http DnsRule.

Record User := mkUser {
  u_name : option str;
  u_uuid : option str;
  u_password : option str;
  u_flow : option str;
}.

Record EchConfig := mkEch {
  ech_enabled : bool;
  ech_config : list str;
  ech_config_path : option str;
  ech_query_server_name : option str;
  ech_key : list str;
  ech_key_path : option str;
}.

Record TlsConfig := mkTls {
  tls_enabled : bool;
  tls_server_name : option str;
  tls_insecure : bool;
  tls_disable_sni : bool;
  tls_min_version : option str;
  tls_max_version : option str;
  tls_certificate : list str;
  tls_key : list str;
  tls_certificate_path : option str;
  tls_key_path : option str;
  tls_certificate_public_key_sha256 : list str;
  tls_client_certificate : list str;
  tls_client_certificate_path : option str;
  tls_client_key : list str;
  tls_client_key_path : option str;
  tls_client_authentication : option str;
  tls_client_certificate_public_key_sha256 : list str;
  tls_alpn : list str;
  tls_ech : option EchConfig;
}.

Record XHttpRange := mkXRange { range_from : Z; range_to : Z }.

(** The headers are a hash map, in its iteration order. *)
Record XHttpTransport := mkXHttp {
  x_type : str;
  x_host : option str;
  x_path : option str;
  x_mode : option Mode;
  x_headers : list (str * Value);
  x_padding_bytes : option XHttpRange;
  x_padding_obfs_mode : bool;
  x_padding_key : option str;
  x_padding_header : option str;
  x_padding_placement : option str;
  x_padding_method : option str;
  x_uplink_http_method : option str;
  x_session_id_placement : option str;
  x_session_id_key : option str;
  x_seq_placement : option str;
  x_seq_key : option str;
  x_uplink_data_placement : option str;
  x_uplink_data_key : option str;
  x_sc_max_each_post_bytes : option XHttpRange;
  x_sc_min_posts_interval_ms : option XHttpRange;
  x_sc_max_buffered_posts : option Z;
  x_no_grpc_header : bool;
  x_no_sse_header : bool;
  x_xmux : XmuxConfig;
}.

Definition parse_placement (v : str) : result Placement :=
  if str_eqb v (lit "path") then Ok Path
  else if str_eqb v (lit "query") then Ok Query
  else if str_eqb v (lit "header") then Ok Header
  else if str_eqb v (lit "cookie") then Ok Cookie
  else if str_eqb v (lit "body") then Ok Body
  else if str_eqb v (lit "auto") then Ok Auto
  else if str_eqb v (lit "queryInHeader") then Ok QueryInHeader
  else Err "unsupported XHTTP placement".

(** A header is a string or an array of which the strings are joined. *)
Definition header_text (v : Value) : option str :=
  match v with
  | String s => Some s
  | Array l => Some (join (lit ", ") (omap as_str l))
  | _ => None
  end.

Definition build_headers (hs : list (str * Value)) : list (str * str) :=
  omap (λ '(k, v), (λ t, (k, t)) <$> header_text v) hs.

(** A placement of the transport with the key that goes with it. *)
Definition placed (placement key : option str) (default_placement : Placement) (default_key : str)
    (key_for : Placement → str) : result (Placement * str) :=
  match placement with
  | Some v => p ← parse_placement v; Ok (p, default (key_for p) key)
  | None => Ok (default_placement, default default_key key)
  end.

Section build.
Context `{H : HttpLib}.

Definition build (x : XHttpTransport) : result TransportConfig :=
  if negb (str_eqb x.(x_type) (lit "xhttp")) then Err "transport must be xhttp" else
  let c := default_transport in
  padding ← match x.(x_padding_placement) with Some v => parse_placement v | None => Ok c.(padding_placement) end;
  '(session, session_key) ← placed x.(x_session_id_placement) x.(x_session_id_key) c.(session_placement) c.(session_key)
    (λ p, if decide (p = Header) then lit "X-Session" else lit "x_session");
  '(sequence, sequence_key) ← placed x.(x_seq_placement) x.(x_seq_key) c.(sequence_placement) c.(sequence_key)
    (λ p, if decide (p = Header) then lit "X-Seq" else lit "x_seq");
  '(data, data_key) ← placed x.(x_uplink_data_placement) x.(x_uplink_data_key) c.(data_placement) c.(data_key)
    (λ p, if decide (p = Cookie) then lit "x_data" else lit "X-Data");
  validate (mkTransport
    (default c.(path) x.(x_path)) c.(query) x.(x_host) (default c.(mode) x.(x_mode)) (build_headers x.(x_headers)) c.(token)
    session session_key sequence sequence_key data data_key
    (match x.(x_padding_bytes) with Some r => r.(range_from) | None => c.(padding_min) end)
    (match x.(x_padding_bytes) with Some r => r.(range_to) | None => c.(padding_max) end)
    x.(x_padding_obfs_mode) padding (default c.(padding_key) x.(x_padding_key)) (default c.(padding_header) x.(x_padding_header))
    (default c.(padding_method) x.(x_padding_method)) (default c.(uplink_method) x.(x_uplink_http_method))
    x.(x_no_grpc_header) x.(x_no_sse_header)
    (match x.(x_sc_max_each_post_bytes) with
     | Some r => if r.(range_to) =? 0 then r.(range_from) else r.(range_to)
     | None => c.(max_packet_size)
     end)
    (default c.(max_buffered_packets) x.(x_sc_max_buffered_posts))
    (match x.(x_sc_min_posts_interval_ms) with Some r => r.(range_from) | None => c.(packet_interval_ms) end)
    c.(session_timeout_secs) c.(max_sessions) c.(max_session_id_length) x.(x_xmux)).

End build.

(** [tls::parse_tls_version] *)
Definition parse_tls_version (value : str) : result Z :=
  if str_eqb value (lit "1.2") then Ok 0x0303
  else if str_eqb value (lit "1.3") then Ok 0x0304
  else Err "unsupported TLS version".

Definition validate_tls_versions (tls : option TlsConfig) : result unit :=
  match tls with
  | None => Ok tt
  | Some tls =>
    iter_result (λ value : option str, match value with Some v => _ ← parse_tls_version v; Ok tt | None => Ok tt end)
      [tls.(tls_min_version); tls.(tls_max_version)]
  end.

Section inbounds.
Context `{N : IpNetLib}.

Record Inbound := mkInbound {
  in_type : str;
  in_tag : option str;
  in_listen : option str;
  in_listen_port : option Z;
  in_users : list User;
  in_transport : option XHttpTransport;
  in_tls : option TlsConfig;
  in_padding_scheme : list str;
  interface_name : option str;
  netns : option str;
  in_mtu : option Z;
  address : list IpNet;
  dns_mode : option str;
  dns_address : list IpAddr;
  in_stack : option str;
  in_auto_route : bool;
  in_auto_redirect : bool;
  auto_redirect_input_mark : option Z;
  auto_redirect_output_mark : option Z;
  auto_redirect_reset_mark : option Z;
  auto_redirect_nfqueue : option Z;
  auto_redirect_iproute2_fallback_rule_index : option Z;
  exclude_mptcp : bool;
  loopback_address : list IpAddr;
  in_strict_route : bool;
  iproute2_table_index : option Z;
  iproute2_rule_index : option Z;
  route_address : list IpNet;
  route_address_set : list str;
  route_exclude_address : list IpNet;
  route_exclude_address_set : list str;
  include_interface : list str;
  exclude_interface : list str;
  include_uid : list Z;
  include_uid_range : list str;
  exclude_uid : list Z;
  exclude_uid_range : list str;
  include_package : list str;
  exclude_package : list str;
  include_android_user : list Z;
  include_mac_address : list str;
  exclude_mac_address : list str;
  endpoint_independent_nat : bool;
  in_udp_timeout : option str;
  in_udp_mapping : option str;
  in_udp_filtering : option str;
  in_udp_nat_max : option Z;
  platform : option Value;
  gso : bool;
}.

End inbounds.

Record OutboundConfig := mkOutbound {
  out_type : str;
  out_tag : option str;
  out_server : option str;
  out_server_port : option Z;
  out_uuid : option str;
  out_flow : option str;
  out_packet_encoding : option str;
  out_transport : option XHttpTransport;
  out_tls : option TlsConfig;
  out_password : option str;
  out_idle_session_check_interval : option str;
  out_idle_session_timeout : option str;
  out_min_idle_session : option Z;
  out_disable_reuse : bool;
  out_outbounds : list str;
  out_default : option str;
  out_url : option str;
  out_interval : option str;
  out_tolerance : option Z;
}.
