(* ===== verification/Tls.v ===== *)
(** * TLS options and the AnyTLS endpoints (src/src/tls.rs, src/src/anytls.rs)

    How the TLS options of a configuration become a client or a server: which
    certificates are accepted, which versions are offered, where keys come from; the
    negotiation of the application protocol and the keys for encrypted hellos.
    Certificates and sessions are the business of rustls and BoringSSL, whose
    operations are the class [TlsLib]. *)

From S2P Require Import Prelude RustStr Net Util Sniff Http DnsRule Config.

(** ** Libraries *)

Class TlsLib := {
  Cert : Type;
  PrivateKey : Type;
  EchList : Type;
  pem_certs : bytes → list (option Cert);  (* rustls_pemfile::certs; [None] is an error *)
  pem_key : bytes → option (option PrivateKey);  (* rustls_pemfile::private_key *)
  root_ok : Cert → bool;  (* RootCertStore::add *)
  ech_pem : bytes → option bytes;  (* EchConfigListBytes::from_pem_slice *)
  ech_new : bytes → option EchList;  (* rustls::client::EchConfig::new *)
  with_ech : EchList → bool;
  with_client_auth_cert : list Cert → PrivateKey → bool;
  with_single_cert : list Cert → PrivateKey → bool;
  stack_from_pem : bytes → option (list Cert);  (* boring::x509::X509 *)
  boring_key : bytes → option PrivateKey;  (* boring::pkey::PKey::private_key_from_pem *)
  check_private_key : Cert → PrivateKey → bool;
  hpke_key : bytes → bool;  (* HpkeKey::dhkem_p256_sha256 *)
  b64_decode : str → option bytes;  (* base64 STANDARD *)
  spki : bytes → option bytes;  (* the raw public key of a certificate that parses *)
  sha256 : bytes → bytes;
}.

(** The two PEM readers agree on well-formed input. *)
Class TlsLaws (L : TlsLib) := {
  stack_is_certs pem certs : stack_from_pem pem = Some certs → pem_certs pem = Some <$> certs;
}.

(** ** Text and files *)

(** [s.split_once(p)] for a string that is not empty *)
Fixpoint split_once_str (p s : str) : option (str * str) :=
  match strip_prefix p s with
  | Some rest => Some ([], rest)
  | None =>
    match s with
    | [] => None
    | c :: s => '(a, b) ← split_once_str p s; Some (c :: a, b)
    end
  end.

(** [s.replace(p, by)], with the length of the text as fuel *)
Fixpoint replace_loop (fuel : nat) (p by_ s : str) : str :=
  match fuel, split_once_str p s with
  | S fuel, Some (a, b) => a ++ by_ ++ replace_loop fuel p by_ b
  | _, _ => s
  end.
Definition replace_str (p by_ s : str) : str := replace_loop (S (length s)) p by_ s.

Section files.
Context (read_file : str → option bytes).

Definition load_optional_material (inline : list str) (path : option str) : result (option bytes) :=
  match inline, path with
  | _ :: _, Some _ => Err "inline material and its path are mutually exclusive"
  | _ :: _, None => Ok (Some (join [10] inline))
  | [], Some path => b ← context (read_file path) "read material"; Ok (Some b)
  | [], None => Ok None
  end.

Definition load_required_material (inline : list str) (path : option str) : result bytes :=
  material ← load_optional_material inline path;
  context material "material is missing".

End files.

(** ** Protocol versions *)

Definition TLS13 : Z := 0x0304.
Definition TLS12 : Z := 0x0303.

Definition select_protocol_versions (min max : option Z) : list Z :=
  List.filter (λ number,
    match min with Some bound => bound <=? number | None => true end &&
    match max with Some bound => number <=? bound | None => true end) [TLS13; TLS12].

(** ** The client *)

Record ClientOptions := mkClientOptions {
  insecure : bool;
  include_native_roots : bool;
  ca_pem : option bytes;
  o_alpn : list bytes;
  o_ech_config : option bytes;
  certificate_public_key_sha256 : list bytes;
  client_certificate : option bytes;
  client_key : option bytes;
  disable_sni : bool;
  min_version : option Z;
  max_version : option Z;
}.

Section tls.
Context `{T : TlsLib}.

Definition parse_ech_config (raw : bytes) : result EchList :=
  bytes ←
    (if starts_with (lit "-----BEGIN") raw then
       context (ech_pem (replace_str (lit "END ECH CONFIGS") (lit "END ECHCONFIG")
         (replace_str (lit "BEGIN ECH CONFIGS") (lit "BEGIN ECHCONFIG") (from_utf8_lossy raw)))) "parse ECH config PEM"
     else Ok raw);
  context (ech_new bytes) "select supported ECH config".

Definition decode_public_key_pin (value : str) : result bytes :=
  decoded ← context (b64_decode value) "decode certificate_public_key_sha256";
  if (length decoded =? 32)%nat then Ok decoded
  else Err "certificate_public_key_sha256 must decode to 32 bytes".

Definition decode_public_key_pins (values : list str) : result (list bytes) := map_result decode_public_key_pin values.

(** Certificates that are added to a store of roots. *)
Definition add_root (roots : list Cert) (certificate : option Cert) : result (list Cert) :=
  certificate ← context certificate "parse certificate";
  if root_ok certificate then Ok (roots ++ [certificate]) else Err "add custom CA certificate".

Fixpoint add_roots (roots : list Cert) (certificates : list (option Cert)) : result (list Cert) :=
  match certificates with
  | [] => Ok roots
  | c :: certificates => roots ← add_root roots c; add_roots roots certificates
  end.

Definition add_ca_pem (roots : list Cert) (pem : bytes) : result (list Cert) :=
  roots' ← add_roots roots (pem_certs pem);
  match pem_certs pem with [] => Err "custom CA input contains no certificates" | _ => Ok roots' end.

Definition parse_certificates (pem : bytes) : result (list Cert) :=
  certificates ← map_result (λ c, context c "parse certificate") (pem_certs pem);
  match certificates with [] => Err "client certificate input contains no certificates" | _ => Ok certificates end.

Definition parse_private_key (pem : bytes) : result PrivateKey :=
  key ← context (pem_key pem) "parse private key";
  context key "client private key input contains no private key".

(** What decides whether the certificate of a server is accepted. *)
Inductive ServerVerifier :=
  | DirectCertificateVerifier (pins : list bytes)
  | RootsVerifier (roots : list Cert).

Record ClientTls := mkClientTls {
  c_ech : option EchList;
  c_versions : list Z;
  c_verifier : ServerVerifier;
  c_auth : option (list Cert * PrivateKey);
  c_alpn : list bytes;
  c_enable_sni : bool;
}.

(** What [load_native_certs] found, and whether it met errors. *)
Context (native : list Cert * bool).

Definition client_roots (o : ClientOptions) : result (list Cert) :=
  roots ←
    (if o.(include_native_roots) then
       roots ← add_roots [] (Some <$> native.1);
       if negb o.(insecure) && bool_decide (o.(certificate_public_key_sha256) = []) && native.2 && bool_decide (length roots = 0%nat)
       then Err "no native TLS roots are available" else Ok roots
     else Ok []);
  match o.(ca_pem) with Some pem => add_ca_pem roots pem | None => Ok roots end.

Definition client_versions (o : ClientOptions) : result (option EchList * list Z) :=
  match o.(o_ech_config) with
  | Some raw =>
    ech ← parse_ech_config raw;
    (* an encrypted hello needs TLS 1.3 *)
    if with_ech ech then Ok (Some ech, [TLS13]) else Err "enable ECH"
  | None =>
    match select_protocol_versions o.(min_version) o.(max_version) with
    | [] => Err "TLS min_version/max_version leave no supported protocol versions"
    | versions => Ok (None, versions)
    end
  end.

Definition client_auth (o : ClientOptions) : result (option (list Cert * PrivateKey)) :=
  match o.(client_certificate), o.(client_key) with
  | Some certificate, Some key =>
    certificates ← parse_certificates certificate;
    key ← parse_private_key key;
    if with_client_auth_cert certificates key then Ok (Some (certificates, key)) else Err "build TLS client certificate"
  | None, None => Ok None
  | _, _ => Panic
  end.

Definition is_some {A} (o : option A) : bool := match o with Some _ => true | None => false end.

Definition build_client_config (o : ClientOptions) : result ClientTls :=
  let pins := o.(certificate_public_key_sha256) in
  let pinned := negb (bool_decide (pins = [])) in
  if pinned && is_some o.(ca_pem)
  then Err "certificate_public_key_sha256 conflicts with certificate or certificate_path" else
  if negb (eqb (is_some o.(client_certificate)) (is_some o.(client_key)))
  then Err "client certificate and client key must be provided together" else
  roots ← client_roots o;
  '(ech, versions) ← client_versions o;
  let verifier := if o.(insecure) || pinned then DirectCertificateVerifier pins else RootsVerifier roots in
  auth ← client_auth o;
  Ok (mkClientTls ech versions verifier auth o.(o_alpn) (negb o.(disable_sni))).

(** [DirectCertificateVerifier::verify_server_cert] *)
Definition verify_server_cert (pins : list bytes) (end_entity : bytes) : result unit :=
  match pins with
  | [] => Ok tt
  | _ =>
    key ← context (spki end_entity) "parse pinned certificate";
    if existsb (λ pin, str_eqb (sha256 key) pin) pins then Ok tt else Err "unrecognized remote public key"
  end.

Context (read_file : str → option bytes).

Definition version_of (value : option str) : result (option Z) :=
  match value with Some v => n ← parse_tls_version v; Ok (Some n) | None => Ok None end.

Definition build_client_tls (tls : TlsConfig) (ech_config : option bytes) : result ClientTls :=
  ca_pem ← load_optional_material read_file tls.(tls_certificate) tls.(tls_certificate_path);
  certificate ← load_optional_material read_file tls.(tls_client_certificate) tls.(tls_client_certificate_path);
  key ← load_optional_material read_file tls.(tls_client_key) tls.(tls_client_key_path);
  pins ← decode_public_key_pins tls.(tls_certificate_public_key_sha256);
  min ← version_of tls.(tls_min_version);
  max ← version_of tls.(tls_max_version);
  build_client_config (mkClientOptions tls.(tls_insecure) (negb (is_some ca_pem)) ca_pem tls.(tls_alpn) ech_config
    pins certificate key tls.(tls_disable_sni) min max).

Definition enabled_ech (tls : TlsConfig) : option EchConfig :=
  ech ← tls.(tls_ech); if ech.(ech_enabled) then Some ech else None.

Definition load_static_ech (tls : TlsConfig) : result (option bytes) :=
  match enabled_ech tls with
  | None => Ok None
  | Some ech => load_optional_material read_file ech.(ech_config) ech.(ech_config_path)
  end.

Definition enabled_tls (tls : option TlsConfig) : option TlsConfig :=
  tls ← tls; if tls.(tls_enabled) then Some tls else None.

(** [anytls::validate_outbound] *)
Definition validate_anytls (o : OutboundConfig) : result unit :=
  tls ← context (enabled_tls o.(out_tls)) "AnyTLS outbound requires TLS";
  static ← load_static_ech tls;
  _ ← build_client_tls tls static;
  _ ← parse_duration_or o.(out_idle_session_check_interval) (30 * secs);
  _ ← parse_duration_or o.(out_idle_session_timeout) (30 * secs);
  Ok tt.

(** What the connector of an AnyTLS client closes over, and its options. *)
Record AnyTlsClient := mkAnyTls {
  a_server : str;
  a_port : Z;
  a_password : str;
  a_server_name : str;
  a_tls : TlsConfig;
  a_static_ech : option bytes;
  a_dns_ech_name : option str;
  a_check_interval : Z;
  a_idle_timeout : Z;
  a_min_idle : Z;
  a_disable_reuse : bool;
}.

Definition build_client (o : OutboundConfig) : result AnyTlsClient :=
  _ ← validate_anytls o;
  server ← context o.(out_server) "AnyTLS outbound requires server";
  password ← context o.(out_password) "AnyTLS outbound requires password";
  tls ← context (enabled_tls o.(out_tls)) "AnyTLS outbound requires TLS";
  let server_name := default server tls.(tls_server_name) in
  static ← load_static_ech tls;
  let dns_ech_name :=
    match enabled_ech tls, static with
    | Some ech, None => Some (default server_name ech.(ech_query_server_name))
    | _, _ => None
    end in
  _ ← build_client_tls tls static;
  check ← parse_duration_or o.(out_idle_session_check_interval) (30 * secs);
  timeout ← parse_duration_or o.(out_idle_session_timeout) (30 * secs);
  Ok (mkAnyTls server (default 443 o.(out_server_port)) password server_name tls static dns_ech_name check timeout
    (default 0 o.(out_min_idle_session)) o.(out_disable_reuse)).

End tls.

(** ** The server *)

Section server.
Context `{T : TlsLib} (read_file : str → option bytes).

Definition effective_client_authentication (tls : TlsConfig) : str :=
  match tls.(tls_client_authentication) with
  | Some value => value
  | None =>
    match tls.(tls_client_certificate), tls.(tls_client_certificate_path), tls.(tls_client_certificate_public_key_sha256) with
    | [], None, [] => lit "no"
    | _, _, _ => lit "require-and-verify"
    end
  end.

(** What decides whether a client is let in, with and without a certificate. *)
Inductive ClientVerifier :=
  | NoClientAuth
  | DirectClientVerifier (mandatory : bool) (pins : list bytes)
  | WebPkiVerifier (mandatory : bool) (roots : list Cert).

Definition client_cas (tls : TlsConfig) : result bytes :=
  load_required_material read_file tls.(tls_client_certificate) tls.(tls_client_certificate_path).

Definition rustls_client_verifier (tls : TlsConfig) : result ClientVerifier :=
  let authentication := effective_client_authentication tls in
  pins ← decode_public_key_pins tls.(tls_client_certificate_public_key_sha256);
  let verify := str_eqb authentication (lit "verify-if-given") || str_eqb authentication (lit "require-and-verify") in
  if str_eqb authentication (lit "no") then Ok NoClientAuth
  else if str_eqb authentication (lit "request") || str_eqb authentication (lit "require-any")
  then Ok (DirectClientVerifier (str_eqb authentication (lit "require-any")) [])
  else if verify && negb (bool_decide (pins = []))
  then Ok (DirectClientVerifier (str_eqb authentication (lit "require-and-verify")) pins)
  else if verify then
    pem ← client_cas tls;
    roots ← add_roots [] (pem_certs pem);
    match roots with
    | [] => Err "AnyTLS client CA certificate input contains no certificates"
    | _ => Ok (WebPkiVerifier (negb (str_eqb authentication (lit "verify-if-given"))) roots)
    end
  else Err "unknown client_authentication".

(** [DirectClientVerifier::verify_client_cert] *)
Definition certificate_matches_pins (certificate : bytes) (pins : list bytes) : bool :=
  match spki certificate with
  | Some key => existsb (λ pin, str_eqb (sha256 key) pin) pins
  | None => false
  end.

Definition verify_client_cert (pins : list bytes) (end_entity : bytes) : bool :=
  match pins with [] => true | _ => certificate_matches_pins end_entity pins end.

(** The settings of a BoringSSL acceptor: whether a certificate is required, and the
    callback or the store that checks it. *)
Inductive BoringAuth :=
  | BoringNone
  | BoringCallback (required : bool) (pins : list bytes)
  | BoringStore (required : bool) (certificates : list Cert).

Definition configure_boring_client_auth (tls : TlsConfig) : result BoringAuth :=
  let authentication := effective_client_authentication tls in
  if str_eqb authentication (lit "no") then Ok BoringNone else
  let required := str_eqb authentication (lit "require-any") || str_eqb authentication (lit "require-and-verify") in
  pins ← decode_public_key_pins tls.(tls_client_certificate_public_key_sha256);
  if str_eqb authentication (lit "request") || str_eqb authentication (lit "require-any") || negb (bool_decide (pins = []))
  then Ok (BoringCallback required pins) else
  if negb (str_eqb authentication (lit "verify-if-given") || str_eqb authentication (lit "require-and-verify"))
  then Err "unknown client_authentication" else
  pem ← client_cas tls;
  certificates ← context (stack_from_pem pem) "parse client CA certificate";
  match certificates with
  | [] => Err "AnyTLS client CA certificate input contains no certificates"
  | _ => if forallb root_ok certificates then Ok (BoringStore required certificates) else Err "add client CA"
  end.

(** ** Application protocols *)

Fixpoint encode_alpn (protocols : list str) : result bytes :=
  match protocols with
  | [] => Ok []
  | p :: protocols =>
    length ← context (try_uint 8 (Z.of_nat (length p))) "ALPN protocol is longer than 255 bytes";
    rest ← encode_alpn protocols;
    Ok (length :: p ++ rest)
  end.

(** Both loops take the length of their input as fuel. *)
Fixpoint wire_contains_loop (fuel : nat) (wire expected : bytes) : bool :=
  match fuel, wire with
  | S fuel, length_ :: rest =>
    let n := Z.to_nat length_ in
    if (length rest <? n)%nat then false
    else if str_eqb (take n rest) expected then true
    else wire_contains_loop fuel (drop n rest) expected
  | _, _ => false
  end.
Definition alpn_wire_contains (wire expected : bytes) : bool := wire_contains_loop (length wire) wire expected.

Fixpoint select_loop (fuel : nat) (server client : bytes) : option bytes :=
  match fuel, client with
  | S fuel, length_ :: rest =>
    let n := Z.to_nat length_ in
    if (length rest <? n)%nat then None
    else if alpn_wire_contains server (take n rest) then Some (take n rest)
    else select_loop fuel server (drop n rest)
  | _, _ => None
  end.
Definition select_client_alpn (server client : bytes) : option bytes := select_loop (length client) server client.

(** ** Keys of encrypted hellos *)

Definition take_bytes (n : nat) : reader bytes := λ input,
  if (length input <? n)%nat then Err "truncated ECH keys" else Ok (take n input, drop n input).

Definition take_u16 : reader nat := λ input,
  '(b, rest) ← take_bytes 2 input;
  Ok (Z.to_nat (of_be b), rest).

(** The loop reads at least four bytes in each turn. *)
Fixpoint ech_entries (fuel : nat) (cursor : bytes) : result (list (bytes * bytes)) :=
  match cursor with
  | [] => Ok []
  | _ =>
    match fuel with
    | O => Diverge
    | S fuel =>
      '(private_length, cursor) ← take_u16 cursor;
      '(private_key, cursor) ← take_bytes private_length cursor;
      '(config_length, cursor) ← take_u16 cursor;
      '(config, cursor) ← take_bytes config_length cursor;
      entries ← ech_entries fuel cursor;
      Ok ((private_key, config) :: entries)
    end
  end.

Definition begin_keys : str := lit "-----BEGIN ECH KEYS-----".
Definition end_keys : str := lit "-----END ECH KEYS-----".

Definition parse_ech_keys (raw : bytes) : result (list (bytes * bytes)) :=
  text ← from_utf8 raw;
  body ← context ('(_, rest) ← split_once_str begin_keys text; '(body, _) ← split_once_str end_keys rest; Some body)
    "invalid ECH keys PEM";
  der ← context (b64_decode (concat (split_whitespace body))) "decode ECH keys PEM";
  entries ← ech_entries (length der) der;
  match entries with [] => Err "ECH keys PEM contains no keys" | _ => Ok entries end.

(** ** The acceptor *)

Inductive ServerTls :=
  | Rustls (certificates : list Cert) (key : PrivateKey) (verifier : ClientVerifier) (alpn : list str)
  | Boring (certificates : list Cert) (key : PrivateKey) (auth : BoringAuth) (alpn : option bytes) (ech : list (bytes * bytes)).

Definition build_rustls_server_tls (tls : TlsConfig) (certificate key : bytes) : result ServerTls :=
  certificates ← map_result (λ c, context c "parse certificate") (pem_certs certificate);
  key ← context (pem_key key) "parse private key";
  key ← context key "AnyTLS TLS private key is missing";
  verifier ← rustls_client_verifier tls;
  if with_single_cert certificates key then Ok (Rustls certificates key verifier tls.(tls_alpn)) else Err "with_single_cert".

Definition build_boring_server_tls (tls : TlsConfig) (ech : EchConfig) (certificate key : bytes) : result ServerTls :=
  certificates ← context (stack_from_pem certificate) "parse TLS certificate";
  match certificates with
  | [] => Err "AnyTLS TLS certificate input contains no certificates"
  | leaf :: _ =>
    key ← context (boring_key key) "parse TLS private key";
    if negb (check_private_key leaf key) then Err "check TLS private key" else
    auth ← configure_boring_client_auth tls;
    alpn ← match tls.(tls_alpn) with [] => Ok None | l => b ← encode_alpn l; Ok (Some b) end;
    raw_keys ← load_required_material read_file ech.(ech_key) ech.(ech_key_path);
    entries ← parse_ech_keys raw_keys;
    if forallb (λ e : bytes * bytes, hpke_key e.1) entries then Ok (Boring certificates key auth alpn entries)
    else Err "parse ECH private key"
  end.

Definition build_server_tls (tls : TlsConfig) : result ServerTls :=
  certificate ← load_required_material read_file tls.(tls_certificate) tls.(tls_certificate_path);
  key ← load_required_material read_file tls.(tls_key) tls.(tls_key_path);
  match enabled_ech tls with
  | Some ech => build_boring_server_tls tls ech certificate key
  | None => build_rustls_server_tls tls certificate key
  end.

Definition validate_server_tls (tls : TlsConfig) : result unit := _ ← build_server_tls tls; Ok tt.

End server.

(** ** Properties of the negotiation *)

Section alpn.

Lemma encode_alpn_cons p ps w : encode_alpn (p :: ps) = Ok w →
  ∃ rest, encode_alpn ps = Ok rest ∧ w = Z.of_nat (length p) :: p ++ rest.
Proof.
  cbn [encode_alpn]. intros H. apply bind_Ok in H as (n & Hn & H). apply bind_Ok in H as (rest & Hr & H).
  apply context_Ok, try_uint_Some in Hn as [_ ->]. apply Ok_inj in H. by exists rest.
Qed.

Lemma wire_contains_encoded ps expected : ∀ w fuel, encode_alpn ps = Ok w → (length w ≤ fuel)%nat →
  wire_contains_loop fuel w expected = bool_decide (expected ∈ ps).
Proof.
  induction ps as [|p ps IH]; intros w fuel H Hf.
  { apply Ok_inj in H. subst w. destruct fuel; cbn; symmetry; apply bool_decide_eq_false; set_solver. }
  apply encode_alpn_cons in H as (rest & Hr & ->). destruct fuel as [|fuel]; [cbn in Hf; lia|].
  cbn [wire_contains_loop]. rewrite Nat2Z.id, length_app.
  rewrite (proj2 (Nat.ltb_ge _ _)) by lia. rewrite take_app_length, drop_app_length.
  assert (length rest ≤ fuel)%nat by (cbn [length] in Hf; rewrite length_app in Hf; lia). rewrite (IH rest fuel Hr) by done.
  unfold str_eqb. destruct (bool_decide (p = expected)) eqn:E.
  - apply bool_decide_eq_true in E. subst. symmetry. apply bool_decide_eq_true. set_solver.
  - apply bool_decide_eq_false in E. apply bool_decide_ext. set_solver.
Qed.

Lemma select_encoded server client sw : encode_alpn server = Ok sw → ∀ cw fuel,
  encode_alpn client = Ok cw → (length cw ≤ fuel)%nat →
  select_loop fuel sw cw = List.find (λ p, bool_decide (p ∈ server)) client.
Proof.
  intros Hs. induction client as [|p ps IH]; intros cw fuel H Hf.
  { apply Ok_inj in H. subst cw. by destruct fuel. }
  apply encode_alpn_cons in H as (rest & Hr & ->). destruct fuel as [|fuel]; [cbn in Hf; lia|].
  cbn [select_loop List.find]. rewrite Nat2Z.id, length_app.
  rewrite (proj2 (Nat.ltb_ge _ _)) by lia. rewrite take_app_length, drop_app_length.
  unfold alpn_wire_contains. rewrite (wire_contains_encoded server p sw) by done.
  destruct (bool_decide _); [done|]. apply IH; [done|]. cbn in Hf. rewrite length_app in Hf. lia.
Qed.

(** The protocol of an AnyTLS connection is the first one of the client's list that
    the server lists too, and there is none exactly when the lists have none in common. *)
Theorem alpn_negotiated server client sw cw :
  encode_alpn server = Ok sw → encode_alpn client = Ok cw →
  select_client_alpn sw cw = List.find (λ p, bool_decide (p ∈ server)) client.
Proof. intros Hs Hc. by apply select_encoded. Qed.

End alpn.

(** ** Keys are read back as they were written *)

Definition ech_entry (e : bytes * bytes) : bytes :=
  to_be 2 (Z.of_nat (length e.1)) ++ e.1 ++ to_be 2 (Z.of_nat (length e.2)) ++ e.2.

Lemma take_bytes_app b rest n : n = length b → take_bytes n (b ++ rest) = Ok (b, rest).
Proof.
  intros ->. unfold take_bytes. rewrite length_app, (proj2 (Nat.ltb_ge _ _)) by lia.
  by rewrite take_app_length, drop_app_length.
Qed.

Lemma take_u16_app n rest : (Z.of_nat n < 65536) → take_u16 (to_be 2 (Z.of_nat n) ++ rest) = Ok (n, rest).
Proof.
  intros Hn. unfold take_u16. rewrite take_bytes_app by length_tac. cbn [mbind result_bind].
  rewrite of_be_to_be by (unfold uint; cbn; lia). by rewrite Nat2Z.id.
Qed.

Lemma ech_entries_written entries : Forall (λ e, Z.of_nat (length e.1) < 65536 ∧ Z.of_nat (length e.2) < 65536) entries →
  ∀ fuel, (length (concat (ech_entry <$> entries)) ≤ fuel)%nat → ech_entries fuel (concat (ech_entry <$> entries)) = Ok entries.
Proof.
  induction 1 as [|[k c] entries [Hk Hc] _ IH]; intros fuel Hf; [by destruct fuel|].
  cbn [fmap list_fmap concat] in *. rewrite length_app in Hf.
  assert (Hlen : (4 ≤ length (ech_entry (k, c)))%nat) by (unfold ech_entry; length_tac).
  destruct fuel as [|fuel]; [lia|]. unfold ech_entry at 1. cbn [fst snd] in *. rewrite <- !app_assoc.
  set (rest := to_be 2 (Z.of_nat (length c)) ++ c ++ concat (ech_entry <$> entries)).
  cbn [ech_entries]. destruct (to_be 2 (Z.of_nat (length k)) ++ k ++ rest) eqn:E; [discriminate E|]. rewrite <- E. clear E.
  rewrite take_u16_app by done. cbn [mbind result_bind]. rewrite take_bytes_app by done. cbn [mbind result_bind].
  subst rest. rewrite take_u16_app by done. cbn [mbind result_bind]. rewrite take_bytes_app by done. cbn [mbind result_bind].
  rewrite IH by lia. done.
Qed.

(** ** Which certificates are accepted *)

Section accepted.
Context `{T : TlsLib} (read_file : str → option bytes) (native : list Cert * bool).

(** The verification of a chain against a set of roots. *)
Context (chain_ok : list Cert → bytes → bool).

Definition server_accepted (c : ClientTls) (certificate : bytes) : bool :=
  match c.(c_verifier) with
  | DirectCertificateVerifier pins => is_ok (verify_server_cert pins certificate)
  | RootsVerifier roots => chain_ok roots certificate
  end.

(** The key of the certificate has the digest that one of the configured pins encodes. *)
Definition pinned_by (pins : list str) (certificate : bytes) : Prop :=
  ∃ pin key, pin ∈ pins ∧ spki certificate = Some key ∧ b64_decode pin = Some (sha256 key).

Definition configured_root (tls : TlsConfig) (r : Cert) : Prop :=
  match load_optional_material read_file tls.(tls_certificate) tls.(tls_certificate_path) with
  | Ok (Some pem) => Some r ∈ pem_certs pem
  | _ => r ∈ native.1
  end.

Lemma add_roots_from certificates : ∀ roots roots', add_roots roots certificates = Ok roots' →
  ∀ r, r ∈ roots' → r ∈ roots ∨ Some r ∈ certificates.
Proof.
  induction certificates as [|c cs IH]; intros roots roots' H r Hr; cbn [add_roots] in H.
  { apply Ok_inj in H. subst. by left. }
  apply bind_Ok in H as (mid & Hm & H). destruct (IH mid roots' H r Hr) as [Hin|Hin]; [|set_solver].
  unfold add_root in Hm. apply bind_Ok in Hm as (c' & Hc & Hm). apply context_Ok in Hc. subst c.
  destruct (root_ok c'); [|done]. apply Ok_inj in Hm. subst mid. set_solver.
Qed.

Lemma client_roots_from o roots r : client_roots native o = Ok roots → r ∈ roots →
  (o.(include_native_roots) = true ∧ r ∈ native.1) ∨ ∃ pem, o.(ca_pem) = Some pem ∧ Some r ∈ pem_certs pem.
Proof.
  unfold client_roots. intros H Hr. apply bind_Ok in H as (base & Hb & H).
  assert (Hbase : ∀ x, x ∈ base → o.(include_native_roots) = true ∧ x ∈ native.1).
  { intros x Hx. destruct o.(include_native_roots); [|apply Ok_inj in Hb; subst; set_solver].
    apply bind_Ok in Hb as (rs & Hrs & Hb). destruct (_ && _); [done|]. apply Ok_inj in Hb. subst rs. split; [done|].
    destruct (add_roots_from _ _ _ Hrs x Hx) as [?|Hx']; [set_solver|]. apply list_elem_of_fmap in Hx' as (y & [= ->] & Hy). done. }
  destruct o.(ca_pem) as [pem|] eqn:Ep; [|apply Ok_inj in H; subst; left; by apply Hbase].
  unfold add_ca_pem in H. apply bind_Ok in H as (rs & Hrs & H).
  assert (rs = roots) as -> by (destruct (pem_certs pem); [done|by apply Ok_inj in H]).
  destruct (add_roots_from _ _ _ Hrs r Hr) as [Hx|Hx]; [left; by apply Hbase|right; by exists pem].
Qed.

Lemma decode_pins_elem values pins pin : decode_public_key_pins values = Ok pins → pin ∈ pins →
  ∃ value, value ∈ values ∧ b64_decode value = Some pin.
Proof.
  intros H Hp. apply map_result_Ok in H. apply list_elem_of_lookup in Hp as (i & Hi).
  destruct (Forall2_lookup_r _ _ _ _ _ H Hi) as (v & Hv & E). exists v. split; [by eapply list_elem_of_lookup_2|]. unfold decode_public_key_pin in E. apply bind_Ok in E as (d & Hd & E).
  apply context_Ok in Hd. destruct (_ =? _)%nat; [|done]. apply Ok_inj in E. by subst.
Qed.

Lemma verify_server_cert_pinned pins certificate : pins ≠ [] → is_ok (verify_server_cert pins certificate) = true →
  ∃ key, spki certificate = Some key ∧ sha256 key ∈ pins.
Proof.
  intros Hp. unfold verify_server_cert. destruct pins as [|p ps]; [done|]. destruct (spki certificate) as [key|]; [|done].
  cbn [context mbind result_bind]. destruct (existsb _ _) eqn:E; [|done]. intros _. exists key. split; [done|].
  apply existsb_exists in E as (x & Hx & Ex). apply str_eqb_eq in Ex. subst x. by apply list_elem_of_In.
Qed.

(** What any client that was built accepts. *)
Lemma client_config_checked o c certificate : build_client_config native o = Ok c → server_accepted c certificate = true →
  (o.(insecure) = true ∧ o.(certificate_public_key_sha256) = []) ∨
  (∃ key, spki certificate = Some key ∧ sha256 key ∈ o.(certificate_public_key_sha256)) ∨
  ∃ roots, chain_ok roots certificate = true ∧ Forall (λ r, (o.(include_native_roots) = true ∧ r ∈ native.1) ∨
    ∃ pem, o.(ca_pem) = Some pem ∧ Some r ∈ pem_certs pem) roots.
Proof.
  unfold build_client_config. intros H Hacc. destruct (_ && is_some _); [done|]. destruct (negb (eqb _ _)); [done|].
  apply bind_Ok in H as (roots & Hroots & H). apply bind_Ok in H as ([e vs] & _ & H). apply bind_Ok in H as (auth & _ & H).
  apply Ok_inj in H. subst c. unfold server_accepted in Hacc. cbn [c_verifier] in Hacc.
  destruct (decide (o.(certificate_public_key_sha256) = [])) as [Ep|Hne].
  - destruct o.(insecure); [by left|]. rewrite bool_decide_true in Hacc by done. right; right. exists roots.
    split; [done|]. apply Forall_forall. intros r Hr. by apply (client_roots_from o roots r).
  - rewrite bool_decide_false, orb_true_r in Hacc by done. right; left. by apply verify_server_cert_pinned.
Qed.

Lemma decode_pins_nil values : decode_public_key_pins values = Ok [] → values = [].
Proof. intros Hp. apply map_result_Ok in Hp. by inversion Hp. Qed.

Lemma decoded_pinned values pins certificate key : decode_public_key_pins values = Ok pins →
  spki certificate = Some key → sha256 key ∈ pins → pinned_by values certificate.
Proof. intros Hp Hk Hin. destruct (decode_pins_elem _ _ _ Hp Hin) as (v & Hv & Ev). by exists v, key. Qed.

(** C27: the client of an AnyTLS outbound accepts the certificate of a server only when its
    public key is one of the configured pins, or when it chains to the configured CA (the
    system's roots without one); every certificate is accepted only when the configuration
    says [insecure] and has no pins. *)
Theorem server_certificate_checked tls ech c certificate :
  build_client_tls native read_file tls ech = Ok c → server_accepted c certificate = true →
  (tls.(tls_insecure) = true ∧ tls.(tls_certificate_public_key_sha256) = []) ∨
  pinned_by tls.(tls_certificate_public_key_sha256) certificate ∨
  ∃ roots, chain_ok roots certificate = true ∧ Forall (configured_root tls) roots.
Proof.
  unfold build_client_tls. intros H Hacc. apply bind_Ok in H as (ca & Hca & H). apply bind_Ok in H as (cc & _ & H).
  apply bind_Ok in H as (ck & _ & H). apply bind_Ok in H as (pins & Hpins & H).
  apply bind_Ok in H as (vmin & _ & H). apply bind_Ok in H as (vmax & _ & H).
  destruct (client_config_checked _ _ _ H Hacc) as [[Hi Ep]|[(key & Hk & Hin)|(roots & Hc & Hroots)]];
    cbn [insecure certificate_public_key_sha256 include_native_roots ca_pem] in *.
  - left. subst pins. by apply decode_pins_nil in Hpins.
  - right; left. by eapply decoded_pinned.
  - right; right. exists roots. split; [done|]. eapply Forall_impl; [exact Hroots|]. intros r Hr. unfold configured_root.
    rewrite Hca. destruct ca as [pem|]; destruct Hr as [[? ?]|(pem' & [= <-] & ?)]; done.
Qed.

(** *** Clients of the server *)

Context `{TL : !TlsLaws T}.

Definition rustls_admits (v : ClientVerifier) (certificate : option bytes) : bool :=
  match v, certificate with
  | NoClientAuth, _ => true
  | DirectClientVerifier mandatory _, None | WebPkiVerifier mandatory _, None => negb mandatory
  | DirectClientVerifier _ pins, Some c => verify_client_cert pins c
  | WebPkiVerifier _ roots, Some c => chain_ok roots c
  end.

Definition boring_admits (b : BoringAuth) (certificate : option bytes) : bool :=
  match b, certificate with
  | BoringNone, _ => true
  | BoringCallback required _, None | BoringStore required _, None => negb required
  | BoringCallback _ pins, Some c => bool_decide (pins = []) || certificate_matches_pins c pins
  | BoringStore _ certificates, Some c => chain_ok certificates c
  end.

Lemma add_roots_all certificates : ∀ roots roots', add_roots roots (Some <$> certificates) = Ok roots' → roots' = roots ++ certificates.
Proof.
  induction certificates as [|c cs IH]; intros roots roots' H; cbn [fmap list_fmap add_roots] in H.
  { apply Ok_inj in H. by rewrite app_nil_r. }
  apply bind_Ok in H as (mid & Hm & H). unfold add_root in Hm. cbn [context mbind result_bind] in Hm.
  destruct (root_ok c); [|done]. apply Ok_inj in Hm. subst mid. apply IH in H. by rewrite H, <- app_assoc.
Qed.

(** The two implementations of the AnyTLS server let in the same clients: whenever both
    accept the options, the one with encrypted hellos (BoringSSL) and the one without
    (rustls) agree on every client, with or without a certificate.  (Pins together with
    the modes [request] and [require-any] are left out: rustls ignores them there.) *)
Theorem client_auth_equiv tls v b certificate :
  rustls_client_verifier read_file tls = Ok v → configure_boring_client_auth read_file tls = Ok b →
  (effective_client_authentication tls ∉ [lit "request"; lit "require-any"]) ∨ tls.(tls_client_certificate_public_key_sha256) = [] →
  rustls_admits v certificate = boring_admits b certificate.
Proof.
  unfold rustls_client_verifier, configure_boring_client_auth. intros Hv Hb Hok.
  set (a := effective_client_authentication tls) in *. clearbody a.
  apply bind_Ok in Hv as (pins & Hpins & Hv). rewrite Hpins in Hb. cbn [mbind result_bind] in Hb.
  destruct (str_eqb a (lit "no")) eqn:Eno.
  { apply Ok_inj in Hv, Hb. by subst v b. }
  destruct (str_eqb a (lit "request") || str_eqb a (lit "require-any")) eqn:Ereq.
  { cbn [orb] in Hb. apply Ok_inj in Hv, Hb. subst v b.
    assert (pins = []) as ->.
    { destruct Hok as [Hn|Hp]; [|rewrite Hp in Hpins; by apply Ok_inj in Hpins].
      exfalso. apply Hn. apply orb_true_iff in Ereq as [E|E]; apply str_eqb_eq in E; subst a; set_solver. }
    assert (E : str_eqb a (lit "require-and-verify") = false).
    { apply not_true_iff_false. intros E. apply str_eqb_eq in E. by subst a. }
    rewrite E, orb_false_r. by destruct certificate. }
  destruct (str_eqb a (lit "verify-if-given") || str_eqb a (lit "require-and-verify")) eqn:Ever; [|done].
  cbn [orb andb negb] in *. apply orb_false_iff in Ereq as [_ Era]. rewrite Era in Hb. cbn [orb] in Hb.
  destruct (decide (pins = [])) as [Hp|Hp].
  - rewrite (bool_decide_true (pins = [])) in Hv, Hb by done. cbn [negb] in *.
    destruct (client_cas read_file tls) as [pem|e| |]; [|done..]. cbn [mbind result_bind] in *.
    apply bind_Ok in Hv as (roots & Hr & Hv). apply bind_Ok in Hb as (certs & Hc & Hb). apply context_Ok in Hc.
    rewrite (stack_is_certs pem certs Hc) in Hr. apply add_roots_all in Hr. cbn [app] in Hr. subst roots.
    destruct certs as [|c cs]; [done|]. destruct (forallb _ _); [|done]. apply Ok_inj in Hv, Hb. subst v b.
    destruct certificate as [x|]; [done|]. cbn [rustls_admits boring_admits]. f_equal.
    apply orb_true_iff in Ever as [E|E]; apply str_eqb_eq in E; by subst a.
  - rewrite (bool_decide_false (pins = [])) in Hv, Hb by done. cbn [negb] in *. apply Ok_inj in Hv, Hb. subst v b.
    destruct certificate as [x|]; [|done]. cbn [rustls_admits boring_admits verify_client_cert].
    rewrite bool_decide_false by done. by destruct pins.
Qed.

End accepted.

(** ** A concrete library *)

Module Sample.

#[export] Instance lib : TlsLib := {|
  Cert := bytes; PrivateKey := bytes; EchList := bytes;
  pem_certs b := match b with [] => [] | _ => [Some b] end;
  pem_key b := Some (Some b);
  root_ok _ := true;
  ech_pem b := Some b;
  ech_new b := Some b;
  with_ech _ := true;
  with_client_auth_cert _ _ := true;
  with_single_cert _ _ := true;
  stack_from_pem b := Some (match b with [] => [] | _ => [b] end);
  boring_key b := Some b;
  check_private_key _ _ := true;
  hpke_key _ := true;
  b64_decode s := Some s;
  spki c := Some c;
  sha256 b := take 32 (b ++ replicate 32 0);
|}.

#[export] Instance laws : TlsLaws lib.
Proof. split. cbn. intros pem certs [= <-]. by destruct pem. Qed.

Definition pin : str := take 32 (lit "abc" ++ replicate 32 0).

Definition options (insecure : bool) (pins : list str) (authentication : option str) (client_pins : list str) : TlsConfig :=
  mkTls true None insecure false None None [] [] None None pins [] None [] None authentication client_pins [] None.

Definition no_file (_ : str) : option bytes := None.
Definition no_chain (_ : list bytes) (_ : bytes) : bool := false.

(** The configuration with a pin accepts the certificate of that key and no other. *)
Definition pinned : ClientTls :=
  match build_client_tls (T := lib) ([], false) no_file (options false [pin] None []) None with
  | Ok c => c
  | _ => mkClientTls (T := lib) None [] (RootsVerifier (T := lib) []) None [] false
  end.

Lemma pinned_built : build_client_tls (T := lib) ([], false) no_file (options false [pin] None []) None = Ok pinned.
Proof. vm_compute. reflexivity. Qed.

(** An authentication mode that does not exist: rustls refuses the options, BoringSSL
    takes them and lets in a client without a certificate. *)
Example unknown_authentication :
  let tls := options false [] (Some (lit "required")) [pin] in
  rustls_client_verifier (T := lib) no_file tls = Err "unknown client_authentication" ∧
  configure_boring_client_auth (T := lib) no_file tls = Ok (BoringCallback (T := lib) false [pin]) ∧
  boring_admits (T := lib) no_chain (BoringCallback (T := lib) false [pin]) None = true.
Proof. vm_compute. done. Qed.

(** Pins with a mode that asks for any certificate: BoringSSL checks them, rustls does not. *)
Example pins_with_require_any :
  let tls := options false [] (Some (lit "require-any")) [pin] in
  ∃ v b, rustls_client_verifier (T := lib) no_file tls = Ok v ∧ configure_boring_client_auth (T := lib) no_file tls = Ok b ∧
    rustls_admits (T := lib) no_chain v (Some (lit "xyz")) = true ∧ boring_admits (T := lib) no_chain b (Some (lit "xyz")) = false.
Proof. eexists _, _. split_and!; vm_compute; reflexivity. Qed.

End Sample.

(** The pinned key is accepted, as the pin that is configured. *)
Lemma server_certificate_checked_witness :
  server_accepted (T := Sample.lib) Sample.no_chain Sample.pinned (lit "abc") = true ∧
  ((Sample.options false [Sample.pin] None []).(tls_insecure) = true ∧ [Sample.pin] = [] ∨
   pinned_by (T := Sample.lib) [Sample.pin] (lit "abc") ∨
   ∃ roots, Sample.no_chain roots (lit "abc") = true ∧
     Forall (configured_root (T := Sample.lib) Sample.no_file ([], false) (Sample.options false [Sample.pin] None [])) roots).
Proof.
  assert (H : server_accepted (T := Sample.lib) Sample.no_chain Sample.pinned (lit "abc") = true) by (vm_compute; reflexivity).
  split; [exact H|].
  exact (server_certificate_checked (T := Sample.lib) Sample.no_file ([], false) Sample.no_chain
    (Sample.options false [Sample.pin] None []) None Sample.pinned (lit "abc") Sample.pinned_built H).
Defined.

(** With a client pin both servers ask for that certificate. *)
Lemma client_auth_equiv_witness :
  let tls := Sample.options false [] None [Sample.pin] in
  rustls_client_verifier (T := Sample.lib) Sample.no_file tls = Ok (DirectClientVerifier (T := Sample.lib) true [Sample.pin]) ∧
  ∀ certificate, rustls_admits (T := Sample.lib) Sample.no_chain (DirectClientVerifier (T := Sample.lib) true [Sample.pin]) certificate =
    boring_admits (T := Sample.lib) Sample.no_chain (BoringCallback (T := Sample.lib) true [Sample.pin]) certificate.
Proof.
  intros tls. split; [vm_compute; reflexivity|]. intros certificate.
  apply (client_auth_equiv (T := Sample.lib) (TL := Sample.laws) Sample.no_file Sample.no_chain tls).
  - vm_compute. reflexivity.
  - vm_compute. reflexivity.
  - left. intros Hin. apply list_elem_of_In in Hin. vm_compute in Hin. by destruct Hin as [E|[E|[]]].
Defined.

Lemma alpn_negotiated_witness :
  select_client_alpn ([2] ++ lit "h2" ++ [8] ++ lit "http/1.1") ([8] ++ lit "http/1.1" ++ [2] ++ lit "h2") = Some (lit "http/1.1").
Proof.
  rewrite (alpn_negotiated [lit "h2"; lit "http/1.1"] [lit "http/1.1"; lit "h2"]); vm_compute; reflexivity.
Defined.
