(* ===== verification/Inbound.v ===== *)
(** * Handshakes of the local inbounds (src/src/proxy/inbound.rs)

    A client of the SOCKS, HTTP or mixed inbound says where it wants to go and who it
    is.  A handshake reads from the client and writes to it: [io] is what it wrote
    and how it ended, given the bytes the client sends. *)

From S2P Require Import Prelude RustStr Net IpText Vless Routing Sniff SocksUdp Config.

(** ** Reading and writing *)

Definition io (A : Type) : Type := bytes → bytes * result (A * bytes).

#[export] Instance io_ret : MRet io := λ A a s, ([], Ok (a, s)).
#[export] Instance io_bind : MBind io := λ A B f m s,
  let '(out, r) := m s in
  match r with
  | Ok (a, s) => let '(out', r) := f a s in (out ++ out', r)
  | Err e => (out, Err e)
  | Panic => (out, Panic)
  | Diverge => (out, Diverge)
  end.

Definition from_client {A} (m : reader A) : io A := λ s, ([], m s).
Definition to_client (b : bytes) : io unit := λ s, (b, Ok (tt, s)).
Definition io_fail {A} (msg : string) : io A := from_client (fail msg).
Definition io_lift {A} (r : result A) : io A := from_client (lift r).

(** [peek] into one byte, which stays zero at the end of the stream. *)
Definition peek_u8 : io Z := λ s, ([], Ok (default 0 (head s), s)).

(** ** Users *)

Definition authenticate (users : list User) (name password : str) : result unit :=
  context (if existsb (λ user, bool_decide (user.(u_name) = Some name) && bool_decide (user.(u_password) = Some password))
                users then Some tt else None) "invalid proxy credentials".

Inductive Handshake :=
  | TcpHandshake (destination : Destination) (reply : option bytes) (initial : bytes) (auth_user : option str)
  | UdpHandshake (auth_user : option str).

(** ** SOCKS *)

Definition socks_credentials (users : list User) : io str :=
  version ← from_client read_u8;
  if negb (version =? 1) then io_fail "unsupported SOCKS authentication version" else
  name_length ← from_client read_u8;
  name ← from_client (read_exact (Z.to_nat name_length));
  password_length ← from_client read_u8;
  password ← from_client (read_exact (Z.to_nat password_length));
  name ← io_lift (from_utf8 name);
  password ← io_lift (from_utf8 password);
  if is_ok (authenticate users name password) then _ ← to_client [1; 0]; mret name
  else _ ← to_client [1; 1]; io_fail "invalid SOCKS credentials".

Definition socks_address : reader Destination :=
  kind ← read_u8;
  match kind with
  | 1 => b ← read_exact 4; port ← read_u16; mret (Ip (V4 (of_be b)) port)
  | 3 =>
    n ← read_u8;
    b ← read_exact (Z.to_nat n);
    host ← lift (from_utf8 b);
    port ← read_u16;
    mret (Domain host port)
  | 4 => b ← read_exact 16; port ← read_u16; mret (Ip (V6 (of_be b)) port)
  | _ => fail "invalid SOCKS address"
  end.

Definition socks_handshake (users : list User) : io (Z * Destination * option str) :=
  version ← from_client read_u8;
  if negb (version =? 5) then io_fail "unsupported SOCKS version" else
  n ← from_client read_u8;
  methods ← from_client (read_exact (Z.to_nat n));
  let method := match users with [] => 0 | _ => 2 end in
  if negb (bool_decide (method ∈ methods)) then
    _ ← to_client [5; 255]; io_fail "SOCKS authentication method unavailable"
  else
  _ ← to_client [5; method];
  auth_user ← (if method =? 2 then name ← socks_credentials users; mret (Some name) else mret None);
  version ← from_client read_u8;
  if negb (version =? 5) then io_fail "unsupported SOCKS request version" else
  command ← from_client read_u8;
  if negb ((command =? 1) || (command =? 3)) then io_fail "only SOCKS CONNECT and UDP ASSOCIATE are supported" else
  _ ← from_client read_u8;
  address ← from_client socks_address;
  mret (command, address, auth_user).

(** ** HTTP *)

(** What the handshake uses of the crates [base64], [http] and [url]. *)
Class ProxyLib := {
  std_decode : str → option bytes;  (* STANDARD.decode *)
  authority_parse : str → option (str * option Z);  (* Authority: host, port_u16 *)
  TargetUrl : Type;
  target_parse : str → option TargetUrl;
  host_str : TargetUrl → option str;
  port_or_known_default : TargetUrl → option Z;
  target_path : TargetUrl → str;
  target_query : TargetUrl → option str;
}.

(** The parts of a URL have no line break: the parser removes them. *)
Class ProxyLaws (L : ProxyLib) := {
  path_line url : 10 ∉ target_path url;
  query_line url q : target_query url = Some q → 10 ∉ q;
}.

Definition crlf : str := [13; 10].
Definition header_limit : Z := 16 * 1024.

(** The header is read byte by byte. *)
Fixpoint read_header (request : bytes) (s : bytes) : result (bytes * bytes) :=
  if Z.of_nat (length request) <? header_limit then
    match s with
    | [] => Err "early eof"
    | b :: s =>
      if ends_with (crlf ++ crlf) (request ++ [b]) then Ok (request ++ [b], s) else read_header (request ++ [b]) s
    end
  else Ok (request, s).

Section http.
Context `{L : ProxyLib}.

Definition proxy_authorization (line : str) : option str :=
  '(name, value) ← split_once c_colon line;
  if eq_ignore_ascii_case name (lit "proxy-authorization") then Some (trim value) else None.

(** The decoded credentials of the first such header *)
Definition basic_credentials (text : str) : option str :=
  value ← find_map proxy_authorization (lines text);
  '(scheme, encoded) ← split_once 32 value;
  decoded ← (if eq_ignore_ascii_case scheme (lit "basic") then std_decode encoded else None);
  result_ok (from_utf8 decoded).

Definition basic_user (users : list User) (text : str) : option str :=
  value ← basic_credentials text;
  '(name, password) ← split_once c_colon value;
  if is_ok (authenticate users name password) then Some name else None.

Definition proxy_required : bytes :=
  lit "HTTP/1.1 407 Proxy Authentication Required" ++ crlf ++
  lit "Proxy-Authenticate: Basic realm=" ++ [c_quote] ++ lit "xhttp-rs" ++ [c_quote] ++ crlf ++
  lit "Content-Length: 0" ++ crlf ++ crlf.

Definition header_name_of (header : str) : str := default [] (fst <$> split_once c_colon header).

Definition is_proxy_header (header : str) : bool :=
  eq_ignore_ascii_case (header_name_of header) (lit "proxy-authorization") ||
  eq_ignore_ascii_case (header_name_of header) (lit "proxy-connection").

Fixpoint take_headers (ls : list str) : list str :=
  match ls with
  | [] => []
  | l :: ls => match l with [] => [] | _ => l :: take_headers ls end
  end.

Definition forwarded_headers (text : str) : bytes :=
  concat ((λ h, h ++ crlf) <$> List.filter (λ h, negb (is_proxy_header h)) (take_headers (drop 1 (lines text)))).

Definition http_handshake (users : list User) : io Handshake :=
  request ← from_client (read_header []);
  if negb (ends_with (crlf ++ crlf) request) then io_fail "HTTP proxy header too large" else
  text ← io_lift (from_utf8 request);
  auth_user ←
    match users with
    | [] => mret None
    | _ =>
      match basic_user users text with
      | Some name => mret (Some name)
      | None => _ ← to_client proxy_required; io_fail "HTTP proxy authentication required"
      end
    end;
  line ← io_lift (context (head (lines text)) "missing HTTP request line");
  let parts := split_whitespace line in
  method ← io_lift (context (parts !! 0%nat) "missing HTTP method");
  target ← io_lift (context (parts !! 1%nat) "missing HTTP target");
  version ← io_lift (context (parts !! 2%nat) "missing HTTP version");
  if eq_ignore_ascii_case method (lit "CONNECT") then
    '(host, port) ← io_lift (context (authority_parse target) "invalid authority");
    mret (TcpHandshake (parse_destination host (default 443 port))
      (Some (lit "HTTP/1.1 200 Connection Established" ++ crlf ++ crlf)) [] auth_user)
  else
  url ← io_lift (context (target_parse target) "HTTP proxy request requires absolute URI");
  host ← io_lift (context (host_str url) "HTTP target has no host");
  port ← io_lift (context (port_or_known_default url) "HTTP target has no port");
  let path := match target_query url with
              | Some q => target_path url ++ lit "?" ++ q
              | None => target_path url
              end in
  let initial := method ++ lit " " ++ path ++ lit " " ++ version ++ crlf ++ forwarded_headers text ++ crlf in
  mret (TcpHandshake (parse_destination host port) None initial auth_user).

Definition client_handshake (protocol : str) (users : list User) : io Handshake :=
  selected ← (if str_eqb protocol (lit "mixed")
              then b ← peek_u8; mret (if b =? 5 then lit "socks" else lit "http") else mret protocol);
  if str_eqb selected (lit "socks") then
    '(command, destination, auth_user) ← socks_handshake users;
    match command with
    | 1 => mret (TcpHandshake destination (Some [5; 0; 0; 1; 0; 0; 0; 0; 0; 0]) [] auth_user)
    | 3 => mret (UdpHandshake auth_user)
    | _ => io_fail "unsupported SOCKS command"
    end
  else if str_eqb selected (lit "http") then http_handshake users
  else io_fail "unsupported inbound protocol".

End http.

(** ** Facts of the monad *)

Lemma io_bind_Ok {A B} (m : io A) (f : A → io B) s out b s' :
  (a ← m; f a) s = (out, Ok (b, s')) →
  ∃ o1 a s1 o2, m s = (o1, Ok (a, s1)) ∧ f a s1 = (o2, Ok (b, s')) ∧ out = o1 ++ o2.
Proof.
  unfold mbind, io_bind. destruct (m s) as [o1 [[a s1]|e| |]]; try done.
  destruct (f a s1) as [o2 r] eqn:E. intros [= <- ->]. eauto 8.
Qed.

Lemma io_bind_eq {A B} (m : io A) (f : A → io B) s o1 a s1 :
  m s = (o1, Ok (a, s1)) → (a ← m; f a) s = (let '(o2, r) := f a s1 in (o1 ++ o2, r)).
Proof. intros H. unfold mbind, io_bind. by rewrite H. Qed.

Definition io_returns {A} (m : io A) : Prop := ∀ s, returns (m s).2.

Lemma io_returns_bind {A B} (m : io A) (f : A → io B) : io_returns m → (∀ a, io_returns (f a)) → io_returns (a ← m; f a).
Proof.
  intros Hm Hf s. unfold mbind, io_bind. specialize (Hm s). destruct (m s) as [o1 [[a s1]|e| |]]; cbn in *; try done.
  specialize (Hf a s1). by destruct (f a s1).
Qed.

Lemma io_returns_client {A} (m : reader A) : reader_returns m → io_returns (from_client m).
Proof. intros H s. apply H. Qed.

Lemma io_returns_fail {A} msg : io_returns (@io_fail A msg).
Proof. by intros s. Qed.
Lemma io_returns_lift {A} (r : result A) : returns r → io_returns (io_lift r).
Proof. intros H s. by destruct r. Qed.
Lemma io_returns_write b : io_returns (to_client b).
Proof. by intros s. Qed.
Lemma io_returns_ret {A} (a : A) : io_returns (mret a).
Proof. by intros s. Qed.
Lemma io_returns_peek : io_returns peek_u8.
Proof. by intros s. Qed.

Create HintDb io.
#[local] Hint Resolve io_returns_fail io_returns_lift io_returns_write io_returns_ret io_returns_peek io_returns_client
  returns_from_utf8 returns_context reader_returns_u8 reader_returns_exact : io.

Ltac io_returns_tac :=
  repeat match goal with
  | |- io_returns (mbind _ _) => apply io_returns_bind; [|intros ?]
  | |- io_returns (match ?x with _ => _ end) => destruct x
  end; auto with io.

Lemma reader_returns_socks_address : reader_returns socks_address.
Proof. unfold socks_address. reader_returns_tac. Qed.

Lemma read_header_returns request s : returns (read_header request s).
Proof.
  revert request. induction s as [|b s IH]; intros request; cbn [read_header]; destruct (_ <? _); try done.
  destruct (ends_with _ _); [done|apply IH].
Qed.

Lemma io_returns_socks users : io_returns (socks_handshake users).
Proof.
  unfold socks_handshake, socks_credentials. io_returns_tac. apply io_returns_client, reader_returns_socks_address.
Qed.

Section handshakes.
Context `{L : ProxyLib}.

(** A handshake never panics, whatever the client sends. *)
Lemma returns_client_handshake protocol users : io_returns (client_handshake protocol users).
Proof.
  assert (Hh : io_returns (http_handshake users)).
  { unfold http_handshake. io_returns_tac. intros s. apply read_header_returns. }
  unfold client_handshake. io_returns_tac. apply io_returns_socks.
Qed.

(** ** Authentication *)

Definition auth_user_of (h : Handshake) : option str :=
  match h with TcpHandshake _ _ _ u => u | UdpHandshake u => u end.

(** The credentials are in the bytes of the client: in a SOCKS authentication request,
    or in the header of an HTTP request. *)
Inductive presented (s : bytes) (name password : str) : Prop :=
  | presented_socks pre rest :
      s = pre ++ [1; Z.of_nat (length name)] ++ name ++ [Z.of_nat (length password)] ++ password ++ rest →
      presented s name password
  | presented_http text rest :
      s = text ++ rest → basic_credentials text = Some (name ++ c_colon :: password) → presented s name password.

Definition known (users : list User) (name password : str) : Prop :=
  ∃ user, user ∈ users ∧ user.(u_name) = Some name ∧ user.(u_password) = Some password.

Lemma authenticate_known users name password : is_ok (authenticate users name password) = true → known users name password.
Proof.
  unfold authenticate. destruct (existsb _ users) eqn:E; [|done]. intros _.
  apply existsb_exists in E as (user & Hin%list_elem_of_In & H). bool_to_prop. by exists user.
Qed.

Lemma from_utf8_Ok b v : from_utf8 b = Ok v → v = b.
Proof. unfold from_utf8. destruct (utf8_valid b); [by intros [= ->]|done]. Qed.

Lemma lift_Ok {A} (r : result A) s out a s' : io_lift r s = (out, Ok (a, s')) → r = Ok a ∧ s' = s ∧ out = [].
Proof. unfold io_lift, from_client, lift. destruct r; intros [= <- <-]; done. Qed.

Lemma client_Ok {A} (m : reader A) s out a s' : from_client m s = (out, Ok (a, s')) → m s = Ok (a, s') ∧ out = [].
Proof. by intros [= <- ->]. Qed.

Lemma u8_of_nat z : u8 z → Z.of_nat (Z.to_nat z) = z.
Proof. unfold uint. lia. Qed.

Lemma socks_credentials_sound users s out name s' :
  Forall u8 s → socks_credentials users s = (out, Ok (name, s')) →
  ∃ password rest, known users name password ∧
    s = [1; Z.of_nat (length name)] ++ name ++ [Z.of_nat (length password)] ++ password ++ rest.
Proof.
  intros Hu H. unfold socks_credentials in H.
  apply io_bind_Ok in H as (o1 & v & s1 & o2 & [H1%read_u8_Ok ->]%client_Ok & H & ->).
  destruct (v =? 1) eqn:Ev; cbn [negb] in H; [|done]. bool_to_prop. subst v.
  apply io_bind_Ok in H as (o3 & n & s2 & o4 & [H2%read_u8_Ok ->]%client_Ok & H & ->).
  apply io_bind_Ok in H as (o5 & nm & s3 & o6 & [[H3 Hn]%read_exact_Ok ->]%client_Ok & H & ->).
  apply io_bind_Ok in H as (o7 & p & s4 & o8 & [H4%read_u8_Ok ->]%client_Ok & H & ->).
  apply io_bind_Ok in H as (o9 & pw & s5 & o10 & [[H5 Hp]%read_exact_Ok ->]%client_Ok & H & ->).
  apply io_bind_Ok in H as (o11 & nm' & s6 & o12 & (H6%from_utf8_Ok & -> & ->)%lift_Ok & H & ->).
  apply io_bind_Ok in H as (o13 & pw' & s7 & o14 & (H7%from_utf8_Ok & -> & ->)%lift_Ok & H & ->).
  subst nm' pw'. destruct (is_ok _) eqn:Ea.
  2: { apply io_bind_Ok in H as (? & ? & ? & ? & _ & H & _). done. }
  apply io_bind_Ok in H as (o15 & u & s8 & o16 & _ & H & _). injection H as _ <- _.
  subst s s1 s2 s3 s4. exists pw, s5. split; [by apply authenticate_known|].
  rewrite Forall_cons in Hu. destruct Hu as [_ Hu]. rewrite Forall_cons in Hu. destruct Hu as [Hun Hu].
  rewrite Forall_app in Hu. destruct Hu as [_ Hu]. rewrite Forall_cons in Hu. destruct Hu as [Hup _].
  rewrite Hn, Hp, !u8_of_nat by done. done.
Qed.

Lemma socks_handshake_sound users s out c d user s' :
  Forall u8 s → users ≠ [] → socks_handshake users s = (out, Ok (c, d, user, s')) →
  ∃ name password, user = Some name ∧ known users name password ∧ presented s name password.
Proof.
  intros Hu Hne H. unfold socks_handshake in H.
  apply io_bind_Ok in H as (o1 & v & s1 & o2 & [H1%read_u8_Ok ->]%client_Ok & H & ->).
  destruct (negb (v =? 5)); [done|].
  apply io_bind_Ok in H as (o3 & n & s2 & o4 & [H2%read_u8_Ok ->]%client_Ok & H & ->).
  apply io_bind_Ok in H as (o5 & ms & s3 & o6 & [[H3 _]%read_exact_Ok ->]%client_Ok & H & ->).
  replace (match users with [] => 0 | _ => 2 end) with 2 in H by (by destruct users).
  destruct (negb _); [by apply io_bind_Ok in H as (? & ? & ? & ? & _ & H & _)|].
  apply io_bind_Ok in H as (o7 & [] & s4 & o8 & Hw & H & ->). injection Hw as _ <-.
  apply io_bind_Ok in H as (o9 & auth & s5 & o10 & Ha & H & ->). cbn [Z.eqb Pos.eqb] in Ha.
  apply io_bind_Ok in Ha as (o11 & name & s6 & o12 & Hc & Hr & ->). injection Hr as _ <- _.
  assert (Hu3 : Forall u8 s3).
  { subst s s1 s2. rewrite !Forall_cons, Forall_app in Hu. by destruct Hu as (_ & _ & _ & Hu). }
  destruct (socks_credentials_sound users s3 o11 name s6 Hu3 Hc) as (password & rest & Hk & E).
  exists name, password. split; [|split; [done|]].
  - apply io_bind_Ok in H as (? & ? & ? & ? & _ & H & _). destruct (negb _); [done|].
    apply io_bind_Ok in H as (? & ? & ? & ? & _ & H & _). destruct (negb _); [done|].
    do 2 apply io_bind_Ok in H as (? & ? & ? & ? & _ & H & _). by injection H.
  - subst s s1 s2. apply (presented_socks _ _ _ (v :: n :: ms) rest). by rewrite E.
Qed.

Lemma read_header_split request s r rest : read_header request s = Ok (r, rest) → request ++ s = r ++ rest.
Proof.
  revert request. induction s as [|b s IH]; intros request; cbn [read_header]; destruct (_ <? _); try done.
  - by intros [= <- <-].
  - destruct (ends_with _ _); [intros [= <- <-]|intros H%IH; rewrite <- H]; by rewrite <- app_assoc.
  - by intros [= <- <-].
Qed.

Lemma basic_user_sound users text name :
  basic_user users text = Some name →
  ∃ password, known users name password ∧ basic_credentials text = Some (name ++ c_colon :: password).
Proof.
  unfold basic_user. intros (value & Hv & H)%bind_Some. apply bind_Some in H as ([n p] & Hs & H).
  apply split_once_Some in Hs as [-> _]. destruct (is_ok _) eqn:E; [|done]. injection H as <-.
  exists p. split; [by apply authenticate_known|done].
Qed.

Lemma http_handshake_sound users s out h s' :
  users ≠ [] → http_handshake users s = (out, Ok (h, s')) →
  ∃ name password, auth_user_of h = Some name ∧ known users name password ∧ presented s name password.
Proof.
  intros Hne H. unfold http_handshake in H.
  apply io_bind_Ok in H as (o1 & r & s1 & o2 & [H1%read_header_split _]%client_Ok & H & _).
  destruct (negb _); [done|].
  apply io_bind_Ok in H as (o3 & text & s2 & o4 & (H2%from_utf8_Ok & -> & _)%lift_Ok & H & _). subst text.
  apply io_bind_Ok in H as (o5 & auth & s3 & o6 & Ha & H & _).
  assert (∃ name, auth = Some name ∧ basic_user users r = Some name) as (name & -> & Hb).
  { destruct users as [|u users]; [done|]. destruct (basic_user _ r) as [name|].
    - injection Ha as _ <- _. eauto.
    - by apply io_bind_Ok in Ha as (? & ? & ? & ? & _ & ? & _). }
  destruct (basic_user_sound users r name Hb) as (password & Hk & Hp). exists name, password.
  split; [|split; [done|by eapply (presented_http _ _ _ r s1)]].
  do 4 apply io_bind_Ok in H as (? & ? & ? & ? & _ & H & _). destruct (eq_ignore_ascii_case _ _).
  - apply io_bind_Ok in H as (? & [] & ? & ? & _ & H & _). injection H as _ <- _. done.
  - do 3 apply io_bind_Ok in H as (? & ? & ? & ? & _ & H & _). injection H as _ <- _. done.
Qed.

(** C22: with users configured no inbound lets a client in without the name and password of one of
    them: over SOCKS, HTTP and mixed, a handshake that succeeds names a user whose
    credentials the client sent. *)
Theorem handshake_authenticates protocol users s out h s' :
  users ≠ [] → Forall u8 s → client_handshake protocol users s = (out, Ok (h, s')) →
  ∃ name password, auth_user_of h = Some name ∧ known users name password ∧ presented s name password.
Proof.
  intros Hne Hu H. unfold client_handshake in H.
  apply io_bind_Ok in H as (o1 & selected & s1 & o2 & Hsel & H & _).
  assert (s1 = s) as ->.
  { destruct (str_eqb protocol _).
    - apply io_bind_Ok in Hsel as (? & b & s2 & ? & Hp & Hr & _). injection Hp as _ _ <-. by injection Hr.
    - by injection Hsel. }
  destruct (str_eqb selected (lit "socks")).
  - apply io_bind_Ok in H as (o3 & [[c d] user] & s2 & o4 & Hs & H & _).
    destruct (socks_handshake_sound users s _ _ _ _ _ Hu Hne Hs) as (name & password & -> & Hk & Hp).
    exists name, password. split; [|done]. repeat break_match_hyp H; try done; injection H as _ <- _; done.
  - destruct (str_eqb selected (lit "http")); [|done]. by eapply http_handshake_sound.
Qed.

(** ** A SOCKS client is served *)

Definition client_greeting (methods : bytes) : bytes := [5; Z.of_nat (length methods)] ++ methods.

Definition client_credentials (c : option (str * str)) : bytes :=
  match c with
  | Some (name, password) => [1; Z.of_nat (length name)] ++ name ++ [Z.of_nat (length password)] ++ password
  | None => []
  end.

(** What the client needs: the method the server asks for, and its credentials. *)
Definition acceptable_client (users : list User) (methods : bytes) (c : option (str * str)) : Prop :=
  match users, c with
  | [], None => 0 ∈ methods
  | _ :: _, Some (name, password) =>
    2 ∈ methods ∧ known users name password ∧ rust_str name ∧ rust_str password ∧
    (length name ≤ 255)%nat ∧ (length password ≤ 255)%nat
  | _, _ => False
  end.

Lemma io_bind_run {A B} (m : io A) (f : A → io B) s o1 a s1 o2 r :
  m s = (o1, Ok (a, s1)) → f a s1 = (o2, r) → (a ← m; f a) s = (o1 ++ o2, r).
Proof. intros H1 H2. unfold mbind, io_bind. by rewrite H1, H2. Qed.

Lemma run_client {A} (m : reader A) s a s1 : m s = Ok (a, s1) → from_client m s = ([], Ok (a, s1)).
Proof. intros H. unfold from_client. by rewrite H. Qed.

Lemma known_authenticate users name password : known users name password → is_ok (authenticate users name password) = true.
Proof.
  intros (user & Hin & Hn & Hp). unfold authenticate.
  assert (existsb (λ user, bool_decide (user.(u_name) = Some name) && bool_decide (user.(u_password) = Some password))
    users = true) as ->; [|done].
  apply existsb_exists. exists user. split; [by apply list_elem_of_In|]. by rewrite !bool_decide_eq_true_2.
Qed.

Lemma socks_credentials_run users name password rest :
  known users name password → rust_str name → rust_str password →
  socks_credentials users (client_credentials (Some (name, password)) ++ rest) = ([1; 0], Ok (name, rest)).
Proof.
  intros Hk Hn Hp. unfold client_credentials. rewrite <- !app_assoc. cbn [app].
  eapply (io_bind_run _ _ _ [] _ _ [1; 0]); [by apply run_client|]. cbn [Z.eqb Pos.eqb negb].
  eapply (io_bind_run _ _ _ [] _ _ [1; 0]); [by apply run_client|].
  eapply (io_bind_run _ _ _ [] _ _ [1; 0]); [apply run_client, read_exact_app; lia|].
  eapply (io_bind_run _ _ _ [] _ _ [1; 0]); [by apply run_client|].
  eapply (io_bind_run _ _ _ [] _ _ [1; 0]); [apply run_client, read_exact_app; lia|].
  eapply (io_bind_run _ _ _ [] _ _ [1; 0]); [unfold io_lift; by rewrite from_utf8_ok|].
  eapply (io_bind_run _ _ _ [] _ _ [1; 0]); [unfold io_lift; by rewrite from_utf8_ok|].
  by rewrite known_authenticate.
Qed.

Lemma socks_address_run d prefix request rest :
  encodable d → encode_address prefix d = Ok (prefix ++ request) → socks_address (request ++ rest) = Ok (d, rest).
Proof.
  intros [[Hp Hd] Hl] He. unfold socks_address. destruct d as [[ip|ip] port|name port]; cbn [encode_address Vless.port] in *.
  - apply Ok_inj, app_inv_head in He as <-. cbn [app]. rewrite <- !app_assoc. repeat read_step.
    by rewrite of_be_to_be.
  - apply Ok_inj, app_inv_head in He as <-. cbn [app]. rewrite <- !app_assoc. repeat read_step.
    by rewrite of_be_to_be.
  - apply bind_Ok in He as (n & [_ ->]%context_Ok%try_uint_Some & He). apply Ok_inj, app_inv_head in He as <-.
    cbn [app]. rewrite <- !app_assoc. do 3 read_step. rewrite from_utf8_ok by done. repeat read_step. done.
Qed.
Definition server_method (users : list User) : Z := match users with [] => 0 | _ => 2 end.

Definition server_replies (users : list User) : bytes :=
  [5; server_method users] ++ match users with [] => [] | _ => [1; 0] end.

Lemma socks_handshake_run users methods c command d request rest :
  acceptable_client users methods c → encodable d → command = 1 ∨ command = 3 → (length methods ≤ 255)%nat →
  encode_address [5; command; 0] d = Ok request →
  socks_handshake users (client_greeting methods ++ client_credentials c ++ request ++ rest) =
    (server_replies users, Ok (command, d, fst <$> c, rest)).
Proof.
  intros Hc Hd Hcmd Hm He. destruct (encode_address_ok [5; command; 0] d Hd) as (b & body & He').
  rewrite He in He'. apply Ok_inj in He' as ->. pose proof (socks_address_run d _ _ rest Hd He) as Ha.
  unfold client_greeting. rewrite <- !app_assoc. cbn [app].
  eapply (io_bind_run _ _ _ [] _ _ (server_replies users)); [by apply run_client|]. cbn [Z.eqb Pos.eqb negb].
  eapply (io_bind_run _ _ _ [] _ _ (server_replies users)); [by apply run_client|].
  eapply (io_bind_run _ _ _ [] _ _ (server_replies users)); [apply run_client, read_exact_app; lia|].
  rewrite bool_decide_eq_true_2 by (by destruct users, c as [[]|]; cbn in Hc; try done; destruct Hc). cbn [negb].
  eapply (io_bind_run _ _ _ [5; server_method users]); [by destruct users|].
  rewrite <- (app_nil_r (match users with [] => [] | _ => [1; 0] end)).
  eapply (io_bind_run _ _ _ (match users with [] => [] | _ => [1; 0] end) (fst <$> c)
    (5 :: command :: 0 :: b :: body ++ rest) []).
  - destruct users as [|u users], c as [[name password]|]; cbn in Hc; try done.
    destruct Hc as (_ & Hk & Hn & Hp & _). cbn [Z.eqb Pos.eqb].
    eapply (io_bind_run _ _ _ [1; 0] _ _ []); [by apply socks_credentials_run|done].
  - eapply (io_bind_run _ _ _ [] _ _ []); [by apply run_client|]. cbn [Z.eqb Pos.eqb negb].
    eapply (io_bind_run _ _ _ [] _ _ []); [by apply run_client|].
    assert ((command =? 1) || (command =? 3) = true) as -> by (by destruct Hcmd as [-> | ->]). cbn [negb].
    eapply (io_bind_run _ _ _ [] _ _ []); [by apply run_client|].
    eapply (io_bind_run _ _ _ [] _ _ []); [by apply run_client|done].
Qed.

(** A SOCKS client that offers the method the inbound asks for, with the credentials of a
    user where there are users, is served by the socks and the mixed inbound: the
    handshake ends with the destination of the request, the replies of the protocol
    have been written, and what the client sends next is untouched. *)
Theorem socks_client_served protocol users methods c command d request rest :
  protocol = lit "socks" ∨ protocol = lit "mixed" → acceptable_client users methods c → encodable d →
  command = 1 ∨ command = 3 → (length methods ≤ 255)%nat → encode_address [5; command; 0] d = Ok request →
  client_handshake protocol users (client_greeting methods ++ client_credentials c ++ request ++ rest) =
    (server_replies users,
     Ok (if command =? 1 then TcpHandshake d (Some [5; 0; 0; 1; 0; 0; 0; 0; 0; 0]) [] (fst <$> c)
         else UdpHandshake (fst <$> c), rest)).
Proof.
  intros Hpr Hc Hd Hcmd Hm He. unfold client_handshake.
  eapply (io_bind_run _ _ _ [] (lit "socks") _ (server_replies users)); [by destruct Hpr as [-> | ->]|].
  assert (str_eqb (lit "socks") (lit "socks") = true) as -> by done.
  rewrite <- (app_nil_r (server_replies users)). eapply io_bind_run; [by apply socks_handshake_run|].
  by destruct Hcmd as [-> | ->].
Qed.

(** ** The forwarded request *)

Lemma lines_loop_app line l rest : 10 ∉ l → lines_loop line (l ++ crlf ++ rest) = (line ++ l) :: lines rest.
Proof.
  revert line. induction l as [|c l IH]; intros line Hl.
  - cbn [app crlf lines_loop Z.eqb Pos.eqb]. rewrite app_nil_r. f_equal.
    by rewrite (proj2 (strip_suffix_Some [13] (line ++ [13]) line)).
  - apply not_elem_of_cons in Hl as [Hc Hl]. cbn [app lines_loop]. rewrite (proj2 (Z.eqb_neq c 10)) by done.
    rewrite IH by done. by rewrite <- app_assoc.
Qed.

Lemma lines_app l rest : 10 ∉ l → lines (l ++ crlf ++ rest) = l :: lines rest.
Proof. apply (lines_loop_app []). Qed.

Lemma lines_concat ls rest :
  Forall (λ l, 10 ∉ l) ls → lines (concat ((λ h, h ++ crlf) <$> ls) ++ rest) = ls ++ lines rest.
Proof.
  induction 1 as [|l ls Hl _ IH]; [done|]. cbn [fmap list_fmap concat]. rewrite <- !app_assoc.
  rewrite lines_app by done. by rewrite IH.
Qed.

Lemma lines_loop_lines line s : 10 ∉ line → Forall (λ l, 10 ∉ l) (lines_loop line s).
Proof.
  revert line. induction s as [|c s IH]; intros line Hl; cbn [lines_loop].
  - destruct line; [done|]. by apply Forall_singleton.
  - destruct (c =? 10) eqn:E; bool_to_prop.
    + apply Forall_cons. split; [|apply IH; apply not_elem_of_nil].
      destruct (strip_suffix [13] line) as [l|] eqn:Es; cbn; [|done].
      apply strip_suffix_Some in Es as ->. intros H. apply Hl, elem_of_app. by left.
    + apply IH. rewrite elem_of_app, list_elem_of_singleton. intros [?|?]; [done|congruence].
Qed.

Lemma take_headers_Forall (P : str → Prop) ls : Forall P ls → Forall P (take_headers ls).
Proof. induction 1 as [|l ls Hl _ IH]; cbn; [done|]. destruct l; [done|]. by apply Forall_cons. Qed.

Lemma split_words_lines skip word s : 10 ∉ word → Forall (λ w, 10 ∉ w) (split_words skip word s).
Proof.
  revert skip word. induction s as [|c s IH]; intros skip word Hw; cbn [split_words].
  - destruct word; [done|]. by apply Forall_singleton.
  - destruct skip as [|k]; [|by apply IH]. destruct (whitespace (c :: s)) as [|k] eqn:E.
    + apply IH. rewrite elem_of_app, list_elem_of_singleton. intros [?|<-]; [done|]. cbn in E. done.
    + apply Forall_app. split; [|apply IH, not_elem_of_nil]. destruct word; [done|]. by apply Forall_singleton.
Qed.

Definition initial_of (h : Handshake) : bytes :=
  match h with TcpHandshake _ _ initial _ => initial | UdpHandshake _ => [] end.

Lemma ret_initial h s out h' s' : (mret h : io Handshake) s = (out, Ok (h', s')) → initial_of h' = initial_of h.
Proof. by intros [= _ <- _]. Qed.

(** A request in absolute form is forwarded with the client's method, version and
    headers, line by line and in order, without the headers meant for the proxy:
    credentials do not leave it. *)
Theorem forwarded_request `{!ProxyLaws L} protocol users s out d initial user s' :
  client_handshake protocol users s = (out, Ok (TcpHandshake d None initial user, s')) →
  ∃ text rest line, s = text ++ rest ∧
    lines initial = line :: List.filter (λ h, negb (is_proxy_header h)) (take_headers (drop 1 (lines text))) ++ [[]].
Proof.
  intros H. unfold client_handshake in H.
  apply io_bind_Ok in H as (o1 & selected & s1 & o2 & Hsel & H & _).
  assert (s1 = s) as ->.
  { destruct (str_eqb protocol _).
    - apply io_bind_Ok in Hsel as (? & b & s2 & ? & Hp & Hr & _). injection Hp as _ _ <-. by injection Hr.
    - by injection Hsel. }
  destruct (str_eqb selected (lit "socks")).
  { apply io_bind_Ok in H as (o3 & [[c d'] u] & s2 & o4 & _ & H & _). by repeat break_match_hyp H. }
  destruct (str_eqb selected (lit "http")); [|done]. unfold http_handshake in H.
  apply io_bind_Ok in H as (o3 & r & s1 & o4 & [H1%read_header_split _]%client_Ok & H & _). destruct (negb _); [done|].
  apply io_bind_Ok in H as (o5 & text & s2 & o6 & (H2%from_utf8_Ok & -> & _)%lift_Ok & H & _). subst text.
  apply io_bind_Ok in H as (? & ? & ? & ? & _ & H & _). apply io_bind_Ok in H as (? & line & ? & ? & _ & H & _).
  apply io_bind_Ok in H as (? & method & ? & ? & (Hme%context_Ok & _)%lift_Ok & H & _).
  apply io_bind_Ok in H as (? & target & ? & ? & _ & H & _).
  apply io_bind_Ok in H as (? & version & ? & ? & (Hv%context_Ok & _)%lift_Ok & H & _).
  destruct (eq_ignore_ascii_case _ _).
  { apply io_bind_Ok in H as (? & [] & ? & ? & _ & H & _). done. }
  apply io_bind_Ok in H as (? & url & ? & ? & _ & H & _). do 2 apply io_bind_Ok in H as (? & ? & ? & ? & _ & H & _).
  apply ret_initial in H. cbn [initial_of] in H. subst initial.
  set (path := match target_query url with Some q => _ | None => _ end).
  exists r, s1, (method ++ lit " " ++ path ++ lit " " ++ version). split; [done|].
  assert (Hword : ∀ i w, split_whitespace line !! i = Some w → 10 ∉ w).
  { intros i w. apply (Forall_lookup_1 (λ w, 10 ∉ w)), split_words_lines, not_elem_of_nil. }
  assert (Hpath : 10 ∉ path).
  { subst path. destruct (target_query url) as [q|] eqn:E; [|apply path_line]. apply query_line in E.
    rewrite !elem_of_app. intros [?|[H|?]]; [by eapply path_line|vm_compute in H|done].
    by apply list_elem_of_singleton in H. }
  assert (Hspace : 10 ∉ lit " ") by (by intros H%list_elem_of_singleton).
  replace (method ++ lit " " ++ path ++ lit " " ++ version ++ crlf ++ forwarded_headers r ++ crlf) with
    ((method ++ lit " " ++ path ++ lit " " ++ version) ++ crlf ++ forwarded_headers r ++ crlf ++ [])
    by (by rewrite <- !app_assoc, app_nil_r).
  rewrite lines_app by (rewrite !elem_of_app; naive_solver). f_equal. unfold forwarded_headers.
  rewrite lines_concat; [f_equal; by rewrite (lines_app [] []) by apply not_elem_of_nil|].
  apply Forall_forall. intros h [_ Hh]%list_elem_of_In%List.filter_In%and_comm. apply list_elem_of_In in Hh. revert h Hh.
  apply Forall_forall, take_headers_Forall, Forall_drop, lines_loop_lines, not_elem_of_nil.
Qed.

End handshakes.

(** The crates give the host of an IPv6 authority with its brackets, and the text in
    brackets is not an address: the destination is a name that no resolver knows. *)
Lemma bracketed_host_is_a_name h p : parse_destination (c_lbracket :: h) p = Domain (c_lbracket :: h) p.
Proof. reflexivity. Qed.

(** ** Witnesses *)

(** A concrete library: URLs of the form http://host/path, no credentials over HTTP. *)
Definition toy_parse (s : str) : option (str * str) :=
  rest ← strip_prefix (lit "http://") s;
  '(host, path) ← split_once c_slash rest;
  Some (host, c_slash :: List.filter (λ c, negb (c =? 10)) path).

#[local] Instance toy_lib : ProxyLib := {|
  std_decode _ := None;
  authority_parse s := Some (s, None);
  TargetUrl := str * str;
  target_parse := toy_parse;
  host_str u := Some u.1;
  port_or_known_default _ := Some 80;
  target_path u := List.filter (λ c, negb (c =? 10)) u.2;
  target_query _ := None;
|}.

#[local] Instance toy_laws : ProxyLaws toy_lib.
Proof.
  split; [|done]. intros [h path] H. cbn in H. apply list_elem_of_In, List.filter_In in H as [_ H]. done.
Qed.

Definition sample_users : list User := [mkUser (Some (lit "ann")) None (Some (lit "pw")) None].

Definition sample_socks : bytes :=
  client_greeting [0; 2] ++ client_credentials (Some (lit "ann", lit "pw")) ++ [5; 1; 0; 1; 10; 0; 0; 1; 0; 80] ++ [42].

Lemma sample_known : known sample_users (lit "ann") (lit "pw").
Proof. exists (mkUser (Some (lit "ann")) None (Some (lit "pw")) None). split; [by left|done]. Qed.

Lemma socks_client_served_witness :
  client_handshake (lit "mixed") sample_users sample_socks =
    ([5; 2; 1; 0],
     Ok (TcpHandshake (Ip (V4 0x0a000001) 80) (Some [5; 0; 0; 1; 0; 0; 0; 0; 0; 0]) [] (Some (lit "ann")), [42])).
Proof.
  refine (socks_client_served (lit "mixed") sample_users [0; 2] (Some (lit "ann", lit "pw")) 1 (Ip (V4 0x0a000001) 80)
    [5; 1; 0; 1; 10; 0; 0; 1; 0; 80] [42] _ _ _ _ _ eq_refl).
  - by right.
  - split; [right; left|]. split; [exact sample_known|]. by repeat split; repeat constructor.
  - by repeat split.
  - by left.
  - cbn. lia.
Defined.

Lemma handshake_authenticates_witness :
  ∃ out h s', client_handshake (lit "socks") sample_users sample_socks = (out, Ok (h, s')) ∧
    ∃ name password, auth_user_of h = Some name ∧ known sample_users name password ∧
      presented sample_socks name password.
Proof.
  destruct (client_handshake (lit "socks") sample_users sample_socks) as [out [[h s']|e| |]] eqn:E;
    [|exfalso; vm_compute in E; discriminate E..].
  exists out, h, s'. split; [reflexivity|].
  refine (handshake_authenticates (lit "socks") sample_users sample_socks out h s' _ _ E); [done|].
  apply (bool_decide_unpack _). vm_compute. exact I.
Defined.

Definition sample_http : bytes :=
  lit "GET http://a.org/x HTTP/1.1" ++ crlf ++ lit "Host: a.org" ++ crlf ++ lit "Proxy-Connection: close" ++ crlf ++
  lit "Accept: */*" ++ crlf ++ crlf.

Lemma forwarded_request_witness :
  ∃ out d initial user s', client_handshake (lit "mixed") [] sample_http = (out, Ok (TcpHandshake d None initial user, s')) ∧
    initial = lit "GET /x HTTP/1.1" ++ crlf ++ lit "Host: a.org" ++ crlf ++ lit "Accept: */*" ++ crlf ++ crlf ∧
    ∃ text rest line, sample_http = text ++ rest ∧
      lines initial = line :: List.filter (λ h, negb (is_proxy_header h)) (take_headers (drop 1 (lines text))) ++ [[]].
Proof.
  destruct (client_handshake (lit "mixed") [] sample_http) as [out [[[d [r|] initial user|u] s']|e| |]] eqn:E;
    [exfalso; vm_compute in E; discriminate E| |exfalso; vm_compute in E; discriminate E..].
  exists out, d, initial, user, s'. split; [reflexivity|]. split.
  - vm_compute in E. injection E as _ _ <- _ _. reflexivity.
  - exact (forwarded_request (lit "mixed") [] sample_http out d initial user s' E).
Defined.
