(* ===== verification/Outbound.v ===== *)
(** * Outbounds and groups (src/src/proxy/mod.rs)

    The table of outbounds, the groups that forward to a member of theirs, the
    resolution of a tag to the outbound that dials, and the test that picks the
    fastest member.  A group is shared: the table and the controller hold the same
    one, so groups live in a store and the table refers to them. *)

From S2P Require Import Prelude RustStr Net Util Vless.

Inductive GroupKind := Selector | UrlTest.

Record Group := mkGroup {
  g_kind : GroupKind;
  members : list str;
  selected : str;
  g_url : option str;
  interval : Z;
  tolerance : Z;
}.

(** [Group::new] *)
Definition group_new (kind : GroupKind) (members : list str) (default_ : option str) (url : option str)
    (interval : option str) (tolerance : option Z) : result Group :=
  selected ← context (match default_ with Some d => Some d | None => head members end)
               "group requires a default member";
  Ok (mkGroup kind members selected url (Z.max (parse_duration_lenient interval) secs) (default 50 tolerance)).

(** [Group::select]: a tag that is no member is refused. *)
Definition select (g : Group) (tag : str) : Group * bool :=
  if existsb (str_eqb tag) g.(members)
  then (mkGroup g.(g_kind) g.(members) tag g.(g_url) g.(interval) g.(tolerance), true) else (g, false).

Section runtime.
(** [anytls::Client] and [client::Client] *)
Context {AnyTlsClient XhttpClient : Type}.

Inductive Dialer :=
  | Direct
  | Block
  | AnyTls (client : AnyTlsClient)
  | VlessDialer (client : XhttpClient) (user : str) (xudp : bool)
  | GroupDialer (group : nat).

(** The part of [ProxyRuntime] that routing uses; [store] holds the groups. *)
Record Runtime := mkRuntime {
  dialers : gmap str Dialer;
  groups : gmap str nat;
  store : gmap nat Group;
}.

(** [resolve_grouped_dialer]: at most eight steps from group to member. *)
Fixpoint resolve_loop (steps : nat) (rt : Runtime) (current : str) : option Dialer :=
  match steps with
  | O => None
  | S steps =>
    match rt.(dialers) !! current with
    | Some (GroupDialer g) =>
      match rt.(store) !! g with Some g => resolve_loop steps rt g.(selected) | None => None end
    | r => r
    end
  end.

Definition resolve_grouped_dialer (rt : Runtime) (tag : str) : option Dialer := resolve_loop 8 rt tag.
Definition dialer_for (rt : Runtime) (tag : str) : option Dialer := resolve_grouped_dialer rt tag.

Definition is_group (rt : Runtime) (tag : str) : bool := bool_decide (is_Some (rt.(groups) !! tag)).

(** [outbound_tags]: groups first; the order of a hash map is a parameter. *)
Definition outbound_tags (group_keys dialer_keys : list str) (rt : Runtime) : list str :=
  group_keys ++ List.filter (λ tag, negb (is_group rt tag)) dialer_keys.

Definition set_group (rt : Runtime) (id : nat) (g : Group) : Runtime :=
  mkRuntime rt.(dialers) rt.(groups) (<[id := g]> rt.(store)).

(** Selecting in the group of a tag, as the controller does. *)
Definition select_in (rt : Runtime) (tag member : str) : Runtime * bool :=
  match rt.(groups) !! tag with
  | Some id =>
    match rt.(store) !! id with
    | Some g => let '(g, ok) := select g member in (set_group rt id g, ok)
    | None => (rt, false)
    end
  | None => (rt, false)
  end.

(** ** The latency test *)

(** [delay + tolerance] on [u16]: a checked build panics, another one wraps. *)
Definition add_u16 (checks : bool) (a b : Z) : result Z :=
  if checks then checked_or_panic 16 (a + b) else Ok (wrapping_add 16 a b).

(** The scan over the members: [dial] and [probe] are what the runtime and the network
    answer in each turn. *)
Fixpoint test_loop (checks : bool) (dial : nat → str → option Dialer) (probe : nat → Dialer → option Z) (tolerance : Z)
    (turn : nat) (ms : list str) (best : option (str * Z)) : result (option (str * Z)) :=
  match ms with
  | [] => Ok best
  | member :: ms =>
    match d ← dial turn member; probe turn d with
    | Some delay =>
      match best with
      | Some (_, best_delay) =>
        sum ← add_u16 checks delay tolerance;
        test_loop checks dial probe tolerance (S turn) ms (if best_delay <=? sum then best else Some (member, delay))
      | None => test_loop checks dial probe tolerance (S turn) ms (Some (member, delay))
      end
    | None => test_loop checks dial probe tolerance (S turn) ms best
    end
  end.

Definition run_url_test (checks : bool) (dial : nat → str → option Dialer) (probe : nat → Dialer → option Z) (g : Group)
    : result Group :=
  best ← test_loop checks dial probe g.(tolerance) 0 g.(members) None;
  Ok (match best with Some (tag, _) => (select g tag).1 | None => g end).

(** ** Resolution *)

(** The members a tag leads to: [k] groups, then an outbound that dials. *)
Inductive leads_to (rt : Runtime) : str → nat → Dialer → Prop :=
  | leads_leaf tag d : rt.(dialers) !! tag = Some d → (∀ g, d ≠ GroupDialer g) → leads_to rt tag 0 d
  | leads_group tag id g k d :
      rt.(dialers) !! tag = Some (GroupDialer id) → rt.(store) !! id = Some g → leads_to rt g.(selected) k d →
      leads_to rt tag (S k) d.

Lemma resolve_loop_leads steps rt tag d :
  resolve_loop steps rt tag = Some d ↔ ∃ k, (k < steps)%nat ∧ leads_to rt tag k d.
Proof.
  revert tag. induction steps as [|steps IH]; intros tag; cbn [resolve_loop].
  - split; [done|]. intros (k & ? & _). lia.
  - split.
    + destruct (rt.(dialers) !! tag) as [dl|] eqn:E; [|done].
      assert (Hleaf : (∀ g, dl ≠ GroupDialer g) → Some dl = Some d → ∃ k, (k < S steps)%nat ∧ leads_to rt tag k d).
      { intros Hd [= <-]. exists 0%nat. split; [lia|by constructor]. }
      destruct dl as [| | | |id]; try (by apply Hleaf).
      destruct (rt.(store) !! id) as [g|] eqn:Eg; [|done]. intros (k & Hk & Hl)%IH.
      exists (S k). split; [lia|by econstructor].
    + intros (k & Hk & Hl). destruct Hl as [tag d Hd Hn|tag id g k d Hd Hg Hl]; rewrite Hd.
      * destruct d as [| | | |id]; try done. by destruct (Hn id).
      * rewrite Hg. apply IH. exists k. split; [lia|done].
Qed.

Lemma leads_to_leaf rt tag k d : leads_to rt tag k d → ∀ g, d ≠ GroupDialer g.
Proof. by induction 1. Qed.

(** A tag that routing hands over resolves to an outbound that dials, never to a group, and
    exactly when at most seven groups lie in between: the relays' branches for an
    unresolved group are unreachable. *)
Theorem dialer_for_leaf rt tag d :
  dialer_for rt tag = Some d ↔ (∃ k, (k < 8)%nat ∧ leads_to rt tag k d) ∧ ∀ g, d ≠ GroupDialer g.
Proof.
  unfold dialer_for, resolve_grouped_dialer. rewrite resolve_loop_leads. split; [|by intros [H _]].
  intros (k & Hk & H). split; [by exists k|by eapply leads_to_leaf].
Qed.

(** Two groups that select each other never resolve. *)
Lemma group_cycle rt a b ia ib ga gb :
  rt.(dialers) !! a = Some (GroupDialer ia) → rt.(dialers) !! b = Some (GroupDialer ib) →
  rt.(store) !! ia = Some ga → rt.(store) !! ib = Some gb → ga.(selected) = b → gb.(selected) = a →
  dialer_for rt a = None.
Proof.
  intros Ha Hb Hia Hib Hsa Hsb. unfold dialer_for, resolve_grouped_dialer.
  assert (Hc : ∀ n, resolve_loop n rt a = None ∧ resolve_loop n rt b = None).
  { induction n as [|n [IHa IHb]]; [done|]. cbn [resolve_loop]. by rewrite Ha, Hb, Hia, Hib, Hsa, Hsb. }
  apply Hc.
Qed.

(** ** Selections stay members *)

(** Every group in the table is in the store, its selection is one of its members and
    its members are in the table. *)
Definition runtime_ok (rt : Runtime) : Prop :=
  (∀ tag id, rt.(groups) !! tag = Some id → rt.(dialers) !! tag = Some (GroupDialer id)) ∧
  (∀ tag id, rt.(dialers) !! tag = Some (GroupDialer id) → is_Some (rt.(store) !! id)) ∧
  (∀ id g, rt.(store) !! id = Some g → g.(selected) ∈ g.(members) ∧ Forall (λ m, is_Some (rt.(dialers) !! m)) g.(members)).

Lemma select_members g tag : (select g tag).1.(members) = g.(members).
Proof. unfold select. by destruct (existsb _ _). Qed.

Lemma select_selected g tag : g.(selected) ∈ g.(members) → (select g tag).1.(selected) ∈ g.(members).
Proof.
  intros Hg. unfold select. destruct (existsb (str_eqb tag) g.(members)) eqn:E; cbn; [|done].
  apply existsb_exists in E as (x & Hx & ->%str_eqb_eq). by apply list_elem_of_In.
Qed.

Lemma set_group_ok rt id g g' :
  runtime_ok rt → rt.(store) !! id = Some g → g'.(members) = g.(members) → g'.(selected) ∈ g.(members) →
  runtime_ok (set_group rt id g').
Proof.
  intros (Hgr & Hd & Hs) Hg Hm Hsel. split_and!; cbn; [done| |].
  - intros tag id' H. destruct (decide (id' = id)) as [->|]; [by rewrite lookup_insert_eq|].
    rewrite lookup_insert_ne by done. by eapply Hd.
  - intros id' g''. destruct (decide (id' = id)) as [->|].
    + rewrite lookup_insert_eq. intros [= <-]. rewrite Hm. split; [done|]. by eapply Hs.
    + rewrite lookup_insert_ne by done. apply Hs.
Qed.

Lemma test_loop_choice checks dial probe t turn ms best r :
  test_loop checks dial probe t turn ms best = Ok r → r = best ∨ ∃ m d, r = Some (m, d) ∧ m ∈ ms.
Proof.
  revert turn best. induction ms as [|m ms IH]; intros turn best; cbn [test_loop]; [by intros [= <-]; left|].
  assert (Hnext : ∀ b, test_loop checks dial probe t (S turn) ms b = Ok r → (b = best ∨ ∃ d, b = Some (m, d)) →
    r = best ∨ ∃ m' d, r = Some (m', d) ∧ m' ∈ m :: ms).
  { intros b H Hb. apply IH in H as [->|(m' & d & -> & Hm)]; [|right; exists m', d; split; [done|by right]].
    destruct Hb as [->|[d ->]]; [by left|]. right. exists m, d. split; [done|by left]. }
  destruct (d ← dial turn m; probe turn d) as [delay|]; [|intros H; apply (Hnext _ H); by left].
  destruct best as [[bm bd]|]; [|intros H; apply (Hnext _ H); right; eauto].
  intros H. apply bind_Ok in H as (sum & _ & H). apply (Hnext _ H). destruct (bd <=? sum); [by left|right; eauto].
Qed.

(** What changes a group at run time: the controller and the latency test. *)
Inductive group_step : Runtime → Runtime → Prop :=
  | step_select rt tag member : group_step rt (select_in rt tag member).1
  | step_test rt id g checks dial probe g' :
      rt.(store) !! id = Some g → run_url_test checks dial probe g = Ok g' → group_step rt (set_group rt id g').

Lemma group_step_ok rt rt' : runtime_ok rt → group_step rt rt' → runtime_ok rt'.
Proof.
  intros Hok Hstep. destruct Hstep as [rt tag member|rt id g checks dial probe g' Hg Ht].
  - unfold select_in. destruct (rt.(groups) !! tag) as [id|]; [|done]. destruct (rt.(store) !! id) as [g|] eqn:Hg; [|done].
    destruct (select g member) as [g' ok] eqn:E. cbn [fst]. apply (f_equal fst) in E. cbn [fst] in E. subst g'.
    eapply set_group_ok; [done|done|apply select_members|apply select_selected].
    by destruct Hok as (_ & _ & H); apply H in Hg as [? _].
  - assert (Hsel : g.(selected) ∈ g.(members)) by (by destruct Hok as (_ & _ & H); apply H in Hg as [? _]).
    unfold run_url_test in Ht. apply bind_Ok in Ht as (best & _ & [= <-]).
    destruct best as [[tag d]|]; eapply set_group_ok; try done; [apply select_members|by apply select_selected].
Qed.

(** Whatever the controller selects and the latency tests measure, in any order, every group
    forwards to one of its own members and that member is an outbound of the table. *)
Theorem selections_stay_valid rt rt' :
  runtime_ok rt → rtc group_step rt rt' → runtime_ok rt'.
Proof. intros Hok Hs. induction Hs as [|rt rt1 rt2 Hstep _ IH]; [done|]. apply IH. by eapply group_step_ok. Qed.

(** ** The latency test picks a fast member *)

Section latency.
Context (checks : bool) (dial : nat → str → option Dialer) (probe : nat → Dialer → option Z) (t : Z).

Definition measured (turn : nat) (member : str) : option Z := d ← dial turn member; probe turn d.

Context (no_overflow : ∀ turn member delay, measured turn member = Some delay → 0 ≤ delay ∧ delay + t < 2 ^ 16).
Context (t_nonneg : 0 ≤ t).

Lemma add_u16_ok delay : 0 ≤ delay → delay + t < 2 ^ 16 → add_u16 checks delay t = Ok (delay + t).
Proof.
  intros Hd Ht. unfold add_u16, checked_or_panic, wrapping_add. destruct checks.
  - by rewrite (proj2 (andb_true_iff _ _)) by (split; lia).
  - by rewrite Z.mod_small by lia.
Qed.

Lemma test_loop_spec ms : ∀ turn best, ∃ r, test_loop checks dial probe t turn ms best = Ok r ∧
  (r = best ∨ ∃ i m d, ms !! i = Some m ∧ measured (turn + i) m = Some d ∧ r = Some (m, d)) ∧
  (∀ bm bd, best = Some (bm, bd) → ∃ m d, r = Some (m, d) ∧ d ≤ bd) ∧
  (∀ i m d, ms !! i = Some m → measured (turn + i) m = Some d → ∃ m' d', r = Some (m', d') ∧ d' ≤ d + t).
Proof.
  induction ms as [|m ms IH]; intros turn best.
  { exists best. split; [done|]. split; [by left|]. split; [|done]. intros bm bd ->. exists bm, bd. split; [done|lia]. }
  cbn [test_loop]. fold (measured turn m).
  assert (Hnext : ∀ b, (b = best ∨ ∃ d, measured turn m = Some d ∧ b = Some (m, d)) →
    (∀ bm bd, best = Some (bm, bd) → ∃ m d, b = Some (m, d) ∧ d ≤ bd) →
    (∀ d, measured turn m = Some d → ∃ m' d', b = Some (m', d') ∧ d' ≤ d + t) →
    ∃ r, test_loop checks dial probe t (S turn) ms b = Ok r ∧
    (r = best ∨ ∃ i m0 d, (m :: ms) !! i = Some m0 ∧ measured (turn + i) m0 = Some d ∧ r = Some (m0, d)) ∧
    (∀ bm bd, best = Some (bm, bd) → ∃ m d, r = Some (m, d) ∧ d ≤ bd) ∧
    (∀ i m0 d, (m :: ms) !! i = Some m0 → measured (turn + i) m0 = Some d → ∃ m' d', r = Some (m', d') ∧ d' ≤ d + t)).
  { intros b Hb Hle Hm. destruct (IH (S turn) b) as (r & Hr & Hfrom & Hdec & Hall). exists r. split; [done|]. split_and!.
    - destruct Hfrom as [->|(i & m' & d & Hi & Hd & ->)].
      + destruct Hb as [->|(d & Hd & ->)]; [by left|]. right. exists 0%nat, m, d. by rewrite Nat.add_0_r.
      + right. exists (S i), m', d. by rewrite <- Nat.add_succ_comm.
    - intros bm bd Hbest. destruct (Hle bm bd Hbest) as (m1 & d1 & -> & H1).
      destruct (Hdec m1 d1 eq_refl) as (m2 & d2 & -> & H2). exists m2, d2. split; [done|lia].
    - intros [|i] m0 d; cbn [lookup list_lookup].
      + intros [= <-]. rewrite Nat.add_0_r. intros (m1 & d1 & -> & H1)%Hm.
        destruct (Hdec m1 d1 eq_refl) as (m2 & d2 & -> & H2). exists m2, d2. split; [done|lia].
      + rewrite <- Nat.add_succ_comm. apply Hall. }
  destruct (measured turn m) as [delay|] eqn:Em.
  2: { apply Hnext; [by left| |done]. intros bm bd ->. exists bm, bd. split; [done|lia]. }
  destruct (no_overflow turn m delay Em) as [Hd Ht]. destruct best as [[bm bd]|].
  - rewrite add_u16_ok by done. cbn [mbind result_bind]. destruct (bd <=? delay + t) eqn:E; bool_to_prop.
    + apply Hnext; [by left| |]; intros; simplify_eq; eexists _, _; (split; [done|lia]).
    + apply Hnext; [right; eauto| |]; intros; simplify_eq; eexists _, _; (split; [done|lia]).
  - apply Hnext; [right; eauto|done|]. intros; simplify_eq; eexists _, _; (split; [done|lia]).
Qed.

End latency.

(** A latency test that finds a member that answers selects one whose delay is within the
    tolerance of every member that answered; when no member answers the selection
    stays.  No sum of a delay and the tolerance may exceed 16 bits. *)
Theorem url_test_selects_fast checks dial probe g :
  0 ≤ g.(tolerance) →
  (∀ turn member delay, measured dial probe turn member = Some delay → 0 ≤ delay ∧ delay + g.(tolerance) < 2 ^ 16) →
  ∃ g', run_url_test checks dial probe g = Ok g' ∧
    ((∀ i m, g.(members) !! i = Some m → measured dial probe i m = None) ∧ g' = g ∨
     ∃ i delay, g.(members) !! i = Some g'.(selected) ∧ measured dial probe i g'.(selected) = Some delay ∧
       ∀ j m d, g.(members) !! j = Some m → measured dial probe j m = Some d → delay ≤ d + g.(tolerance)).
Proof.
  intros Ht Hno. destruct (test_loop_spec checks dial probe g.(tolerance) Hno Ht g.(members) 0 None)
    as (r & Hr & Hfrom & _ & Hall). unfold run_url_test. rewrite Hr. cbn [mbind result_bind]. eexists. split; [done|].
  destruct Hfrom as [->|(i & m & d & Hi & Hd & ->)].
  - left. split; [|done]. intros i m Hi. destruct (measured dial probe i m) as [d|] eqn:E; [|done].
    by destruct (Hall i m d Hi E) as (? & ? & ? & _).
  - right. exists i, d. assert (Hsel : (select g m).1.(selected) = m).
    { unfold select. assert (existsb (str_eqb m) g.(members) = true) as ->; [|done]. apply existsb_exists. exists m.
      split; [by apply list_elem_of_In, list_elem_of_lookup; exists i|by apply str_eqb_eq]. }
    rewrite Hsel. split; [done|]. split; [done|]. intros j m' d' Hj Hd'.
    destruct (Hall j m' d' Hj Hd') as (m2 & d2 & [= <- <-] & H). done.
Qed.

End runtime.

(** ** Witnesses *)

Definition sample_group (tolerance : Z) : Group :=
  mkGroup UrlTest [lit "a"; lit "b"; lit "c"] (lit "a") (Some (lit "http://x/")) secs tolerance.

Definition sample_dial (_ : nat) (m : str) : option (Dialer (AnyTlsClient := unit) (XhttpClient := unit)) := Some Direct.
Definition sample_probe (turn : nat) (_ : Dialer (AnyTlsClient := unit) (XhttpClient := unit)) : option Z :=
  [200; 100; 90] !! turn.

Lemma url_test_selects_fast_witness :
  ∃ g', run_url_test true sample_dial sample_probe (sample_group 50) = Ok g' ∧ g'.(selected) = lit "b".
Proof.
  destruct (url_test_selects_fast true sample_dial sample_probe (sample_group 50)) as (g' & Hg & _).
  - cbn. lia.
  - intros turn member delay. unfold measured, sample_dial, sample_probe. cbn [mbind option_bind].
    do 3 (destruct turn as [|turn]; [cbn; intros [= <-]; lia|]). done.
  - exists g'. split; [exact Hg|]. vm_compute in Hg. injection Hg as <-. reflexivity.
Defined.

(** With a tolerance near the top of its type the sum leaves 16 bits: a checked build
    panics, and another one moves on to a slower member. *)
Example tolerance_overflow :
  run_url_test true sample_dial sample_probe (sample_group 65500) = Panic ∧
  ∃ g', run_url_test false sample_dial (λ turn _, [100; 110; 200] !! turn) (sample_group 65500) = Ok g' ∧
    g'.(selected) = lit "b".
Proof. split; [reflexivity|]. eexists. split; reflexivity. Qed.

Definition sample_runtime : Runtime (AnyTlsClient := unit) (XhttpClient := unit) :=
  mkRuntime (<[lit "auto" := GroupDialer 0]> (<[lit "a" := Direct]> (<[lit "b" := Block]> (<[lit "c" := Direct]> ∅))))
    {[lit "auto" := 0%nat]} {[0%nat := sample_group 50]}.

Lemma selections_stay_valid_witness :
  runtime_ok sample_runtime ∧ runtime_ok (select_in sample_runtime (lit "auto") (lit "b")).1 ∧
  dialer_for (select_in sample_runtime (lit "auto") (lit "b")).1 (lit "auto") = Some Block.
Proof.
  assert (Hok : runtime_ok sample_runtime).
  { unfold runtime_ok, sample_runtime; cbn [dialers groups store]. split_and!.
    - intros tag id [<- <-]%lookup_singleton_Some. reflexivity.
    - intros tag id H. exists (sample_group 50). revert H.
      rewrite !lookup_insert_Some, lookup_empty. intros H. naive_solver.
    - intros id g [<- <-]%lookup_singleton_Some. split; [left|]. repeat constructor; eexists; reflexivity. }
  split; [exact Hok|]. split; [|reflexivity].
  refine (selections_stay_valid sample_runtime _ Hok _). apply rtc_once, step_select.
Defined.
