(* ===== verification/Direct.v ===== *)
(** * Direct connections (src/src/proxy/direct.rs)

    A direct connection tries the addresses of its destination, the next one when the
    others fail or take too long, and keeps the first that answers.  The attempts run
    at the same time: the race is a state machine whose events are the completion of
    an attempt and the end of the delay. *)

From S2P Require Import Prelude RustStr Net Util Vless Routing.

(** ** Addresses *)

Definition is_v4 (a : SocketAddr) : bool := negb (is_ipv6 a.(sa_ip)).
Definition is_v6 (a : SocketAddr) : bool := is_ipv6 a.(sa_ip).

(** [sort_by_key] is stable: for a boolean key those with [false] come first. *)
Definition sort_by_bool (key : SocketAddr → bool) (l : list SocketAddr) : list SocketAddr :=
  List.filter (λ a, negb (key a)) l ++ List.filter key l.

Definition order_addresses (addresses : list SocketAddr) (strategy : option str) : list SocketAddr :=
  let s := default [] strategy in
  if str_eqb s (lit "ipv4_only") then List.filter is_v4 addresses
  else if str_eqb s (lit "ipv6_only") then List.filter is_v6 addresses
  else if str_eqb s (lit "prefer_ipv4") then sort_by_bool (λ a, negb (is_v4 a)) addresses
  else if str_eqb s (lit "prefer_ipv6") then sort_by_bool is_v4 addresses
  else addresses.

(** The addresses of a destination: its own, those that routing resolved, the
    resolver's or the system's. *)
Definition target_addresses (lookup : option (str → result (list IpAddr))) (system : str → Z → result (list SocketAddr))
    (prefer_resolved : list IpAddr) (destination : Destination) : result (list SocketAddr) :=
  match destination with
  | Ip ip port => Ok [mkSocketAddr ip port]
  | Domain host p =>
    match prefer_resolved, lookup with
    | _ :: _, _ => Ok (map (λ ip, mkSocketAddr ip p) prefer_resolved)
    | [], Some lookup => ips ← lookup host; Ok (map (λ ip, mkSocketAddr ip p) ips)
    | [], None => system host p
    end
  end.

(** ** Socket options *)

Inductive sockopt :=
  | ReuseAddr (enabled : bool)
  | Bind (address : SocketAddr)
  | BindToDevice (interface : str)
  | Mark (mark : Z)
  | FastOpenConnect
  | MtuDiscover (want : bool).

#[export] Instance sockopt_eq_dec : EqDecision sockopt.
Proof. solve_decision. Defined.

Section sockets.
(** What the system says to an option; [None] is success. *)
Context (setsockopt : sockopt → option string).

Definition set_option (o : sockopt) : result unit := match setsockopt o with None => Ok tt | Some msg => Err msg end.

(** [CString::new] refuses a text with a zero byte. *)
Definition bind_to_device (interface : str) : result sockopt :=
  if contains_char 0 interface then Err "invalid bind_interface" else Ok (BindToDevice interface).

(** The options of a socket, set one after the other. *)
Fixpoint set_all (l : list (result sockopt)) : result (list sockopt) :=
  match l with
  | [] => Ok []
  | o :: l => o ← o; _ ← set_option o; rest ← set_all l; Ok (o :: rest)
  end.

Definition when_some {A} (o : option A) (f : A → result sockopt) : list (result sockopt) :=
  match o with Some a => [f a] | None => [] end.

Definition linux_socket_options (o : RouteOptions) : list (result sockopt) :=
  when_some o.(bind_interface) bind_to_device ++
  when_some o.(routing_mark) (λ mark, Ok (Mark mark)) ++
  (if o.(tcp_fast_open) then [Ok FastOpenConnect] else []).

(** The set-up of [connect_direct_address], before the connection. *)
Definition tcp_socket (address : SocketAddr) (o : RouteOptions) : result (list sockopt) :=
  let bind := if is_v4 address then o.(inet4_bind_address) else o.(inet6_bind_address) in
  set_all ([Ok (ReuseAddr o.(reuse_addr))] ++
    when_some bind (λ b, ip ← context (parse_ip b) "invalid IP address syntax"; Ok (Bind (mkSocketAddr ip 0))) ++
    linux_socket_options o).

Definition linux_udp_socket_options (o : RouteOptions) : list (result sockopt) :=
  (if o.(reuse_addr) then [Ok (ReuseAddr true)] else []) ++
  when_some o.(bind_interface) bind_to_device ++
  when_some o.(routing_mark) (λ mark, Ok (Mark mark)) ++
  when_some o.(udp_fragment) (λ fragment, Ok (MtuDiscover fragment)).

Definition unspecified (v4 : bool) : IpAddr := if v4 then V4 0 else V6 0.

Definition direct_udp_socket (target : SocketAddr) (o : RouteOptions) : result (list sockopt) :=
  let configured := if is_v4 target then o.(inet4_bind_address) else o.(inet6_bind_address) in
  bind_ip ← match configured with
            | Some text => context (parse_ip text) "invalid UDP bind address"
            | None => Ok (unspecified (is_v4 target))
            end;
  if negb (eqb (negb (is_ipv6 bind_ip)) (is_v4 target)) then Err "UDP bind address family does not match destination" else
  set_all (Ok (Bind (mkSocketAddr bind_ip 0)) :: linux_udp_socket_options o).

End sockets.

(** ** The race *)

Record Race := mkRace {
  pending : list SocketAddr;  (* attempts under way *)
  next_address : option SocketAddr;
  addresses : list SocketAddr;  (* those after the next *)
  last_error : option string;
}.

Inductive race_event :=
  | Completed (address : SocketAddr) (error : option string)
  | DelayElapsed.

Inductive verdict :=
  | Running (r : Race)
  | Returned (r : result SocketAddr)
  | Disabled.  (* the event cannot happen here *)

(** Starts the attempt for the next address. *)
Definition push_next (r : Race) : Race :=
  match r.(next_address) with
  | Some a => mkRace (r.(pending) ++ [a]) (head r.(addresses)) (tail r.(addresses)) r.(last_error)
  | None => r
  end.

Definition race_start (l : list SocketAddr) : Race := mkRace (take 1 l) (head (drop 1 l)) (drop 2 l) None.

Fixpoint remove_one (a : SocketAddr) (l : list SocketAddr) : option (list SocketAddr) :=
  match l with
  | [] => None
  | b :: l => if decide (a = b) then Some l else (b ::.) <$> remove_one a l
  end.

(** The loop ends when nothing is pending and nothing is left; the last error is the
    cause of the one it returns. *)
Definition race_state (r : Race) : verdict :=
  match r.(next_address), r.(pending) with
  | None, [] => Returned (Err "all direct connection attempts failed")
  | _, _ => Running r
  end.

Definition race_step (r : Race) (e : race_event) : verdict :=
  match e with
  | Completed a error =>
    match remove_one a r.(pending) with
    | None => Disabled
    | Some rest =>
      match error with
      | None => Returned (Ok a)
      | Some msg =>
        let r := mkRace rest r.(next_address) r.(addresses) (Some msg) in
        race_state (match r.(pending) with [] => push_next r | _ => r end)
      end
    end
  | DelayElapsed => match r.(next_address) with Some _ => race_state (push_next r) | None => Disabled end
  end.

Fixpoint race_run (v : verdict) (events : list race_event) : verdict :=
  match v, events with
  | Running r, e :: events => race_run (race_step r e) events
  | _, [] => v
  | Returned _, _ :: _ | Disabled, _ => Disabled
  end.

(** [connect_direct]: the addresses, and how the attempts went. *)
Definition connect_direct (lookup : option (str → result (list IpAddr))) (system : str → Z → result (list SocketAddr))
    (o : RouteOptions) (prefer_resolved : list IpAddr) (destination : Destination) (events : list race_event)
    : result verdict :=
  targets ← target_addresses lookup system prefer_resolved destination;
  let targets := order_addresses targets (match o.(domain_strategy) with Some s => Some s | None => o.(network_strategy) end) in
  match targets with
  | [] => Err "direct connection strategy selected no addresses"
  | _ => Ok (race_run (Running (race_start targets)) events)
  end.

(** ** Properties of the race *)

(** The attempts that were started, in order, and those that failed, after the events. *)
Definition remaining (r : Race) : list SocketAddr := option_list r.(next_address) ++ r.(addresses).

Definition failures (events : list race_event) : list SocketAddr :=
  omap (λ e, match e with Completed a (Some _) => Some a | _ => None end) events.

(** Every address is waiting, being tried or has failed; an attempt is under way as long
    as there is one to come, so that the branch without one is unreachable. *)
Definition race_inv (targets failed : list SocketAddr) (r : Race) : Prop :=
  failed ++ r.(pending) ++ remaining r ≡ₚ targets ∧ (∃ started, targets = started ++ remaining r) ∧
  r.(pending) ≠ [] ∧ (r.(next_address) = None → r.(addresses) = []).

Lemma remove_one_perm a l rest : remove_one a l = Some rest → l ≡ₚ a :: rest.
Proof.
  revert rest. induction l as [|b l IH]; intros rest; cbn; [done|]. case_decide as E; [by intros [= <-]; subst|].
  intros H. apply fmap_Some in H as (r & Hr & ->). rewrite (IH r Hr). apply Permutation_swap.
Qed.

Lemma remaining_push r a : r.(next_address) = Some a → (r.(next_address) = None → r.(addresses) = []) →
  remaining r = a :: remaining (push_next r) ∧ ((push_next r).(next_address) = None → (push_next r).(addresses) = []).
Proof.
  intros E _. unfold remaining, push_next. rewrite E. cbn. by destruct (addresses r) as [|b l].
Qed.

Lemma race_start_inv targets : targets ≠ [] → race_inv targets [] (race_start targets).
Proof.
  intros Hne. destruct targets as [|a [|b l]]; [done|..]; unfold race_inv, remaining; cbn; rewrite ?drop_0;
    (split_and!; [done|by exists [a]|done|done]).
Qed.

Lemma push_next_inv targets failed r : failed ++ r.(pending) ++ remaining r ≡ₚ targets → (∃ started, targets = started ++ remaining r) →
  (r.(next_address) = None → r.(addresses) = []) → r.(next_address) ≠ None → race_inv targets failed (push_next r).
Proof.
  intros Hp [st Hst] Hl Hn. destruct r.(next_address) as [a|] eqn:E; [|done].
  destruct (remaining_push r a E ltac:(by rewrite E)) as [Hr Hl']. unfold race_inv. rewrite Hr in *.
  assert (Ep : (push_next r).(pending) = r.(pending) ++ [a]) by (unfold push_next; by rewrite E). rewrite Ep. split_and!.
  - rewrite <- Hp. by rewrite <- !app_assoc.
  - exists (st ++ [a]). rewrite Hst. by rewrite <- app_assoc.
  - by destruct r.(pending).
  - done.
Qed.

(** A step keeps the invariant, returns the address that answered, or fails when every
    address has failed. *)
Lemma race_step_spec targets failed r e : race_inv targets failed r →
  match race_step r e with
  | Running r' => race_inv targets (failed ++ failures [e]) r'
  | Returned (Ok a) => e = Completed a None ∧ a ∈ targets
  | Returned (Err _) => failed ++ failures [e] ≡ₚ targets
  | Returned _ => False
  | Disabled => True
  end.
Proof.
  intros (Hp & Hst & Hne & Hl). destruct e as [a error|]; cbn [race_step].
  - destruct (remove_one a r.(pending)) as [rest|] eqn:Er; [|done]. apply remove_one_perm in Er.
    destruct error as [msg|]; [|split; [done|]; rewrite <- Hp, Er; set_solver].
    cbn [failures omap list_omap]. set (r' := mkRace rest r.(next_address) r.(addresses) (Some msg)).
    assert (Hp' : (failed ++ [a]) ++ r'.(pending) ++ remaining r' ≡ₚ targets).
    { rewrite <- Hp, Er. unfold r', remaining. cbn [pending next_address addresses]. by rewrite <- app_assoc. }
    assert (Hst' : ∃ started, targets = started ++ remaining r') by exact Hst.
    change (pending r') with rest. destruct rest as [|b rest].
    + destruct r.(next_address) as [n|] eqn:En.
      * assert (Hi : race_inv targets (failed ++ [a]) (push_next r')) by (apply push_next_inv; done).
        unfold race_state. destruct (push_next r').(next_address); [done|].
        destruct (push_next r').(pending) eqn:Eq; [|done]. by destruct Hi as (_ & _ & ? & _).
      * cbn. unfold race_state. cbn. rewrite <- Hp'. cbn. unfold remaining. cbn. by rewrite (Hl eq_refl), app_nil_r.
    + unfold race_state. change (pending r') with (b :: rest). destruct (next_address r') eqn:E; (split_and!; [done|done|done|exact Hl]).
  - destruct r.(next_address) as [n|] eqn:En; [|done]. cbn [failures omap list_omap]. rewrite app_nil_r.
    assert (Hi : race_inv targets failed (push_next r)) by (apply push_next_inv; [done|done|by rewrite En|by rewrite En]).
    unfold race_state. destruct (push_next r).(next_address); [done|].
    destruct (push_next r).(pending) eqn:Eq; [|done]. by destruct Hi as (_ & _ & ? & _).
Qed.

Lemma race_run_spec targets events : ∀ r failed, race_inv targets failed r →
  match race_run (Running r) events with
  | Running r' => race_inv targets (failed ++ failures events) r'
  | Returned (Ok a) => Completed a None ∈ events ∧ a ∈ targets
  | Returned (Err _) => failed ++ failures events ≡ₚ targets
  | Returned _ => False
  | Disabled => True
  end.
Proof.
  induction events as [|e events IH]; intros r failed Hi; cbn [race_run].
  { cbn. by rewrite app_nil_r. }
  assert (H := race_step_spec targets failed r e Hi). destruct (race_step r e) as [r'|res|].
  - specialize (IH r' _ H). assert (Ef : failures (e :: events) = failures [e] ++ failures events).
    { unfold failures. change (e :: events) with ([e] ++ events). by rewrite omap_app. }
    destruct (race_run (Running r') events) as [r2|[a|m| |]|]; rewrite ?Ef, ?app_assoc; try done.
    destruct IH. split; [by right|done].
  - destruct events as [|e' events]; [|by destruct res]. destruct res as [a|m| |]; cbn; try done.
    destruct H as [-> ?]. split; [by left|done].
  - by destruct events.
Qed.

(** Each step makes the race shorter. *)
Definition race_measure (r : Race) : nat := length r.(pending) + 2 * length (remaining r).

Lemma race_step_decreases targets failed r e r' : race_inv targets failed r → race_step r e = Running r' →
  (race_measure r' < race_measure r)%nat.
Proof.
  intros (_ & _ & _ & Hl) H. assert (Hpush : ∀ q a, q.(next_address) = Some a →
    race_measure (push_next q) = (race_measure q - 1)%nat ∧ (1 < race_measure q)%nat).
  { intros q a E. unfold race_measure. destruct (remaining_push q a E ltac:(by rewrite E)) as [-> _].
    unfold push_next at 1. rewrite E. cbn [pending length]. rewrite length_app. cbn. lia. }
  assert (Hstate : ∀ q q', race_state q = Running q' → q' = q).
  { intros q q'. unfold race_state. destruct q.(next_address), q.(pending); congruence. }
  destruct e as [a error|]; cbn [race_step] in H.
  - destruct (remove_one a r.(pending)) as [rest|] eqn:Er; [|done]. apply remove_one_perm, Permutation_length in Er.
    destruct error as [msg|]; [|done]. apply Hstate in H. subst r'.
    set (q := mkRace rest r.(next_address) r.(addresses) (Some msg)).
    assert (Hq : (race_measure q < race_measure r)%nat).
    { unfold race_measure, q, remaining. cbn [pending next_address addresses]. rewrite Er. cbn. lia. }
    destruct (pending q); [|done]. destruct (next_address q) as [n|] eqn:En; [|unfold push_next; by rewrite En].
    destruct (Hpush q n En) as [-> _]. lia.
  - destruct r.(next_address) as [n|] eqn:En; [|done]. apply Hstate in H. subst r'. destruct (Hpush r n En) as [-> ?]. lia.
Qed.

Lemma race_run_bounded targets events : ∀ r failed, race_inv targets failed r → race_run (Running r) events ≠ Disabled →
  (length events ≤ race_measure r)%nat.
Proof.
  induction events as [|e events IH]; intros r failed Hi Hrun; [cbn; lia|]. cbn [race_run] in Hrun.
  assert (Hs := race_step_spec targets failed r e Hi). destruct (race_step r e) as [r'|res|] eqn:E.
  - specialize (IH r' _ Hs Hrun). apply (race_step_decreases _ _ _ _ _ Hi) in E. cbn. lia.
  - destruct events; [|done]. cbn. assert (Hne : r.(pending) ≠ []) by apply Hi. unfold race_measure. destruct (pending r); [done|cbn; lia].
  - by destruct events.
Qed.

(** C30: a direct connection gives up only when it tried every address: under every order of
    completions and delays the race ends within twice as many events as there are
    addresses; it returns an address that answered, or fails when each of them failed, and
    until then an attempt is under way and the addresses started are the first of the list. *)
Theorem race_exhaustive targets events :
  targets ≠ [] → race_run (Running (race_start targets)) events ≠ Disabled →
  (length events < 2 * length targets)%nat ∧
  match race_run (Running (race_start targets)) events with
  | Running r => r.(pending) ≠ [] ∧ ∃ started, targets = started ++ remaining r
  | Returned (Ok a) => Completed a None ∈ events ∧ a ∈ targets
  | Returned (Err _) => failures events ≡ₚ targets
  | Returned _ | Disabled => False
  end.
Proof.
  intros Hne Hrun. assert (Hi := race_start_inv targets Hne). split.
  - assert (H := race_run_bounded _ _ _ _ Hi Hrun). unfold race_measure, race_start, remaining in H.
    destruct targets as [|a [|b l]]; [done|..]; cbn in *; rewrite ?drop_0 in H; lia.
  - assert (H := race_run_spec targets events _ _ Hi). destruct (race_run _ events) as [r|[a|m| |]|]; try done.
    by destruct H as (_ & Hst & Hp & _).
Qed.

(** A refused first address, a delay, and the third answers. *)
Lemma race_exhaustive_witness :
  let a i := mkSocketAddr (V4 i) 443 in
  let events := [Completed (a 1) (Some "refused"%string); DelayElapsed; Completed (a 3) None] in
  race_run (Running (race_start [a 1; a 2; a 3])) events = Returned (Ok (a 3)) ∧
  (length events < 6)%nat ∧ Completed (a 3) None ∈ events ∧ a 3 ∈ [a 1; a 2; a 3].
Proof.
  intros a events. assert (H : race_run (Running (race_start [a 1; a 2; a 3])) events = Returned (Ok (a 3))) by reflexivity.
  split; [exact H|]. assert (T := race_exhaustive [a 1; a 2; a 3] events). rewrite H in T. apply T; discriminate.
Defined.
