(* ===== verification/Relay.v ===== *)
(** * Relaying connections (src/src/proxy/relay.rs and src/src/proxy/inbound.rs)

    What happens to a connection once its route is known: the first bytes of a TLS
    connection may be cut inside the server name, and the handlers of the inbounds
    dial, hand over what was read, and copy.  A handler is the list of what it does
    to the client and to the target; each step may fail, which is up to the
    environment. *)

From S2P Require Import Prelude RustStr Net Util Vless DnsMessage Routing Sniff RouteEval Outbound.

(** ** The first packet *)

Inductive wire := Write (b : bytes) | Flush | Sleep (duration : Z).

Definition written (l : list wire) : bytes :=
  concat ((λ w, match w with Write b => b | _ => [] end) <$> l).

(** [packet.windows(n).position(..)]: windows of no length panic. *)
Fixpoint window_position (name : str) (i : nat) (s : bytes) : option nat :=
  match s with
  | [] => None
  | _ :: s' =>
    if (length name <=? length s)%nat && eq_ignore_ascii_case (take (length name) s) name then Some i
    else window_position name (S i) s'
  end.

Definition find_name (packet : bytes) (name : str) : result (option nat) :=
  match name with [] => Panic | _ => Ok (window_position name 0 packet) end.

Definition record_fragment (kind payload : bytes) : list wire * result unit :=
  match try_uint 16 (Z.of_nat (length payload)) with
  | Some n => ([Write kind; Write (to_be 2 n); Write payload], Ok tt)
  | None => ([Write kind], Err "TLS record too large")
  end.

(** One write after the other, until one fails. *)
Definition and_write (a : list wire * result unit) (b : list wire * result unit) : list wire * result unit :=
  match a.2 with Ok _ => (a.1 ++ b.1, b.2) | _ => a end.

Definition with_slice (r : result bytes) (f : bytes → list wire * result unit) : list wire * result unit :=
  match r with Ok b => f b | Err e => ([], Err e) | Panic => ([], Panic) | Diverge => ([], Diverge) end.

Definition split_record (packet : bytes) (split : nat) : list wire * result unit :=
  match u16_at packet 3 with
  | Ok n =>
    let record_end := Nat.min (5 + Z.to_nat n) (length packet) in
    if (split <=? 5)%nat || (record_end <=? split)%nat then ([Write packet], Ok tt)
    else
      with_slice (slice packet 5 split) (λ first,
      with_slice (slice packet split record_end) (λ second,
      with_slice (slice packet 0 3) (λ kind,
      with_slice (slice packet record_end (length packet)) (λ rest,
      and_write (record_fragment kind first) (and_write (record_fragment kind second) ([Write rest], Ok tt))))))
  | Err e => ([], Err e)
  | Panic => ([], Panic)
  | Diverge => ([], Diverge)
  end.

Definition split_delay (options : RouteOptions) : Z :=
  match options.(tls_fragment_fallback_delay) with Some v => parse_duration_lenient (Some v) | None => 10 * millis end.

Definition write_first_packet (packet : bytes) (options : RouteOptions) : list wire * result unit :=
  match tls_server_name packet with
  | Ok server_name =>
    match find_name packet server_name with
    | Ok (Some name_start) =>
      let split := (name_start + Nat.max (length server_name) 2 / 2)%nat in
      if options.(tls_record_fragment) && (5 <=? length packet)%nat then split_record packet split
      else if options.(tls_fragment) then
        with_slice (slice packet 0 split) (λ first,
        with_slice (slice packet split (length packet)) (λ second,
        ([Write first; Flush; Sleep (split_delay options); Write second], Ok tt)))
      else ([Write packet], Ok tt)
    | Ok None => ([Write packet], Ok tt)
    | Err e => ([], Err e)
    | Panic => ([], Panic)
    | Diverge => ([], Diverge)
    end
  | Err _ => ([Write packet], Ok tt)
  | Panic => ([], Panic)
  | Diverge => ([], Diverge)
  end.

(** A TLS record. *)
Definition tls_record (kind payload : bytes) : bytes := kind ++ to_be 2 (Z.of_nat (length payload)) ++ payload.

Lemma window_position_bound name i s p :
  window_position name i s = Some p → (i ≤ p)%nat ∧ (p + length name ≤ i + length s)%nat.
Proof.
  revert i. induction s as [|c s IH]; intros i; cbn [window_position]; [done|].
  destruct (_ && _) eqn:E.
  - intros [= <-]. bool_to_prop. cbn [length] in *. lia.
  - intros H%IH. cbn [length]. lia.
Qed.

Lemma slice_ok {A} (l : list A) a b : (a ≤ b)%nat → (b ≤ length l)%nat → slice l a b = Ok (take (b - a) (drop a l)).
Proof. intros Ha Hb. unfold slice. by rewrite (proj2 (slice_get_Some l a b _) (conj Ha (conj Hb eq_refl))). Qed.

(** A server name is found only in a whole record. *)
Lemma server_name_record packet name :
  tls_server_name packet = Ok name →
  ∃ n, u16_at packet 3 = Ok n ∧ (5 + Z.to_nat n ≤ length packet)%nat ∧ (5 ≤ length packet)%nat.
Proof.
  unfold tls_server_name. destruct (length packet <? 5)%nat eqn:E; [done|]. bool_to_prop.
  intros H. apply bind_Ok in H as (n & Hn & H). apply bind_Ok in H as (h & Hh & _).
  apply context_Ok, slice_get_Some in Hh as (_ & Hh & _). exists n. split_and!; [done|lia|lia].
Qed.

Lemma record_fragment_ok kind payload :
  Z.of_nat (length payload) < 65536 →
  ∃ w, record_fragment kind payload = (w, Ok tt) ∧ written w = tls_record kind payload.
Proof.
  intros Hp. unfold record_fragment. rewrite (proj2 (try_uint_Some 16 _ (Z.of_nat (length payload)))).
  - eexists. split; [done|]. unfold written, tls_record. cbn [fmap list_fmap concat]. by rewrite app_nil_r.
  - split; [unfold uint; lia|done].
Qed.

Lemma written_app a b : written (a ++ b) = written a ++ written b.
Proof. unfold written. by rewrite fmap_app, concat_app. Qed.

(** The record of a packet, cut in two. *)
Lemma split_record_ok packet split n :
  Forall u8 packet → u16_at packet 3 = Ok n → (5 + Z.to_nat n ≤ length packet)%nat → (split ≤ length packet)%nat →
  ∃ w, split_record packet split = (w, Ok tt) ∧
    (written w = packet ∨
     ∃ kind p1 p2 rest, p1 ≠ [] ∧ p2 ≠ [] ∧ packet = tls_record kind (p1 ++ p2) ++ rest ∧
       written w = tls_record kind p1 ++ tls_record kind p2 ++ rest).
Proof.
  intros Hu Hn Hlen Hs. unfold split_record. rewrite Hn, Nat.min_l by lia.
  destruct (_ || _) eqn:E; bool_to_prop.
  { eexists. split; [done|]. left. unfold written. cbn. by rewrite app_nil_r. }
  destruct packet as [|k1 [|k2 [|k3 [|l1 [|l2 body]]]]]; cbn [length] in *; try lia.
  assert (Hl : n = of_be [l1; l2]) by (apply Ok_inj in Hn; done).
  rewrite !Forall_cons in Hu. destruct Hu as (_ & _ & _ & H1 & H2 & _).
  assert (Hb : Forall u8 [l1; l2]) by (by repeat (apply Forall_cons; split)).
  assert (Hn16 : u16 n) by (rewrite Hl; apply (of_be_uint [l1; l2]); done).
  assert (Hbe : to_be 2 n = [l1; l2]) by (rewrite Hl; apply (to_be_of_be [l1; l2]); done).
  set (m := Z.to_nat n) in *. assert (Hm : Z.of_nat m = n) by (unfold uint in Hn16; lia).
  destruct (Nat.le_exists_sub 5 split) as (k & Hk & _); [lia|]. rewrite Nat.add_comm in Hk. subst split.
  rewrite !slice_ok by (cbn [length]; lia). cbn [with_slice].
  change (drop 5 (k1 :: k2 :: k3 :: l1 :: l2 :: body)) with body.
  change (drop (5 + k) (k1 :: k2 :: k3 :: l1 :: l2 :: body)) with (drop k body).
  change (drop (5 + m) (k1 :: k2 :: k3 :: l1 :: l2 :: body)) with (drop m body).
  replace (5 + k - 5)%nat with k by lia. replace (5 + m - (5 + k))%nat with (m - k)%nat by lia.
  set (p1 := take k body). set (p2 := take (m - k) (drop k body)).
  assert (Hp : p1 ++ p2 = take m body) by (unfold p1, p2; rewrite take_take_drop; f_equal; lia).
  assert (L1 : length p1 = k) by (unfold p1; rewrite length_take; lia).
  assert (L2 : length p2 = (m - k)%nat) by (unfold p2; rewrite length_take, length_drop; lia).
  destruct (record_fragment_ok [k1; k2; k3] p1) as (w1 & E1 & W1); [unfold uint in Hn16; lia|].
  destruct (record_fragment_ok [k1; k2; k3] p2) as (w2 & E2 & W2); [unfold uint in Hn16; lia|].
  change (take (3 - 0) (drop 0 (k1 :: k2 :: k3 :: l1 :: l2 :: body))) with [k1; k2; k3].
  rewrite E1, E2. unfold and_write. cbn [fst snd]. eexists. split; [done|]. right.
  exists [k1; k2; k3], p1, p2, (drop m body). split_and!.
  - intros ->. cbn in L1. lia.
  - intros ->. cbn in L2. lia.
  - unfold tls_record. rewrite length_app, L1, L2. replace (Z.of_nat (k + (m - k))) with n by lia.
    rewrite Hbe, Hp. cbn [app]. by rewrite take_drop.
  - rewrite !written_app, W1, W2. f_equal. f_equal. unfold written. cbn [fmap list_fmap concat].
    rewrite app_nil_r. apply take_ge. rewrite length_drop. cbn [length]. lia.
Qed.

(** The first packet of a connection reaches the target unharmed whatever fragmentation the route
    asks for: either the very bytes are written, in one or two pieces, or the TLS
    record they start with is written as two non-empty records of the same kind whose
    payloads are the payload of the original one, followed by the same bytes. *)
Theorem first_packet_preserved packet options :
  Forall u8 packet → tls_server_name packet ≠ Ok [] →
  ∃ w, write_first_packet packet options = (w, Ok tt) ∧
    (written w = packet ∨
     options.(tls_record_fragment) = true ∧
     ∃ kind p1 p2 rest, p1 ≠ [] ∧ p2 ≠ [] ∧ packet = tls_record kind (p1 ++ p2) ++ rest ∧
       written w = tls_record kind p1 ++ tls_record kind p2 ++ rest).
Proof.
  intros Hu Hne. unfold write_first_packet.
  assert (Hall : ∃ w, ([Write packet], Ok tt) = (w, Ok tt) ∧
    (written w = packet ∨ options.(tls_record_fragment) = true ∧ ∃ kind p1 p2 rest, p1 ≠ [] ∧ p2 ≠ [] ∧
      packet = tls_record kind (p1 ++ p2) ++ rest ∧ written w = tls_record kind p1 ++ tls_record kind p2 ++ rest)).
  { eexists. split; [done|]. left. unfold written. cbn. by rewrite app_nil_r. }
  pose proof (returns_tls_server_name packet) as Hret.
  destruct (tls_server_name packet) as [name|e| |] eqn:E; [|done..]. clear Hret.
  destruct (server_name_record packet name E) as (n & Hn & Hlen & H5).
  destruct name as [|c name]; [done|]. cbn [find_name].
  destruct (window_position (c :: name) 0 packet) as [p|] eqn:Ew; [|done].
  apply window_position_bound in Ew as [_ Hp].
  assert (Hhalf : (Nat.max (length (c :: name)) 2 / 2 ≤ length (c :: name))%nat).
  { cbn [length] in *. apply Nat.Div0.div_le_upper_bound; lia. }
  set (split := (p + Nat.max (length (c :: name)) 2 / 2)%nat) in *.
  assert (Hs : (split ≤ length packet)%nat) by (subst split; lia).
  destruct (options.(tls_record_fragment) && (5 <=? length packet)%nat) eqn:Ef; bool_to_prop.
  - destruct (split_record_ok packet split n Hu Hn Hlen Hs) as (w & Hw & Hcase). exists w. split; [done|].
    destruct Hcase as [?|?]; [by left|by right].
  - destruct (options.(tls_fragment)); [|done]. rewrite !slice_ok by lia. cbn [with_slice].
    eexists. split; [done|]. left. unfold written. cbn [fmap list_fmap concat app].
    rewrite app_nil_r, Nat.sub_0_r, drop_0, (take_ge (drop _ _)) by (rewrite length_drop; lia). apply take_drop.
Qed.

(** The search for an empty name has windows of no length: a client that sends an empty
    server name makes the task panic, with and without fragmentation. *)
Lemma empty_server_name_panics packet options :
  tls_server_name packet = Ok [] → write_first_packet packet options = ([], Panic).
Proof. intros H. unfold write_first_packet. by rewrite H. Qed.

Example empty_server_name : tls_server_name (record_bytes (mkHello [3; 3] (replicate 32 7) [] [19; 1] [0] [server_name []])) = Ok [].
Proof. reflexivity. Qed.

(** ** Handlers *)

Section handlers.
Context {AnyTlsClient XhttpClient : Type}.

Inductive act :=
  | ServeDns (initial : bytes)
  | HandshakeSuccess
  | HandshakeFailure (msg : string)
  | ToClient (b : bytes)
  | ResetOnClose
  | ReadFirst (b : bytes)
  | ConnectDirect (d : Destination) (options : RouteOptions) (addresses : list IpAddr)
  | ConnectAnyTls (client : AnyTlsClient) (address : bytes)
  | ConnectXhttp (client : XhttpClient)
  | VlessRequest (user : str) (d : Destination)
  | VlessResponse
  | FirstPacket (b : bytes) (options : RouteOptions)
  | ToTarget (b : bytes)
  | Copy.

(** What is done so far, and how it goes on. *)
Definition handler (A : Type) : Type := list act → list act * result A.

#[export] Instance handler_ret : MRet handler := λ A a log, (log, Ok a).
#[export] Instance handler_bind : MBind handler := λ A B f m log,
  let '(log, r) := m log in
  match r with Ok a => f a log | Err e => (log, Err e) | Panic => (log, Panic) | Diverge => (log, Diverge) end.

(** How each step ends, and what the client sends while a first packet is awaited. *)
Context (outcome : list act → act → result unit) (first_read : list act → Z → option bytes).

Definition perform (a : act) : handler unit := λ log, (log ++ [a], outcome log a).
(** A step that cannot fail. *)
Definition note (a : act) : handler unit := λ log, (log ++ [a], Ok tt).
Definition bail {A} (msg : string) : handler A := λ log, (log, Err msg).
Definition from_result {A} (r : result A) : handler A := λ log, (log, r).
Definition when (b : bool) (m : handler unit) : handler unit := if b then m else mret tt.
(** [write_first_packet(&mut remote, &packet, &options).await?]: it may fail or panic by
    itself, and each of its writes may fail. *)
Definition send_first (b : bytes) (options : RouteOptions) : handler unit :=
  match (write_first_packet b options).2 with
  | Ok _ => perform (FirstPacket b options)
  | r => λ log, (log ++ [FirstPacket b options], r)
  end.
Definition nonempty (b : bytes) : bool := match b with [] => false | _ => true end.

Context (resolver : bool) (dialer : str → option (Dialer (AnyTlsClient := AnyTlsClient) (XhttpClient := XhttpClient))).
(** [anytls::encode_address] *)
Context (encode_anytls : Destination → result bytes).

Definition set_mark (options : RouteOptions) (mark : option Z) : RouteOptions :=
  match mark with
  | Some _ =>
    Routing.mkOptions options.(override_address) options.(override_port) options.(network_strategy) options.(fallback_delay)
      options.(udp_disable_domain_unmapping) options.(udp_connect) options.(udp_timeout) options.(tls_fragment)
      options.(tls_fragment_fallback_delay) options.(tls_record_fragment) options.(tls_spoof) options.(tls_spoof_method)
      options.(bind_interface) options.(inet4_bind_address) options.(inet6_bind_address) mark options.(reuse_addr)
      options.(connect_timeout) options.(tcp_fast_open) options.(tcp_multi_path) options.(udp_fragment)
      options.(domain_strategy) options.(reject_method) options.(reject_no_drop)
  | None => options
  end.

(** [relay_streamed_tcp], once the route is evaluated. *)
Definition streamed_dispatch (mark : option Z) (ev : RouteEvaluation) (initial : bytes) : handler unit :=
  let destination := ev.(ev_destination) in
  let options := set_mark ev.(ev_options) mark in
  match ev.(ev_decision) with
  | HijackDns => if resolver then perform (ServeDns initial) else bail "DNS hijack requires a DNS configuration"
  | Reject => bail "TUN TCP connection rejected by route"
  | Outbound tag =>
    match dialer tag with
    | None => bail "unknown outbound"
    | Some Direct =>
      _ ← perform (ConnectDirect destination options ev.(ev_addresses));
      _ ← when (nonempty initial) (send_first initial options);
      perform Copy
    | Some (AnyTls client) =>
      encoded ← from_result (encode_anytls destination);
      _ ← perform (ConnectAnyTls client encoded);
      _ ← when (nonempty initial) (perform (ToTarget initial));
      perform Copy
    | Some (VlessDialer client user _) =>
      _ ← perform (ConnectXhttp client);
      _ ← perform (VlessRequest user destination);
      _ ← perform VlessResponse;
      _ ← when (nonempty initial) (perform (ToTarget initial));
      perform Copy
    | Some Block => bail "TUN TCP connection blocked by outbound"
    | Some (GroupDialer _) => from_result Panic
    end
  end.

(** [relay_anytls_tcp] *)
Definition anytls_dispatch (ev : RouteEvaluation) (initial : bytes) : handler unit :=
  let destination := ev.(ev_destination) in
  let options := ev.(ev_options) in
  match ev.(ev_decision) with
  | HijackDns =>
    if resolver then _ ← perform HandshakeSuccess; perform (ServeDns initial)
    else bail "DNS hijack requires a DNS configuration"
  | Reject =>
    _ ← when (negb (bool_decide (options.(reject_method) = Some (lit "drop"))))
          (perform (HandshakeFailure "connection rejected by route"));
    bail "AnyTLS inbound connection rejected"
  | Outbound tag =>
    match dialer tag with
    | None => bail "unknown outbound"
    | Some Direct =>
      _ ← perform (ConnectDirect destination options ev.(ev_addresses));
      _ ← perform HandshakeSuccess;
      _ ← when (nonempty initial) (send_first initial options);
      perform Copy
    | Some (AnyTls client) =>
      encoded ← from_result (encode_anytls destination);
      _ ← perform (ConnectAnyTls client encoded);
      _ ← perform HandshakeSuccess;
      _ ← when (nonempty initial) (perform (ToTarget initial));
      perform Copy
    | Some (VlessDialer client user _) =>
      _ ← perform (ConnectXhttp client);
      _ ← perform (VlessRequest user destination);
      _ ← perform HandshakeSuccess;
      _ ← perform VlessResponse;
      _ ← when (nonempty initial) (perform (ToTarget initial));
      perform Copy
    | Some Block =>
      _ ← perform (HandshakeFailure "connection blocked");
      bail "AnyTLS inbound connection blocked"
    | Some (GroupDialer _) => from_result Panic
    end
  end.

Definition reply_to (reply : option bytes) : handler unit :=
  match reply with Some b => perform (ToClient b) | None => mret tt end.

Definition forbidden : bytes :=
  lit "HTTP/1.1 403 Forbidden" ++ [13; 10] ++ lit "Content-Length: 0" ++ [13; 10; 13; 10].

Definition first_delay (options : RouteOptions) : Z :=
  parse_duration_lenient (Some (default (lit "500ms") options.(tls_fragment_fallback_delay))).

(** [handle], once the handshake is done and the route evaluated. *)
Definition handle (reply : option bytes) (initial : bytes) (ev : RouteEvaluation) : handler unit :=
  let destination := ev.(ev_destination) in
  let options := ev.(ev_options) in
  match ev.(ev_decision) with
  | HijackDns =>
    if negb resolver then bail "DNS hijack requires a DNS configuration"
    else if nonempty initial then bail "DNS hijack is only supported for SOCKS connections"
    else _ ← reply_to reply; perform (ServeDns [])
  | Reject =>
    if bool_decide (options.(reject_method) = Some (lit "reply")) then
      perform (ToClient
        (if is_some_and reply (starts_with (lit "HTTP/")) then forbidden else [5; 2; 0; 1; 0; 0; 0; 0; 0; 0]))
    else
      _ ← when (negb (bool_decide (options.(reject_method) = Some (lit "drop")))) (perform ResetOnClose);
      bail "connection rejected"
  | Outbound tag =>
    match dialer tag with
    | None => bail "unknown outbound"
    | Some Block => bail "connection blocked by outbound"
    | Some (AnyTls client) =>
      encoded ← from_result (encode_anytls destination);
      _ ← perform (ConnectAnyTls client encoded);
      _ ← when (nonempty initial) (perform (ToTarget initial));
      _ ← reply_to reply;
      perform Copy
    | Some (VlessDialer client user _) =>
      _ ← perform (ConnectXhttp client);
      _ ← perform (VlessRequest user destination);
      _ ← when (nonempty initial) (perform (ToTarget initial));
      _ ← reply_to reply;
      perform Copy
    | Some Direct | Some (GroupDialer _) =>
      _ ← perform (ConnectDirect destination options ev.(ev_addresses));
      _ ← reply_to reply;
      if nonempty initial then _ ← send_first initial options; perform Copy
      else if options.(tls_fragment) || options.(tls_record_fragment) then λ log,
        match first_read log (first_delay options) with
        | Some [] => (log, Ok tt)
        | Some first => (_ ← note (ReadFirst first); _ ← send_first first options; perform Copy) log
        | None => perform Copy log
        end
      else perform Copy
    end
  end.

(** ** What the peers see *)

(** The bytes the target is sent: of a first packet, what [write_first_packet] writes. *)
Definition to_target (log : list act) : bytes :=
  concat ((λ a, match a with
                | FirstPacket b options => written (write_first_packet b options).1
                | ToTarget b => b
                | _ => []
                end) <$> log).
Definition to_client (log : list act) : bytes :=
  concat ((λ a, match a with ToClient b => b | _ => [] end) <$> log).
Definition read_later (log : list act) : bytes :=
  concat ((λ a, match a with ReadFirst b => b | _ => [] end) <$> log).

(** The connections of a log are to the outbound and the destination of the route. *)
Definition routed (ev : RouteEvaluation) (a : act) : Prop :=
  match a with
  | ConnectDirect d _ addresses =>
    ∃ tag, ev.(ev_decision) = Outbound tag ∧ (dialer tag = Some Direct ∨ ∃ g, dialer tag = Some (GroupDialer g)) ∧
      d = ev.(ev_destination) ∧ addresses = ev.(ev_addresses)
  | ConnectAnyTls client address =>
    ∃ tag, ev.(ev_decision) = Outbound tag ∧ dialer tag = Some (AnyTls client) ∧
      encode_anytls ev.(ev_destination) = Ok address
  | ConnectXhttp client =>
    ∃ tag user xudp, ev.(ev_decision) = Outbound tag ∧ dialer tag = Some (VlessDialer client user xudp)
  | VlessRequest user d =>
    ∃ tag client xudp, ev.(ev_decision) = Outbound tag ∧ dialer tag = Some (VlessDialer client user xudp) ∧
      d = ev.(ev_destination)
  | ServeDns _ => ev.(ev_decision) = HijackDns ∧ resolver = true
  | _ => True
  end.

(** The target has been sent [data]: the very bytes, or, when the route asks for
    [tls_record_fragment], the TLS record they start with as two records of the same kind
    that have its payload, and the same bytes after it. *)
Definition sent_as (log : list act) (data : bytes) : Prop :=
  to_target log = data ∨
  ∃ options kind p1 p2 rest, FirstPacket data options ∈ log ∧ options.(tls_record_fragment) = true ∧
    p1 ≠ [] ∧ p2 ≠ [] ∧ data = tls_record kind (p1 ++ p2) ++ rest ∧
    to_target log = tls_record kind p1 ++ tls_record kind p2 ++ rest.

Lemma sent_first log b options :
  Forall u8 b → (write_first_packet b options).2 = Ok tt → FirstPacket b options ∈ log →
  to_target log = written (write_first_packet b options).1 → sent_as log b.
Proof using Type.
  intros Hb Hw Hin Ht.
  assert (Hne : tls_server_name b ≠ Ok []) by (intros He; by rewrite (empty_server_name_panics b options He) in Hw).
  destruct (first_packet_preserved b options Hb Hne) as (w & Ew & [Hsame|(Hf & kind & p1 & p2 & rest & H)]); rewrite Ew in Ht; cbn [fst] in Ht.
  - left. by rewrite Ht.
  - right. exists options, kind, p1, p2, rest. rewrite Ht. destruct H as (H1 & H2 & H3 & H4). by split_and!.
Qed.

(** What a handler has done when it copies: everything before is written, in order. *)
Definition handed_over (initial : bytes) (reply : option bytes) (log : list act) : Prop :=
  Copy ∈ log → ∃ pre, log = pre ++ [Copy] ∧
    (Forall u8 (initial ++ read_later pre) → sent_as pre (initial ++ read_later pre)) ∧ to_client pre = default [] reply.

Lemma not_copied l : Forall (λ a, a ≠ Copy) l → ∀ initial reply, handed_over initial reply l.
Proof. intros H initial reply Hc. rewrite Forall_forall in H. by apply H in Hc. Qed.

Lemma copied pre initial reply :
  (Forall u8 (initial ++ read_later pre) → sent_as pre (initial ++ read_later pre)) → to_client pre = default [] reply →
  handed_over initial reply (pre ++ [Copy]).
Proof. intros H1 H2 _. by exists pre. Qed.

(** Runs a handler: every step may fail. *)
Ltac run_handler :=
  repeat (unfold mbind, handler_bind, send_first, perform, note, bail, from_result, when, mret, handler_ret; cbn [app];
    match goal with
    | |- context [match (write_first_packet ?b ?o).2 with _ => _ end] => destruct (write_first_packet b o).2 as [[]| | |] eqn:?; [|cbn [fst]..]
    | |- context [match outcome ?l ?a with _ => _ end] => destruct (outcome l a); [|cbn [fst]..]
    | |- context [match first_read ?l ?d with _ => _ end] => destruct (first_read l d) as [[|? ?]|]
    end); cbn [fst app].

(** Judges a log that is written out. *)
Ltac judge_log :=
  split; [by repeat (apply Forall_cons; split; [cbn [routed]; eauto 10|])|];
  first
  [ by apply not_copied; repeat (apply Forall_cons; split; [done|])
  | match goal with |- handed_over ?i ?r ?l =>
      let pre := eval cbn [removelast] in (removelast l) in
      apply (copied pre i r); [unfold read_later|unfold to_client]; cbn [fmap list_fmap concat app default]; rewrite ?app_nil_r; try done;
      intros; first
      [ by left; unfold to_target; cbn [fmap list_fmap concat app]; rewrite ?app_nil_r
      | by eapply sent_first; [..|unfold to_target; cbn [fmap list_fmap concat app]; rewrite ?app_nil_r];
          [|eassumption|repeat (apply list_elem_of_here || apply list_elem_of_further)|reflexivity] ]
    end ].

Lemma streamed_dispatch_ok mark ev initial :
  let log := (streamed_dispatch mark ev initial []).1 in
  Forall (routed ev) log ∧ handed_over initial None log.
Proof.
  unfold streamed_dispatch. destruct (ev_decision ev) as [tag| |] eqn:Ed.
  - destruct (dialer tag) as [[| |c|c user x|g]|] eqn:Et; try (destruct initial as [|b initial]; cbn [nonempty]);
      try (destruct (encode_anytls (ev_destination ev)) eqn:Ee); run_handler; judge_log.
  - run_handler. judge_log.
  - destruct resolver eqn:Er; run_handler; judge_log.
Qed.

Lemma anytls_dispatch_ok ev initial :
  let log := (anytls_dispatch ev initial []).1 in
  Forall (routed ev) log ∧ handed_over initial None log.
Proof.
  unfold anytls_dispatch. destruct (ev_decision ev) as [tag| |] eqn:Ed.
  - destruct (dialer tag) as [[| |c|c user x|g]|] eqn:Et; try (destruct initial as [|b initial]; cbn [nonempty]);
      try (destruct (encode_anytls (ev_destination ev)) eqn:Ee); run_handler; judge_log.
  - destruct (negb _); run_handler; judge_log.
  - destruct resolver eqn:Er; run_handler; judge_log.
Qed.

(** These handlers read nothing more from the client before they copy. *)
Definition no_read (a : act) : Prop := match a with ReadFirst _ => False | _ => True end.

Lemma streamed_no_read mark ev initial : Forall no_read (streamed_dispatch mark ev initial []).1.
Proof.
  unfold streamed_dispatch. destruct (ev_decision ev) as [tag| |]; [destruct (dialer tag) as [[| |c|c user x|g]|]| |destruct resolver];
    try (destruct initial as [|b initial]; cbn [nonempty]); try (destruct (encode_anytls (ev_destination ev))); run_handler;
    by repeat (apply Forall_cons; split; [done|]).
Qed.

Lemma anytls_no_read ev initial : Forall no_read (anytls_dispatch ev initial []).1.
Proof.
  unfold anytls_dispatch. destruct (ev_decision ev) as [tag| |];
    [destruct (dialer tag) as [[| |c|c user x|g]|]|destruct (negb _)|destruct resolver];
    try (destruct initial as [|b initial]; cbn [nonempty]); try (destruct (encode_anytls (ev_destination ev))); run_handler;
    by repeat (apply Forall_cons; split; [done|]).
Qed.

Lemma read_later_nil log : Forall no_read log → read_later log = [].
Proof. unfold read_later. induction 1 as [|a log Ha _ IH]; [done|]. cbn. rewrite IH. by destruct a. Qed.

Lemma handle_ok reply initial ev :
  let log := (handle reply initial ev []).1 in
  Forall (routed ev) log ∧ handed_over initial reply log.
Proof.
  unfold handle. destruct (ev_decision ev) as [tag| |] eqn:Ed.
  - destruct (dialer tag) as [[| |c|c user x|g]|] eqn:Et; try (destruct initial as [|b initial]; cbn [nonempty]);
      try (destruct (encode_anytls (ev_destination ev)) eqn:Ee); try (destruct (_ || _)); destruct reply;
      cbn [reply_to]; run_handler; judge_log.
  - destruct (bool_decide _); [|destruct (negb _)]; run_handler; judge_log.
  - destruct resolver eqn:Er, initial as [|b initial], reply; cbn [negb nonempty reply_to]; run_handler; judge_log.
Qed.

(** C23: for every inbound, and whichever of its steps fail, a connection is opened only to the
    outbound and the destination that routing decided, and DNS is served only when
    routing hijacks the connection: a rejected or blocked one reaches nobody. *)
Theorem dials_only_where_routed mark ev reply initial a :
  a ∈ (streamed_dispatch mark ev initial []).1 ∨ a ∈ (anytls_dispatch ev initial []).1 ∨ a ∈ (handle reply initial ev []).1 →
  routed ev a.
Proof.
  intros Ha. destruct (streamed_dispatch_ok mark ev initial) as [H1 _]. destruct (anytls_dispatch_ok ev initial) as [H2 _].
  destruct (handle_ok reply initial ev) as [H3 _]. rewrite Forall_forall in H1, H2, H3. naive_solver.
Qed.

(** When a local inbound starts to copy, the client has its reply and nothing else, and the
    target has the request of the handshake and the bytes read since, in order; then
    nothing but the copying follows. *)
Theorem handle_hands_over reply initial ev log r :
  handle reply initial ev [] = (log, r) → Copy ∈ log →
  ∃ pre, log = pre ++ [Copy] ∧
    (Forall u8 (initial ++ read_later pre) → sent_as pre (initial ++ read_later pre)) ∧ to_client pre = default [] reply.
Proof. intros H. destruct (handle_ok reply initial ev) as [_ Hh]. by rewrite H in Hh. Qed.

End handlers.

(** ** Streams *)

Section streams.
Context {AnyTlsClient XhttpClient : Type} `{N : IpNetLib} `{R : RegexLib}.
Abbreviation acts := (list (act (AnyTlsClient := AnyTlsClient) (XhttpClient := XhttpClient))).
Context (outcome : acts → act (AnyTlsClient := AnyTlsClient) (XhttpClient := XhttpClient) → result unit).
Context (dialer : str → option (Dialer (AnyTlsClient := AnyTlsClient) (XhttpClient := XhttpClient))).
Context (encode_anytls : Destination → result bytes).
Context (router : Router) (resolver : option Resolver) (read : nat → Z → option bytes) (input : RouteInput).

Definition has_resolver : bool := match resolver with Some _ => true | None => false end.

(** [relay_streamed_tcp] and [relay_anytls_tcp]: the bytes taken from the stream to
    decide, and what was done. *)
Definition relay_streamed_tcp (mark : option Z) (destination : Destination) : result (bytes * (acts * result unit)) :=
  '(ev, (initial, taken)) ← evaluate_stream_tcp_route router resolver read destination input;
  Ok (taken, streamed_dispatch outcome has_resolver dialer encode_anytls mark ev initial []).

Definition relay_anytls_tcp (destination : Destination) : result (bytes * (acts * result unit)) :=
  '(ev, (initial, taken)) ← evaluate_stream_tcp_route router resolver read destination input;
  Ok (taken, anytls_dispatch outcome has_resolver dialer encode_anytls ev initial []).

Lemma handed_whole ev initial taken destination (log : acts) :
  evaluate_stream_tcp_route router resolver read destination input = Ok (ev, (initial, taken)) →
  handed_over initial None log → Forall no_read log → Forall u8 taken → Copy ∈ log → ∃ pre, log = pre ++ [Copy] ∧ sent_as pre taken.
Proof.
  intros He Hd Hr Hu Hc. apply sniffed_bytes_kept in He as ->. destruct (Hd Hc) as (pre & -> & Ht & _).
  exists pre. split; [done|]. apply Forall_app in Hr as [Hr _]. rewrite (read_later_nil pre Hr), app_nil_r in Ht. by apply Ht.
Qed.

(** C24: a stream is relayed whole: when copying starts, the target has been sent the bytes that
    routing took from the stream, exactly and in order, so with what is copied from there
    on it gets what the client sent.  When the route asks for [tls_record_fragment] the TLS
    record they start with may have been sent as two records of the same kind that have
    its payload, followed by the same bytes. *)
Theorem relayed_stream_whole mark destination taken log r :
  relay_streamed_tcp mark destination = Ok (taken, (log, r)) ∨ relay_anytls_tcp destination = Ok (taken, (log, r)) →
  Forall u8 taken → Copy ∈ log → ∃ pre, log = pre ++ [Copy] ∧ sent_as pre taken.
Proof.
  intros [H|H] Hu Hc; apply bind_Ok in H as ([ev [initial t]] & He & H); apply Ok_inj in H; injection H as -> H;
    apply (f_equal fst) in H; cbn [fst] in H; subst log.
  - eapply handed_whole; [done| | |done..]; [apply streamed_dispatch_ok|apply streamed_no_read].
  - eapply handed_whole; [done| | |done..]; [apply anytls_dispatch_ok|apply anytls_no_read].
Qed.

End streams.

(** ** Witnesses *)

Definition fragmenting : RouteOptions :=
  Routing.mkOptions None None None None false false None false None true None None None None None None false None false false
    None None None false.

Lemma first_packet_preserved_witness :
  ∃ w, write_first_packet (record_bytes sample_hello) fragmenting = (w, Ok tt) ∧
    written w ≠ record_bytes sample_hello ∧ length (written w) = (5 + length (record_bytes sample_hello))%nat.
Proof.
  destruct (first_packet_preserved (record_bytes sample_hello) fragmenting) as (w & Hw & _).
  - apply (bool_decide_unpack _). vm_compute. exact I.
  - vm_compute. discriminate.
  - exists w. split; [exact Hw|]. vm_compute in Hw. injection Hw as <-. split; [discriminate|reflexivity].
Defined.

Definition sample_evaluation : RouteEvaluation :=
  mkEvaluation (Outbound (lit "direct")) (Ip (V4 1) 443) Routing.default_options [].
Definition all_well (_ : list (act (AnyTlsClient := unit) (XhttpClient := unit))) (_ : act (AnyTlsClient := unit) (XhttpClient := unit))
    : result unit := Ok tt.
Definition direct_only (_ : str) : option (Dialer (AnyTlsClient := unit) (XhttpClient := unit)) := Some Direct.
Definition no_encoding (_ : Destination) : result bytes := Err "none".

Lemma dials_only_where_routed_witness :
  ConnectDirect (Ip (V4 1) 443) Routing.default_options [] ∈
    (handle all_well (λ _ _, None) false direct_only no_encoding None [7] sample_evaluation []).1 ∧
  routed false direct_only no_encoding sample_evaluation (ConnectDirect (Ip (V4 1) 443) Routing.default_options []).
Proof.
  assert (H : ConnectDirect (Ip (V4 1) 443) Routing.default_options [] ∈
    (handle all_well (λ _ _, None) false direct_only no_encoding None [7] sample_evaluation []).1) by left.
  split; [exact H|].
  exact (dials_only_where_routed all_well (λ _ _, None) false direct_only no_encoding None sample_evaluation None [7] _
    (or_intror (or_intror H))).
Defined.

Lemma handle_hands_over_witness :
  ∃ pre, (handle all_well (λ _ _, Some [9; 9]) false direct_only no_encoding (Some [5; 0]) []
      (mkEvaluation (Outbound (lit "direct")) (Ip (V4 1) 443) fragmenting []) []).1 = pre ++ [Copy] ∧
    (Forall u8 (read_later pre) → sent_as pre (read_later pre)) ∧ to_client pre = [5; 0].
Proof.
  destruct (handle all_well (λ _ _, Some [9; 9]) false direct_only no_encoding (Some [5; 0]) []
      (mkEvaluation (Outbound (lit "direct")) (Ip (V4 1) 443) fragmenting []) []) as [log r] eqn:E.
  assert (Hc : Copy ∈ log).
  { vm_compute in E. injection E as <- _. do 4 right. left. }
  destruct (handle_hands_over _ _ _ _ _ _ _ _ _ _ E Hc) as (pre & -> & Ht & Hr). exists pre. split; [reflexivity|].
  split; [exact Ht|exact Hr].
Defined.

#[local] Existing Instance Cidr.lib.
#[local] Existing Instance Literal.regex.

Lemma relayed_stream_whole_witness :
  ∃ log r pre, relay_streamed_tcp all_well direct_only no_encoding sniffing_router no_resolver (λ _ _, Some (lit "SSH-2.0-x"))
      sample_input None (Ip (V4 0xc0a80101) 22) = Ok (lit "SSH-2.0-x", (log, r)) ∧
    log = pre ++ [Copy] ∧ sent_as pre (lit "SSH-2.0-x").
Proof.
  destruct (relay_streamed_tcp all_well direct_only no_encoding sniffing_router no_resolver (λ _ _, Some (lit "SSH-2.0-x"))
      sample_input None (Ip (V4 0xc0a80101) 22)) as [[taken [log r]]|e| |] eqn:E; [|exfalso; vm_compute in E; discriminate E..].
  assert (Hc : taken = lit "SSH-2.0-x" ∧ Copy ∈ log).
  { vm_compute in E. injection E as <- <- _. split; [reflexivity|]. do 2 right. left. }
  destruct Hc as [-> Hc].
  destruct (relayed_stream_whole _ _ _ _ _ _ _ _ _ _ _ _ (or_introl E)) as (pre & Hl & Ht);
    [apply (bool_decide_unpack _); vm_compute; exact I|exact Hc|].
  exists log, r, pre. split; [reflexivity|]. split; [exact Hl|exact Ht].
Defined.
