(* ===== verification/UdpRelay.v ===== *)
(** * UDP flows through an outbound (src/src/proxy/relay.rs, src/src/proxy/udp.rs)

    A flow of datagrams from the TUN device, from a SOCKS association or from an AnyTLS
    client goes out through a socket, a VLESS stream or an AnyTLS stream.  Each relay is
    a loop that waits for a datagram of the client or something from the other side,
    whichever comes first: a state machine.  What the loop had read of a stream when
    the other branch won is gone with its future. *)

From S2P Require Import Prelude RustStr Net Util Vless Xudp Routing RouteEval SocksUdp Outbound Direct Relay.

(** ** The VLESS side *)

(** What the loop of a VLESS stream keeps. *)
Record Flow := mkFlow {
  first_packet : bool;
  response_read : bool;
  partial : bytes;  (* read by the pending future *)
}.

Definition flow_init : Flow := mkFlow true false [].

Definition to_result {A} (w : writer A) : result (bytes * A) := a ← w.2; Ok (w.1, a).

(** A datagram to the stream: an XUDP frame, or its length and bytes. *)
Definition vless_datagram (xudp first : bool) (d : Destination) (payload : bytes) : result bytes :=
  if xudp then '(b, _) ← to_result (write_xudp_packet first d payload); Ok b
  else
    n ← context (try_uint 16 (Z.of_nat (length payload))) "UDP packet too large";
    Ok (to_be 2 n ++ payload).

Definition read_datagram (xudp : bool) : reader (option Destination * bytes) :=
  if xudp then read_xudp_packet
  else
    length ← read_u16;
    payload ← read_exact (Z.to_nat length);
    mret (None, payload).

(** Runs a pending read with what arrived so far. *)
Definition pending_read {A} (m : reader A) (b : bytes) : result (option (A * bytes)) :=
  match m b with
  | Ok r => Ok (Some r)
  | Err e => if String.eqb e "early eof" then Ok None else Err e
  | Panic => Panic
  | Diverge => Diverge
  end.

(** A byte of the stream: perhaps the end of the response header, perhaps of a datagram. *)
Definition stream_byte (xudp : bool) (s : Flow) (b : Z) : result (Flow * option (option Destination * bytes)) :=
  let buf := s.(partial) ++ [b] in
  '(seen, buf) ←
    (if s.(response_read) then Ok (true, buf)
     else
       r ← pending_read read_response buf;
       match r with Some (_, rest) => Ok (true, rest) | None => Ok (false, buf) end);
  if negb seen then Ok (mkFlow s.(first_packet) false buf, None)
  else
    r ← pending_read (read_datagram xudp) buf;
    match r with
    | Some (packet, rest) => Ok (mkFlow s.(first_packet) true rest, Some packet)
    | None => Ok (mkFlow s.(first_packet) true buf, None)
    end.

(** The other branch won: the pending future is dropped with what it had read. *)
Definition interrupted (s : Flow) : Flow := mkFlow s.(first_packet) s.(response_read) [].
Definition sent (s : Flow) : Flow := mkFlow false s.(response_read) [].

(** ** Flows *)

(** What happens to a flow. *)
Inductive flow_event :=
  | FromClient (payload : bytes) (destination : SocketAddr)
  | FromSocket (payload : bytes) (source : SocketAddr)
  | StreamByte (b : Z)
  | UotPacket (address : Destination) (payload : bytes)
  | ClientClosed
  | Idle
  | Broken (msg : string).

(** What a flow does. *)
Inductive flow_effect :=
  | SendTo (payload : bytes) (target : SocketAddr)
  | WriteStream (b : bytes)
  | UotOpen (connected : bool) (d : Destination)
  | UotWrite (d : Destination) (payload : bytes) (connected : bool)
  | Respond (payload : bytes) (source client : SocketAddr)
  | RespondSocks (datagram : bytes) (client : SocketAddr)
  | RespondUot (d : Destination) (payload : bytes) (connected : bool).

(** The other side of a flow. *)
Inductive leg :=
  | DirectLeg (target : SocketAddr) (connected : bool)
  | VlessLeg (xudp : bool)
  | UotLeg (connected : bool).

(** A turn of a loop: the state to go on with, or the end of the task. *)
Definition turn : Type := result (option Flow * list flow_effect).

Definition goes_on (s : Flow) (l : list flow_effect) : turn := Ok (Some s, l).

Definition ip_destination (a : SocketAddr) : Destination := Ip a.(sa_ip) a.(sa_port).

(** How long a flow may be silent. *)
Definition flow_timeout (options : RouteOptions) (otherwise : Z) : Z :=
  match options.(udp_timeout) with Some v => parse_duration_lenient (Some v) | None => otherwise end.

Section flows.
Context (lookup : option (str → result (list IpAddr))) (system : str → Z → result (list SocketAddr)).
Context (setsockopt : sockopt → option string).

(** *** TUN *)

Section tun.
(** The client, where its first datagram went, and the evaluated route. *)
Context (source original : SocketAddr) (destination : Destination) (options : RouteOptions).

Definition respond_tun (payload : bytes) (from : Destination) : result flow_effect :=
  address ← destination_socket_addr lookup from; Ok (Respond payload address source).

Definition tun_udp_step (l : leg) (s : Flow) (e : flow_event) : turn :=
  match e, l with
  | Idle, _ => Err "TUN UDP session idle timeout"
  | Broken msg, _ => Err msg
  | ClientClosed, _ => Ok (None, [])
  | FromClient payload to, DirectLeg target connected => goes_on s [SendTo payload (if connected then target else to)]
  | FromSocket payload from, DirectLeg _ _ =>
    r ← respond_tun payload (udp_response_destination destination from options); goes_on s [r]
  | FromClient payload to, VlessLeg xudp =>
    if negb xudp && negb (bool_decide (to = original)) then
      Err "classic VLESS UDP cannot change destination within one NAT mapping"
    else
      b ← vless_datagram xudp s.(first_packet) (ip_destination to) payload;
      goes_on (sent s) [WriteStream b]
  | StreamByte b, VlessLeg xudp =>
    '(s, packet) ← stream_byte xudp s b;
    match packet with
    | None => goes_on s []
    | Some (address, payload) =>
      r ← respond_tun payload (match address with
                               | Some a => udp_response_proxy_destination destination a options
                               | None => destination
                               end);
      goes_on s [r]
    end
  | FromClient payload to, UotLeg connected => goes_on s [UotWrite (ip_destination to) payload connected]
  | UotPacket address payload, UotLeg _ =>
    r ← respond_tun payload (udp_response_proxy_destination destination address options); goes_on s [r]
  | _, _ => goes_on s []
  end.

(** What happens before the loop: the leg, and what is written to open it. *)
Definition tun_udp_open `{UuidLib} {A X} (fixed_destination : bool) (dialer : Dialer (AnyTlsClient := A) (XhttpClient := X))
    : result (option (leg * list flow_effect)) :=
  match dialer with
  | Block => Ok None
  | Direct =>
    target ← resolve_udp lookup system destination;
    _ ← direct_udp_socket setsockopt target options;
    Ok (Some (DirectLeg target (options.(udp_connect) && fixed_destination), []))
  | VlessDialer _ user xudp =>
    '(b, _) ← to_result (write_request_with_command user (if xudp then Xudp else Udp) destination);
    Ok (Some (VlessLeg xudp, [WriteStream b]))
  | AnyTls _ => Ok (Some (UotLeg fixed_destination, [UotOpen fixed_destination destination]))
  | GroupDialer _ => Panic
  end.

(** Messages for the resolver, when the route says so. *)
Definition tun_dns_step (exchange : bytes → result bytes) (s : Flow) (e : flow_event) : turn :=
  match e with
  | FromClient payload _ => response ← exchange payload; goes_on s [Respond response original source]
  | ClientClosed => Ok (None, [])
  | _ => goes_on s []
  end.

End tun.

(** What becomes of a flow once its route is evaluated. *)
Inductive flow_task {D : Type} :=
  | ServeDns
  | Nothing
  | RelayTo (d : D) (options : RouteOptions).
Arguments flow_task D : clear implicits.

Definition tun_udp_task {A X} (mark : option Z) (has_resolver : bool)
    (dialer : str → option (Dialer (AnyTlsClient := A) (XhttpClient := X))) (ev : RouteEvaluation)
    : result (flow_task (Dialer (AnyTlsClient := A) (XhttpClient := X))) :=
  let options := set_mark ev.(ev_options) mark in
  match ev.(ev_decision) with
  | HijackDns => if has_resolver then Ok ServeDns else Err "DNS hijack requires a DNS configuration"
  | Reject => Ok Nothing
  | Outbound tag =>
    d ← context (dialer tag) "unknown outbound";
    match d with Block => Ok Nothing | d => Ok (RelayTo d options) end
  end.

(** *** A session of a SOCKS association *)

Section socks.
Context (client : SocketAddr) (destination : Destination) (options : RouteOptions).

Definition respond_socks (payload : bytes) (from : Destination) : result flow_effect :=
  b ← encode_socks_udp from payload; Ok (RespondSocks b client).

Definition udp_session_step (l : leg) (s : Flow) (e : flow_event) : turn :=
  match e, l with
  | Idle, _ => Err "UDP session idle timeout"
  | Broken msg, _ => Err msg
  | ClientClosed, _ => Ok (None, [])
  | FromClient payload _, DirectLeg target _ => goes_on s [SendTo payload target]
  | FromSocket payload from, DirectLeg _ _ =>
    r ← respond_socks payload (udp_response_destination destination from options); goes_on s [r]
  | FromClient payload _, VlessLeg xudp =>
    b ← vless_datagram xudp s.(first_packet) destination payload;
    goes_on (sent s) [WriteStream b]
  | StreamByte b, VlessLeg xudp =>
    '(s, packet) ← stream_byte xudp s b;
    match packet with
    | None => goes_on s []
    | Some (from, payload) =>
      r ← respond_socks payload (match from with
                                 | Some a => udp_response_proxy_destination destination a options
                                 | None => destination
                                 end);
      goes_on s [r]
    end
  | FromClient payload _, UotLeg _ => goes_on s [UotWrite destination payload true]
  | UotPacket address payload, UotLeg _ =>
    r ← respond_socks payload (udp_response_proxy_destination destination address options); goes_on s [r]
  | _, _ => goes_on s []
  end.

Definition udp_session_open `{UuidLib} {A X} (dialer : Dialer (AnyTlsClient := A) (XhttpClient := X)) : result (option (leg * list flow_effect)) :=
  match dialer with
  | Block => Ok None
  | Direct =>
    target ← resolve_udp lookup system destination;
    _ ← direct_udp_socket setsockopt target options;
    Ok (Some (DirectLeg target options.(udp_connect), []))
  | VlessDialer _ user xudp =>
    '(b, _) ← to_result (write_request_with_command user (if xudp then Xudp else Udp) destination);
    Ok (Some (VlessLeg xudp, [WriteStream b]))
  | AnyTls _ => Ok (Some (UotLeg true, [UotOpen true destination]))
  | GroupDialer _ => Panic
  end.

End socks.

(** *** An AnyTLS client *)

Section anytls.
(** The request of the client: whether it is connected; the evaluated route. *)
Context (is_connect : bool) (destination : Destination) (options : RouteOptions).

(** Where the address of a datagram is not the socket's: [UotPacket] is a datagram of the
    client here. *)
Definition anytls_direct_step (first_target : SocketAddr) (connected : bool) (s : Flow) (e : flow_event) : turn :=
  match e with
  | Idle => Err "AnyTLS direct UDP idle timeout"
  | Broken msg => Err msg
  | UotPacket address payload =>
    target ← (if connected then Ok first_target else resolve_udp lookup system (override_destination address options));
    goes_on s [SendTo payload target]
  | FromSocket payload from =>
    goes_on s [RespondUot (udp_response_destination destination (if connected then first_target else from) options) payload is_connect]
  | _ => goes_on s []
  end.

(** The socket, and the first datagram. *)
Definition anytls_direct_open (first : bytes) : result (SocketAddr * bool * list flow_effect) :=
  target ← resolve_udp lookup system destination;
  _ ← direct_udp_socket setsockopt target options;
  Ok (target, is_connect || options.(udp_connect), [SendTo first target]).

Definition anytls_vless_step (xudp : bool) (s : Flow) (e : flow_event) : turn :=
  match e with
  | Broken msg => Err msg
  | UotPacket address payload => b ← vless_datagram xudp false address payload; goes_on (interrupted s) [WriteStream b]
  | StreamByte b =>
    '(s, packet) ← stream_byte xudp s b;
    match packet with
    | None => goes_on s []
    | Some (from, payload) => goes_on s [RespondUot (default destination from) payload is_connect]
    end
  | _ => goes_on s []
  end.

(** The request, the response and the first datagram come before the loop. *)
Definition anytls_vless_open `{UuidLib} (user : str) (xudp : bool) (first : bytes) : result (bytes * bytes) :=
  if negb xudp && negb is_connect then Err "unconnected UoT requires VLESS XUDP" else
  '(request, _) ← to_result (write_request_with_command user (if xudp then Xudp else Udp) destination);
  b ← vless_datagram xudp true destination first;
  Ok (request, b).

(** DNS messages of the client, answered by the resolver. *)
Definition anytls_dns_step (exchange : bytes → result bytes) (s : Flow) (e : flow_event) : turn :=
  match e with
  | Idle => Err "AnyTLS hijacked DNS UDP idle timeout"
  | Broken msg => Err msg
  | UotPacket address payload => response ← exchange payload; goes_on s [RespondUot address response is_connect]
  | _ => goes_on s []
  end.

End anytls.

(** What an AnyTLS client is told, and what becomes of its flow. *)
Inductive uot_reply := UotSuccess | UotFailure (msg : string).

Definition anytls_udp_task {A X} (has_resolver : bool) (dialer : str → option (Dialer (AnyTlsClient := A) (XhttpClient := X)))
    (is_connect : bool) (ev : RouteEvaluation)
    : list uot_reply * result (flow_task (Dialer (AnyTlsClient := A) (XhttpClient := X))) :=
  let options := ev.(ev_options) in
  match ev.(ev_decision) with
  | HijackDns => if has_resolver then ([UotSuccess], Ok ServeDns) else ([], Err "DNS hijack requires a DNS configuration")
  | Reject =>
    (if bool_decide (options.(reject_method) = Some (lit "drop")) then [] else [UotFailure "UDP connection rejected by route"],
     Err "AnyTLS UDP connection rejected")
  | Outbound tag =>
    match dialer tag with
    | None => ([], Err "unknown outbound")
    | Some Direct => ([UotSuccess], Ok (RelayTo Direct options))
    | Some (AnyTls client) => ([UotSuccess], Ok (RelayTo (AnyTls client) options))
    | Some (VlessDialer client user xudp) =>
      if negb xudp && negb is_connect then ([UotFailure "unconnected UoT requires VLESS XUDP"], Err "unconnected UoT requires VLESS XUDP")
      else ([UotSuccess], Ok (RelayTo (VlessDialer client user xudp) options))
    | Some Block => ([UotFailure "UDP connection blocked"], Err "AnyTLS UDP connection blocked")
    | Some (GroupDialer _) => ([], Panic)
    end
  end.

(** To another AnyTLS server the first datagram is written and the rest is copied. *)
Definition anytls_copy_open (is_connect : bool) (destination : Destination) (first : bytes) : list flow_effect :=
  [UotOpen is_connect destination; UotWrite destination first is_connect].

End flows.

(** A task over the events of its life. *)
Fixpoint run_flow (step : Flow → flow_event → turn) (s : Flow) (events : list flow_event) : result (list flow_effect) :=
  match events with
  | [] => Ok []
  | e :: events =>
    '(next, effects) ← step s e;
    match next with
    | None => Ok effects
    | Some s => rest ← run_flow step s events; Ok (effects ++ rest)
    end
  end.

(** ** What reaches the server *)

(** The datagrams of the client until it closes. *)
Fixpoint client_packets (events : list flow_event) : list (bytes * SocketAddr) :=
  match events with
  | [] | ClientClosed :: _ => []
  | FromClient payload to :: events => (payload, to) :: client_packets events
  | _ :: events => client_packets events
  end.

Definition written (l : list flow_effect) : bytes := concat (omap (λ e, match e with WriteStream b => Some b | _ => None end) l).

(** The frames of a flow: the first opens session 0. *)
Fixpoint xudp_frames (first : bool) (packets : list (bytes * Destination)) : list XudpFrame :=
  match packets with
  | [] => []
  | (payload, to) :: packets => mkXudpFrame 0 (if first then 1 else 2) (Some to) (Some payload) :: xudp_frames false packets
  end.

Definition packet_ok (p : bytes * Destination) : Prop := Z.of_nat (length p.1) ≤ 65535 ∧ encodable p.2.

Lemma flow_written_app a b : written (a ++ b) = written a ++ written b.
Proof. unfold written. by rewrite omap_app, concat_app. Qed.

Lemma xudp_datagram first d payload : packet_ok (payload, d) →
  vless_datagram true first d payload = Ok (frame_bytes (mkXudpFrame 0 (if first then 1 else 2) (Some d) (Some payload))).
Proof. intros [Hl Hd]. unfold vless_datagram, to_result, write_xudp_packet. by rewrite frame_bytes_written. Qed.

Lemma stream_byte_first xudp s b s' packet : stream_byte xudp s b = Ok (s', packet) → s'.(first_packet) = s.(first_packet).
Proof.
  unfold stream_byte. intros H. apply bind_Ok in H as ([seen buf] & _ & H). destruct (negb seen); [by injection H as <- _|].
  apply bind_Ok in H as (r & _ & H). by destruct r as [[[] ]|]; injection H as <- _.
Qed.

(** A relay that writes XUDP: each datagram of the client is one frame, in order, and
    nothing else is written. *)
Definition writes_xudp (dest : SocketAddr → Destination) (step : Flow → flow_event → turn) : Prop :=
  ∀ s e next effects, step s e = Ok (next, effects) →
  match e with
  | FromClient payload to =>
    ∃ b s', vless_datagram true s.(first_packet) (dest to) payload = Ok b ∧ written effects = b ∧ next = Some s' ∧ s'.(first_packet) = false
  | ClientClosed => next = None ∧ written effects = []
  | _ => ∃ s', next = Some s' ∧ s'.(first_packet) = s.(first_packet) ∧ written effects = []
  end.

Lemma tun_writes_xudp lookup source original destination options :
  writes_xudp ip_destination (tun_udp_step lookup source original destination options (VlessLeg true)).
Proof.
  intros s e next effects H. destruct e; cbn [tun_udp_step negb andb] in H; try (injection H as <- <-; by eauto); try done.
  - apply bind_Ok in H as (b & Hb & H). injection H as <- <-. exists b, (sent s). split_and!; [done|apply app_nil_r|done|done].
  - apply bind_Ok in H as ([s' packet] & Hb & H). apply stream_byte_first in Hb. destruct packet as [[address payload']|].
    + apply bind_Ok in H as (r & Hr & H). unfold respond_tun in Hr. apply bind_Ok in Hr as (a & _ & Hr). injection Hr as <-.
      injection H as <- <-. by eauto.
    + injection H as <- <-. by eauto.
Qed.

Lemma socks_writes_xudp client destination options :
  writes_xudp (λ _, destination) (udp_session_step client destination options (VlessLeg true)).
Proof.
  intros s e next effects H. destruct e; cbn [udp_session_step] in H; try (injection H as <- <-; by eauto); try done.
  - apply bind_Ok in H as (b & Hb & H). injection H as <- <-. exists b, (sent s). split_and!; [done|apply app_nil_r|done|done].
  - apply bind_Ok in H as ([s' packet] & Hb & H). apply stream_byte_first in Hb. destruct packet as [[address payload']|].
    + apply bind_Ok in H as (r & Hr & H). unfold respond_socks in Hr. apply bind_Ok in Hr as (a & _ & Hr). injection Hr as <-.
      injection H as <- <-. by eauto.
    + injection H as <- <-. by eauto.
Qed.

Definition sent_packets (dest : SocketAddr → Destination) (events : list flow_event) : list (bytes * Destination) :=
  map (λ '(payload, to), (payload, dest to)) (client_packets events).

Lemma run_flow_written dest step events : writes_xudp dest step → ∀ s effects, run_flow step s events = Ok effects →
  Forall packet_ok (sent_packets dest events) →
  written effects = mjoin (frame_bytes <$> xudp_frames s.(first_packet) (sent_packets dest events)).
Proof.
  intros Hstep. induction events as [|e events IH]; intros s effects H Hok; cbn [run_flow] in H; [by injection H as <-|].
  apply bind_Ok in H as ([next l] & Hs & H). apply Hstep in Hs.
  assert (Hskip : (∃ s', next = Some s' ∧ s'.(first_packet) = s.(first_packet) ∧ written l = []) → sent_packets dest (e :: events) = sent_packets dest events →
    written effects = mjoin (frame_bytes <$> xudp_frames s.(first_packet) (sent_packets dest (e :: events)))).
  { intros (s' & -> & Hf & Hl) He. apply bind_Ok in H as (rest & Hr & H). injection H as <-. rewrite He in *.
    by rewrite flow_written_app, Hl, (IH s' rest Hr Hok), <- Hf. }
  destruct e as [payload to| | | | | |]; try (by apply Hskip).
  - destruct Hs as (b & s' & Hb & Hw & -> & Hf). apply bind_Ok in H as (rest & Hr & H). injection H as <-.
    cbn [sent_packets client_packets map] in *. apply Forall_cons in Hok as [Hp Hok].
    rewrite (xudp_datagram s.(first_packet) (dest to) payload Hp) in Hb. injection Hb as <-.
    rewrite flow_written_app, Hw, (IH s' rest Hr Hok), Hf. done.
  - destruct Hs as [-> Hw]. injection H as <-. by rewrite Hw.
Qed.

(** *** The server *)

Lemma xudp_frames_ok first packets : Forall packet_ok packets → Forall frame_ok (xudp_frames first packets).
Proof.
  intros H. revert first. induction H as [|[payload to] packets [Hl Hd] H IH]; intros first; cbn; constructor; [|done].
  split_and!; cbn; [|done..]. unfold uint. lia.
Qed.

Section server.
Context (resolve : Destination → option SocketAddr) (bind_socket : SocketAddr → bool).

(** The items of a flow at its server: session 0 alone, and its task does not end. *)
Lemma flow_keeps before items packets :
  is_Some (channel 0 before) → arrived items = xudp_frames false packets → Ended 0 ∉ items →
  admitted resolve bind_socket before items = true.
Proof.
  revert before packets. induction items as [|i items IH]; intros before packets Hc Ha He; [done|].
  apply not_elem_of_cons in He as [Hi He]. cbn [admitted].
  destruct i as [f|session source payload|session|session]; cbn [allowed].
  - destruct packets as [|[payload to] packets]; [done|]. injection Ha as -> Ha. cbn. rewrite bool_decide_true by done. cbn.
    eapply IH; [|exact Ha|done]. rewrite channel_snoc. by apply fmap_is_Some.
  - eapply IH; [|exact Ha|done]. by rewrite channel_snoc.
  - eapply IH; [|exact Ha|done]. rewrite channel_snoc. cbn. destruct (session =? 0); [by apply fmap_is_Some|done].
  - eapply IH; [|exact Ha|done]. rewrite channel_snoc. cbn. rewrite (proj2 (Z.eqb_neq _ _)) by congruence. done.
Qed.

Lemma flow_admitted before items payload to packets target :
  resolve to = Some target → bind_socket target = true → mentioned before = [] →
  arrived items = xudp_frames true ((payload, to) :: packets) → Ended 0 ∉ items →
  admitted resolve bind_socket before items = true.
Proof.
  intros Hr Hb. revert before. induction items as [|i items IH]; intros before Hm Ha He; [done|].
  apply not_elem_of_cons in He as [Hi He]. cbn [admitted].
  assert (Hnext : mentioned [i] = [] → mentioned (before ++ [i]) = []) by (unfold mentioned in *; rewrite omap_app, Hm; done).
  destruct i as [f|session source payload'|session|session]; cbn [allowed]; try (apply IH; [by apply Hnext|exact Ha|done]).
  injection Ha as -> Ha. cbn [xf_status xf_session xf_destination].
  assert (Hc : channel 0 before = None).
  { apply eq_None_not_Some. intros Hs%channel_mentioned. rewrite Hm in Hs. by apply not_elem_of_nil in Hs. }
  rewrite bool_decide_true by done. unfold open_sessions. rewrite Hm. unfold reachable_destination. cbn [mbind option_bind]. rewrite Hr, Hb.
  change (length _ <? MAX_XUDP_SESSIONS)%nat with true. cbn [andb]. eapply flow_keeps; [|exact Ha|done].
  rewrite channel_snoc. by eexists.
Qed.

(** What the task took and what waits for it are the frames that arrived. *)
Lemma flow_taken q items packets :
  arrived items = xudp_frames false packets → Ended 0 ∉ items →
  ∃ q', fold_left (session_next 0) items (Some q) = Some q' ∧ delivered 0 (Some q) items ++ q' = q ++ arrived items.
Proof.
  revert q packets. induction items as [|i items IH]; intros q packets Ha He; [exists q; by rewrite app_nil_r|].
  apply not_elem_of_cons in He as [Hi He]. cbn [fold_left delivered].
  destruct i as [f|session source payload|session|session].
  - destruct packets as [|[payload to] packets]; [done|]. injection Ha as -> Ha. cbn.
    destruct (IH (q ++ [mkXudpFrame 0 2 (Some to) (Some payload)]) packets Ha He) as (q' & Hq & Hd). exists q'. split; [exact Hq|]. by rewrite Hd, <- app_assoc.
  - exact (IH q packets Ha He).
  - cbn [session_next]. destruct (session =? 0); [|destruct (IH q packets Ha He) as (q' & Hq & Hd); exists q'; by destruct q].
    destruct q as [|f q]; [exact (IH [] packets Ha He)|]. destruct (IH q packets Ha He) as (q' & Hq & Hd). exists q'.
    split; [exact Hq|]. cbn. by rewrite Hd.
  - cbn [session_next]. rewrite (proj2 (Z.eqb_neq _ _)) by congruence. exact (IH q packets Ha He).
Qed.

Lemma flow_taken_all items payload to packets :
  arrived items = xudp_frames true ((payload, to) :: packets) → Ended 0 ∉ items →
  ∃ q', channel 0 items = Some q' ∧ delivered 0 None items ++ q' = arrived items.
Proof.
  unfold channel. induction items as [|i items IH]; intros Ha He; [done|].
  apply not_elem_of_cons in He as [Hi He]. cbn [fold_left delivered].
  destruct i as [f|session source payload'|session|session]; cbn [session_next].
  - injection Ha as -> Ha. cbn. destruct (flow_taken [mkXudpFrame 0 1 (Some to) (Some payload)] items packets Ha He) as (q' & Hq & Hd). exists q'. split; [exact Hq|exact Hd].
  - exact (IH Ha He).
  - destruct (session =? 0); exact (IH Ha He).
  - destruct (session =? 0); exact (IH Ha He).
Qed.

End server.

Section delivery.
Context {U : UuidLib} {UL : UuidLaws U}.
Context (resolve : Destination → option SocketAddr) (bind_socket : SocketAddr → bool) (users : list str).

(** The server, given what a flow wrote after the request. *)
Lemma flow_delivered user id d dest step events effects evs items part :
  user ∈ users → uuid_parse user = Some id → encodable d → writes_xudp dest step →
  run_flow step flow_init events = Ok effects → Forall packet_ok (sent_packets dest events) →
  (∃ p0 target, head (sent_packets dest events) = Some p0 ∧ resolve p0.2 = Some target ∧ bind_socket target = true) →
  stream_bytes evs = written effects → script (xudp_frames true (sent_packets dest events)) 0 evs = Some (items, part) →
  Forall answer_ok items → Ended 0 ∉ items →
  ∃ request sessions q, write_request_with_command user Xudp d = (request, Ok tt) ∧
    serve users (request ++ written effects) = Ok (mkRequest Xudp (Domain [] 0), [0; 0], written effects) ∧
    relay_run resolve bind_socket relay_init evs = Ok (mkRelay sessions [] (answers items)) ∧
    live sessions !! 0 = Some (mkChan false q) ∧
    delivered 0 None items ++ q = xudp_frames true (sent_packets dest events).
Proof.
  intros Hu Hid Hd Hstep Hrun Hok (p0 & target & Hh & Hr & Hb) Hev Hsc Hans Hend.
  destruct (serve_request_bytes users user id Xudp d (written effects) Hu Hid Hd) as [Hw Hs].
  pose proof (run_flow_written dest step events Hstep flow_init effects Hrun Hok) as Hwr. cbn [flow_init first_packet] in Hwr.
  pose proof (xudp_frames_ok true _ Hok) as Hfs.
  destruct (sent_packets dest events) as [|[payload to] packets] eqn:E; [done|]. injection Hh as <-.
  destruct (script_arrived evs _ 0 items part Hsc) as [Harr ->]; [apply frame_bytes_pos|by rewrite Hev, Hwr|].
  pose proof (relay_follows_script resolve bind_socket evs _ 0 relay_init [] items [] Hfs Hsc Hans (waiting_nil _ _ _) sessions_held_init) as Hrel.
  unfold follows in Hrel. rewrite (flow_admitted resolve bind_socket [] items payload to packets target) in Hrel by done.
  destruct Hrel as (sessions & Hrel & Hlive). destruct (flow_taken_all items payload to packets Harr Hend) as (q & Hq & Hdel).
  exists (write_request_with_command user Xudp d).1, sessions, q. split_and!; [|exact Hs|exact Hrel| |by rewrite Hdel].
  - destruct (write_request_with_command user Xudp d) as [b r]. cbn in *. by subst.
  - rewrite Hlive. cbn [app]. by rewrite Hq.
Qed.

(** C35: a flow of the TUN device through a VLESS outbound with XUDP reaches its server:
    the server accepts the stream that the flow writes, and whatever the size of the
    pieces in which it arrives, whenever the task of the session takes a datagram, and
    whatever answers are sent back between frames, the datagrams of the flow reach the
    task each once, in order and with its own destination (those it has not taken wait
    in its channel), and the client is sent exactly the answers.  Conditions: the first
    destination can be reached, the task of the session does not end, and no answer is
    sent while a frame is partly read, which would lose the bytes read. *)
Theorem tun_flow_reaches_server {A X} user id lookup system setsockopt source original destination options (client : X) fixed l opening events effects evs items part :
  user ∈ users → uuid_parse user = Some id → encodable destination →
  tun_udp_open lookup system setsockopt destination options fixed (VlessDialer (AnyTlsClient := A) client user true) = Ok (Some (l, opening)) →
  run_flow (tun_udp_step lookup source original destination options l) flow_init events = Ok effects →
  Forall packet_ok (sent_packets ip_destination events) →
  (∃ p0 target, head (sent_packets ip_destination events) = Some p0 ∧ resolve p0.2 = Some target ∧ bind_socket target = true) →
  stream_bytes evs = written effects → script (xudp_frames true (sent_packets ip_destination events)) 0 evs = Some (items, part) →
  Forall answer_ok items → Ended 0 ∉ items →
  ∃ sessions q, serve users (written (opening ++ effects)) = Ok (mkRequest Xudp (Domain [] 0), [0; 0], written effects) ∧
    relay_run resolve bind_socket relay_init evs = Ok (mkRelay sessions [] (answers items)) ∧
    live sessions !! 0 = Some (mkChan false q) ∧
    delivered 0 None items ++ q = xudp_frames true (sent_packets ip_destination events).
Proof.
  intros Hu Hid Hd Hopen Hrun Hok Hfirst Hev Hsc Hans Hend. unfold tun_udp_open, to_result in Hopen.
  destruct (serve_request_bytes users user id Xudp destination [] Hu Hid Hd) as [Hw _]. rewrite Hw in Hopen. cbn [mbind result_bind] in Hopen.
  injection Hopen as <- <-.
  destruct (flow_delivered user id destination ip_destination _ events effects evs items part Hu Hid Hd (tun_writes_xudp _ _ _ _ _) Hrun Hok Hfirst Hev Hsc Hans Hend)
    as (request & sessions & q & Hreq & Hs & Hrelay & Hl & Hdel).
  exists sessions, q. rewrite flow_written_app. unfold written at 1. cbn [omap list_omap concat]. rewrite app_nil_r, Hreq. cbn [fst]. by split_and!.
Qed.

End delivery.

(** ** What comes back *)

(** A piece of the life of a flow: a datagram of the client, or a whole frame of the server. *)
Inductive burst := ClientBurst (payload : bytes) (to : SocketAddr) | FrameBurst (frame : bytes).

Definition burst_events (b : burst) : list flow_event :=
  match b with ClientBurst payload to => [FromClient payload to] | FrameBurst frame => StreamByte <$> frame end.

Definition responses (l : list flow_effect) : list (bytes * SocketAddr * SocketAddr) :=
  omap (λ e, match e with Respond payload from to => Some (payload, from, to) | _ => None end) l.

(** The frame carries a datagram from an address. *)
Definition carries (frame : bytes) (payload : bytes) (from : SocketAddr) : Prop :=
  ∃ status, status ≠ 3 ∧ read_xudp_frame frame = Ok (mkXudpFrame 0 status (Some (ip_destination from)) (Some payload), []).

Inductive carried : list burst → list (bytes * SocketAddr) → Prop :=
  | carried_nil : carried [] []
  | carried_client payload to bursts l : Z.of_nat (length payload) ≤ 65535 → encodable (ip_destination to) → carried bursts l →
    carried (ClientBurst payload to :: bursts) l
  | carried_frame frame payload from bursts l : carries frame payload from → carried bursts l →
    carried (FrameBurst frame :: bursts) ((payload, from) :: l).

Lemma read_packet_frame frame payload from : carries frame payload from →
  read_xudp_packet frame = Ok ((Some (ip_destination from), payload), []) ∧ frame ≠ [] ∧
  ∀ p q, frame = p ++ q → q ≠ [] → read_xudp_packet p = Err "early eof".
Proof.
  intros (status & Hst & Hr). assert (Hne : frame ≠ []) by (intros ->; discriminate). split_and!; [|done|].
  - unfold read_xudp_packet. cbn [read_xudp_packet_loop]. erewrite rbind_eq by exact Hr. cbn [xf_status xf_payload xf_destination].
    by rewrite (proj2 (Z.eqb_neq status 3) Hst).
  - intros p q Hpq Hq. assert (Hs := streaming_xudp_frame _ _ _ Hr). destruct Hs as (c & Hc & _ & Hpre). rewrite app_nil_r in Hc. subst c.
    unfold read_xudp_packet. cbn [read_xudp_packet_loop]. unfold mbind, reader_bind. by rewrite (Hpre p q Hpq Hq).
Qed.

Section returning.
Context (lookup : option (str → result (list IpAddr))) (source original : SocketAddr) (address : SocketAddr) (options : RouteOptions).

Definition step_xudp : Flow → flow_event → turn := tun_udp_step lookup source original (ip_destination address) options (VlessLeg true).

Lemma run_frame_bytes frame payload from first rest : carries frame payload from →
  run_flow step_xudp (mkFlow first true []) ((StreamByte <$> frame) ++ rest) =
    (l ← run_flow step_xudp (mkFlow first true []) rest; Ok (Respond payload from source :: l)).
Proof.
  intros Hc. destruct (read_packet_frame frame payload from Hc) as (Hr & Hne & Hp).
  enough (∀ q p, frame = p ++ q → q ≠ [] → run_flow step_xudp (mkFlow first true p) ((StreamByte <$> q) ++ rest) =
    (l ← run_flow step_xudp (mkFlow first true []) rest; Ok (Respond payload from source :: l))) as H by (by apply (H frame [])).
  induction q as [|b q IH]; intros p Hpq Hq; [done|]. cbn [fmap list_fmap app run_flow]. cbn [step_xudp tun_udp_step].
  unfold stream_byte. cbn [partial response_read first_packet mbind result_bind negb]. unfold pending_read, read_datagram.
  destruct q as [|b' q].
  - rewrite <- Hpq, Hr. cbn [mbind result_bind]. unfold respond_tun, udp_response_proxy_destination, ip_destination. rewrite andb_false_r.
    cbn [destination_socket_addr mbind result_bind goes_on app]. unfold Vless.port. destruct from as [ip port]. cbn [sa_ip sa_port].
    reflexivity.
  - rewrite (Hp (p ++ [b]) (b' :: q)); [|by rewrite <- app_assoc|done]. cbn [String.eqb Ascii.eqb Bool.eqb mbind result_bind goes_on].
    rewrite (IH (p ++ [b])); [|by rewrite <- app_assoc|done]. by destruct (run_flow step_xudp (mkFlow first true []) rest).
Qed.

Lemma run_bursts bursts l : carried bursts l → ∀ first,
  ∃ effects, run_flow step_xudp (mkFlow first true []) (concat (map burst_events bursts)) = Ok effects ∧
    responses effects = map (λ '(payload, from), (payload, from, source)) l.
Proof.
  induction 1 as [|payload to bursts l Hl Hd Hc IH|frame payload from bursts l Hf Hc IH]; intros first; cbn [map concat burst_events].
  - by exists [].
  - destruct (IH false) as (effects & Hr & He). pose proof (xudp_datagram first (ip_destination to) payload (conj Hl Hd)) as Hb. set (b := frame_bytes _) in Hb.
    exists (WriteStream b :: effects). split; [|exact He]. cbn [app run_flow].
    assert (step_xudp (mkFlow first true []) (FromClient payload to) = Ok (Some (mkFlow false true []), [WriteStream b])) as ->
      by (unfold step_xudp; cbn [tun_udp_step negb andb first_packet]; by rewrite Hb).
    cbn [mbind result_bind]. by rewrite Hr.
  - destruct (IH first) as (effects & Hr & He). exists (Respond payload from source :: effects). rewrite (run_frame_bytes frame payload from), Hr by done.
    split; [done|]. cbn [responses omap list_omap map]. by rewrite <- He.
Qed.

(** What the VLESS server sends back over XUDP reaches the client of the TUN device:
    every datagram once, in order and from the address it came from, as long as no
    datagram of the client arrives in the middle of a frame. *)
Theorem tun_flow_returns bursts l : carried bursts l →
  ∃ effects, run_flow step_xudp flow_init (map StreamByte [0; 0] ++ concat (map burst_events bursts)) = Ok effects ∧
    responses effects = map (λ '(payload, from), (payload, from, source)) l.
Proof.
  intros Hc. destruct (run_bursts bursts l Hc true) as (effects & Hr & He). exists effects. split; [|exact He].
  cbn [map app run_flow].
  assert (step_xudp flow_init (StreamByte 0) = Ok (Some (mkFlow true false [0]), [])) as -> by reflexivity. cbn [mbind result_bind run_flow app].
  assert (step_xudp (mkFlow true false [0]) (StreamByte 0) = Ok (Some (mkFlow true true []), [])) as -> by reflexivity. cbn [mbind result_bind].
  by rewrite Hr.
Qed.

End returning.

(** ** Examples *)

Module Flows.

Definition client : SocketAddr := mkSocketAddr (V4 10) 5000.
Definition server : SocketAddr := mkSocketAddr (V4 20) 53.
Definition other : SocketAddr := mkSocketAddr (V4 30) 53.
Definition plain : RouteOptions := Routing.default_options.

Definition frame : bytes := (write_xudp_packet false (ip_destination server) [7; 8]).1.

Lemma frame_carries : carries frame [7; 8] server.
Proof. exists 2. split; [done|]. by vm_compute. Qed.

Definition events : list flow_event := [FromClient [1] server; StreamByte 0; FromClient [2; 3] other; ClientClosed].

(** The flow's two frames at the server, with an answer between them. *)
Definition first_frame : XudpFrame := mkXudpFrame 0 1 (Some (ip_destination server)) (Some [1]).
Definition second_frame : XudpFrame := mkXudpFrame 0 2 (Some (ip_destination other)) (Some [2; 3]).
Definition at_server : list RelayEvent :=
  (EvByte <$> frame_bytes first_frame) ++ [EvTake 0; EvResponse 0 (ip_destination server) [9]] ++ (EvByte <$> frame_bytes second_frame).
Definition items : list item :=
  [Arrived first_frame; Taken 0; Answered 0 (ip_destination server) [9]; Arrived second_frame].

(** A datagram of the client in the middle of a frame: the rest of the frame is read as
    the start of another, and the flow waits for bytes that do not come. *)
Example interrupted_frame_lost :
  responses <$> result_ok (run_flow (step_xudp None client server server plain) (mkFlow false true [])
    ((StreamByte <$> take 5 frame) ++ [FromClient [1] server] ++ (StreamByte <$> drop 5 frame))) = Some [] ∧
  responses <$> result_ok (run_flow (step_xudp None client server server plain) (mkFlow false true [])
    ([FromClient [1] server] ++ (StreamByte <$> frame))) = Some [([7; 8], server, client)].
Proof. by vm_compute. Qed.

(** The route may override the destination; a direct flow of the TUN device that is not
    connected sends to the address of the datagram all the same, unlike an AnyTLS flow. *)
Example override_ignored :
  (* the route leads to [other], the datagram was for [server] *)
  run_flow (tun_udp_step None client server (ip_destination other) plain (DirectLeg other false)) flow_init [FromClient [1] server] =
    Ok [SendTo [1] server] ∧
  run_flow (udp_session_step client (ip_destination other) plain (DirectLeg other false)) flow_init [FromClient [1] server] =
    Ok [SendTo [1] other].
Proof. by vm_compute. Qed.

End Flows.

#[local] Existing Instance UuidExample.lib.
#[local] Existing Instance UuidExample.laws.

(** The first datagram is taken and answered before the second arrives. *)
Lemma tun_flow_reaches_server_witness :
  ∃ sessions q effects,
    run_flow (tun_udp_step None Flows.client Flows.server (ip_destination Flows.server) Flows.plain (VlessLeg true)) flow_init Flows.events = Ok effects ∧
    relay_run (λ _, Some Flows.server) (λ _, true) relay_init Flows.at_server = Ok (mkRelay sessions [] (answers Flows.items)) ∧
    live sessions !! 0 = Some (mkChan false q) ∧
    delivered 0 None Flows.items ++ q = [mkXudpFrame 0 1 (Some (ip_destination Flows.server)) (Some [1]);
                                         mkXudpFrame 0 2 (Some (ip_destination Flows.other)) (Some [2; 3])].
Proof.
  destruct (run_flow (tun_udp_step None Flows.client Flows.server (ip_destination Flows.server) Flows.plain (VlessLeg true)) flow_init Flows.events)
    as [effects|e| |] eqn:E; [|vm_compute in E; discriminate E..].
  destruct (tun_udp_open None (λ _ _, Err "none") (λ _, None) (ip_destination Flows.server) Flows.plain false (VlessDialer (AnyTlsClient := unit) tt UuidExample.user true))
    as [[[l opening]|]|e| |] eqn:Eo; [|vm_compute in Eo; discriminate Eo..].
  assert (l = VlessLeg true) as -> by (vm_compute in Eo; by injection Eo as <- _).
  destruct (tun_flow_reaches_server (A := unit) (λ _, Some Flows.server) (λ _, true) [UuidExample.user] UuidExample.user UuidExample.id None (λ _ _, Err "none") (λ _, None)
    Flows.client Flows.server (ip_destination Flows.server) Flows.plain tt false (VlessLeg true) opening Flows.events effects Flows.at_server Flows.items [])
    as (sessions & q & _ & Hr & Hl & Hd).
  - by left.
  - by vm_compute.
  - by vm_compute.
  - exact Eo.
  - exact E.
  - repeat constructor; vm_compute; congruence.
  - by eexists _, _.
  - vm_compute in E. injection E as <-. by vm_compute.
  - by vm_compute.
  - repeat (apply Forall_cons_2 || apply Forall_nil_2); repeat split; vm_compute; congruence.
  - unfold Flows.items. rewrite !not_elem_of_cons. repeat split; try done. apply not_elem_of_nil.
  - exists sessions, q, effects. split; [reflexivity|]. split; [exact Hr|]. split; [exact Hl|exact Hd].
Defined.

Lemma tun_flow_returns_witness :
  ∃ effects, run_flow (step_xudp None Flows.client Flows.server Flows.server Flows.plain) flow_init
      (map StreamByte [0; 0] ++ concat (map burst_events [FrameBurst Flows.frame; ClientBurst [1] Flows.other; FrameBurst Flows.frame])) = Ok effects ∧
    responses effects = [([7; 8], Flows.server, Flows.client); ([7; 8], Flows.server, Flows.client)].
Proof.
  apply (tun_flow_returns None Flows.client Flows.server Flows.server Flows.plain _ [([7; 8], Flows.server); ([7; 8], Flows.server)]).
  apply carried_frame; [apply Flows.frame_carries|]. apply carried_client; [vm_compute; congruence| |].
  - repeat constructor; vm_compute; congruence.
  - apply carried_frame; [apply Flows.frame_carries|apply carried_nil].
Defined.
