(* ===== verification/Srs.v ===== *)
(** * Binary rule-sets (src/src/srs.rs)

    The reader of sing-box's compiled rule-sets: integers, strings, IP ranges,
    the succinct domain trees, and the rules built from them.  Decompression is
    a parameter.  The main theorem is about [range_to_cidrs], which turns an
    address range into CIDR prefixes. *)

From S2P Require Import Prelude RustStr Net Routing.

(** ** Ranges to prefixes *)

(** [u128::trailing_zeros] *)
Fixpoint pos_trailing_zeros (p : positive) : Z :=
  match p with xO p => 1 + pos_trailing_zeros p | _ => 0 end.
Definition trailing_zeros (n : Z) : Z :=
  match n with Zpos p => pos_trailing_zeros p | _ => 128 end.

(** [u128::leading_zeros] *)
Definition leading_zeros (n : Z) : Z := if n =? 0 then 128 else 127 - Z.log2 n.

(** [a + b] on [u128]: a panic in a build with overflow checks, a wrap-around
    without. *)
Definition add_u128 (checks : bool) (a b : Z) : result Z :=
  if a + b <? 2 ^ 128 then Ok (a + b) else if checks then Panic else Ok (wrapping_add 128 a b).

(** The loop of [range_to_cidrs]; a block is its first address and its prefix
    length.  Blocks first grow and then shrink, so twice the width bounds their
    number. *)
Fixpoint range_loop (checks : bool) (fuel : nat) (start end_ width : Z) (blocks : list (Z * Z))
    : result (list (Z * Z)) :=
  match fuel with
  | O => Diverge
  | S fuel =>
    if end_ <? start then Ok blocks else
    let alignment := Z.min (trailing_zeros start) width in
    let remaining_bits :=
      if end_ =? u128_max then 128 else 127 - leading_zeros (end_ - start + 1) in
    let host_bits := Z.min alignment remaining_bits in
    let blocks := blocks ++ [(start, width - host_bits)] in
    if host_bits =? 128 then Ok blocks else
    start ← add_u128 checks start (2 ^ host_bits);
    range_loop checks fuel start end_ width blocks
  end.

Definition range_blocks (checks : bool) (start end_ width : Z) : result (list (Z * Z)) :=
  if end_ <? start then Err "invalid descending SRS IP range"
  else range_loop checks (Z.to_nat (2 * width + 2)) start end_ width [].

Definition print_block (v4 : bool) (b : Z * Z) : str :=
  print_ip (if v4 then V4 (b.1 mod 2 ^ 32) else V6 b.1) ++ lit "/" ++ print_uint b.2.

Definition range_to_cidrs (checks : bool) (from to : IpAddr) : result (list str) :=
  match from, to with
  | V4 a, V4 b => blocks ← range_blocks checks a b 32; Ok (print_block true <$> (blocks : list (Z * Z)))
  | V6 a, V6 b => blocks ← range_blocks checks a b 128; Ok (print_block false <$> (blocks : list (Z * Z)))
  | _, _ => Err "mixed address families in SRS IP range"
  end.

(** ** The reader *)

Definition isize_max : Z := 9223372036854775807.

(** [vec![0; length]] panics when the size exceeds [isize::MAX]; then
    [read_exact]. *)
Definition read_bytes (n : Z) : reader bytes :=
  if n >? isize_max then (λ _, Panic)
  else (λ s, if n <=? Z.of_nat (length s) then read_exact (Z.to_nat n) s
             else Err "failed to fill whole buffer").

Fixpoint uvarint_loop (n : nat) (shift value : Z) : reader Z :=
  match n with
  | O => fail "SRS integer overflow"
  | S n =>
    byte ← read_u8;
    if byte <? 128 then
      if (shift =? 63) && (byte >? 1) then fail "SRS integer overflow"
      else mret (Z.lor value (Z.shiftl byte shift))
    else uvarint_loop n (shift + 7) (Z.lor value (Z.shiftl (Z.land byte 127) shift mod 2 ^ 64))
  end.

Definition uvarint : reader Z := uvarint_loop 10 0 0.

(** [(0..count).map(|_| read).collect::<Result<_>>()], for reads that consume at
    least a byte: more than the remaining bytes cannot succeed. *)
Fixpoint repeat_loop {A} (read : reader A) (fuel : nat) (count : Z) : reader (list A) :=
  if count <=? 0 then mret []
  else match fuel with
  | O => (λ _, Diverge)
  | S fuel => x ← read; l ← repeat_loop read fuel (count - 1); mret (x :: l)
  end.

Definition repeat_read {A} (read : reader A) (count : Z) : reader (list A) :=
  λ s, repeat_loop read (S (length s)) count s.

Definition read_string : reader str :=
  n ← uvarint; b ← read_bytes n; lift (from_utf8 b).

Definition strings : reader (list str) := n ← uvarint; repeat_read read_string n.
Definition u8s : reader (list Z) := n ← uvarint; read_bytes n.
Definition u16s : reader (list Z) := n ← uvarint; repeat_read (b ← read_bytes 2; mret (of_be b)) n.
Definition u64s : reader (list Z) := n ← uvarint; repeat_read (b ← read_bytes 8; mret (of_be b)) n.

Definition parse_srs_ip (b : bytes) : result IpAddr :=
  match length b with
  | 4%nat => Ok (V4 (of_be b))
  | 16%nat => Ok (V6 (of_be b))
  | _ => Err "invalid IP address length in SRS"
  end.

Definition read_ip : reader IpAddr := n ← uvarint; b ← read_bytes n; lift (parse_srs_ip b).

Definition ip_set (checks : bool) : reader (list str) :=
  v ← read_u8;
  if negb (v =? 1) then fail "unsupported SRS IP set version" else
  count ← read_bytes 8;
  l ← repeat_read (from ← read_ip; to ← read_ip; lift (range_to_cidrs checks from to)) (of_be count);
  mret (concat l).

Definition prefix : reader str :=
  ip ← read_ip; bits ← read_u8; mret (print_ip ip ++ lit "/" ++ print_uint bits).
Definition prefixes : reader (list str) := n ← uvarint; repeat_read prefix n.

Definition interface_name (v : Z) : str :=
  if v =? 0 then lit "wifi" else if v =? 1 then lit "cellular"
  else if v =? 2 then lit "ethernet" else if v =? 3 then lit "other" else print_uint v.

(** The map, in its iteration order. *)
Definition interface_address_map `{!HashIter str (list str)} : reader (list (str * list str)) :=
  n ← uvarint;
  l ← repeat_read (t ← read_u8; ps ← prefixes; mret (interface_name t, ps)) n;
  mret (hash_iter (fold_left (λ (m : gmap str (list str)) (e : str * list str), <[e.1 := e.2]> m) l ∅)).

(** *** Succinct trees *)

Definition bit (words : list Z) (i : nat) : bool :=
  match words !! (i / 64)%nat with
  | Some w => negb (Z.land w (Z.shiftl 1 (Z.of_nat (i mod 64))) =? 0)
  | None => false
  end.

(** Both loops of [succinct_keys]: a clear bit adds a child to the node, a set
    bit goes to the next node.  A turn consumes a label or a node. *)
Fixpoint tree_loop (fuel : nat) (bitmap : list Z) (labels : bytes) (bit_index label_index node : nat)
    (children : list (list (Z * nat))) : result (list (list (Z * nat)) * nat) :=
  match fuel with
  | O => Diverge
  | S fuel =>
    if (node <? length children)%nat then
      if bit bitmap bit_index then
        tree_loop fuel bitmap labels (S bit_index) label_index (S node) children
      else
        label ← context (labels !! label_index) "invalid SRS domain labels";
        let child := length children in
        let children := alter (λ c, c ++ [(label, child)]) node children ++ [[]] in
        tree_loop fuel bitmap labels (S bit_index) (S label_index) node children
    else Ok (children, label_index)
  end.

(** [collect_keys]: a child's index is larger than its parent's, so the number
    of nodes bounds the depth. *)
Fixpoint collect_keys (fuel : nat) (node : nat) (children : list (list (Z * nat))) (leaves : list Z)
    (key : bytes) : result (list bytes) :=
  match fuel with
  | O => Diverge
  | S fuel =>
    cs ← index children node;
    sub ← map_result (λ '(label, child), collect_keys fuel child children leaves (key ++ [label])) cs;
    Ok ((if bit leaves node then [key] else []) ++ concat sub)
  end.

Definition succinct_keys : reader (list bytes) :=
  _ ← read_u8;
  leaves ← u64s;
  bitmap ← u64s;
  n ← uvarint;
  labels ← read_bytes n;
  '(children, used) ← lift (tree_loop (2 * length labels + 3) bitmap labels 0 0 0 [[]]);
  if negb (used =? length labels)%nat then fail "invalid SRS domain tree"
  else lift (collect_keys (length children) 0 children leaves []).

Definition domain_key (key : bytes) : result (bool * str) :=
  match reverse key with
  | c :: k =>
    if (c =? 13) || (c =? 10) then s ← from_utf8 k; Ok (true, s)
    else s ← from_utf8 (c :: k); Ok (false, s)
  | [] => Ok (false, [])
  end.

(** The exact domains and the suffixes. *)
Definition domain_matcher : reader (list str * list str) :=
  keys ← succinct_keys;
  ks ← lift (map_result domain_key keys);
  mret (snd <$> List.filter (λ k, negb k.1) ks, snd <$> List.filter fst ks).

Section adguard.
(** [regex::escape] *)
Context (escape : str → str) `{!HashIter str (list str)}.

Definition adguard_key (key : bytes) : result str :=
  let key := reverse key in
  let '(start, key) :=
    match key with
    | c :: k =>
      if c =? 13 then ([], k) else if c =? 10 then (lit "(?:^|\.)", k) else (lit "^", key)
    | [] => (lit "^", key)
    end in
  let '(end_, key) :=
    match reverse key with
    | c :: k => if c =? 8 then ([], reverse k) else (lit "$", key)
    | [] => (lit "$", key)
    end in
  raw ← from_utf8 key;
  Ok (start ++ join (lit ".*") (escape <$> split c_star raw) ++ end_).

Definition adguard_matcher : reader (list str) :=
  keys ← succinct_keys; lift (map_result adguard_key keys).

(** *** Rules *)

(** The fields of a [RouteRule] that a compiled rule-set can set. *)
Record Items := mkItems {
  i_network : list str;
  i_domain : list str;
  i_domain_suffix : list str;
  i_domain_keyword : list str;
  i_domain_regex : list str;
  i_source_ip_cidr : list str;
  i_ip_cidr : list str;
  i_source_port : list Z;
  i_source_port_range : list str;
  i_port : list Z;
  i_port_range : list str;
  i_process_name : list str;
  i_process_path : list str;
  i_package_name : list str;
  i_wifi_ssid : list str;
  i_wifi_bssid : list str;
  i_process_path_regex : list str;
  i_network_type : list str;
  i_expensive : bool;
  i_constrained : bool;
  i_network_interface_address : list (str * list str);
  i_default_interface_address : list str;
  i_package_name_regex : list str;
}.

Definition no_items : Items :=
  mkItems [] [] [] [] [] [] [] [] [] [] [] [] [] [] [] [] [] [] false false [] [] [].

Definition build_rule (i : Items) (inv : bool) : RouteRule :=
  mkRouteRule [] None [] i.(i_domain) i.(i_domain_suffix) i.(i_domain_keyword) i.(i_domain_regex) []
    [] [] i.(i_ip_cidr) i.(i_source_ip_cidr) false false i.(i_port) i.(i_port_range) i.(i_network) []
    [] [] [] [] i.(i_source_port) i.(i_source_port_range) i.(i_process_name) i.(i_process_path)
    i.(i_process_path_regex) i.(i_package_name) i.(i_package_name_regex) [] [] None
    i.(i_network_type) i.(i_expensive) i.(i_constrained) i.(i_wifi_ssid) i.(i_wifi_bssid) []
    i.(i_network_interface_address) i.(i_default_interface_address) [] [] [] [] false None None inv
    default_options [] None None None false None None None false.

Definition logical_rule (mode : str) (rules : list RouteRule) (inv : bool) : RouteRule :=
  mkRouteRule (lit "logical") (Some mode) rules [] [] [] [] [] [] [] [] [] false false [] [] [] [] []
    [] [] [] [] [] [] [] [] [] [] [] [] None [] false false [] [] [] [] [] [] [] [] [] false None None
    inv default_options [] None None None false None None None false.

(** One item of [default_rule], by its tag. *)
Definition read_item (checks : bool) (tag : Z) (i : Items) : reader Items :=
  let '(mkItems nw d ds dk dr sc c sp spr p pr pn pp pk ws wb ppr nt ex co nia dia pkr) := i in
  if tag =? 0 then _ ← u16s; mret i
  else if tag =? 1 then x ← strings; mret (mkItems x d ds dk dr sc c sp spr p pr pn pp pk ws wb ppr nt ex co nia dia pkr)
  else if tag =? 2 then '(x, y) ← domain_matcher; mret (mkItems nw x y dk dr sc c sp spr p pr pn pp pk ws wb ppr nt ex co nia dia pkr)
  else if tag =? 3 then x ← strings; mret (mkItems nw d ds x dr sc c sp spr p pr pn pp pk ws wb ppr nt ex co nia dia pkr)
  else if tag =? 4 then x ← strings; mret (mkItems nw d ds dk x sc c sp spr p pr pn pp pk ws wb ppr nt ex co nia dia pkr)
  else if tag =? 5 then x ← ip_set checks; mret (mkItems nw d ds dk dr x c sp spr p pr pn pp pk ws wb ppr nt ex co nia dia pkr)
  else if tag =? 6 then x ← ip_set checks; mret (mkItems nw d ds dk dr sc x sp spr p pr pn pp pk ws wb ppr nt ex co nia dia pkr)
  else if tag =? 7 then x ← u16s; mret (mkItems nw d ds dk dr sc c x spr p pr pn pp pk ws wb ppr nt ex co nia dia pkr)
  else if tag =? 8 then x ← strings; mret (mkItems nw d ds dk dr sc c sp x p pr pn pp pk ws wb ppr nt ex co nia dia pkr)
  else if tag =? 9 then x ← u16s; mret (mkItems nw d ds dk dr sc c sp spr x pr pn pp pk ws wb ppr nt ex co nia dia pkr)
  else if tag =? 10 then x ← strings; mret (mkItems nw d ds dk dr sc c sp spr p x pn pp pk ws wb ppr nt ex co nia dia pkr)
  else if tag =? 11 then x ← strings; mret (mkItems nw d ds dk dr sc c sp spr p pr x pp pk ws wb ppr nt ex co nia dia pkr)
  else if tag =? 12 then x ← strings; mret (mkItems nw d ds dk dr sc c sp spr p pr pn x pk ws wb ppr nt ex co nia dia pkr)
  else if tag =? 13 then x ← strings; mret (mkItems nw d ds dk dr sc c sp spr p pr pn pp x ws wb ppr nt ex co nia dia pkr)
  else if tag =? 14 then x ← strings; mret (mkItems nw d ds dk dr sc c sp spr p pr pn pp pk x wb ppr nt ex co nia dia pkr)
  else if tag =? 15 then x ← strings; mret (mkItems nw d ds dk dr sc c sp spr p pr pn pp pk ws x ppr nt ex co nia dia pkr)
  else if tag =? 16 then x ← adguard_matcher; mret (mkItems nw d ds dk (dr ++ x) sc c sp spr p pr pn pp pk ws wb ppr nt ex co nia dia pkr)
  else if tag =? 17 then x ← strings; mret (mkItems nw d ds dk dr sc c sp spr p pr pn pp pk ws wb x nt ex co nia dia pkr)
  else if tag =? 18 then x ← u8s; mret (mkItems nw d ds dk dr sc c sp spr p pr pn pp pk ws wb ppr (interface_name <$> x) ex co nia dia pkr)
  else if tag =? 19 then mret (mkItems nw d ds dk dr sc c sp spr p pr pn pp pk ws wb ppr nt true co nia dia pkr)
  else if tag =? 20 then mret (mkItems nw d ds dk dr sc c sp spr p pr pn pp pk ws wb ppr nt ex true nia dia pkr)
  else if tag =? 21 then x ← interface_address_map; mret (mkItems nw d ds dk dr sc c sp spr p pr pn pp pk ws wb ppr nt ex co x dia pkr)
  else if tag =? 22 then x ← prefixes; mret (mkItems nw d ds dk dr sc c sp spr p pr pn pp pk ws wb ppr nt ex co nia x pkr)
  else if tag =? 23 then x ← strings; mret (mkItems nw d ds dk dr sc c sp spr p pr pn pp pk ws wb ppr nt ex co nia dia x)
  else fail "unknown SRS rule item".

(** The loop of [default_rule]: every turn consumes the tag. *)
Fixpoint default_rule_loop (checks : bool) (fuel : nat) (i : Items) : reader RouteRule :=
  match fuel with
  | O => (λ _, Diverge)
  | S fuel =>
    tag ← read_u8;
    if tag =? 255 then inv ← read_u8; mret (build_rule i (negb (inv =? 0)))
    else i ← read_item checks tag i; default_rule_loop checks fuel i
  end.

Definition default_rule (checks : bool) : reader RouteRule :=
  λ s, default_rule_loop checks (S (length s)) no_items s.

(** [Reader::rule]; the depth of the nesting is bounded by the input. *)
Fixpoint read_rule (checks : bool) (fuel : nat) : reader RouteRule :=
  match fuel with
  | O => (λ _, Diverge)
  | S fuel =>
    t ← read_u8;
    if t =? 0 then default_rule checks
    else if t =? 1 then
      m ← read_u8;
      mode ← (if m =? 0 then mret (lit "and") else if m =? 1 then mret (lit "or")
              else fail "unknown SRS logical mode");
      count ← uvarint;
      rules ← repeat_read (read_rule checks fuel) count;
      inv ← read_u8;
      mret (logical_rule mode rules (negb (inv =? 0)))
    else fail "unknown SRS rule type"
  end.

(** [decode]; [inflate] is the decompressor. *)
Definition decode (checks : bool) (inflate : bytes → option bytes) (data : bytes)
    : result (list RouteRule) :=
  if negb (bool_decide (slice_get data 0 3 = Some (lit "SRS"))) then
    Err "invalid sing-box rule-set magic"
  else
  version ← context (data !! 3%nat) "missing sing-box rule-set version";
  if version >? 4 then Err "unsupported sing-box rule-set version" else
  payload ← context (inflate (drop 4 data)) "decompress sing-box rule-set";
  '(rules, _) ← (count ← uvarint; repeat_read (read_rule checks (S (length payload))) count) payload;
  Ok rules.

End adguard.

(** ** Ranges and prefixes *)

(** [tiles w s e bs]: the blocks [bs] are aligned prefixes of [w]-bit addresses
    that follow one another from [s] up to, and without, [e]. *)
Inductive tiles (w : Z) : Z → Z → list (Z * Z) → Prop :=
  | tiles_nil s : tiles w s s []
  | tiles_cons s h e bs :
    0 ≤ h ≤ w → (2 ^ h | s) → tiles w (s + 2 ^ h) e bs → tiles w s e ((s, w - h) :: bs).

Lemma tiles_le w s e bs : tiles w s e bs → s ≤ e.
Proof. induction 1; [lia|]. assert (0 < 2 ^ h) by lia. lia. Qed.

Lemma tiles_one w s h : 0 ≤ h ≤ w → (2 ^ h | s) → tiles w s (s + 2 ^ h) [(s, w - h)].
Proof. intros. constructor; [done..|constructor]. Qed.

Lemma tiles_length w s e bs : tiles w s e bs → Z.of_nat (length bs) ≤ e - s.
Proof. induction 1; cbn [length]; [lia|]. assert (0 < 2 ^ h) by lia. lia. Qed.

(** A prefix contains the addresses of its block. *)
Lemma mask_block w h s x :
  0 ≤ h ≤ w → (2 ^ h | s) → 0 ≤ s < 2 ^ w → 0 ≤ x < 2 ^ w →
  Cidr.mask w (w - h) s = Cidr.mask w (w - h) x ↔ s ≤ x < s + 2 ^ h.
Proof.
  intros Hh [k ->] Hs Hx. unfold Cidr.mask. replace (w - (w - h)) with h by lia.
  rewrite !Z.shiftl_mul_pow2, !Z.shiftr_div_pow2, !Z.mod_small by lia.
  assert (Hp : 0 < 2 ^ h) by lia. rewrite Z.div_mul by lia.
  pose proof (Z.div_mod x (2 ^ h) ltac:(lia)) as Hd.
  pose proof (Z.mod_pos_bound x (2 ^ h) ltac:(lia)) as Hm.
  split; intros H; [nia|].
  assert (x / 2 ^ h = k) as ->; [|done].
  symmetry. apply Z.div_unique with (r := x - k * 2 ^ h); lia.
Qed.

Definition family (w a : Z) : IpAddr := if w =? 32 then V4 a else V6 a.

Lemma contains_block w h s x :
  w = 32 ∨ w = 128 → 0 ≤ h ≤ w → (2 ^ h | s) → 0 ≤ s < 2 ^ w → 0 ≤ x < 2 ^ w →
  Cidr.contains (family w s, w - h) (family w x) = bool_decide (s ≤ x < s + 2 ^ h).
Proof.
  intros Hw Hh Hd Hs Hx. apply eq_bool_prop_intro. rewrite bool_decide_spec.
  rewrite <- (mask_block w h s x Hh Hd Hs Hx).
  unfold Cidr.contains, family, Cidr.prefix_len.
  destruct Hw as [-> | ->]; cbn [Z.eqb Pos.eqb fst snd Cidr.width];
    rewrite Z.min_l, Z.max_r by lia; rewrite Is_true_true; apply Z.eqb_eq.
Qed.

(** Every address of the range is in exactly one block, every other in none. *)
Lemma tiles_exact w s e bs x :
  w = 32 ∨ w = 128 → tiles w s e bs → 0 ≤ s → e ≤ 2 ^ w → 0 ≤ x < 2 ^ w →
  length (filter (λ b, Cidr.contains (family w b.1, b.2) (family w x)) bs) =
  if bool_decide (s ≤ x < e) then 1%nat else 0%nat.
Proof.
  intros Hw Ht. induction Ht as [s|s h e bs Hh Hd Ht IH]; intros Hs He Hx.
  - cbn. by rewrite bool_decide_false by lia.
  - pose proof (tiles_le _ _ _ _ Ht). assert (0 < 2 ^ h) by lia.
    rewrite filter_cons. cbn [fst snd]. rewrite contains_block by (done || lia).
    specialize (IH ltac:(lia) He Hx).
    repeat case_decide; repeat case_bool_decide; cbn [length] in *; rewrite ?IH in *; try done; try lia.
    all: rewrite IH; case_bool_decide; try done; lia.
Qed.

(** *** Alignment *)

Lemma pos_trailing_zeros_spec p :
  0 ≤ pos_trailing_zeros p ∧ (2 ^ pos_trailing_zeros p | Zpos p) ∧
  ¬ (2 ^ (pos_trailing_zeros p + 1) | Zpos p).
Proof.
  induction p as [p IH|p IH|]; cbn [pos_trailing_zeros].
  - split; [lia|]. split; [apply Z.divide_1_l|]. intros [k Hk]. lia.
  - destruct IH as (H0 & H1 & H2). split; [lia|].
    change (Zpos p~0) with (2 * Zpos p). replace (1 + pos_trailing_zeros p) with (Z.succ (pos_trailing_zeros p)) by lia.
    split; [rewrite Z.pow_succ_r by lia; by apply Z.mul_divide_mono_l|].
    intros [k Hk]. apply H2. exists k.
    rewrite Z.add_1_r, Z.pow_succ_r in Hk by lia. lia.
  - split; [lia|]. split; [apply Z.divide_1_l|]. intros [k Hk]. lia.
Qed.

Definition alignment (start width : Z) : Z := Z.min (trailing_zeros start) width.

Lemma alignment_bounds s w : 0 ≤ w → 0 ≤ alignment s w ≤ w.
Proof.
  intros Hw. unfold alignment, trailing_zeros.
  destruct s as [|p|p]; try lia. pose proof (pos_trailing_zeros_spec p). lia.
Qed.

Lemma divide_pow_le a b s : 0 ≤ a ≤ b → (2 ^ b | s) → (2 ^ a | s).
Proof.
  intros H Hb. etrans; [|exact Hb]. exists (2 ^ (b - a)).
  rewrite <- Z.pow_add_r by lia. f_equal. lia.
Qed.

Lemma alignment_divide s w : 0 ≤ s → 0 ≤ w ≤ 128 → (2 ^ alignment s w | s).
Proof.
  intros Hs Hw. destruct s as [|p|p]; [apply Z.divide_0_r| |lia].
  destruct (pos_trailing_zeros_spec p) as (H0 & H1 & _).
  eapply divide_pow_le; [|exact H1]. unfold alignment, trailing_zeros. lia.
Qed.

Lemma alignment_max s w k : 0 ≤ s → 0 ≤ k ≤ w → w ≤ 128 → (2 ^ k | s) → k ≤ alignment s w.
Proof.
  intros Hs Hk Hw Hd. unfold alignment, trailing_zeros. destruct s as [|p|p]; [lia| |lia].
  destruct (pos_trailing_zeros_spec p) as (H0 & _ & H2).
  apply Z.min_glb; [|lia]. destruct (decide (k ≤ pos_trailing_zeros p)) as [|Hn]; [done|].
  exfalso. apply H2. eapply divide_pow_le; [|exact Hd]. lia.
Qed.

(** Skipping an aligned block of the full alignment raises the alignment. *)
Lemma alignment_step s w :
  0 ≤ s → w ≤ 128 → alignment s w < w →
  alignment s w + 1 ≤ alignment (s + 2 ^ alignment s w) w.
Proof.
  intros Hs Hw Ht. set (t := alignment s w) in *.
  pose proof (alignment_bounds s w) as Hb. fold t in Hb.
  assert (0 ≤ w). { unfold t, alignment in Ht. destruct s as [|p|p]; cbn in *; try lia.
    pose proof (pos_trailing_zeros_spec p). lia. }
  specialize (Hb ltac:(lia)).
  assert (0 < 2 ^ t) by lia.
  destruct (alignment_divide s w) as [k Hk]; [lia..|]. fold t in Hk.
  apply alignment_max; [lia..|]. rewrite Z.pow_add_r by lia. replace (2 ^ 1) with 2 by done.
  destruct (Z.Even_or_Odd k) as [[j ->]|[j ->]].
  - exfalso. assert (t + 1 ≤ t); [|lia]. apply (alignment_max s w); [lia..|].
    exists j. rewrite Z.pow_add_r by lia. replace (2 ^ 1) with 2 by done. lia.
  - exists (j + 1). lia.
Qed.

(** *** The loop *)

Lemma remaining_log2 n : 0 < n → 127 - leading_zeros n = Z.log2 n.
Proof. intros H. unfold leading_zeros. rewrite (proj2 (Z.eqb_neq n 0)) by lia. lia. Qed.

Lemma add_u128_small checks a b : 0 ≤ a + b < 2 ^ 128 → add_u128 checks a b = Ok (a + b).
Proof. intros H. unfold add_u128. by rewrite (proj2 (Z.ltb_lt _ _)) by lia. Qed.

(** Blocks grow while the alignment is what limits them and shrink from there
    on: this measure decreases on every turn. *)
Definition turns (start end_ width : Z) : Z :=
  if end_ <? start then 0
  else if alignment start width <=? Z.log2 (end_ - start + 1)
  then 2 * width + 1 - alignment start width
  else Z.log2 (end_ - start + 1) + 1.

Lemma turns_step start end_ width :
  let h := Z.min (alignment start width) (Z.log2 (end_ - start + 1)) in
  0 ≤ start ≤ end_ → end_ < 2 ^ width → 0 ≤ width ≤ 128 →
  0 ≤ h ≤ width ∧ start + 2 ^ h ≤ end_ + 1 ∧ turns (start + 2 ^ h) end_ width < turns start end_ width.
Proof.
  intros h Hs He Hw. set (t := alignment start width) in *. set (n := end_ - start + 1) in *.
  assert (Ht : 0 ≤ t ≤ width) by (apply alignment_bounds; lia).
  pose proof (Z.log2_spec n ltac:(lia)) as Hlog. rewrite Z.pow_succ_r in Hlog by apply Z.log2_nonneg.
  pose proof (Z.log2_nonneg n) as Hr. set (r := Z.log2 n) in *.
  assert (Hh : 0 ≤ h ≤ width) by lia. split; [done|].
  assert (Hle : 2 ^ h ≤ 2 ^ r) by (apply Z.pow_le_mono_r; lia).
  assert (0 < 2 ^ h) by lia.
  split; [lia|]. unfold turns. fold t. rewrite (proj2 (Z.ltb_ge end_ start)) by lia.
  fold n. fold r. destruct (end_ <? start + 2 ^ h) eqn:Hend; bool_to_prop.
  { destruct (t <=? r) eqn:E; bool_to_prop; lia. }
  set (n' := end_ - (start + 2 ^ h) + 1). assert (Hn' : n' = n - 2 ^ h) by lia.
  pose proof (alignment_bounds (start + 2 ^ h) width ltac:(lia)) as Ht'.
  destruct (t <=? r) eqn:E; bool_to_prop.
  - assert (h = t) as Heq by lia. rewrite Heq in *.
    assert (Htw : t < width).
    { destruct (decide (t = width)) as [Hc|]; [|lia]. exfalso. rewrite Hc in *. lia. }
    pose proof (alignment_step start width ltac:(lia) ltac:(lia) Htw) as Hstep. fold t in Hstep.
    destruct (_ <=? _) eqn:E2; bool_to_prop; [lia|].
    pose proof (alignment_bounds (start + 2 ^ t) width ltac:(lia)). lia.
  - assert (h = r) as Heq by lia. rewrite Heq in *.
    assert (Hlog' : Z.log2 n' < r) by (apply Z.log2_lt_pow2; lia).
    assert (r ≤ alignment (start + 2 ^ r) width).
    { apply alignment_max; [lia..|]. apply Z.divide_add_r; [|apply Z.divide_refl].
      apply divide_pow_le with t; [lia|]. apply alignment_divide; lia. }
    rewrite (proj2 (Z.leb_gt _ _)) by lia. lia.
Qed.

Lemma turns_bound start end_ width :
  0 ≤ start → end_ < 2 ^ width → 0 ≤ width → turns start end_ width ≤ 2 * width + 1.
Proof.
  intros Hs He Hw. unfold turns. pose proof (alignment_bounds start width Hw).
  destruct (end_ <? start) eqn:E; [lia|]. destruct (_ <=? _) eqn:E2; bool_to_prop; lia.
Qed.

Lemma range_loop_tiles checks fuel start end_ width acc :
  0 ≤ start ≤ end_ + 1 → end_ < 2 ^ width → 0 ≤ width ≤ 128 → end_ ≠ u128_max →
  turns start end_ width < Z.of_nat fuel →
  ∃ bs, range_loop checks fuel start end_ width acc = Ok (acc ++ bs) ∧
    tiles width start (end_ + 1) bs.
Proof.
  revert start acc. induction fuel as [|fuel IH]; intros start acc Hs He Hw Hmax Hf.
  { unfold turns in Hf. pose proof (alignment_bounds start width). pose proof (Z.log2_nonneg (end_ - start + 1)).
    destruct (_ <? _); [lia|]. destruct (_ <=? _); lia. }
  cbn [range_loop]. destruct (end_ <? start) eqn:E; bool_to_prop.
  { exists []. rewrite app_nil_r. split; [done|]. replace start with (end_ + 1) by lia. constructor. }
  rewrite (proj2 (Z.eqb_neq _ _) Hmax), remaining_log2 by lia. fold (alignment start width).
  destruct (turns_step start end_ width) as (Hh & Hle & Hturn); [lia..|].
  set (h := Z.min _ _) in *.
  assert (H128 : 2 ^ width ≤ 2 ^ 128) by (apply Z.pow_le_mono_r; lia).
  assert (end_ < u128_max) by (unfold u128_max in *; lia).
  assert (0 < 2 ^ h) by lia.
  assert (start + 2 ^ h < 2 ^ 128) by (unfold u128_max in *; lia).
  assert (h ≠ 128). { intros Hc. rewrite Hc in *. lia. }
  rewrite (proj2 (Z.eqb_neq h 128)) by done. rewrite add_u128_small by lia.
  cbn [mbind result_bind].
  destruct (IH (start + 2 ^ h) (acc ++ [(start, width - h)])) as (bs & -> & Ht); [lia..|].
  exists ((start, width - h) :: bs). rewrite <- app_assoc. split; [done|].
  constructor; [done| |done]. apply divide_pow_le with (alignment start width); [lia|].
  apply alignment_divide; lia.
Qed.

Lemma range_blocks_tiles checks a b width :
  0 ≤ a ≤ b → b < 2 ^ width → 0 ≤ width ≤ 128 → b ≠ u128_max →
  ∃ bs, range_blocks checks a b width = Ok bs ∧ tiles width a (b + 1) bs.
Proof.
  intros Ha Hb Hw Hmax. unfold range_blocks. rewrite (proj2 (Z.ltb_ge b a)) by lia.
  pose proof (turns_bound a b width). apply (range_loop_tiles _ _ _ _ _ []); lia.
Qed.

(** The last range of the IPv6 space: the address after it does not fit. *)
Lemma range_loop_last checks fuel start acc :
  0 < start < 2 ^ 128 → 130 - alignment start 128 ≤ Z.of_nat fuel →
  ∃ bs, range_loop checks fuel start u128_max 128 acc =
      (if checks then Panic else Ok (acc ++ bs ++ [(0, 0)])) ∧
    tiles 128 start (2 ^ 128) bs.
Proof.
  revert start acc. induction fuel as [|fuel IH]; intros start acc Hs Hf.
  { pose proof (alignment_bounds start 128). lia. }
  cbn [range_loop]. rewrite (proj2 (Z.ltb_ge u128_max start)) by (unfold u128_max; lia).
  rewrite Z.eqb_refl. fold (alignment start 128).
  pose proof (alignment_bounds start 128 ltac:(lia)) as Ht.
  destruct (alignment_divide start 128) as [k Hk]; [lia..|].
  set (t := alignment start 128) in *. rewrite Z.min_l by lia.
  assert (Ht128 : t < 128). { destruct (decide (t = 128)) as [Hc|]; [|lia]. rewrite Hc in *. lia. }
  rewrite (proj2 (Z.eqb_neq t 128)) by lia.
  assert (Hsplit : 2 ^ 128 = 2 ^ (128 - t) * 2 ^ t) by (rewrite <- Z.pow_add_r by lia; f_equal; lia).
  assert (0 < 2 ^ t) by lia. assert (0 < 2 ^ (128 - t)) by lia.
  assert (Hk1 : k + 1 ≤ 2 ^ (128 - t)).
  { apply Z.le_succ_l, (Z.mul_lt_mono_pos_r (2 ^ t)); [done|]. rewrite <- Hk, <- Hsplit. lia. }
  assert (Hle : start + 2 ^ t ≤ 2 ^ 128).
  { rewrite Hsplit, Hk at 1. apply (Z.mul_le_mono_nonneg_r _ _ (2 ^ t)) in Hk1; lia. }
  assert (Hone : tiles 128 start (start + 2 ^ t) [(start, 128 - t)])
    by (apply tiles_one; [lia|by exists k]).
  destruct (decide (start + 2 ^ t = 2 ^ 128)) as [Heq|Hne].
  - rewrite Heq in Hone. exists [(start, 128 - t)]. split; [|done].
    unfold add_u128. rewrite Heq, Z.ltb_irrefl. destruct checks; [done|].
    cbn [mbind result_bind]. unfold wrapping_add. rewrite Heq, Z_mod_same_full.
    destruct fuel; [lia|]. cbn. by rewrite <- app_assoc.
  - rewrite add_u128_small by lia. cbn [mbind result_bind].
    pose proof (alignment_step start 128 ltac:(lia) ltac:(lia) Ht128) as Hstep. fold t in Hstep.
    destruct (IH (start + 2 ^ t) (acc ++ [(start, 128 - t)])) as (bs & -> & Hbs); [lia..|].
    exists ((start, 128 - t) :: bs). split; [destruct checks; [done|]; by rewrite <- !app_assoc|].
    constructor; [lia|by exists k|done].
Qed.

(** ** The reader terminates *)

(** The reader takes at least [k] bytes off the front of its input. *)
Definition consumes {A} (k : nat) (m : reader A) : Prop :=
  ∀ s a s', m s = Ok (a, s') → ∃ p, s = p ++ s' ∧ (k ≤ length p)%nat.

(** On inputs of at most [k] bytes the fuel suffices. *)
Definition halts {A} (k : nat) (m : reader A) : Prop :=
  ∀ s, Forall u8 s → (length s ≤ k)%nat → m s ≠ Diverge.

Lemma consumes_bind {A B} k1 k2 k (f : A → reader B) (m : reader A) :
  consumes k1 m → (∀ a, consumes k2 (f a)) → (k ≤ k1 + k2)%nat → consumes k (a ← m; f a).
Proof.
  intros Hm Hf Hk s b s' (a & s0 & Ha & Hb)%rbind_Ok.
  apply Hm in Ha as (p & -> & Hp). apply Hf in Hb as (q & -> & Hq).
  exists (p ++ q). rewrite <- app_assoc. split; [done|length_tac].
Qed.

Lemma consumes_le {A} k k' (m : reader A) : consumes k m → (k' ≤ k)%nat → consumes k' m.
Proof. intros H Hk s a s' (p & -> & Hp)%H. exists p. split; [done|lia]. Qed.

(** The rest starts on a suffix, shorter by what was read. *)
Lemma halts_bind_n {A B} j k (f : A → reader B) (m : reader A) :
  halts (j + k) m → consumes j m → (∀ a, halts k (f a)) → halts (j + k) (a ← m; f a).
Proof.
  intros Hm Hsh Hf s Hu Hs. unfold mbind, reader_bind. pose proof (Hm s Hu Hs).
  destruct (m s) as [[a s']| | |] eqn:E; try done. apply Hsh in E as (p & -> & Hp).
  apply Forall_app in Hu as [_ Hu]. apply Hf; [done|]. revert Hs. length_tac.
Qed.
Lemma halts_bind {A B} k (f : A → reader B) (m : reader A) :
  halts k m → consumes 0 m → (∀ a, halts k (f a)) → halts k (a ← m; f a).
Proof. apply (halts_bind_n 0). Qed.

Lemma halts_ret {A} k (a : A) : halts k (mret a).
Proof. by intros s _. Qed.
Lemma halts_fail {A} k msg : halts k (@fail A msg).
Proof. by intros s _. Qed.
Lemma halts_lift {A} k (r : result A) : r ≠ Diverge → halts k (lift r).
Proof. intros H s _ _. by destruct r. Qed.
Lemma halts_u8 k : halts k read_u8.
Proof. by intros [] _. Qed.
Lemma halts_bytes k n : halts k (read_bytes n).
Proof. intros s _ _. unfold read_bytes, read_exact. by repeat break_match_goal. Qed.

Lemma consumes_ret {A} (a : A) : consumes 0 (mret a).
Proof. intros s b s' [= <- <-]. by exists []. Qed.
Lemma consumes_fail {A} msg k : consumes k (@fail A msg).
Proof. intros s b s' [=]. Qed.
Lemma consumes_lift {A} (r : result A) : consumes 0 (lift r).
Proof. intros s b s'. unfold lift. destruct r; [|done..]. intros [= <- <-]. by exists []. Qed.
Lemma consumes_u8 : consumes 1 read_u8.
Proof. intros s b s' ->%read_u8_Ok. by exists [b]. Qed.
Lemma read_bytes_Ok n s b s' :
  read_bytes n s = Ok (b, s') → s = b ++ s' ∧ length b = Z.to_nat n.
Proof.
  unfold read_bytes. destruct (n >? isize_max); [done|].
  destruct (n <=? Z.of_nat (length s)); [|done]. apply read_exact_Ok.
Qed.
Lemma consumes_bytes n : consumes 0 (read_bytes n).
Proof. intros s b s' [-> _]%read_bytes_Ok. exists b. split; [done|lia]. Qed.
Lemma consumes_bind1 {A B} (f : A → reader B) (m : reader A) :
  consumes 1 m → (∀ a, consumes 0 (f a)) → consumes 1 (a ← m; f a).
Proof. intros. eapply consumes_bind; [done..|lia]. Qed.
Lemma consumes_bind0 {A B} (f : A → reader B) (m : reader A) :
  consumes 0 m → (∀ a, consumes 0 (f a)) → consumes 0 (a ← m; f a).
Proof. intros. eapply consumes_bind; [done..|lia]. Qed.
Lemma consumes_0 {A} (m : reader A) : consumes 1 m → consumes 0 m.
Proof. intros H. apply (consumes_le 1); [done|lia]. Qed.
Lemma consumes_words n : 0 < n ≤ isize_max → consumes 1 (b ← read_bytes n; mret (of_be b)).
Proof.
  intros Hn s z s' (b & s0 & [-> Hb]%read_bytes_Ok & [= <- <-])%rbind_Ok.
  exists b. split; [done|lia].
Qed.

#[export] Hint Resolve halts_ret halts_fail halts_u8 halts_bytes halts_lift consumes_ret
  consumes_fail consumes_lift consumes_u8 consumes_bytes consumes_words : rust.
#[export] Hint Extern 4 (consumes 0 _) => apply consumes_0 : rust.

(** Takes a composed reader apart; the leaves are hints. *)
Ltac reader_tac :=
  repeat match goal with
  | |- halts _ (mbind _ _) => apply halts_bind; [| |intros ?]
  | |- consumes 0 (mbind _ _) => apply consumes_bind0; [|intros ?]
  | |- consumes 1 (mbind _ _) => apply consumes_bind1; [|intros ?]
  | |- halts _ (if ?b then _ else _) => destruct b
  | |- consumes _ (if ?b then _ else _) => destruct b
  | |- halts _ (let '(_, _) := ?x in _) => destruct x
  | |- consumes _ (let '(_, _) := ?x in _) => destruct x
  end; auto with rust.

Lemma consumes_uvarint_loop n shift value : consumes 1 (uvarint_loop n shift value).
Proof.
  revert shift value. induction n as [|n IH]; intros; cbn [uvarint_loop]; reader_tac.
Qed.
Lemma consumes_uvarint : consumes 1 uvarint.
Proof. apply consumes_uvarint_loop. Qed.
Lemma halts_uvarint_loop k n shift value : halts k (uvarint_loop n shift value).
Proof.
  revert shift value. induction n as [|n IH]; intros; cbn [uvarint_loop]; reader_tac.
Qed.
Lemma halts_uvarint k : halts k uvarint.
Proof. apply halts_uvarint_loop. Qed.
#[export] Hint Resolve consumes_uvarint halts_uvarint : rust.

Lemma consumes_repeat_loop {A} (read : reader A) fuel n :
  consumes 0 read → consumes 0 (repeat_loop read fuel n).
Proof.
  intros Hr. revert n. induction fuel as [|fuel IH]; intros n; cbn [repeat_loop]; reader_tac.
  intros s a s' [=].
Qed.
Lemma consumes_repeat {A} (read : reader A) n : consumes 0 read → consumes 0 (repeat_read read n).
Proof. intros Hr s a s' H. by eapply consumes_repeat_loop in H. Qed.

(** More items than bytes cannot be read: the length of the input is enough. *)
Lemma halts_repeat_loop {A} k (read : reader A) fuel n :
  consumes 1 read → halts k read → (k < fuel)%nat → halts k (repeat_loop read fuel n).
Proof.
  intros Hsh. revert n k. induction fuel as [|fuel IH]; intros n k Hr Hk; [lia|].
  cbn [repeat_loop]. destruct (n <=? 0); [apply halts_ret|]. destruct k as [|k].
  - intros s Hu Hs. unfold mbind, reader_bind. pose proof (Hr s Hu Hs).
    destruct (read s) as [[a s']| | |] eqn:E; try done.
    apply Hsh in E as (p & -> & Hp). revert Hs. length_tac.
  - apply (halts_bind_n 1 k); [done..|]. intros a. apply halts_bind; [|apply consumes_repeat_loop; auto with rust|reader_tac].
    apply IH; [|lia]. intros s Hu Hs. apply Hr; [done|lia].
Qed.

Lemma halts_repeat {A} k (read : reader A) n :
  consumes 1 read → halts k read → halts k (repeat_read read n).
Proof.
  intros Hsh Hr s Hu Hs. unfold repeat_read. apply (halts_repeat_loop (length s)); [done| |lia|done|lia].
  intros s' Hu' Hs'. apply Hr; [done|lia].
Qed.
#[export] Hint Resolve consumes_repeat halts_repeat : rust.

Lemma returns_not_diverge {A} (r : result A) : returns r → r ≠ Diverge.
Proof. by destruct r. Qed.
#[export] Hint Resolve returns_not_diverge : rust.

(** With what is known of the values read from bytes. *)
Lemma halts_bind_post {A B} (P : A → Prop) k (f : A → reader B) (m : reader A) :
  halts k m → consumes 0 m → (∀ s a s', Forall u8 s → m s = Ok (a, s') → P a) →
  (∀ a, P a → halts k (f a)) → halts k (a ← m; f a).
Proof.
  intros Hm Hsh HP Hf s Hu Hs. unfold mbind, reader_bind. pose proof (Hm s Hu Hs).
  destruct (m s) as [[a s']| | |] eqn:E; try done. pose proof (HP _ _ _ Hu E).
  apply Hsh in E as (p & -> & Hp). apply Forall_app in Hu as [_ Hu].
  apply Hf; [done..|]. revert Hs. length_tac.
Qed.

Lemma returns_parse_srs_ip b : returns (parse_srs_ip b).
Proof. unfold parse_srs_ip. by repeat break_match_goal. Qed.
#[export] Hint Resolve returns_parse_srs_ip : rust.

Lemma consumes_read_ip : consumes 1 read_ip.
Proof. unfold read_ip. reader_tac. Qed.
Lemma halts_read_ip k : halts k read_ip.
Proof. unfold read_ip. reader_tac. Qed.
#[export] Hint Resolve consumes_read_ip halts_read_ip : rust.

Lemma read_ip_ok s ip s' : Forall u8 s → read_ip s = Ok (ip, s') → ip_ok ip.
Proof.
  intros Hu (n & s1 & Hn & (b & s2 & [-> _]%read_bytes_Ok & Hip)%rbind_Ok)%rbind_Ok.
  apply consumes_uvarint in Hn as (p & -> & _).
  apply Forall_app in Hu as [_ [Hb _]%Forall_app]. apply of_be_uint in Hb.
  unfold lift, parse_srs_ip in Hip.
  repeat break_match_hyp Hip; simplify_eq; exact Hb.
Qed.

Lemma range_blocks_halts checks a b w :
  (w = 32 ∨ w = 128) → uint w a → uint w b → range_blocks checks a b w ≠ Diverge.
Proof.
  intros Hw [Ha Ha'] [Hb Hb']. destruct (decide (b < a)) as [Hlt|Hge].
  { unfold range_blocks. by rewrite (proj2 (Z.ltb_lt _ _)). }
  destruct (decide (b = u128_max ∧ a ≠ 0)) as [[-> Hz]|Hn].
  - assert (w = 128) as -> by (destruct Hw as [-> | ->]; [|done]; unfold u128_max in *; lia).
    unfold range_blocks. rewrite (proj2 (Z.ltb_ge _ _)) by lia.
    pose proof (alignment_bounds a 128).
    destruct (range_loop_last checks (Z.to_nat (2 * 128 + 2)) a []) as (bs & -> & _); [lia..|].
    by destruct checks.
  - destruct (decide (b = u128_max)) as [->|Hmax].
    + assert (a = 0) as -> by (destruct (decide (a = 0)); naive_solver).
      destruct Hw as [-> | ->]; [unfold u128_max in *; lia|done].
    + destruct (range_blocks_tiles checks a b w) as (bs & -> & _); [lia|lia|lia|done|done].
Qed.

Lemma range_to_cidrs_halts checks from to :
  ip_ok from → ip_ok to → range_to_cidrs checks from to ≠ Diverge.
Proof.
  intros Hf Ht. destruct from as [a|a], to as [b|b]; [|done..|]; cbn [range_to_cidrs];
    (destruct (range_blocks checks a b _) eqn:E; [done..|]);
    exfalso; revert E; apply range_blocks_halts; auto.
Qed.

Lemma halts_ip_set checks k : halts k (ip_set checks).
Proof.
  unfold ip_set. apply halts_bind; [reader_tac..|intros v]. destruct (negb _); [reader_tac|].
  apply halts_bind; [reader_tac..|intros count]. apply halts_bind; [|apply consumes_repeat; reader_tac|reader_tac].
  apply halts_repeat; [reader_tac|].
  apply (halts_bind_post ip_ok); [reader_tac..|apply read_ip_ok|intros from Hf].
  apply (halts_bind_post ip_ok); [reader_tac..|apply read_ip_ok|intros to Ht].
  apply halts_lift. by apply range_to_cidrs_halts.
Qed.

Lemma consumes_ip_set checks : consumes 1 (ip_set checks).
Proof. unfold ip_set. reader_tac. apply consumes_repeat. reader_tac. Qed.
#[export] Hint Resolve halts_ip_set consumes_ip_set : rust.

Lemma consumes_strings : consumes 1 strings.
Proof. unfold strings, read_string. reader_tac. apply consumes_repeat. reader_tac. Qed.
Lemma halts_strings k : halts k strings.
Proof. unfold strings, read_string. reader_tac. apply halts_repeat; reader_tac. Qed.
Lemma consumes_u8s : consumes 1 u8s.
Proof. unfold u8s. reader_tac. Qed.
Lemma halts_u8s k : halts k u8s.
Proof. unfold u8s. reader_tac. Qed.
Lemma consumes_u16s : consumes 1 u16s.
Proof. unfold u16s. reader_tac. apply consumes_repeat. reader_tac. Qed.
Lemma halts_u16s k : halts k u16s.
Proof. unfold u16s. reader_tac. apply halts_repeat; [by apply consumes_words|reader_tac]. Qed.
Lemma consumes_u64s : consumes 1 u64s.
Proof. unfold u64s. reader_tac. apply consumes_repeat. reader_tac. Qed.
Lemma halts_u64s k : halts k u64s.
Proof. unfold u64s. reader_tac. apply halts_repeat; [by apply consumes_words|reader_tac]. Qed.
Lemma consumes_prefixes : consumes 1 prefixes.
Proof. unfold prefixes, prefix. reader_tac. apply consumes_repeat. reader_tac. Qed.
Lemma halts_prefixes k : halts k prefixes.
Proof. unfold prefixes, prefix. reader_tac. apply halts_repeat; reader_tac. Qed.
#[export] Hint Resolve consumes_strings halts_strings consumes_u8s halts_u8s consumes_u16s
  halts_u16s consumes_u64s halts_u64s consumes_prefixes halts_prefixes : rust.

(** *** Succinct trees *)

(** The edges of a tree under construction go to later nodes that exist. *)
Definition forward (children : list (list (Z * nat))) : Prop :=
  ∀ i cs, children !! i = Some cs → Forall (λ c, i < c.2 < length children)%nat cs.

Lemma forward_grow children node label :
  forward children → (node < length children)%nat →
  forward (alter (λ c, c ++ [(label, length children)]) node children ++ [[]]).
Proof.
  intros Hf Hn i cs. rewrite length_app, length_alter. cbn [length].
  intros [Hi|[Hi Hl]]%lookup_app_Some.
  - destruct (decide (i = node)) as [->|Hne].
    + rewrite list_lookup_alter, decide_True in Hi by done. apply fmap_Some in Hi as (cs' & Hcs & ->).
      apply Forall_app. split; [|by repeat constructor; cbn; lia].
      eapply Forall_impl; [exact (Hf _ _ Hcs)|]. cbn; intros; lia.
    + rewrite list_lookup_alter, decide_False in Hi by done.
      eapply Forall_impl; [exact (Hf _ _ Hi)|]. cbn; intros; lia.
  - apply list_lookup_singleton_Some in Hl as [_ <-]. constructor.
Qed.

(** Every turn takes a label or leaves a node, and the nodes are one more than
    the labels taken. *)
Lemma tree_loop_spec bitmap labels fuel bi li node children :
  length children = S li → (li ≤ length labels)%nat → (node ≤ S li)%nat → forward children →
  (2 * length labels + 2 ≤ fuel + li + node)%nat →
  tree_loop fuel bitmap labels bi li node children ≠ Diverge ∧
  ∀ cs used, tree_loop fuel bitmap labels bi li node children = Ok (cs, used) →
    forward cs ∧ length cs = S used ∧ (used ≤ length labels)%nat.
Proof.
  revert bi li node children. induction fuel as [|fuel IH]; intros bi li node children Hc Hl Hn Hf Hm.
  { exfalso. lia. }
  cbn [tree_loop]. destruct (node <? length children)%nat eqn:E; bool_to_prop.
  - destruct (bit bitmap bi).
    + apply IH; (done || lia).
    + destruct (labels !! li) as [label|] eqn:Hlabel; cbn; [|done].
      pose proof (lookup_lt_Some _ _ _ Hlabel).
      apply IH; [rewrite length_app, length_alter; cbn; lia|lia|lia|by apply forward_grow|lia].
  - split; [done|]. intros cs used [= <- <-]. done.
Qed.

Lemma returns_collect_keys fuel node children leaves key :
  forward children → (node < length children)%nat → (length children ≤ fuel + node)%nat →
  returns (collect_keys fuel node children leaves key).
Proof.
  intros Hf. revert node key. induction fuel as [|fuel IH]; intros node key Hn Hm; [lia|].
  cbn [collect_keys]. destruct (lookup_lt_is_Some_2 children node Hn) as [cs Hcs].
  rewrite (proj2 (index_Ok _ _ _) Hcs). cbn [mbind result_bind].
  apply returns_bind; [|done]. apply returns_map_result. intros [label child] Hin.
  pose proof (proj1 (Forall_forall _ _) (Hf _ _ Hcs) _ Hin) as Hc. cbn in Hc.
  apply IH; lia.
Qed.

Lemma consumes_succinct_keys : consumes 1 succinct_keys.
Proof. unfold succinct_keys. reader_tac. Qed.

Lemma halts_succinct_keys k : halts k succinct_keys.
Proof.
  unfold succinct_keys. do 5 (apply halts_bind; [reader_tac..|intros ?]).
  destruct (tree_loop_spec a1 a3 (2 * length a3 + 3) 0 0 0 [[]]) as [Hd Hs]; [done|lia..| |lia|].
  { intros i cs Hi. destruct i; [|done]. injection Hi as <-. constructor. }
  destruct (tree_loop _ _ _ _ _ _ _) as [[children used]| | |] eqn:E; [|done..].
  destruct (Hs _ _ eq_refl) as (Hf & Hl & _).
  intros s _ _. unfold mbind, reader_bind, lift at 1. destruct (negb _); [done|].
  pose proof (returns_collect_keys (length children) 0 children a0 [] Hf) as Hr.
  assert (Hr' := Hr ltac:(lia) ltac:(lia)). unfold lift.
  by destruct (collect_keys _ _ _ _ _).
Qed.
#[export] Hint Resolve consumes_succinct_keys halts_succinct_keys : rust.

Lemma returns_domain_key key : returns (domain_key key).
Proof.
  unfold domain_key. repeat break_match_goal; [done|..]; (apply returns_bind; [apply returns_from_utf8|done]).
Qed.
Lemma halts_domain_matcher k : halts k domain_matcher.
Proof.
  unfold domain_matcher. reader_tac. apply halts_lift, returns_not_diverge, returns_map_result.
  intros key _. apply returns_domain_key.
Qed.
Lemma consumes_domain_matcher : consumes 1 domain_matcher.
Proof. unfold domain_matcher. reader_tac. Qed.
#[export] Hint Resolve halts_domain_matcher consumes_domain_matcher : rust.

Section halting.
Context (escape : str → str) `{!HashIter str (list str)} (checks : bool).

Lemma returns_adguard_key key : returns (adguard_key escape key).
Proof.
  unfold adguard_key. repeat break_match_goal; (apply returns_bind; [apply returns_from_utf8|done]).
Qed.
Lemma halts_adguard_matcher k : halts k (adguard_matcher escape).
Proof.
  unfold adguard_matcher. reader_tac. apply halts_lift, returns_not_diverge, returns_map_result.
  intros key _. apply returns_adguard_key.
Qed.
Lemma consumes_adguard_matcher : consumes 1 (adguard_matcher escape).
Proof. unfold adguard_matcher. reader_tac. Qed.

Lemma consumes_interface_address_map : consumes 1 interface_address_map.
Proof. unfold interface_address_map. reader_tac. apply consumes_repeat. reader_tac. Qed.
Lemma halts_interface_address_map k : halts k interface_address_map.
Proof.
  unfold interface_address_map. reader_tac; [apply halts_repeat; reader_tac|].
  apply consumes_repeat. reader_tac.
Qed.
Hint Resolve halts_adguard_matcher consumes_adguard_matcher consumes_interface_address_map
  halts_interface_address_map : rust.

Lemma halts_read_item tag i k : halts k (read_item escape checks tag i).
Proof. unfold read_item. destruct i. reader_tac. Qed.
Lemma consumes_read_item tag i : consumes 0 (read_item escape checks tag i).
Proof. unfold read_item. destruct i. reader_tac. Qed.
Hint Resolve halts_read_item consumes_read_item : rust.

Lemma consumes_default_rule_loop fuel i : consumes 1 (default_rule_loop escape checks fuel i).
Proof.
  revert i. induction fuel as [|fuel IH]; intros i; [by intros s a s'|].
  cbn [default_rule_loop]. reader_tac.
Qed.
Lemma halts_default_rule_loop fuel i k :
  (k < fuel)%nat → halts k (default_rule_loop escape checks fuel i).
Proof.
  revert i k. induction fuel as [|fuel IH]; intros i k Hk; [lia|]. cbn [default_rule_loop].
  destruct k as [|k]; [intros [|b s] _ Hs; [done|cbn in Hs; lia]|].
  apply (halts_bind_n 1 k); [reader_tac..|intros tag]. destruct (tag =? 255); [reader_tac|].
  apply halts_bind; [reader_tac..|intros j]. apply IH. lia.
Qed.
Lemma halts_default_rule k : halts k (default_rule escape checks).
Proof. intros s Hu Hs. by apply (halts_default_rule_loop _ _ (length s)); [lia| |]. Qed.
Lemma consumes_default_rule : consumes 1 (default_rule escape checks).
Proof. intros s a s' H. by eapply consumes_default_rule_loop in H. Qed.
Hint Resolve halts_default_rule consumes_default_rule : rust.

Lemma consumes_read_rule fuel : consumes 1 (read_rule escape checks fuel).
Proof.
  induction fuel as [|fuel IH]; [by intros s a s'|]. cbn [read_rule]. reader_tac.
Qed.
Lemma halts_read_rule fuel k : (k < fuel)%nat → halts k (read_rule escape checks fuel).
Proof.
  revert k. induction fuel as [|fuel IH]; intros k Hk; [lia|]. cbn [read_rule].
  destruct k as [|k]; [intros [|b s] _ Hs; [done|cbn in Hs; lia]|].
  pose proof (consumes_read_rule fuel).
  apply (halts_bind_n 1 k); [reader_tac..|intros t].
  destruct (t =? 0); [reader_tac|]. destruct (t =? 1); [|reader_tac].
  apply halts_bind; [reader_tac..|intros m]. apply halts_bind; [reader_tac..|intros mode].
  apply halts_bind; [reader_tac..|intros count].
  apply halts_bind; [|by apply consumes_repeat, consumes_0|intros; reader_tac].
  apply halts_repeat; [done|]. apply IH. lia.
Qed.

End halting.

(** ** Properties *)

(** The address lies between the ends of a range, in their family. *)
Definition between (from to ip : IpAddr) : bool :=
  match from, to, ip with
  | V4 a, V4 b, V4 x | V6 a, V6 b, V6 x => (a <=? x) && (x <=? b)
  | _, _, _ => false
  end.

Lemma print_blocks_family w bs :
  (w = 32 ∨ w = 128) → Forall (λ b : Z * Z, 0 ≤ b.1 < 2 ^ w) bs →
  (print_block (w =? 32) <$> bs) =
  (@ipnet_print Cidr.lib <$> ((λ b : Z * Z, (family w b.1, b.2)) <$> bs)).
Proof.
  intros Hw Hb. rewrite <- list_fmap_compose. apply list_fmap_ext. intros i [s p] Hi.
  apply (Forall_lookup_1 _ _ _ _ Hb) in Hi. cbn in Hi.
  unfold print_block, family. destruct Hw as [-> | ->]; cbn [Z.eqb Pos.eqb fst snd compose];
    [|done]. by rewrite Z.mod_small.
Qed.

Lemma tiles_starts w s e bs : 0 ≤ s → tiles w s e bs → Forall (λ b : Z * Z, 0 ≤ b.1 < e) bs.
Proof.
  intros Hs Ht. induction Ht as [s|s h e bs Hh Hd Ht IH]; constructor; cbn [fst].
  - pose proof (tiles_le _ _ _ _ Ht). assert (0 < 2 ^ h) by lia. lia.
  - apply IH. assert (0 < 2 ^ h) by lia. lia.
Qed.

Lemma length_filter_fmap {A B} (f : A → B) (P : B → Prop) `{∀ b, Decision (P b)} l :
  length (filter P (f <$> l)) = length (filter (λ a, P (f a)) l).
Proof.
  induction l as [|a l IH]; [done|]. rewrite fmap_cons, !filter_cons.
  destruct (decide (P (f a))); cbn [length]; by rewrite IH.
Qed.

(** An address is of the family, or of the other one and in no network of it. *)
Lemma family_or w x :
  (w = 32 ∨ w = 128) →
  (∃ y, x = family w y) ∨
  (∀ a b, between (family w a) (family w b) x = false ∧ ∀ p, Cidr.contains (family w a, p) x = false).
Proof.
  intros [-> | ->]; destruct x as [y|y]; cbn; eauto.
Qed.

(** What the blocks of a tiling are as networks. *)
Lemma tiles_networks w a b bs :
  (w = 32 ∨ w = 128) → 0 ≤ a → b < 2 ^ w → tiles w a (b + 1) bs →
  let nets := (λ blk : Z * Z, (family w blk.1, blk.2)) <$> bs in
  (print_block (w =? 32) <$> bs) = (@ipnet_print Cidr.lib <$> nets) ∧
  ∀ x, ip_ok x → length (filter (λ n, Cidr.contains n x) nets) =
    if between (family w a) (family w b) x then 1%nat else 0%nat.
Proof.
  intros Hw Ha Hb Ht nets. split.
  { apply print_blocks_family; [done|]. eapply Forall_impl; [by eapply tiles_starts|].
    cbn; intros; lia. }
  intros x Hx. unfold nets. rewrite length_filter_fmap.
  destruct (family_or w x) as [[y ->]|Hne]; [done|..].
  - assert (0 ≤ y < 2 ^ w) by (destruct Hw as [-> | ->]; exact Hx).
    etrans; [apply (tiles_exact w a (b + 1) bs y Hw Ht Ha); lia|].
    destruct Hw as [-> | ->]; cbn [between family Z.eqb Pos.eqb];
      destruct (a <=? y) eqn:E1; destruct (y <=? b) eqn:E2; bool_to_prop;
      case_bool_decide; cbn [andb]; (done || lia).
  - rewrite (proj1 (Hne a b)). clear Ht. induction bs as [|[s p] bs IH]; [done|].
    rewrite filter_cons_False; [exact IH|]. intros Hc. cbn [fst snd] in Hc. by rewrite (proj2 (Hne s 0) p) in Hc.
Qed.

(** C14: a range of addresses that does not end at the last IPv6 address turns
    into networks that contain every address of the range exactly once and no
    other address, whether or not the build checks for overflow. *)
Theorem range_to_cidrs_exact checks from to :
  ip_ok from → ip_ok to → between from to from = true → to ≠ V6 u128_max →
  ∃ nets, range_to_cidrs checks from to = Ok (@ipnet_print Cidr.lib <$> nets) ∧
    ∀ ip, ip_ok ip →
      length (filter (λ n, Cidr.contains n ip) nets) = if between from to ip then 1%nat else 0%nat.
Proof.
  intros Hf Ht Hle Hmax.
  destruct from as [a|a], to as [b|b]; try done; cbn in Hf, Ht; cbn in Hle; bool_to_prop;
    unfold uint in *; cbn [range_to_cidrs].
  - destruct (range_blocks_tiles checks a b 32) as (bs & -> & Hbs); [lia..|unfold u128_max; lia|].
    destruct (tiles_networks 32 a b bs) as [Hp Hx]; [by left|lia..|done|].
    cbn [mbind result_bind]. eexists. split; [by rewrite <- Hp|exact Hx].
  - destruct (range_blocks_tiles checks a b 128) as (bs & -> & Hbs); [lia..|congruence|].
    destruct (tiles_networks 128 a b bs) as [Hp Hx]; [by right|lia..|done|].
    cbn [mbind result_bind]. eexists. split; [by rewrite <- Hp|exact Hx].
Qed.

Lemma range_to_cidrs_exact_witness : ∃ nets,
  range_to_cidrs true (V4 1) (V4 6) = Ok (@ipnet_print Cidr.lib <$> nets) ∧
  ∀ ip, ip_ok ip →
    length (filter (λ n, Cidr.contains n ip) nets) = if between (V4 1) (V4 6) ip then 1%nat else 0%nat.
Proof. by apply (range_to_cidrs_exact true (V4 1) (V4 6)). Defined.

Example range_to_cidrs_sample :
  range_to_cidrs true (V4 1) (V4 6) =
  Ok [lit "0.0.0.1/32"; lit "0.0.0.2/31"; lit "0.0.0.4/31"; lit "0.0.0.6/32"].
Proof. reflexivity. Qed.

(** A range that ends at the last IPv6 address and does not start at the
    first one makes a build with overflow checks panic; without them the start
    wraps around and the network [::/0] is added, so the networks contain every
    IPv6 address. *)
Theorem range_to_cidrs_last a :
  0 < a ≤ u128_max →
  range_to_cidrs true (V6 a) (V6 u128_max) = Panic ∧
  ∃ nets, range_to_cidrs false (V6 a) (V6 u128_max) = Ok (@ipnet_print Cidr.lib <$> nets) ∧
    last nets = Some (V6 0, 0) ∧
    ∀ x, u128 x → existsb (λ n, Cidr.contains n (V6 x)) nets = true.
Proof.
  intros Ha. cbn [range_to_cidrs]. unfold range_blocks. rewrite (proj2 (Z.ltb_ge _ _)) by lia.
  pose proof (alignment_bounds a 128 ltac:(lia)).
  assert (a < 2 ^ 128) by (unfold u128_max in Ha; lia).
  destruct (range_loop_last true (Z.to_nat (2 * 128 + 2)) a []) as (_ & -> & _); [lia..|].
  destruct (range_loop_last false (Z.to_nat (2 * 128 + 2)) a []) as (bs & -> & Hbs); [lia..|].
  split; [done|]. cbn [mbind result_bind app].
  exists ((λ b : Z * Z, (family 128 b.1, b.2)) <$> bs ++ [(0, 0)]). split_and!.
  - f_equal. apply (print_blocks_family 128); [by right|]. apply Forall_app.
    split; [eapply tiles_starts; [|done]; lia|by repeat constructor].
  - rewrite fmap_app. apply last_snoc.
  - intros x Hx. rewrite fmap_app, existsb_app. cbn. apply orb_true_iff. right.
    unfold uint in Hx. rewrite orb_false_r. apply Z.eqb_eq. unfold Cidr.mask, Cidr.prefix_len. cbn [snd fst Cidr.width].
    rewrite Z.min_l, Z.max_l by lia. rewrite !Z.shiftr_div_pow2 by lia.
    rewrite (Z.div_small (x mod _)) by (apply Z.mod_pos_bound; lia). done.
Qed.

Lemma range_to_cidrs_last_witness :
  range_to_cidrs true (V6 (2 ^ 127)) (V6 u128_max) = Panic ∧
  ∃ nets, range_to_cidrs false (V6 (2 ^ 127)) (V6 u128_max) = Ok (@ipnet_print Cidr.lib <$> nets) ∧
    last nets = Some (V6 0, 0) ∧
    ∀ x, u128 x → existsb (λ n, Cidr.contains n (V6 x)) nets = true.
Proof. apply (range_to_cidrs_last (2 ^ 127)). unfold u128_max. lia. Defined.

Example range_to_cidrs_wraps :
  range_to_cidrs false (V6 (2 ^ 127)) (V6 u128_max) = Ok [lit "8000::/1"; lit "::/0"].
Proof. reflexivity. Qed.

(** Decoding a rule-set always ends: whatever the file and the decompressed
    bytes, every loop and recursion of the reader is bounded by the length of
    the input, and what is read is a prefix of it. *)
Theorem decode_terminates (escape : str → str) `{!HashIter str (list str)} checks inflate data :
  (∀ d p, inflate d = Some p → Forall u8 p) →
  decode escape checks inflate data ≠ Diverge.
Proof.
  intros Hinf. unfold decode. destruct (negb _); [done|].
  destruct (data !! 3%nat) as [version|]; [|done]. cbn [context mbind result_bind].
  destruct (version >? 4); [done|].
  destruct (inflate (drop 4 data)) as [payload|] eqn:E; [|done]. cbn [context mbind result_bind].
  assert (H : halts (length payload)
    (count ← uvarint; repeat_read (read_rule escape checks (S (length payload))) count)).
  { apply halts_bind; [reader_tac..|intros count]. apply halts_repeat; [apply consumes_read_rule|].
    apply halts_read_rule. lia. }
  specialize (H payload (Hinf _ _ E) (Nat.le_refl _)).
  match type of H with ?r ≠ Diverge => by destruct r as [[rules s]| | |] end.
Qed.

(** A rule-set with one rule: the domain keyword [ads]. *)
Definition sample_payload : bytes := [1; 0; 3; 1; 3; 97; 100; 115; 255; 0].
Definition stored (d : bytes) : option bytes := Some sample_payload.
#[local] Instance sample_str_order : HashIter str (list str) := key_order _ _.

Lemma decode_terminates_witness : decode id true stored (lit "SRS" ++ [2]) ≠ Diverge.
Proof.
  apply decode_terminates. intros d p [= <-]. by repeat constructor; apply (bool_decide_unpack _).
Defined.

Example decode_sample :
  (λ rs : list RouteRule, r_domain_keyword <$> rs) <$> decode id true stored (lit "SRS" ++ [2]) = Ok [[lit "ads"]].
Proof. reflexivity. Qed.

(** A string whose length is 2^63: the buffer is allocated before the input is
    read. *)
Example decode_huge_length :
  decode id true (λ _, Some ([1; 0; 3; 1] ++ replicate 9 128 ++ [1])) (lit "SRS" ++ [2]) = Panic.
Proof. reflexivity. Qed.
