(* ===== verification/UdpNat.v ===== *)
(** * The UDP NAT table (src/src/proxy/udp_nat.rs)

    The table that the transparent proxy and the TUN device share between the
    packets they send and the responses they let through: sessions by mapping
    key, with the addresses each may answer from, an idle timeout, and the
    eviction of the least recently used session of a full table.

    The clock is an argument of every operation (the readings inside one
    operation are one instant); a sender is an identifier, and whether its
    channel is closed is a parameter. *)

From S2P Require Import Prelude RustStr Net.

Inductive UdpNatBehavior := EndpointIndependent | AddressDependent | AddressAndPortDependent.

#[export] Instance UdpNatBehavior_eq_dec : EqDecision UdpNatBehavior.
Proof. solve_decision. Defined.

Definition UdpNatBehavior_parse (value : option str) : result UdpNatBehavior :=
  let v := default (lit "endpoint_independent") value in
  if bool_decide (v = lit "endpoint_independent") then Ok EndpointIndependent
  else if bool_decide (v = lit "address_dependent") then Ok AddressDependent
  else if bool_decide (v = lit "address_and_port_dependent") then Ok AddressAndPortDependent
  else Err "unsupported UDP NAT".

Inductive UdpMappingKey : Set :=
  | Endpoint (source : SocketAddr)
  | Address (source : SocketAddr) (ip : IpAddr)
  | AddressAndPort (source destination : SocketAddr).

#[export] Instance UdpMappingKey_eq_dec : EqDecision UdpMappingKey.
Proof. solve_decision. Defined.

#[export] Instance UdpMappingKey_countable : Countable UdpMappingKey.
Proof.
  refine (inj_countable'
    (λ k, match k with
          | Endpoint s => inl s
          | Address s i => inr (inl (s, i))
          | AddressAndPort s d => inr (inr (s, d))
          end)
    (λ s, match s with
          | inl s => Endpoint s
          | inr (inl (s, i)) => Address s i
          | inr (inr (s, d)) => AddressAndPort s d
          end) _).
  by intros [].
Defined.

(** A sender is the identity of its channel. *)
Definition Sender : Set := nat.

Record UdpNatSession := mkSession {
  sender : option Sender;
  allowed_addresses : gset IpAddr;
  allowed_endpoints : gset SocketAddr;
  last_used : Z;
  s_generation : Z;
}.

Record UdpNatTable := mkTable {
  filtering : UdpNatBehavior;
  max_sessions : nat;
  idle_timeout : Z;
  generation : Z;
  sessions : gmap UdpMappingKey UdpNatSession;
}.

Definition new (f : UdpNatBehavior) (max : nat) (timeout : Z) : UdpNatTable :=
  mkTable f max timeout 0 ∅.

Definition key_for (mapping : UdpNatBehavior) (source destination : SocketAddr) : UdpMappingKey :=
  match mapping with
  | EndpointIndependent => Endpoint source
  | AddressDependent => Address source (sa_ip destination)
  | AddressAndPortDependent => AddressAndPort source destination
  end.

Definition set_sessions (t : UdpNatTable) (m : gmap UdpMappingKey UdpNatSession) : UdpNatTable :=
  mkTable t.(filtering) t.(max_sessions) t.(idle_timeout) t.(generation) m.

(** [session.last_used.elapsed() < timeout]; [elapsed] saturates at zero. *)
Definition live (now timeout : Z) (s : UdpNatSession) : bool :=
  saturating_sub now s.(last_used) <? timeout.

Definition expire (now : Z) (t : UdpNatTable) : UdpNatTable :=
  set_sessions t (filter (λ e, live now t.(idle_timeout) e.2) t.(sessions)).

Section table.
Context `{!HashIter UdpMappingKey UdpNatSession}.

(** [min_by_key]: the first entry of the iteration with the least generation. *)
Fixpoint min_by_generation (l : list (UdpMappingKey * UdpNatSession))
    : option (UdpMappingKey * UdpNatSession) :=
  match l with
  | [] => None
  | e :: l =>
    match min_by_generation l with
    | Some m => if s_generation m.2 <? s_generation e.2 then Some m else Some e
    | None => Some e
    end
  end.

Definition evict_lru (t : UdpNatTable) : UdpNatTable :=
  match min_by_generation (hash_iter t.(sessions)) with
  | Some (key, _) => set_sessions t (delete key t.(sessions))
  | None => t
  end.

Definition reclaim_if_full (now : Z) (t : UdpNatTable) : UdpNatTable :=
  if (size t.(sessions) <? t.(max_sessions))%nat then t
  else
    let before := size t.(sessions) in
    let t := expire now t in
    if (size t.(sessions) =? before)%nat && (t.(max_sessions) <=? size t.(sessions))%nat
    then evict_lru t else t.

Definition touch_and_sender (is_closed : Sender → bool) (now : Z) (key : UdpMappingKey)
    (destination : SocketAddr) (t : UdpNatTable) : UdpNatTable * option Sender :=
  let t := if bool_decide (is_Some (t.(sessions) !! key)) then t else reclaim_if_full now t in
  let g := wrapping_add 64 t.(generation) 1 in
  let session := default (mkSession None ∅ ∅ now g) (t.(sessions) !! key) in
  let session := mkSession session.(sender)
    ({[sa_ip destination]} ∪ session.(allowed_addresses))
    ({[destination]} ∪ session.(allowed_endpoints)) now g in
  (mkTable t.(filtering) t.(max_sessions) t.(idle_timeout) g (<[key := session]> t.(sessions)),
   s ← session.(sender); if is_closed s then None else Some s).

End table.

Definition set_sender (o : option Sender) (s : UdpNatSession) : UdpNatSession :=
  mkSession o s.(allowed_addresses) s.(allowed_endpoints) s.(last_used) s.(s_generation).

Definition insert_sender (key : UdpMappingKey) (s : Sender) (t : UdpNatTable) : UdpNatTable :=
  set_sessions t (alter (set_sender (Some s)) key t.(sessions)).

Definition clear_sender (key : UdpMappingKey) (t : UdpNatTable) : UdpNatTable :=
  set_sessions t (alter (set_sender None) key t.(sessions)).

Definition permits (f : UdpNatBehavior) (s : UdpNatSession) (remote : SocketAddr) : bool :=
  match f with
  | EndpointIndependent => true
  | AddressDependent => bool_decide (sa_ip remote ∈ s.(allowed_addresses))
  | AddressAndPortDependent => bool_decide (remote ∈ s.(allowed_endpoints))
  end.

Definition allow_response (now : Z) (key : UdpMappingKey) (remote : SocketAddr) (t : UdpNatTable)
    : UdpNatTable * bool :=
  let t := expire now t in
  match t.(sessions) !! key with
  | None => (t, false)
  | Some s =>
    if permits t.(filtering) s remote then
      let g := wrapping_add 64 t.(generation) 1 in
      let s := mkSession s.(sender) s.(allowed_addresses) s.(allowed_endpoints) now g in
      (mkTable t.(filtering) t.(max_sessions) t.(idle_timeout) g (<[key := s]> t.(sessions)), true)
    else (t, false)
  end.

(** ** Runs *)

(** What the owners of a table do with it, under its lock; every operation has
    the reading of the clock. *)
Inductive op :=
  | Touch (now : Z) (key : UdpMappingKey) (destination : SocketAddr)
  | InsertSender (key : UdpMappingKey) (s : Sender)
  | ClearSender (key : UdpMappingKey)
  | AllowResponse (now : Z) (key : UdpMappingKey) (remote : SocketAddr)
  | Expire (now : Z).

Section runs.
Context `{!HashIter UdpMappingKey UdpNatSession} (is_closed : Sender → bool).

Definition exec (t : UdpNatTable) (o : op) : UdpNatTable :=
  match o with
  | Touch now key d => (touch_and_sender is_closed now key d t).1
  | InsertSender key s => insert_sender key s t
  | ClearSender key => clear_sender key t
  | AllowResponse now key r => (allow_response now key r t).1
  | Expire now => expire now t
  end.

Definition run (t : UdpNatTable) (os : list op) : UdpNatTable := fold_left exec os t.

End runs.

(** ** The size of the table *)

Lemma lookup_expire now t k s :
  (expire now t).(sessions) !! k = Some s ↔
  t.(sessions) !! k = Some s ∧ live now t.(idle_timeout) s = true.
Proof. cbn. rewrite map_lookup_filter_Some. cbn. by rewrite Is_true_true. Qed.

Lemma size_expire now t : (size (expire now t).(sessions) ≤ size t.(sessions))%nat.
Proof. apply map_subseteq_size, map_filter_subseteq. Qed.

(** A table that loses no session to the timeout has only live ones. *)
Lemma size_expire_eq now t :
  size (expire now t).(sessions) = size t.(sessions) → (expire now t).(sessions) = t.(sessions).
Proof.
  intros H. apply map_subseteq_size_eq; [apply map_filter_subseteq|lia].
Qed.

Lemma min_by_generation_spec l m :
  min_by_generation l = Some m → m ∈ l ∧ Forall (λ e, s_generation m.2 ≤ s_generation e.2) l.
Proof.
  revert m. induction l as [|e l IH]; intros m; cbn; [done|].
  destruct (min_by_generation l) as [m'|] eqn:E.
  - destruct (IH m' eq_refl) as [Hin Hall].
    destruct (_ <? _) eqn:Hlt; bool_to_prop; intros [= <-].
    + split; [by right|]. constructor; [lia|done].
    + split; [left|]. constructor; [lia|]. eapply Forall_impl; [exact Hall|]. cbn; intros; lia.
  - destruct l; [|cbn in E; destruct (min_by_generation l); [destruct (_ <? _)|]; done].
    intros [= <-]. split; [left|]. constructor; [lia|done].
Qed.

Lemma min_by_generation_None l : min_by_generation l = None → l = [].
Proof.
  destruct l; [done|]. cbn. destruct (min_by_generation l); [destruct (_ <? _)|]; done.
Qed.

Section facts.
Context `{!HashIter UdpMappingKey UdpNatSession} (is_closed : Sender → bool).

Lemma elem_of_hash_iter (m : gmap UdpMappingKey UdpNatSession) e :
  e ∈ hash_iter m ↔ m !! e.1 = Some e.2.
Proof. rewrite hash_iter_perm. destruct e. apply elem_of_map_to_list. Qed.

(** Eviction removes a session of the least generation. *)
Lemma evict_lru_spec t :
  t.(sessions) ≠ ∅ →
  ∃ k0 s0, t.(sessions) !! k0 = Some s0 ∧
    (∀ k s, t.(sessions) !! k = Some s → s_generation s0 ≤ s_generation s) ∧
    evict_lru t = set_sessions t (delete k0 t.(sessions)).
Proof.
  intros Hne. unfold evict_lru.
  destruct (min_by_generation (hash_iter t.(sessions))) as [[k0 s0]|] eqn:E.
  - apply min_by_generation_spec in E as [Hin Hall]. exists k0, s0.
    apply elem_of_hash_iter in Hin. split_and!; [done| |done]. intros k s Hk.
    by apply (proj1 (Forall_forall _ _) Hall (k, s)), elem_of_hash_iter.
  - apply min_by_generation_None in E. exfalso. apply Hne.
    pose proof (hash_iter_perm t.(sessions)) as Hp. rewrite E in Hp.
    by apply Permutation_nil_l, eq_sym, map_to_list_empty_iff in Hp.
Qed.

Lemma size_evict_lru t : (size (evict_lru t).(sessions) ≤ pred (size t.(sessions)))%nat.
Proof.
  destruct (map_eq_dec_empty t.(sessions)) as [He|Hne].
  - unfold evict_lru. destruct (min_by_generation _) as [[k s]|]; cbn; rewrite He;
      [rewrite delete_id by apply lookup_empty|]; by rewrite map_size_empty.
  - destruct (evict_lru_spec t Hne) as (k0 & s0 & Hk & _ & ->). cbn.
    rewrite map_size_delete_Some by eauto. lia.
Qed.

(** Room for one more. *)
Lemma size_reclaim now t :
  (size t.(sessions) ≤ Nat.max 1 t.(max_sessions) →
   size (reclaim_if_full now t).(sessions) < Nat.max 1 t.(max_sessions))%nat.
Proof.
  intros H. unfold reclaim_if_full. pose proof (size_expire now t).
  destruct (_ <? _)%nat eqn:E; bool_to_prop; [lia|].
  destruct (_ && _) eqn:E2.
  - pose proof (size_evict_lru (expire now t)). lia.
  - apply andb_false_iff in E2 as [E2|E2]; bool_to_prop; [lia|]. cbn [expire set_sessions max_sessions] in E2. lia.
Qed.

Lemma reclaim_fixed now t :
  let t' := reclaim_if_full now t in
  t'.(filtering) = t.(filtering) ∧ t'.(max_sessions) = t.(max_sessions) ∧
  t'.(idle_timeout) = t.(idle_timeout) ∧ t'.(generation) = t.(generation) ∧
  t'.(sessions) ⊆ t.(sessions).
Proof.
  unfold reclaim_if_full, evict_lru.
  assert ((expire now t).(sessions) ⊆ t.(sessions)) by apply map_filter_subseteq.
  repeat break_match_goal; cbn; split_and!; try done.
  etrans; [apply delete_subseteq|done].
Qed.

Lemma exec_max t o : (exec is_closed t o).(max_sessions) = t.(max_sessions).
Proof.
  destruct o as [now key d|key s|key|now key r|now]; cbn [exec]; try done.
  - unfold touch_and_sender. cbn. case_bool_decide; [done|]. apply reclaim_fixed.
  - unfold allow_response. by repeat break_match_goal.
Qed.

Definition bounded (t : UdpNatTable) : Prop :=
  (size t.(sessions) ≤ Nat.max 1 t.(max_sessions))%nat.

Lemma size_alter_session f k (m : gmap UdpMappingKey UdpNatSession) : size (alter f k m) = size m.
Proof. rewrite <- !size_dom. f_equal. apply dom_alter_L. Qed.

Lemma exec_bounded t o : bounded t → bounded (exec is_closed t o).
Proof.
  intros Hb. unfold bounded. rewrite exec_max.
  destruct o as [now key d|key s|key|now key r|now]; cbn [exec].
  - unfold touch_and_sender. cbn [fst sessions]. case_bool_decide as Hk.
    + rewrite map_size_insert_Some by done. exact Hb.
    + pose proof (size_reclaim now t Hb). rewrite map_size_insert.
      destruct ((reclaim_if_full now t).(sessions) !! key); unfold id; lia.
  - cbn. by rewrite size_alter_session.
  - cbn. by rewrite size_alter_session.
  - pose proof (size_expire now t) as He. unfold bounded in Hb.
    unfold allow_response. destruct ((expire now t).(sessions) !! key) eqn:E; [|cbn [fst]; lia].
    destruct (permits _ _ _); cbn [fst sessions]; [|lia].
    rewrite map_size_insert_Some by eauto. lia.
  - pose proof (size_expire now t). unfold bounded in Hb. lia.
Qed.

Lemma run_ind (P : UdpNatTable → Prop) t os :
  P t → (∀ t o, P t → P (exec is_closed t o)) → P (run is_closed t os).
Proof.
  intros Ht Hs. unfold run. revert t Ht. induction os as [|o os IH]; intros t Ht; cbn; auto.
Qed.

(** ** What a session allows *)

Definition op_time (o : op) : option Z :=
  match o with
  | Touch now _ _ | AllowResponse now _ _ | Expire now => Some now
  | InsertSender _ _ | ClearSender _ => None
  end.

(** The remote that a packet went to, through [key]. *)
Definition contacted (os : list op) (key : UdpMappingKey) (d : SocketAddr) : Prop :=
  ∃ now, Touch now key d ∈ os.

(** The session of [key] was used at [now]: a packet or a response. *)
Definition active (os : list op) (key : UdpMappingKey) (now : Z) : Prop :=
  (∃ d, Touch now key d ∈ os) ∨ (∃ r, AllowResponse now key r ∈ os).

(** What a behaviour compares of two remotes. *)
Definition same_remote (f : UdpNatBehavior) (d remote : SocketAddr) : Prop :=
  match f with
  | EndpointIndependent => True
  | AddressDependent => sa_ip d = sa_ip remote
  | AddressAndPortDependent => d = remote
  end.

(** The sessions record remotes that were contacted through their keys. *)
Definition recorded (os : list op) (t : UdpNatTable) : Prop :=
  ∀ k s, t.(sessions) !! k = Some s →
    s.(allowed_endpoints) ≠ ∅ ∧ s.(allowed_addresses) = set_map sa_ip s.(allowed_endpoints) ∧
    active os k s.(last_used) ∧
    ∀ d, d ∈ s.(allowed_endpoints) → contacted os k d.

Lemma active_weaken os os' k now : os ⊆ os' → active os k now → active os' k now.
Proof. intros Hs [[d Hd]|[r Hr]]; [left|right]; eauto. Qed.

Lemma recorded_weaken os os' t : os ⊆ os' → recorded os t → recorded os' t.
Proof.
  intros Hs H k s Hk. destruct (H k s Hk) as (H1 & H2 & H3 & H4).
  split_and!; [done..|by eapply active_weaken|]. intros d [now Hd]%H4. exists now. by apply Hs.
Qed.

Lemma recorded_subseteq os t m :
  m ⊆ t.(sessions) → recorded os t → recorded os (set_sessions t m).
Proof. intros Hs H k s Hk. apply H. by eapply lookup_weaken. Qed.

Lemma recorded_update os t g k s s0 :
  recorded os t → t.(sessions) !! k = Some s0 →
  s.(allowed_addresses) = s0.(allowed_addresses) → s.(allowed_endpoints) = s0.(allowed_endpoints) →
  active os k s.(last_used) →
  recorded os (mkTable t.(filtering) t.(max_sessions) t.(idle_timeout) g (<[k := s]> t.(sessions))).
Proof.
  intros H Hk Ha He Hact k' s'. cbn. rewrite lookup_insert_Some.
  intros [[<- <-]|[_ Hk']]; [|by apply H].
  rewrite Ha, He. destruct (H _ _ Hk) as (H1 & H2 & _ & H4). done.
Qed.

Lemma recorded_alter os t o k :
  recorded os t → recorded os (set_sessions t (alter (set_sender o) k t.(sessions))).
Proof.
  intros H k' s'. cbn. rewrite lookup_alter_Some.
  intros [(<- & s0 & Hs0 & ->)|[_ Hk']]; [|by apply H]. exact (H _ _ Hs0).
Qed.

Lemma recorded_touch os t now key d :
  recorded os t → recorded (os ++ [Touch now key d]) (exec is_closed t (Touch now key d)).
Proof.
  intros H. cbn [exec]. unfold touch_and_sender. cbn [fst].
  set (t0 := if bool_decide _ then t else _).
  assert (H0 : recorded os t0).
  { unfold t0. case_bool_decide; [done|]. destruct (reclaim_fixed now t) as (_ & _ & _ & _ & Hs).
    intros k s Hk. apply H. by eapply lookup_weaken. }
  clearbody t0. intros k s. cbn [sessions]. rewrite lookup_insert_Some.
  assert (Hd : contacted (os ++ [Touch now key d]) key d) by (exists now; set_solver).
  assert (Hw : recorded (os ++ [Touch now key d]) t0) by (eapply recorded_weaken; [|exact H0]; set_solver).
  intros [[<- <-]|[_ Hk]]; [|by apply Hw]. cbn.
  destruct (t0.(sessions) !! key) as [s0|] eqn:E; cbn; (split; [set_solver|]).
  - destruct (Hw _ _ E) as (_ & Ha & _ & Hall). split; [rewrite Ha; set_solver|].
    split; [left; exists d; set_solver|]. set_solver.
  - split; [set_solver|]. split; [left; exists d; set_solver|]. set_solver.
Qed.

Lemma recorded_exec os t o : recorded os t → recorded (os ++ [o]) (exec is_closed t o).
Proof.
  intros H. assert (Hw : recorded (os ++ [o]) t) by (eapply recorded_weaken; [|exact H]; set_solver).
  destruct o as [now key d|key s|key|now key r|now]; cbn [exec].
  - by apply recorded_touch.
  - by apply recorded_alter.
  - by apply recorded_alter.
  - assert (He : recorded (os ++ [AllowResponse now key r]) (expire now t))
      by (apply recorded_subseteq; [apply map_filter_subseteq|done]).
    unfold allow_response. destruct ((expire now t).(sessions) !! key) as [s|] eqn:E; [|done].
    destruct (permits _ _ _); [|done]. eapply recorded_update; [done..|].
    cbn. right. exists r. set_solver.
  - apply recorded_subseteq; [apply map_filter_subseteq|done].
Qed.

Lemma recorded_run f max timeout os : recorded os (run is_closed (new f max timeout) os).
Proof.
  induction os as [|o os IH] using rev_ind; [done|].
  unfold run in *. rewrite fold_left_app. by apply recorded_exec.
Qed.

Lemma exec_config t o :
  (exec is_closed t o).(filtering) = t.(filtering) ∧
  (exec is_closed t o).(idle_timeout) = t.(idle_timeout).
Proof.
  destruct o as [now key d|key s|key|now key r|now]; cbn [exec]; try done.
  - unfold touch_and_sender. cbn. destruct (bool_decide _); [done|].
    destruct (reclaim_fixed now t) as (? & ? & ? & ? & ?). done.
  - unfold allow_response. by repeat break_match_goal.
Qed.

Lemma run_config t os :
  (run is_closed t os).(filtering) = t.(filtering) ∧
  (run is_closed t os).(idle_timeout) = t.(idle_timeout).
Proof.
  apply (run_ind (λ t', t'.(filtering) = t.(filtering) ∧ t'.(idle_timeout) = t.(idle_timeout))); [done|].
  intros t' o [Hf Hi]. destruct (exec_config t' o) as [-> ->]. done.
Qed.

Lemma permits_spec os t k s remote :
  recorded os t → t.(sessions) !! k = Some s →
  permits t.(filtering) s remote = true ↔
  ∃ d, d ∈ s.(allowed_endpoints) ∧ same_remote t.(filtering) d remote.
Proof.
  intros H Hk. destruct (H _ _ Hk) as (Hne & Ha & _). unfold permits, same_remote.
  destruct (filtering t).
  - split; [|done]. intros _. apply set_choose_L in Hne as [d Hd]. eauto.
  - rewrite bool_decide_eq_true, Ha, elem_of_map. naive_solver.
  - rewrite bool_decide_eq_true. naive_solver.
Qed.

(** Whatever packets and responses the owners of a table process, it holds
    at most [max_sessions] sessions (one, if that is zero). *)
Theorem nat_table_bounded f max timeout os :
  (size (run is_closed (new f max timeout) os).(sessions) ≤ Nat.max 1 max)%nat.
Proof.
  cut (bounded (run is_closed (new f max timeout) os) ∧
       (run is_closed (new f max timeout) os).(max_sessions) = max).
  { intros [Hb Hm]. unfold bounded in Hb. by rewrite Hm in Hb. }
  apply (run_ind (λ t, bounded t ∧ t.(max_sessions) = max)).
  - split; [|done]. unfold bounded. cbn. rewrite map_size_empty. lia.
  - intros t o [Hb Hm]. rewrite exec_max. split; [by apply exec_bounded|done].
Qed.

(** What lets a response through, from what the table records. *)
Lemma allow_response_recorded os t now key remote :
  recorded os t → (allow_response now key remote t).2 = true →
  (∃ d, contacted os key d ∧ same_remote t.(filtering) d remote) ∧
  (∃ t', active os key t' ∧ now - t' < t.(idle_timeout)).
Proof.
  intros Hr. unfold allow_response.
  destruct ((expire now t).(sessions) !! key) as [s|] eqn:E; [|done].
  apply lookup_expire in E as [E Hl].
  destruct (permits _ _ _) eqn:Hp; [|done]. intros _. cbn in Hp.
  destruct (Hr _ _ E) as (_ & _ & Hact & Hc).
  apply (permits_spec os t key s remote Hr E) in Hp as (d & Hd & Hsame).
  split; [exists d; auto|]. exists s.(last_used). split; [done|].
  unfold live, saturating_sub in Hl. bool_to_prop. lia.
Qed.

(** A response is let through only to a session whose user sent a packet to
    that remote before (any remote, its address, or its address and port, by the
    filtering behaviour), and that was used within the idle timeout. *)
Theorem allow_response_sound f max timeout os now key remote :
  (allow_response now key remote (run is_closed (new f max timeout) os)).2 = true →
  (∃ d, contacted os key d ∧ same_remote f d remote) ∧
  (∃ t, active os key t ∧ now - t < timeout).
Proof.
  intros Ha. destruct (run_config (new f max timeout) os) as [Hf Hi]. cbn in Hf, Hi.
  destruct (allow_response_recorded os _ _ _ _ (recorded_run f max timeout os) Ha) as [Hd Ht].
  by rewrite Hf in Hd; rewrite Hi in Ht.
Qed.

(** The session of [key] lets [d] answer, and was used at [t0] or later. *)
Definition answers (key : UdpMappingKey) (d : SocketAddr) (t0 : Z) (t : UdpNatTable) : Prop :=
  ∃ s, t.(sessions) !! key = Some s ∧ d ∈ s.(allowed_endpoints) ∧
    sa_ip d ∈ s.(allowed_addresses) ∧ t0 ≤ s.(last_used).

(** Operations of the time window that open no other session. *)
Definition quiet (key : UdpMappingKey) (t0 t1 : Z) (o : op) : Prop :=
  (∀ now, op_time o = Some now → t0 ≤ now ≤ t1) ∧
  (∀ now k d, o = Touch now k d → k = key).

Lemma answers_expire key d t0 now t :
  answers key d t0 t → now - t0 < t.(idle_timeout) → 0 < t.(idle_timeout) →
  answers key d t0 (expire now t).
Proof.
  intros (s & Hk & H1 & H2 & H3) Hn Hp. exists s. split; [|done].
  apply lookup_expire. split; [done|]. apply Z.ltb_lt. unfold saturating_sub. lia.
Qed.

Lemma answers_touch now key d t :
  answers key d now (touch_and_sender is_closed now key d t).1.
Proof.
  unfold touch_and_sender. eexists. split; [apply lookup_insert_eq|].
  cbn. split_and!; [set_solver..|lia].
Qed.

Lemma answers_alter key d t0 t o k :
  answers key d t0 t → answers key d t0 (set_sessions t (alter (set_sender o) k t.(sessions))).
Proof.
  intros (s & Hk & H). unfold answers. cbn. destruct (decide (k = key)) as [->|Hne].
  - rewrite lookup_alter_eq, Hk. eexists. by split.
  - rewrite lookup_alter_ne by done. eauto.
Qed.

Lemma answers_exec key d t0 t1 t o :
  answers key d t0 t → quiet key t0 t1 o → t1 - t0 < t.(idle_timeout) → 0 < t.(idle_timeout) →
  answers key d t0 (exec is_closed t o).
Proof.
  intros Ha [Hq Hkey] Ht Hp. destruct o as [now k e|k s|k|now k r|now]; cbn [exec].
  - specialize (Hq _ eq_refl). rewrite (Hkey _ _ _ eq_refl).
    destruct Ha as (s & Hk & H1 & H2 & H3). unfold touch_and_sender.
    rewrite bool_decide_true by eauto. rewrite Hk. eexists. split; [apply lookup_insert_eq|].
    cbn. split_and!; [set_solver..|lia].
  - by apply answers_alter.
  - by apply answers_alter.
  - specialize (Hq _ eq_refl).
    destruct (answers_expire key d t0 now t Ha ltac:(lia) Hp) as (s & Hk & H1).
    unfold allow_response. destruct ((expire now t).(sessions) !! k) as [s'|] eqn:E; [|by exists s].
    destruct (permits _ _ _); [|by exists s]. unfold answers. cbn [fst sessions].
    destruct (decide (k = key)) as [->|Hne].
    + rewrite Hk in E. injection E as <-. eexists. split; [apply lookup_insert_eq|].
      cbn. destruct H1 as (? & ? & ?). split_and!; [done..|lia].
    + exists s. split; [|done]. by rewrite lookup_insert_ne.
  - specialize (Hq _ eq_refl). apply answers_expire; [done|lia|done].
Qed.

Lemma answers_run key d t0 t1 t os :
  answers key d t0 t → Forall (quiet key t0 t1) os → t1 - t0 < t.(idle_timeout) →
  0 < t.(idle_timeout) → answers key d t0 (run is_closed t os).
Proof.
  revert t. induction os as [|o os IH]; intros t Ha Hq Ht Hp; [done|].
  apply Forall_cons in Hq as [Ho Hq]. cbn. destruct (exec_config t o) as [_ Hi].
  apply IH; [|done|by rewrite Hi..]. by eapply answers_exec.
Qed.

(** After a packet to [d], a response from [d] (or from a remote that the
    filtering behaviour does not tell from it) is let through until the idle
    timeout, whatever the table held, as long as no other session is opened. *)
Theorem allow_response_complete t t0 t1 key d os remote :
  let t' := run is_closed (exec is_closed t (Touch t0 key d)) os in
  Forall (quiet key t0 t1) os → t0 ≤ t1 < t0 + t.(idle_timeout) →
  same_remote t.(filtering) d remote → (allow_response t1 key remote t').2 = true.
Proof.
  intros t' Hq Ht Hs. destruct (exec_config t (Touch t0 key d)) as [Hf Hi].
  destruct (run_config (exec is_closed t (Touch t0 key d)) os) as [Hf' Hi']. fold t' in Hf', Hi'.
  assert (Ha : answers key d t0 t').
  { eapply answers_run; [apply answers_touch|exact Hq|rewrite Hi; lia..]. }
  apply (answers_expire _ _ _ t1) in Ha as (s & Hk & He & Hip & _); [|rewrite Hi', Hi; lia..].
  unfold allow_response. rewrite Hk. cbn [expire set_sessions filtering]. rewrite Hf', Hf.
  assert (permits t.(filtering) s remote = true) as ->; [|done].
  unfold permits, same_remote in *. destruct (filtering t); [done|..]; apply bool_decide_eq_true; congruence.
Qed.

(** ** Eviction order *)

(** The clock does not go back over the operations, from [t0] to [t1]. *)
Fixpoint clocked (t0 : Z) (os : list op) (t1 : Z) : Prop :=
  match os with
  | [] => t0 ≤ t1
  | o :: os =>
    match op_time o with
    | Some t => t0 ≤ t ∧ clocked t os t1
    | None => clocked t0 os t1
    end
  end.

(** Generations order the sessions by their last use; [n] bounds them. *)
Record ordered (now n : Z) (t : UdpNatTable) : Prop := {
  ordered_generation : 0 ≤ t.(generation) ≤ n;
  ordered_bound k s : t.(sessions) !! k = Some s →
    s.(s_generation) ≤ t.(generation) ∧ s.(last_used) ≤ now;
  ordered_use k1 k2 s1 s2 : t.(sessions) !! k1 = Some s1 → t.(sessions) !! k2 = Some s2 →
    s1.(s_generation) ≤ s2.(s_generation) → s1.(last_used) ≤ s2.(last_used);
}.

Lemma ordered_weaken now now' n n' t :
  ordered now n t → now ≤ now' → n ≤ n' → ordered now' n' t.
Proof.
  intros [H1 H2 H3] Hn Hn'. split; [lia| |done]. intros k s Hk. specialize (H2 k s Hk). lia.
Qed.

Lemma ordered_subseteq now n t t' :
  ordered now n t → t'.(sessions) ⊆ t.(sessions) → t'.(generation) = t.(generation) → ordered now n t'.
Proof.
  intros [H1 H2 H3] Hs Hg. split; rewrite ?Hg; [done| |].
  - intros k s Hk. apply (H2 k). by eapply lookup_weaken.
  - intros k1 k2 s1 s2 Hk1 Hk2. apply (H3 k1 k2); by eapply lookup_weaken.
Qed.

(** A use takes the next generation. *)
Lemma ordered_bump now n t k s f m i :
  ordered now n t → n + 1 < 2 ^ 64 → s.(last_used) = now →
  s.(s_generation) = wrapping_add 64 t.(generation) 1 →
  ordered now (n + 1) (mkTable f m i (wrapping_add 64 t.(generation) 1) (<[k := s]> t.(sessions))).
Proof.
  intros [H1 H2 H3] Hn Hu Hg. unfold wrapping_add in *. rewrite Z.mod_small in * by lia.
  split; cbn [generation sessions].
  - lia.
  - intros k' s'. rewrite lookup_insert_Some. intros [[<- <-]|[_ Hk]]; [lia|].
    specialize (H2 _ _ Hk). lia.
  - intros k1 k2 s1 s2. rewrite !lookup_insert_Some.
    intros [[<- <-]|[_ Hk1]] [[<- <-]|[_ Hk2]]; [lia|..|by eapply H3].
    + specialize (H2 _ _ Hk2). lia.
    + specialize (H2 _ _ Hk1). lia.
Qed.

Lemma ordered_alter now n t o k :
  ordered now n t → ordered now n (set_sessions t (alter (set_sender o) k t.(sessions))).
Proof.
  intros [H1 H2 H3].
  assert (Hl : ∀ k' s', alter (set_sender o) k t.(sessions) !! k' = Some s' →
    ∃ s0, t.(sessions) !! k' = Some s0 ∧ s_generation s0 = s_generation s' ∧ last_used s0 = last_used s').
  { intros k' s'. rewrite lookup_alter_Some. intros [(<- & s0 & Hs0 & ->)|[_ Hk']]; eauto. }
  split; cbn [set_sessions generation sessions]; [done| |].
  - intros k' s' (s0 & Hs0 & <- & <-)%Hl. by apply H2 with k'.
  - intros k1 k2 s1 s2 (s3 & Hs3 & <- & <-)%Hl (s4 & Hs4 & <- & <-)%Hl. by apply H3 with k1 k2.
Qed.

Lemma ordered_exec now n t o :
  ordered now n t → n + 1 < 2 ^ 64 → (∀ t', op_time o = Some t' → now ≤ t') →
  ordered (default now (op_time o)) (n + 1) (exec is_closed t o).
Proof.
  intros H Hn Ht. destruct o as [t' k d|k s|k|t' k r|t']; cbn [exec op_time from_option id] in *;
    try specialize (Ht _ eq_refl).
  - assert (Hm : ordered t' n t) by (eapply ordered_weaken; [done|lia..]).
    unfold touch_and_sender. cbn [fst]. apply ordered_bump; [|done..].
    case_bool_decide; [done|]. destruct (reclaim_fixed t' t) as (_ & _ & _ & Hg & Hs).
    by eapply ordered_subseteq.
  - apply ordered_alter. eapply ordered_weaken; [done|lia..].
  - apply ordered_alter. eapply ordered_weaken; [done|lia..].
  - assert (Hm : ordered t' n (expire t' t)).
    { eapply (ordered_subseteq _ _ t); [eapply ordered_weaken; [done|lia..]|apply map_filter_subseteq|done]. }
    unfold allow_response. destruct ((expire t' t).(sessions) !! k) as [s|] eqn:E;
      [|eapply ordered_weaken; [done|lia..]].
    destruct (permits _ _ _); [|eapply ordered_weaken; [done|lia..]]. by apply ordered_bump.
  - eapply (ordered_subseteq _ _ t); [eapply ordered_weaken; [done|lia..]|apply map_filter_subseteq|done].
Qed.

Lemma ordered_run now n t os t1 :
  ordered now n t → clocked now os t1 → n + Z.of_nat (length os) < 2 ^ 64 →
  ordered t1 (n + Z.of_nat (length os)) (run is_closed t os).
Proof.
  revert now n t. induction os as [|o os IH]; intros now n t H Hc Hn; cbn [length clocked] in *.
  { eapply ordered_weaken; [done|exact Hc|lia]. }
  change (run is_closed t (o :: os)) with (run is_closed (exec is_closed t o) os).
  replace (n + Z.of_nat (S (length os))) with (n + 1 + Z.of_nat (length os)) by lia.
  apply (IH (default now (op_time o))); [|by destruct (op_time o); [destruct Hc|]|lia].
  apply ordered_exec; [done|lia|]. intros t' Ht'. rewrite Ht' in Hc. apply Hc.
Qed.

(** When a packet opens a session in a full table, the idle sessions go and
    no session in use is lost; if there is none, exactly one session goes, and it
    is one that no other was used before.  The clock must not go back, and the
    generation counter not wrap around: fewer than 2^64 operations. *)
Theorem touch_evicts_oldest f max timeout os t0 now key d :
  let t := run is_closed (new f max timeout) os in
  let t' := (touch_and_sender is_closed now key d t).1 in
  clocked t0 os now → Z.of_nat (length os) < 2 ^ 64 →
  t.(sessions) !! key = None → (max ≤ size t.(sessions))%nat → t.(sessions) ≠ ∅ →
  ((∃ k s, t.(sessions) !! k = Some s ∧ live now timeout s = false) ∧
    ∀ k, k ≠ key → t'.(sessions) !! k = (expire now t).(sessions) !! k) ∨
  ((∀ k s, t.(sessions) !! k = Some s → live now timeout s = true) ∧
    ∃ k0 s0, t.(sessions) !! k0 = Some s0 ∧
      (∀ k s, t.(sessions) !! k = Some s → s0.(last_used) ≤ s.(last_used)) ∧
      t'.(sessions) !! k0 = None ∧
      ∀ k, k ≠ key → k ≠ k0 → t'.(sessions) !! k = t.(sessions) !! k).
Proof.
  intros t t' Hc Hn Hk Hfull Hne.
  assert (Ho : ordered now (0 + Z.of_nat (length os)) t) by (eapply ordered_run; [|done|lia]; done).
  destruct (run_config (new f max timeout) os) as [_ Hi]. fold t in Hi. cbn in Hi.
  assert (Hm : t.(max_sessions) = max).
  { unfold t. apply (run_ind (λ t, t.(max_sessions) = max)); [done|]. intros. by rewrite exec_max. }
  assert (Ht' : ∀ k, k ≠ key → t'.(sessions) !! k = (reclaim_if_full now t).(sessions) !! k).
  { intros k Hkk. unfold t', touch_and_sender. cbn [fst sessions].
    rewrite lookup_insert_ne by done. rewrite bool_decide_false; [done|]. rewrite Hk. by intros []. }
  clearbody t t'. unfold reclaim_if_full in Ht'. rewrite (proj2 (Nat.ltb_ge _ _)) in Ht' by lia.
  destruct (decide (size (expire now t).(sessions) = size t.(sessions))) as [Heq|Hlt].
  - right. pose proof (size_expire_eq _ _ Heq) as Hsame.
    rewrite Heq, Nat.eqb_refl, (proj2 (Nat.leb_le _ _)) in Ht' by (cbn; lia). cbn [andb] in Ht'. split.
    { intros k s Hks. rewrite <- Hsame in Hks. apply lookup_expire in Hks as [_ Hl]. by rewrite Hi in Hl. }
    destruct (evict_lru_spec (expire now t)) as (k0 & s0 & Hk0 & Hmin & Hev); [by rewrite Hsame|].
    rewrite Hsame in Hk0, Hmin. rewrite Hev, Hsame in Ht'. cbn [set_sessions sessions] in Ht'.
    exists k0, s0. split_and!; [done|..].
    + intros k s Hks. eapply (ordered_use _ _ _ Ho); [done|done|by eapply Hmin].
    + rewrite Ht' by congruence. apply lookup_delete_eq.
    + intros k H1 H2. rewrite Ht' by done. by apply lookup_delete_ne.
  - left. rewrite (proj2 (Nat.eqb_neq _ _) Hlt) in Ht'. cbn [andb] in Ht'. split; [|exact Ht'].
    destruct (decide (map_Forall (λ _ s, live now timeout s = true) t.(sessions))) as [Hall|Hex].
    + exfalso. apply Hlt. f_equal. cbn. apply map_filter_id. intros k s Hks. cbn.
      rewrite Hi. by rewrite (Hall _ _ Hks).
    + apply map_not_Forall in Hex as (k & s & Hks & Hl); [|apply _].
      exists k, s. split; [done|]. by destruct (live now timeout s).
Qed.

End facts.

(** ** Witnesses *)

#[local] Instance sample_nat_order : HashIter UdpMappingKey UdpNatSession := key_order _ _.

Definition host_a : SocketAddr := mkSocketAddr (V4 1) 1000.
Definition host_b : SocketAddr := mkSocketAddr (V4 2) 1000.
Definition remote_a : SocketAddr := mkSocketAddr (V4 3) 53.
Definition open (s : Sender) : bool := false.

Lemma allow_response_sound_witness :
  (∃ d, contacted [Touch 0 (Endpoint host_a) remote_a] (Endpoint host_a) d ∧
     same_remote AddressAndPortDependent d remote_a) ∧
  (∃ t, active [Touch 0 (Endpoint host_a) remote_a] (Endpoint host_a) t ∧ 5 - t < 30).
Proof. by apply (allow_response_sound open _ 4). Defined.

Lemma allow_response_complete_witness :
  (allow_response 20 (Endpoint host_a) remote_a
    (run open (exec open (new AddressDependent 4 30) (Touch 0 (Endpoint host_a) remote_a))
      [Expire 10])).2 = true.
Proof.
  apply (allow_response_complete open _ 0 20 _ remote_a); [|cbn; lia|done].
  constructor; [|constructor]. split; [intros now [= <-]; lia|done].
Defined.

Lemma touch_evicts_oldest_witness :
  let t := run open (new EndpointIndependent 1 30) [Touch 0 (Endpoint host_a) remote_a] in
  let t' := (touch_and_sender open 5 (Endpoint host_b) remote_a t).1 in
  ((∃ k s, t.(sessions) !! k = Some s ∧ live 5 30 s = false) ∧
    ∀ k, k ≠ Endpoint host_b → t'.(sessions) !! k = (expire 5 t).(sessions) !! k) ∨
  ((∀ k s, t.(sessions) !! k = Some s → live 5 30 s = true) ∧
    ∃ k0 s0, t.(sessions) !! k0 = Some s0 ∧
      (∀ k s, t.(sessions) !! k = Some s → s0.(last_used) ≤ s.(last_used)) ∧
      t'.(sessions) !! k0 = None ∧
      ∀ k, k ≠ Endpoint host_b → k ≠ k0 → t'.(sessions) !! k = t.(sessions) !! k).
Proof.
  apply (touch_evicts_oldest open EndpointIndependent 1 30 [Touch 0 (Endpoint host_a) remote_a] 0 5);
    [cbn; lia|cbn; lia|reflexivity|vm_compute; lia|vm_compute; discriminate].
Defined.
