(* ===== verification/TunUdp.v ===== *)
(** * UDP of transparent inbounds (src/src/tun.rs, src/src/proxy/tproxy.rs)

    The loop that hands the datagrams of the TUN device or of the transparent proxy to
    flows, one for each entry of the NAT table, and the task that lets the answers of the
    flows back through the table.  The table is UdpNat.v's, a flow is the relay of
    UdpRelay.v.  [Ancillary] is the parser of the control messages in which the kernel
    tells the transparent proxy the original destination. *)

From S2P Require Import Prelude RustStr Net UdpNat.

(** ** Datagrams and flows *)

(** A relay task, with the queue of its channel. *)
Record RelayFlow := mkRelayFlow {
  flow_key : UdpMappingKey;
  flow_client : SocketAddr;
  queue : list (bytes * SocketAddr);
  running : bool;
}.

(** An answer on its way back: payload, remote, client. *)
Definition Answer : Set := bytes * SocketAddr * SocketAddr.

Record udp := mkUdp {
  table : UdpNatTable;
  flows : gmap Sender RelayFlow;
  next_flow : Sender;
  (* the loop waits for room in a flow's queue *)
  held : option (UdpMappingKey * Sender * (bytes * SocketAddr));
  responses : list (UdpMappingKey * Answer);
}.

(** Which of the two loops: only the device's drops the sender of a flow that ended. *)
Inductive loop := Tun | TProxy.

Inductive event :=
  | Packet (now : Z) (payload : bytes) (source destination : SocketAddr)
  | Resume                                           (* the send that waited *)
  | Take (s : Sender)                                (* a flow takes a datagram *)
  (* an answer of a flow is passed on, by a task of its own, which may outlive the flow *)
  | Reply (s : Sender) (payload : bytes) (remote : SocketAddr)
  | End (s : Sender)                                 (* a flow ends *)
  | Respond (now : Z).                               (* the writer takes an answer *)

(** What can be seen outside. *)
Inductive output :=
  | ToFlow (s : Sender) (payload : bytes) (destination : SocketAddr)
  | ToClient (payload : bytes) (remote client : SocketAddr).

Definition CAPACITY : nat := 64.

Section loops.
Context `{!HashIter UdpMappingKey UdpNatSession}.
Context (kind : loop) (mapping : UdpNatBehavior).

Definition is_closed (u : udp) (s : Sender) : bool :=
  match u.(flows) !! s with Some f => negb f.(running) | None => true end.

Definition with_table (u : udp) (t : UdpNatTable) : udp :=
  mkUdp t u.(flows) u.(next_flow) u.(held) u.(responses).

Definition with_flow (u : udp) (s : Sender) (f : RelayFlow) : udp :=
  mkUdp u.(table) (<[s := f]> u.(flows)) u.(next_flow) u.(held) u.(responses).

Definition with_held (u : udp) (h : option (UdpMappingKey * Sender * (bytes * SocketAddr))) : udp :=
  mkUdp u.(table) u.(flows) u.(next_flow) h u.(responses).

(** The sender of the session, or a new flow. *)
Definition flow_for (now : Z) (source destination : SocketAddr) (u : udp) : udp * Sender :=
  let key := key_for mapping source destination in
  let '(t, s) := touch_and_sender (is_closed u) now key destination u.(table) in
  let u := with_table u t in
  match s with
  | Some s => (u, s)
  | None =>
    let s := u.(next_flow) in
    (mkUdp (insert_sender key s u.(table)) (<[s := mkRelayFlow key source [] true]> u.(flows)) (S s)
       u.(held) u.(responses), s)
  end.

(** [sender.send((payload, destination)).await] *)
Definition send (u : udp) (key : UdpMappingKey) (s : Sender) (d : bytes * SocketAddr) : udp :=
  match u.(flows) !! s with
  | Some f =>
    if f.(running) then
      if (length f.(queue) <? CAPACITY)%nat
      then with_flow u s (mkRelayFlow f.(flow_key) f.(flow_client) (f.(queue) ++ [d]) true)
      else with_held u (Some (key, s, d))
    else match kind with
         | Tun => with_table u (clear_sender key u.(table))
         | TProxy => u
         end
  | None => u
  end.

Definition step (u : udp) (e : event) : option (udp * option output) :=
  match e with
  | Packet now payload source destination =>
    match u.(held) with
    | Some _ => None
    | None =>
      let '(u, s) := flow_for now source destination u in
      Some (send u (key_for mapping source destination) s (payload, destination), None)
    end
  | Resume =>
    '(key, s, d) ← u.(held);
    f ← u.(flows) !! s;
    if f.(running) && (CAPACITY <=? length f.(queue))%nat then None
    else Some (send (with_held u None) key s d, None)
  | Take s =>
    f ← u.(flows) !! s;
    match f.(running), f.(queue) with
    | true, (payload, d) :: q =>
      Some (with_flow u s (mkRelayFlow f.(flow_key) f.(flow_client) q true), Some (ToFlow s payload d))
    | _, _ => None
    end
  | Reply s payload remote =>
    f ← u.(flows) !! s;
    Some (mkUdp u.(table) u.(flows) u.(next_flow) u.(held)
            (u.(responses) ++ [(f.(flow_key), (payload, remote, f.(flow_client)))]), None)
  | End s =>
    f ← u.(flows) !! s;
    Some (with_flow u s (mkRelayFlow f.(flow_key) f.(flow_client) [] false), None)
  | Respond now =>
    match u.(responses) with
    | [] => None
    | (key, (payload, remote, client)) :: rest =>
      let '(t, allowed) := allow_response now key remote u.(table) in
      Some (mkUdp t u.(flows) u.(next_flow) u.(held) rest,
            if allowed then Some (ToClient payload remote client) else None)
    end
  end.

Fixpoint run (u : udp) (es : list event) : option (udp * list (option output)) :=
  match es with
  | [] => Some (u, [])
  | e :: es =>
    '(u, o) ← step u e;
    '(u, os) ← run u es;
    Some (u, o :: os)
  end.

End loops.

#[local] Arguments flow_for : simpl never.
#[local] Arguments send : simpl never.
#[local] Arguments allow_response : simpl never.

Definition init (filtering : UdpNatBehavior) (max : nat) (timeout : Z) : udp :=
  mkUdp (UdpNat.new filtering max timeout) ∅ 0%nat None [].

(** ** Clients are kept apart *)

Lemma key_for_source mapping a b d e : key_for mapping a d = key_for mapping b e → a = b.
Proof. by destruct mapping; intros [= ->]. Qed.

(** The answers that were passed on, and the times at which the writer took one. *)
Definition replies (es : list event) : list (Sender * bytes * SocketAddr) :=
  omap (λ e, match e with Reply s payload remote => Some (s, payload, remote) | _ => None end) es.

Definition responds (es : list event) : list Z :=
  omap (λ e, match e with Respond now => Some now | _ => None end) es.

(** The writer takes the answers in their order: the one it takes after [es]. *)
Definition next_answer (es : list event) : option (Sender * bytes * SocketAddr) :=
  replies es !! length (responds es).

(** [client] sent [payload] to [d]. *)
Definition sent (es : list event) (payload : bytes) (client d : SocketAddr) : Prop :=
  ∃ now, Packet now payload client d ∈ es.

(** Flows are never forgotten, and keep their keys and clients. *)
Definition kept (fs fs' : gmap Sender RelayFlow) : Prop :=
  ∀ s f, fs !! s = Some f →
    ∃ f', fs' !! s = Some f' ∧ f'.(flow_key) = f.(flow_key) ∧ f'.(flow_client) = f.(flow_client).

#[local] Instance kept_preorder : PreOrder kept.
Proof.
  split; [by intros fs s f Hf; exists f|]. intros f1 f2 f3 H12 H23 s f Hf.
  destruct (H12 s f Hf) as (g & Hg & Hk & Hc). destruct (H23 s g Hg) as (g' & Hg' & Hk' & Hc').
  exists g'. by rewrite Hk', Hc'.
Qed.

Lemma kept_insert fs s f g :
  fs !! s = Some f → g.(flow_key) = f.(flow_key) → g.(flow_client) = f.(flow_client) → kept fs (<[s := g]> fs).
Proof.
  intros Hf Hk Hc s' f' Hf'. destruct (decide (s' = s)) as [->|]; [|rewrite lookup_insert_ne by done; by eauto].
  rewrite lookup_insert_eq. exists g. by simplify_eq.
Qed.

Lemma kept_insert_new fs s g : fs !! s = None → kept fs (<[s := g]> fs).
Proof. intros Hs s' f' Hf'. exists f'. rewrite lookup_insert_ne by congruence. done. Qed.

Section isolation.
Context `{!HashIter UdpMappingKey UdpNatSession}.
Context (kind : loop) (mapping filtering : UdpNatBehavior) (max : nat) (timeout : Z).

Abbreviation step := (step kind mapping).
Abbreviation run := (run kind mapping).

(** A run so far: the events with what came out. *)
Abbreviation trace := (list (event * option output)).

(** At [t] an answer of a flow of the session [k] was delivered. *)
Definition answered (h : trace) (fs : gmap Sender RelayFlow) (k : UdpMappingKey) (t : Z) : Prop :=
  ∃ j s payload remote client f,
    h !! j = Some (Respond t, Some (ToClient payload remote client)) ∧
    next_answer (take j h).*1 = Some (s, payload, remote) ∧
    fs !! s = Some f ∧ f.(flow_key) = k ∧ f.(flow_client) = client.

(** The session [k] was used at [t]: a packet of it, or a delivered answer. *)
Definition used (h : trace) (fs : gmap Sender RelayFlow) (k : UdpMappingKey) (t : Z) : Prop :=
  (∃ payload source d, Packet t payload source d ∈ h.*1 ∧ key_for mapping source d = k) ∨ answered h fs k t.

(** What an output says about the run before it; [fs] tells the key and client of a flow. *)
Definition output_ok (h : trace) (e : event) (fs : gmap Sender RelayFlow) (o : output) : Prop :=
  match o with
  | ToFlow s payload d =>
    ∃ f, fs !! s = Some f ∧ sent h.*1 payload f.(flow_client) d ∧
      key_for mapping f.(flow_client) d = f.(flow_key)
  | ToClient payload remote client =>
    ∃ now s f, e = Respond now ∧ next_answer h.*1 = Some (s, payload, remote) ∧
      fs !! s = Some f ∧ f.(flow_client) = client ∧
      (∃ p d, sent h.*1 p client d ∧ key_for mapping client d = f.(flow_key) ∧ same_remote filtering d remote) ∧
      ∃ t, used h fs f.(flow_key) t ∧ now - t < timeout
  end.

(** The operations on the table come from the run; an answer that is turned away counts
    as an [Expire]. *)
Definition explains (h : trace) (fs : gmap Sender RelayFlow) (os : list op) : Prop :=
  (∀ now k d, Touch now k d ∈ os →
     ∃ payload source, Packet now payload source d ∈ h.*1 ∧ k = key_for mapping source d) ∧
  (∀ now k r, AllowResponse now k r ∈ os → answered h fs k now).

Definition table_ok (h : trace) (fs : gmap Sender RelayFlow) (t : UdpNatTable) : Prop :=
  (∃ os, recorded os t ∧ explains h fs os) ∧ t.(UdpNat.filtering) = filtering ∧ t.(idle_timeout) = timeout.

(** A session's sender is a flow of its key. *)
Definition senders_ok (t : UdpNatTable) (fs : gmap Sender RelayFlow) : Prop :=
  ∀ k x s, t.(sessions) !! k = Some x → x.(sender) = Some s → ∃ f, fs !! s = Some f ∧ f.(flow_key) = k.

(** A datagram belongs to a flow: the flow's client sent it, and it has the flow's key. *)
Definition belongs (es : list event) (f : RelayFlow) (d : bytes * SocketAddr) : Prop :=
  sent es d.1 f.(flow_client) d.2 ∧ f.(flow_key) = key_for mapping f.(flow_client) d.2.

(** An answer that waits is one of a flow, with the flow's key and client. *)
Definition answer_of (fs : gmap Sender RelayFlow) (a : Sender * bytes * SocketAddr)
    (r : UdpMappingKey * Answer) : Prop :=
  ∃ f, fs !! a.1.1 = Some f ∧ r = (f.(flow_key), (a.1.2, a.2, f.(flow_client))).

Record inv (h : trace) (u : udp) : Prop := {
  inv_table : table_ok h u.(flows) u.(table);
  inv_senders : senders_ok u.(table) u.(flows);
  inv_fresh s : is_Some (u.(flows) !! s) → (s < u.(next_flow))%nat;
  inv_flow s f : u.(flows) !! s = Some f →
    (∃ d, f.(flow_key) = key_for mapping f.(flow_client) d) ∧ Forall (belongs h.*1 f) f.(queue);
  inv_held key s d : u.(held) = Some (key, s, d) →
    ∃ f, u.(flows) !! s = Some f ∧ f.(flow_key) = key ∧ belongs h.*1 f d;
  inv_count : (length (responds h.*1) ≤ length (replies h.*1))%nat;
  inv_responses : Forall2 (answer_of u.(flows)) (drop (length (responds h.*1)) (replies h.*1)) u.(responses);
}.

(** *** The table *)

Lemma answered_mono h x fs fs' k t : kept fs fs' → answered h fs k t → answered (h ++ x) fs' k t.
Proof.
  intros Hk (j & s & p & r & c & f & Hj & Ha & Hf & Hkey & Hc).
  destruct (Hk s f Hf) as (f' & Hf' & Hk' & Hc'). exists j, s, p, r, c, f'.
  pose proof (lookup_lt_Some _ _ _ Hj). rewrite take_app_le by lia.
  split_and!; [by apply lookup_app_l_Some|done|done|congruence|congruence].
Qed.

Lemma used_mono h x fs fs' k t : kept fs fs' → used h fs k t → used (h ++ x) fs' k t.
Proof.
  intros Hk [(p & s & d & Hp & E)|Ha]; [left|right; by eapply answered_mono].
  exists p, s, d. rewrite fmap_app. set_solver.
Qed.

Lemma table_mono h x fs fs' t : kept fs fs' → table_ok h fs t → table_ok (h ++ x) fs' t.
Proof.
  intros Hk [(os & Hr & Ht & Ha) Hc]. split; [|done]. exists os. split; [done|]. split.
  - intros now k d (p & s & Hp & E)%Ht. exists p, s. rewrite fmap_app. set_solver.
  - intros now k r H%Ha. by eapply answered_mono.
Qed.

Lemma table_exec closed h fs o t :
  table_ok h fs t →
  match o with
  | Touch now k d => ∃ payload source, Packet now payload source d ∈ h.*1 ∧ k = key_for mapping source d
  | AllowResponse now k _ => answered h fs k now
  | _ => True
  end → table_ok h fs (exec closed t o).
Proof.
  intros [(os & Hr & Ht & Ha) [Hf Hi]] Ho. destruct (exec_config closed t o) as [Hf' Hi'].
  split; [|by rewrite Hf', Hi']. exists (os ++ [o]). split; [by apply recorded_exec|]. split.
  - intros now k d [?|Hin]%elem_of_app; [by apply Ht|]. apply list_elem_of_singleton in Hin as <-. done.
  - intros now k r [?|Hin]%elem_of_app; [by eapply Ha|]. apply list_elem_of_singleton in Hin as <-. done.
Qed.

(** An answer that is turned away only expires sessions. *)
Lemma refused_is_expire now key r t :
  (allow_response now key r t).2 = false → (allow_response now key r t).1 = expire now t.
Proof.
  unfold allow_response. destruct (sessions (expire now t) !! key); [|done]. by destruct (permits _ _ _).
Qed.

Lemma senders_mono t fs s f :
  senders_ok t fs → fs !! s = None ∨ (∃ g, fs !! s = Some g ∧ g.(flow_key) = f.(flow_key)) →
  senders_ok t (<[s := f]> fs).
Proof.
  intros Ht Hs k x s' Hx Hs'. destruct (Ht k x s' Hx Hs') as (g & Hg & <-).
  destruct (decide (s' = s)) as [->|Hne]; [|exists g; by rewrite lookup_insert_ne].
  exists f. rewrite lookup_insert_eq. split; [done|]. destruct Hs as [?|(g' & Hg' & ?)]; congruence.
Qed.

Lemma senders_subset t t' fs :
  (∀ k x s, t'.(sessions) !! k = Some x → x.(sender) = Some s →
     ∃ y, t.(sessions) !! k = Some y ∧ y.(sender) = Some s) →
  senders_ok t fs → senders_ok t' fs.
Proof. intros Hsub Ht k x s Hx Hs. destruct (Hsub k x s Hx Hs) as (y & Hy & Hys). by eapply Ht. Qed.

Lemma touch_senders closed now key d t fs :
  senders_ok t fs →
  let r := touch_and_sender closed now key d t in
  senders_ok r.1 fs ∧
  (∀ s, r.2 = Some s → ∃ f, fs !! s = Some f ∧ f.(flow_key) = key) ∧ is_Some (r.1.(sessions) !! key).
Proof.
  intros Ht. unfold touch_and_sender. cbn zeta. set (t0 := if bool_decide _ then t else _).
  assert (senders_ok t0 fs) as H0.
  { unfold t0. case_bool_decide; [done|]. eapply senders_subset; [|exact Ht]. intros k x s Hx Hs.
    destruct (reclaim_fixed now t) as (_ & _ & _ & _ & Hsub). exists x. split; [|done]. by eapply lookup_weaken. }
  clearbody t0. cbn. split; [|split; [|by rewrite lookup_insert_eq]].
  - intros k x s. cbn. destruct (decide (k = key)) as [->|Hne].
    + rewrite lookup_insert_eq. intros [= <-]. cbn. destruct (sessions t0 !! key) as [y|] eqn:Ey; [|done]. cbn.
      by apply (H0 key y s).
    + rewrite lookup_insert_ne by done. apply H0.
  - destruct (sessions t0 !! key) as [y|] eqn:Ey; [|done]. cbn. intros s. destruct (sender y) as [s'|] eqn:Es; [|done].
    cbn. destruct (closed s'); [done|]. intros [= <-]. by apply (H0 key y s').
Qed.

Lemma response_senders now key r t fs : senders_ok t fs → senders_ok (allow_response now key r t).1 fs.
Proof.
  intros Ht. assert (senders_ok (expire now t) fs) as He.
  { eapply senders_subset; [|exact Ht]. intros k x s Hx Hs. apply lookup_expire in Hx as [Hx _]. by exists x. }
  unfold allow_response. destruct (sessions (expire now t) !! key) as [y|] eqn:Ey; [|done].
  destruct (permits _ _ _); [|done]. eapply senders_subset; [|exact He]. intros k x s. cbn.
  destruct (decide (k = key)) as [->|Hne].
  - rewrite lookup_insert_eq. intros [= <-] Hs. by exists y.
  - rewrite lookup_insert_ne by done. intros Hx Hs. by exists x.
Qed.

Lemma alter_senders t fs key o :
  senders_ok t fs → (∀ s, o = Some s → ∃ f, fs !! s = Some f ∧ f.(flow_key) = key) →
  senders_ok (set_sessions t (alter (set_sender o) key t.(sessions))) fs.
Proof.
  intros Ht Ho k x s. cbn. rewrite lookup_alter_Some. intros [(<- & y & Hy & ->)|[_ Hx]]; [|by apply Ht].
  cbn. intros ->. by apply Ho.
Qed.

(** *** Steps *)

Lemma belongs_weaken es x f d : belongs es f d → belongs (es ++ x) f d.
Proof. intros [[now Hn] Hk]. split; [|done]. exists now. set_solver. Qed.

Lemma answers_mono fs fs' l rs : kept fs fs' → Forall2 (answer_of fs) l rs → Forall2 (answer_of fs') l rs.
Proof.
  intros Hk H. eapply Forall2_impl; [exact H|]. intros [[s p] r] x (f & Hf & ->).
  destruct (Hk s f Hf) as (f' & Hf' & Hkey & Hc). exists f'. by rewrite Hkey, Hc.
Qed.

(** An event that neither passes on nor takes an answer. *)
Definition quiet (e : event) : Prop :=
  match e with Reply _ _ _ | Respond _ => False | _ => True end.

Lemma inv_quiet h e u : inv h u → quiet e → ∀ o, inv (h ++ [(e, o)]) u.
Proof.
  intros [Ht Hs Hfr Hf Hh Hn Hr] Hq o.
  assert (replies (h ++ [(e, o)]).*1 = replies h.*1 ∧ responds (h ++ [(e, o)]).*1 = responds h.*1) as [E1 E2].
  { unfold replies, responds. rewrite fmap_app, !omap_app. destruct e; try done; cbn; by rewrite !app_nil_r. }
  split; rewrite ?E1, ?E2; [by eapply table_mono|done|done| | |done|done].
  - intros s f Hsf. destruct (Hf s f Hsf) as [Hk Hb]. split; [done|].
    eapply Forall_impl; [exact Hb|]. intros d. rewrite fmap_app. apply belongs_weaken.
  - intros key s d Hd. destruct (Hh key s d Hd) as (f & ? & ? & ?). exists f. split_and!; try done.
    rewrite fmap_app. by apply belongs_weaken.
Qed.

(** Replacing a flow by one with the same key and client, and datagrams of its own. *)
Lemma inv_with_flow h u s f g :
  inv h u → u.(flows) !! s = Some f → g.(flow_key) = f.(flow_key) → g.(flow_client) = f.(flow_client) →
  Forall (belongs h.*1 g) g.(queue) → inv h (with_flow u s g).
Proof.
  intros [Ht Hs Hfr Hf Hh Hn Hr] Hsf Hk Hc Hq.
  pose proof (kept_insert _ _ _ _ Hsf Hk Hc) as Hkept. split; cbn; [ | | | | |done|].
  - rewrite <- (app_nil_r h). by eapply table_mono.
  - apply senders_mono; [done|]. right. exists f. by rewrite Hk.
  - intros s' Hs'. apply Hfr. destruct (decide (s' = s)) as [->|]; [by eexists|by rewrite lookup_insert_ne in Hs'].
  - intros s' f'. destruct (decide (s' = s)) as [->|]; [|rewrite lookup_insert_ne by done; apply Hf].
    rewrite lookup_insert_eq. intros [= <-]. split; [|done]. rewrite Hk, Hc. by apply (Hf s f).
  - intros key s' d Hd. destruct (Hh key s' d Hd) as (f' & Hf' & Hkey & Hb).
    destruct (decide (s' = s)) as [->|]; [|exists f'; by rewrite lookup_insert_ne].
    rewrite lookup_insert_eq. exists g. rewrite Hsf in Hf'. injection Hf' as <-. split_and!; [done|congruence|].
    unfold belongs in *. by rewrite Hk, Hc.
  - by eapply answers_mono.
Qed.

Lemma inv_send h u key s d f :
  inv h u → u.(flows) !! s = Some f → f.(flow_key) = key → belongs h.*1 f d →
  inv h (send kind u key s d).
Proof.
  intros Hi Hsf Hk Hb. unfold send. rewrite Hsf. destruct (running f) eqn:Er.
  - destruct (_ <? _)%nat.
    + eapply inv_with_flow; [done|done|done|done|]. cbn. apply Forall_app. split; [|by apply Forall_singleton].
      by apply (inv_flow _ _ Hi s f).
    + destruct Hi as [Ht Hs Hfr Hf Hh Hn Hr]. split; cbn; try done. intros key' s' d' [= <- <- <-]. by exists f.
  - destruct kind; [|done]. destruct Hi as [Ht Hs Hfr Hf Hh Hn Hr]. split; cbn; try done.
    + by apply (table_exec (λ _, false) h (flows u) (ClearSender key)).
    + by apply alter_senders.
Qed.

Lemma inv_flow_for h u now payload source d :
  inv h u → Packet now payload source d ∈ h.*1 →
  let '(u', s) := flow_for mapping now source d u in
  inv h u' ∧ ∃ f, u'.(flows) !! s = Some f ∧ f.(flow_key) = key_for mapping source d ∧ f.(flow_client) = source.
Proof.
  intros [Ht Hs Hfr Hf Hh Hn Hr] Hin. unfold flow_for. set (key := key_for mapping source d).
  pose proof (touch_senders (is_closed u) now key d (table u) (flows u) Hs) as (Hs' & Hfound & _).
  assert (table_ok h (flows u) (touch_and_sender (is_closed u) now key d (table u)).1) as Ht'.
  { apply (table_exec (is_closed u) h (flows u) (Touch now key d)); [done|]. by exists payload, source. }
  destruct (touch_and_sender _ _ _ _ _) as [t [s|]]; cbn in *.
  - destruct (Hfound s eq_refl) as (f & Hsf & Hk). split; [by split|]. exists f. split_and!; [done|done|].
    destruct (Hf s f Hsf) as [[d' Hd'] _]. eapply (key_for_source mapping _ _ d' d). by rewrite <- Hd', Hk.
  - assert (flows u !! next_flow u = None) as Hnone.
    { destruct (flows u !! next_flow u) eqn:E; [|done]. assert (next_flow u < next_flow u)%nat; [|lia].
      apply Hfr. by eexists. }
    pose proof (kept_insert_new _ _ (mkRelayFlow key source [] true) Hnone) as Hkept.
    split; [|eexists; cbn; rewrite lookup_insert_eq; by split_and!].
    split; cbn; [ | | | | |done|].
    + apply (table_exec (is_closed u) h _ (InsertSender key (next_flow u))); [|done].
      rewrite <- (app_nil_r h). by eapply table_mono.
    + apply alter_senders; [apply senders_mono; [done|by left]|]. intros s [= <-]. rewrite lookup_insert_eq. by eexists.
    + intros s Hsome. destruct (decide (s = next_flow u)) as [->|]; [lia|].
      rewrite lookup_insert_ne in Hsome by done. apply Hfr in Hsome. lia.
    + intros s f. destruct (decide (s = next_flow u)) as [->|]; [|rewrite lookup_insert_ne by done; apply Hf].
      rewrite lookup_insert_eq. intros [= <-]. cbn. split; [by exists d|constructor].
    + intros k' s d' Hd. destruct (Hh k' s d' Hd) as (f & Hsf & ? & ?). exists f.
      rewrite lookup_insert_ne by congruence. done.
    + by eapply answers_mono.
Qed.

(** An answer is passed on with the key and the client of its flow. *)
Lemma inv_reply h u s payload remote f :
  inv h u → u.(flows) !! s = Some f →
  inv (h ++ [(Reply s payload remote, None)])
    (mkUdp u.(table) u.(flows) u.(next_flow) u.(held)
       (u.(responses) ++ [(f.(flow_key), (payload, remote, f.(flow_client)))])).
Proof.
  intros [Ht Hs Hfr Hf Hh Hn Hr] Hsf.
  assert (replies (h ++ [(Reply s payload remote, None)]).*1 = replies h.*1 ++ [(s, payload, remote)] ∧
          responds (h ++ [(Reply s payload remote, None)]).*1 = responds h.*1) as [E1 E2].
  { unfold replies, responds. rewrite fmap_app, !omap_app. cbn. by rewrite app_nil_r. }
  split; rewrite ?E1, ?E2; cbn; [by eapply table_mono|done|done| | | |].
  - intros s' f' Hsf'. destruct (Hf s' f' Hsf') as [Hk Hb]. split; [done|].
    eapply Forall_impl; [exact Hb|]. intros d. rewrite fmap_app. apply belongs_weaken.
  - intros key s' d Hd. destruct (Hh key s' d Hd) as (f' & ? & ? & ?). exists f'. split_and!; try done.
    rewrite fmap_app. by apply belongs_weaken.
  - rewrite length_app. cbn. lia.
  - rewrite drop_app_le by lia. apply Forall2_app; [done|]. constructor; [|constructor]. by exists f.
Qed.

(** The answer that the writer takes, and what its client and session did before. *)
Lemma answer_delivered h u now key payload remote client rest :
  inv h u → u.(responses) = (key, (payload, remote, client)) :: rest →
  ∃ s f, next_answer h.*1 = Some (s, payload, remote) ∧ u.(flows) !! s = Some f ∧
    f.(flow_key) = key ∧ f.(flow_client) = client ∧
    ((allow_response now key remote u.(table)).2 = true →
     output_ok h (Respond now) u.(flows) (ToClient payload remote client)).
Proof.
  intros [[(os & Hrec & Hex1 & Hex2) [Hfil Htim]] _ _ Hf _ Hn Hr] Er. rewrite Er in Hr.
  inversion Hr as [|[[s p] r] ? ? ? (f & Hsf & Ha) Hrest Hd]; subst. injection Ha as -> -> -> ->. cbn in Hsf.
  assert (next_answer h.*1 = Some (s, p, r)) as Hnext.
  { unfold next_answer. rewrite <- (Nat.add_0_r (length _)), <- lookup_drop. by rewrite <- Hd. }
  exists s, f. split_and!; try done. intros Hok. exists now, s, f. split_and!; try done.
  - destruct (allow_response_recorded os (table u) now (flow_key f) r Hrec Hok) as [(d & [t1 Hd1] & Hsame) _].
    destruct (Hex1 _ _ _ Hd1) as (p' & source & Hp & Hk). destruct (Hf s f Hsf) as [[d0 Hd0] _].
    assert (flow_client f = source) as <- by (eapply (key_for_source mapping _ _ d0 d); by rewrite <- Hd0, Hk).
    exists p', d. rewrite Hfil in Hsame. split_and!; [by exists t1|done|done].
  - destruct (allow_response_recorded os (table u) now (flow_key f) r Hrec Hok) as [_ (t2 & Hact & Hlt)].
    exists t2. rewrite Htim in Hlt. split; [|done]. destruct Hact as [[d Hd2]|[r' Hr']].
    + left. destruct (Hex1 _ _ _ Hd2) as (p' & source & Hp & Hk). by exists p', source, d.
    + right. by eapply Hex2.
Qed.

Lemma inv_respond h u now key payload remote client rest :
  inv h u → u.(responses) = (key, (payload, remote, client)) :: rest →
  let r := allow_response now key remote u.(table) in
  inv (h ++ [(Respond now, if r.2 then Some (ToClient payload remote client) else None)])
    (mkUdp r.1 u.(flows) u.(next_flow) u.(held) rest).
Proof.
  intros Hi Er r. destruct (answer_delivered h u now _ _ _ _ _ Hi Er) as (s & f & Hnext & Hsf & Hk & Hc & _).
  destruct Hi as [Ht Hs Hfr Hf Hh Hn Hr]. set (o := if r.2 then _ else _).
  assert (replies (h ++ [(Respond now, o)]).*1 = replies h.*1 ∧
          responds (h ++ [(Respond now, o)]).*1 = responds h.*1 ++ [now]) as [E1 E2].
  { unfold replies, responds. rewrite fmap_app, !omap_app. cbn. by rewrite app_nil_r. }
  assert (length (responds h.*1) < length (replies h.*1))%nat by by eapply lookup_lt_Some.
  split; rewrite ?E1, ?E2; cbn; [ |by apply response_senders|done| | | |].
  - pose proof (table_mono h [(Respond now, o)] _ _ _ (reflexivity _) Ht) as Ht'.
    destruct r.2 eqn:Eok.
    + apply (table_exec (λ _, false) _ _ (AllowResponse now key remote)); [done|].
      exists (length h), s, payload, remote, client, f. unfold o. rewrite list_lookup_middle by done.
      rewrite take_app_length. by split_and!.
    + unfold r in *. rewrite refused_is_expire by done. by apply (table_exec (λ _, false) _ _ (Expire now)).
  - intros s' f' Hsf'. destruct (Hf s' f' Hsf') as [Hk' Hb]. split; [done|].
    eapply Forall_impl; [exact Hb|]. intros d. rewrite fmap_app. apply belongs_weaken.
  - intros key' s' d Hd. destruct (Hh key' s' d Hd) as (f' & ? & ? & ?). exists f'. split_and!; try done.
    rewrite fmap_app. by apply belongs_weaken.
  - rewrite length_app. cbn. lia.
  - rewrite length_app, <- drop_drop. rewrite Er in Hr. inversion Hr as [|a ? l ? _ Hrest Hd]; subst. done.
Qed.

Lemma kept_send u key s d : kept u.(flows) (send kind u key s d).(flows).
Proof.
  unfold send. destruct (flows u !! s) as [f|] eqn:Hf; [|done]. destruct (running f).
  - destruct (_ <? _)%nat; [by eapply kept_insert|done].
  - by destruct kind.
Qed.

Lemma kept_flow_for h u now source d : inv h u → kept u.(flows) (flow_for mapping now source d u).1.(flows).
Proof.
  intros Hi. unfold flow_for. destruct (touch_and_sender _ _ _ _ _) as [t [s|]]; cbn; [done|].
  apply kept_insert_new. destruct (flows u !! next_flow u) eqn:E; [|done].
  assert (next_flow u < next_flow u)%nat; [|lia]. apply (inv_fresh _ _ Hi). by eexists.
Qed.

Lemma udp_inv_step h u e u' o :
  inv h u → step u e = Some (u', o) →
  inv (h ++ [(e, o)]) u' ∧ kept u.(flows) u'.(flows) ∧ (∀ out, o = Some out → output_ok h e u'.(flows) out).
Proof.
  intros Hi Hs. destruct e as [now payload source d| |s|s payload remote|s|now]; cbn in Hs.
  - destruct (held u); [done|].
    pose proof (inv_flow_for _ u now payload source d
      (inv_quiet h (Packet now payload source d) u Hi I None)) as Hff.
    pose proof (kept_flow_for h u now source d Hi) as Hk.
    destruct (flow_for _ _ _ _ _) as [u1 s]. injection Hs as <- <-.
    split_and!; [|by etrans; [exact Hk|apply kept_send]|done].
    destruct Hff as (Hi1 & f & Hsf & Hkey & Hc); [rewrite fmap_app; set_solver|]. eapply inv_send; [done|done|done|].
    split; cbn; [|by rewrite Hkey, Hc]. rewrite Hc, fmap_app. exists now. set_solver.
  - pose proof (inv_quiet h Resume u Hi I None) as Hw.
    destruct (held u) as [[[key s] d]|] eqn:Hh; [|done]. cbn in Hs.
    destruct (inv_held _ _ Hw key s d Hh) as (f & Hsf & Hk & Hb). rewrite Hsf in Hs. cbn in Hs.
    destruct (_ && _); [done|]. injection Hs as <- <-. split_and!; [|apply (kept_send (with_held u None))|done].
    apply (inv_send _ (with_held u None) key s d f); [|done..]. destruct Hw. by split.
  - destruct (flows u !! s) as [f|] eqn:Hsf; [|done]. cbn in Hs. destruct (running f); [|done].
    destruct (queue f) as [|[payload d] q] eqn:Hq; [done|]. injection Hs as <- <-. split_and!.
    + eapply inv_with_flow; [by apply inv_quiet|done|done|done|]. cbn [queue].
      pose proof (inv_quiet h (Take s) u Hi I (Some (ToFlow s payload d))) as Hw.
      destruct (inv_flow _ _ Hw s f Hsf) as [_ Hb]. rewrite Hq in Hb. by apply Forall_cons in Hb as [_ ?].
    + by eapply kept_insert.
    + intros out [= <-]. cbn. rewrite lookup_insert_eq. eexists. split; [done|]. cbn.
      destruct (inv_flow _ _ Hi s f Hsf) as [_ Hb]. rewrite Hq in Hb. by apply Forall_cons in Hb as [[??] _].
  - destruct (flows u !! s) as [f|] eqn:Hsf; [|done]. cbn in Hs. injection Hs as <- <-.
    split_and!; [by apply inv_reply|done|done].
  - destruct (flows u !! s) as [f|] eqn:Hsf; [|done]. cbn in Hs. injection Hs as <- <-.
    split_and!; [|by eapply kept_insert|done].
    eapply inv_with_flow; [by apply inv_quiet|done|done|done|constructor].
  - destruct (responses u) as [|[key [[payload remote] client]] rest] eqn:Hr; [done|].
    pose proof (inv_respond h u now _ _ _ _ _ Hi Hr) as Hinv. cbn zeta in Hinv.
    destruct (answer_delivered h u now _ _ _ _ _ Hi Hr) as (s & f & _ & _ & _ & _ & Hout).
    destruct (allow_response now key remote (table u)) as [t allowed] eqn:Ha. injection Hs as <- <-.
    split_and!; [done|done|]. intros out. destruct allowed; [|done]. intros [= <-]. by apply Hout.
Qed.

Lemma output_kept h e fs fs' out : kept fs fs' → output_ok h e fs out → output_ok h e fs' out.
Proof.
  intros Hk. destruct out as [s p d|p r c]; cbn.
  - intros (f & Hf & Hs). destruct (Hk s f Hf) as (f' & Hf' & Hkey & Hc). exists f'. by rewrite Hkey, Hc.
  - intros (now & s & f & -> & Hn & Hf & Hcl & Hd & t & Hu & Hlt).
    destruct (Hk s f Hf) as (f' & Hf' & Hkey & Hc). exists now, s, f'. rewrite Hkey, Hc.
    split_and!; try done. exists t. split; [|done]. rewrite <- (app_nil_r h). by eapply used_mono.
Qed.

Lemma udp_run_spec h u es u' os :
  inv h u → run u es = Some (u', os) →
  length os = length es ∧ kept u.(flows) u'.(flows) ∧
  ∀ i out, os !! i = Some (Some out) → ∃ e, es !! i = Some e ∧ output_ok (h ++ take i (zip es os)) e u'.(flows) out.
Proof.
  revert h u os. induction es as [|e es IH]; intros h u os Hi Hr; cbn in Hr.
  { injection Hr as <- <-. split_and!; [done|done|]. intros i out. by rewrite lookup_nil. }
  destruct (step u e) as [[u1 o]|] eqn:Hs; [|done]. cbn in Hr.
  destruct (run u1 es) as [[u2 os']|] eqn:Hr'; [|done]. cbn in Hr. injection Hr as <- <-.
  destruct (udp_inv_step _ _ _ _ _ Hi Hs) as (Hi1 & Hk1 & Hout). destruct (IH _ _ _ Hi1 Hr') as (Hl & Hk & Hall).
  split_and!; [cbn; by rewrite Hl|by etrans|].
  intros [|i] out; cbn [lookup list_lookup].
  - intros [= ->]. exists e. split; [done|]. cbn [take zip zip_with]. rewrite app_nil_r.
    eapply output_kept; [exact Hk|by apply Hout].
  - intros (e' & He' & Hok)%Hall. exists e'. split; [done|]. cbn [take zip zip_with]. by rewrite <- app_assoc in Hok.
Qed.

Lemma inv_init : inv [] (init filtering max timeout).
Proof.
  split; cbn; try done.
  - split; [|done]. exists []. split; [done|]. split; by intros ? ? ? ?%not_elem_of_nil.
  - intros s [f Hf]. by rewrite lookup_empty in Hf.
Qed.

(** C37: UDP clients are kept apart, however packets, answers and the ends of flows
    interleave.  Each flow has one client and one session (its mapping key): it is handed
    only datagrams that this client sent, with the destinations the client gave them, and
    of this session.  The [n]-th answer that the writer takes is the [n]-th that was passed
    on; when it is delivered, it goes to the client of the flow that answered, this client
    had sent through the same session to a remote that the filtering behaviour takes for the
    answering one (with endpoint-independent filtering to any remote, with address-dependent
    filtering to its address, else to its address and port), and the session was used within
    the idle timeout, by a packet of its own or by an answer of its own that was delivered. *)
Theorem udp_clients_apart es u os :
  run (init filtering max timeout) es = Some (u, os) →
  (∀ i s payload d, os !! i = Some (Some (ToFlow s payload d)) →
     ∃ f, u.(flows) !! s = Some f ∧ sent (take i es) payload f.(flow_client) d ∧
       key_for mapping f.(flow_client) d = f.(flow_key)) ∧
  (∀ i payload remote client, os !! i = Some (Some (ToClient payload remote client)) →
     ∃ now s f, es !! i = Some (Respond now) ∧ next_answer (take i es) = Some (s, payload, remote) ∧
       u.(flows) !! s = Some f ∧ f.(flow_client) = client ∧
       (∃ p d, sent (take i es) p client d ∧ key_for mapping client d = f.(flow_key) ∧
          same_remote filtering d remote) ∧
       ∃ t, used (take i (zip es os)) u.(flows) f.(flow_key) t ∧ now - t < timeout).
Proof.
  intros Hr. destruct (udp_run_spec [] _ es u os inv_init Hr) as (Hl & _ & Hall).
  assert (∀ i, (take i (zip es os)).*1 = take i es) as Hz by (intros i; by rewrite fmap_take, fst_zip by lia).
  split.
  - intros i s payload d Ho. destruct (Hall i _ Ho) as (e & He & f & H). rewrite app_nil_l, Hz in H. by exists f.
  - intros i payload remote client Ho. destruct (Hall i _ Ho) as (e & He & now & s & f & -> & H).
    rewrite !app_nil_l, !Hz in H. by exists now, s, f.
Qed.

End isolation.

(** ** The original destination *)

Module Ancillary.

(** [from_ne_bytes] on a little-endian machine. *)
Definition of_le (b : bytes) : Z := of_be (reverse b).
Definition to_le (n : nat) (z : Z) : bytes := reverse (to_be n z).

Lemma of_le_to_le n z : uint (8 * Z.of_nat n) z → of_le (to_le n z) = z.
Proof. intros Hz. unfold of_le, to_le. by rewrite reverse_involutive, of_be_to_be. Qed.

Lemma length_to_le n z : length (to_le n z) = n.
Proof. unfold to_le. by rewrite length_reverse, length_to_be. Qed.

(** What the parser does with a buffer: besides its two results, an index that panics
    and an unchecked read behind the buffer. *)
Inductive outcome :=
  | Destination (a : SocketAddr)
  | Missing
  | IndexPanics
  | OutOfBounds.

Definition SOL_IP : Z := 0.
Definition SOL_IPV6 : Z := 41.
Definition IP_RECVORIGDSTADDR : Z := 20.
Definition IPV6_RECVORIGDSTADDR : Z := 74.

(** The [n] bytes at [i]. *)
Definition at_ (oob : bytes) (i n : nat) : bytes := take n (drop i oob).

(** The loop of [original_destination]; each turn moves on by twelve bytes or more. *)
Fixpoint scan (fuel : nat) (oob : bytes) (position : nat) : outcome :=
  match fuel with
  | O => Missing
  | S fuel =>
    let len := length oob in
    if (position + 12 <=? len)%nat then
      let cmsg_len := Z.to_nat (Z.min (of_le (at_ oob position 8)) (Z.of_nat (len - position))) in
      if (cmsg_len <? 12)%nat then Missing
      else if (len <? position + 16)%nat then OutOfBounds
      else
        let level := of_le (at_ oob (position + 8) 4) in
        let ctype := of_le (at_ oob (position + 12) 4) in
        let data := (position + 16)%nat in
        if (level =? SOL_IP) && (ctype =? IP_RECVORIGDSTADDR) then
          if (len <? data + 8)%nat then IndexPanics
          else Destination (mkSocketAddr (V4 (of_be (at_ oob (data + 4) 4))) (of_be (at_ oob (data + 2) 2)))
        else if (level =? SOL_IPV6) && (ctype =? IPV6_RECVORIGDSTADDR) then
          if (len <? data + 24)%nat then IndexPanics
          else Destination (mkSocketAddr (V6 (of_be (at_ oob (data + 8) 16))) (of_be (at_ oob (data + 2) 2)))
        else scan fuel oob (position + cmsg_len)
    else Missing
  end.

Definition original_destination (oob : bytes) : outcome := scan (S (length oob)) oob 0.

(** *** What the kernel writes *)

(** A control message: its length, level, type and data, and padding to eight bytes. *)
Record Cmsg := mkCmsg { level : Z; ctype : Z; data : bytes }.

Definition cmsg_header (m : Cmsg) : bytes :=
  to_le 8 (16 + Z.of_nat (length m.(data))) ++ to_le 4 m.(level) ++ to_le 4 m.(ctype).

Definition padding (n : nat) : nat := Nat.modulo (8 - Nat.modulo n 8) 8.

Definition cmsg_bytes (m : Cmsg) : bytes :=
  cmsg_header m ++ m.(data) ++ replicate (padding (length m.(data))) 0.

(** [sockaddr_in] and [sockaddr_in6] of the destination. *)
Definition destination_cmsg (a : SocketAddr) : Cmsg :=
  match sa_ip a with
  | V4 ip => mkCmsg SOL_IP IP_RECVORIGDSTADDR (to_le 2 2 ++ to_be 2 (sa_port a) ++ to_be 4 ip ++ replicate 8 0)
  | V6 ip => mkCmsg SOL_IPV6 IPV6_RECVORIGDSTADDR
               (to_le 2 10 ++ to_be 2 (sa_port a) ++ replicate 4 0 ++ to_be 16 ip ++ replicate 4 0)
  end.

(** Another message: not a destination, with numbers of their width. *)
Definition other (m : Cmsg) : Prop :=
  uint 32 m.(level) ∧ uint 32 m.(ctype) ∧ uint 64 (16 + Z.of_nat (length m.(data))) ∧
  ¬ (m.(level) = SOL_IP ∧ m.(ctype) = IP_RECVORIGDSTADDR) ∧
  ¬ (m.(level) = SOL_IPV6 ∧ m.(ctype) = IPV6_RECVORIGDSTADDR).

(** *** The parser reads it *)

Lemma at_app a b c : at_ (a ++ b ++ c) (length a) (length b) = b.
Proof. unfold at_. by rewrite drop_app_length, take_app_length. Qed.

Lemma at_shift pre oob i n : at_ (pre ++ oob) (length pre + i) n = at_ oob i n.
Proof. unfold at_. by rewrite <- drop_drop, drop_app_length. Qed.

Lemma leb_shift n a b : (n + a <=? n + b)%nat = (a <=? b)%nat.
Proof. destruct (Nat.leb_spec a b), (Nat.leb_spec (n + a) (n + b)); lia || done. Qed.

(** What lies before the position does not matter. *)
Lemma scan_shift pre oob fuel p : scan fuel (pre ++ oob) (length pre + p) = scan fuel oob p.
Proof.
  revert p. induction fuel as [|fuel IH]; intros p; [done|]. cbn [scan]. cbn zeta.
  rewrite length_app, <- !Nat.add_assoc, leb_shift, !at_shift.
  replace (length pre + length oob - (length pre + p))%nat with (length oob - p)%nat by lia.
  destruct (p + 12 <=? length oob)%nat; [|done]. destruct (_ <? 12)%nat; [done|].
  unfold Nat.ltb. rewrite <- !Nat.add_succ_r, !leb_shift.
  rewrite <- IH, !Nat.add_assoc. done.
Qed.

Lemma header_fields m rest :
  let oob := cmsg_bytes m ++ rest in
  uint 32 m.(level) → uint 32 m.(ctype) → uint 64 (16 + Z.of_nat (length m.(data))) →
  of_le (at_ oob 0 8) = 16 + Z.of_nat (length m.(data)) ∧ of_le (at_ oob 8 4) = m.(level) ∧
  of_le (at_ oob 12 4) = m.(ctype) ∧
  ∀ i n, at_ oob (16 + i) n = at_ (m.(data) ++ replicate (padding (length m.(data))) 0 ++ rest) i n.
Proof.
  intros oob Hl Ht Hd. unfold oob, cmsg_bytes, cmsg_header. rewrite <- !app_assoc.
  set (a := to_le 8 _). set (b := to_le 4 (level m)). set (k := to_le 4 (ctype m)). set (r := data m ++ _).
  assert (length a = 8%nat ∧ length b = 4%nat ∧ length k = 4%nat) as (Ha & Hb & Hk)
    by (unfold a, b, k; by rewrite !length_to_le).
  split_and!.
  - rewrite <- Ha. change (at_ (a ++ b ++ k ++ r) 0 (length a)) with (at_ ([] ++ a ++ b ++ k ++ r) (length (@nil Z)) (length a)).
    rewrite at_app. by apply of_le_to_le.
  - rewrite <- Ha, <- Hb. rewrite at_app. by apply of_le_to_le.
  - replace 12%nat with (length (a ++ b)) by (rewrite length_app, Ha, Hb; done). rewrite <- Hk, app_assoc, at_app.
    by apply of_le_to_le.
  - intros i n. replace (16 + i)%nat with (length (a ++ b ++ k) + i)%nat by (rewrite !length_app, Ha, Hb, Hk; lia).
    rewrite <- (at_shift (a ++ b ++ k)). by rewrite <- !app_assoc.
Qed.

Lemma length_cmsg m : length (cmsg_bytes m) = (16 + length m.(data) + padding (length m.(data)))%nat.
Proof.
  unfold cmsg_bytes, cmsg_header. rewrite !length_app, !length_to_le, length_replicate. lia.
Qed.

(** A message whose length needs no padding is passed over. *)
Lemma scan_other fuel m rest :
  other m → Nat.modulo (length m.(data)) 8 = 0%nat →
  scan (S fuel) (cmsg_bytes m ++ rest) 0 = scan fuel rest 0.
Proof.
  intros (Hl & Ht & Hd & Hn4 & Hn6) Hal.
  destruct (header_fields m rest Hl Ht Hd) as (E1 & E2 & E3 & _).
  assert (padding (length (data m)) = 0%nat) as Hpad by (unfold padding; by rewrite Hal).
  pose proof (length_cmsg m) as Hlen. rewrite Hpad in Hlen.
  cbn [scan]. cbn zeta. rewrite length_app, Hlen.
  rewrite (proj2 (Nat.leb_le _ _)) by lia. cbn [Nat.add] in *. rewrite E1, E2, E3.
  replace (Z.to_nat _) with (length (cmsg_bytes m)) by (rewrite Hlen; lia).
  rewrite (proj2 (Nat.ltb_ge _ _)) by lia. rewrite (proj2 (Nat.ltb_ge _ _)) by lia.
  destruct ((level m =? SOL_IP) && _) eqn:E4.
  { exfalso. apply Hn4. by bool_to_prop. }
  destruct ((level m =? SOL_IPV6) && _) eqn:E6.
  { exfalso. apply Hn6. by bool_to_prop. }
  rewrite <- (Nat.add_0_r (length (cmsg_bytes m))). apply scan_shift.
Qed.

Definition address_ok (a : SocketAddr) : Prop :=
  u16 (sa_port a) ∧ match sa_ip a with V4 ip => uint 32 ip | V6 ip => uint 128 ip end.

(** A field of the data of a message. *)
Lemma data_field m rest a b c :
  uint 32 m.(level) → uint 32 m.(ctype) → uint 64 (16 + Z.of_nat (length m.(data))) →
  m.(data) = a ++ b ++ c → at_ (cmsg_bytes m ++ rest) (16 + length a) (length b) = b.
Proof.
  intros Hl Ht Hd E. destruct (header_fields m rest Hl Ht Hd) as (_ & _ & _ & H). rewrite H, E, <- !app_assoc.
  apply at_app.
Qed.

Lemma scan_destination fuel a rest :
  address_ok a → scan (S fuel) (cmsg_bytes (destination_cmsg a) ++ rest) 0 = Destination a.
Proof.
  intros [Hp Hip]. destruct a as [ip port]. cbn in Hp, Hip. set (m := destination_cmsg _).
  assert (uint 32 (level m) ∧ uint 32 (ctype m)) as [Hl Ht] by (unfold m; by destruct ip).
  assert (length (data m) = match ip with V4 _ => 16%nat | V6 _ => 28%nat end) as Hdl.
  { unfold m. destruct ip; cbn [data destination_cmsg sa_ip];
      by rewrite !length_app, !length_to_be, length_to_le, !length_replicate. }
  assert (uint 64 (16 + Z.of_nat (length (data m)))) as Hd by (rewrite Hdl; unfold uint; destruct ip; lia).
  destruct (header_fields m rest Hl Ht Hd) as (E1 & E2 & E3 & _).
  pose proof (length_cmsg m) as Hlen. rewrite Hdl in E1, Hlen.
  cbn [scan]. cbn zeta. rewrite length_app, (proj2 (Nat.leb_le _ _)) by (destruct ip; lia).
  change (0 + 8)%nat with 8%nat. change (0 + 12)%nat with 12%nat. rewrite E1, E2, E3.
  rewrite (proj2 (Nat.ltb_ge _ 12)) by (destruct ip; lia).
  rewrite (proj2 (Nat.ltb_ge _ (0 + 16))) by (destruct ip; lia).
  destruct ip as [ip|ip]; cbn [level ctype destination_cmsg sa_ip] in *;
    rewrite (proj2 (Nat.ltb_ge _ _)) by lia; change (0 + 16)%nat with 16%nat.
  - pose proof (data_field m rest (to_le 2 2) (to_be 2 port) (to_be 4 ip ++ replicate 8 0) Hl Ht Hd eq_refl) as F1.
    pose proof (data_field m rest (to_le 2 2 ++ to_be 2 port) (to_be 4 ip) (replicate 8 0) Hl Ht Hd) as F2.
    rewrite length_to_le, length_to_be in F1.
    rewrite length_app, length_to_le, !length_to_be in F2. change (2 + 2)%nat with 4%nat in F2.
    rewrite F1, F2 by (unfold m, destination_cmsg; cbn [data sa_ip sa_port]; by rewrite <- !app_assoc). by rewrite !of_be_to_be.
  - pose proof (data_field m rest (to_le 2 10) (to_be 2 port) (replicate 4 0 ++ to_be 16 ip ++ replicate 4 0)
      Hl Ht Hd eq_refl) as F1.
    pose proof (data_field m rest (to_le 2 10 ++ to_be 2 port ++ replicate 4 0) (to_be 16 ip) (replicate 4 0) Hl Ht Hd) as F2.
    rewrite length_to_le, length_to_be in F1.
    rewrite !length_app, length_to_le, !length_to_be, length_replicate in F2.
    change (2 + (2 + 4))%nat with 8%nat in F2.
    rewrite F1, F2 by (unfold m, destination_cmsg; cbn [data sa_ip sa_port]; by rewrite <- !app_assoc). by rewrite !of_be_to_be.
Qed.

(** The original destination is found behind messages whose lengths need no padding. *)
Lemma destination_found ms a rest :
  Forall (λ m, other m ∧ Nat.modulo (length m.(data)) 8 = 0%nat) ms → address_ok a →
  original_destination (concat (cmsg_bytes <$> ms) ++ cmsg_bytes (destination_cmsg a) ++ rest) = Destination a.
Proof.
  intros Hms Ha. unfold original_destination.
  assert (∀ fuel, (length (concat (cmsg_bytes <$> ms)) < fuel)%nat →
    scan fuel (concat (cmsg_bytes <$> ms) ++ cmsg_bytes (destination_cmsg a) ++ rest) 0 = Destination a) as H.
  { induction Hms as [|m ms [Ho Hal] _ IH]; intros [|fuel] Hf; try (cbn in Hf; lia).
    - by apply scan_destination.
    - cbn [fmap list_fmap concat] in *. rewrite length_app, length_cmsg in Hf. rewrite <- app_assoc, scan_other by done.
      apply IH. lia. }
  apply H. rewrite length_app. lia.
Qed.

(** Behind a message of twelve to fifteen bytes the type is read from beyond the buffer, and
    a message whose length needs padding hides the ones that follow. *)
Example ancillary_corners :
  original_destination (to_le 8 12 ++ to_le 4 0) = OutOfBounds ∧
  original_destination (cmsg_bytes (mkCmsg SOL_IP 20 [2; 0])) = Destination (mkSocketAddr (V4 0) 0) ∧
  original_destination (to_le 8 18 ++ to_le 4 SOL_IP ++ to_le 4 IP_RECVORIGDSTADDR ++ [2; 0]) = IndexPanics ∧
  original_destination (cmsg_bytes (mkCmsg SOL_IP 2 (to_le 4 64)) ++
    cmsg_bytes (destination_cmsg (mkSocketAddr (V4 16909060) 53))) = Missing.
Proof. split_and!; vm_compute; reflexivity. Qed.

End Ancillary.

(** ** At work *)

Module UdpLoops.
#[local] Existing Instance key_order.

Definition alice : SocketAddr := mkSocketAddr (V4 1) 1000.
Definition bob : SocketAddr := mkSocketAddr (V4 2) 1000.
Definition dns : SocketAddr := mkSocketAddr (V4 3) 53.
Definition stranger : SocketAddr := mkSocketAddr (V4 4) 53.

(** The resolver answers both, a stranger turns to Bob and is turned away; Alice's second
    answer comes when only her first still keeps the session. *)
Definition exchange : list event :=
  [Packet 0 [1] alice dns; Take 0%nat; Packet 1 [2] bob dns; Take 1%nat; Reply 1%nat [4] dns; Reply 0%nat [3] dns;
   Reply 1%nat [5] stranger; Respond 20; Respond 21; Respond 22; End 0%nat; Reply 0%nat [6] dns; Respond 50].

Definition exchanged : list (option output) :=
  [None; Some (ToFlow 0%nat [1] dns); None; Some (ToFlow 1%nat [2] dns); None; None; None;
   Some (ToClient [4] dns bob); Some (ToClient [3] dns alice); None; None; None; Some (ToClient [6] dns alice)].

Lemma exchange_outputs :
  snd <$> run Tun EndpointIndependent (init AddressDependent 8 30) exchange = Some exchanged.
Proof. vm_compute. reflexivity. Qed.

Lemma udp_clients_apart_witness :
  ∃ u, run Tun EndpointIndependent (init AddressDependent 8 30) exchange = Some (u, exchanged) ∧
    ∃ now s f, exchange !! 12%nat = Some (Respond now) ∧ next_answer (take 12 exchange) = Some (s, [6], dns) ∧
      flows u !! s = Some f ∧ flow_client f = alice ∧
      (∃ p d, sent (take 12 exchange) p alice d ∧ key_for EndpointIndependent alice d = flow_key f ∧
         same_remote AddressDependent d dns) ∧
      ∃ t, used EndpointIndependent (take 12 (zip exchange exchanged)) (flows u) (flow_key f) t ∧ now - t < 30.
Proof.
  pose proof exchange_outputs as Ho.
  destruct (run Tun EndpointIndependent (init AddressDependent 8 30) exchange) as [[u os]|] eqn:E;
    [|discriminate Ho].
  cbn in Ho. injection Ho as ->. exists u. split; [reflexivity|].
  destruct (udp_clients_apart Tun EndpointIndependent AddressDependent 8 30 exchange u _ E) as [_ H].
  exact (H 12%nat [6] dns alice eq_refl).
Defined.

(** A flow that does not take its datagrams holds up the packets of every other client. *)
Example stuck_flow_blocks_others :
  let es := (λ i, Packet i [i] alice dns) <$> seqZ 0 65 in
  (λ r, (r.1.(held), step Tun EndpointIndependent r.1 (Packet 65 [0] bob dns),
         step Tun EndpointIndependent r.1 Resume)) <$>
    run Tun EndpointIndependent (init AddressDependent 8 30) es
  = Some (Some (Endpoint alice, 0%nat, ([64], dns)), None, None).
Proof. vm_compute. reflexivity. Qed.

End UdpLoops.
