(* ===== verification/Tun.v ===== *)
(** * The TUN inbound's configuration (src/src/tun.rs)

    What a TUN inbound accepts and the configuration it yields, which the routes of
    TunRoutes.v are built from. *)

From S2P Require Import Prelude RustStr Net Util Sniff UdpNat Config.

Section tun.
Context `{N : IpNetLib}.

Record TunConfig := mkTun {
  t_interface_name : str;
  mtu : Z;
  addresses : list IpNet;
  stack : str;
  auto_route : bool;
  auto_redirect : bool;
  strict_route : bool;
  route_addresses : list IpNet;
  route_exclude_addresses : list IpNet;
  route_include_active : bool;
  route_exclude_active : bool;
  include_interfaces : list str;
  exclude_interfaces : list str;
  include_uids : list Z;
  exclude_uids : list Z;
  include_uid_ranges : list (Z * Z);
  exclude_uid_ranges : list (Z * Z);
  table_index : Z;
  rule_index : Z;
  redirect_input_mark : Z;
  redirect_output_mark : Z;
  include_macs : list str;
  exclude_macs : list str;
  bypass_addresses : list IpAddr;
  t_udp_timeout : Z;
  udp_mapping : UdpNatBehavior;
  udp_filtering : UdpNatBehavior;
  udp_nat_max : Z;
}.

(** [u8::from_str_radix(part, 16)] *)
Definition hex_u8 (s : str) : option Z :=
  let digits := strip_plus s in
  match digits with
  | [] => None
  | _ =>
    ds ← mapM (IpParser.to_digit 16) digits;
    try_uint 8 (IpParser.digits_value 16 ds)
  end.

Definition parse_mac (value : str) : result (list Z) :=
  octets ← map_result (λ part, context (hex_u8 part) "invalid MAC octet") (split c_colon value);
  if (length octets =? 6)%nat then Ok octets else Err "MAC address must contain six octets".

Definition parse_uid_range (value : str) : result (Z * Z) :=
  '(start, end_) ← context (split_once c_colon value) "UID range is missing ':'";
  start ← context (parse_uint 32 start) "invalid UID range start";
  end_ ← context (parse_uint 32 end_) "invalid UID range end";
  if end_ <? start then Err "UID range start exceeds end" else Ok (start, end_).

Definition parse_uid_ranges (values : list str) : result (list (Z * Z)) := map_result parse_uid_range values.

(** The digits at the front, and the unit behind them. *)
Fixpoint span_decimal (s : str) : str * str :=
  match s with
  | [] => ([], [])
  | c :: s' => if in_range c 48 57 then let '(d, r) := span_decimal s' in (c :: d, r) else ([], s)
  end.

Definition saturating_mul_u64 (a b : Z) : Z := Z.min u64_max (a * b).

(** The durations of this module: digits and a unit, seconds by default. *)
Definition tun_duration (value : str) : result Z :=
  let '(digits, unit) := span_decimal value in
  amount ← context (parse_uint 64 digits) "invalid duration";
  if str_eqb unit (lit "ms") then Ok (amount * millis)
  else if str_eqb unit (lit "s") || str_eqb unit [] then Ok (amount * secs)
  else if str_eqb unit (lit "m") then Ok (saturating_mul_u64 amount 60 * secs)
  else if str_eqb unit (lit "h") then Ok (saturating_mul_u64 amount 3600 * secs)
  else if str_eqb unit (lit "d") then Ok (saturating_mul_u64 amount 86400 * secs)
  else Err "unsupported duration unit".

(** [default_udp_nat_max]: from the text of /proc/meminfo *)
Definition mem_total (line : str) : option Z :=
  rest ← strip_prefix (lit "MemTotal:") line;
  word ← head (split_whitespace rest);
  parse_uint 64 word.

Definition default_udp_nat_max (meminfo : option str) : Z :=
  match text ← meminfo; find_map mem_total (lines text) with
  | Some kibibytes => Z.max 4096 (Z.min (saturating_mul_u64 kibibytes 1024 / 16384) 16384)
  | None => 16384
  end.

Definition of_family (ipv6 : bool) (n : IpNet) : bool := eqb (is_ipv6 (ipnet_network n)) ipv6.

Definition family_count (ipv6 : bool) (l : list IpNet) : nat := length (List.filter (of_family ipv6) l).

(** How many policy rules a family needs. *)
Definition family_rules (inbound : Inbound) (ipv6 : bool) : nat :=
  let local_source_rules :=
    match inbound.(include_uid), inbound.(include_uid_range) with
    | [], [] => (family_count ipv6 inbound.(address) + 1)%nat
    | _, _ => (length inbound.(include_uid) + length inbound.(include_uid_range))%nat
    end in
  (family_count ipv6 inbound.(route_exclude_address) + length inbound.(exclude_uid) + length inbound.(exclude_uid_range)
   + length inbound.(exclude_interface) + 1 + local_source_rules + Nat.max (length inbound.(include_interface)) 1)%nat.

Definition is_nil {A} (l : list A) : bool := match l with [] => true | _ => false end.
Definition is_none {A} (o : option A) : bool := match o with None => true | _ => false end.

(** What the inbound must not ask for, in the order of the checks. *)
Definition refused (i : Inbound) : list (bool * string) :=
  [ (negb (str_eqb i.(in_type) (lit "tun")), "TUN configuration requires type=tun");
    (i.(in_auto_redirect) && negb i.(in_auto_route), "TUN auto_redirect requires auto_route");
    (i.(in_strict_route) && negb i.(in_auto_route), "TUN strict_route requires auto_route");
    ((negb (is_nil i.(route_address)) || negb (is_nil i.(route_exclude_address)) || negb (is_nil i.(include_interface))
      || negb (is_nil i.(exclude_interface)) || negb (is_nil i.(include_uid)) || negb (is_nil i.(exclude_uid))
      || negb (is_nil i.(include_uid_range)) || negb (is_nil i.(exclude_uid_range))) && negb i.(in_auto_route),
     "TUN route/interface/UID selectors require auto_route");
    (negb (is_nil i.(include_interface)) && negb (is_nil i.(exclude_interface)),
     "TUN include_interface and exclude_interface are mutually exclusive");
    ((negb (is_nil i.(include_uid)) || negb (is_nil i.(include_uid_range))) && negb i.(in_auto_redirect),
     "TUN include_uid requires auto_redirect so proxy-owned sockets can be marked for bypass");
    ((negb (is_nil i.(include_mac_address)) || negb (is_nil i.(exclude_mac_address))) && negb i.(in_auto_redirect),
     "TUN MAC filters require auto_redirect");
    (negb (is_nil i.(include_package)) || negb (is_nil i.(exclude_package)),
     "TUN package filters are Android-only and unavailable on Linux");
    (negb (is_nil i.(include_android_user)), "TUN include_android_user is Android-only and unavailable on Linux");
    (match i.(dns_mode) with Some m => negb (str_eqb m (lit "disabled")) | None => false end || negb (is_nil i.(dns_address)),
     "TUN dns_mode/dns_address is not implemented; use route DNS hijack rules");
    (negb (is_none i.(auto_redirect_reset_mark)) || negb (is_none i.(auto_redirect_nfqueue))
      || negb (is_none i.(auto_redirect_iproute2_fallback_rule_index)),
     "TUN NFQUEUE reset/fallback options do not apply to the native nftables mark path");
    (i.(exclude_mptcp), "TUN exclude_mptcp is not implemented");
    (negb (is_nil i.(loopback_address)), "TUN loopback_address remapping is not implemented");
    (negb (is_none i.(platform)), "TUN platform options are unavailable on native Linux");
    (i.(gso), "deprecated TUN gso option is not implemented");
    (i.(endpoint_independent_nat), "deprecated endpoint_independent_nat is not supported; use UDP mapping/filtering options");
    (negb (is_none i.(netns)), "TUN network namespace support is not implemented yet");
    (is_nil i.(address), "TUN inbound requires at least one address prefix");
    ((1 <? family_count false i.(address))%nat, "TUN device currently accepts at most one IPv4 address") ].

Fixpoint refuse (checks : list (bool * string)) : result unit :=
  match checks with
  | [] => Ok tt
  | (b, msg) :: checks => if b then Err msg else refuse checks
  end.

Definition DEFAULT_MTU : Z := 9000.

Definition from_inbound (meminfo : option str) (i : Inbound) : result TunConfig :=
  _ ← refuse (refused i);
  let mtu := default DEFAULT_MTU i.(in_mtu) in
  if negb (in_range mtu 1280 u16_max) then Err "TUN mtu must be between 1280 and 65535" else
  let stack := default (lit "mixed") i.(in_stack) in
  if negb (str_eqb stack (lit "mixed") || str_eqb stack (lit "gvisor") || str_eqb stack (lit "smoltcp"))
  then Err "unsupported TUN stack" else
  let table_index := default 2022 i.(iproute2_table_index) in
  if (table_index =? 0) || in_range table_index 253 255 then Err "TUN iproute2_table_index must be a non-reserved table number" else
  let rule_index := default 9000 i.(iproute2_rule_index) in
  if negb ((rule_index + 63 <? 2 ^ 32) && (rule_index + 63 <? 32766))
  then Err "TUN iproute2_rule_index leaves no room for managed rules" else
  if (64 <? family_rules i false)%nat || (64 <? family_rules i true)%nat
  then Err "TUN auto_route selectors exceed the 64-rule managed priority window" else
  let input_mark := default 0x2023 i.(auto_redirect_input_mark) in
  let output_mark := default 0x2024 i.(auto_redirect_output_mark) in
  if (input_mark =? 0) || (output_mark =? 0) || (input_mark =? output_mark)
  then Err "TUN auto_redirect input/output marks must be distinct and non-zero" else
  _ ← iter_result (λ mac, _ ← parse_mac mac; Ok tt) (i.(include_mac_address) ++ i.(exclude_mac_address));
  include_ranges ← parse_uid_ranges i.(include_uid_range);
  exclude_ranges ← parse_uid_ranges i.(exclude_uid_range);
  udp_timeout ← match i.(in_udp_timeout) with Some v => tun_duration v | None => Ok (300 * secs) end;
  if udp_timeout =? 0 then Err "TUN udp_timeout must be greater than zero" else
  let nat_max := match default 0 i.(in_udp_nat_max) with 0 => default_udp_nat_max meminfo | value => value end in
  mapping ← UdpNatBehavior_parse i.(in_udp_mapping);
  filtering ← UdpNatBehavior_parse i.(in_udp_filtering);
  Ok (mkTun (default (lit "xhttp0") i.(interface_name)) mtu i.(address) stack i.(in_auto_route) i.(in_auto_redirect)
    i.(in_strict_route) i.(route_address) i.(route_exclude_address)
    (negb (is_nil i.(route_address)) || negb (is_nil i.(route_address_set)))
    (negb (is_nil i.(route_exclude_address)) || negb (is_nil i.(route_exclude_address_set)))
    i.(include_interface) i.(exclude_interface) i.(include_uid) i.(exclude_uid) include_ranges exclude_ranges
    table_index rule_index input_mark output_mark i.(include_mac_address) i.(exclude_mac_address) [] udp_timeout
    mapping filtering nat_max).

End tun.
