(* ===== verification/TunRoutes.v ===== *)
(** * Routes and policy rules of the TUN device (src/src/tun_route_linux.rs)

    The plan of [ip] commands for a TUN configuration, and its installation,
    replacement and removal against a kernel that keeps the objects the commands
    name.  Tun.v says which configurations there are. *)

From S2P Require Import Prelude RustStr Net Util Sniff UdpNat Config Tun.

Record IpAction := mkAction { family : str; add : list str; delete_ : list str }.

#[export] Instance IpAction_eq_dec : EqDecision IpAction.
Proof. solve_decision. Defined.

Definition action_new (family object : str) (tail : list str) : IpAction :=
  mkAction family (object :: lit "add" :: tail) (object :: lit "del" :: tail).

Definition action_rule (family : str) (priority : Z) (selectors : list str) : IpAction :=
  action_new family (lit "rule") (lit "priority" :: print_uint priority :: selectors).

(** [{:x}] *)
Definition print_hex (n : Z) : str :=
  let fix digits (fuel : nat) (n : Z) (acc : str) : str :=
    match fuel with
    | O => acc
    | S fuel => if n <? 16 then hex_digit n :: acc else digits fuel (n / 16) (hex_digit (n mod 16) :: acc)
    end in
  digits 32%nat n [].

Definition next_priority (priority : Z) : result Z :=
  if (priority + 1 <? 2 ^ 32) && (priority + 1 <? 32766) then Ok (priority + 1)
  else Err "TUN policy rule priority overflow".

Section plan.
Context `{N : IpNetLib}.

Definition action_route (family : str) (prefix : IpNet) (interface : str) (table : Z) : IpAction :=
  action_new family (lit "route") [ipnet_print prefix; lit "dev"; interface; lit "table"; print_uint table].

(** [address.trunc().to_string()] *)
Definition trunc_text (n : IpNet) : str := print_ip (ipnet_network n) ++ lit "/" ++ print_uint (ipnet_prefix_len n).

(** A loop that pushes a rule for each item, at the next priority. *)
Fixpoint numbered (family : str) (priority : Z) (items : list (list str)) : result (list IpAction * Z) :=
  match items with
  | [] => Ok ([], priority)
  | selectors :: items =>
    next ← next_priority priority;
    '(actions, last) ← numbered family next items;
    Ok (action_rule family priority selectors :: actions, last)
  end.

(** ["::/0".parse()] and ["0.0.0.0/0".parse()], which must parse. *)
Definition default_route (ipv6 : bool) : result IpNet :=
  match ipnet_parse (if ipv6 then lit "::/0" else lit "0.0.0.0/0") with Some n => Ok n | None => Panic end.

Definition family_name (ipv6 : bool) : str := if ipv6 then lit "-6" else lit "-4".

Definition to_main (selectors : list str) : list str := selectors ++ [lit "lookup"; lit "main"].
Definition to_table (c : TunConfig) (selectors : list str) : list str := selectors ++ [lit "lookup"; print_uint c.(table_index)].
Definition uid_range (start end_ : Z) : list str := [lit "uidrange"; print_uint start ++ lit "-" ++ print_uint end_].

(** The rules that keep traffic out of the device, and those that send it there. *)
Definition exclude_selectors (c : TunConfig) (ipv6 : bool) : list (list str) :=
  ((λ prefix, to_main [lit "to"; ipnet_print prefix]) <$> List.filter (of_family ipv6) c.(route_exclude_addresses)) ++
  ((λ uid, to_main (uid_range uid uid)) <$> c.(exclude_uids)) ++
  ((λ '(start, end_), to_main (uid_range start end_)) <$> c.(exclude_uid_ranges)) ++
  ((λ interface, to_main [lit "iif"; interface]) <$> c.(exclude_interfaces)).

Definition local_selectors (c : TunConfig) (ipv6 : bool) : list (list str) :=
  match c.(include_uids), c.(include_uid_ranges) with
  | [], [] =>
    ((λ a, to_table c [lit "iif"; lit "lo"; lit "from"; trunc_text a]) <$> List.filter (of_family ipv6) c.(addresses)) ++
    [to_table c [lit "iif"; lit "lo"; lit "from"; if ipv6 then lit "::/128" else lit "0.0.0.0/32"]]
  | _, _ =>
    ((λ uid, to_table c (uid_range uid uid)) <$> c.(include_uids)) ++
    ((λ '(start, end_), to_table c (uid_range start end_)) <$> c.(include_uid_ranges))
  end.

Definition family_prefixes (c : TunConfig) (ipv6 : bool) : result (list IpNet) :=
  let routes := List.filter (of_family ipv6) c.(route_addresses) in
  if is_nil routes && negb c.(route_include_active) then '(n : IpNet) ← default_route ipv6; Ok [n] else Ok routes.

Definition family_routes (c : TunConfig) (ipv6 : bool) : result (list IpAction) :=
  routes ← family_prefixes c ipv6;
  Ok (map (λ r, action_route (family_name ipv6) r c.(t_interface_name) c.(table_index)) routes).

(** The additions stay below 2^32: [from_inbound] bounds the index. *)
Definition redirect_rules (c : TunConfig) (ipv6 : bool) : list IpAction :=
  let family := family_name ipv6 in
  [ action_rule family c.(rule_index)
      [lit "fwmark"; lit "0x" ++ print_hex c.(redirect_output_mark); lit "goto"; print_uint (wrapping_add 32 c.(rule_index) 2)];
    action_rule family (wrapping_add 32 c.(rule_index) 1)
      [lit "fwmark"; lit "0x" ++ print_hex c.(redirect_input_mark); lit "lookup"; print_uint c.(table_index)];
    action_rule family (wrapping_add 32 c.(rule_index) 2) [lit "nop"] ].

Definition suppress : list str := [lit "lookup"; lit "main"; lit "suppress_prefixlength"; lit "0"].

Definition build_family_actions (c : TunConfig) (ipv6 : bool) : result (list IpAction) :=
  let family := family_name ipv6 in
  routes ← family_routes c ipv6;
  if c.(auto_redirect) then Ok (routes ++ redirect_rules c ipv6) else
  '(excluded, priority) ← numbered family c.(rule_index) (exclude_selectors c ipv6);
  '(suppressed, priority) ← numbered family priority [suppress];
  '(local, priority) ← numbered family priority (local_selectors c ipv6);
  included ←
    match c.(include_interfaces) with
    | [] => Ok [action_rule family priority (to_table c [lit "not"; lit "iif"; lit "lo"])]
    | interfaces => '(actions, _) ← numbered family priority ((λ i, to_table c [lit "iif"; i]) <$> interfaces); Ok actions
    end;
  Ok (routes ++ excluded ++ suppressed ++ local ++ included).

Definition build_actions (c : TunConfig) : result (list IpAction) :=
  let has_v4 := existsb (of_family false) c.(addresses) in
  let has_v6 := existsb (of_family true) c.(addresses) in
  v4 ← (if has_v4 then build_family_actions c false else Ok []);
  v6 ← (if has_v6 then build_family_actions c true else Ok []);
  Ok (v4 ++ v6 ++
    (if c.(strict_route) then
       (if has_v4 then [] else [action_rule (lit "-4") c.(rule_index) [lit "unreachable"]]) ++
       (if has_v6 then [] else [action_rule (lit "-6") c.(rule_index) [lit "unreachable"]])
     else [])).

(** ** Priorities *)

(** The rules of a family, numbered from a start. *)
Fixpoint rules_from (family : str) (priority : Z) (items : list (list str)) : list IpAction :=
  match items with
  | [] => []
  | selectors :: items => action_rule family priority selectors :: rules_from family (priority + 1) items
  end.

Lemma next_priority_ok p : 0 ≤ p → p + 1 < 32766 → next_priority p = Ok (p + 1).
Proof. intros H0 H. unfold next_priority. by rewrite (proj2 (andb_true_iff _ _)) by (split; lia). Qed.

Lemma numbered_ok fam items : ∀ p, 0 ≤ p → p + Z.of_nat (length items) < 32766 →
  numbered fam p items = Ok (rules_from fam p items, p + Z.of_nat (length items)).
Proof.
  induction items as [|s items IH]; intros p H0 H; cbn [numbered rules_from length] in *; [by rewrite Z.add_0_r|].
  rewrite next_priority_ok by lia. cbn [mbind result_bind]. rewrite IH by lia. cbn [mbind result_bind]. do 2 f_equal. lia.
Qed.

Lemma rules_from_app fam a b : ∀ p, rules_from fam p (a ++ b) = rules_from fam p a ++ rules_from fam (p + Z.of_nat (length a)) b.
Proof.
  induction a as [|s a IH]; intros p; cbn [rules_from app length]; [by rewrite Z.add_0_r|]. rewrite IH. do 3 f_equal. lia.
Qed.

(** All the rules of a family, in order. *)
Definition selectors (c : TunConfig) (ipv6 : bool) : list (list str) :=
  exclude_selectors c ipv6 ++ [suppress] ++ local_selectors c ipv6 ++
  match c.(include_interfaces) with
  | [] => [to_table c [lit "not"; lit "iif"; lit "lo"]]
  | interfaces => (λ i, to_table c [lit "iif"; i]) <$> interfaces
  end.

(** The last rule needs no next priority when no interface is included. *)
Definition room (c : TunConfig) (ipv6 : bool) : Prop :=
  let n := Z.of_nat (length (selectors c ipv6)) in
  c.(rule_index) + n < 32766 ∨ c.(include_interfaces) = [] ∧ c.(rule_index) + n ≤ 32766.

Lemma build_family_ok c ipv6 routes :
  family_routes c ipv6 = Ok routes → c.(auto_redirect) = false → 0 ≤ c.(rule_index) → room c ipv6 →
  build_family_actions c ipv6 = Ok (routes ++ rules_from (family_name ipv6) c.(rule_index) (selectors c ipv6)).
Proof.
  intros Hr Ha H0 Hroom. unfold build_family_actions. rewrite Hr, Ha. cbn [mbind result_bind].
  unfold room, selectors in *. rewrite !length_app, !Nat2Z.inj_add in Hroom.
  set (ex := exclude_selectors c ipv6) in *. set (loc := local_selectors c ipv6) in *.
  change (Z.of_nat (length [suppress])) with 1 in Hroom.
  assert (Hlast : (0 < length (match c.(include_interfaces) with
    | [] => [to_table c [lit "not"; lit "iif"; lit "lo"]]
    | interfaces => (λ i, to_table c [lit "iif"; i]) <$> interfaces end))%nat).
  { destruct c.(include_interfaces); cbn; lia. }
  rewrite numbered_ok by lia. cbn [mbind result_bind]. rewrite numbered_ok by (cbn [length]; lia). cbn [mbind result_bind].
  change (Z.of_nat (length [suppress])) with 1.
  rewrite numbered_ok by lia. cbn [mbind result_bind]. rewrite !rules_from_app.
  change (Z.of_nat (length [suppress])) with 1.
  destruct c.(include_interfaces) as [|i ifs] eqn:Ei; [done|].
  rewrite numbered_ok by (destruct Hroom as [?|[? _]]; [lia|done]). done.
Qed.


(** The priority an action gives its rule, read from its text. *)
Definition rule_priority (a : IpAction) : option Z :=
  match a.(add) with
  | object :: _ :: _ :: p :: _ => if str_eqb object (lit "rule") then parse_uint 32 p else None
  | _ => None
  end.

Definition priorities (fam : str) (actions : list IpAction) : list Z :=
  omap rule_priority (List.filter (λ a, str_eqb a.(family) fam) actions).

Lemma priorities_app fam a b : priorities fam (a ++ b) = priorities fam a ++ priorities fam b.
Proof. unfold priorities. by rewrite List.filter_app, omap_app. Qed.

Lemma rule_priority_rule fam p sel : 0 ≤ p < 2 ^ 32 → rule_priority (action_rule fam p sel) = Some p.
Proof.
  intros Hp. unfold rule_priority, action_rule, action_new. cbn [add].
  change (str_eqb (lit "rule") (lit "rule")) with true. cbv iota. apply parse_print_uint; [lia|unfold uint; lia].
Qed.

Lemma priorities_rule fam f p sel : 0 ≤ p < 2 ^ 32 →
  priorities fam [action_rule f p sel] = if str_eqb f fam then [p] else [].
Proof.
  intros Hp. unfold priorities. cbn [List.filter]. change (family (action_rule f p sel)) with f.
  destruct (str_eqb f fam); cbn [omap list_omap]; [by rewrite rule_priority_rule|done].
Qed.

Lemma priorities_rules fam f items : ∀ p, 0 ≤ p → p + Z.of_nat (length items) ≤ 2 ^ 32 →
  priorities fam (rules_from f p items) = if str_eqb f fam then seqZ p (Z.of_nat (length items)) else [].
Proof.
  induction items as [|s items IH]; intros p H0 H; cbn [rules_from length] in *; [by destruct (str_eqb f fam)|].
  change (action_rule f p s :: rules_from f (p + 1) items) with ([action_rule f p s] ++ rules_from f (p + 1) items).
  rewrite priorities_app, priorities_rule, IH by lia.
  destruct (str_eqb f fam); [|done]. rewrite Nat2Z.inj_succ, (seqZ_cons p) by lia.
  rewrite Z.pred_succ, <- Z.add_1_r. done.
Qed.

Lemma priorities_routes c ipv6 routes fam : family_routes c ipv6 = Ok routes → priorities fam routes = [].
Proof.
  unfold family_routes. intros H. apply bind_Ok in H as (l & _ & H). apply Ok_inj in H. subst routes.
  induction l as [|r l IH]; [done|]. cbn [map]. unfold priorities in *. cbn [List.filter].
  destruct (str_eqb _ fam); [|exact IH]. cbn [omap list_omap]. exact IH.
Qed.

(** ** The plan of an accepted configuration fits the window *)

Definition accepted_fields (i : Inbound) (c : TunConfig) : Prop :=
  c.(rule_index) + 63 < 32766 ∧ (family_rules i false ≤ 64)%nat ∧ (family_rules i true ≤ 64)%nat ∧
  c.(addresses) = i.(address) ∧ c.(route_exclude_addresses) = i.(route_exclude_address) ∧
  c.(include_uids) = i.(include_uid) ∧ c.(exclude_uids) = i.(exclude_uid) ∧
  length c.(include_uid_ranges) = length i.(include_uid_range) ∧
  length c.(exclude_uid_ranges) = length i.(exclude_uid_range) ∧
  c.(include_interfaces) = i.(include_interface) ∧ c.(exclude_interfaces) = i.(exclude_interface).

Lemma length_parse_uid_ranges l r : parse_uid_ranges l = Ok r → length r = length l.
Proof. intros H. apply map_result_Ok in H. symmetry. by eapply Forall2_length. Qed.

Lemma from_inbound_accepted m i c : from_inbound m i = Ok c → accepted_fields i c.
Proof.
  unfold from_inbound. intros H. apply bind_Ok in H as (_ & _ & H). cbv zeta in H.
  destruct (negb (in_range _ _ _)); [done|]. destruct (negb (_ || _ || _)); [done|].
  destruct (_ || in_range _ 253 255); [done|].
  destruct (negb ((_ <? 2 ^ 32) && _)) eqn:Er; [done|].
  destruct ((64 <? family_rules i false)%nat || _) eqn:Ef; [done|].
  destruct ((_ =? 0) || _ || _); [done|].
  apply bind_Ok in H as (_ & _ & H). apply bind_Ok in H as (inc & Hi & H). apply bind_Ok in H as (exc & He & H).
  apply bind_Ok in H as (t & _ & H). destruct (t =? 0); [done|].
  apply bind_Ok in H as (mp & _ & H). apply bind_Ok in H as (fl & _ & H). apply Ok_inj in H. subst c.
  apply length_parse_uid_ranges in Hi, He. bool_to_prop. unfold accepted_fields. cbn.
  apply Nat.ltb_ge in H0, H1 || idtac. repeat split; try done; lia.
Qed.

Lemma length_selectors i c ipv6 : accepted_fields i c → length (selectors c ipv6) = family_rules i ipv6.
Proof.
  intros (_ & _ & _ & Ha & Hx & Hu & Hxu & Hr & Hxr & Hif & Hxi).
  unfold selectors, exclude_selectors, family_rules, family_count.
  rewrite !length_app, !length_fmap, Hx, Hxu, Hxr, Hxi. cbn [length].
  assert (length (local_selectors c ipv6) =
    match i.(include_uid), i.(include_uid_range) with
    | [], [] => (length (List.filter (of_family ipv6) i.(address)) + 1)%nat
    | _, _ => (length i.(include_uid) + length i.(include_uid_range))%nat
    end) as ->.
  { unfold local_selectors. rewrite Hu, Ha. rewrite <- Hr. destruct i.(include_uid), i.(include_uid_range), c.(include_uid_ranges);
      try discriminate; rewrite !length_app, ?length_fmap; reflexivity. }
  rewrite <- Hif. set (local := match i.(include_uid) with [] => _ | _ => _ end). clearbody local.
  destruct c.(include_interfaces) as [|a l]; rewrite ?length_fmap; cbn [length]; lia.
Qed.

(** The documented behaviour of the crate: the default routes parse. *)
Definition default_routes_parse : Prop :=
  is_Some (ipnet_parse (lit "0.0.0.0/0")) ∧ is_Some (ipnet_parse (lit "::/0")).

Lemma family_routes_ok c ipv6 : default_routes_parse → ∃ routes, family_routes c ipv6 = Ok routes.
Proof.
  intros [[n4 H4] [n6 H6]]. unfold family_routes, family_prefixes, default_route.
  destruct (is_nil _ && _); [|eexists; reflexivity].
  destruct ipv6; rewrite ?H4, ?H6; eexists; reflexivity.
Qed.

(** The rules of one family are numbered from the start, without gaps. *)
Definition numbered_rules (c : TunConfig) (ipv6 : bool) (acts : list IpAction) : Prop :=
  ∃ n, 0 ≤ n ≤ 64 ∧ ∀ fam, priorities fam acts = if str_eqb (family_name ipv6) fam then seqZ c.(rule_index) n else [].

Lemma redirect_priorities c ipv6 fam : 0 ≤ c.(rule_index) → c.(rule_index) + 63 < 32766 →
  priorities fam (redirect_rules c ipv6) = if str_eqb (family_name ipv6) fam then seqZ c.(rule_index) 3 else [].
Proof.
  intros H0 H. unfold redirect_rules, wrapping_add. rewrite !Z.mod_small by lia.
  rewrite (seqZ_cons _ 3), (seqZ_cons _ (Z.pred 3)), (seqZ_cons _ (Z.pred (Z.pred 3))) by lia.
  rewrite <- !Z.add_1_r, <- Z.add_assoc. change (1 + 1) with 2.
  match goal with |- priorities fam [?a; ?b; ?c] = _ => change [a; b; c] with ([a] ++ [b] ++ [c]) end.
  rewrite !priorities_app, !priorities_rule by lia. by destruct (str_eqb _ fam).
Qed.

Lemma build_family_numbered i c ipv6 :
  accepted_fields i c → default_routes_parse → 0 ≤ c.(rule_index) →
  c.(rule_index) < 32702 ∨ c.(include_interfaces) = [] →
  ∃ acts, build_family_actions c ipv6 = Ok acts ∧ numbered_rules c ipv6 acts.
Proof.
  intros Hacc Hdef H0 Hedge. destruct (family_routes_ok c ipv6 Hdef) as [routes Hr].
  assert (Hlen := length_selectors i c ipv6 Hacc). destruct Hacc as (Hi & Hf4 & Hf6 & _).
  destruct c.(auto_redirect) eqn:Ea.
  - exists (routes ++ redirect_rules c ipv6). unfold build_family_actions. rewrite Hr, Ea. split; [done|].
    exists 3. split; [lia|]. intros fam. by rewrite priorities_app, (priorities_routes c ipv6), redirect_priorities.
  - assert (length (selectors c ipv6) ≤ 64)%nat by (destruct ipv6; lia).
    rewrite (build_family_ok c ipv6 routes Hr Ea H0) by (unfold room; destruct Hedge; [left|right]; split_and?; (done || lia)).
    eexists. split; [done|]. exists (Z.of_nat (length (selectors c ipv6))). split; [lia|]. intros fam.
    by rewrite priorities_app, (priorities_routes c ipv6), priorities_rules by (done || lia).
Qed.

(** C25: the policy rules of a TUN configuration that [from_inbound] accepts fit the
    managed window: building the plan succeeds, and in each address family the rules have
    the priorities from [rule_index] on, one each and without gaps, at most 64 of them.
    The last index, 32702, is left out when interfaces are included ([window_edge]), and
    the prefixes are those of the configuration: what [route_exclude_address_set] adds
    later may leave the window ([TunRun.sets_leave_window]). *)
Theorem plan_fits_window meminfo i c :
  from_inbound meminfo i = Ok c → default_routes_parse → 0 ≤ c.(rule_index) →
  c.(rule_index) < 32702 ∨ c.(include_interfaces) = [] →
  ∃ acts, build_actions c = Ok acts ∧
    ∀ ipv6, ∃ n, 0 ≤ n ≤ 64 ∧ priorities (family_name ipv6) acts = seqZ c.(rule_index) n.
Proof.
  intros H Hdef H0 Hedge. apply from_inbound_accepted in H.
  destruct (build_family_numbered i c false H Hdef H0 Hedge) as (a4 & E4 & n4 & Hn4 & P4).
  destruct (build_family_numbered i c true H Hdef H0 Hedge) as (a6 & E6 & n6 & Hn6 & P6).
  destruct H as (Hi & _). unfold build_actions. rewrite E4, E6.
  assert (Hone : seqZ c.(rule_index) 1 = [c.(rule_index)]) by (by rewrite seqZ_cons by lia).
  assert (Hu : ∀ f fam, priorities fam [action_rule f c.(rule_index) [lit "unreachable"]] =
    if str_eqb f fam then seqZ c.(rule_index) 1 else []).
  { intros f fam. rewrite priorities_rule by lia. by rewrite Hone. }
  destruct (existsb (of_family false) _), (existsb (of_family true) _), c.(strict_route);
    (eexists; split; [reflexivity|]); intros [|];
    rewrite ?priorities_app, ?P4, ?P6, ?Hu; cbn -[seqZ]; rewrite ?app_nil_r;
    first [by exists n4|by exists n6|by exists 1; split; [lia|]|by exists 0; split; [lia|]].
Qed.

End plan.

(** ** The edge of the window *)

Module Edge.

#[local] Existing Instance Cidr.lib.

Definition inbound (rule : option Z) (interfaces : list str) : Inbound :=
  mkInbound (lit "tun") None None None [] None None [] None None None [(V4 2886926337, 30)] None [] None true false
    None None None None None false [] true None rule [] [] [] [] interfaces [] [] [] [] [] [] [] [] [] [] false
    None None None None None false.

(** The configuration an inbound yields, or an empty one. *)
Definition accepted (i : Inbound) : TunConfig :=
  match from_inbound None i with
  | Ok c => c
  | _ => mkTun [] 0 [] [] false false false [] [] false false [] [] [] [] [] [] 0 0 0 0 [] [] [] 0
           EndpointIndependent EndpointIndependent 0
  end.

Lemma accepted_ok i : match from_inbound None i with Ok _ => true | _ => false end = true → from_inbound None i = Ok (accepted i).
Proof. unfold accepted. by destruct (from_inbound None i). Qed.

Definition edge : Inbound := inbound (Some 32702) (replicate 61 (lit "lan")).
Definition lan : Inbound := inbound None [lit "lan"; lit "wifi"].

(** Accepted at the last index with 64 rules, the last of them for an interface: the
    plan asks for a priority after the last and fails. *)
Lemma window_edge :
  from_inbound None edge = Ok (accepted edge) ∧ build_actions (accepted edge) = Err "TUN policy rule priority overflow".
Proof. split; [apply accepted_ok|]; vm_compute; reflexivity. Qed.

End Edge.

(** The window of a configuration with two interfaces: five rules from 9000 on. *)
Lemma plan_fits_window_witness :
  ∃ acts, build_actions (N := Cidr.lib) (Edge.accepted Edge.lan) = Ok acts ∧ priorities (lit "-4") acts = seqZ 9000 5 ∧
    ∀ ipv6, ∃ n, 0 ≤ n ≤ 64 ∧ priorities (family_name ipv6) acts = seqZ 9000 n.
Proof.
  assert (H : from_inbound (N := Cidr.lib) None Edge.lan = Ok (Edge.accepted Edge.lan))
    by (apply Edge.accepted_ok; vm_compute; reflexivity).
  destruct (plan_fits_window None _ (Edge.accepted Edge.lan) H) as (acts & E & P).
  - split; eexists; vm_compute; reflexivity.
  - vm_compute. discriminate.
  - left. vm_compute. reflexivity.
  - exists acts. split; [exact E|]. split; [|exact P].
    assert (Hc : match build_actions (N := Cidr.lib) (Edge.accepted Edge.lan) with Ok a => priorities (lit "-4") a | _ => [] end = seqZ 9000 5)
      by (vm_compute; reflexivity).
    by rewrite E in Hc.
Defined.

(** ** Installation *)

(** What the kernel keeps: routes and rules, by family and description. *)
Abbreviation object := (str * list str)%type.

(** An [ip] process: not started, or its success and its error output as text. *)
Inductive outcome := NotRun | Exit (success : bool) (stderr : str).

Class IpRoute := {
  Kernel : Type;
  ip : Kernel → str → list str → Kernel * outcome;
  objects : Kernel → gset object;
}.

(** The messages that say that there was nothing to remove. *)
Definition nothing_there (message : str) : bool :=
  contains (lit "Cannot find device") message || contains (lit "No such process") message ||
  contains (lit "No such file or directory") message || contains (lit "FIB table does not exist") message.

(** iproute2: a command that fails changes nothing; [add] fails on an object that is
    there; [del] removes the object, and says so when there is none. *)
Class IpRouteLaws (I : IpRoute) := {
  ip_add k fam kind tail :
    match ip k fam (kind :: lit "add" :: tail) with
    | (k', Exit true _) => ((fam, kind :: tail) ∉ objects k) ∧ objects k' = {[(fam, kind :: tail)]} ∪ objects k
    | (k', _) => objects k' = objects k
    end;
  ip_del k fam kind tail :
    match ip k fam (kind :: lit "del" :: tail) with
    | (k', Exit true _) => objects k' = objects k ∖ {[(fam, kind :: tail)]}
    | (k', Exit false message) =>
      objects k' = objects k ∧ (nothing_there (trim message) = true → (fam, kind :: tail) ∉ objects k)
    | (k', NotRun) => objects k' = objects k
    end;
}.

Section installation.
Context `{N : IpNetLib} `{I : IpRoute}.

Definition run_ip (k : Kernel) (family : str) (arguments : list str) : Kernel * result unit :=
  match ip k family arguments with
  | (k, NotRun) => (k, Err "execute iproute2")
  | (k, Exit true _) => (k, Ok tt)
  | (k, Exit false _) => (k, Err "iproute2 exited")
  end.

Definition run_ip_delete (k : Kernel) (family : str) (arguments : list str) : Kernel * result unit :=
  match ip k family arguments with
  | (k, NotRun) => (k, Err "execute iproute2 cleanup")
  | (k, Exit true _) => (k, Ok tt)
  | (k, Exit false stderr) =>
    if nothing_there (trim stderr) then (k, Ok tt) else (k, Err "iproute2 cleanup exited")
  end.

(** A loop of removals that stops at the first failure. *)
Fixpoint delete_all (k : Kernel) (actions : list IpAction) : Kernel * result unit :=
  match actions with
  | [] => (k, Ok tt)
  | a :: actions =>
    match run_ip_delete k a.(family) a.(delete_) with
    | (k, Ok _) => delete_all k actions
    | (k, e) => (k, e)
    end
  end.

(** A loop of commands whose results are dropped. *)
Definition try_delete (k : Kernel) (actions : list IpAction) : Kernel :=
  foldl (λ k a, fst (run_ip_delete k a.(family) a.(delete_))) k actions.
Definition try_add (k : Kernel) (actions : list IpAction) : Kernel :=
  foldl (λ k a, fst (run_ip k a.(family) a.(add))) k actions.

(** [Drop for LinuxTunRoutes] *)
Definition drop_routes (k : Kernel) (installed : list IpAction) : Kernel := try_delete k (rev installed).

(** The additions of [install]: the guard is dropped when one fails. *)
Fixpoint install_all (k : Kernel) (installed actions : list IpAction) : Kernel * result (list IpAction) :=
  match actions with
  | [] => (k, Ok installed)
  | a :: actions =>
    match run_ip k a.(family) a.(add) with
    | (k, Ok _) => install_all k (installed ++ [a]) actions
    | (k, _) => (drop_routes k installed, Err "install TUN route action")
    end
  end.

Definition install (k : Kernel) (c : TunConfig) : Kernel * result (list IpAction) :=
  match build_actions c with
  | Ok actions =>
    match delete_all k (rev actions) with
    | (k, Ok _) => install_all k [] actions
    | (k, _) => (k, Err "remove stale TUN route action")
    end
  | e => (k, e)
  end.

(** The additions of [replace], which undo themselves when one fails. *)
Fixpoint add_all (k : Kernel) (removed done added : list IpAction) : Kernel * result unit :=
  match added with
  | [] => (k, Ok tt)
  | a :: added =>
    match run_ip k a.(family) a.(add) with
    | (k, Ok _) => add_all k removed (done ++ [a]) added
    | (k, _) => (try_add (try_delete k (rev done)) removed, Err "replace TUN rule-set routes")
    end
  end.

Definition replace (k : Kernel) (installed : list IpAction) (c : TunConfig) : Kernel * list IpAction * result unit :=
  match build_actions c with
  | Ok next =>
    let removed := List.filter (λ a, negb (bool_decide (a ∈ next))) installed in
    let added := List.filter (λ a, negb (bool_decide (a ∈ installed))) next in
    match delete_all k (rev removed) with
    | (k, Ok _) =>
      match add_all k removed [] added with
      | (k, Ok _) => (k, next, Ok tt)
      | (k, e) => (k, installed, e)
      end
    | (k, e) => (k, installed, e)
    end
  | Err e => (k, installed, Err e)
  | Panic => (k, installed, Panic)
  | Diverge => (k, installed, Diverge)
  end.

End installation.

(** ** What installation leaves behind *)

Section installed.
Context `{N : IpNetLib} `{I : IpRoute} `{L : !IpRouteLaws I}.

Definition obj (a : IpAction) : object :=
  (a.(family), match a.(add) with kind :: _ :: tail => kind :: tail | l => l end).

Definition objs (l : list IpAction) : gset object := list_to_set (obj <$> l).

Definition built (a : IpAction) : Prop := ∃ fam kind tail, a = action_new fam kind tail.

(** Removals do not fail. *)
Definition deletes_work : Prop := ∀ k a, built a → snd (run_ip_delete k a.(family) a.(delete_)) = Ok tt.

(** What could be added once can be added again when it is not there. *)
Definition addable (a : IpAction) : Prop :=
  ∀ k, obj a ∉ objects k → snd (run_ip k a.(family) a.(add)) = Ok tt.
Definition steady : Prop := ∀ a k, built a → snd (run_ip k a.(family) a.(add)) = Ok tt → addable a.

Lemma obj_inj a b : built a → built b → obj a = obj b → a = b.
Proof. intros (f & kd & t & ->) (f' & kd' & t' & ->). unfold obj, action_new. cbn. by intros [= -> -> ->]. Qed.

Lemma elem_of_objs o l : o ∈ objs l ↔ ∃ a, o = obj a ∧ a ∈ l.
Proof. unfold objs. rewrite elem_of_list_to_set, list_elem_of_fmap. done. Qed.

Lemma objs_cons a l : objs (a :: l) = {[obj a]} ∪ objs l.
Proof. done. Qed.

Lemma objs_app a b : objs (a ++ b) = objs a ∪ objs b.
Proof. unfold objs. by rewrite fmap_app, list_to_set_app_L. Qed.

Lemma objs_rev l : objs (rev l) = objs l.
Proof. apply set_eq. intros o. rewrite !elem_of_objs. setoid_rewrite list_elem_of_In. by setoid_rewrite <- in_rev. Qed.

Lemma run_ip_spec k a : built a →
  match run_ip k a.(family) a.(add) with
  | (k', Ok _) => (obj a ∉ objects k) ∧ objects k' = {[obj a]} ∪ objects k
  | (k', _) => objects k' = objects k
  end.
Proof.
  intros (fam & kind & tail & ->). unfold run_ip, action_new, obj. cbn [family add].
  assert (H := ip_add k fam kind tail). by destruct (ip k fam _) as [k' [|[] m]].
Qed.

Lemma run_delete_spec k a : deletes_work → built a →
  ∃ k', run_ip_delete k a.(family) a.(delete_) = (k', Ok tt) ∧ objects k' = objects k ∖ {[obj a]}.
Proof.
  intros Hd (fam & kind & tail & ->). assert (Hok := Hd k (action_new fam kind tail) ltac:(by repeat eexists)). revert Hok.
  unfold run_ip_delete, action_new, obj. cbn [family add delete_].
  assert (H := ip_del k fam kind tail). destruct (ip k fam _) as [k' [|[] m]]; [done|by exists k'|].
  destruct (nothing_there (trim m)); [|done]. intros _. exists k'. split; [done|]. destruct H as [-> H]. set_solver.
Qed.

Lemma delete_all_spec l : deletes_work → Forall built l → ∀ k,
  ∃ k', delete_all k l = (k', Ok tt) ∧ objects k' = objects k ∖ objs l.
Proof.
  intros Hd. induction 1 as [|a l Ha _ IH]; intros k; cbn [delete_all].
  { exists k. split; [done|]. unfold objs. set_solver. }
  destruct (run_delete_spec k a Hd Ha) as (k1 & -> & E). destruct (IH k1) as (k' & -> & E').
  exists k'. split; [done|]. rewrite E', E, objs_cons. set_solver.
Qed.

Lemma try_delete_spec l : deletes_work → Forall built l → ∀ k, objects (try_delete k l) = objects k ∖ objs l.
Proof.
  intros Hd. induction 1 as [|a l Ha _ IH]; intros k; cbn; [unfold objs; set_solver|].
  change (objects (try_delete (fst (run_ip_delete k a.(family) a.(delete_))) l) = objects k ∖ objs (a :: l)).
  destruct (run_delete_spec k a Hd Ha) as (k1 & -> & E). cbn [fst]. rewrite IH, E, objs_cons. set_solver.
Qed.

Lemma try_add_spec l : Forall built l → Forall addable l → ∀ k, objects (try_add k l) = objects k ∪ objs l.
Proof.
  intros Hb Ha. induction l as [|a l IH]; intros k; [cbn; unfold objs; set_solver|].
  apply Forall_cons in Hb as [Hb1 Hb]. apply Forall_cons in Ha as [Ha1 Ha]. specialize (IH Hb Ha).
  change (objects (try_add (fst (run_ip k a.(family) a.(add))) l) = objects k ∪ objs (a :: l)).
  rewrite IH, objs_cons. assert (H := run_ip_spec k a Hb1). specialize (Ha1 k).
  destruct (run_ip k a.(family) a.(add)) as [k' [u|e| |]]; cbn in *;
    [destruct H as [_ ->]; set_solver|..];
    (destruct (decide (obj a ∈ objects k)); [rewrite H; set_solver|by specialize (Ha1 ltac:(done))]).
Qed.

(** Every action of a plan adds and removes the same object. *)
Lemma numbered_built fam items : ∀ p l q, numbered fam p items = Ok (l, q) → Forall built l.
Proof.
  induction items as [|sel items IH]; intros p l q H; cbn [numbered] in H; [apply Ok_inj in H; by injection H as <- <-|].
  apply bind_Ok in H as (next & _ & H). apply bind_Ok in H as ([acts last] & Hn & H).
  apply Ok_inj in H. injection H as <- <-. constructor; [by repeat eexists|by eapply IH].
Qed.

Lemma build_family_built c ipv6 acts : build_family_actions c ipv6 = Ok acts → Forall built acts.
Proof.
  unfold build_family_actions. intros H. apply bind_Ok in H as (routes & Hr & H).
  assert (Hroutes : Forall built routes).
  { unfold family_routes in Hr. apply bind_Ok in Hr as (l & _ & Hr). apply Ok_inj in Hr. subst routes.
    apply Forall_fmap, Forall_true. intros r. by repeat eexists. }
  destruct c.(auto_redirect).
  { apply Ok_inj in H. subst acts. apply Forall_app. split; [done|]. repeat (constructor; [by repeat eexists|]). constructor. }
  apply bind_Ok in H as ([ex p1] & H1 & H). apply bind_Ok in H as ([su p2] & H2 & H). apply bind_Ok in H as ([lo p3] & H3 & H).
  apply bind_Ok in H as (inc & H4 & H). apply Ok_inj in H. subst acts.
  apply numbered_built in H1, H2, H3. rewrite !Forall_app. split_and!; [done..|].
  destruct c.(include_interfaces).
  - apply Ok_inj in H4. subst inc. constructor; [by repeat eexists|constructor].
  - apply bind_Ok in H4 as ([a p] & H4 & H5). apply Ok_inj in H5. subst inc. by apply numbered_built in H4.
Qed.

Lemma build_actions_built c acts : build_actions c = Ok acts → Forall built acts.
Proof.
  unfold build_actions. intros H. apply bind_Ok in H as (v4 & H4 & H). apply bind_Ok in H as (v6 & H6 & H).
  apply Ok_inj in H. subst acts. rewrite !Forall_app. split_and!.
  - destruct (existsb _ _); [by eapply build_family_built|apply Ok_inj in H4; by subst v4].
  - destruct (existsb (of_family true) _); [by eapply build_family_built|apply Ok_inj in H6; by subst v6].
  - destruct c.(strict_route); [|constructor]. apply Forall_app.
    split; [destruct (existsb (of_family false) _)|destruct (existsb (of_family true) _)];
      first [apply Forall_nil_2|apply Forall_singleton; by repeat eexists].
Qed.

Lemma objs_filter l next : Forall built l → Forall built next →
  objs (List.filter (λ a, negb (bool_decide (a ∈ next))) l) = objs l ∖ objs next.
Proof.
  rewrite !Forall_forall. intros Hl Hn. apply set_eq. intros o. rewrite elem_of_difference, !elem_of_objs.
  setoid_rewrite list_elem_of_In. setoid_rewrite List.filter_In. setoid_rewrite negb_true_iff.
  setoid_rewrite bool_decide_eq_false. setoid_rewrite <- list_elem_of_In. split.
  - intros (a & -> & Ha & Hna). split; [by exists a|]. intros (b & E & Hb). apply Hna.
    by rewrite (obj_inj a b (Hl a Ha) (Hn b Hb) E).
  - intros [(a & -> & Ha) Hna]. exists a. split_and!; [done..|]. intros Hb. apply Hna. by exists a.
Qed.

Lemma install_all_spec actions : deletes_work → steady → ∀ k installed, Forall built installed → Forall built actions →
  match install_all k installed actions with
  | (k', Ok all) => all = installed ++ actions ∧ objects k' = objects k ∪ objs actions ∧ objs actions ## objects k ∧ Forall addable actions
  | (k', _) => objects k' = objects k ∖ objs installed
  end.
Proof.
  intros Hd Hs. induction actions as [|a actions IH]; intros k installed Hi Ha; cbn [install_all].
  { rewrite app_nil_r. unfold objs. split_and!; [done|set_solver|set_solver|constructor]. }
  apply Forall_cons in Ha as [Ha1 Ha]. assert (H := run_ip_spec k a Ha1). specialize (Hs a k Ha1).
  destruct (run_ip k a.(family) a.(add)) as [k1 [u|e| |]];
    [|unfold drop_routes; rewrite try_delete_spec, objs_rev by (done || by apply Forall_rev); by rewrite H..].
  destruct H as [Hout Hin]. destruct u. specialize (Hs eq_refl).
  specialize (IH k1 (installed ++ [a])). destruct (install_all k1 _ actions) as [k2 [all|e| |]];
    [destruct IH as (-> & E & Hdis & Hadd); [by apply Forall_app; split; [|constructor]|done|]|
     rewrite IH by (done || by apply Forall_app; split; [|constructor]); rewrite Hin, objs_app, objs_cons; set_solver..].
  rewrite <- app_assoc, E, Hin, objs_cons. split_and!; [done|set_solver|set_solver|by constructor].
Qed.

Lemma add_all_spec removed added : deletes_work → steady → Forall built removed → Forall addable removed →
  ∀ k dn, Forall built dn → Forall built added →
  match add_all k removed dn added with
  | (k', Ok _) => objects k' = objects k ∪ objs added ∧ objs added ## objects k ∧ Forall addable added
  | (k', _) => objects k' = (objects k ∖ objs dn) ∪ objs removed
  end.
Proof.
  intros Hd Hs Hr Hra. induction added as [|a added IH]; intros k dn Hdn Ha; cbn [add_all].
  { unfold objs. split_and!; [set_solver|set_solver|constructor]. }
  apply Forall_cons in Ha as [Ha1 Ha]. assert (H := run_ip_spec k a Ha1). specialize (Hs a k Ha1).
  destruct (run_ip k a.(family) a.(add)) as [k1 [u|e| |]];
    [|rewrite try_add_spec, try_delete_spec, objs_rev by (done || by apply Forall_rev); by rewrite H..].
  destruct H as [Hout Hin]. destruct u. specialize (Hs eq_refl).
  assert (Hdn' : Forall built (dn ++ [a])) by (apply Forall_app; split; [done|by apply Forall_singleton]).
  specialize (IH k1 (dn ++ [a]) Hdn' Ha). destruct (add_all k1 removed _ added) as [k2 [u|e| |]];
    [destruct IH as (E & Hdis & Hadd)|rewrite IH, Hin, objs_app, objs_cons; unfold objs; set_solver..].
  rewrite E, Hin, objs_cons. split_and!; [set_solver|set_solver|by constructor].
Qed.

(** What the guard owns: the objects it installed, apart from those of others. *)
Definition owns (base : gset object) (k : Kernel) (installed : list IpAction) : Prop :=
  objects k = base ∪ objs installed ∧ base ## objs installed ∧ Forall built installed ∧ Forall addable installed.

Lemma Forall_List_filter {A} (P : A → Prop) f l : Forall P l → Forall P (List.filter f l).
Proof. induction 1; cbn; [constructor|]. destruct (f _); [by constructor|done]. Qed.

Lemma sets_restored (B I' N' : gset object) : (B ∪ I') ∖ (I' ∖ N') ∖ ∅ ∪ I' ∖ N' = B ∪ I'.
Proof. apply set_eq. intros o. destruct (decide (o ∈ N')), (decide (o ∈ I')); set_solver. Qed.

Lemma sets_swapped (B I' N' : gset object) : B ## I' → N' ∖ I' ## (B ∪ I') ∖ (I' ∖ N') →
  (B ∪ I') ∖ (I' ∖ N') ∪ N' ∖ I' = B ∪ N' ∧ B ## N'.
Proof.
  intros H1 H2. split.
  - apply set_eq. intros o. destruct (decide (o ∈ N')), (decide (o ∈ I')); set_solver.
  - apply elem_of_disjoint. intros o. destruct (decide (o ∈ I')); set_solver.
Qed.

(** The plan took over, or nothing changed. *)
Lemma replace_owns base k installed c : deletes_work → steady → owns base k installed →
  match replace k installed c with
  | (k', installed', Ok _) => build_actions c = Ok installed' ∧ owns base k' installed'
  | (k', installed', _) => installed' = installed ∧ objects k' = objects k
  end.
Proof.
  intros Hd Hs (Hk & Hdis & Hb & Ha). unfold replace.
  destruct (build_actions c) as [next|e| |] eqn:En; [|done..]. assert (Hn := build_actions_built c next En).
  set (removed := List.filter (λ a, negb (bool_decide (a ∈ next))) installed).
  set (added := List.filter (λ a, negb (bool_decide (a ∈ installed))) next).
  assert (Er : objs removed = objs installed ∖ objs next) by (by apply objs_filter).
  assert (Ead : objs added = objs next ∖ objs installed) by (by apply objs_filter).
  destruct (delete_all_spec (rev removed) Hd) with (k := k) as (k1 & -> & E1); [by apply Forall_rev, Forall_List_filter|].
  rewrite objs_rev, Er, Hk in E1.
  assert (H := add_all_spec removed added Hd Hs (Forall_List_filter _ _ _ Hb) (Forall_List_filter _ _ _ Ha) k1 []
    (Forall_nil_2 _) (Forall_List_filter _ _ _ Hn)).
  destruct (add_all k1 removed [] added) as [k2 [u|e| |]];
    [|split; [done|]; rewrite H, Hk, E1, Er; apply sets_restored..].
  destruct H as (E2 & Hd2 & Hadd). rewrite Ead, E1 in *. destruct (sets_swapped _ _ _ Hdis Hd2) as [E3 Hdis'].
  split; [done|]. split_and!; [by rewrite E2|done..|].
  apply Forall_forall. intros a Hin. rewrite Forall_forall in Ha, Hadd. destruct (decide (a ∈ installed)); [by apply Ha|].
  apply Hadd. unfold added. apply list_elem_of_In, List.filter_In. split; [by apply list_elem_of_In|].
  by rewrite bool_decide_false.
Qed.

Lemma drop_spec base k installed : deletes_work → owns base k installed → objects (drop_routes k installed) = base.
Proof.
  intros Hd (Hk & Hdis & Hb & _). unfold drop_routes. rewrite try_delete_spec, objs_rev, Hk by (done || by apply Forall_rev).
  set_solver.
Qed.

Lemma install_spec k c : deletes_work → steady →
  match install k c with
  | (k', Ok installed) => build_actions c = Ok installed ∧ owns (objects k ∖ objs installed) k' installed
  | (k', _) => objects k' = objects k ∖ match build_actions c with Ok plan => objs plan | _ => ∅ end
  end.
Proof.
  intros Hd Hs. unfold install. destruct (build_actions c) as [plan|e| |] eqn:E; [|by rewrite difference_empty_L..].
  assert (Hb := build_actions_built c plan E).
  destruct (delete_all_spec (rev plan) Hd) with (k := k) as (k1 & -> & E1); [by apply Forall_rev|]. rewrite objs_rev in E1.
  assert (H := install_all_spec plan Hd Hs k1 [] (Forall_nil_2 _) Hb).
  destruct (install_all k1 [] plan) as [k2 [all|e| |]]; [|rewrite H, E1; change (objs []) with (∅ : gset object); set_solver..].
  destruct H as (-> & E2 & _ & Ha). cbn [app]. split; [done|]. split_and!; [by rewrite E2, E1|set_solver|done|done].
Qed.

(** Installation, the plans of later rule-set updates, and the removal at the end. *)
Fixpoint replace_all (k : Kernel) (installed : list IpAction) (updates : list TunConfig) : Kernel * list IpAction :=
  match updates with
  | [] => (k, installed)
  | c :: updates => let '(k, installed, _) := replace k installed c in replace_all k installed updates
  end.

Definition lifecycle (k : Kernel) (c : TunConfig) (updates : list TunConfig) : Kernel :=
  match install k c with
  | (k, Ok installed) => let '(k, installed) := replace_all k installed updates in drop_routes k installed
  | (k, _) => k
  end.

Lemma replace_all_owns base updates : deletes_work → steady → ∀ k installed, owns base k installed →
  owns base (fst (replace_all k installed updates)) (snd (replace_all k installed updates)).
Proof.
  intros Hd Hs. induction updates as [|c updates IH]; intros k installed Ho; cbn [replace_all]; [done|].
  assert (H := replace_owns base k installed c Hd Hs Ho).
  destruct (replace k installed c) as [[k1 i1] [u|e| |]]; [apply IH, H|..];
    (destruct H as [-> H]; apply IH; destruct Ho as (Ek & Ho); split; [by rewrite H|done]).
Qed.

(** Replacing the plan is atomic: either the objects of the new plan stand in the
    place of those of the old one, or, when a command fails, the kernel has the objects
    it had, nothing else touched.  (Removals are assumed to work, and an object that was
    added once can be added again.) *)
Theorem replace_atomic k installed c :
  deletes_work → steady → Forall built installed → Forall addable installed → objs installed ⊆ objects k →
  match replace k installed c with
  | (k', installed', Ok _) =>
    build_actions c = Ok installed' ∧ objects k' = (objects k ∖ objs installed) ∪ objs installed'
  | (k', installed', _) => installed' = installed ∧ objects k' = objects k
  end.
Proof.
  intros Hd Hs Hb Ha Hsub.
  assert (Ho : owns (objects k ∖ objs installed) k installed).
  { split_and!; [|set_solver|done|done]. apply set_eq. intros o. destruct (decide (o ∈ objs installed)); set_solver. }
  assert (H := replace_owns _ k installed c Hd Hs Ho).
  destruct (replace k installed c) as [[k' i'] [u|e| |]]; [|done..]. destruct H as [-> (-> & _)]. done.
Qed.

(** C26: the routes and rules leave no trace: whatever plans follow one another, and
    whichever commands to add something fail, when the device is dropped the kernel has
    exactly the objects of others it had before, less those that an earlier run left
    of the first plan.  Removals do not fail ([deletes_work]), and what was added once can
    be added again when it is not there ([steady]). *)
Theorem routes_leave_no_trace k c updates :
  deletes_work → steady →
  objects (lifecycle k c updates) = objects k ∖ match build_actions c with Ok plan => objs plan | _ => ∅ end.
Proof.
  intros Hd Hs. unfold lifecycle. assert (H := install_spec k c Hd Hs).
  destruct (install k c) as [k1 [installed|e| |]]; [|done..]. destruct H as [-> Ho].
  apply (replace_all_owns _ updates Hd Hs) in Ho. destruct (replace_all k1 installed updates) as [k2 i2].
  by apply drop_spec.
Qed.

End installed.

(** ** A kernel that keeps a table *)

Module Table.

#[local] Existing Instance Cidr.lib.

(** The device [gone0] does not exist. *)
Definition table_ip (k : gset object) (fam : str) (arguments : list str) : gset object * outcome :=
  match arguments with
  | kind :: verb :: tail =>
    let o := (fam, kind :: tail) in
    if str_eqb verb (lit "add") then
      if bool_decide (lit "gone0" ∈ tail) then (k, Exit false (lit "Cannot find device"))
      else if bool_decide (o ∈ k) then (k, Exit false (lit "RTNETLINK answers: File exists"))
      else ({[o]} ∪ k, Exit true [])
    else if bool_decide (o ∈ k) then (k ∖ {[o]}, Exit true []) else (k, Exit false (lit "RTNETLINK answers: No such process"))
  | _ => (k, NotRun)
  end.

#[export] Instance kernel : IpRoute := {| Kernel := gset object; ip := table_ip; objects k := k |}.

Lemma table_add k fam kind tail : table_ip k fam (kind :: lit "add" :: tail) =
  if bool_decide (lit "gone0" ∈ tail) then (k, Exit false (lit "Cannot find device"))
  else if bool_decide ((fam, kind :: tail) ∈ k) then (k, Exit false (lit "RTNETLINK answers: File exists"))
  else ({[(fam, kind :: tail)]} ∪ k, Exit true []).
Proof. done. Qed.

Lemma table_del k fam kind tail : table_ip k fam (kind :: lit "del" :: tail) =
  if bool_decide ((fam, kind :: tail) ∈ k) then (k ∖ {[(fam, kind :: tail)]}, Exit true [])
  else (k, Exit false (lit "RTNETLINK answers: No such process")).
Proof. done. Qed.

#[export] Instance laws : IpRouteLaws kernel.
Proof.
  split; intros k fam kind tail; cbn [ip objects kernel].
  - rewrite table_add. destruct (bool_decide (lit "gone0" ∈ tail)); [done|]. by case_bool_decide.
  - rewrite table_del. by case_bool_decide.
Qed.

Lemma works : deletes_work (I := kernel).
Proof.
  intros k a (fam & kind & tail & ->). unfold run_ip_delete, action_new. cbn [family delete_ ip kernel].
  rewrite table_del. case_bool_decide; [done|].
  by replace (nothing_there (trim (lit "RTNETLINK answers: No such process"))) with true by (vm_compute; reflexivity).
Qed.

Lemma stays : steady (I := kernel).
Proof.
  intros a k (fam & kind & tail & ->). unfold addable, run_ip, action_new, obj. cbn [family add ip kernel objects].
  rewrite table_add. destruct (bool_decide (lit "gone0" ∈ tail)) eqn:E; [done|]. intros _ k' Hk.
  rewrite table_add, E. by rewrite bool_decide_false.
Qed.

Definition first_config : TunConfig := Edge.accepted Edge.lan.
(** An update that names an interface that is not there. *)
Definition next_config : TunConfig := Edge.accepted (Edge.inbound None [lit "lan"; lit "gone0"]).

Definition plan : list IpAction := match build_actions first_config with Ok l => l | _ => [] end.
Definition other : object := (lit "-4", [lit "rule"; lit "priority"; lit "100"]).

Lemma plan_built : build_actions first_config = Ok plan.
Proof.
  unfold plan. destruct (build_actions first_config) eqn:E; [done|..];
    exfalso; assert (H : match build_actions first_config with Ok _ => true | _ => false end = true) by (vm_compute; reflexivity);
    by rewrite E in H.
Qed.

Lemma plan_addable : Forall (addable (I := kernel)) plan.
Proof.
  assert (Hb := build_actions_built first_config plan plan_built).
  assert (Hg : forallb (λ a, negb (bool_decide (lit "gone0" ∈ a.(add)))) plan = true) by (vm_compute; reflexivity).
  rewrite forallb_forall in Hg. rewrite Forall_forall in *. intros a Ha k Hk.
  specialize (Hg a (proj1 (list_elem_of_In _ _) Ha)). destruct (Hb a Ha) as (fam & kind & tail & ->).
  apply negb_true_iff, bool_decide_eq_false in Hg. unfold run_ip, action_new, obj in *. cbn [family add ip kernel objects] in *.
  rewrite table_add, !bool_decide_false; [done|done|]. intros Hin. apply Hg. by do 2 right.
Qed.

Definition full : gset object := {[other]} ∪ objs plan.

Lemma plan_there : objs plan ⊆ full.
Proof. apply union_subseteq_r. Qed.

End Table.

(** The kernel has the first plan and a rule of someone else: the update fails at the
    interface that is missing, and both are there. *)
Lemma replace_atomic_witness :
  snd (replace (N := Cidr.lib) (I := Table.kernel) Table.full Table.plan Table.next_config) = Err "replace TUN rule-set routes" ∧
  match replace (N := Cidr.lib) (I := Table.kernel) Table.full Table.plan Table.next_config with
  | (k', installed', Ok _) =>
    build_actions (N := Cidr.lib) Table.next_config = Ok installed' ∧
    objects k' = (objects (IpRoute := Table.kernel) Table.full ∖ objs Table.plan) ∪ objs installed'
  | (k', installed', _) => installed' = Table.plan ∧ objects k' = objects (IpRoute := Table.kernel) Table.full
  end.
Proof.
  split; [vm_compute; reflexivity|].
  exact (replace_atomic (N := Cidr.lib) (I := Table.kernel) (L := Table.laws) Table.full Table.plan Table.next_config Table.works Table.stays
    (build_actions_built _ _ Table.plan_built) Table.plan_addable Table.plan_there).
Defined.

(** The same plans from the start: at the end only the other rule is there. *)
Lemma routes_leave_no_trace_witness :
  objects (lifecycle (N := Cidr.lib) (I := Table.kernel) {[Table.other]} Table.first_config [Table.next_config; Table.first_config]) =
  {[Table.other]} ∖ match build_actions (N := Cidr.lib) Table.first_config with Ok plan => objs plan | _ => ∅ end.
Proof.
  exact (routes_leave_no_trace (N := Cidr.lib) (I := Table.kernel) (L := Table.laws) {[Table.other]} Table.first_config
    [Table.next_config; Table.first_config] Table.works Table.stays).
Defined.
