(* ===== verification/TunRedirect.v ===== *)
(** * Redirection to the TUN device with nftables (src/src/tun_redirect_linux.rs)

    The script of [nft] commands that marks the traffic for the device, what it does to
    a packet, and the installation with its state outside the process: the table, the
    forwarding switches of the kernel, the rules for Docker and the lock file that lets the
    next instance clean up after one that was killed. *)

From S2P Require Import Prelude RustStr Net IpText Util Sniff UdpNat Config Tun TunRoutes.

(** ** The script *)

Inductive chain := Prerouting | Output.
Inductive set_kind := LocalSet | RouteSet | ExcludeSet | BypassSet.

(** What a rule looks at; the flag is true for a negated match. *)
Inductive nft_match :=
  | IifName (name : str)
  | IifIn (negated : bool) (names : list str)
  | OifName (name : str)
  | MetaMark (mark : Z)
  | SkUid (negated : bool) (uids : list Z) (ranges : list (Z * Z))
  | IifNotEther
  | EtherSaddr (negated : bool) (macs : list str)
  | Daddr (ipv6 : bool) (negated : bool) (set : set_kind).

Inductive nft_line :=
  | AddTable
  | AddSet (kind : set_kind) (ipv6 : bool)
  | AddElement (kind : set_kind) (ipv6 : bool) (values : list str)
  | FlushSet (kind : set_kind) (ipv6 : bool)
  | AddChain (c : chain)
  | AddReturn (c : chain) (m : nft_match)
  | AddMark (c : chain) (mark : Z).

Definition nft_string (value : str) : str :=
  c_quote :: concat (map (λ c, if c =? c_quote then [92; c_quote] else [c]) value) ++ [c_quote].

Definition comma_join (values : list str) : str := join (lit ", ") values.
Definition join_strings (values : list str) : str := comma_join (map nft_string values).

Definition join_uids (values : list Z) (ranges : list (Z * Z)) : str :=
  comma_join (map print_uint values ++ map (λ '(start, end_), print_uint start ++ lit "-" ++ print_uint end_) ranges).

Definition braces (s : str) : str := lit "{ " ++ s ++ lit " }".

Definition chain_name (c : chain) : str := match c with Prerouting => lit "prerouting" | Output => lit "output" end.

Definition set_name (kind : set_kind) (ipv6 : bool) : str :=
  match kind with LocalSet => lit "local" | RouteSet => lit "route" | ExcludeSet => lit "exclude" | BypassSet => lit "bypass" end ++
  (if ipv6 then lit "6" else lit "4").

Definition negation (negated : bool) : str := if negated then lit "!= " else [].

Definition print_match (m : nft_match) : str :=
  match m with
  | IifName name => lit "iifname " ++ nft_string name
  | IifIn negated names => lit "iifname " ++ negation negated ++ braces (join_strings names)
  | OifName name => lit "oifname " ++ nft_string name
  | MetaMark mark => lit "meta mark 0x" ++ print_hex mark
  | SkUid negated uids ranges => lit "meta skuid " ++ negation negated ++ braces (join_uids uids ranges)
  | IifNotEther => lit "meta iiftype != ether"
  | EtherSaddr negated macs => lit "ether saddr " ++ negation negated ++ braces (comma_join macs)
  | Daddr ipv6 negated set =>
    (if ipv6 then lit "ip6" else lit "ip") ++ lit " daddr " ++ negation negated ++ lit "@" ++ set_name set ipv6
  end.

Definition print_line (table : str) (l : nft_line) : str :=
  match l with
  | AddTable => lit "add table inet " ++ table
  | AddSet kind ipv6 =>
    lit "add set inet " ++ table ++ lit " " ++ set_name kind ipv6 ++ lit " { type " ++
    (if ipv6 then lit "ipv6_addr" else lit "ipv4_addr") ++ lit "; flags interval; auto-merge; }"
  | AddElement kind ipv6 values =>
    lit "add element inet " ++ table ++ lit " " ++ set_name kind ipv6 ++ lit " " ++ braces (comma_join values)
  | FlushSet kind ipv6 => lit "flush set inet " ++ table ++ lit " " ++ set_name kind ipv6
  | AddChain c =>
    lit "add chain inet " ++ table ++ lit " " ++ chain_name c ++ lit " { type " ++
    match c with Prerouting => lit "filter hook prerouting" | Output => lit "route hook output" end ++
    lit " priority mangle; policy accept; }"
  | AddReturn c m => lit "add rule inet " ++ table ++ lit " " ++ chain_name c ++ lit " " ++ print_match m ++ lit " return"
  | AddMark c mark =>
    lit "add rule inet " ++ table ++ lit " " ++ chain_name c ++
    lit " meta l4proto { tcp, udp, icmp, ipv6-icmp } counter ct mark set 0x" ++ print_hex mark ++ lit " meta mark set ct mark"
  end.

Definition print_script (table : str) (lines : list nft_line) : str := join [10] (map (print_line table) lines) ++ [10].

Definition table_char (c : Z) : bool :=
  in_range c 48 57 || in_range c 65 90 || in_range c 97 122 || (c =? 95) || (c =? 45) || (c =? 46).

Definition table_name (interface : str) : result str :=
  if is_nil interface || negb (forallb table_char interface) then Err "TUN interface_name contains characters unsafe for nftables"
  else Ok (lit "xhttp_" ++ map (λ c, if (c =? 45) || (c =? 46) then 95 else c) interface).

Section script.
Context `{N : IpNetLib}.

Definition add_address_set (kind : set_kind) (ipv6 : bool) (values : list str) : list nft_line :=
  AddSet kind ipv6 :: (if is_nil values then [] else [AddElement kind ipv6 values]).

Definition replace_address_set (kind : set_kind) (ipv6 : bool) (values : list str) : list nft_line :=
  FlushSet kind ipv6 :: (if is_nil values then [] else [AddElement kind ipv6 values]).

(** The prefixes of the other interfaces, from the lines of [ip -o addr show]; [None] is a
    command that failed. *)
Definition local_prefix (tun_interface line : str) : option str :=
  let fields := split_whitespace line in
  if match fields !! 1%nat with Some f => str_eqb (trim_end_matches (Z.eqb c_colon) f) tun_interface | None => false end then None
  else List.find (λ f, contains_char c_slash f && (contains_char c_dot f || contains_char c_colon f)) fields.

Definition local_prefixes (ip_addr_show : option bytes) (tun_interface : str) : list str :=
  match ip_addr_show with
  | None => []
  | Some stdout => omap (local_prefix tun_interface) (lines (from_utf8_lossy stdout))
  end.

Definition net_texts (ipv6 : bool) (l : list IpNet) : list str := map ipnet_print (List.filter (of_family ipv6) l).
Definition ip_texts (ipv6 : bool) (l : list IpAddr) : list str := map print_ip (List.filter (λ a, eqb (is_ipv6 a) ipv6) l).
Definition local_texts (ipv6 : bool) (l : list str) : list str := List.filter (contains_char (if ipv6 then c_colon else c_dot)) l.

Definition both (f : bool → list nft_line) : list nft_line := f false ++ f true.

Definition when (b : bool) (l : list nft_line) : list nft_line := if b then l else [].

Definition add_common_exclusions (c : chain) (config : TunConfig) (output : bool) : list nft_line :=
  (if output then
     when (negb (is_nil config.(include_uids)) || negb (is_nil config.(include_uid_ranges)))
       [AddReturn c (SkUid true config.(include_uids) config.(include_uid_ranges))] ++
     when (negb (is_nil config.(exclude_uids)) || negb (is_nil config.(exclude_uid_ranges)))
       [AddReturn c (SkUid false config.(exclude_uids) config.(exclude_uid_ranges))]
   else
     when (negb (is_nil config.(include_interfaces))) [AddReturn c (IifIn true config.(include_interfaces))] ++
     when (negb (is_nil config.(exclude_interfaces))) [AddReturn c (IifIn false config.(exclude_interfaces))] ++
     when (negb (is_nil config.(include_macs))) [AddReturn c IifNotEther; AddReturn c (EtherSaddr true config.(include_macs))] ++
     when (negb (is_nil config.(exclude_macs))) [AddReturn c (EtherSaddr false config.(exclude_macs))]) ++
  both (λ ipv6, [AddReturn c (Daddr ipv6 false LocalSet); AddReturn c (Daddr ipv6 false BypassSet)] ++
    when config.(route_include_active) [AddReturn c (Daddr ipv6 true RouteSet)] ++
    when config.(route_exclude_active) [AddReturn c (Daddr ipv6 false ExcludeSet)]).

Definition nft_sets (config : TunConfig) (local : list str) : list nft_line :=
  both (λ ipv6, add_address_set LocalSet ipv6 (local_texts ipv6 local)) ++
  both (λ ipv6, add_address_set RouteSet ipv6 (net_texts ipv6 config.(route_addresses))) ++
  both (λ ipv6, add_address_set ExcludeSet ipv6 (net_texts ipv6 config.(route_exclude_addresses))) ++
  both (λ ipv6, add_address_set BypassSet ipv6 (ip_texts ipv6 config.(bypass_addresses))).

Definition nft_rules (config : TunConfig) : list nft_line :=
  [AddChain Prerouting; AddChain Output; AddReturn Prerouting (IifName config.(t_interface_name))] ++
  add_common_exclusions Prerouting config false ++
  [AddMark Prerouting config.(redirect_input_mark);
   AddReturn Output (MetaMark config.(redirect_output_mark)); AddReturn Output (OifName config.(t_interface_name))] ++
  add_common_exclusions Output config true ++
  [AddMark Output config.(redirect_input_mark)].

Definition nft_lines (config : TunConfig) (local : list str) : list nft_line :=
  AddTable :: nft_sets config local ++ nft_rules config.

Definition build_nft_script (config : TunConfig) (table : str) (ip_addr_show : option bytes) : str :=
  print_script table (nft_lines config (local_prefixes ip_addr_show config.(t_interface_name))).

Definition replace_lines (config : TunConfig) : list nft_line :=
  both (λ ipv6, replace_address_set RouteSet ipv6 (net_texts ipv6 config.(route_addresses))) ++
  both (λ ipv6, replace_address_set ExcludeSet ipv6 (net_texts ipv6 config.(route_exclude_addresses))).

Definition replace_route_sets (table : str) (config : TunConfig) : str := print_script table (replace_lines config).

End script.

(** ** What nftables does

    nft reads the text; the kernel keeps the sets and the chains and runs a chain for a
    packet.  How nft reads the element of a set, a name and a hardware address is its own. *)
Class NftLib := {
  element_contains : str → IpAddr → bool;
  name_matches : str → str → bool;
  mac_matches : str → bytes → bool;
}.

Record Packet := mkPacket {
  p_daddr : IpAddr;
  p_proto : Z;
  p_iif : str;
  p_ether : bool;  (* came in on an Ethernet device *)
  p_mac : bytes;
  p_oif : str;
  p_uid : option Z;  (* the owner of the socket, if there is one *)
  p_mark : Z;
}.

Record Ruleset := mkRuleset {
  r_sets : set_kind → bool → list str;
  r_chain : chain → list (nft_match + Z);
}.

Definition no_rules : Ruleset := mkRuleset (λ _ _, []) (λ _, []).

Definition kind_eqb (a b : set_kind) : bool :=
  match a, b with
  | LocalSet, LocalSet | RouteSet, RouteSet | ExcludeSet, ExcludeSet | BypassSet, BypassSet => true
  | _, _ => false
  end.

Definition chain_eqb (a b : chain) : bool := match a, b with Prerouting, Prerouting | Output, Output => true | _, _ => false end.

Definition put_set (r : Ruleset) (kind : set_kind) (ipv6 : bool) (values : list str) : Ruleset :=
  mkRuleset (λ k v, if kind_eqb k kind && eqb v ipv6 then values else r.(r_sets) k v) r.(r_chain).

Definition put_rule (r : Ruleset) (c : chain) (rule : nft_match + Z) : Ruleset :=
  mkRuleset r.(r_sets) (λ c', if chain_eqb c' c then r.(r_chain) c' ++ [rule] else r.(r_chain) c').

Definition run_line (r : Ruleset) (l : nft_line) : Ruleset :=
  match l with
  | AddTable | AddSet _ _ | AddChain _ => r
  | AddElement kind ipv6 values => put_set r kind ipv6 (r.(r_sets) kind ipv6 ++ values)
  | FlushSet kind ipv6 => put_set r kind ipv6 []
  | AddReturn c m => put_rule r c (inl m)
  | AddMark c mark => put_rule r c (inr mark)
  end.

Definition run_lines (r : Ruleset) (l : list nft_line) : Ruleset := fold_left run_line l r.

Section kernel.
Context `{NF : NftLib}.

Definition uid_in (uids : list Z) (ranges : list (Z * Z)) (u : Z) : bool :=
  existsb (Z.eqb u) uids || existsb (λ '(start, end_), (start <=? u) && (u <=? end_)) ranges.

(** A match on something the packet does not have (another family, no socket, no
    Ethernet header) fails, negated or not. *)
Definition matches (r : Ruleset) (p : Packet) (m : nft_match) : bool :=
  match m with
  | IifName name => name_matches name p.(p_iif)
  | IifIn negated names => xorb negated (existsb (λ n, name_matches n p.(p_iif)) names)
  | OifName name => name_matches name p.(p_oif)
  | MetaMark mark => p.(p_mark) =? mark
  | SkUid negated uids ranges => match p.(p_uid) with Some u => xorb negated (uid_in uids ranges u) | None => false end
  | IifNotEther => negb p.(p_ether)
  | EtherSaddr negated macs => p.(p_ether) && xorb negated (existsb (λ m, mac_matches m p.(p_mac)) macs)
  | Daddr ipv6 negated kind =>
    eqb (is_ipv6 p.(p_daddr)) ipv6 && xorb negated (existsb (λ t, element_contains t p.(p_daddr)) (r.(r_sets) kind ipv6))
  end.

(** tcp, udp, icmp and ipv6-icmp *)
Definition redirected_proto (p : Packet) : bool := existsb (Z.eqb p.(p_proto)) [6; 17; 1; 58].

(** The kernel: the mark that the rules of a chain set, if any.  What nftables documents of
    it: rules are tried in order, [return] ends a chain that is hooked, and the rule that
    sets the mark applies to its protocols. *)
Class NftKernel := {
  chain_mark : Ruleset → Packet → list (nft_match + Z) → option Z;
  chain_end r p : chain_mark r p [] = None;
  chain_return r p m rules : chain_mark r p (inl m :: rules) = if matches r p m then None else chain_mark r p rules;
  chain_set_mark r p mark rules : chain_mark r p (inr mark :: rules) = if redirected_proto p then Some mark else chain_mark r p rules;
}.

(** A kernel that does so. *)
Fixpoint run_chain (r : Ruleset) (p : Packet) (rules : list (nft_match + Z)) : option Z :=
  match rules with
  | [] => None
  | inl m :: rules => if matches r p m then None else run_chain r p rules
  | inr mark :: rules => if redirected_proto p then Some mark else run_chain r p rules
  end.

#[export] Instance documented_kernel : NftKernel := {
  chain_mark := run_chain; chain_end r p := eq_refl; chain_return r p m rules := eq_refl; chain_set_mark r p mark rules := eq_refl }.

Definition mark_of {K : NftKernel} (r : Ruleset) (c : chain) (p : Packet) : option Z := chain_mark r p (r.(r_chain) c).

(** ** What the configuration asks for *)

Context `{N : IpNetLib}.

Definition is_local (local : list str) (p : Packet) : bool :=
  existsb (λ t, contains_char (if is_ipv6 p.(p_daddr) then c_colon else c_dot) t && element_contains t p.(p_daddr)) local.

(** Where a packet must be going to be sent to the device. *)
Definition destination_wanted (config : TunConfig) (local : list str) (p : Packet) : bool :=
  negb (is_local local p) && negb (existsb (λ a, bool_decide (a = p.(p_daddr))) config.(bypass_addresses)) &&
  implb config.(route_include_active) (existsb (λ n, ipnet_contains n p.(p_daddr)) config.(route_addresses)) &&
  implb config.(route_exclude_active) (negb (existsb (λ n, ipnet_contains n p.(p_daddr)) config.(route_exclude_addresses))).

Definition wanted_uid (config : TunConfig) (p : Packet) : bool :=
  match p.(p_uid) with
  | None => true
  | Some u =>
    (is_nil config.(include_uids) && is_nil config.(include_uid_ranges) || uid_in config.(include_uids) config.(include_uid_ranges) u) &&
    negb (uid_in config.(exclude_uids) config.(exclude_uid_ranges) u)
  end.

Definition wanted_interface (config : TunConfig) (p : Packet) : bool :=
  (is_nil config.(include_interfaces) || existsb (λ n, name_matches n p.(p_iif)) config.(include_interfaces)) &&
  negb (existsb (λ n, name_matches n p.(p_iif)) config.(exclude_interfaces)).

Definition wanted_mac (config : TunConfig) (p : Packet) : bool :=
  (is_nil config.(include_macs) || p.(p_ether) && existsb (λ m, mac_matches m p.(p_mac)) config.(include_macs)) &&
  negb (p.(p_ether) && existsb (λ m, mac_matches m p.(p_mac)) config.(exclude_macs)).

Definition redirected (c : chain) (config : TunConfig) (local : list str) (p : Packet) : bool :=
  match c with
  | Prerouting => negb (name_matches config.(t_interface_name) p.(p_iif)) && wanted_interface config p && wanted_mac config p
  | Output => negb (p.(p_mark) =? config.(redirect_output_mark)) && negb (name_matches config.(t_interface_name) p.(p_oif)) && wanted_uid config p
  end && destination_wanted config local p && redirected_proto p.

End kernel.

(** ** The script does what the configuration asks for *)

Definition rule_of (c : chain) (l : nft_line) : option (nft_match + Z) :=
  match l with
  | AddReturn c' m => if chain_eqb c c' then Some (inl m) else None
  | AddMark c' mark => if chain_eqb c c' then Some (inr mark) else None
  | _ => None
  end.

Definition set_after (kind : set_kind) (ipv6 : bool) (values : list str) (l : nft_line) : list str :=
  match l with
  | AddElement k v new => if kind_eqb kind k && eqb ipv6 v then values ++ new else values
  | FlushSet k v => if kind_eqb kind k && eqb ipv6 v then [] else values
  | _ => values
  end.

Lemma kind_eqb_eq a b : kind_eqb a b = true → a = b.
Proof. by destruct a, b. Qed.

Lemma run_lines_chain l : ∀ r c, (run_lines r l).(r_chain) c = r.(r_chain) c ++ omap (rule_of c) l.
Proof.
  unfold run_lines. induction l as [|x l IH]; intros r c; cbn [fold_left]; [by rewrite app_nil_r|]. rewrite IH. cbn [omap list_omap].
  destruct x as [| | | | |c' m|c' m]; try done; cbn [run_line put_rule r_chain rule_of]; (destruct (chain_eqb c c'); [by rewrite <- app_assoc|done]).
Qed.

Lemma run_lines_sets l : ∀ r kind ipv6, (run_lines r l).(r_sets) kind ipv6 = fold_left (set_after kind ipv6) l (r.(r_sets) kind ipv6).
Proof.
  unfold run_lines. induction l as [|x l IH]; intros r kind ipv6; cbn [fold_left]; [done|]. rewrite IH. f_equal.
  destruct x as [| |k v new|k v| | |]; try done; cbn [run_line put_set r_sets set_after]; (destruct (kind_eqb kind k && eqb ipv6 v) eqn:E; [|done]).
  apply andb_true_iff in E as [->%kind_eqb_eq ->%eqb_prop]. done.
Qed.

Lemma set_after_add kind ipv6 k v new values :
  fold_left (set_after kind ipv6) (add_address_set k v new) values = if kind_eqb kind k && eqb ipv6 v then values ++ new else values.
Proof. unfold add_address_set. destruct new; cbn; [rewrite app_nil_r; by destruct (_ && _)|done]. Qed.

Lemma set_after_replace kind ipv6 k v new values :
  fold_left (set_after kind ipv6) (replace_address_set k v new) values = if kind_eqb kind k && eqb ipv6 v then new else values.
Proof. unfold replace_address_set. destruct new; cbn; by destruct (_ && _). Qed.

(** Lines that only return from one chain. *)
Definition returns_of (l : list nft_line) : list nft_match := omap (λ x, match x with AddReturn _ m => Some m | _ => None end) l.

Definition only_returns (c : chain) (l : list nft_line) : Prop := Forall (λ x, match x with AddReturn c' _ => c' = c | _ => False end) l.

Lemma only_returns_rules c c' l : only_returns c l → omap (rule_of c') l = if chain_eqb c' c then map inl (returns_of l) else [].
Proof.
  unfold returns_of. induction 1 as [|x l Hx Hl IH]; [by destruct (chain_eqb c' c)|]. destruct x; try done. subst. cbn [omap list_omap rule_of].
  destruct (chain_eqb c' c) eqn:E; cbn; [by rewrite IH|exact IH].
Qed.

Lemma only_returns_sets c l kind ipv6 values : only_returns c l → fold_left (set_after kind ipv6) l values = values.
Proof. induction 1 as [|x l Hx Hl IH]; [done|]. by destruct x. Qed.

Lemma only_returns_when c b l : only_returns c l → only_returns c (when b l).
Proof. by destruct b; [|constructor]. Qed.

Lemma returns_of_app l l' : returns_of (l ++ l') = returns_of l ++ returns_of l'.
Proof. apply omap_app. Qed.

Lemma existsb_returns_when f b l : existsb f (returns_of (when b l)) = b && existsb f (returns_of l).
Proof. by destruct b. Qed.

Lemma nonempty_existsb {A} (f : A → bool) l : negb (is_nil l) && existsb f l = existsb f l.
Proof. by destruct l. Qed.

Lemma uid_in_some uids ranges u : negb (is_nil uids && is_nil ranges) && uid_in uids ranges u = uid_in uids ranges u.
Proof. by destruct uids, ranges. Qed.

Section policy.
Context `{NF : NftLib, K : !NftKernel, N : IpNetLib}.

Lemma exclusions_only_returns c config output : only_returns c (add_common_exclusions c config output).
Proof.
  unfold add_common_exclusions, both, only_returns.
  apply Forall_app; split; [destruct output|]; repeat (apply Forall_app; split); try (apply only_returns_when); repeat constructor.
Qed.

Lemma chain_returns r p (ms : list nft_match) rest :
  chain_mark r p (map inl ms ++ rest) = if existsb (matches r p) ms then None else chain_mark r p rest.
Proof. induction ms as [|m ms IH]; cbn [map app existsb]; [done|]. rewrite chain_return. by destruct (matches r p m). Qed.

(** What nft and ipnet document: an element is the prefix or the address that was printed,
    and a prefix contains addresses of its own family. *)
Context (element_net : ∀ n ip, element_contains (ipnet_print n) ip = ipnet_contains n ip).
Context (element_ip : ∀ a ip, ip_ok a → element_contains (print_ip a) ip = bool_decide (a = ip)).
Context (net_family : ∀ n ip, ipnet_contains n ip = true → is_ipv6 (ipnet_network n) = is_ipv6 ip).

Lemma in_net_texts l ip : existsb (λ t, element_contains t ip) (net_texts (is_ipv6 ip) l) = existsb (λ n, ipnet_contains n ip) l.
Proof.
  unfold net_texts. rewrite existsb_map, existsb_filter. apply existsb_ext_in. intros n _. rewrite element_net. unfold of_family.
  destruct (ipnet_contains n ip) eqn:E; [|apply andb_false_r]. by rewrite (net_family n ip E), eqb_reflx.
Qed.

Lemma in_ip_texts l ip : Forall ip_ok l →
  existsb (λ t, element_contains t ip) (ip_texts (is_ipv6 ip) l) = existsb (λ a, bool_decide (a = ip)) l.
Proof.
  intros Hl. unfold ip_texts. rewrite existsb_map, existsb_filter. apply existsb_ext_in. rewrite Forall_forall in Hl. intros a Ha%Hl. rewrite element_ip by done.
  case_bool_decide as E; [|apply andb_false_r]. by rewrite E, eqb_reflx.
Qed.

(** A ruleset with the sets of a configuration. *)
Definition has_sets (config : TunConfig) (local : list str) (r : Ruleset) : Prop :=
  ∀ kind ipv6, r.(r_sets) kind ipv6 =
    match kind with
    | LocalSet => local_texts ipv6 local
    | RouteSet => net_texts ipv6 config.(route_addresses)
    | ExcludeSet => net_texts ipv6 config.(route_exclude_addresses)
    | BypassSet => ip_texts ipv6 config.(bypass_addresses)
    end.

Lemma address_matches config local r p c output : Forall ip_ok config.(bypass_addresses) → has_sets config local r →
  existsb (matches r p) (returns_of (add_common_exclusions c config output)) =
    negb ((if output then wanted_uid config p else wanted_interface config p && wanted_mac config p) && destination_wanted config local p).
Proof.
  intros Hok Hs. unfold add_common_exclusions. rewrite returns_of_app, existsb_app, negb_andb. f_equal.
  - destruct output; rewrite !returns_of_app, !existsb_app, !existsb_returns_when; cbn [returns_of omap list_omap existsb matches];
      rewrite ?orb_false_r, ?xorb_true_l, ?xorb_false_l.
    + unfold wanted_uid. destruct p.(p_uid) as [u|]; [|by rewrite !andb_false_r]. change (xorb false (uid_in ?a ?b ?c)) with (uid_in a b c).
      rewrite <- (negb_andb (is_nil (include_uids config))), <- (negb_andb (is_nil (exclude_uids config))), uid_in_some.
      by destruct (is_nil (include_uids config) && is_nil (include_uid_ranges config)), (uid_in (include_uids config) _ u), (uid_in (exclude_uids config) _ u).
    + unfold wanted_interface, wanted_mac. rewrite nonempty_existsb. rewrite (andb_comm (negb (is_nil (exclude_macs config)))), <- andb_assoc,
        (andb_comm _ (negb (is_nil (exclude_macs config)))), nonempty_existsb.
      by destruct (is_nil (include_interfaces config)), (is_nil (include_macs config)), p.(p_ether), (existsb _ (include_interfaces config)),
        (existsb _ (exclude_interfaces config)), (existsb _ (include_macs config)), (existsb _ (exclude_macs config)).
  - unfold both. rewrite !returns_of_app, !existsb_app, !existsb_returns_when. cbn [returns_of omap list_omap existsb matches]. rewrite !Hs.
    unfold destination_wanted, is_local, local_texts. rewrite <- (in_net_texts (route_addresses config)), <- (in_net_texts (route_exclude_addresses config)), <- in_ip_texts by done.
    rewrite !existsb_filter. destruct (is_ipv6 p.(p_daddr)); cbn [eqb andb orb]; rewrite ?xorb_true_l, ?xorb_false_l, ?andb_false_r, ?orb_false_r, ?orb_assoc;
      cbn [orb]; rewrite ?orb_false_r.
    + by destruct (existsb _ local), (existsb _ (ip_texts _ _)), (route_include_active config), (route_exclude_active config),
        (existsb _ (net_texts _ (route_addresses config))), (existsb _ (net_texts _ (route_exclude_addresses config))).
    + by destruct (existsb _ local), (existsb _ (ip_texts _ _)), (route_include_active config), (route_exclude_active config),
        (existsb _ (net_texts _ (route_addresses config))), (existsb _ (net_texts _ (route_exclude_addresses config))).
Qed.

Lemma nft_rules_only c kind ipv6 values config : fold_left (set_after kind ipv6) (nft_rules config) values = values ∧
  omap (rule_of c) (nft_rules config) =
    map inl (match c with
             | Prerouting => [IifName config.(t_interface_name)]
             | Output => [MetaMark config.(redirect_output_mark); OifName config.(t_interface_name)]
             end ++ returns_of (add_common_exclusions c config (match c with Output => true | Prerouting => false end))) ++
    [inr config.(redirect_input_mark)].
Proof.
  assert (Hp := exclusions_only_returns Prerouting config false). assert (Ho := exclusions_only_returns Output config true). split.
  - unfold nft_rules. rewrite !fold_left_app, (only_returns_sets _ _ _ _ _ Hp). cbn [fold_left set_after]. by rewrite (only_returns_sets _ _ _ _ _ Ho).
  - unfold nft_rules. rewrite !omap_app, (only_returns_rules _ c _ Hp), (only_returns_rules _ c _ Ho).
    destruct c; cbn [chain_eqb omap list_omap rule_of app map]; rewrite ?app_nil_r; done.
Qed.

Lemma nft_sets_chain config local c : omap (rule_of c) (nft_sets config local) = [].
Proof.
  assert (Ha : ∀ k v l, omap (rule_of c) (add_address_set k v l) = []) by (intros k v l; unfold add_address_set; by destruct l).
  unfold nft_sets, both. by rewrite !omap_app, !Ha.
Qed.

Lemma nft_lines_run config local : has_sets config local (run_lines no_rules (nft_lines config local)) ∧
  ∀ c, (run_lines no_rules (nft_lines config local)).(r_chain) c = omap (rule_of c) (nft_rules config).
Proof.
  split.
  - intros kind ipv6. rewrite run_lines_sets. unfold nft_lines. cbn [fold_left set_after]. rewrite fold_left_app.
    rewrite (proj1 (nft_rules_only Output kind ipv6 _ config)). unfold nft_sets, both. rewrite !fold_left_app, !set_after_add.
    by destruct kind, ipv6.
  - intros c. rewrite run_lines_chain. unfold nft_lines. cbn [omap list_omap rule_of no_rules r_chain app].
    by rewrite omap_app, nft_sets_chain.
Qed.

(** The configuration with other addresses, as the updater of the rule-sets makes it. *)
Definition with_routes (c : TunConfig) (included excluded : list IpNet) : TunConfig :=
  mkTun c.(t_interface_name) c.(mtu) c.(addresses) c.(stack) c.(auto_route) c.(auto_redirect) c.(strict_route) included excluded
    c.(route_include_active) c.(route_exclude_active) c.(include_interfaces) c.(exclude_interfaces) c.(include_uids) c.(exclude_uids)
    c.(include_uid_ranges) c.(exclude_uid_ranges) c.(table_index) c.(rule_index) c.(redirect_input_mark) c.(redirect_output_mark)
    c.(include_macs) c.(exclude_macs) c.(bypass_addresses) c.(t_udp_timeout) c.(udp_mapping) c.(udp_filtering) c.(udp_nat_max).

(** The mark of a packet in a ruleset with the rules and sets of a configuration. *)
Lemma mark_of_redirected config local r c p : Forall ip_ok config.(bypass_addresses) → has_sets config local r →
  (∀ c, r.(r_chain) c = omap (rule_of c) (nft_rules config)) →
  mark_of r c p = if redirected c config local p then Some config.(redirect_input_mark) else None.
Proof.
  intros Hok Hs Hc. unfold mark_of. rewrite Hc. destruct (nft_rules_only c LocalSet false [] config) as [_ ->]. rewrite chain_returns.
  rewrite existsb_app, (address_matches config local r p c _ Hok Hs), chain_set_mark, chain_end.
  unfold redirected. destruct c; cbn [existsb matches].
  - by destruct (name_matches _ _), (wanted_interface config p), (wanted_mac config p), (destination_wanted config local p), (redirected_proto p).
  - by destruct (_ =? _), (name_matches _ _), (wanted_uid config p), (destination_wanted config local p), (redirected_proto p).
Qed.

(** C33: the nftables script does what the TUN configuration asks for: a packet that comes
    in or goes out gets the mark that leads to the device exactly when its interface,
    hardware address or user is wanted, its destination is wanted and not local, bypassed
    or the device's own traffic, and its protocol is redirected.  After the route sets
    are replaced the same holds for the new addresses. *)
Theorem script_marks_wanted config local included excluded c p : Forall ip_ok config.(bypass_addresses) →
  let next := with_routes config included excluded in
  mark_of (run_lines no_rules (nft_lines config local)) c p =
    (if redirected c config local p then Some config.(redirect_input_mark) else None) ∧
  mark_of (run_lines no_rules (nft_lines config local ++ replace_lines next)) c p =
    (if redirected c next local p then Some config.(redirect_input_mark) else None).
Proof.
  intros Hok next. destruct (nft_lines_run config local) as [Hs Hc]. split; [by apply mark_of_redirected|].
  apply (mark_of_redirected next); [done| |intros c'].
  - intros kind ipv6. rewrite run_lines_sets, fold_left_app, <- run_lines_sets, Hs. unfold replace_lines, both.
    rewrite !fold_left_app, !set_after_replace. by destruct kind, ipv6.
  - rewrite run_lines_chain, omap_app, app_assoc, <- run_lines_chain, Hc.
    assert (Ha : ∀ k v l, omap (rule_of c') (replace_address_set k v l) = []) by (intros k v l; unfold replace_address_set; by destruct l).
    unfold replace_lines, both. by rewrite !omap_app, !Ha, !app_nil_r.
Qed.

End policy.

(** Prefixes of a single address, which satisfy what the theorem relies on. *)
Module Hosts.

#[local] Instance ip_ok_dec ip : Decision (ip_ok ip).
Proof. destruct ip; cbn; apply _. Defined.

Definition Host : Type := dsig ip_ok.

Lemma zero_ok : ip_ok (V4 0).
Proof. by vm_compute. Qed.

Definition net : IpNetLib := {|
  IpNet := Host;
  ipnet_parse s := None;
  ipnet_host ip := match decide (ip_ok ip) with left H => dexist ip H | right _ => dexist (V4 0) zero_ok end;
  ipnet_network n := `n;
  ipnet_prefix_len n := match `n with V4 _ => 32 | V6 _ => 128 end;
  ipnet_contains n ip := bool_decide (`n = ip);
  ipnet_print n := print_ip (`n);
|}.

Definition nft : NftLib := {|
  element_contains t ip := bool_decide (parse_ip t = Some ip);
  name_matches := str_eqb;
  mac_matches _ _ := false;
|}.

Lemma element_ip a ip : ip_ok a → element_contains (NftLib := nft) (print_ip a) ip = bool_decide (a = ip).
Proof. intros Ha. cbn. rewrite parse_print_ip by done. apply bool_decide_ext. split; [by intros [=]|by intros ->]. Qed.

Lemma element_net n ip : element_contains (NftLib := nft) (ipnet_print (IpNetLib := net) n) ip = ipnet_contains (IpNetLib := net) n ip.
Proof. destruct n as [a Ha]. cbn. apply (element_ip a ip). by apply bool_decide_unpack in Ha. Qed.

Lemma net_family n ip : ipnet_contains (IpNetLib := net) n ip = true → is_ipv6 (ipnet_network (IpNetLib := net) n) = is_ipv6 ip.
Proof. cbn. intros H%bool_decide_eq_true. by rewrite H. Qed.

Definition address (a : Z) : Host := ipnet_host (IpNetLib := net) (V4 a).

(** The device tun0 takes what goes to 5 and 6, but not to 6; 9 is a server of the proxy. *)
Definition config : TunConfig (N := net) :=
  mkTun (N := net) (lit "tun0") 1500 [address 1] (lit "smoltcp") true true true [address 5; address 6] [address 6] true true [] [] [1000] []
    [(2000, 2999)] [] 22022 12000 8227 8228 [] [] [V4 9] 0 EndpointIndependent EndpointIndependent 16.

Definition packet (to : Z) (uid : Z) (mark : Z) : Packet := mkPacket (V4 to) 6 (lit "lan0") true [] (lit "eth0") (Some uid) mark.

End Hosts.

Lemma script_marks_wanted_witness :
  let after := run_lines no_rules (nft_lines (N := Hosts.net) Hosts.config []) in
  let replaced := run_lines no_rules (nft_lines (N := Hosts.net) Hosts.config [] ++
    replace_lines (N := Hosts.net) (with_routes Hosts.config [Hosts.address 7] [])) in
  map (λ p, mark_of (NF := Hosts.nft) after Output p)
    [Hosts.packet 5 1000 0; Hosts.packet 6 1000 0; Hosts.packet 7 2500 0; Hosts.packet 5 1 0; Hosts.packet 5 1000 8228] =
    [Some 8227; None; None; None; None] ∧
  mark_of (NF := Hosts.nft) replaced Output (Hosts.packet 7 2500 0) = Some 8227.
Proof.
  assert (T := λ p, script_marks_wanted (NF := Hosts.nft) (N := Hosts.net) Hosts.element_net Hosts.element_ip Hosts.net_family Hosts.config []
    [Hosts.address 7] [] Output p ltac:(repeat constructor; lia)). cbv zeta in *. split.
  - cbn [map]. repeat (rewrite (proj1 (T _))). reflexivity.
  - rewrite (proj2 (T _)). reflexivity.
Defined.

(** The text of the script, for the configuration of the program's test. *)
Example script_text :
  map (print_line (lit "xhttp_tun0")) (take 3 (nft_lines (N := Hosts.net) Hosts.config [lit "10.0.0.2/8"])) =
    [lit "add table inet xhttp_tun0";
     lit "add set inet xhttp_tun0 local4 { type ipv4_addr; flags interval; auto-merge; }";
     lit "add element inet xhttp_tun0 local4 { 10.0.0.2/8 }"] ∧
  print_line (lit "t") (AddReturn Output (SkUid true [1000] [(2000, 2999)])) =
    lit "add rule inet t output meta skuid != { 1000, 2000-2999 } return" ∧
  print_line (lit "t") (AddReturn Prerouting (Daddr true true RouteSet)) =
    lit "add rule inet t prerouting ip6 daddr != @route6 return" ∧
  print_line (lit "t") (AddMark Output 8227) =
    lit "add rule inet t output meta l4proto { tcp, udp, icmp, ipv6-icmp } counter ct mark set 0x2023 meta mark set ct mark".
Proof. by vm_compute. Qed.

(** ** Installation *)

Record DockerRule := mkDocker { program : str; arguments : list str }.

#[export] Instance DockerRule_eq_dec : EqDecision DockerRule.
Proof. solve_decision. Defined.

Definition ipv4_forward : str := lit "/proc/sys/net/ipv4/ip_forward".
Definition ipv6_forward : str := lit "/proc/sys/net/ipv6/conf/all/forwarding".

(** What the process does outside itself. *)
Inductive action :=
  | OpenLock
  | LockFile
  | ReadState
  | DeleteStale
  | EnableRead (path : str)
  | EnableWrite (path : str)
  | TruncateState
  | WriteEntry (path : str)
  | SyncState
  | LoadScript
  | DockerProbe (program : str)
  | DockerInsert (rule : DockerRule)
  | DockerDelete (rule : DockerRule)
  | DropTable
  | RestoreRead (path : str)
  | RestoreWrite (path : str)
  | ClearState.

(** An action succeeds, fails, or the process is killed before it. *)
Inductive fate := Succeeds | Fails | Kills.

Record System := mkSystem {
  sysctl : gmap str str;  (* the values without the line end *)
  state : str;  (* the content of the lock file *)
  tables : gmap str (list nft_line);
  docker : list DockerRule;
}.

Record Guard := mkGuard {
  g_table : str;
  table_installed : bool;
  g_sysctls : list (str * str);
  docker_rules : list DockerRule;
}.

(** The process: the system, and the guard once there is one. *)
Record Proc := mkProc { sys : System; guard : option Guard }.

Inductive ended (A : Type) := Done (a : A) | Failed (msg : string) | Killed.
Arguments Done {A} a.
Arguments Failed {A} msg.
Arguments Killed {A}.

Definition proc (A : Type) : Type := Proc → Proc * ended A.

#[export] Instance proc_ret : MRet proc := λ A a p, (p, Done a).
#[export] Instance proc_bind : MBind proc := λ A B f m p,
  let '(p, r) := m p in
  match r with Done a => f a p | Failed msg => (p, Failed msg) | Killed => (p, Killed) end.

Definition proc_fail {A} (msg : string) : proc A := λ p, (p, Failed msg).
Definition get_sys : proc System := λ p, (p, Done p.(sys)).
Definition set_sys (s : System) : proc unit := λ p, (mkProc s p.(guard), Done tt).
Definition set_guard (g : Guard) : proc unit := λ p, (mkProc p.(sys) (Some g), Done tt).

Definition set_sysctl (path value : str) (s : System) : System := mkSystem (<[path := value]> s.(sysctl)) s.(state) s.(tables) s.(docker).
Definition set_state (text : str) (s : System) : System := mkSystem s.(sysctl) text s.(tables) s.(docker).
Definition set_tables (t : gmap str (list nft_line)) (s : System) : System := mkSystem s.(sysctl) s.(state) t s.(docker).
Definition set_docker (d : list DockerRule) (s : System) : System := mkSystem s.(sysctl) s.(state) s.(tables) d.

(** *** The state in the lock file *)

Definition known_path (path : str) : bool := str_eqb path ipv4_forward || str_eqb path ipv6_forward.

Definition state_entry (line : str) : option (str * str) :=
  '(path, value) ← split_once 61 line;
  if known_path path && (str_eqb value (lit "0") || str_eqb value (lit "1")) then Some (path, value) else None.

Definition read_sysctl_state (text : str) : list (str * str) := omap state_entry (lines text).

Definition entry_line (e : str * str) : str := e.1 ++ 61 :: e.2 ++ [10].

(** [-D] removes the first rule that is equal. *)
Fixpoint remove_rule (rule : DockerRule) (l : list DockerRule) : list DockerRule :=
  match l with [] => [] | r :: l => if decide (r = rule) then l else r :: remove_rule rule l end.

Section installation.
Context (f : action → fate).

(** An action that is tried: whether it succeeded.  And one that must succeed. *)
Definition attempt (a : action) (effect : System → System) : proc bool := λ p,
  match f a with
  | Succeeds => (mkProc (effect p.(sys)) p.(guard), Done true)
  | Fails => (p, Done false)
  | Kills => (p, Killed)
  end.

Definition act (a : action) (msg : string) (effect : System → System) : proc unit :=
  ok ← attempt a effect;
  if (ok : bool) then mret tt else proc_fail msg.

Definition enable_sysctl (g : Guard) (path : str) : proc Guard :=
  _ ← act (EnableRead path) "read sysctl" id;
  s ← get_sys;
  current ← (match s.(sysctl) !! path with Some v => mret v | None => proc_fail "read sysctl" end : proc str);
  if str_eqb current (lit "1") then mret g
  else
    _ ← act (EnableWrite path) "enable sysctl" (set_sysctl path (lit "1"));
    let g := if existsb (λ e, str_eqb e.1 path) g.(g_sysctls) then g
             else mkGuard g.(g_table) g.(table_installed) (g.(g_sysctls) ++ [(path, current)]) g.(docker_rules) in
    _ ← set_guard g;
    mret g.

Fixpoint write_entries (entries : list (str * str)) : proc unit :=
  match entries with
  | [] => mret tt
  | e :: entries =>
    _ ← act (WriteEntry e.1) "write auto_redirect state" (λ s, set_state (s.(state) ++ entry_line e) s);
    write_entries entries
  end.

Definition persist_sysctl_state (g : Guard) : proc unit :=
  _ ← act TruncateState "truncate auto_redirect state" (set_state []);
  _ ← write_entries g.(g_sysctls);
  act SyncState "sync auto_redirect state" id.

Definition docker_rule (prog interface direction : str) : DockerRule :=
  mkDocker prog [lit "-w"; lit "DOCKER-USER"; direction; interface; lit "-m"; lit "comment"; lit "--comment";
    lit "xhttp-rs:" ++ interface ++ lit ":" ++ direction; lit "-j"; lit "ACCEPT"].

Fixpoint insert_docker (g : Guard) (rules : list DockerRule) : proc Guard :=
  match rules with
  | [] => mret g
  | rule :: rules =>
    ok ← attempt (DockerInsert rule) (λ s, set_docker (rule :: s.(docker)) s);
    let g := if (ok : bool) then mkGuard g.(g_table) g.(table_installed) g.(g_sysctls) (g.(docker_rules) ++ [rule]) else g in
    _ ← set_guard g;
    insert_docker g rules
  end.

Context `{N : IpNetLib}.

Definition docker_for (config : TunConfig) (g : Guard) (prog : str) (ipv6 : bool) : proc Guard :=
  if negb (existsb (of_family ipv6) config.(addresses)) then mret g
  else
    ok ← attempt (DockerProbe prog) id;
    if (ok : bool) then insert_docker g (map (docker_rule prog config.(t_interface_name)) [lit "-i"; lit "-o"]) else mret g.

Definition install_docker_compatibility (config : TunConfig) (g : Guard) : proc Guard :=
  g ← docker_for config g (lit "iptables") false;
  docker_for config g (lit "ip6tables") true.

Definition install (config : TunConfig) (local : list str) : proc unit :=
  table ← (match table_name config.(t_interface_name) with Ok t => mret t | Err msg => proc_fail msg | _ => proc_fail "panic" end : proc str);
  _ ← act OpenLock "open auto_redirect lock" id;
  _ ← act LockFile "another xhttp-rs auto_redirect instance owns this TUN interface" id;
  _ ← act ReadState "read auto_redirect state" id;
  s ← get_sys;
  let g := mkGuard table false (read_sysctl_state s.(state)) [] in
  _ ← set_guard g;
  _ ← attempt DeleteStale (λ s, set_tables (delete table s.(tables)) s);
  g ← (if existsb (of_family false) config.(addresses) then enable_sysctl g ipv4_forward else mret g);
  g ← (if existsb (of_family true) config.(addresses) then enable_sysctl g ipv6_forward else mret g);
  _ ← persist_sysctl_state g;
  _ ← act LoadScript "nftables transaction failed"
    (λ s, set_tables (<[table := default [] (s.(tables) !! table) ++ nft_lines config local]> s.(tables)) s);
  let g := mkGuard table true g.(g_sysctls) g.(docker_rules) in
  _ ← set_guard g;
  _ ← install_docker_compatibility config g;
  mret tt.

(** [Drop] *)
Fixpoint delete_docker (rules : list DockerRule) : proc unit :=
  match rules with
  | [] => mret tt
  | rule :: rules =>
    _ ← attempt (DockerDelete rule) (λ s, set_docker (remove_rule rule s.(docker)) s);
    delete_docker rules
  end.

(** Whether every value could be written back; a switch that cannot be read, or that
    somebody else changed, is left alone. *)
Fixpoint restore_sysctls (entries : list (str * str)) : proc bool :=
  match entries with
  | [] => mret true
  | (path, previous) :: entries =>
    readable ← attempt (RestoreRead path) id;
    s ← get_sys;
    restored ←
      (if (readable : bool) && bool_decide (s.(sysctl) !! path = Some (lit "1"))
       then attempt (RestoreWrite path) (set_sysctl path previous) else mret true);
    rest ← restore_sysctls entries;
    mret ((restored : bool) && (rest : bool))
  end.

Definition drop_guard (g : Guard) : proc unit :=
  _ ← delete_docker (rev g.(docker_rules));
  _ ← (if g.(table_installed) then attempt DropTable (λ s, set_tables (delete g.(g_table) s.(tables)) s) else mret true);
  restored ← restore_sysctls (rev g.(g_sysctls));
  if (restored : bool) then _ ← attempt ClearState (set_state []); mret tt else mret tt.

(** A process: it installs, runs, and drops the guard, also when installing fails.
    The result is whether there was a guard. *)
Definition session (config : TunConfig) (local : list str) (s : System) : System * ended bool :=
  let '(p, r) := install config local (mkProc s None) in
  match r, p.(guard) with
  | Killed, _ => (p.(sys), Killed)
  | _, None => (p.(sys), Done false)
  | _, Some g =>
    let '(p, r) := drop_guard g p in
    (p.(sys), match r with Killed => Killed | _ => Done true end)
  end.

End installation.

(** ** The forwarding switches come back *)

Section restoration.
Context (f : action → fate) `{N : IpNetLib} (orig : str → str).

(** What a run ends in: a value, an error, or a killed process. *)
Definition wp {A} (m : proc A) (Q : A → Proc → Prop) (E K : Proc → Prop) (p : Proc) : Prop :=
  match m p with (p', Done a) => Q a p' | (p', Failed _) => E p' | (p', Killed) => K p' end.

Lemma wp_bind {A B} (m : proc A) (k : A → proc B) Q E K p :
  wp m (λ a, wp (k a) Q E K) E K p → wp (a ← m; k a) Q E K p.
Proof. unfold wp, mbind, proc_bind. by destruct (m p) as [p' [a| |]]. Qed.

Lemma wp_mono {A} (m : proc A) Q Q' E K p : wp m Q E K p → (∀ a p', Q a p' → Q' a p') → wp m Q' E K p.
Proof. unfold wp. destruct (m p) as [p' [a| |]]; auto. Qed.

Lemma wp_weaken {A} (m : proc A) Q Q' E (K K' : Proc → Prop) p :
  wp m Q E K p → (∀ a p', Q a p' → Q' a p') → (∀ p', K p' → K' p') → wp m Q' E K' p.
Proof. unfold wp. destruct (m p) as [p' [a| |]]; auto. Qed.

Lemma wp_attempt a effect (Q : bool → Proc → Prop) E K p :
  (f a = Succeeds → Q true (mkProc (effect p.(sys)) p.(guard))) → (f a = Fails → Q false p) → (f a = Kills → K p) →
  wp (attempt f a effect) Q E K p.
Proof. unfold wp, attempt. destruct (f a); auto. Qed.

Lemma wp_act a msg effect Q (E K : Proc → Prop) p :
  (f a = Succeeds → Q tt (mkProc (effect p.(sys)) p.(guard))) → (f a = Fails → E p) → (f a = Kills → K p) →
  wp (act f a msg effect) Q E K p.
Proof. intros HQ HE HK. unfold act. apply wp_bind, wp_attempt; [|by unfold wp|done]. intros H. unfold wp. cbn. auto. Qed.

Definition entry_ok (e : str * str) : Prop := known_path e.1 = true ∧ e.2 = orig e.1.

(** Every switch has its first value, or is on and its first value is listed. *)
Definition covers (es : list (str * str)) (s : System) : Prop :=
  NoDup es.*1 ∧ Forall entry_ok es ∧
  ∀ path, known_path path = true →
    s.(sysctl) !! path = Some (orig path) ∨ (s.(sysctl) !! path = Some (lit "1") ∧ path ∈ es.*1).

(** What the lock file lists is right, if not complete. *)
Definition file_ok (s : System) : Prop :=
  NoDup (read_sysctl_state s.(state)).*1 ∧ Forall entry_ok (read_sysctl_state s.(state)).

(** The lock file lists what it must. *)
Definition recoverable (s : System) : Prop := covers (read_sysctl_state s.(state)) s.

Definition critical (a : action) : Prop :=
  match a with EnableRead _ | EnableWrite _ | TruncateState | WriteEntry _ | SyncState => True | _ => False end.

Context (orig_flag : ∀ path, known_path path = true → orig path = lit "0" ∨ orig path = lit "1").

(** Either the switches are turned on and listed without an error, and the process is
    killed before or after, if at all; or it is not killed. *)
Context (tight : bool) (orderly : if tight then ∀ a, critical a → f a = Succeeds else ∀ a, f a ≠ Kills).

Lemma critical_lives a : critical a → f a ≠ Kills.
Proof. intros Ha. destruct tight; [by rewrite (orderly a Ha)|apply orderly]. Qed.

Lemma critical_fails a : critical a → f a = Fails → tight = false.
Proof. intros Ha Hf. destruct tight; [by rewrite (orderly a Ha) in Hf|done]. Qed.

(** A guard whose list covers the system, and is in the lock file if the process may be killed. *)
Definition guard_ok (p : Proc) : Prop :=
  match p.(guard) with
  | None => recoverable p.(sys)
  | Some g => covers g.(g_sysctls) p.(sys) ∧ file_ok p.(sys) ∧ (tight = true → read_sysctl_state p.(sys).(state) = g.(g_sysctls))
  end.

Definition guard_covers (g : Guard) (p : Proc) : Prop := p.(guard) = Some g ∧ covers g.(g_sysctls) p.(sys) ∧ file_ok p.(sys).

Lemma guard_covers_failed g p : guard_covers g p → tight = false → guard_ok p.
Proof. intros (Hg & Hc & Hf) Ht. unfold guard_ok. rewrite Hg. split_and!; [done..|by rewrite Ht]. Qed.

Lemma covers_sysctl es s s' : s'.(sysctl) = s.(sysctl) → covers es s → covers es s'.
Proof. intros He (? & ? & Hc). by split_and!; [..|rewrite He]. Qed.

Lemma enable_wp g path p : known_path path = true → guard_covers g p →
  wp (enable_sysctl f g path) (λ g', guard_covers g') guard_ok (λ _, False) p.
Proof.
  intros Hp (Hg & Hc & Hfile). unfold enable_sysctl.
  apply wp_bind, wp_act; [intros _|by intros H%critical_fails; [apply (guard_covers_failed g)|]|by intros H%critical_lives].
  apply wp_bind. unfold wp at 1. cbn [get_sys]. apply wp_bind. cbn [sys id].
  assert (Hv := proj2 (proj2 Hc) path Hp).
  destruct (sysctl (sys p) !! path) as [v|] eqn:Ev; [|destruct Hv as [|[]]; done]. unfold wp at 1. cbn [mret proc_ret].
  destruct (str_eqb v (lit "1")) eqn:E1; [by unfold wp, mret, proc_ret|].
  assert (Hvo : v = orig path).
  { destruct Hv as [[= ->]|[[= ->] _]]; [done|]. by rewrite (proj2 (str_eqb_eq _ _) eq_refl) in E1. }
  apply wp_bind, wp_act; [intros _|by intros H%critical_fails; [apply (guard_covers_failed g)|]|by intros H%critical_lives].
  unfold wp, mbind, proc_bind, set_guard, mret, proc_ret. split; [done|]. split; [|exact Hfile]. destruct Hc as (Hnd & Hok & Hall). cbn [sys].
  assert (Hmem : existsb (λ e, str_eqb e.1 path) g.(g_sysctls) = true ↔ path ∈ g.(g_sysctls).*1).
  { rewrite existsb_exists, list_elem_of_fmap. split.
    - intros (e & He%list_elem_of_In & Hx%str_eqb_eq). by exists e.
    - intros (e & -> & He%list_elem_of_In). exists e. split; [done|by apply str_eqb_eq]. }
  set (g' := if existsb _ _ then g else _).
  assert (Hin : path ∈ g'.(g_sysctls).*1 ∧ g.(g_sysctls).*1 ⊆ g'.(g_sysctls).*1 ∧ NoDup g'.(g_sysctls).*1 ∧ Forall entry_ok g'.(g_sysctls)).
  { unfold g'. destruct (existsb _ _) eqn:Ex; [by split_and!; [apply Hmem|..]|]. cbn [g_sysctls]. rewrite fmap_app. cbn.
    split_and!; [set_solver|set_solver| |apply Forall_app; split; [done|by repeat constructor]].
    apply NoDup_app. split_and!; [done| |apply NoDup_singleton]. intros x Hx ->%list_elem_of_singleton. apply Hmem in Hx. congruence. }
  destruct Hin as (Hin & Hsub & Hnd' & Hok'). split_and!; [done..|]. intros path' Hp'. cbn [set_sysctl sysctl].
  destruct (decide (path' = path)) as [->|Hne]; [right; by rewrite lookup_insert_eq|].
  rewrite lookup_insert_ne by done. destruct (Hall path' Hp') as [?|[? ?]]; [by left|right]. split; [done|]. by apply Hsub.
Qed.

Lemma known_path_cases path : known_path path = true → path = ipv4_forward ∨ path = ipv6_forward.
Proof. unfold known_path. rewrite orb_true_iff, !str_eqb_eq. done. Qed.

Lemma lines_entry e rest : entry_ok e → lines (entry_line e ++ rest) = (e.1 ++ 61 :: e.2) :: lines rest ∧ state_entry (e.1 ++ 61 :: e.2) = Some e.
Proof.
  intros [Hp Hv]. destruct e as [path v]. cbn [fst snd] in *. destruct (orig_flag path Hp) as [Ho|Ho]; rewrite Ho in Hv; subst v;
    (destruct (known_path_cases path Hp) as [-> | ->]; split; reflexivity).
Qed.

Lemma read_state_text es : Forall entry_ok es → read_sysctl_state (concat (map entry_line es)) = es.
Proof.
  induction 1 as [|e es He Hes IH]; [done|]. cbn [map concat]. destruct (lines_entry e (concat (map entry_line es)) He) as [Hl Hs].
  unfold read_sysctl_state in *. rewrite Hl. cbn [omap list_omap]. by rewrite Hs, IH.
Qed.

(** A file that was begun lists the first entries. *)
Definition begun (done : list (str * str)) (s : System) : Prop := s.(state) = concat (map entry_line done).

Lemma begun_ok es done todo s : covers es s → es = done ++ todo → begun done s → file_ok s ∧ read_sysctl_state s.(state) = done.
Proof.
  intros (Hnd & Hok & _) -> Hb. apply Forall_app in Hok as [Hok _]. rewrite fmap_app in Hnd. apply NoDup_app in Hnd as [Hnd _].
  unfold file_ok. by rewrite Hb, read_state_text.
Qed.

Lemma write_entries_wp g entries : ∀ done p, g.(g_sysctls) = done ++ entries → guard_covers g p → begun done p.(sys) →
  wp (write_entries f entries) (λ _ p', guard_covers g p' ∧ begun g.(g_sysctls) p'.(sys)) guard_ok (λ _, False) p.
Proof.
  induction entries as [|e entries IH]; intros done p Hes Hg Hb; cbn [write_entries].
  - unfold wp. cbn. split; [done|]. by rewrite Hes, app_nil_r.
  - apply wp_bind, wp_act; [intros _|by intros H%critical_fails; [apply (guard_covers_failed g)|]|by intros H%critical_lives].
    assert (Hb' : begun (done ++ [e]) (set_state (state (sys p) ++ entry_line e) (sys p))).
    { unfold begun in *. cbn [set_state state]. rewrite Hb, map_app, concat_app. cbn [map concat]. by rewrite app_nil_r. }
    destruct Hg as (Hg & Hc & _). apply (IH (done ++ [e])); [by rewrite <- app_assoc| |done].
    assert (Hc' : covers g.(g_sysctls) (set_state (state (sys p) ++ entry_line e) (sys p))) by (by eapply covers_sysctl, Hc).
    split_and!; [done..|]. eapply (begun_ok _ (done ++ [e]) entries); [done|by rewrite <- app_assoc|done].
Qed.

Lemma persist_wp g p : guard_covers g p →
  wp (persist_sysctl_state f g) (λ _ p', guard_covers g p' ∧ read_sysctl_state p'.(sys).(state) = g.(g_sysctls)) guard_ok (λ _, False) p.
Proof.
  intros Hg. unfold persist_sysctl_state.
  apply wp_bind, wp_act; [intros _|by intros H%critical_fails; [apply (guard_covers_failed g)|]|by intros H%critical_lives].
  apply wp_bind. eapply wp_mono; [apply (write_entries_wp g _ []); [done| |done]|].
  - destruct Hg as (? & Hc & _). split_and!; [done|by eapply covers_sysctl, Hc|]. split; constructor.
  - intros _ p' [Hg' Hst].
    apply wp_act; [intros _|by intros H%critical_fails; [apply (guard_covers_failed g)|]|by intros H%critical_lives].
    destruct p' as [s' g0]. cbn [sys id guard] in *. split; [done|].
    apply (begun_ok g.(g_sysctls) g.(g_sysctls) [] s'); [apply Hg'|by rewrite app_nil_r|done].
Qed.

(** After the list is in the lock file: nothing else of the installation touches it. *)
Definition saved (g : Guard) (p : Proc) : Prop :=
  p.(guard) = Some g ∧ covers g.(g_sysctls) p.(sys) ∧ read_sysctl_state p.(sys).(state) = g.(g_sysctls).

Lemma listed_file es s : covers es s → read_sysctl_state s.(state) = es → file_ok s.
Proof. intros (Hnd & Hok & _) Hr. unfold file_ok. by rewrite Hr. Qed.

Lemma saved_recoverable g p : saved g p → recoverable p.(sys).
Proof. intros (_ & Hc & Hs). unfold recoverable. by rewrite Hs. Qed.

Lemma saved_guard_ok g p : saved g p → guard_ok p.
Proof. intros (Hg & Hc & Hs). unfold guard_ok. rewrite Hg. split_and!; [done| |done]. by eapply listed_file. Qed.

Lemma saved_sys g p s : s.(sysctl) = p.(sys).(sysctl) → s.(state) = p.(sys).(state) → saved g p → saved g (mkProc s p.(guard)).
Proof. intros H1 H2 (? & Hc & ?). split_and!; [done| |cbn; by rewrite H2]. by eapply covers_sysctl, Hc. Qed.

Lemma saved_guard g g' p : g'.(g_sysctls) = g.(g_sysctls) → saved g p → saved g' (mkProc p.(sys) (Some g')).
Proof. intros H (_ & ? & ?). unfold saved. cbn. by rewrite H. Qed.

Lemma insert_docker_wp rules : ∀ g p, saved g p → wp (insert_docker f g rules) saved guard_ok (λ p, recoverable p.(sys)) p.
Proof.
  induction rules as [|rule rules IH]; intros g p Hs; cbn [insert_docker]; [by unfold wp, mret, proc_ret|].
  apply wp_bind, wp_attempt; [intros _|intros _|intros _; by eapply saved_recoverable]; apply wp_bind; unfold wp at 1; cbn [set_guard]; apply IH.
  - apply (saved_guard g); [done|]. by apply saved_sys.
  - by apply (saved_guard g).
Qed.

Lemma docker_for_wp config g prog ipv6 p : saved g p → wp (docker_for f config g prog ipv6) saved guard_ok (λ p, recoverable p.(sys)) p.
Proof.
  intros Hs. unfold docker_for. destruct (negb _); [by unfold wp, mret, proc_ret|].
  apply wp_bind, wp_attempt; [intros _|intros _; by unfold wp, mret, proc_ret|intros _; by eapply saved_recoverable].
  apply insert_docker_wp. by apply saved_sys.
Qed.

(** The second half of the installation, from a guard that covers the system. *)
Lemma install_rest_wp config local table g p : guard_covers g p →
  wp (g ← (if existsb (of_family false) config.(addresses) then enable_sysctl f g ipv4_forward else mret g);
      g ← (if existsb (of_family true) config.(addresses) then enable_sysctl f g ipv6_forward else mret g);
      _ ← persist_sysctl_state f g;
      _ ← act f LoadScript "nftables transaction failed"
        (λ s, set_tables (<[table := default [] (s.(tables) !! table) ++ nft_lines config local]> s.(tables)) s);
      let g := mkGuard table true g.(g_sysctls) g.(docker_rules) in
      _ ← set_guard g;
      _ ← install_docker_compatibility f config g;
      mret tt) (λ _, guard_ok) guard_ok (λ p, recoverable p.(sys)) p.
Proof.
  intros Hc. apply wp_bind. eapply wp_weaken; [destruct (existsb _ _); [by apply enable_wp|by unfold wp, mret, proc_ret]| |done]. intros g1 p1 Hc1.
  apply wp_bind. eapply wp_weaken; [destruct (existsb _ _); [by apply enable_wp|by unfold wp, mret, proc_ret]| |done]. intros g2 p2 Hc2.
  apply wp_bind. eapply wp_weaken; [by apply persist_wp| |done]. intros [] p3 [(Hg3 & Hc3 & _) Hs3].
  assert (Hs : saved g2 p3) by done.
  apply wp_bind, wp_act; [intros _|intros _; by eapply saved_guard_ok|intros _; by eapply saved_recoverable].
  apply wp_bind. unfold wp at 1. cbn [set_guard sys]. apply wp_bind. unfold install_docker_compatibility. apply wp_bind.
  eapply wp_mono; [apply docker_for_wp; apply (saved_guard g2 (mkGuard _ _ _ _) (mkProc (set_tables _ (sys p3)) (guard p3))); [done|by apply saved_sys]|]. intros g4 p4 Hs4.
  eapply wp_mono; [by apply docker_for_wp|]. intros g5 p5 Hs5. unfold wp, mret, proc_ret. by eapply saved_guard_ok.
Qed.

Lemma install_wp config local s : recoverable s →
  wp (install f config local) (λ _, guard_ok) guard_ok (λ p, recoverable p.(sys)) (mkProc s None).
Proof.
  intros Hs. unfold install. apply wp_bind.
  destruct (table_name config.(t_interface_name)) as [table|msg| |]; unfold wp at 1; cbn [mret proc_ret proc_fail]; try done.
  do 3 (apply wp_bind, wp_act; [intros _|done|done]). cbn [sys guard id].
  apply wp_bind. unfold wp at 1. cbn [get_sys sys]. apply wp_bind. unfold wp at 1. cbn [set_guard sys].
  set (g := mkGuard table false _ _).
  assert (Hc : ∀ s', s'.(sysctl) = s.(sysctl) → s'.(state) = s.(state) → guard_covers g (mkProc s' (Some g))).
  { intros s' He Hst. split_and!; [done|by eapply covers_sysctl, Hs|]. eapply listed_file; [by eapply covers_sysctl, Hs|]. cbn. by rewrite Hst. }
  apply wp_bind, wp_attempt; [intros _; by apply install_rest_wp, Hc|intros _; by apply install_rest_wp, Hc|done].
Qed.

(** *** Dropping the guard *)

(** The list covers the system, and is in the lock file if the process may be killed. *)
Definition listed (es : list (str * str)) (p : Proc) : Prop :=
  covers es p.(sys) ∧ file_ok p.(sys) ∧ (tight = true → read_sysctl_state p.(sys).(state) = es).

Lemma listed_killed es a p : listed es p → f a = Kills → recoverable p.(sys).
Proof. intros (Hc & _ & Hs) Hk. destruct tight; [|by destruct (orderly a)]. unfold recoverable. by rewrite Hs. Qed.

Lemma listed_sys es p s : s.(sysctl) = p.(sys).(sysctl) → s.(state) = p.(sys).(state) → listed es p → listed es (mkProc s p.(guard)).
Proof. intros H1 H2 (Hc & Hf & Hs). split; [by eapply covers_sysctl, Hc|]. unfold file_ok in *. cbn. by rewrite H2. Qed.

Lemma delete_docker_wp es rules : ∀ p, listed es p → wp (delete_docker f rules) (λ _, listed es) (λ _, False) (λ p, recoverable p.(sys)) p.
Proof.
  induction rules as [|rule rules IH]; intros p Hl; cbn [delete_docker]; [done|].
  apply wp_bind, wp_attempt; [intros _|intros _|intros Hk; by eapply listed_killed]; apply IH; [by apply listed_sys|done].
Qed.

(** A switch can be read; one that cannot be written keeps its entry, so a process that may
    fail to write must have its list in the lock file. *)
Context (readable : ∀ path, f (RestoreRead path) ≠ Fails) (writable : tight = false → ∀ path, f (RestoreWrite path) ≠ Fails).

Definition restored (s : System) : Prop := ∀ path, known_path path = true → s.(sysctl) !! path = Some (orig path).

(** [todo] are the entries still to restore, [ok] whether all others were. *)
Definition restored_but (ok : bool) (todo es : list (str * str)) (p : Proc) : Prop :=
  listed es p ∧ (ok = false → ∃ path, f (RestoreWrite path) = Fails) ∧
  (ok = true → ∀ path, known_path path = true → path ∉ todo.*1 → p.(sys).(sysctl) !! path = Some (orig path)).

Lemma restored_but_done ok path todo es p :
  restored_but ok ((path, orig path) :: todo) es p → (known_path path = true → p.(sys).(sysctl) !! path = Some (orig path)) →
  restored_but ok todo es p.
Proof.
  intros (Hl & Ht & Hr) Hpath. split_and!; [done..|]. intros E path' Hp' Hn.
  destruct (decide (path' = path)) as [->|?]; [by apply Hpath|]. apply Hr; [done..|]. cbn. set_solver.
Qed.

Lemma restored_but_written ok path todo es p :
  restored_but ok ((path, orig path) :: todo) es p → known_path path = true →
  restored_but ok todo es (mkProc (set_sysctl path (orig path) p.(sys)) p.(guard)).
Proof.
  intros ([(Hnd & Hes & Hall) Hs] & Ht & Hr) Hp. apply restored_but_done with path; [|intros _; apply lookup_insert_eq].
  split_and!; [|done|].
  - split; [|exact Hs]. split_and!; [done..|]. intros path' Hp'. cbn [sys set_sysctl sysctl].
    destruct (decide (path' = path)) as [->|?]; [left; apply lookup_insert_eq|]. rewrite lookup_insert_ne by done. by apply Hall.
  - intros E path' Hp' Hn. cbn [sys set_sysctl sysctl]. destruct (decide (path' = path)) as [->|?]; [apply lookup_insert_eq|].
    rewrite lookup_insert_ne by done. by apply Hr.
Qed.

Lemma restore_wp es todo : ∀ ok p, restored_but ok todo es p → Forall entry_ok todo →
  wp (restore_sysctls f todo) (λ ok' p', restored_but (ok && ok') [] es p') (λ _, False) (λ p, recoverable p.(sys)) p.
Proof.
  induction todo as [|[path previous] todo IH]; intros ok p Hb Hok; cbn [restore_sysctls].
  { unfold wp, mret, proc_ret. by rewrite andb_true_r. }
  apply Forall_cons in Hok as [[Hp Hv] Hok]. cbn [fst snd] in Hp, Hv. subst previous.
  assert (Hstep : ∀ r p', restored_but (ok && r) todo es p' →
    wp (rest ← restore_sysctls f todo; mret (r && rest)) (λ ok' p', restored_but (ok && ok') [] es p') (λ _, False) (λ p, recoverable p.(sys)) p').
  { intros r p' Hp'. apply wp_bind. eapply wp_mono; [by apply (IH (ok && r))|]. intros ok' p'' H. unfold wp, mret, proc_ret. by rewrite andb_assoc. }
  pose proof Hb as (Hl & Ht & Hr).
  apply wp_bind, wp_attempt; [intros _|by intros []%readable|intros Hk; by eapply listed_killed].
  apply wp_bind. unfold wp at 1. cbn [get_sys sys id]. apply wp_bind. cbn [andb].
  replace (mkProc (sys p) (guard p)) with p by (by destruct p). case_bool_decide as E.
  - apply wp_attempt; [intros _|intros Hw|intros Hk; by eapply listed_killed]; apply Hstep.
    + rewrite andb_true_r. by apply restored_but_written.
    + rewrite andb_false_r. split_and!; [done|by exists path|done].
  - unfold wp at 1, mret at 1, proc_ret at 1. apply Hstep. rewrite andb_true_r. eapply restored_but_done; [done|]. intros _.
    destruct Hl as [(_ & _ & Hall) _]. by destruct (Hall path Hp) as [?|[? _]].
Qed.

(** The list is still in the lock file, or no longer needed. *)
Lemma listed_recoverable es p : listed es p → tight = true ∨ restored p.(sys) → recoverable p.(sys).
Proof.
  intros (Hc & [Hnd Hok] & Hs) [Ht|Hr]; unfold recoverable; [by rewrite Hs|].
  split_and!; [done..|]. intros path Hp. left. by apply Hr.
Qed.

Lemma clear_wp ok es p : restored_but ok [] es p →
  wp (if ok then _ ← attempt f ClearState (set_state []); mret tt else mret tt)
    (λ _ p', recoverable p'.(sys) ∧ ((∀ path, f (RestoreWrite path) ≠ Fails) → restored p'.(sys))) (λ _, False) (λ p, recoverable p.(sys)) p.
Proof.
  intros (Hl & Hf & Hr). destruct ok.
  - assert (Hres : restored p.(sys)) by (intros path Hp; apply Hr; [done..|apply not_elem_of_nil]).
    apply wp_bind, wp_attempt; [intros _|intros _|intros Hk; by eapply listed_killed]; unfold wp, mret, proc_ret; (split; [|done]).
    + unfold recoverable. split_and!; [constructor..|]. intros path Hp. left. by apply Hres.
    + eapply listed_recoverable; [done|by right].
  - destruct (Hf eq_refl) as [path Hw]. unfold wp, mret, proc_ret. split; [|by intros []%(λ H, H path)].
    eapply listed_recoverable; [done|]. left. destruct tight; [done|]. by destruct (writable eq_refl path).
Qed.

Lemma drop_wp g p : guard_ok p → p.(guard) = Some g →
  wp (drop_guard f g) (λ _ p', recoverable p'.(sys) ∧ ((∀ path, f (RestoreWrite path) ≠ Fails) → restored p'.(sys)))
    (λ _, False) (λ p, recoverable p.(sys)) p.
Proof.
  intros Hg E. unfold guard_ok in Hg. rewrite E in Hg. unfold drop_guard. change (listed g.(g_sysctls) p) in Hg.
  apply wp_bind. eapply wp_mono; [by apply delete_docker_wp|]. intros [] p1 H1.
  apply wp_bind. assert (Htable : wp (if g.(table_installed) then attempt f DropTable (λ s, set_tables (delete g.(g_table) s.(tables)) s) else mret true)
    (λ _, listed g.(g_sysctls)) (λ _, False) (λ p, recoverable p.(sys)) p1).
  { destruct (table_installed g); [|done]. apply wp_attempt; [intros _; by apply listed_sys|done|intros Hk; by eapply listed_killed]. }
  eapply wp_mono; [exact Htable|]. intros ? p2 H2. apply wp_bind. eapply wp_mono; [apply (restore_wp g.(g_sysctls) _ true)|].
  - split_and!; [done..|]. intros _ path Hp Hn. destruct H2 as [(_ & _ & Hall) _]. destruct (Hall path Hp) as [?|[_ Hin]]; [done|]. destruct Hn.
    apply list_elem_of_In. change (In path (map fst (rev (g_sysctls g)))). rewrite map_rev, <- in_rev. by apply list_elem_of_In.
  - apply Forall_rev. apply H2.
  - intros ok p3 H3. exact (clear_wp ok _ _ H3).
Qed.

Lemma session_wp config local s : recoverable s →
  let '(s', r) := session f config local s in
  recoverable s' ∧ (r = Done true → (∀ path, f (RestoreWrite path) ≠ Fails) → restored s').
Proof.
  intros Hs. unfold session. assert (Hi := install_wp config local s Hs). unfold wp in Hi.
  destruct (install f config local (mkProc s None)) as [p [a|msg|]]; [| |done].
  all: destruct p.(guard) as [g|] eqn:Eg; [|unfold guard_ok in Hi; rewrite Eg in Hi; done].
  all: assert (Hd := drop_wp g p Hi Eg); unfold wp in Hd; destruct (drop_guard f g p) as [p' [[]|msg'|]]; [|done|done].
  all: by destruct Hd.
Qed.

End restoration.

(** What may go wrong with a process: anything but that it cannot read a switch when it ends;
    and if it is killed or cannot write a switch back, it turned the switches on and listed
    them without an error. *)
Definition orderly_fate (f : action → fate) : Prop :=
  (∀ path, f (RestoreRead path) ≠ Fails) ∧
  ((∀ a, critical a → f a = Succeeds) ∨ ((∀ a, f a ≠ Kills) ∧ ∀ path, f (RestoreWrite path) ≠ Fails)).

Definition run_sessions `{N : IpNetLib} (config : TunConfig) (local : list str) (fates : list (action → fate)) (s : System) : System :=
  fold_left (λ s f, (session f config local s).1) fates s.

(** C34: the device leaves the forwarding switches of the kernel as it found them: after any
    number of processes that ended in error, were killed or could not write a switch back or
    clear their list, one that ends by itself and can write to the switches restores the
    values from before the first.  Conditions on the processes before: each can read a
    switch when it ends (one that cannot is skipped and its entry lost), and one that is
    killed or cannot write a switch back had turned the switches on and listed them in the
    lock file without an error. *)
Theorem forwarding_restored `{N : IpNetLib} (orig : str → str) config local fates f s :
  (∀ path, known_path path = true → orig path = lit "0" ∨ orig path = lit "1") →
  restored orig s → s.(state) = [] → Forall orderly_fate fates → orderly_fate f → (∀ path, f (RestoreWrite path) ≠ Fails) →
  let '(s', r) := session f config local (run_sessions config local fates s) in
  r = Done true → restored orig s'.
Proof.
  intros Hflag Hr Hst Hfs Hf Hwrites.
  assert (Hone : ∀ f s, orderly_fate f → recoverable orig s →
    let '(s', r) := session f config local s in recoverable orig s' ∧ (r = Done true → (∀ path, f (RestoreWrite path) ≠ Fails) → restored orig s')).
  { intros f' s0 [Hread [Ht|[Hk Hw]]] Hs0; [by apply (session_wp f' orig Hflag true Ht Hread)|by apply (session_wp f' orig Hflag false Hk Hread)]. }
  assert (Hall : recoverable orig (run_sessions config local fates s)).
  { assert (Hs : recoverable orig s).
    { unfold recoverable. rewrite Hst. split_and!; [constructor|constructor|]. intros path Hp. left. by apply Hr. }
    clear Hr Hst. unfold run_sessions. revert s Hs. induction Hfs as [|f' fs Hf' Hfs' IH]; intros s Hs; cbn [fold_left]; [done|].
    apply IH. specialize (Hone f' s Hf' Hs). by destruct (session f' config local s) as [s' r], Hone. }
  specialize (Hone f _ Hf Hall). destruct (session f config local _) as [s' r]. destruct Hone as [_ Hres]. intros E. by apply Hres.
Qed.

Module Switches.

Definition off : System := mkSystem {[ ipv4_forward := lit "0"; ipv6_forward := lit "0" ]} [] ∅ [].
Definition orig (_ : str) : str := lit "0".

Definition smooth (_ : action) : fate := Succeeds.

(** Killed when the script is loaded, or while the list is written. *)
Definition killed_loading (a : action) : fate := match a with LoadScript => Kills | _ => Succeeds end.
Definition killed_saving (a : action) : fate := match a with WriteEntry _ => Kills | _ => Succeeds end.

(** The switches cannot be written back. *)
Definition stuck_switch (a : action) : fate := match a with RestoreWrite _ => Fails | _ => Succeeds end.

Definition value (s : System) : option str := s.(sysctl) !! ipv4_forward.

(** The next process restores what a killed one changed, but not when it was killed before
    its list was complete. *)
Example next_process_restores :
  let run fates := run_sessions (N := Hosts.net) Hosts.config [] fates off in
  value (run [killed_loading]) = Some (lit "1") ∧ value (run [killed_loading; smooth]) = Some (lit "0") ∧
  value (run [killed_saving; smooth]) = Some (lit "1").
Proof. by vm_compute. Qed.

End Switches.

(** After a process that was killed and one that could not write the switches back. *)
Lemma forwarding_restored_witness :
  let '(s, r) := session (N := Hosts.net) Switches.smooth Hosts.config []
    (run_sessions (N := Hosts.net) Hosts.config [] [Switches.killed_loading; Switches.stuck_switch] Switches.off) in
  r = Done true ∧ restored Switches.orig s.
Proof.
  assert (T := forwarding_restored (N := Hosts.net) Switches.orig Hosts.config [] [Switches.killed_loading; Switches.stuck_switch] Switches.smooth Switches.off).
  assert (E : (session (N := Hosts.net) Switches.smooth Hosts.config []
    (run_sessions (N := Hosts.net) Hosts.config [] [Switches.killed_loading; Switches.stuck_switch] Switches.off)).2 = Done true) by (vm_compute; reflexivity).
  destruct (session _ _ _ _) as [s r]. cbn [snd] in E. split; [exact E|]. apply T; [by left| |done| | |done|exact E].
  - intros path Hp. destruct (known_path_cases path Hp) as [-> | ->]; reflexivity.
  - apply Forall_cons. split; [|apply Forall_cons; split; [|constructor]]; (split; [done|left; by intros []]).
  - split; [done|left; by intros []].
Defined.
