(* ===== verification/Validate.v ===== *)
(** * Validation of a configuration (src/src/singbox.rs, src/src/proxy/mod.rs)

    What is checked before anything runs, and the table of outbounds that is built
    afterwards.  The theorems connect the two with the router and with the groups:
    what was validated can be built, and what the rules route to is there. *)

From S2P Require Import Prelude RustStr Net Util Vless Http Routing RouteEval DnsRule DnsTransport.
From S2P Require Import DnsCache DnsResolver Config Tls Outbound UdpNat Tun.

(** ** Data *)

Record LogConfig := mkLog { disabled : bool; level : option str; output : option str; timestamp : option bool }.

Record HttpClientConfig := mkHttpClient { hc_tag : str; hc_detour : option str }.

Record CacheFileConfig := mkCacheFile { cf_enabled : bool; cf_path : option str; store_fakeip : bool; store_dns : bool }.

Record ClashApiConfig := mkClash {
  external_controller : option str;
  external_ui : option str;
  external_ui_download_url : option str;
  external_ui_download_detour : option str;
  secret : option str;
  access_control_allow_origin : list str;
  access_control_allow_private_network : bool;
}.

Record ExperimentalConfig := mkExperimental { clash_api : option ClashApiConfig; cache_file : option CacheFileConfig }.

(** What the checks use of [anytls]. *)
Class PaddingLib := { padding_parse : bytes → bool }.

(** The files, the native certificates and the memory of the system. *)
Record Host `{TlsLib} := mkHost {
  h_read : str → option bytes;
  h_native : list Cert * bool;
  h_meminfo : option str;
  h_roots : result unit;
  h_http : result unit;
}.

Section validate.
Context `{N : IpNetLib} `{R : RegexLib} `{H : HttpLib} `{T : TlsLib} `{U : UuidLib} `{A : PaddingLib}.
Context (host : Host).

Record SingBoxConfig := mkSingBox {
  s_log : option LogConfig;
  s_dns : option DnsConfig;
  s_route : option RouteConfig;
  s_inbounds : list Inbound;
  s_outbounds : list OutboundConfig;
  s_experimental : option ExperimentalConfig;
  s_http_clients : list HttpClientConfig;
}.

(** ** Inbounds *)

Definition non_empty (o : option str) : option str := s ← o; match s with [] => None | _ => Some s end.

Definition no_material (inline : list str) (path : option str) : bool := is_nil inline && is_none path.

Definition no_server_material (tls : TlsConfig) : bool :=
  no_material tls.(tls_certificate) tls.(tls_certificate_path) || no_material tls.(tls_key) tls.(tls_key_path).

Definition validate_proxy_inbound (i : Inbound) : result Z :=
  _ ← context i.(in_listen_port) "proxy inbound requires listen_port";
  _ ← iter_result (λ user,
        _ ← context (non_empty user.(u_name)) "proxy inbound user requires name";
        _ ← context user.(u_password) "proxy inbound user requires password"; Ok tt) i.(in_users);
  if is_some (enabled_tls i.(in_tls)) then Err "TLS on proxy inbounds is not supported" else Ok 1.

Definition validate_vless_inbound (i : Inbound) (transport : XHttpTransport) : result Z :=
  _ ← context i.(in_listen_port) "VLESS XHTTP inbound requires listen_port";
  _ ← Config.build transport;
  if is_nil i.(in_users) then Err "VLESS XHTTP inbound requires at least one user" else
  _ ← iter_result (λ user,
        uuid ← context user.(u_uuid) "VLESS inbound user requires uuid";
        _ ← context (uuid_parse uuid) "invalid VLESS inbound UUID";
        if is_some (non_empty user.(u_flow)) then Err "VLESS flow is not supported with XHTTP" else Ok tt) i.(in_users);
  match enabled_tls i.(in_tls) with
  | Some tls => if no_server_material tls
                then Err "TLS inbound requires certificate/key or certificate_path/key_path" else Ok 1
  | None => Ok 1
  end.

Definition validate_anytls_inbound (i : Inbound) : result Z :=
  _ ← context i.(in_listen_port) "AnyTLS inbound requires listen_port";
  if is_nil i.(in_users) then Err "AnyTLS inbound requires at least one user" else
  _ ← iter_result (λ user, _ ← context (non_empty user.(u_password)) "AnyTLS inbound user requires password"; Ok tt) i.(in_users);
  if negb (is_nil i.(in_padding_scheme)) && negb (padding_parse (join [10] i.(in_padding_scheme)))
  then Err "invalid AnyTLS padding_scheme" else
  _ ← match enabled_tls i.(in_tls) with
      | Some tls => if no_server_material tls then Err "AnyTLS TLS inbound requires certificate and key"
                    else validate_server_tls host.(h_read) tls
      | None => Ok tt
      end;
  match tls ← i.(in_tls); enabled_ech tls with
  | Some ech =>
    if negb (is_nil ech.(ech_key)) && negb (is_none ech.(ech_key_path)) then Err "ECH key and key_path are mutually exclusive"
    else if no_material ech.(ech_key) ech.(ech_key_path) then Err "AnyTLS ECH inbound requires key or key_path" else Ok 1
  | None => Ok 1
  end.

Definition is_type (t : str) (names : list string) : bool := existsb (λ n, str_eqb t (lit n)) names.

Definition validate_inbound (i : Inbound) : result Z :=
  if is_type i.(in_type) ["socks"; "http"; "mixed"; "tproxy"]%string then validate_proxy_inbound i
  else if is_type i.(in_type) ["vless"%string] then
    match i.(in_transport) with
    | Some x => if str_eqb x.(x_type) (lit "xhttp") then validate_vless_inbound i x else Ok 0
    | None => Ok 0
    end
  else if is_type i.(in_type) ["anytls"%string] then validate_anytls_inbound i
  else if is_type i.(in_type) ["tun"%string] then _ ← from_inbound host.(h_meminfo) i; Ok 1
  else Ok 0.

(** ** Outbounds *)

(** The check of an ECH configuration: inline, from a file or from DNS. *)
Definition validate_ech (has_dns : bool) (parse_empty : bool) (tls : option TlsConfig) : result unit :=
  match tls ← tls; enabled_ech tls with
  | None => Ok tt
  | Some ech =>
    let parse pem := if is_nil pem && negb parse_empty then Ok tt else _ ← parse_ech_config pem; Ok tt in
    if negb (is_nil ech.(ech_config)) && negb (is_none ech.(ech_config_path))
    then Err "ECH config and config_path are mutually exclusive" else
    if negb (is_nil ech.(ech_config)) then parse (join [10] ech.(ech_config))
    else match ech.(ech_config_path) with
         | Some path => pem ← context (host.(h_read) path) "read ECH config"; parse pem
         | None => if has_dns then Ok tt else Err "DNS-discovered ECH requires a DNS configuration"
         end
  end.

Definition validate_vless_outbound (has_dns : bool) (o : OutboundConfig) : result unit :=
  _ ← context o.(out_server) "VLESS outbound requires server";
  uuid ← context o.(out_uuid) "VLESS outbound requires uuid";
  _ ← context (uuid_parse uuid) "invalid VLESS outbound UUID";
  if is_some (non_empty o.(out_flow)) then Err "VLESS flow is not supported with XHTTP" else
  x ← context o.(out_transport) "VLESS outbound requires XHTTP transport";
  _ ← Config.build x;
  _ ← validate_ech has_dns false o.(out_tls);
  if none_or_one_of o.(out_packet_encoding) [""; "xudp"]%string then Ok tt else Err "unsupported VLESS packet_encoding".

Definition validate_anytls_outbound (has_dns : bool) (o : OutboundConfig) : result unit :=
  _ ← context o.(out_server) "AnyTLS outbound requires server";
  _ ← context (non_empty o.(out_password)) "AnyTLS outbound requires password";
  if negb (is_some (enabled_tls o.(out_tls))) then Err "AnyTLS outbound requires TLS" else
  _ ← validate_ech has_dns true o.(out_tls);
  validate_anytls host.(h_native) host.(h_read) o.

Definition validate_outbound (has_dns : bool) (o : OutboundConfig) : result unit :=
  _ ← validate_tls_versions o.(out_tls);
  if is_type o.(out_type) ["direct"; "block"; "selector"; "urltest"]%string then Ok tt
  else if is_type o.(out_type) ["vless"%string] then validate_vless_outbound has_dns o
  else if is_type o.(out_type) ["anytls"%string] then validate_anytls_outbound has_dns o
  else Err "unsupported outbound type for proxy inbound".

(** ** The whole configuration *)

Definition tag_of (o : OutboundConfig) : str := default o.(out_type) o.(out_tag).

Definition proxy_types : list string := ["socks"; "http"; "mixed"; "anytls"; "tun"; "tproxy"]%string.
Definition has_proxy_inbound (c : SingBoxConfig) : bool := existsb (λ i, is_type i.(in_type) proxy_types) c.(s_inbounds).

Fixpoint count_inbounds (l : list Inbound) (supported : Z) : result Z :=
  match l with
  | [] => Ok supported
  | i :: l => n ← validate_inbound i; count_inbounds l (supported + n)
  end.

Fixpoint collect_tags (proxy has_dns : bool) (tags : gset str) (l : list OutboundConfig) : result (gset str) :=
  match l with
  | [] => Ok tags
  | o :: l =>
    if bool_decide (tag_of o ∈ tags) then Err "duplicate outbound tag" else
    _ ← (if proxy then validate_outbound has_dns o else Ok tt);
    collect_tags proxy has_dns ({[tag_of o]} ∪ tags) l
  end.

Definition is_group_type (o : OutboundConfig) : bool := is_type o.(out_type) ["selector"; "urltest"]%string.

Definition validate_group (tags : gset str) (o : OutboundConfig) : result unit :=
  if negb (is_group_type o) then Ok tt else
  if is_nil o.(out_outbounds) then Err "outbound requires at least one member" else
  if match o.(out_default) with Some d => negb (bool_decide (d ∈ o.(out_outbounds))) | None => false end
  then Err "outbound default is not a member" else
  iter_result (λ member, if bool_decide (member ∈ tags) then Ok tt else Err "outbound references unknown outbound") o.(out_outbounds).

(** A reference to an outbound that may be absent or empty. *)
Definition known_detour (tags : gset str) (detour : option str) : bool :=
  match non_empty detour with Some d => bool_decide (d ∈ tags) | None => true end.

Definition validate_http_clients (tags : gset str) (clients : list HttpClientConfig) (route : option RouteConfig) : result unit :=
  _ ← iter_result (λ c,
        if is_nil c.(hc_tag) then Err "http_client requires a tag" else
        if known_detour tags c.(hc_detour) then Ok tt else Err "http_client detour references unknown outbound") clients;
  match non_empty (r ← route; r.(default_http_client)) with
  | Some tag => if existsb (λ c, str_eqb c.(hc_tag) tag) clients then Ok tt
                else Err "route default_http_client references unknown http_client"
  | None => Ok tt
  end.

Fixpoint rule_outbounds (rule : RouteRule) : list str :=
  match rule.(r_outbound) with Some o => [o] | None => [] end ++ concat (map rule_outbounds rule.(r_rules)).

Definition collect_route_outbounds (rules : list RouteRule) : list str := concat (map rule_outbounds rules).

(** [elements] is some order of the set; the compilation does not depend on it. *)
Definition validate_route (env : RuleSetEnv) (tags : gset str) (route : RouteConfig) : result unit :=
  _ ← compile_inner env route (default (lit "direct") (head (elements tags))) false None;
  iter_result (λ tag, if bool_decide (tag ∈ tags) then Ok tt else Err "route references unknown outbound")
    (collect_route_outbounds route.(config_rules) ++ match route.(config_final) with Some t => [t] | None => [] end).

Context `{HI : !HashIter CacheKey CacheEntry}.

Definition validate_dns (tags : gset str) (route : option RouteConfig) (dns : DnsConfig) : result unit :=
  let set_tags := match route with Some r => set_tag <$> r.(config_rule_set) | None => [] end in
  _ ← iter_result (λ rule, iter_result (λ tag,
        if bool_decide (tag ∈ set_tags) then Ok tt else Err "DNS rule references unknown rule-set") (fields rule).(f_rule_set))
        dns.(c_rules);
  _ ← iter_result (λ server,
        if known_detour tags server.(ds_detour) then Ok tt else Err "DNS server detour references unknown outbound") dns.(c_servers);
  _ ← with_rule_sets host.(h_roots) host.(h_http) dns None;
  let server_tags := ds_tag <$> dns.(c_servers) in
  _ ← iter_result (λ tag, if bool_decide (tag ∈ server_tags) then Ok tt else Err "DNS rule references unknown server")
        (omap (λ rule, (fields rule).(f_server)) dns.(c_rules));
  match non_empty (r ← route; r.(config_domain_resolver)) with
  | Some tag => if bool_decide (tag ∈ server_tags) then Ok tt
                else Err "route default_domain_resolver references unknown DNS server"
  | None => Ok tt
  end.

Definition validate_experimental (tags : gset str) (e : option ExperimentalConfig) : result unit :=
  let clash := e ← e; e.(clash_api) in
  if match clash with Some c => is_none (non_empty c.(external_controller)) | None => false end
  then Err "clash_api requires external_controller" else
  _ ← match e ← e; f ← e.(cache_file); if f.(cf_enabled) then Some f else None with
      | Some f =>
        if f.(store_fakeip) then Err "cache_file store_fakeip requires fake-IP DNS and is not supported" else
        if f.(store_dns) then _ ← context (non_empty f.(cf_path)) "cache_file store_dns requires a path"; Ok tt else Ok tt
      | None => Ok tt
      end;
  if known_detour tags (c ← clash; c.(external_ui_download_detour)) then Ok tt
  else Err "clash_api external_ui_download_detour references unknown outbound".

Definition validate_runtime (env : RuleSetEnv) (c : SingBoxConfig) : result unit :=
  supported ← count_inbounds c.(s_inbounds) 0;
  if supported =? 0 then Err "no supported inbound found" else
  tags ← collect_tags (has_proxy_inbound c) (is_some c.(s_dns)) ∅ c.(s_outbounds);
  _ ← iter_result (validate_group tags) c.(s_outbounds);
  _ ← validate_http_clients tags c.(s_http_clients) c.(s_route);
  _ ← match c.(s_route) with Some route => validate_route env tags route | None => Ok tt end;
  _ ← match c.(s_dns) with Some dns => validate_dns tags c.(s_route) dns | None => Ok tt end;
  validate_experimental tags c.(s_experimental).

End validate.

(** ** The table of outbounds *)

(** [config::ClientTlsConfig]; the cache of a discovered ECH configuration is known by
    the name it is asked for. *)
Record ClientTlsConfig := mkClientTlsConfig {
  ct_insecure : bool;
  ct_ca_certificate : option str;
  ct_ca_pem : option str;
  ct_certificate_public_key_sha256 : list str;
  ct_client_certificate : option str;
  ct_client_certificate_path : option str;
  ct_client_key : option str;
  ct_client_key_path : option str;
  ct_http2_only : bool;
  ct_http3 : bool;
  ct_ech_config : option str;
  ct_ech_config_path : option str;
  ct_ech_config_bytes : option bytes;
  ct_ech_dns_name : option str;
  ct_disable_sni : bool;
  ct_min_version : option str;
  ct_max_version : option str;
}.

Record ClientConfig := mkClientConfig {
  cc_listen : str;
  cc_server : str;
  cc_connect_addr : option SocketAddr;
  cc_transport : TransportConfig;
  cc_tls : ClientTlsConfig;
}.

Definition default_tls : TlsConfig :=
  mkTls false None false false None None [] [] None None [] [] None [] None None [] [] None.

Definition joined (l : list str) : option str := match l with [] => None | _ => Some (join [10] l) end.

Definition client_tls (tls : TlsConfig) (ech_dns_name : option str) : ClientTlsConfig :=
  mkClientTlsConfig tls.(tls_insecure) tls.(tls_certificate_path) (joined tls.(tls_certificate))
    tls.(tls_certificate_public_key_sha256) (joined tls.(tls_client_certificate)) tls.(tls_client_certificate_path)
    (joined tls.(tls_client_key)) tls.(tls_client_key_path) false (existsb (str_eqb (lit "h3")) tls.(tls_alpn))
    (ech ← enabled_ech tls; joined ech.(ech_config)) (ech ← enabled_ech tls; ech.(ech_config_path)) None ech_dns_name
    tls.(tls_disable_sni) tls.(tls_min_version) tls.(tls_max_version).

(** The name an ECH configuration is looked up under, if it comes from DNS. *)
Definition ech_query_name (tls : TlsConfig) (server : str) : option str :=
  ech ← enabled_ech tls;
  if no_material ech.(ech_config) ech.(ech_config_path)
  then Some (default (default server tls.(tls_server_name)) ech.(ech_query_server_name)) else None.

Section build.
Context `{H : HttpLib} `{T : TlsLib} {XhttpClient : Type}.

(** [Client::new], and the system's resolution of the server's name. *)
Context (host : Host) (client_new : ClientConfig → result XhttpClient) (to_socket_addrs : str → Z → result (list SocketAddr)).

Abbreviation XDialer := (Dialer (AnyTlsClient := AnyTlsClient) (XhttpClient := XhttpClient)).
Abbreviation XRuntime := (Runtime (AnyTlsClient := AnyTlsClient) (XhttpClient := XhttpClient)).

Definition packet_encoding_xudp (e : option str) : result bool :=
  match e with
  | None => Ok true
  | Some v => if str_eqb v (lit "xudp") then Ok true else if str_eqb v [] then Ok false
              else Err "unsupported VLESS packet_encoding"
  end.

(** What [Client::new] is called with. *)
Definition vless_client_config (resolver : bool) (o : OutboundConfig) : result ClientConfig :=
  x ← context o.(out_transport) "VLESS outbound requires transport";
  transport ← Config.build x;
  let tls := default default_tls o.(out_tls) in
  let scheme := if tls.(tls_enabled) then lit "https" else lit "http" in
  server ← context o.(out_server) "VLESS outbound requires server";
  let port := default (if tls.(tls_enabled) then 443 else 80) o.(out_server_port) in
  let url_name := if tls.(tls_enabled) then default server tls.(tls_server_name) else server in
  let url := scheme ++ lit "://" ++ url_host url_name ++ [c_colon] ++ print_uint port ++ transport.(path) in
  let ech_name := ech_query_name tls server in
  if is_some ech_name && negb resolver then Err "DNS-discovered ECH requires a DNS configuration" else
  connect_addr ← (if str_eqb url_name server then Ok None else addrs ← to_socket_addrs server port; Ok (head addrs));
  Ok (mkClientConfig [] url connect_addr transport (client_tls tls ech_name)).

Definition build_vless (resolver : bool) (o : OutboundConfig) : result XDialer :=
  config ← vless_client_config resolver o;
  client ← client_new config;
  user ← context o.(out_uuid) "VLESS outbound requires uuid";
  xudp ← packet_encoding_xudp o.(out_packet_encoding);
  Ok (VlessDialer client user xudp).

Definition add_dialer (rt : XRuntime) (tag : str) (d : XDialer) : XRuntime :=
  mkRuntime (<[tag := d]> rt.(dialers)) rt.(groups) rt.(store).

Definition add_group (rt : XRuntime) (tag : str) (id : nat) (g : Group) : XRuntime :=
  mkRuntime (<[tag := GroupDialer id]> rt.(dialers)) (<[tag := id]> rt.(groups)) (<[id := g]> rt.(store)).

(** One outbound; [id] is the group it creates, if it is one. *)
Definition build_outbound (resolver : bool) (rt : XRuntime) (id : nat) (o : OutboundConfig) : result XRuntime :=
  let tag := tag_of o in
  if is_group_type o then
    let kind := if str_eqb o.(out_type) (lit "selector") then Selector else UrlTest in
    g ← group_new kind o.(out_outbounds) o.(out_default) o.(out_url) o.(out_interval) o.(out_tolerance);
    Ok (add_group rt tag id g)
  else if is_type o.(out_type) ["direct"%string] then Ok (add_dialer rt tag Direct)
  else if is_type o.(out_type) ["vless"%string] then d ← build_vless resolver o; Ok (add_dialer rt tag d)
  else if is_type o.(out_type) ["anytls"%string] then
    client ← build_client host.(h_native) host.(h_read) o; Ok (add_dialer rt tag (AnyTls client))
  else if is_type o.(out_type) ["block"%string] then Ok (add_dialer rt tag Block)
  else Err "unsupported outbound type".

Fixpoint build_outbounds (resolver : bool) (rt : XRuntime) (id : nat) (l : list OutboundConfig) : result XRuntime :=
  match l with
  | [] => Ok rt
  | o :: l => rt ← build_outbound resolver rt id o; build_outbounds resolver rt (S id) l
  end.

(** [dialers.entry("direct").or_insert(Direct)] *)
Definition with_direct (rt : XRuntime) : XRuntime :=
  if bool_decide (is_Some (rt.(dialers) !! lit "direct")) then rt else add_dialer rt (lit "direct") Direct.

(** The outbounds of [build_runtime] *)
Definition build_dialers (resolver : bool) (l : list OutboundConfig) : result XRuntime :=
  rt ← build_outbounds resolver (mkRuntime ∅ ∅ ∅) 0 l; Ok (with_direct rt).

(** The outbound of a router without a final one. *)
Definition default_outbound (l : list OutboundConfig) : str := default (lit "direct") (head (tag_of <$> l)).

(** [build_runtime]: the configuration of the router, with the interface that was found. *)
Definition runtime_route (detected : option str) (route : option RouteConfig) : RouteConfig :=
  let r := default (mkRouteConfig [] [] None None None None None None None None) route in
  if bool_decide (r.(auto_detect_interface) = Some true)
  then mkRouteConfig r.(config_rules) r.(config_rule_set) r.(config_final) r.(auto_detect_interface) detected r.(default_mark)
         r.(default_network_strategy) r.(default_fallback_delay) r.(default_http_client) r.(config_domain_resolver)
  else r.

End build.

(** ** What validation knows *)

Section tags.
Context `{N : IpNetLib} `{R : RegexLib} `{H : HttpLib} `{T : TlsLib} `{U : UuidLib} `{A : PaddingLib}.
Context (host : Host) (env : RuleSetEnv).
Context `{HI : !HashIter CacheKey CacheEntry}.

Abbreviation tags_of l := (list_to_set (tag_of <$> l) : gset str).

Lemma checked_Ok (P : Prop) `{Decision P} msg : (if bool_decide P then Ok tt else Err msg) = Ok tt → P.
Proof. by case_bool_decide. Qed.

Lemma collect_tags_spec proxy has_dns l : ∀ tags tags', collect_tags host proxy has_dns tags l = Ok tags' →
  tags' = tags ∪ tags_of l ∧ NoDup (tag_of <$> l) ∧ (∀ o, o ∈ l → tag_of o ∉ tags) ∧
  (proxy = true → Forall (λ o, validate_outbound host has_dns o = Ok tt) l).
Proof.
  induction l as [|o l IH]; intros tags tags' Hc; cbn [collect_tags] in Hc.
  { apply Ok_inj in Hc. subst. split_and!; [set_solver|constructor|set_solver|constructor]. }
  case_bool_decide as Ho; [done|]. apply bind_Ok in Hc as ([] & Hv & Hc).
  apply IH in Hc as (-> & Hnd & Hout & Hval). cbn [fmap list_fmap list_to_set]. split_and!.
  - set_solver.
  - constructor; [|done]. intros Hin. apply list_elem_of_fmap in Hin as (o' & E & Ho'). apply (Hout o' Ho'). set_solver.
  - intros o' [->|Ho']%elem_of_cons; [done|]. specialize (Hout o' Ho'). set_solver.
  - intros ->. constructor; [done|by apply Hval].
Qed.

(** Everything the later steps rely on. *)
Record validated (c : SingBoxConfig) : Prop := mkValidated {
  v_distinct : NoDup (tag_of <$> c.(s_outbounds));
  v_outbounds : has_proxy_inbound c = true → Forall (λ o, validate_outbound host (is_some c.(s_dns)) o = Ok tt) c.(s_outbounds);
  v_groups : Forall (λ o, validate_group (tags_of c.(s_outbounds)) o = Ok tt) c.(s_outbounds);
  v_routes : ∀ route tag, c.(s_route) = Some route →
    tag ∈ collect_route_outbounds route.(config_rules) ∨ route.(config_final) = Some tag → tag ∈ tags_of c.(s_outbounds);
}.

Lemma validate_runtime_spec c : validate_runtime host env c = Ok tt → validated c.
Proof.
  unfold validate_runtime. intros Hv. apply bind_Ok in Hv as (n & _ & Hv). destruct (n =? 0); [done|].
  apply bind_Ok in Hv as (tags & Ht & Hv). apply collect_tags_spec in Ht as (Et & Hnd & _ & Ho).
  rewrite union_empty_l_L in Et. subst tags.
  apply bind_Ok in Hv as ([] & Hg & Hv). apply iter_result_Ok in Hg.
  apply bind_Ok in Hv as (_ & _ & Hv). apply bind_Ok in Hv as ([] & Hr & _).
  split; [done|done|done|]. intros route tag E Htag. rewrite E in Hr. unfold validate_route in Hr.
  apply bind_Ok in Hr as (_ & _ & Hr). apply iter_result_Ok in Hr. rewrite Forall_app in Hr. destruct Hr as [Hrules Hfinal].
  rewrite Forall_forall in Hrules, Hfinal. destruct Htag as [Htag|Htag].
  - exact (checked_Ok _ _ (Hrules tag Htag)).
  - rewrite Htag in Hfinal. assert (Hin : tag ∈ [tag]) by (by left). exact (checked_Ok _ _ (Hfinal tag Hin)).
Qed.

Lemma validate_group_spec tags o : validate_group tags o = Ok tt → is_group_type o = true →
  o.(out_outbounds) ≠ [] ∧ (∀ d, o.(out_default) = Some d → d ∈ o.(out_outbounds)) ∧ Forall (λ m, m ∈ tags) o.(out_outbounds).
Proof.
  unfold validate_group. intros Hv Hgt. rewrite Hgt in Hv. cbn [negb] in Hv. destruct o.(out_outbounds) as [|m ms] eqn:E; [done|]. cbn [is_nil] in Hv.
  destruct (match o.(out_default) with Some d => _ | None => false end) eqn:Ed; [done|].
  apply iter_result_Ok in Hv. split_and!; [done| |].
  - intros d Hd. rewrite Hd in Ed. apply negb_false_iff in Ed. by apply bool_decide_eq_true in Ed.
  - eapply Forall_impl; [exact Hv|]. intros x Hx. exact (checked_Ok _ _ Hx).
Qed.

End tags.

(** ** What is built from a validated configuration *)

Section built.
Context `{N : IpNetLib} `{R : RegexLib} `{H : HttpLib} `{T : TlsLib} `{U : UuidLib} `{A : PaddingLib}.
Context `{HI : !HashIter CacheKey CacheEntry} {XhttpClient : Type}.
Context (host : Host) (env : RuleSetEnv).
Context (client_new : ClientConfig → result XhttpClient) (to_socket_addrs : str → Z → result (list SocketAddr)).

Abbreviation XRuntime := (Runtime (AnyTlsClient := AnyTlsClient) (XhttpClient := XhttpClient)).
Abbreviation tags_of l := (list_to_set (tag_of <$> l) : gset str).

(** The table during its construction: members are known tags, not yet in the table. *)
Definition building (tags : gset str) (rt : XRuntime) : Prop :=
  (∀ tag id, rt.(groups) !! tag = Some id → rt.(dialers) !! tag = Some (GroupDialer id)) ∧
  (∀ tag id, rt.(dialers) !! tag = Some (GroupDialer id) → is_Some (rt.(store) !! id)) ∧
  (∀ id g, rt.(store) !! id = Some g → g.(selected) ∈ g.(members) ∧ Forall (λ m, m ∈ tags) g.(members)).

Lemma add_dialer_building tags rt tag d :
  building tags rt → rt.(dialers) !! tag = None → (∀ id, d ≠ GroupDialer id) → building tags (add_dialer rt tag d).
Proof.
  intros (Hg & Hd & Hs) Hn Hleaf. split_and!; cbn; [| |done].
  - intros tag' id Hid. specialize (Hg tag' id Hid). destruct (decide (tag' = tag)) as [->|]; [congruence|].
    by rewrite lookup_insert_ne.
  - intros tag' id. destruct (decide (tag' = tag)) as [->|]; [rewrite lookup_insert_eq; intros [= ->]; by destruct (Hleaf id)|].
    rewrite lookup_insert_ne by done. apply Hd.
Qed.

Lemma add_group_building tags rt tag id g :
  building tags rt → rt.(dialers) !! tag = None → g.(selected) ∈ g.(members) → Forall (λ m, m ∈ tags) g.(members) →
  building tags (add_group rt tag id g).
Proof.
  intros (Hg & Hd & Hs) Hn Hsel Hm. split_and!; cbn.
  - intros tag' id'. destruct (decide (tag' = tag)) as [->|]; [by rewrite !lookup_insert_eq; intros [= ->]|].
    rewrite !lookup_insert_ne by done. apply Hg.
  - intros tag' id' Hl. destruct (decide (id' = id)) as [->|]; [by rewrite lookup_insert_eq|].
    rewrite lookup_insert_ne by done. destruct (decide (tag' = tag)) as [->|].
    + rewrite lookup_insert_eq in Hl. injection Hl as ->. done.
    + rewrite lookup_insert_ne in Hl by done. by eapply Hd.
  - intros id' g'. destruct (decide (id' = id)) as [->|]; [rewrite lookup_insert_eq; by intros [= <-]|].
    rewrite lookup_insert_ne by done. apply Hs.
Qed.

Lemma group_new_spec kind ms d url iv tol g : group_new kind ms d url iv tol = Ok g →
  g.(members) = ms ∧ (g.(selected) ∈ ms ∨ d = Some g.(selected)).
Proof.
  unfold group_new. intros Hg. apply bind_Ok in Hg as (sel & Hs & Hg). apply context_Ok in Hs. apply Ok_inj in Hg. subst g.
  cbn. split; [done|]. destruct d as [d|]; [right; congruence|left]. destruct ms; [done|]. injection Hs as ->. by left.
Qed.

(** One outbound adds its tag, and nothing else changes in the table. *)
Lemma build_outbound_spec resolver tags rt id o rt' :
  build_outbound host client_new to_socket_addrs resolver rt id o = Ok rt' →
  building tags rt → rt.(dialers) !! tag_of o = None → validate_group tags o = Ok tt →
  building tags rt' ∧ dom rt'.(dialers) = {[tag_of o]} ∪ dom rt.(dialers).
Proof.
  unfold build_outbound. intros Hb Hok Hn Hv. destruct (is_group_type o) eqn:Egt.
  - apply bind_Ok in Hb as (g & Hg & Hb). apply Ok_inj in Hb. subst rt'. apply group_new_spec in Hg as [Hm Hsel].
    destruct (validate_group_spec tags o Hv Egt) as (_ & Hd & Hmem). split; [|cbn; by rewrite dom_insert_L].
    apply add_group_building; [done|done| |by rewrite Hm]. rewrite Hm. destruct Hsel as [?|Hs]; [done|by apply Hd].
  - assert (Hadd : ∀ d, (∀ g, d ≠ GroupDialer g) → rt' = add_dialer rt (tag_of o) d →
      building tags rt' ∧ dom rt'.(dialers) = {[tag_of o]} ∪ dom rt.(dialers)).
    { intros d Hleaf ->. split; [by apply add_dialer_building|cbn; by rewrite dom_insert_L]. }
    destruct (is_type _ _); [apply Ok_inj in Hb; by apply (Hadd Direct)|].
    destruct (is_type _ _).
    { apply bind_Ok in Hb as (d & Hd & Hb). apply Ok_inj in Hb. apply (Hadd d); [|done]. intros g ->.
      unfold build_vless in Hd. repeat (apply bind_Ok in Hd as (? & _ & Hd)). done. }
    destruct (is_type _ _); [apply bind_Ok in Hb as (a & _ & Hb); apply Ok_inj in Hb; by apply (Hadd (AnyTls a))|].
    destruct (is_type _ _); [apply Ok_inj in Hb; by apply (Hadd Block)|done].
Qed.

Lemma build_outbounds_spec resolver tags l : ∀ rt id rt',
  build_outbounds host client_new to_socket_addrs resolver rt id l = Ok rt' →
  building tags rt → NoDup (tag_of <$> l) → (∀ o, o ∈ l → rt.(dialers) !! tag_of o = None) →
  Forall (λ o, validate_group tags o = Ok tt) l →
  building tags rt' ∧ dom rt'.(dialers) = tags_of l ∪ dom rt.(dialers).
Proof.
  induction l as [|o l IH]; intros rt id rt' Hb Hok Hnd Hn Hv; cbn [build_outbounds] in Hb.
  { apply Ok_inj in Hb. subst. split; [done|cbn; set_solver]. }
  apply bind_Ok in Hb as (mid & Ho & Hb). apply Forall_cons in Hv as [Hvo Hv]. cbn [fmap list_fmap] in Hnd. apply NoDup_cons in Hnd as [Hout Hnd].
  destruct (build_outbound_spec _ _ _ _ _ _ Ho Hok (Hn o ltac:(by left)) Hvo) as [Hmid Hdom].
  destruct (IH mid (S id) rt' Hb Hmid Hnd) as [Hr Hd]; [|done|split; [done|]].
  - intros o' Ho'. apply not_elem_of_dom. rewrite Hdom, not_elem_of_union, elem_of_singleton. split.
    + intros E. apply Hout. rewrite <- E. apply list_elem_of_fmap. by exists o'.
    + apply not_elem_of_dom, Hn. by right.
  - rewrite Hd, Hdom. cbn [fmap list_fmap list_to_set]. set_solver.
Qed.

Abbreviation build_all := (build_dialers host client_new to_socket_addrs).

Lemma with_direct_building tags rt : building tags rt → building tags (with_direct rt).
Proof.
  intros Hb. unfold with_direct. case_bool_decide as Hd; [done|]. apply add_dialer_building; [done| |done].
  by apply eq_None_not_Some.
Qed.

Lemma dom_with_direct (rt : XRuntime) : dom (with_direct rt).(dialers) = {[lit "direct"]} ∪ dom rt.(dialers).
Proof.
  unfold with_direct. case_bool_decide as Hd; [|cbn; by rewrite dom_insert_L]. apply elem_of_dom in Hd. set_solver.
Qed.

(** A table built from a validated configuration is well formed, and has an entry for
    every tag and for [direct]. *)
Lemma validated_table c rt : validated host c → build_all (is_some c.(s_dns)) c.(s_outbounds) = Ok rt →
  runtime_ok rt ∧ dom rt.(dialers) = {[lit "direct"]} ∪ tags_of c.(s_outbounds).
Proof.
  intros Hv Hb. unfold build_dialers in Hb. apply bind_Ok in Hb as (rt0 & Hb & Hrt). apply Ok_inj in Hrt. subst rt.
  destruct (build_outbounds_spec _ (tags_of c.(s_outbounds)) _ _ _ _ Hb) as [Hok Hdom].
  - split_and!; cbn; intros ? ?; by rewrite lookup_empty.
  - apply Hv.
  - intros o _. apply lookup_empty.
  - apply Hv.
  - cbn in Hdom. rewrite dom_empty_L, union_empty_r_L in Hdom.
    assert (Hd : dom (with_direct rt0).(dialers) = {[lit "direct"]} ∪ tags_of c.(s_outbounds)) by (by rewrite dom_with_direct, Hdom).
    split; [|done]. destruct (with_direct_building _ _ Hok) as (H1 & H2 & H3). split_and!; [done..|].
    intros id g Hg. destruct (H3 id g Hg) as [Hsel Hm]. split; [done|]. eapply Forall_impl; [exact Hm|].
    intros m Hin. apply elem_of_dom. rewrite Hd. set_solver.
Qed.

(** *** Where rules send *)

Lemma compile_action_outbound rule tag o : compile_action rule = Ok (Route (Routing.Outbound tag) o) →
  tag = lit "direct" ∨ rule.(r_outbound) = Some tag.
Proof.
  unfold compile_action. intros Ha. destruct rule.(r_action) as [a|].
  - destruct (str_eqb a (lit "reject")); [apply bind_Ok in Ha as (? & _ & Ha); discriminate|].
    destruct (str_eqb a (lit "hijack-dns")); [discriminate|].
    destruct (str_eqb a (lit "direct")); [apply bind_Ok in Ha as (? & _ & Ha); apply Ok_inj in Ha; left; congruence|].
    destruct (str_eqb a (lit "bypass")).
    { apply bind_Ok in Ha as (? & _ & Ha). apply Ok_inj in Ha.
      destruct rule.(r_outbound) as [t|]; [right|left]; injection Ha as Ha _; [by rewrite <- Ha|exact (eq_sym Ha)]. }
    destruct (str_eqb a (lit "route")).
    { apply bind_Ok in Ha as (t & Ht & Ha). apply context_Ok in Ht. apply bind_Ok in Ha as (? & _ & Ha). apply Ok_inj in Ha. right. congruence. }
    destruct (str_eqb a (lit "route-options")); [apply bind_Ok in Ha as (? & _ & Ha); discriminate|].
    destruct (str_eqb a (lit "sniff")); [discriminate|]. destruct (str_eqb a (lit "resolve")); discriminate.
  - apply bind_Ok in Ha as (t & Ht & Ha). apply context_Ok in Ht. apply bind_Ok in Ha as (? & _ & Ha). apply Ok_inj in Ha. right. congruence.
Qed.

Lemma compile_outbound sets rule cr tag o : Routing.compile sets true rule = Ok cr → Routing.action cr = Route (Routing.Outbound tag) o →
  tag = lit "direct" ∨ rule.(r_outbound) = Some tag.
Proof.
  intros Hc Ha. destruct rule. cbn [Routing.compile] in Hc.
  destruct (_ || _ || _); [done|]. destruct (Routing.nonempty _); [done|].
  apply bind_Ok in Hc as (mode & _ & Hc). destruct (match mode with Some _ => _ | None => false end); [done|].
  apply bind_Ok in Hc as (a & Hact & Hc). repeat (apply bind_Ok in Hc as (? & _ & Hc)). apply Ok_inj in Hc. subst cr.
  cbn in Ha. subst a. by eapply compile_action_outbound.
Qed.

Lemma rule_outbound_collected rules rule tag : rule ∈ rules → rule.(r_outbound) = Some tag → tag ∈ collect_route_outbounds rules.
Proof.
  intros Hr Ht. unfold collect_route_outbounds. apply list_elem_of_In, in_concat. exists (rule_outbounds rule).
  split; [by apply in_map, list_elem_of_In|]. destruct rule. cbn in *. rewrite Ht. by left.
Qed.

(** *** From a route to a dialer *)

(** What a connection, a stream or a datagram can be routed to. *)
Inductive routed_to (router : Router) (tag : str) : Prop :=
  | routed_tcp resolver peek initial destination input ev :
      evaluate_tcp_route router resolver peek initial destination input = Ok ev → ev.(ev_decision) = Routing.Outbound tag →
      routed_to router tag
  | routed_stream resolver read destination input ev source :
      evaluate_stream_tcp_route router resolver read destination input = Ok (ev, source) →
      ev.(ev_decision) = Routing.Outbound tag → routed_to router tag
  | routed_udp resolver destination payload input ev :
      evaluate_udp_route router resolver destination payload input = Ok ev → ev.(ev_decision) = Routing.Outbound tag →
      routed_to router tag.

(** [n] groups, one selecting the next. *)
Fixpoint group_chain (rt : XRuntime) (n : nat) (tag : str) : Prop :=
  match n with
  | O => True
  | S n => ∃ id g, rt.(dialers) !! tag = Some (GroupDialer id) ∧ rt.(store) !! id = Some g ∧ group_chain rt n g.(selected)
  end.

Lemma resolve_or_chain rt n : runtime_ok rt → ∀ tag, is_Some (rt.(dialers) !! tag) →
  (∃ d, resolve_loop n rt tag = Some d) ∨ group_chain rt n tag.
Proof.
  intros (_ & Hst & Hg). induction n as [|n IH]; intros tag [d Hd]; cbn [resolve_loop group_chain]; [by right|].
  rewrite Hd. destruct d as [| | | |id]; try (left; eexists; reflexivity).
  destruct (Hst tag id Hd) as [g Eg]. rewrite Eg. destruct (Hg id g Eg) as [Hsel Hm].
  rewrite Forall_forall in Hm. destruct (IH g.(selected) (Hm _ Hsel)) as [?|Hc]; [by left|]. right. by exists id, g.
Qed.

Lemma steps_dialers (rt rt' : XRuntime) : rtc group_step rt rt' → rt'.(dialers) = rt.(dialers).
Proof.
  induction 1 as [|rt rt1 rt2 Hs _ IH]; [done|]. rewrite IH. destruct Hs as [rt tag m|]; [|done].
  unfold select_in. destruct (rt.(groups) !! tag) as [id|]; [|done]. destruct (rt.(store) !! id) as [g|]; [|done].
  by destruct (select g m).
Qed.

Lemma routed_decided router tag : routed_to router tag →
  tag = router.(final_outbound) ∨ ∃ r o, r ∈ Routing.rules router ∧ Routing.action r = Route (Routing.Outbound tag) o.
Proof.
  intros Hr. assert (Hd : ∃ input destination network, decided router input destination network (Routing.Outbound tag)).
  { destruct Hr as [rs peek ini dst input ev He Ht|rs rd dst input ev src He Ht|rs dst pl input ev He Ht];
      apply bind_Ok in He as (out & Ho & He); apply Ok_inj in He; apply route_loop_decided in Ho;
      exists input, dst; eexists; rewrite <- Ht; [subst ev|injection He as <- _|subst ev]; exact Ho. }
  destruct Hd as (input & dst & nw & [E|(i & r & st & p & cl & o & Hi & Ha & _)]); [left; congruence|].
  right. exists r, o. split; [|done]. by eapply list_elem_of_lookup_2.
Qed.

Lemma compiled_tags env' route first fetch prefetched router tag :
  compile_inner env' route first fetch prefetched = Ok router → routed_to router tag →
  tag = lit "direct" ∨ tag = first ∨ route.(config_final) = Some tag ∨ tag ∈ collect_route_outbounds route.(config_rules).
Proof.
  unfold compile_inner. intros Hc Hr. apply bind_Ok in Hc as (sets & _ & Hc). apply bind_Ok in Hc as (compiled & Hm & Hc).
  apply Ok_inj in Hc. apply routed_decided in Hr. subst router. cbn in Hr. destruct Hr as [->|(r & o & Hin & Ha)].
  - destruct route.(config_final) as [f|]; cbn; [right; right; by left|right; by left].
  - apply map_result_Ok in Hm. apply list_elem_of_lookup in Hin as (i & Hi).
    destruct (Forall2_lookup_r _ _ _ _ _ Hm Hi) as (rule & Hrule & Hcomp).
    destruct (compile_outbound _ _ _ _ _ Hcomp Ha) as [->|Ho]; [by left|]. right; right; right.
    eapply rule_outbound_collected; [by eapply list_elem_of_lookup_2|done].
Qed.

(** C28: in a validated configuration nothing is routed to an outbound that does not exist:
    whatever a connection, stream or datagram is routed to, and whatever selections the
    controller and the latency tests made since, the tag resolves to a dialer, unless
    eight groups select one another in a row. *)
Theorem validated_routes_resolve c rt rt' env' detected fetch prefetched router tag :
  validate_runtime host env c = Ok tt →
  build_all (is_some c.(s_dns)) c.(s_outbounds) = Ok rt →
  compile_inner env' (runtime_route detected c.(s_route)) (default_outbound c.(s_outbounds)) fetch prefetched = Ok router →
  rtc group_step rt rt' → routed_to router tag →
  (∃ d, dialer_for rt' tag = Some d) ∨ group_chain rt' 8 tag.
Proof.
  intros Hv Hb Hc Hs Hr. apply validate_runtime_spec in Hv. destruct (validated_table c rt Hv Hb) as [Hok Hdom].
  apply (resolve_or_chain rt' 8); [by eapply selections_stay_valid|]. rewrite (steps_dialers _ _ Hs). apply elem_of_dom. rewrite Hdom.
  destruct (compiled_tags _ _ _ _ _ _ _ Hc Hr) as [->|[->|Htag]]; [set_solver| |].
  - unfold default_outbound. destruct c.(s_outbounds) as [|o l]; cbn [fmap list_fmap head]; set_solver.
  - apply elem_of_union_r. unfold runtime_route in Htag. destruct c.(s_route) as [route|] eqn:Er.
    + apply (v_routes _ _ Hv route tag Er). destruct (bool_decide _) in Htag; cbn in Htag; tauto.
    + destruct (bool_decide _) in Htag; cbn in Htag; destruct Htag as [?|Hin]; [done|by apply elem_of_nil in Hin|done|by apply elem_of_nil in Hin].
Qed.

(** *** What was validated can be built *)

Definition names_resolve : Prop := ∀ server port, ∃ addrs, to_socket_addrs server port = Ok addrs.

Lemma validate_ech_dns has_dns pe o server : validate_ech host has_dns pe o.(out_tls) = Ok tt →
  is_some (ech_query_name (default default_tls o.(out_tls)) server) && negb has_dns = false.
Proof.
  unfold validate_ech, ech_query_name. destruct o.(out_tls) as [tls|]; [|done].
  change (default default_tls (Some tls)) with tls. cbn [mbind option_bind].
  destruct (enabled_ech tls) as [ech|]; [|done]. cbn [mbind option_bind]. unfold no_material.
  destruct ech.(ech_config), ech.(ech_config_path); try done. cbn. by destruct has_dns.
Qed.

Lemma packet_encoding_known e : none_or_one_of e ["";"xudp"]%string = true → ∃ b, packet_encoding_xudp e = Ok b.
Proof.
  unfold packet_encoding_xudp. destruct e as [v|]; [|by exists true]. cbn [none_or_one_of is_one_of existsb].
  intros Hv. apply orb_true_iff in Hv as [E|Hv]; [|apply orb_true_iff in Hv as [E|E]; [|discriminate E]];
    apply str_eqb_eq in E; subst v; eexists; reflexivity.
Qed.

Lemma vless_config_built has_dns o : names_resolve → validate_vless_outbound host has_dns o = Ok tt →
  ∃ config, vless_client_config to_socket_addrs has_dns o = Ok config.
Proof.
  intros Hn Hv. unfold validate_vless_outbound in Hv. apply bind_Ok in Hv as (server & Hs & Hv). apply bind_Ok in Hv as (uuid & Hu & Hv).
  apply bind_Ok in Hv as (_ & _ & Hv). destruct (is_some _); [done|]. apply bind_Ok in Hv as (x & Hx & Hv).
  apply bind_Ok in Hv as (transport & Ht & Hv). apply bind_Ok in Hv as ([] & He & Hv).
  apply context_Ok in Hx, Hs. unfold vless_client_config. rewrite Hx. cbn [context mbind result_bind]. rewrite Ht. cbn [mbind result_bind].
  rewrite Hs. cbn [context mbind result_bind]. rewrite (validate_ech_dns _ _ _ server He).
  set (tls := default default_tls o.(out_tls)). set (port := default _ o.(out_server_port)). set (name := if tls.(tls_enabled) then _ else server).
  destruct (str_eqb name server); [by eexists|]. destruct (Hn server port) as [l ->]. by eexists.
Qed.

(** The clients of the VLESS outbounds can be created. *)
Definition client_works (has_dns : bool) (o : OutboundConfig) : Prop :=
  o.(out_type) = lit "vless" → ∀ config, vless_client_config to_socket_addrs has_dns o = Ok config → ∃ client, client_new config = Ok client.

Lemma vless_builds has_dns o : o.(out_type) = lit "vless" → client_works has_dns o → names_resolve →
  validate_vless_outbound host has_dns o = Ok tt → ∃ d, build_vless client_new to_socket_addrs has_dns o = Ok d.
Proof.
  intros Et Hcl Hn Hv. destruct (vless_config_built has_dns o Hn Hv) as [config Hc]. destruct (Hcl Et config Hc) as [client Hnew].
  unfold build_vless. rewrite Hc. cbn [mbind result_bind]. rewrite Hnew. cbn [mbind result_bind].
  unfold validate_vless_outbound in Hv. apply bind_Ok in Hv as (server & _ & Hv). apply bind_Ok in Hv as (uuid & Hu & Hv).
  apply context_Ok in Hu. rewrite Hu. cbn [context mbind result_bind].
  apply bind_Ok in Hv as (? & _ & Hv). destruct (is_some _); [done|]. repeat (apply bind_Ok in Hv as (? & _ & Hv)).
  destruct (none_or_one_of _ _) eqn:Ep; [|done]. apply packet_encoding_known in Ep as [b ->]. by eexists.
Qed.

Lemma anytls_builds has_dns o : validate_anytls_outbound host has_dns o = Ok tt →
  ∃ client, build_client host.(h_native) host.(h_read) o = Ok client.
Proof.
  intros Hv. unfold validate_anytls_outbound in Hv. apply bind_Ok in Hv as (server & Hs & Hv). apply bind_Ok in Hv as (pw & Hp & Hv).
  destruct (negb _); [done|]. apply bind_Ok in Hv as (_ & _ & Hv). unfold build_client. rewrite Hv. cbn [mbind result_bind].
  rewrite Hs. cbn [mbind result_bind]. apply context_Ok in Hp. unfold non_empty in Hp.
  destruct o.(out_password) as [w|]; [|done]. cbn [context mbind result_bind].
  unfold validate_anytls in Hv. apply bind_Ok in Hv as (tls & Htls & Hv). rewrite Htls. cbn [mbind result_bind].
  apply bind_Ok in Hv as (static & Hst & Hv). rewrite Hst. cbn [mbind result_bind].
  apply bind_Ok in Hv as (ct & Hct & Hv). rewrite Hct. cbn [mbind result_bind].
  apply bind_Ok in Hv as (d1 & Hd1 & Hv). rewrite Hd1. cbn [mbind result_bind].
  apply bind_Ok in Hv as (d2 & Hd2 & Hv). rewrite Hd2. by eexists.
Qed.

Lemma outbound_builds has_dns tags rt id o : client_works has_dns o → names_resolve →
  validate_outbound host has_dns o = Ok tt → validate_group tags o = Ok tt →
  ∃ rt', build_outbound host client_new to_socket_addrs has_dns rt id o = Ok rt'.
Proof.
  intros Hcl Hn Hv Hg. unfold validate_outbound in Hv. apply bind_Ok in Hv as ([] & _ & Hv). unfold build_outbound.
  destruct (is_group_type o) eqn:Egt.
  { destruct (validate_group_spec _ _ Hg Egt) as (Hne & _ & _). unfold group_new.
    destruct o.(out_default); [by eexists|]. destruct o.(out_outbounds); [done|]. by eexists. }
  unfold is_group_type, is_type in Egt. cbn [existsb] in Egt. unfold is_type in *. cbn [existsb] in *.
  rewrite !orb_false_r in *. apply orb_false_iff in Egt as [E1 E2]. rewrite E1, E2 in Hv. rewrite !orb_false_r in Hv.
  destruct (str_eqb o.(out_type) (lit "direct")); [by eexists|]. cbn [orb] in Hv.
  destruct (str_eqb o.(out_type) (lit "block")) eqn:Eb; [apply str_eqb_eq in Eb; rewrite Eb; by eexists|].
  destruct (str_eqb o.(out_type) (lit "vless")) eqn:Et.
  { apply str_eqb_eq in Et. destruct (vless_builds _ _ Et Hcl Hn Hv) as [d ->]. by eexists. }
  destruct (str_eqb o.(out_type) (lit "anytls")); [|done].
  destruct (anytls_builds _ _ Hv) as [client ->]. by eexists.
Qed.

Lemma outbounds_build has_dns tags l : names_resolve → ∀ rt id,
  Forall (client_works has_dns) l → Forall (λ o, validate_outbound host has_dns o = Ok tt) l →
  Forall (λ o, validate_group tags o = Ok tt) l →
  ∃ rt', build_outbounds host client_new to_socket_addrs has_dns rt id l = Ok rt'.
Proof.
  intros Hn. induction l as [|o l IH]; intros rt id Hcl Hvo Hvg; cbn [build_outbounds]; [by eexists|].
  apply Forall_cons in Hcl as [Hcl1 Hcl]. apply Forall_cons in Hvo as [Hvo1 Hvo]. apply Forall_cons in Hvg as [Hvg1 Hvg].
  destruct (outbound_builds _ _ rt id _ Hcl1 Hn Hvo1 Hvg1) as [mid ->]. cbn [mbind result_bind]. by apply IH.
Qed.

(** The outbounds of a configuration with a proxy inbound that passed validation are built,
    every one of them, when the HTTP clients of its VLESS outbounds can be created. *)
Lemma validated_dialers c :
  validated host c → has_proxy_inbound c = true → Forall (client_works (is_some c.(s_dns))) c.(s_outbounds) → names_resolve →
  ∃ rt, build_all (is_some c.(s_dns)) c.(s_outbounds) = Ok rt.
Proof.
  intros Hv Hp Hcl Hn. assert (Ho := v_outbounds _ _ Hv Hp). assert (Hg := v_groups _ _ Hv).
  unfold build_dialers. destruct (outbounds_build _ _ _ Hn (mkRuntime ∅ ∅ ∅) 0%nat Hcl Ho Hg) as [rt ->]. by eexists.
Qed.

End built.

(** ** A configuration *)

#[local] Existing Instance Cidr.lib.
#[local] Existing Instance Literal.regex.
#[local] Existing Instance Plain.lib.
#[local] Existing Instance Tls.Sample.lib.
#[local] Existing Instance UuidExample.lib.

Module Sample.

#[export] Instance padding : PaddingLib := {| padding_parse _ := true |}.
#[export] Instance order : HashIter CacheKey CacheEntry := key_order _ _.

Definition host : Host := mkHost Tls.Sample.lib (λ _, None) ([], false) None (Ok tt) (Ok tt).
Definition env : RuleSetEnv := Routing.mkEnv (λ _, None) (λ _ _, None) (λ _ _ _, true) (λ _, None) (λ _, Err "no parser") (λ _, Err "no decoder").

Definition mixed : Inbound :=
  mkInbound (lit "mixed") None None (Some 1080) [] None None [] None None None [] None [] None false false None None None None None
    false [] false None None [] [] [] [] [] [] [] [] [] [] [] [] [] [] [] false None None None None None false.

Definition outbound (type tag : str) (members : list str) : OutboundConfig :=
  mkOutbound type (Some tag) None None None None None None None None None None None false members None None None None.

Definition route : RouteConfig := mkRouteConfig [] [] (Some (lit "auto")) None None None None None None None.

Definition config : SingBoxConfig :=
  mkSingBox None None (Some route) [mixed] [outbound (lit "block") (lit "out") []; outbound (lit "selector") (lit "auto") [lit "out"]] None [].

Definition client_new (c : ClientConfig) : result str := Ok c.(cc_server).
Definition addrs (_ : str) (_ : Z) : result (list SocketAddr) := Ok [].

Definition table : Runtime (AnyTlsClient := AnyTlsClient) (XhttpClient := str) :=
  match build_dialers host client_new addrs false config.(s_outbounds) with Ok rt => rt | _ => mkRuntime ∅ ∅ ∅ end.

Definition router : Router :=
  match compile_inner env (runtime_route None config.(s_route)) (default_outbound config.(s_outbounds)) true (Some ∅) with
  | Ok r => r
  | _ => mkRouter [] ∅ [] Routing.default_options None
  end.

Lemma accepted : validate_runtime host env config = Ok tt.
Proof. vm_compute. reflexivity. Qed.

Lemma table_built : build_dialers host client_new addrs (is_some config.(s_dns)) config.(s_outbounds) = Ok table.
Proof. reflexivity. Qed.

Lemma router_built :
  compile_inner env (runtime_route None config.(s_route)) (default_outbound config.(s_outbounds)) true (Some ∅) = Ok router.
Proof. reflexivity. Qed.

Lemma routed : routed_to router (lit "auto").
Proof.
  destruct (evaluate_udp_route router None (Ip (V4 0x01010101) 53) [] sample_input) as [ev|msg| |] eqn:E;
    [|exfalso; vm_compute in E; discriminate E..].
  eapply routed_udp; [exact E|]. vm_compute in E. injection E as <-. reflexivity.
Qed.

End Sample.

#[local] Existing Instance Sample.padding.
#[local] Existing Instance Sample.order.

(** The final outbound is a group that selects an outbound that blocks. *)
Lemma validated_routes_resolve_witness :
  dialer_for Sample.table (lit "auto") = Some Block ∧
  ((∃ d, dialer_for Sample.table (lit "auto") = Some d) ∨ group_chain Sample.table 8 (lit "auto")).
Proof.
  split; [vm_compute; reflexivity|].
  exact (validated_routes_resolve Sample.host Sample.env Sample.client_new Sample.addrs Sample.config Sample.table Sample.table
    Sample.env None true (Some ∅) Sample.router (lit "auto") Sample.accepted Sample.table_built Sample.router_built
    (rtc_refl _ _) Sample.routed).
Defined.
