(* ===== verification/Download.v ===== *)
(** * Downloads through an outbound (src/src/proxy/mod.rs)

    The remote rule-sets are fetched over HTTP/1.1 through an outbound: the reader of a
    response, the conditional request with its redirects, and the prefetch that keeps
    a rule-set and its entity tag in a cache of files. *)

From S2P Require Import Prelude RustStr Net IpText Util Vless Routing Sniff Srs.

(** ** Lines of a stream *)

(** [read_until(b'\n')]: through the next line feed, or what is left. *)
Fixpoint take_line (s : bytes) : bytes * bytes :=
  match s with
  | [] => ([], [])
  | c :: s => if c =? 10 then ([10], s) else let '(line, rest) := take_line s in (c :: line, rest)
  end.

Definition read_until_lf : reader bytes := λ s, Ok (take_line s).
Definition read_line : reader str := line ← read_until_lf; lift (from_utf8 line).

(** [trim_end_matches("\r\n")] on the reversed text *)
Fixpoint skip_crlf (s : str) : str :=
  match s with
  | a :: (b :: s') => if (a =? 10) && (b =? 13) then skip_crlf s' else s
  | _ => s
  end.

Definition trim_crlf (s : str) : str := rev (skip_crlf (rev s)).

(** [usize::from_str_radix(s, 16)] *)
Fixpoint parse_hex_digits (acc : Z) (s : str) : option Z :=
  match s with
  | [] => Some acc
  | c :: s => d ← IpParser.to_digit 16 c; parse_hex_digits (acc * 16 + d) s
  end.

Definition parse_hex (s : str) : option Z :=
  match strip_plus s with
  | [] => None
  | s => v ← parse_hex_digits 0 s; try_uint 64 v
  end.

(** ** [read_http_response] *)

Definition Headers : Type := list (str * str).

(** A line without a colon is skipped. *)
Definition header_of (line : str) : Headers :=
  match split_once c_colon line with Some (name, value) => [(trim name, trim value)] | None => [] end.

(** Every line consumes bytes until the end of the stream, which reads as an empty line:
    the length of the stream and one more are enough turns. *)
Fixpoint read_headers (fuel : nat) (headers : Headers) : reader Headers :=
  match fuel with
  | O => λ _, Diverge
  | S fuel =>
    line ← read_line;
    match trim_crlf line with
    | [] => mret headers
    | line => read_headers fuel (headers ++ header_of line)
    end
  end.

Definition content_length (headers : Headers) : option Z :=
  find_map (λ '(name, value), if eq_ignore_ascii_case name (lit "content-length") then parse_uint 64 value else None) headers.

Definition is_chunked (headers : Headers) : bool :=
  existsb (λ '(name, value), eq_ignore_ascii_case name (lit "transfer-encoding") && contains (lit "chunked") (to_ascii_lowercase value)) headers.

(** [take(n).read_to_end()]: fewer bytes at the end of the stream. *)
Definition read_at_most (n : nat) : reader bytes := λ s, Ok (take n s, drop n s).
Definition read_to_end : reader bytes := λ s, Ok (s, []).

(** A vector cannot grow beyond [isize::MAX] bytes; a smaller allocation is taken to succeed. *)
Definition grow (n : Z) : reader unit := λ s, if n >? isize_max then Panic else Ok (tt, s).

Fixpoint read_chunks (fuel : nat) (body : bytes) : reader bytes :=
  match fuel with
  | O => λ _, Diverge
  | S fuel =>
    size_line ← read_line;
    size ← lift (context (parse_hex (trim_end_matches (Z.eqb 59) (trim size_line))) "invalid chunk size");
    if size =? 0 then _ ← read_until_lf; _ ← read_until_lf; mret body
    else
      _ ← grow (Z.of_nat (length body) + size);
      chunk ← read_exact (Z.to_nat size);
      _ ← read_exact 2;
      read_chunks fuel (body ++ chunk)
  end.

Definition read_body (headers : Headers) : reader bytes :=
  match content_length headers with
  | Some length => _ ← grow length; read_at_most (Z.to_nat length)
  | None => if is_chunked headers then λ s, read_chunks (S (length s)) [] s else read_to_end
  end.

Definition read_status : reader Z :=
  line ← read_line;
  match split_whitespace line with
  | [] => fail "missing HTTP version"
  | [_] => fail "missing HTTP status"
  | _ :: status :: _ => lift (context (parse_uint 16 status) "invalid HTTP status")
  end.

Definition read_http_response : reader (Z * Headers * bytes) :=
  status ← read_status;
  headers ← ((λ s, read_headers (S (length s)) [] s) : reader Headers);
  body ← read_body headers;
  mret (status, headers, body).

(** ** Fetching *)

(** The [url] crate. *)
Class UrlLib := {
  WebUrl : Type;
  web_parse : str → option WebUrl;
  web_scheme : WebUrl → str;
  web_host : WebUrl → option str;
  web_port : WebUrl → option Z;  (* port_or_known_default *)
  web_path : WebUrl → str;
  web_query : WebUrl → option str;
  web_join : WebUrl → str → option WebUrl;
  web_print : WebUrl → str;
}.

Definition find_header (name : str) (headers : Headers) : option str :=
  find_map (λ '(n, value), if eq_ignore_ascii_case n name then Some value else None) headers.

Definition max_download : Z := 64 * 1024 * 1024.

Section fetch.
Context `{UrlLib}.

(** One exchange through the outbound [tag]: connect, shake hands when the scheme is https,
    write the request; the bytes the server sends until it closes, or the error. *)
Context (exchange : str → bool → str → Destination → bytes → result bytes).

Definition web_destination (host : str) (port : Z) : Destination :=
  match parse_ip host with Some ip => Ip ip port | None => Domain host port end.

Definition crlf : str := [13; 10].

Definition http_request (url : WebUrl) (host : str) (etag : option str) : str :=
  let path := match web_path url with [] => [c_slash] | p => p end in
  let query := match web_query url with Some q => 63 :: q | None => [] end in
  let conditional := match etag with
                     | Some (c :: e) => lit "If-None-Match: " ++ (c :: e) ++ crlf
                     | _ => []
                     end in
  lit "GET " ++ path ++ query ++ lit " HTTP/1.1" ++ crlf ++ lit "Host: " ++ host ++ crlf ++
  lit "User-Agent: sing-box/1.10.0 (xhttp-rs)" ++ crlf ++ lit "Connection: close" ++ crlf ++
  lit "Accept: */*" ++ crlf ++ conditional ++ crlf.

Definition is_redirect (status : Z) : bool := existsb (Z.eqb status) [301; 302; 303; 307; 308].

(** One turn: the final response, or the URL to go on with. *)
Definition fetch_once (tag url : str) (etag : option str) : result (bytes * Headers * Z + str) :=
  url ← context (web_parse url) "invalid rule-set URL";
  let scheme := web_scheme url in
  if negb (str_eqb scheme (lit "http") || str_eqb scheme (lit "https")) then Err "unsupported rule-set URL scheme" else
  host ← context (web_host url) "rule-set URL has no host";
  port ← context (web_port url) "rule-set URL has no port";
  received ← exchange tag (str_eqb scheme (lit "https")) host (web_destination host port) (http_request url host etag);
  '(response, _) ← read_http_response received;
  let '(status, headers, body) := response in
  if is_redirect status then
    location ← context (find_header (lit "location") headers) "redirect response has no Location header";
    next ← context (web_join url location) "invalid redirect Location";
    Ok (inr (web_print next))
  else if negb (status =? 200) && negb (status =? 304) then Err "rule-set download returned HTTP status"
  else if Z.of_nat (length body) >? max_download then Err "rule-set download exceeds 64 MiB"
  else Ok (inl (body, headers, status)).

(** [fuel] is the number of redirects that may still be followed and one more: with
    the counter of the code at [redirects] it is [6 - redirects]. *)
Fixpoint fetch_loop (fuel : nat) (tag url : str) (etag : option str) : result (bytes * Headers * Z) :=
  match fuel with
  | O => Err "HTTP redirect limit exceeded"
  | S fuel =>
    outcome ← fetch_once tag url etag;
    match outcome with inl response => Ok response | inr next => fetch_loop fuel tag next etag end
  end.

Definition fetch_url_with_etag (tag url : str) (etag : option str) (redirects : Z) : result (bytes * Headers * Z) :=
  fetch_loop (Z.to_nat (6 - redirects)) tag url etag.

Definition fetch_url_etag (tag url : str) (etag : option str) : result (bytes * option str * bool) :=
  '(data, headers, status) ← fetch_url_with_etag tag url etag 0;
  Ok (data, find_header (lit "etag") headers, status =? 304).

Definition fetch_url_inner (tag url : str) (redirects : Z) : result bytes :=
  '(body, _, status) ← fetch_url_with_etag tag url None redirects;
  if status =? 304 then Err "unexpected 304 response without a conditional request" else Ok body.

Definition fetch_url (tag url : str) : result bytes := fetch_url_inner tag url 0.

End fetch.

(** ** What a server writes *)

Inductive framing :=
  | ByLength
  | Chunked (chunks : list (str * bytes))  (* the text of a size, and the bytes *)
  | UntilClose.

Definition line (l : str) : bytes := l ++ crlf.

Definition framing_headers (f : framing) (body : bytes) : Headers :=
  match f with
  | ByLength => [(lit "Content-Length", print_uint (Z.of_nat (length body)))]
  | Chunked _ => [(lit "Transfer-Encoding", lit "chunked")]
  | UntilClose => []
  end.

Definition framed (f : framing) (body : bytes) : bytes :=
  match f with
  | Chunked chunks => concat (map (λ '(size, data), line size ++ data ++ crlf) chunks) ++ line (lit "0") ++ crlf
  | _ => body
  end.

Definition header_lines (headers : Headers) : bytes :=
  concat (map (λ '(name, value), line (name ++ lit ": " ++ value)) headers).

Definition http_response (status : Z) (reason : str) (headers : Headers) (f : framing) (body : bytes) : bytes :=
  line (lit "HTTP/1.1 " ++ print_uint status ++ 32 :: reason) ++ header_lines (headers ++ framing_headers f body) ++ crlf ++
  framed f body.

(** Text that fits on a line of the head. *)
Definition head_text (s : str) : bool := forallb (λ c, in_range c 0 127 && negb (c =? 10)) s.

Definition plain_header (h : str * str) : bool :=
  let '(name, value) := h in
  head_text name && head_text value && negb (contains_char c_colon name) &&
  bool_decide (trim name = name) && bool_decide (trim value = value).

Definition framing_name (h : str * str) : bool :=
  eq_ignore_ascii_case h.1 (lit "content-length") || eq_ignore_ascii_case h.1 (lit "transfer-encoding").

(** A chunk is not empty and its size is written in hexadecimal. *)
Definition good_chunk (c : str * bytes) : bool :=
  let '(size, data) := c in
  head_text size && bool_decide (trim (line size) = size) && negb (bool_decide (last size = Some 59)) &&
  bool_decide (parse_hex size = Some (Z.of_nat (length data))) && negb (bool_decide (data = [])).

Definition framing_ok (f : framing) (body : bytes) : bool :=
  (Z.of_nat (length body) <=? isize_max) &&
  match f with
  | Chunked chunks => forallb good_chunk chunks && bool_decide (concat (map snd chunks) = body)
  | _ => true
  end.

(** ** Reading it back *)

Lemma head_text_spec s : head_text s = true ↔ Forall (λ c, 0 ≤ c ≤ 127) s ∧ 10 ∉ s.
Proof.
  unfold head_text. rewrite forallb_forall. split.
  - intros Hs. split.
    + apply Forall_forall. intros c Hc%list_elem_of_In. apply Hs in Hc. unfold in_range in Hc. bool_to_prop. lia.
    + intros Hc%list_elem_of_In. apply Hs in Hc. by rewrite andb_false_r in Hc.
  - intros [Ha Hn] c Hc%list_elem_of_In. rewrite Forall_forall in Ha. specialize (Ha c Hc). apply andb_true_iff. split.
    + by apply in_range_true.
    + apply negb_true_iff, Z.eqb_neq. by intros ->.
Qed.

Lemma take_line_app l s : 10 ∉ l → take_line (line l ++ s) = (line l, s).
Proof.
  unfold line, crlf. induction l as [|c l IH]; intros Hl; [done|]. apply not_elem_of_cons in Hl as [Hc Hl].
  cbn [app take_line]. rewrite (proj2 (Z.eqb_neq c 10)) by congruence. by rewrite IH.
Qed.

Lemma read_line_app l s : head_text l = true → read_line (line l ++ s) = Ok (line l, s).
Proof.
  intros [Ha Hn]%head_text_spec. unfold read_line, read_until_lf, mbind, reader_bind. rewrite take_line_app by done.
  unfold lift, from_utf8. rewrite utf8_valid_ascii; [done|]. unfold line, crlf. apply Forall_app. split; [done|].
  repeat constructor; lia.
Qed.

Lemma trim_crlf_line l : 10 ∉ l → trim_crlf (line l) = l.
Proof.
  intros Hl. unfold trim_crlf, line, crlf. rewrite rev_app_distr. cbn [rev app]. cbn [skip_crlf Z.eqb Pos.eqb andb].
  destruct (rev l) as [|a [|b r]] eqn:E; [| |].
  - apply (f_equal (@rev Z)) in E. by rewrite rev_involutive in E.
  - cbn. apply (f_equal (@rev Z)) in E. by rewrite rev_involutive in E.
  - cbn [skip_crlf]. assert (a ≠ 10).
    { intros ->. apply Hl, list_elem_of_In, in_rev. rewrite E. by left. }
    rewrite (proj2 (Z.eqb_neq a 10)) by done. cbn [andb]. rewrite <- E. apply rev_involutive.
Qed.

Lemma trim_space s : trim (32 :: s) = trim s.
Proof. reflexivity. Qed.

Lemma header_of_line name value : c_colon ∉ name → header_of (name ++ lit ": " ++ value) = [(trim name, trim value)].
Proof.
  intros Hc. unfold header_of. change (lit ": " ++ value) with (c_colon :: 32 :: value).
  rewrite split_once_app by done. by rewrite trim_space.
Qed.

Lemma plain_header_line name value : plain_header (name, value) = true →
  head_text (name ++ lit ": " ++ value) = true ∧ header_of (name ++ lit ": " ++ value) = [(name, value)].
Proof.
  unfold plain_header. intros H. bool_to_prop. split.
  - unfold head_text in *. rewrite !forallb_app. repeat (apply andb_true_iff; split); done.
  - rewrite header_of_line; [by f_equal; f_equal|]. intros Hc%list_elem_of_In.
    assert (Hex : contains_char c_colon name = true) by (apply existsb_exists; eauto using Z.eqb_refl). congruence.
Qed.

Lemma read_headers_app headers : ∀ acc fuel s, forallb plain_header headers = true → (length headers < fuel)%nat →
  read_headers fuel acc (header_lines headers ++ crlf ++ s) = Ok (acc ++ headers, s).
Proof.
  induction headers as [|[name value] headers IH]; intros acc fuel s Hp Hf; destruct fuel as [|fuel]; [lia| |cbn in Hf; lia|].
  - cbn [read_headers header_lines map concat app]. erewrite rbind_eq by exact (read_line_app [] s eq_refl).
    by rewrite trim_crlf_line, app_nil_r by set_solver.
  - cbn [forallb] in Hp. apply andb_true_iff in Hp as [Hh Hp]. destruct (plain_header_line name value Hh) as [Ht Ho].
    unfold header_lines. cbn [read_headers map concat]. rewrite <- app_assoc. erewrite rbind_eq by exact (read_line_app _ _ Ht).
    rewrite trim_crlf_line by (by apply head_text_spec in Ht as [_ ?]). fold (header_lines headers).
    destruct (name ++ lit ": " ++ value) as [|c l] eqn:E; [by destruct name|]. rewrite Ho, IH; [|done|cbn in Hf; lia].
    by rewrite <- app_assoc.
Qed.

(** *** The status line *)

Lemma whitespace_ascii c s : 0 ≤ c ≤ 127 → whitespace (c :: s) = if in_range c 9 13 || (c =? 32) then 1%nat else 0%nat.
Proof.
  intros Hc. unfold whitespace. destruct (in_range c 9 13 || (c =? 32)); [done|].
  assert (∀ k, 127 < k → (c =? k) = false) as Hk by (intros; apply Z.eqb_neq; lia).
  destruct s as [|d [|e s]]; rewrite ?Hk by lia; done.
Qed.

Lemma whitespace_none c s : 33 ≤ c ≤ 127 → whitespace (c :: s) = 0%nat.
Proof.
  intros Hc. rewrite whitespace_ascii by lia. unfold in_range.
  by rewrite (proj2 (Z.leb_gt c 13)), (proj2 (Z.eqb_neq c 32)), andb_false_r by lia.
Qed.

Definition word_text (s : str) : bool := forallb (λ c, in_range c 33 127) s.

Lemma split_words_word w word s : word_text w = true → word ++ w ≠ [] →
  split_words 0 word (w ++ 32 :: s) = (word ++ w) :: split_words 0 [] s.
Proof.
  revert word. induction w as [|c w IH]; intros word Hw Hne.
  - rewrite app_nil_r in *. destruct word; [done|]. reflexivity.
  - cbn [word_text forallb] in Hw. apply andb_true_iff in Hw as [Hc Hw]. apply in_range_true in Hc.
    cbn [app split_words]. rewrite whitespace_none by lia.
    rewrite IH; [by rewrite <- app_assoc|done|by destruct word].
Qed.

Lemma print_uint_word n : u128 n → word_text (print_uint n) = true ∧ print_uint n ≠ [].
Proof.
  intros Hn. destruct (print_uint_digits n Hn) as [Hne Hd]. split; [|done]. apply forallb_forall.
  intros c Hc%list_elem_of_In. rewrite Forall_forall in Hd. specialize (Hd c Hc). unfold is_digit in Hd. apply in_range_true. lia.
Qed.

Lemma head_text_app a b : head_text (a ++ b) = head_text a && head_text b.
Proof. apply forallb_app. Qed.

Lemma word_head_text w : word_text w = true → head_text w = true.
Proof.
  unfold word_text, head_text. rewrite !forallb_forall. intros Hw c Hc. specialize (Hw c Hc). unfold in_range in *. bool_to_prop.
  apply andb_true_iff. split; [apply andb_true_iff; split; lia|]. apply negb_true_iff, Z.eqb_neq. lia.
Qed.

Lemma read_status_line status reason s : u16 status → head_text reason = true →
  read_status (line (lit "HTTP/1.1 " ++ print_uint status ++ 32 :: reason) ++ s) = Ok (status, s).
Proof.
  intros Hs Hr. assert (Hs' : u128 status) by (unfold uint in *; lia). destruct (print_uint_word status Hs') as [Hw Hne].
  unfold read_status. erewrite rbind_eq; [|apply read_line_app].
  - unfold line. rewrite <- !app_assoc. change (lit "HTTP/1.1 ") with (lit "HTTP/1.1" ++ [32]). rewrite <- app_assoc. cbn [app].
    unfold split_whitespace. rewrite (split_words_word (lit "HTTP/1.1")) by done. cbn [app].
    rewrite split_words_word by done. cbn [app]. unfold lift. by rewrite parse_print_uint.
  - rewrite !head_text_app, (word_head_text _ Hw). cbn. exact Hr.
Qed.

Lemma trim_end_word w : word_text w = true → trim_end_ws 0 [] w = w.
Proof.
  induction w as [|c w IH]; intros Hw; [done|]. cbn [word_text forallb] in Hw. apply andb_true_iff in Hw as [Hc Hw].
  apply in_range_true in Hc. cbn [trim_end_ws]. rewrite whitespace_none by lia. cbn [app]. by rewrite IH.
Qed.

Lemma word_trim w : word_text w = true → trim w = w.
Proof.
  intros Hw. unfold trim. destruct w as [|c w]; [done|]. assert (Hc := Hw). cbn [word_text forallb] in Hc.
  apply andb_true_iff in Hc as [Hc _]. apply in_range_true in Hc. cbn [trim_start_ws]. rewrite whitespace_none by lia.
  by apply trim_end_word.
Qed.

(** *** The body *)

Lemma unframed_headers headers : existsb framing_name headers = false → content_length headers = None ∧ is_chunked headers = false.
Proof.
  unfold content_length, is_chunked. induction headers as [|[n v] headers IH]; cbn [existsb find_map]; [done|].
  intros [Hn Hh]%orb_false_iff. apply orb_false_iff in Hn as [Hc Ht]. cbn [fst] in *. rewrite Hc, Ht. cbn [andb orb]. auto.
Qed.

Lemma framing_content_length headers f body : existsb framing_name headers = false → Z.of_nat (length body) ≤ isize_max →
  content_length (headers ++ framing_headers f body) = match f with ByLength => Some (Z.of_nat (length body)) | _ => None end ∧
  is_chunked (headers ++ framing_headers f body) = match f with Chunked _ => true | _ => false end.
Proof.
  intros [Hc Hk]%unframed_headers Hb. unfold content_length, is_chunked in *. rewrite find_map_app, existsb_app, Hc, Hk.
  destruct f; [|done|done]. split; [|reflexivity]. cbn [framing_headers find_map].
  change (eq_ignore_ascii_case (lit "Content-Length") (lit "content-length")) with true. cbn iota.
  rewrite parse_print_uint; [done|lia|unfold uint, isize_max in *; lia].
Qed.

Lemma grow_ok n s : n ≤ isize_max → grow n s = Ok (tt, s).
Proof. intros Hn. unfold grow. rewrite Z.gtb_ltb, (proj2 (Z.ltb_ge isize_max n)) by done. done. Qed.

Lemma good_chunk_line size data s : good_chunk (size, data) = true →
  read_line (line size ++ s) = Ok (line size, s) ∧
  parse_hex (trim_end_matches (Z.eqb 59) (trim (line size))) = Some (Z.of_nat (length data)) ∧ data ≠ [].
Proof.
  unfold good_chunk. intros H. bool_to_prop.
  match goal with H : trim (line size) = size |- _ => rewrite H end. split; [by apply read_line_app|].
  rewrite trim_end_id; [done|]. intros c Hc. apply Z.eqb_neq. intros <-. congruence.
Qed.

Lemma read_chunks_app chunks : ∀ fuel body s, forallb good_chunk chunks = true → (length chunks < fuel)%nat →
  Z.of_nat (length (body ++ concat (map snd chunks))) ≤ isize_max →
  read_chunks fuel body (framed (Chunked chunks) [] ++ s) =
    Ok (body ++ concat (map snd chunks), (take_line s).2).
Proof.
  induction chunks as [|[size data] chunks IH]; intros fuel body s Hg Hf Hl; (destruct fuel as [|fuel]; [cbn in Hf; lia|]).
  - cbn [map concat framed app read_chunks]. rewrite app_nil_r, <- app_assoc.
    erewrite rbind_eq by exact (read_line_app (lit "0") (crlf ++ s) eq_refl).
    rewrite (rbind_eq _ (lift _) _ 0 (crlf ++ s)) by reflexivity. change (0 =? 0) with true. cbn iota.
    erewrite (rbind_eq _ read_until_lf (crlf ++ s)) by reflexivity.
    unfold mbind, reader_bind, read_until_lf. by destruct (take_line s).
  - cbn [forallb] in Hg. apply andb_true_iff in Hg as [Hc Hg]. cbn [map concat snd] in Hl.
    cbn [framed map concat read_chunks]. rewrite <- !app_assoc.
    destruct (good_chunk_line size data (data ++ crlf ++ framed (Chunked chunks) [] ++ s) Hc) as (Hr & Hp & Hne).
    cbn [framed] in Hr. rewrite <- !app_assoc in Hr. erewrite rbind_eq by exact Hr. rewrite Hp.
    erewrite (rbind_eq _ (lift _)) by reflexivity. destruct data as [|d data]; [done|]. cbn [Z.of_nat length].
    rewrite (proj2 (Z.eqb_neq _ 0)) by lia. rewrite !length_app in Hl. cbn [length] in Hl.
    erewrite rbind_eq; [|apply grow_ok; lia].
    erewrite rbind_eq; [|apply read_exact_app; cbn; lia]. erewrite rbind_eq; [|apply (read_exact_app 2 crlf); done].
    specialize (IH fuel (body ++ d :: data) s Hg). cbn [framed] in IH. rewrite <- !app_assoc in IH.
    rewrite IH; [done|cbn in Hf; lia|rewrite !length_app in *; cbn [length]; lia].
Qed.

Lemma header_lines_length headers : (length headers ≤ length (header_lines headers))%nat.
Proof.
  unfold header_lines. induction headers as [|[n v] headers IH]; [done|]. cbn [map concat length].
  unfold line at 1. rewrite !length_app. change (length crlf) with 2%nat. lia.
Qed.

Lemma chunks_length chunks : (length chunks ≤ length (framed (Chunked chunks) []))%nat.
Proof.
  cbn [framed]. rewrite length_app. apply Nat.le_trans with (length (concat (map (λ '(size, data), line size ++ data ++ crlf) chunks))); [|lia].
  induction chunks as [|[z d] chunks IH]; cbn [map concat length]; [lia|]. unfold line at 1. rewrite !length_app. change (length crlf) with 2%nat. lia.
Qed.

Lemma framing_headers_plain f body : Z.of_nat (length body) ≤ isize_max → forallb plain_header (framing_headers f body) = true.
Proof.
  intros Hb. destruct f; [|reflexivity|reflexivity]. cbn [framing_headers forallb]. rewrite andb_true_r.
  assert (Hu : u128 (Z.of_nat (length body))) by (unfold uint, isize_max in *; lia).
  destruct (print_uint_word _ Hu) as [Hw _]. unfold plain_header. rewrite (word_head_text _ Hw), (word_trim _ Hw).
  by rewrite !bool_decide_eq_true_2 by reflexivity.
Qed.

Lemma read_written_response_lemma status reason headers f body :
  u16 status → head_text reason = true → forallb plain_header headers = true → existsb framing_name headers = false →
  framing_ok f body = true →
  read_http_response (http_response status reason headers f body) = Ok ((status, headers ++ framing_headers f body, body), []).
Proof.
  intros Hs Hr Hh Hn [Hb Hf]%andb_true_iff. apply Z.leb_le in Hb. unfold read_http_response, http_response.
  erewrite rbind_eq by (by apply read_status_line).
  erewrite rbind_eq.
  2:{ apply read_headers_app; [by rewrite forallb_app, Hh, framing_headers_plain|].
      assert (Hl := header_lines_length (headers ++ framing_headers f body)). rewrite !length_app in *. lia. }
  cbn [app]. destruct (framing_content_length headers f body Hn Hb) as [Hc Hk]. unfold read_body. rewrite Hc, Hk.
  destruct f as [|chunks|]; cbn [framed].
  - erewrite rbind_eq; [|erewrite rbind_eq by (by apply grow_ok); reflexivity].
    by rewrite Nat2Z.id, firstn_all, drop_all.
  - apply andb_true_iff in Hf as [Hg He]. apply bool_decide_eq_true in He.
    assert (H := read_chunks_app chunks (S (length (framed (Chunked chunks) []))) [] [] Hg).
    rewrite app_nil_r in H. cbn [framed app] in H. rewrite He in H. erewrite rbind_eq; [done|]. apply H; [|done].
    assert (Hc' := chunks_length chunks). cbn [framed] in Hc'. lia.
  - done.
Qed.

(** C31: what a server writes as an HTTP/1.1 response is what a download reads: the status,
    the headers in order and the whole body, whether its length is given, it comes in
    chunks, or it ends with the connection. *)
Theorem read_written_response status reason headers f body :
  u16 status → head_text reason = true → forallb plain_header headers = true → existsb framing_name headers = false →
  framing_ok f body = true →
  read_http_response (http_response status reason headers f body) = Ok ((status, headers ++ framing_headers f body, body), []).
Proof. apply read_written_response_lemma. Qed.

Module Answer.

Definition body : bytes := lit "hello world".
Definition headers : Headers := [(lit "Server", lit "x"); (lit "ETag", lit "v1")].
Definition chunked : framing := Chunked [(lit "5", lit "hello"); (lit "06", lit " world")].

End Answer.

Lemma read_written_response_witness :
  read_http_response (http_response 200 (lit "OK") Answer.headers Answer.chunked Answer.body) =
    Ok ((200, Answer.headers ++ framing_headers Answer.chunked Answer.body, Answer.body), []) ∧
  read_http_response (http_response 200 (lit "OK") Answer.headers ByLength Answer.body) =
    Ok ((200, Answer.headers ++ framing_headers ByLength Answer.body, Answer.body), []).
Proof. split; (apply read_written_response; [by vm_compute|reflexivity..]). Defined.

(** A body that ends before its announced length is taken as it is, and a length that no
    vector can have ends the task. *)
Example truncated_body_accepted :
  read_http_response (line (lit "HTTP/1.1 200 OK") ++ line (lit "Content-Length: 11") ++ crlf ++ lit "hell") =
    Ok ((200, [(lit "Content-Length", lit "11")], lit "hell"), []).
Proof. reflexivity. Qed.

Example huge_length_panics :
  read_http_response (line (lit "HTTP/1.1 200 OK") ++ line (lit "Content-Length: 18446744073709551615") ++ crlf) = Panic.
Proof. reflexivity. Qed.

Example huge_chunk_panics :
  read_http_response (line (lit "HTTP/1.1 200 OK") ++ line (lit "Transfer-Encoding: chunked") ++ crlf ++ line (lit "ffffffffffffffff")) = Panic.
Proof. reflexivity. Qed.

(** ** Reading ends *)

Lemma take_line_shrinks s line rest : take_line s = (line, rest) → (length rest ≤ length s)%nat ∧ (line = [] → s = []) ∧ (s ≠ [] → (length rest < length s)%nat).
Proof.
  revert line rest. induction s as [|c s IH]; intros line rest; cbn [take_line]; [by intros [= <- <-]|].
  destruct (c =? 10); [intros [= <- <-]; cbn; split_and!; (done || lia)|].
  destruct (take_line s) as [l r] eqn:E. intros [= <- <-]. destruct (IH l r eq_refl) as (? & _ & _). cbn. split_and!; (done || lia).
Qed.

Lemma read_line_shrinks s line rest : read_line s = Ok (line, rest) →
  (length rest ≤ length s)%nat ∧ (line ≠ [] → (length rest < length s)%nat).
Proof.
  unfold read_line, read_until_lf, mbind, reader_bind. destruct (take_line s) as [l r] eqn:E. unfold lift, from_utf8.
  destruct (utf8_valid l); [|done]. intros [= <- <-]. destruct (take_line_shrinks _ _ _ E) as (? & Hn & Hs). split; [done|].
  intros Hl. apply Hs. intros ->. cbn in E. congruence.
Qed.

Lemma read_line_ends s : read_line s ≠ Diverge.
Proof.
  unfold read_line, read_until_lf, mbind, reader_bind. destruct (take_line s). unfold lift, from_utf8. by destruct (utf8_valid _).
Qed.

Lemma rbind_ends {A B} (f : A → reader B) (m : reader A) s : m s ≠ Diverge → (∀ a s', m s = Ok (a, s') → f a s' ≠ Diverge) →
  (a ← m; f a) s ≠ Diverge.
Proof. intros Hm Hf. unfold mbind, reader_bind. destruct (m s) as [[a s']| | |] eqn:E; [by apply Hf|done..]. Qed.

Lemma read_headers_ends fuel : ∀ acc s, (length s < fuel)%nat → read_headers fuel acc s ≠ Diverge.
Proof.
  induction fuel as [|fuel IH]; intros acc s Hf; [lia|]. cbn [read_headers]. apply rbind_ends; [apply read_line_ends|].
  intros l s' [Hle Hlt]%read_line_shrinks. destruct (trim_crlf l) as [|c t] eqn:E; [done|]. apply IH.
  assert (l ≠ []) as Hl by (by intros ->). specialize (Hlt Hl). lia.
Qed.

Lemma read_chunks_ends fuel : ∀ body s, (length s < fuel)%nat → read_chunks fuel body s ≠ Diverge.
Proof.
  induction fuel as [|fuel IH]; intros body s Hf; [lia|]. cbn [read_chunks]. apply rbind_ends; [apply read_line_ends|].
  intros l s' [Hle Hlt]%read_line_shrinks. destruct (parse_hex _) as [size|] eqn:E; [|done]. cbn [context].
  assert (Hl : l ≠ []) by (intros ->; vm_compute in E; discriminate E). specialize (Hlt Hl).
  apply rbind_ends; [done|]. intros ? ? [= <- <-]. destruct (size =? 0).
  { unfold mbind, reader_bind, read_until_lf. destruct (take_line s') as [? s2]. by destruct (take_line s2). }
  apply rbind_ends; [unfold grow; by destruct (_ >? _)|]. intros ? ? Hg. unfold grow in Hg. destruct (_ >? _); [done|]. injection Hg as _ <-.
  assert (Hexact : ∀ n t b t', read_exact n t = Ok (b, t') → (length t' ≤ length t)%nat).
  { intros n t b t'. unfold read_exact. destruct (n <=? length t)%nat; [|done]. intros [= _ <-]. rewrite length_drop. lia. }
  apply rbind_ends; [unfold read_exact; by destruct (_ <=? _)%nat|]. intros b t Hb%Hexact.
  apply rbind_ends; [unfold read_exact; by destruct (_ <=? _)%nat|]. intros b' t' Hb'%Hexact. apply IH. lia.
Qed.

(** The fuel of the two loops is enough, whatever the server sends. *)
Lemma read_http_response_ends s : read_http_response s ≠ Diverge.
Proof.
  unfold read_http_response. apply rbind_ends.
  { unfold read_status. apply rbind_ends; [apply read_line_ends|]. intros l s' _. destruct (split_whitespace l) as [|? [|? ?]]; [done..|].
    unfold lift. by destruct (parse_uint 16 _). }
  intros status s1 _. apply rbind_ends; [apply read_headers_ends; lia|]. intros headers s2 _. apply rbind_ends; [|done].
  unfold read_body. destruct (content_length headers); [|destruct (is_chunked headers); [apply read_chunks_ends; lia|done]].
  apply rbind_ends; [unfold grow; by destruct (_ >? _)|done].
Qed.

(** ** Redirects *)

Section redirects.
Context `{UrlLib} (exchange : str → bool → str → Destination → bytes → result bytes) (tag : str) (etag : option str).

(** [n] redirects lead from a URL to a final response. *)
Inductive redirect_chain : nat → str → bytes * Headers * Z → Prop :=
  | chain_end url response : fetch_once exchange tag url etag = Ok (inl response) → redirect_chain 0 url response
  | chain_next n url next response :
    fetch_once exchange tag url etag = Ok (inr next) → redirect_chain n next response → redirect_chain (S n) url response.

Lemma fetch_loop_chain n url response : redirect_chain n url response → ∀ fuel,
  fetch_loop exchange fuel tag url etag = if decide (n < fuel)%nat then Ok response else Err "HTTP redirect limit exceeded".
Proof.
  induction 1 as [url response Hf|n url next response Hf Hc IH]; intros [|fuel]; cbn [fetch_loop]; try done.
  - by rewrite Hf.
  - rewrite Hf. cbn [mbind result_bind]. rewrite IH. destruct (decide _), (decide _); try done; lia.
Qed.

(** Five redirects are followed; a longer chain, or a loop, is an error. *)
Lemma redirects_followed n url response : redirect_chain n url response →
  fetch_url_with_etag exchange tag url etag 0 = if decide (n ≤ 5)%nat then Ok response else Err "HTTP redirect limit exceeded".
Proof.
  intros Hc. unfold fetch_url_with_etag. rewrite (fetch_loop_chain _ _ _ Hc). destruct (decide _), (decide _); try done; lia.
Qed.

(** A server that writes the whole content with its tag, or says that it has not changed. *)
Lemma fetch_once_response url u host port reason headers f body status :
  web_parse url = Some u → web_scheme u = lit "http" ∨ web_scheme u = lit "https" → web_host u = Some host → web_port u = Some port →
  exchange tag (str_eqb (web_scheme u) (lit "https")) host (web_destination host port) (http_request u host etag) =
    Ok (http_response status reason headers f body) →
  status = 200 ∨ status = 304 → head_text reason = true → forallb plain_header headers = true → existsb framing_name headers = false →
  framing_ok f body = true → Z.of_nat (length body) ≤ max_download →
  fetch_url_etag exchange tag url etag = Ok (body, find_header (lit "etag") (headers ++ framing_headers f body), status =? 304).
Proof.
  intros Hu Hs Hh Hp Hx Hst Hr Hpl Hn Hf Hb. unfold fetch_url_etag, fetch_url_with_etag. change (Z.to_nat (6 - 0)) with 6%nat.
  cbn [fetch_loop]. unfold fetch_once. rewrite Hu. cbn [context mbind result_bind].
  assert (negb (str_eqb (web_scheme u) (lit "http") || str_eqb (web_scheme u) (lit "https")) = false) as ->.
  { apply negb_false_iff, orb_true_iff. rewrite !str_eqb_eq. exact Hs. }
  rewrite Hh, Hp. cbn [context mbind result_bind]. rewrite Hx. cbn [mbind result_bind].
  rewrite read_written_response_lemma; [|destruct Hst as [-> | ->]; by vm_compute|done..]. cbn [mbind result_bind].
  assert (is_redirect status = false) as -> by (by destruct Hst as [-> | ->]).
  assert (negb (status =? 200) && negb (status =? 304) = false) as -> by (by destruct Hst as [-> | ->]).
  rewrite Z.gtb_ltb, (proj2 (Z.ltb_ge _ _)) by done. done.
Qed.

End redirects.
