(* ===== verification/Prefetch.v ===== *)
(** * Rule-sets from the network, and their cache (src/src/proxy/mod.rs, src/src/routing.rs)

    A remote rule-set is downloaded through an outbound and kept in a file, with its
    entity tag in another: the next download asks whether the tag is still current.  The
    downloads of several rule-sets run at the same time and the program may stop at any
    moment, so the files are part of a state machine. *)

From S2P Require Import Prelude RustStr Net IpText Util Vless Http Routing Sniff Config Validate Download.

(** ** Text from bytes *)


(** ** Files *)

Definition Path : Type := Z * str.  (* the hash of the URL, and the extension *)
Abbreviation Files := (gmap Path bytes).

Section prefetch.
Context (url_hash : str → Z).  (* DefaultHasher *)

(** [std::fs::write], after [create_dir_all]: whether it succeeded. *)
Context (write_file : Files → Path → bytes → Files * bool).

Definition rule_set_cache_path (url format : str) : Path :=
  (url_hash url, if str_eqb format (lit "binary") then lit "srs" else lit "json").

(** [with_extension("etag")] *)
Definition etag_path (path : Path) : Path := (path.1, lit "etag").

Definition cached_etag (files : Files) (path : Path) : option str :=
  b ← files !! etag_path path;
  let value := trim (from_utf8_lossy b) in
  if str_eqb value [] then None else Some value.

(** The end of a task: what the download gave, and the file of the rule-set. *)
Definition store_fetched (files : Files) (path : Path) (data : bytes) (new_etag : option str) : Files :=
  let files := (write_file files path data).1 in
  match new_etag with Some etag => (write_file files (etag_path path) etag).1 | None => files end.

Definition task_end (files : Files) (path : Path) (fetched : result (bytes * option str * bool)) : result (Files * option bytes) :=
  match fetched with
  | Ok (_, _, true) => Ok (files, files !! path)
  | Ok (data, new_etag, false) => Ok (store_fetched files path data new_etag, Some data)
  | Err _ => Ok (files, None)
  | Panic => Panic
  | Diverge => Diverge
  end.

(** The URL and format that a task works on; without them it gives nothing. *)
Definition task_of (set : RuleSetConfig) : option (str * Path) :=
  url ← set.(set_url);
  format ← result_ok (rule_set_format_for set url);
  Some (url, rule_set_cache_path url format).

(** The outbound for downloads, when a default client is configured. *)
Definition download_detour (route : RouteConfig) (http_clients : list HttpClientConfig) : option str :=
  name ← route.(default_http_client);
  if str_eqb name [] then None else
  client ← List.find (λ c, str_eqb c.(hc_tag) name) http_clients;
  detour ← client.(hc_detour);
  if str_eqb detour [] then None else Some detour.

Definition remote_sets (route : RouteConfig) : list RuleSetConfig :=
  List.filter (λ set, str_eqb set.(set_type) (lit "remote")) route.(config_rule_set).

(** The tasks one after the other; [fetch] is [fetch_url_etag] of the detour.  How their
    steps interleave is the machine below. *)
Fixpoint run_tasks (fetch : str → option str → result (bytes * option str * bool)) (files : Files) (sets : list RuleSetConfig)
    (prefetched : gmap str bytes) : result (Files * gmap str bytes) :=
  match sets with
  | [] => Ok (files, prefetched)
  | set :: sets =>
    match task_of set with
    | None => run_tasks fetch files sets prefetched
    | Some (url, path) =>
      '(files, data) ← task_end files path (fetch url (cached_etag files path));
      run_tasks fetch files sets (match data with Some data => <[set.(set_tag) := data]> prefetched | None => prefetched end)
    end
  end.

Definition prefetch_rule_sets (fetch : str → str → option str → result (bytes * option str * bool)) (files : Files)
    (route : RouteConfig) (http_clients : list HttpClientConfig) : result (Files * gmap str bytes) :=
  match download_detour route http_clients with
  | None => Ok (files, ∅)
  | Some detour => run_tasks (fetch detour) files (remote_sets route) ∅
  end.

(** ** The updater *)

(** How often [start_rule_set_updater] works; [None] when there is nothing to update. *)
Definition update_interval (config : RouteConfig) : option Z :=
  let intervals := map (λ set,
      let minimum := (if str_eqb set.(set_type) (lit "remote") then 60 else 1) * 1000 * millis in
      Z.max (parse_duration_lenient (Some (default (lit "24h") set.(set_update_interval)))) minimum)
    (List.filter (λ set, str_eqb set.(set_type) (lit "remote") || bool_decide (is_Some set.(set_update_interval))) config.(config_rule_set)) in
  match intervals with [] => None | i :: rest => Some (fold_left Z.min rest i) end.

(** One round: download, compile, and replace the rules if that succeeds.  [env] gives the
    files and direct downloads that compiling uses. *)
Definition update_round `{IpNetLib, RegexLib} (fetch : str → str → option str → result (bytes * option str * bool))
    (env : Files → RuleSetEnv) (config : RouteConfig) (default_outbound : str) (http_clients : list HttpClientConfig)
    (files : Files) (router : Router) : result (Files * Router) :=
  '(files, prefetched) ← prefetch_rule_sets fetch files config http_clients;
  match compile_inner (env files) config default_outbound true (Some prefetched) with
  | Ok updated => Ok (files, replace_from router updated)
  | _ => Ok (files, router)
  end.

End prefetch.

(** A rule-set that is in the cache is never downloaded again when it is compiled, so
    without a client for downloads a round of the updater keeps what it has. *)
Lemma cached_set_not_downloaded env download' set url format data rules :
  set.(set_download_detour) = None → set.(set_url) = Some url → rule_set_format_for set url = Ok format →
  env.(read_cache) url format = Some data → decode_rule_set env data format = Ok rules →
  load_remote_rule_set (mkEnv env.(read_file) env.(read_cache) env.(write_cache) download' env.(parse_source) env.(srs_decode)) set = Ok rules.
Proof.
  intros Hd Hu Hf Hc Hr. unfold load_remote_rule_set. rewrite Hd, Hu. cbn [is_some_and context mbind result_bind]. rewrite Hf.
  cbn [mbind result_bind]. cbn [read_cache]. rewrite Hc. cbn [mbind option_bind]. change (decode_rule_set _ data format) with (decode_rule_set env data format).
  by rewrite Hr.
Qed.

(** When the data cannot be written the tag is written all the same, and the old data are
    then taken for current. *)
Example tag_without_data :
  let full files (path : Path) data := if str_eqb path.2 (lit "etag") then (<[path := data]> files, true) else (files, false) in
  let files : Files := {[ (7, lit "json") := lit "old" ]} in
  let files := store_fetched full files (7, lit "json") (lit "new") (Some (lit "v2")) in
  files !! (7, lit "json") = Some (lit "old") ∧ cached_etag files (7, lit "json") = Some (lit "v2").
Proof. vm_compute. done. Qed.

(** ** The cache over time

    A server publishes versions of each rule-set, never the same tag twice.  A task reads
    the tag of its cache, the server answers, and the task ends; between any two of these
    the server may publish and other tasks go on.  Writing a file may fail, before it
    changes anything or midway, and the program may stop at any moment, also midway. *)






Section world.
(** [urls] are those of the configuration, each with its format. *)
Context (url_hash : str → Z) (urls : list str) (format_of : str → str) (content : str → nat → bytes) (etag : str → nat → str).








Context (hash_once : ∀ url url', url ∈ urls → url' ∈ urls → url_hash url = url_hash url' → url = url').
Context (etag_text : ∀ url v, etag url v ≠ [] ∧ trim (from_utf8_lossy (etag url v)) = etag url v).
Context (etag_once : ∀ url v v', etag url v = etag url v' → v = v').
(** The beginning of a tag is not a tag; tags are quoted. *)
Context (etag_cut : ∀ url v v' n, (n < length (etag url v))%nat →
  trim (from_utf8_lossy (take n (etag url v))) ≠ etag url v').






(** *** Writing *)













End world.

(** Three downloads of a rule-set: during the first the program stops in the middle of the
    data; the third finds the data unchanged. *)
Module Twice.

Definition url : str := lit "http://h/a.json".
Definition url_hash (_ : str) : Z := 7.
Definition etag (_ : str) (v : nat) : str := 34 :: replicate v 97 ++ [34].










End Twice.

