(* ===== verification/Xmux.v ===== *)
(** * Connection reuse (src/src/xmux.rs)

    The manager that spreads tunnels over HTTP clients: pools with a budget of
    connections, of requests and of time, the choice of a pool under the
    manager's lock, and the leases that tunnels hold.

    A pool is shared (an [Arc<Mutex<Pool>>]) by the manager's table and by the
    leases, so pools live in a store and everybody holds their index.  The clock,
    the random numbers and the outcome of building an HTTP client are arguments:
    an [Env] per call of [pick].  [acquire_connection] and [acquire_request] let
    go of the manager's lock between the choice of a pool and its update; the
    step relation keeps the two apart. *)

From S2P Require Import Prelude RustStr Http.

Section xmux.
(** [reqwest::Client] *)
Context {HttpClient : Type}.

Record Pool := mkPool {
  http : HttpClient;
  running : Z;
  remaining_reuse : option Z;
  remaining_requests : option Z;
  unusable_at : option Z;
  retired : bool;
}.

(** The manager and the store of pools: [pools] are the entries of the table,
    in order. *)
Record Manager := mkManager {
  config : XmuxConfig;
  limit_concurrency : Z;
  limit_connections : Z;
  initial : option HttpClient;
  store : list Pool;
  pools : list nat;
}.

Record Lease := mkLease { connection_pool : nat; request_pool : nat }.

(** What a call of [pick] takes from outside: the clock (in seconds), a random
    number per sample and for the choice, the result of [build]. *)
Record Env := mkEnv {
  now : Z;
  draw_reuse : Z → Z → Z;
  draw_requests : Z → Z → Z;
  draw_secs : Z → Z → Z;
  draw_index : nat → nat;
  build : result HttpClient;
}.

Definition nonzero_budget (v : Z) : option Z := if v =? 0 then None else Some v.

Definition decrement (o : option Z) : option Z := (λ v, saturating_sub v 1) <$> o.

Definition consume_request (p : Pool) : Pool :=
  mkPool p.(http) p.(running) p.(remaining_reuse) (decrement p.(remaining_requests))
    p.(unusable_at) p.(retired).

Definition consume_reuse (p : Pool) : Pool :=
  mkPool p.(http) p.(running) (decrement p.(remaining_reuse)) p.(remaining_requests)
    p.(unusable_at) p.(retired).

Definition set_running (p : Pool) (n : Z) : Pool :=
  mkPool p.(http) n p.(remaining_reuse) p.(remaining_requests) p.(unusable_at) p.(retired).

Definition retire (p : Pool) : Pool :=
  mkPool p.(http) p.(running) p.(remaining_reuse) p.(remaining_requests) p.(unusable_at) true.

Definition expired (now : Z) (p : Pool) : bool :=
  match p.(unusable_at) with Some deadline => deadline <=? now | None => false end.

(** The first [if] of the loop of [pick] *)
Definition refresh (now : Z) (p : Pool) : Pool :=
  if negb p.(retired)
     && (bool_decide (p.(remaining_reuse) = Some 0) || bool_decide (p.(remaining_requests) = Some 0)
         || expired now p)
  then retire p else p.

Definition new (draw_concurrency draw_connections : Z → Z → Z) (c : XmuxConfig)
    (build : result HttpClient) : result Manager :=
  first ← build;
  conc ← sample draw_concurrency c.(max_concurrency);
  conn ← sample draw_connections c.(max_connections);
  Ok (mkManager c conc conn (Some first) [] []).

(** The loop over the table: the store with the exhausted pools retired, the
    pools that can take the connection or request, the number of those not
    retired. *)
Fixpoint scan (now : Z) (connection : bool) (conc : Z) (ids : list nat) (store : list Pool)
    : list Pool * list nat * Z :=
  match ids with
  | [] => (store, [], 0)
  | id :: ids =>
    let store := alter (refresh now) id store in
    let '(store', active, count) := scan now connection conc ids store in
    match store !! id with
    | Some p =>
      if p.(retired) then (store', active, count)
      else if negb connection || (conc =? 0) || (p.(running) <? conc)
      then (store', id :: active, count + 1)
      else (store', active, count + 1)
    | None => (store', active, count)
    end
  end.

Definition with_store (m : Manager) (s : list Pool) : Manager :=
  mkManager m.(config) m.(limit_concurrency) m.(limit_connections) m.(initial) s m.(pools).

(** [retain(|entry| !(pool.retired && pool.running == 0))] *)
Definition keeps (store : list Pool) (id : nat) : bool :=
  match store !! id with
  | Some p => negb (p.(retired) && (p.(running) =? 0))
  | None => true
  end.

(** [now + Duration::from_secs(seconds)]; an [Instant] has [i64] seconds. *)
Definition instant_add (now secs : Z) : result Z :=
  if now + secs <? 2 ^ 63 then Ok (now + secs) else Panic.

(** The branch of [pick] that adds a pool to the table *)
Definition open_pool (e : Env) (m : Manager) : Manager * result nat :=
  let ids := List.filter (keeps m.(store)) m.(pools) in
  let m1 := mkManager m.(config) m.(limit_concurrency) m.(limit_connections) None m.(store) ids in
  let r :=
    client ← match m.(initial) with Some c => Ok c | None => e.(build) end;
    reuse ← sample e.(draw_reuse) m.(config).(c_max_reuse_times);
    requests ← sample e.(draw_requests) m.(config).(h_max_request_times);
    secs ← sample e.(draw_secs) m.(config).(h_max_reusable_secs);
    deadline ← match nonzero_budget secs with
               | Some s => Some <$> instant_add e.(now) s
               | None => Ok None
               end;
    Ok (mkPool client 0 (nonzero_budget reuse) (nonzero_budget requests) deadline false) in
  match r with
  | Ok p =>
    let id := length m.(store) in
    (mkManager m.(config) m.(limit_concurrency) m.(limit_connections) None (m.(store) ++ [p]) (ids ++ [id]),
     Ok id)
  | Err err => (m1, Err err)
  | Panic => (m1, Panic)
  | Diverge => (m1, Diverge)
  end.

Definition pick (e : Env) (connection : bool) (m : Manager) : Manager * result nat :=
  let '(st, active, count) :=
    scan e.(now) connection m.(limit_concurrency) m.(pools) m.(store) in
  let m := with_store m st in
  let '(m, r) :=
    if bool_decide (active = [])
       || ((m.(limit_connections) >? 0) && (count <? m.(limit_connections)))
    then open_pool e m
    else (m, index active (e.(draw_index) (length active))) in
  match r with
  | Ok id =>
    (if connection then with_store m (alter consume_reuse id m.(store)) else m, Ok id)
  | r => (m, r)
  end.

(** The second half of [acquire_connection], under the pool's lock *)
Definition enter (id : nat) (m : Manager) : Manager :=
  with_store m (alter (λ p, consume_request (set_running p (p.(running) + 1))) id m.(store)).

Definition acquire_connection (e : Env) (m : Manager) : Manager * result Lease :=
  let '(m, r) := pick e true m in
  match r with
  | Ok id => (enter id m, Ok (mkLease id id))
  | Err err => (m, Err err)
  | Panic => (m, Panic)
  | Diverge => (m, Diverge)
  end.

Definition acquire_request (e : Env) (m : Manager) : Manager * result nat :=
  let '(m, r) := pick e false m in
  match r with
  | Ok id => (with_store m (alter consume_request id m.(store)), Ok id)
  | r => (m, r)
  end.

(** [Lease::http_for_packet]: the lease with its request pool, and the client of
    that pool. *)
Definition http_for_packet (e : Env) (l : Lease) (m : Manager) : Manager * Lease * result HttpClient :=
  match m.(store) !! l.(request_pool) with
  | None => (m, l, Panic)
  | Some p =>
    let '(m, l, r) :=
      if p.(retired) || bool_decide (p.(remaining_requests) = Some 0) || expired e.(now) p then
        let '(m, r) := acquire_request e (with_store m (alter retire l.(request_pool) m.(store))) in
        match r with
        | Ok id => (m, mkLease l.(connection_pool) id, Ok tt)
        | Err err => (m, l, Err err)
        | Panic => (m, l, Panic)
        | Diverge => (m, l, Diverge)
        end
      else (with_store m (alter consume_request l.(request_pool) m.(store)), l, Ok tt) in
    (m, l, _ ← r; http <$> index m.(store) l.(request_pool))
  end.

(** [Drop for Lease] *)
Definition drop_lease (l : Lease) (m : Manager) : Manager :=
  with_store m (alter (λ p, set_running p (saturating_sub p.(running) 1)) l.(connection_pool) m.(store)).

End xmux.
Arguments Pool : clear implicits.
Arguments Manager : clear implicits.
Arguments Env : clear implicits.

(** ** The scan *)

Section facts.
Context {HttpClient : Type}.
Implicit Types (m : Manager HttpClient) (p : Pool HttpClient) (st : list (Pool HttpClient)).

Lemma refresh_idemp t p : refresh t (refresh t p) = refresh t p.
Proof.
  unfold refresh at 2 3. destruct (negb _ && _) eqn:E; unfold refresh; [done|]. by rewrite E.
Qed.

Lemma refresh_fields t p :
  running (refresh t p) = running p ∧ remaining_reuse (refresh t p) = remaining_reuse p ∧
  remaining_requests (refresh t p) = remaining_requests p.
Proof. unfold refresh. by destruct (negb _ && _). Qed.

(** A pool that stays in use has something left of every budget. *)
Lemma refresh_live t p :
  retired (refresh t p) = false →
  refresh t p = p ∧ retired p = false ∧ remaining_reuse p ≠ Some 0 ∧ remaining_requests p ≠ Some 0.
Proof.
  unfold refresh. destruct (negb _ && _) eqn:E; [done|]. intros Hr. rewrite Hr in E. cbn in E.
  bool_to_prop. done.
Qed.

(** The pool is not retired, in the store. *)
Definition usable st (id : nat) : bool :=
  match st !! id with Some p => negb (retired p) | None => false end.

Definition takes (connection : bool) (conc : Z) st (id : nat) : bool :=
  match st !! id with
  | Some p => negb (retired p) && (negb connection || (conc =? 0) || (running p <? conc))
  | None => false
  end.

Lemma scan_store t c conc ids st i :
  (scan t c conc ids st).1.1 !! i = (if decide (i ∈ ids) then refresh t else id) <$> st !! i.
Proof.
  revert st. induction ids as [|j ids IH]; intros st; cbn [scan].
  { rewrite decide_False by apply not_elem_of_nil. cbn. by rewrite option_fmap_id. }
  specialize (IH (alter (refresh t) j st)).
  destruct (scan t c conc ids (alter (refresh t) j st)) as [[st' active] count]. cbn [fst] in IH.
  assert (H : (match alter (refresh t) j st !! j with
     | Some p => if retired p then (st', active, count)
                 else if negb c || (conc =? 0) || (running p <? conc)
                      then (st', j :: active, count + 1) else (st', active, count + 1)
     | None => (st', active, count) end).1.1 = st') by (by repeat break_match_goal).
  rewrite H, IH, list_lookup_alter. destruct (decide (j = i)) as [->|Hne].
  - rewrite (decide_True (P := i ∈ i :: ids)) by (left). rewrite <- option_fmap_compose.
    destruct (st !! i) as [p|]; [|done]. cbn. f_equal.
    destruct (decide (i ∈ ids)); cbn; [apply refresh_idemp|done].
  - destruct (decide (i ∈ ids)), (decide (i ∈ j :: ids)); try done; set_solver.
Qed.

(** What the rest of the scan does to the pool just looked at. *)
Lemma scan_store_head t c conc ids st j :
  let st1 := alter (refresh t) j st in
  (scan t c conc ids st1).1.1 !! j = st1 !! j.
Proof.
  intros st1. rewrite scan_store. unfold st1. rewrite list_lookup_alter_eq.
  destruct (st !! j) as [p|]; [|done]. cbn. f_equal.
  destruct (decide (j ∈ ids)); [apply refresh_idemp|done].
Qed.

Lemma scan_active t c conc ids st :
  (scan t c conc ids st).1.2 = List.filter (takes c conc (scan t c conc ids st).1.1) ids ∧
  (scan t c conc ids st).2 = Z.of_nat (length (List.filter (usable (scan t c conc ids st).1.1) ids)).
Proof.
  revert st. induction ids as [|j ids IH]; intros st; [done|].
  pose proof (scan_store_head t c conc ids st j) as Hj. cbn zeta in Hj. cbn [scan].
  destruct (IH (alter (refresh t) j st)) as [IHa IHc].
  destruct (scan t c conc ids (alter (refresh t) j st)) as [[st' active] count].
  cbn [fst snd] in *.
  assert (Ht : takes c conc st' j = match alter (refresh t) j st !! j with
    | Some p => negb (retired p) && (negb c || (conc =? 0) || (running p <? conc)) | None => false end)
    by (unfold takes; by rewrite Hj).
  assert (Hu : usable st' j = match alter (refresh t) j st !! j with
    | Some p => negb (retired p) | None => false end) by (unfold usable; by rewrite Hj).
  destruct (alter (refresh t) j st !! j) as [p|]; [destruct (retired p); [|destruct (negb c || _ || _)]|];
    cbn [fst snd List.filter negb andb] in *; rewrite Ht, Hu; cbn [length];
    (split; [by rewrite IHa|lia]).
Qed.

Lemma length_filter_le {A} (f g : A → bool) l :
  (∀ a, f a = true → g a = true) → (length (List.filter f l) ≤ length (List.filter g l))%nat.
Proof.
  intros H. induction l as [|a l IH]; cbn; [done|]. specialize (H a).
  destruct (f a), (g a); cbn; first [lia|by specialize (H eq_refl)].
Qed.

(** ** Steps

    What happens to the manager under one of its locks.  [Pick] is the critical
    section of [pick]; the other steps are those of a pool: the second halves of
    [acquire_connection] and [acquire_request], the check of [http_for_packet]
    and the end of a lease. *)
Inductive label :=
  | Pick (e : Env HttpClient) (connection : bool)
  | Enter (id : nat)
  | Consume (id : nat)
  | Retire (id : nat)
  | Leave (id : nat).

Definition step m (l : label) : Manager HttpClient * option nat :=
  match l with
  | Pick e c => let '(m, r) := pick e c m in (m, if c then result_ok r else None)
  | Enter id => (enter id m, None)
  | Consume id => (with_store m (alter consume_request id m.(store)), None)
  | Retire id => (with_store m (alter retire id m.(store)), None)
  | Leave id => (drop_lease (mkLease id id) m, None)
  end.

(** A run: the manager it ends in, and the pools its connections were given. *)
Fixpoint steps m (ls : list label) : Manager HttpClient * list nat :=
  match ls with
  | [] => (m, [])
  | l :: ls =>
    let '(m, r) := step m l in
    let '(m, rs) := steps m ls in
    (m, match r with Some id => id :: rs | None => rs end)
  end.

(** ** The number of pools in use *)

Definition live_pools m : Z := Z.of_nat (length (List.filter (usable m.(store)) m.(pools))).

(** The entries of the table are in the store. *)
Definition stored m : Prop := Forall (λ id, id < length m.(store))%nat m.(pools).

(** The pools of [m'] are those of [m], and none came back into use. *)
Definition weaker m m' : Prop :=
  m'.(limit_concurrency) = m.(limit_concurrency) ∧ m'.(limit_connections) = m.(limit_connections) ∧
  m'.(pools) = m.(pools) ∧ length m'.(store) = length m.(store) ∧
  ∀ id, usable m'.(store) id = true → usable m.(store) id = true.

Lemma weaker_live m m' : weaker m m' → stored m → stored m' ∧ live_pools m' ≤ live_pools m.
Proof.
  intros (_ & _ & Hp & Hl & Hu) Hs. split.
  - unfold stored. by rewrite Hp, Hl.
  - unfold live_pools. rewrite Hp. apply Nat2Z.inj_le, length_filter_le, Hu.
Qed.

Lemma weaker_trans m1 m2 m3 : weaker m1 m2 → weaker m2 m3 → weaker m1 m3.
Proof.
  intros (? & ? & ? & ? & ?) (? & ? & ? & ? & ?). split_and!; [congruence..|auto].
Qed.

Lemma weaker_alter m f id :
  (∀ p, retired (f p) = false → retired p = false) → weaker m (with_store m (alter f id m.(store))).
Proof.
  intros Hf. split_and!; [done..|apply length_alter|]. intros i. unfold usable. cbn [with_store store].
  rewrite list_lookup_alter. destruct (decide (id = i)) as [->|]; [|done].
  destruct (m.(store) !! i) as [p|]; [|done]. cbn. rewrite !negb_true_iff. apply Hf.
Qed.

Lemma length_scan t c conc ids st : length (scan t c conc ids st).1.1 = length st.
Proof.
  revert st. induction ids as [|j ids IH]; intros st; [done|]. cbn [scan].
  specialize (IH (alter (refresh t) j st)). rewrite length_alter in IH. rewrite <- IH.
  destruct (scan _ _ _ _ _) as [[st' active] count]. by repeat break_match_goal.
Qed.

Lemma weaker_scan t c m :
  weaker m (with_store m (scan t c m.(limit_concurrency) m.(pools) m.(store)).1.1).
Proof.
  split_and!; [done..|apply length_scan|]. intros i. unfold usable. cbn [with_store store].
  rewrite scan_store. destruct (m.(store) !! i) as [p|]; [|done]. cbn.
  destruct (decide _); cbn; [|done]. rewrite !negb_true_iff. intros (_ & H & _)%refresh_live. done.
Qed.

(** Opening a pool adds at most one. *)
Lemma open_pool_live e m m' r :
  open_pool e m = (m', r) → stored m →
  stored m' ∧ live_pools m' ≤ live_pools m + 1 ∧
  m'.(limit_concurrency) = m.(limit_concurrency) ∧ m'.(limit_connections) = m.(limit_connections).
Proof.
  unfold open_pool. intros H Hs.
  assert (Hf : Forall (λ id, id < length m.(store))%nat (List.filter (keeps m.(store)) m.(pools))).
  { apply Forall_forall. intros id Hin. apply list_elem_of_In, filter_In in Hin as [Hin _].
    apply (proj1 (Forall_forall _ _) Hs), list_elem_of_In, Hin. }
  assert (Hle : (length (List.filter (usable m.(store)) (List.filter (keeps m.(store)) m.(pools))) ≤
    length (List.filter (usable m.(store)) m.(pools)))%nat).
  { clear. induction m.(pools) as [|i l IH]; [done|]. cbn.
    destruct (keeps _ i); cbn; destruct (usable _ i); cbn; lia. }
  match type of H with context [match ?x with Ok _ => _ | _ => _ end] => destruct x as [p| | |] end;
    injection H as <- _; cbn; unfold stored, live_pools; cbn [store pools];
    [|split_and!; [done|lia|done..]..].
  split_and!; [|..|done|done].
  - apply Forall_app. rewrite length_app. cbn. split; [|by repeat constructor; lia].
    eapply Forall_impl; [exact Hf|]. cbn; intros; lia.
  - rewrite List.filter_app, length_app.
    assert (Heq : List.filter (usable (m.(store) ++ [p])) (List.filter (keeps m.(store)) m.(pools)) =
      List.filter (usable m.(store)) (List.filter (keeps m.(store)) m.(pools))).
    { apply List.filter_ext_in. intros id Hin%list_elem_of_In.
      apply (proj1 (Forall_forall _ _) Hf) in Hin. unfold usable. by rewrite lookup_app_l. }
    rewrite Heq. cbn. destruct (usable _ _); cbn; lia.
Qed.

(** The cap on connections is kept. *)
Definition capped (n : Z) m : Prop :=
  stored m ∧ m.(limit_concurrency) = 0 ∧ m.(limit_connections) = n ∧ 0 < n ∧ live_pools m ≤ n.

Lemma capped_weaker n m m' : weaker m m' → capped n m → capped n m'.
Proof.
  intros Hw (Hs & Hc & Hl & Hn & Hb). destruct (weaker_live _ _ Hw Hs) as [Hs' Hb'].
  destruct Hw as (Ec & El & _). split_and!; [done|congruence|congruence|lia|lia].
Qed.

Lemma capped_pick n e c m : capped n m → capped n (pick e c m).1.
Proof.
  intros Hc. unfold pick. pose proof (weaker_scan e.(now) c m) as Hw.
  destruct (scan_active e.(now) c m.(limit_concurrency) m.(pools) m.(store)) as [Ha Hcnt].
  destruct (scan _ _ _ _ _) as [[st active] count]. cbn [fst snd] in *.
  pose proof (capped_weaker _ _ _ Hw Hc) as (Hs & Hz & Hl & Hp & Hb).
  set (m1 := with_store m st) in *.
  assert (Hcount : live_pools m1 = count) by (rewrite Hcnt; done).
  assert (Hactive : active = [] → count = 0).
  { intros Hnil. rewrite Hcnt. rewrite (List.filter_ext _ (takes c m.(limit_concurrency) st)).
    { by rewrite <- Ha, Hnil. }
    intros id. unfold usable, takes. destruct (st !! id); [|done].
    change (limit_concurrency m1) with (limit_concurrency m) in Hz.
    rewrite Hz. cbn. by rewrite orb_true_r, andb_true_r. }
  destruct (_ || _) eqn:Eo.
  - destruct (open_pool e m1) as [m2 r] eqn:Eop.
    destruct (open_pool_live _ _ _ _ Eop Hs) as (Hs2 & Hb2 & Ec2 & El2).
    assert (Hc2 : capped n m2).
    { split_and!; [done|congruence|congruence|lia|].
      apply orb_true_iff in Eo as [Eo|Eo]; rewrite ?Z.gtb_ltb in Eo; bool_to_prop; [|lia].
      rewrite (Hactive Eo) in Hcount. lia. }
    destruct r as [id| | |]; [|done..]. destruct c; [|done]. cbn [fst].
    eapply capped_weaker; [|exact Hc2]. by apply weaker_alter.
  - assert (Hc1 : capped n m1) by done.
    destruct (index _ _) as [id| | |]; [|done..]. destruct c; [|done]. cbn [fst].
    eapply capped_weaker; [|exact Hc1]. by apply weaker_alter.
Qed.

Lemma capped_steps n m ls : capped n m → capped n (steps m ls).1.
Proof.
  revert m. induction ls as [|l ls IH]; intros m Hc; [done|]. cbn [steps].
  assert (Hs : capped n (step m l).1).
  { destruct l as [e c|id|id|id|id]; cbn [step].
    1: { pose proof (capped_pick n e c m Hc). by destruct (pick e c m). }
    all: eapply capped_weaker; [|exact Hc]; by apply weaker_alter. }
  destruct (step m l) as [m1 r]. specialize (IH m1 Hs). by destruct (steps m1 ls).
Qed.

(** C15: with a validated configuration, however the locks are taken by the
    tunnels, the table never holds more pools in use than the sampled
    [max_connections]. *)
Theorem connections_capped draw_conc draw_conn c (b : result HttpClient) m ls :
  XmuxConfig_validate c = Ok tt → new draw_conc draw_conn c b = Ok m →
  0 < m.(limit_connections) →
  live_pools (steps m ls).1 ≤ m.(limit_connections).
Proof.
  intros Hv Hm Hl. apply (capped_steps m.(limit_connections)).
  unfold new in Hm. apply bind_Ok in Hm as (first & _ & Hm).
  apply bind_Ok in Hm as (conc & Hconc & Hm). apply bind_Ok in Hm as (conn & Hconn & [= <-]).
  cbn in Hl |- *. split_and!; [by apply Forall_nil| |done..|unfold live_pools; cbn; lia]. cbn.
  unfold XmuxConfig_validate in Hv. unfold sample in *.
  destruct (to (max_connections c) =? 0) eqn:E1; [injection Hconn as <-; lia|].
  destruct (to (max_concurrency c) =? 0) eqn:E2; [by injection Hconc|done].
Qed.

(** ** What a choice of a pool does to the others *)

Definition chosen (r : result nat) (i : nat) : bool := bool_decide (result_ok r = Some i).

(** The pool [i] after the choice [r], where [c] is a connection. *)
Record picked (c : bool) (conc : Z) (hit : bool) p p' : Prop := {
  picked_running : running p' = running p;
  picked_requests : remaining_requests p' = remaining_requests p;
  picked_reuse : remaining_reuse p' =
    if c && hit then decrement (remaining_reuse p) else remaining_reuse p;
  picked_usable : hit = true → remaining_reuse p ≠ Some 0 ∧ remaining_requests p ≠ Some 0 ∧
    (c = true → conc = 0 ∨ running p < conc);
}.

Lemma open_pool_cases e m :
  let ids := List.filter (keeps m.(store)) m.(pools) in
  (∃ p, running p = 0 ∧
    open_pool e m = (mkManager m.(config) m.(limit_concurrency) m.(limit_connections) None
      (m.(store) ++ [p]) (ids ++ [length m.(store)]), Ok (length m.(store)))) ∨
  (∃ r, result_ok r = None ∧
    open_pool e m = (mkManager m.(config) m.(limit_concurrency) m.(limit_connections) None
      m.(store) ids, r)).
Proof.
  intros ids. unfold open_pool. fold ids.
  match goal with |- context [match ?x with Ok _ => _ | _ => _ end] => destruct x as [p| | |] eqn:E end;
    [|by right; eexists; split; [|done]..].
  left. exists p. split; [|done]. repeat (apply bind_Ok in E as (? & _ & E)). by injection E as <-.
Qed.

(** The table and the store after a choice. *)
Definition pick_store_spec c m m' (r : result nat) : Prop :=
  ∀ i p, m.(store) !! i = Some p →
    ∃ p', m'.(store) !! i = Some p' ∧ picked c m.(limit_concurrency) (chosen r i) p p'.

Lemma pick_store e c m : pick_store_spec c m (pick e c m).1 (pick e c m).2.
Proof.
  intros i p Hi. unfold pick.
  pose proof (scan_store e.(now) c m.(limit_concurrency) m.(pools) m.(store) i) as Hst.
  destruct (scan_active e.(now) c m.(limit_concurrency) m.(pools) m.(store)) as [Ha _].
  destruct (scan _ _ _ _ _) as [[st active] count]. cbn [fst snd] in *. rewrite Hi in Hst.
  destruct (refresh_fields e.(now) p) as (F1 & F2 & F3).
  set (q := (if decide (i ∈ m.(pools)) then refresh e.(now) else id) p).
  assert (Hq : st !! i = Some q) by exact Hst.
  assert (Hf : running q = running p ∧ remaining_reuse q = remaining_reuse p ∧
    remaining_requests q = remaining_requests p) by (unfold q; by destruct (decide _)).
  destruct Hf as (Q1 & Q2 & Q3).
  assert (Hmiss : ∀ r : result nat, chosen r i = false → picked c m.(limit_concurrency) (chosen r i) p q).
  { intros r ->. split; [done..|by rewrite andb_false_r|done]. }
  destruct (_ || _).
  - destruct (open_pool_cases e (with_store m st)) as [(p1 & _ & ->)|(r & Hr & ->)]; cbn.
    + pose proof (lookup_lt_Some _ _ _ Hq).
      assert (Hno : chosen (Ok (length st)) i = false) by (apply bool_decide_eq_false; cbn; intros [=]; lia).
      exists q. split; [|by apply (Hmiss (Ok (length st)))].
      destruct c; cbn; [rewrite list_lookup_alter_ne by lia|]; by rewrite lookup_app_l.
    + destruct r; [done|..]; cbn; (exists q; split; [done|by apply Hmiss]).
  - destruct (index active _) as [j| | |] eqn:Ej; cbn; [|by exists q; split; [done|by apply Hmiss]..].
    destruct (decide (j = i)) as [->|Hne].
    + apply index_Ok, list_elem_of_lookup_2 in Ej. rewrite Ha in Ej.
      apply list_elem_of_In, filter_In in Ej as [Hin Ht]. apply list_elem_of_In in Hin.
      unfold takes in Ht. rewrite Hq in Ht. bool_to_prop.
      assert (Hlive : refresh e.(now) p = q) by (unfold q; by rewrite decide_True).
      assert (Hr : retired (refresh e.(now) p) = false) by (by rewrite Hlive).
      destruct (refresh_live _ _ Hr) as (_ & _ & L1 & L2).
      assert (Hc : c = true → m.(limit_concurrency) = 0 ∨ running p < m.(limit_concurrency)).
      { intros ->. cbn in H0. apply orb_true_iff in H0 as [H0|H0]; bool_to_prop; [by left|]. right. lia. }
      assert (Hh : chosen (Ok i) i = true) by (by apply bool_decide_eq_true).
      rewrite Hh. destruct c; cbn.
      * exists (consume_reuse q). rewrite list_lookup_alter_eq, Hq. split; [done|].
        split; cbn; [done|done|by rewrite Q2|done].
      * exists q. split; [done|]. by split.
    + assert (Hno : chosen (Ok j) i = false) by (apply bool_decide_eq_false; cbn; congruence).
      exists q. split; [|by apply (Hmiss (Ok j))].
      destruct c; cbn; [by rewrite list_lookup_alter_ne|done].
Qed.

(** ** Budgets *)

Lemma lookup_alter_pool f id st i p :
  st !! i = Some p → alter f id st !! i = Some (if decide (id = i) then f p else p).
Proof.
  intros Hi. rewrite list_lookup_alter. destruct (decide (id = i)) as [->|]; [by rewrite Hi|done].
Qed.

Lemma step_reuse m l i p n :
  m.(store) !! i = Some p → remaining_reuse p = Some n → 0 ≤ n →
  ∃ p' n', (step m l).1.(store) !! i = Some p' ∧ remaining_reuse p' = Some n' ∧
    0 ≤ n' ∧ n' + (if bool_decide ((step m l).2 = Some i) then 1 else 0) ≤ n.
Proof.
  intros Hi Hn Hpos. destruct l as [e c|id|id|id|id]; cbn [step].
  1: { destruct (pick_store e c m i p Hi) as (p' & Hp' & [_ _ Hr Hu]).
    destruct (pick e c m) as [m' r]. cbn [fst snd] in *. unfold chosen in *. exists p'.
    destruct c; cbn [andb] in Hr.
    - case_bool_decide as Hc; rewrite Hn in Hr.
      + destruct (Hu eq_refl) as [Hz _]. exists (n - 1). assert (n ≠ 0) by congruence.
        split_and!; [done| |lia..]. rewrite Hr. cbn. unfold saturating_sub. f_equal. lia.
      + exists n. split_and!; [done..|lia].
    - exists n. rewrite bool_decide_false by done. split_and!; [done|congruence|lia..]. }
  all: rewrite bool_decide_false by done; cbn [fst enter with_store store drop_lease connection_pool];
    eexists; exists n; (split_and!; [by apply lookup_alter_pool| |lia|lia]); by destruct (decide _).
Qed.

(** A pool with [n] uses left in its reuse budget is given to at most [n]
    more connections, however the tunnels take the locks. *)
Theorem reuse_budget_respected m ls i p n :
  m.(store) !! i = Some p → remaining_reuse p = Some n → 0 ≤ n →
  Z.of_nat (length (filter (.= i) (steps m ls).2)) ≤ n.
Proof.
  revert m p n. induction ls as [|l ls IH]; intros m p n Hi Hn Hpos; cbn [steps]; [cbn; lia|].
  destruct (step_reuse m l i p n Hi Hn Hpos) as (p' & n' & Hi' & Hn' & Hpos' & Hle).
  destruct (step m l) as [m1 r]. cbn [fst snd] in *. specialize (IH m1 p' n' Hi' Hn' Hpos').
  destruct (steps m1 ls) as [m2 rs]. cbn [snd] in *.
  destruct r as [id|]; [|rewrite bool_decide_false in Hle by done; lia].
  rewrite filter_cons. case_bool_decide as Hc; case_decide as Hd; cbn [length]; try lia; congruence.
Qed.

(** ** Leases

    The tunnels as a single thread sees them: every call is complete before the
    next. *)
Inductive call :=
  | Acquire (e : Env HttpClient)
  | Packet (e : Env HttpClient) (i : nat)
  | Drop (i : nat).

Definition exec (s : Manager HttpClient * list Lease) (c : call) : Manager HttpClient * list Lease :=
  let '(m, ls) := s in
  match c with
  | Acquire e =>
    let '(m, r) := acquire_connection e m in
    (m, match r with Ok l => ls ++ [l] | _ => ls end)
  | Packet e i =>
    match ls !! i with
    | Some l => let '(m, l, _) := http_for_packet e l m in (m, <[i := l]> ls)
    | None => s
    end
  | Drop i =>
    match ls !! i with
    | Some l => (drop_lease l m, delete i ls)
    | None => s
    end
  end.

Definition holders (ls : list Lease) (id : nat) : nat :=
  length (filter (λ l, l.(connection_pool) = id) ls).

(** The counters are the leases, the limit holds, and the table keeps the pools
    that leases hold. *)
Record accounted (conc : Z) (s : Manager HttpClient * list Lease) : Prop := {
  accounted_limit : s.1.(limit_concurrency) = conc;
  accounted_running i p : s.1.(store) !! i = Some p →
    running p = Z.of_nat (holders s.2 i) ∧ (0 < conc → running p ≤ conc);
  accounted_table l : l ∈ s.2 → l.(connection_pool) ∈ s.1.(pools) ∧
    is_Some (s.1.(store) !! l.(connection_pool));
  accounted_stored : stored s.1;
}.

Lemma pick_limits e c m :
  (pick e c m).1.(limit_concurrency) = m.(limit_concurrency).
Proof.
  unfold pick. destruct (scan _ _ _ _ _) as [[st active] count]. destruct (_ || _).
  - destruct (open_pool_cases e (with_store m st)) as [(p1 & _ & ->)|(r & Hr & ->)]; cbn;
      [by destruct c|by destruct r; destruct c].
  - destruct (index _ _); [|done..]. by destruct c.
Qed.

(** What a choice of a pool does to the table: the counters stay, pools with a
    running lease stay in the table, a new pool is idle. *)
Record table_step m m' : Prop := {
  ts_stored : stored m → stored m';
  ts_pool i p : m.(store) !! i = Some p →
    ∃ p', m'.(store) !! i = Some p' ∧ running p' = running p;
  ts_table i p : m.(store) !! i = Some p → i ∈ m.(pools) → running p ≠ 0 → i ∈ m'.(pools);
  ts_new i p : m.(store) !! i = None → m'.(store) !! i = Some p → running p = 0;
}.

Lemma table_step_refl m : table_step m m.
Proof. split; eauto. intros; simplify_eq. Qed.

Lemma table_step_trans m1 m2 m3 : table_step m1 m2 → table_step m2 m3 → table_step m1 m3.
Proof.
  intros [S1 P1 T1 N1] [S2 P2 T2 N2]. split.
  - auto.
  - intros i p (p' & Hp' & <-)%P1. by apply P2.
  - intros i p Hi Hin Hr. destruct (P1 _ _ Hi) as (p' & Hp' & Hr').
    apply (T2 i p'); [done| |congruence]. by eapply T1.
  - intros i p Hi Hp. destruct (m2.(store) !! i) as [p'|] eqn:E.
    + destruct (P2 _ _ E) as (p'' & Hp'' & Hr). pose proof (N1 _ _ Hi E). congruence.
    + by eapply N2.
Qed.

Lemma table_step_store m f :
  (∀ i, ∃ g, f !! i = g <$> m.(store) !! i ∧ ∀ p, running (g p) = running p) →
  length f = length m.(store) → table_step m (with_store m f).
Proof.
  intros Hf Hl. split; cbn [with_store store pools].
  - unfold stored. cbn. by rewrite Hl.
  - intros i p Hi. destruct (Hf i) as (g & -> & Hg). rewrite Hi. eexists. by split; [|apply Hg].
  - done.
  - intros i p Hi. destruct (Hf i) as (g & -> & Hg). by rewrite Hi.
Qed.

Lemma table_step_alter m f id :
  (∀ p, running (f p) = running p) → table_step m (with_store m (alter f id m.(store))).
Proof.
  intros Hf. apply table_step_store; [|apply length_alter]. intros i. rewrite list_lookup_alter.
  destruct (decide (id = i)) as [->|]; [by exists f|]. exists (λ p, p).
  split; [by destruct (m.(store) !! i)|done].
Qed.

Lemma table_step_scan t c m :
  table_step m (with_store m (scan t c m.(limit_concurrency) m.(pools) m.(store)).1.1).
Proof.
  apply table_step_store; [|apply length_scan]. intros i. rewrite scan_store.
  eexists. split; [done|]. intros p. destruct (decide _); [apply refresh_fields|done].
Qed.

Lemma table_step_open e m : table_step m (open_pool e m).1.
Proof.
  assert (Hs : stored m → stored (open_pool e m).1).
  { destruct (open_pool e m) as [m' r] eqn:E. intros H. by eapply open_pool_live in E as []. }
  assert (Hkeep : ∀ i p, m.(store) !! i = Some p → i ∈ m.(pools) → running p ≠ 0 →
    i ∈ List.filter (keeps m.(store)) m.(pools)).
  { intros i p Hi Hin Hr. apply list_elem_of_In, filter_In. split; [by apply list_elem_of_In|].
    unfold keeps. rewrite Hi. apply Z.eqb_neq in Hr. by rewrite Hr, andb_false_r. }
  destruct (open_pool_cases e m) as [(p1 & Hp1 & Eq)|(r & Hr & Eq)]; rewrite Eq in *; cbn [fst] in *;
    (split; [done|..]); cbn [store pools].
  - intros i p Hi. exists p. by rewrite (lookup_app_l_Some _ _ _ _ Hi).
  - intros i p Hi Hin Hr. apply elem_of_app. left. by eapply Hkeep.
  - intros i p Hi [Hp|[_ [_ <-]%list_lookup_singleton_Some]]%lookup_app_Some; [congruence|done].
  - eauto.
  - exact Hkeep.
  - congruence.
Qed.

Lemma pick_table e c m : table_step m (pick e c m).1.
Proof.
  unfold pick. pose proof (table_step_scan e.(now) c m) as H.
  destruct (scan _ _ _ _ _) as [[st active] count]. cbn [fst] in H.
  assert (Hend : ∀ m' r, table_step m m' → table_step m
    (match r with
     | Ok id => (if c then with_store m' (alter consume_reuse id m'.(store)) else m', Ok id)
     | r => (m', r) end).1).
  { intros m' r Hm'. destruct r as [id| | |]; [|done..]. destruct c; [|done]. cbn.
    eapply table_step_trans; [done|]. by apply table_step_alter. }
  destruct (_ || _); [|by apply Hend].
  pose proof (table_step_open e (with_store m st)) as Ho.
  destruct (open_pool e (with_store m st)) as [m2 r]. apply Hend. by eapply table_step_trans.
Qed.

(** The chosen pool is an entry of the table. *)
Lemma pick_chosen e c m i :
  (pick e c m).2 = Ok i → stored m →
  i ∈ (pick e c m).1.(pools) ∧ is_Some ((pick e c m).1.(store) !! i).
Proof.
  unfold pick. intros Hr Hs.
  destruct (scan_active e.(now) c m.(limit_concurrency) m.(pools) m.(store)) as [Ha _].
  pose proof (length_scan e.(now) c m.(limit_concurrency) m.(pools) m.(store)) as Hl.
  destruct (scan _ _ _ _ _) as [[st active] count]. cbn [fst snd] in *.
  assert (Hend : ∀ m', i ∈ m'.(pools) → (i < length m'.(store))%nat →
    let m'' := if c then with_store m' (alter consume_reuse i m'.(store)) else m' in
    i ∈ m''.(pools) ∧ is_Some (m''.(store) !! i)).
  { intros m' Hin Hlt. destruct c; cbn; (split; [done|]); apply lookup_lt_is_Some; by rewrite ?length_alter. }
  destruct (_ || _).
  - destruct (open_pool_cases e (with_store m st)) as [(p1 & _ & Eq)|(r & Hn & Eq)]; rewrite Eq in *.
    + injection Hr as <-. apply Hend; cbn; [set_solver|rewrite length_app; cbn; lia].
    + by destruct r.
  - destruct (index _ _) as [j| | |] eqn:Ej; [|done..]. injection Hr as ->.
    apply index_Ok, list_elem_of_lookup_2 in Ej. rewrite Ha in Ej.
    apply list_elem_of_In, filter_In in Ej as [Hin%list_elem_of_In _].
    apply Hend; [done|]. cbn. rewrite Hl. by apply (proj1 (Forall_forall _ _) Hs).
Qed.

Lemma holders_snoc ls l i :
  holders (ls ++ [l]) i = (holders ls i + if decide (l.(connection_pool) = i) then 1 else 0)%nat.
Proof.
  unfold holders. rewrite filter_app, length_app, filter_cons, filter_nil. by destruct (decide _).
Qed.

Lemma holders_delete ls j l i :
  ls !! j = Some l →
  holders ls i = (holders (delete j ls) i + if decide (l.(connection_pool) = i) then 1 else 0)%nat.
Proof.
  intros Hj. rewrite (delete_take_drop ls j). rewrite <- (take_drop_middle _ _ _ Hj) at 1.
  unfold holders. rewrite !filter_app, !length_app, filter_cons.
  destruct (decide _); cbn [length]; lia.
Qed.

Lemma holders_insert ls j l l' i :
  ls !! j = Some l → l'.(connection_pool) = l.(connection_pool) → holders (<[j := l']> ls) i = holders ls i.
Proof.
  intros Hj Hl. pose proof (lookup_lt_Some _ _ _ Hj).
  rewrite (insert_take_drop _ _ _ H). rewrite <- (take_drop_middle _ _ _ Hj) at 3.
  unfold holders. rewrite !filter_app, !length_app, !filter_cons, Hl. by destruct (decide _).
Qed.

Lemma holders_pos ls l : l ∈ ls → (0 < holders ls l.(connection_pool))%nat.
Proof.
  intros (j & Hj)%list_elem_of_lookup_1. rewrite (holders_delete _ _ _ _ Hj).
  rewrite decide_True by done. lia.
Qed.

Lemma accounted_table_step conc m m' ls :
  table_step m m' → m'.(limit_concurrency) = m.(limit_concurrency) → 
  accounted conc (m, ls) → accounted conc (m', ls).
Proof.
  intros [S P T N] Hlim [A1 A2 A3 A4]. cbn [fst snd] in *. split; cbn [fst snd]; [congruence| | |auto].
  - intros i p' Hi. destruct (m.(store) !! i) as [p|] eqn:E.
    + destruct (P _ _ E) as (p'' & Hp'' & Hr). simplify_eq. rewrite Hr. by apply A2.
    + rewrite (N _ _ E Hi). split; [|lia]. destruct (holders ls i) as [|n] eqn:Eh; [done|].
      exfalso. unfold holders in Eh.
      destruct (filter _ ls) as [|l l'] eqn:Ef; [done|].
      assert (Hin : l ∈ filter (λ l, l.(connection_pool) = i) ls) by (rewrite Ef; left).
      apply list_elem_of_filter in Hin as [<- Hin]. destruct (A3 _ Hin) as [_ [p Hp]]. congruence.
  - intros l Hl. destruct (A3 _ Hl) as [Hin [p Hp]]. destruct (P _ _ Hp) as (p' & Hp' & _).
    split; [|by eexists]. apply (T _ p); [done..|]. destruct (A2 _ _ Hp) as [-> _].
    pose proof (holders_pos _ _ Hl). lia.
Qed.

(** The chosen pool has room for the connection. *)
Lemma pick_room e m i p :
  (pick e true m).2 = Ok i → (pick e true m).1.(store) !! i = Some p → 0 < m.(limit_concurrency) →
  running p < m.(limit_concurrency).
Proof.
  intros Hr Hp Hc. destruct (m.(store) !! i) as [q|] eqn:E.
  - destruct (pick_store e true m i q E) as (p' & Hp' & [R _ _ U]). simplify_eq. rewrite R.
    unfold chosen in U. rewrite Hr in U. destruct U as (_ & _ & [H|H]); [by apply bool_decide_eq_true|done|lia|done].
  - rewrite (ts_new _ _ (pick_table e true m) _ _ E Hp). lia.
Qed.

Lemma is_Some_alter f id st i : is_Some (alter f id st !! i) ↔ is_Some (st !! i).
Proof. by rewrite !lookup_lt_is_Some, length_alter. Qed.

Lemma subseteq_delete_list (ls : list Lease) j l : l ∈ delete j ls → l ∈ ls.
Proof.
  rewrite delete_take_drop. intros [H|H]%elem_of_app; [by eapply subseteq_take|by eapply subseteq_drop].
Qed.

Lemma accounted_enter conc m ls id :
  accounted conc (m, ls) → id ∈ m.(pools) → is_Some (m.(store) !! id) →
  (∀ p, m.(store) !! id = Some p → 0 < conc → running p < conc) →
  accounted conc (enter id m, ls ++ [mkLease id id]).
Proof.
  intros [A1 A2 A3 A4] Hin Hst Hroom. cbn [fst snd] in *.
  unfold enter. split; cbn [fst snd with_store store pools limit_concurrency]; [done| | |].
  - intros i p. rewrite holders_snoc, list_lookup_alter. cbn [connection_pool].
    destruct (decide (id = i)) as [->|].
    + intros (q & Hq & ->)%fmap_Some. cbn. destruct (A2 _ _ Hq) as [-> Hle].
      destruct (A2 _ _ Hq) as [Hq' _]. specialize (Hroom _ Hq). lia.
    + intros Hi. destruct (A2 _ _ Hi) as [-> Hle]. split; [lia|]. intros Hc.
      destruct (A2 _ _ Hi) as [Hi' _]. specialize (Hle Hc). lia.
  - intros l [Hl| ->%list_elem_of_singleton]%elem_of_app; rewrite is_Some_alter; [by apply A3|done].
  - unfold stored. cbn. by rewrite length_alter.
Qed.

Lemma accounted_drop conc m ls j l :
  accounted conc (m, ls) → ls !! j = Some l → accounted conc (drop_lease l m, delete j ls).
Proof.
  intros [A1 A2 A3 A4] Hj. cbn [fst snd] in *.
  unfold drop_lease. split; cbn [fst snd with_store store pools limit_concurrency]; [done| | |].
  - intros i p. rewrite list_lookup_alter. pose proof (holders_delete _ _ _ i Hj) as Hh.
    destruct (decide (connection_pool l = i)) as [<-|].
    + intros (q & Hq & ->)%fmap_Some. cbn. destruct (A2 _ _ Hq) as [Hr Hle].
      unfold saturating_sub. rewrite Hr in *. lia.
    + intros Hi. destruct (A2 _ _ Hi) as [Hr Hle]. split; [lia|done].
  - intros l' Hl%subseteq_delete_list. rewrite is_Some_alter. by apply A3.
  - unfold stored. cbn. by rewrite length_alter.
Qed.

Lemma accounted_acquire conc m ls e : accounted conc (m, ls) → accounted conc (exec (m, ls) (Acquire e)).
Proof.
  intros Ha. cbn [exec]. unfold acquire_connection.
  pose proof (accounted_table_step _ _ _ _ (pick_table e true m) (pick_limits e true m) Ha) as Hm1.
  pose proof (pick_chosen e true m) as Hc. pose proof (pick_room e m) as Hroom.
  destruct (pick e true m) as [m1 r]. cbn [fst snd] in *. destruct r as [id| | |]; [|done..].
  destruct (Hc id eq_refl (accounted_stored _ _ Ha)) as [Hin Hst].
  apply accounted_enter; [done..|]. intros p Hp Hpos.
  pose proof (accounted_limit _ _ Ha) as Hlim. cbn in Hlim. rewrite <- Hlim in *. by apply (Hroom id).
Qed.

(** A request through a lease is a step of the table, and the lease keeps its
    connection. *)
Lemma packet_table e l m :
  let '(m', l', _) := http_for_packet e l m in
  table_step m m' ∧ m'.(limit_concurrency) = m.(limit_concurrency) ∧
  l'.(connection_pool) = l.(connection_pool).
Proof.
  unfold http_for_packet. destruct (m.(store) !! l.(request_pool)) as [p|];
    [|split; [apply table_step_refl|done]].
  destruct (_ || _ || _); [|split; [by apply table_step_alter|done]].
  unfold acquire_request. set (m1 := with_store m _).
  assert (H1 : table_step m m1) by (by apply table_step_alter).
  pose proof (pick_table e false m1) as H2. pose proof (pick_limits e false m1) as H3.
  destruct (pick e false m1) as [m2 r]. cbn [fst] in *.
  assert (H : table_step m m2) by (by eapply table_step_trans).
  destruct r as [id| | |]; [|done..]. split; [|done].
  eapply table_step_trans; [done|]. by apply table_step_alter.
Qed.

Lemma accounted_exec conc s c : accounted conc s → accounted conc (exec s c).
Proof.
  destruct s as [m ls]. intros Ha. destruct c as [e|e j|j]; [by apply accounted_acquire|..]; cbn [exec].
  - destruct (ls !! j) as [l|] eqn:E; [|done]. pose proof (packet_table e l m) as Hp.
    destruct (http_for_packet e l m) as [[m' l'] r]. destruct Hp as (Ht & Hlim & Hl).
    destruct (accounted_table_step _ _ _ _ Ht Hlim Ha) as [A1 A2 A3 A4]. cbn [fst snd] in *.
    split; cbn [fst snd]; [done| | |done].
    + intros i p Hi. rewrite (holders_insert _ _ _ _ _ E Hl). by apply A2.
    + intros l0 (k & Hk)%list_elem_of_lookup. destruct (decide (j = k)) as [->|Hne].
      * rewrite list_lookup_insert_eq in Hk by (by eapply lookup_lt_Some). injection Hk as <-.
        rewrite Hl. apply A3. by eapply list_elem_of_lookup_2.
      * rewrite list_lookup_insert_ne in Hk by done. apply A3. by eapply list_elem_of_lookup_2.
  - destruct (ls !! j) as [l|] eqn:E; [|done]. by apply accounted_drop.
Qed.

(** When the calls of the tunnels do not overlap, the counter of every pool
    is the number of leases on it, at most the sampled [max_concurrency] (when
    there is one), and a pool that a lease holds is in the table. *)
Theorem leases_accounted draw_conc draw_conn c (b : result HttpClient) m cs :
  new draw_conc draw_conn c b = Ok m →
  let '(m', ls) := fold_left exec cs (m, []) in
  (∀ i p, m'.(store) !! i = Some p →
    running p = Z.of_nat (holders ls i) ∧
    (0 < m.(limit_concurrency) → running p ≤ m.(limit_concurrency))) ∧
  ∀ l, l ∈ ls → l.(connection_pool) ∈ m'.(pools).
Proof.
  intros Hm. assert (H0 : accounted m.(limit_concurrency) (m, [])).
  { unfold new in Hm. apply bind_Ok in Hm as (first & _ & Hm).
    apply bind_Ok in Hm as (conc & _ & Hm). apply bind_Ok in Hm as (conn & _ & [= <-]).
    split; [done|done|by intros l ?%not_elem_of_nil|by apply Forall_nil]. }
  assert (H : accounted m.(limit_concurrency) (fold_left exec cs (m, []))).
  { revert H0. generalize (m, @nil Lease). induction cs as [|c0 cs IH]; intros s Hs; [done|].
    cbn. by apply IH, accounted_exec. }
  destruct (fold_left exec cs (m, [])) as [m' ls]. destruct H as [_ A2 A3 _]. cbn in *.
  split; [done|]. intros l Hl. by apply A3.
Qed.

End facts.

(** ** Witnesses *)

Definition low (lo hi : Z) : Z := lo.
Definition sample_env : Env unit := mkEnv 0 low low low (λ _, 0%nat) (Ok tt).
Definition one : RangeConfig := mkRange 1 1.
Definition none : RangeConfig := mkRange 0 0.
Definition by_connections : XmuxConfig := mkXmuxConfig none (mkRange 2 2) (mkRange 3 3) none none 0.
Definition by_concurrency : XmuxConfig := mkXmuxConfig one none none none none 0.

Definition manager (c : XmuxConfig) : Manager unit :=
  mkManager c (from c.(max_concurrency)) (from c.(max_connections)) (Some tt) [] [].

Lemma connections_capped_witness :
  live_pools (steps (manager by_connections) (replicate 5 (Pick sample_env true))).1 ≤ 2.
Proof. by apply (connections_capped low low by_connections (Ok tt) (manager by_connections)). Defined.

Lemma reuse_budget_respected_witness :
  Z.of_nat (length (filter (.= 0%nat) (steps
    (mkManager by_connections 0 2 None [mkPool tt 0 (Some 3) None None false] [0%nat])
    (replicate 9 (Pick sample_env true))).2)) ≤ 3.
Proof. by apply (reuse_budget_respected _ _ 0 (mkPool tt 0 (Some 3) None None false) 3). Defined.

Lemma leases_accounted_witness :
  let '(m', ls) := fold_left exec [Acquire sample_env; Acquire sample_env] (manager by_concurrency, []) in
  (∀ i p, m'.(store) !! i = Some p →
    running p = Z.of_nat (holders ls i) ∧ (0 < 1 → running p ≤ 1)) ∧
  ∀ l, l ∈ ls → l.(connection_pool) ∈ m'.(pools).
Proof.
  by apply (leases_accounted low low by_concurrency (Ok tt) (manager by_concurrency)
    [Acquire sample_env; Acquire sample_env]).
Defined.

(** The limit on concurrency is not kept when calls overlap: two tunnels choose
    the same idle pool before either has entered it. *)
Example concurrency_limit_race :
  running <$> (steps (manager by_concurrency)
    [Pick sample_env true; Pick sample_env true; Enter 0; Enter 0]).1.(store) = [2].
Proof. reflexivity. Qed.

Example concurrency_limit_sequential :
  running <$> (fold_left exec [Acquire sample_env; Acquire sample_env] (manager by_concurrency, [])).1.(store)
  = [1; 1].
Proof. reflexivity. Qed.
