(* ===== verification/XhttpClient.v ===== *)
(** * The client of an XHTTP outbound (src/src/client.rs)

    [Client::new]: the checks of the TLS options, the settings of the HTTP client with the
    certificates, keys and ECH configuration it loads, the manager of connections and the
    common part of all requests.  The theorems say which servers such a client talks to,
    how its TLS options compare with those of an AnyTLS client for the same section of the
    configuration, and when a client can be created. *)

From S2P Require Import Xmux Prelude RustStr Net Util Vless Http Protocol Config Tls Outbound Tun Validate.

(** ** Data *)

Inductive HttpVersion := Http3PriorKnowledge | Http2PriorKnowledge | Negotiated.

(** What the builder of a [reqwest::Client] is told (durations in seconds). *)
Record HttpSettings `{TlsLib} := mkSettings {
  hs_connect_timeout : Z;
  hs_pool_idle_timeout : Z;
  hs_tcp_keepalive : option Z;
  hs_resolve : option (str * SocketAddr);
  hs_version : HttpVersion;
  hs_tls : ClientTls;
}.
Arguments mkSettings {_} _ _ _ _ _ _.

(** [ClientBuilder::build] and [Url::host_str]. *)
Class ReqwestLib `{TlsLib} `{HttpLib} := {
  HttpClient : Type;
  http_build : HttpSettings → option HttpClient;
  host_str : Url → option str;
}.

Section client.
Context `{T : TlsLib} `{H : HttpLib} `{R : !ReqwestLib}.
Context (native : list Cert * bool) (read_file : str → option bytes).

Record Client := mkClient {
  client_config : ClientConfig;
  client_xmux : Manager HttpClient;
  request_base : Url * HeaderMap;
}.

(** ** Operations *)

(** PEM text, or the file it is in, but not both. *)
Definition pem_or_file (pem path : option str) (read_error both : string) : result (option bytes) :=
  match pem, path with
  | Some pem, None => Ok (Some pem)
  | None, Some path => b ← context (read_file path) read_error; Ok (Some b)
  | None, None => Ok None
  | Some _, Some _ => Err both
  end.

Definition load_ech_pem (tls : ClientTlsConfig) : result (option bytes) :=
  match tls.(ct_ech_config), tls.(ct_ech_config_path), tls.(ct_ech_config_bytes) with
  | Some pem, None, None => Ok (Some pem)
  | None, Some path, None => b ← context (read_file path) "read ECH config"; Ok (Some b)
  | None, None, Some bytes => Ok (Some bytes)
  | None, None, None => Ok None
  | _, _, _ => Err "ECH config, config_path and discovered config are mutually exclusive"
  end.

Definition http_alpn (tls : ClientTlsConfig) : list bytes :=
  if tls.(ct_http3) then [lit "h3"] else if tls.(ct_http2_only) then [lit "h2"] else [lit "h2"; lit "http/1.1"].

(** The TLS part of [build_http_client] *)
Definition http_tls (tls : ClientTlsConfig) : result ClientTls :=
  ca_pem ← pem_or_file tls.(ct_ca_pem) tls.(ct_ca_certificate) "read CA certificate"
             "CA PEM and CA certificate path are mutually exclusive";
  certificate ← pem_or_file tls.(ct_client_certificate) tls.(ct_client_certificate_path) "read TLS client certificate"
             "client certificate and client_certificate_path are mutually exclusive";
  key ← pem_or_file tls.(ct_client_key) tls.(ct_client_key_path) "read TLS client key"
             "client key and client_key_path are mutually exclusive";
  ech ← load_ech_pem tls;
  pins ← decode_public_key_pins tls.(ct_certificate_public_key_sha256);
  min ← version_of tls.(ct_min_version);
  max ← version_of tls.(ct_max_version);
  build_client_config native (mkClientOptions tls.(ct_insecure) true ca_pem (http_alpn tls) ech pins certificate key
    tls.(ct_disable_sni) min max).

Definition http_version (c : ClientConfig) : HttpVersion :=
  if c.(cc_tls).(ct_http3) then Http3PriorKnowledge
  else if c.(cc_tls).(ct_http2_only) || (bool_decide (c.(cc_transport).(mode) = StreamOne) && starts_with (lit "http://") c.(cc_server))
  then Http2PriorKnowledge else Negotiated.

(** The address that is used in the place of the URL's host. *)
Definition http_resolve (c : ClientConfig) : result (option (str * SocketAddr)) :=
  match c.(cc_connect_addr) with
  | Some address =>
    url ← context (url_parse c.(cc_server)) "invalid server URL";
    host ← context (host_str url) "server URL has no host";
    Ok (Some (host, address))
  | None => Ok None
  end.

Definition build_http_client (c : ClientConfig) : result HttpClient :=
  let period := c.(cc_transport).(xmux).(h_keep_alive_period) in
  resolve ← http_resolve c;
  tls ← http_tls c.(cc_tls);
  context (http_build (mkSettings 10 300 (if period >? 0 then Some period else None) resolve (http_version c) tls))
    "build XHTTP HTTP client".

Definition ech_sources (tls : ClientTlsConfig) : nat :=
  (if is_some tls.(ct_ech_config) then 1 else 0) + (if is_some tls.(ct_ech_config_path) then 1 else 0)
  + (if is_some tls.(ct_ech_config_bytes) then 1 else 0).

(** [Client::new]; [draw] and [draw'] are the random numbers of the manager's limits. *)
Definition client_new (draw draw' : Z → Z → Z) (config : ClientConfig) : result Client :=
  transport ← validate config.(cc_transport);
  let config := mkClientConfig config.(cc_listen) config.(cc_server) config.(cc_connect_addr) transport config.(cc_tls) in
  let n := ech_sources config.(cc_tls) in
  if (1 <? n)%nat then Err "ECH config, config_path and discovered config are mutually exclusive" else
  if negb (n =? 0)%nat && negb (starts_with (lit "https://") config.(cc_server)) then Err "ECH requires HTTPS" else
  if negb (n =? 0)%nat && config.(cc_tls).(ct_insecure)
  then Err "ECH cannot be combined with insecure certificate verification" else
  manager ← Xmux.new draw draw' transport.(xmux) (build_http_client config);
  base ← build_request_base config.(cc_server) config.(cc_transport);
  Ok (mkClient config manager base).

End client.

(** ** TLS *)

Section trust.
Context `{T : TlsLib} (native : list Cert * bool) (read_file : str → option bytes).

Lemma pem_or_file_joined inline path m e e' :
  pem_or_file read_file (joined inline) path e e' = Ok m ↔ load_optional_material read_file inline path = Ok m.
Proof.
  unfold load_optional_material. destruct inline as [|l ls]; destruct path as [p|]; cbn [joined pem_or_file]; [|done..].
  by destruct (read_file p).
Qed.

Lemma load_ech_static tls name m :
  load_ech_pem read_file (client_tls tls name) = Ok m ↔ load_static_ech read_file tls = Ok m.
Proof.
  unfold load_ech_pem, load_static_ech, client_tls. cbn [ct_ech_config ct_ech_config_path ct_ech_config_bytes].
  destruct (enabled_ech tls) as [ech|]; cbn [mbind option_bind]; [|done].
  rewrite <-(pem_or_file_joined _ _ _ "read ECH config" "ECH config, config_path and discovered config are mutually exclusive").
  unfold pem_or_file. by destruct (joined _), (ech_config_path ech).
Qed.

(** The options that [http_tls] ends up with, against those of [build_client_tls]. *)
Lemma http_tls_options tls name c : http_tls native read_file (client_tls tls name) = Ok c ↔
  ∃ ca certificate key ech pins min max,
    load_optional_material read_file tls.(tls_certificate) tls.(tls_certificate_path) = Ok ca ∧
    load_optional_material read_file tls.(tls_client_certificate) tls.(tls_client_certificate_path) = Ok certificate ∧
    load_optional_material read_file tls.(tls_client_key) tls.(tls_client_key_path) = Ok key ∧
    load_static_ech read_file tls = Ok ech ∧
    decode_public_key_pins tls.(tls_certificate_public_key_sha256) = Ok pins ∧
    version_of tls.(tls_min_version) = Ok min ∧ version_of tls.(tls_max_version) = Ok max ∧
    build_client_config native (mkClientOptions tls.(tls_insecure) true ca (http_alpn (client_tls tls name)) ech pins certificate key
      tls.(tls_disable_sni) min max) = Ok c.
Proof.
  unfold http_tls. split.
  - intros Hc. apply bind_Ok in Hc as (ca & Hca & Hc). apply bind_Ok in Hc as (cc & Hcc & Hc). apply bind_Ok in Hc as (ck & Hck & Hc).
    apply bind_Ok in Hc as (ech & He & Hc). apply bind_Ok in Hc as (pins & Hp & Hc). apply bind_Ok in Hc as (mi & Hmi & Hc).
    apply bind_Ok in Hc as (ma & Hma & Hc). cbn [client_tls] in *. exists ca, cc, ck, ech, pins, mi, ma.
    apply pem_or_file_joined in Hca, Hcc, Hck. apply load_ech_static in He. done.
  - intros (ca & cc & ck & ech & pins & mi & ma & Hca & Hcc & Hck & He & Hp & Hmi & Hma & Hc).
    rewrite (proj2 (pem_or_file_joined _ _ _ _ _) Hca). cbn [mbind result_bind].
    rewrite (proj2 (pem_or_file_joined _ _ _ _ _) Hcc). cbn [mbind result_bind].
    rewrite (proj2 (pem_or_file_joined _ _ _ _ _) Hck). cbn [mbind result_bind].
    rewrite (proj2 (load_ech_static _ _ _) He). cbn [mbind result_bind client_tls ct_certificate_public_key_sha256 ct_min_version ct_max_version].
    rewrite Hp. cbn [mbind result_bind]. rewrite Hmi. cbn [mbind result_bind]. rewrite Hma. cbn [mbind result_bind]. exact Hc.
Qed.

(** The client of a VLESS outbound accepts the certificate of a server only when its key is
    pinned or when it chains to the system's roots or to the configured CA, unless the
    configuration says [insecure] and has no pins. *)
Theorem xhttp_certificate_checked (chain_ok : list Cert → bytes → bool) tls name c certificate :
  http_tls native read_file (client_tls tls name) = Ok c → server_accepted chain_ok c certificate = true →
  (tls.(tls_insecure) = true ∧ tls.(tls_certificate_public_key_sha256) = []) ∨
  pinned_by tls.(tls_certificate_public_key_sha256) certificate ∨
  ∃ roots, chain_ok roots certificate = true ∧ Forall (λ r, r ∈ native.1 ∨ configured_root read_file native tls r) roots.
Proof.
  intros Hc Hacc. apply http_tls_options in Hc as (ca & cc & ck & ech & pins & mi & ma & Hca & _ & _ & _ & Hp & _ & _ & Hc).
  destruct (client_config_checked _ _ _ _ _ Hc Hacc) as [[Hi Ep]|[(key & Hk & Hin)|(roots & Hch & Hroots)]];
    cbn [insecure certificate_public_key_sha256 include_native_roots ca_pem] in *.
  - left. subst pins. by apply decode_pins_nil in Hp.
  - right; left. by eapply decoded_pinned.
  - right; right. exists roots. split; [done|]. eapply Forall_impl; [exact Hroots|]. intros r [[_ Hr]|(pem & -> & Hr)]; [by left|].
    right. unfold configured_root. by rewrite Hca.
Qed.

(** The system's certificates can be used as roots. *)
Definition native_ok : Prop := add_roots [] (Some <$> native.1) = Ok native.1 ∧ (native.2 = true → native.1 ≠ []).

Lemma add_roots_after base certificates : ∀ roots roots', add_roots roots certificates = Ok roots' →
  add_roots (base ++ roots) certificates = Ok (base ++ roots').
Proof.
  induction certificates as [|c cs IH]; intros roots roots' Hr; cbn [add_roots] in *.
  { apply Ok_inj in Hr. by subst. }
  apply bind_Ok in Hr as (mid & Hm & Hr). unfold add_root in *. destruct c as [c|]; [|done]. cbn [context mbind result_bind] in *.
  destruct (root_ok c); [|done]. apply Ok_inj in Hm. subst mid. cbn [mbind result_bind]. rewrite <-app_assoc. by apply IH.
Qed.

Lemma client_roots_native ins ca alpn alpn' ech pins cc ck sni mi ma roots : native_ok →
  client_roots native (mkClientOptions ins (negb (is_some ca)) ca alpn ech pins cc ck sni mi ma) = Ok roots →
  client_roots native (mkClientOptions ins true ca alpn' ech pins cc ck sni mi ma) = Ok (if is_some ca then native.1 ++ roots else roots).
Proof.
  intros [Hn He]. unfold client_roots. cbn [include_native_roots insecure certificate_public_key_sha256 ca_pem].
  destruct ca as [pem|]; cbn [is_some negb]; [|done]. rewrite Hn. cbn [mbind result_bind]. intros Hr.
  assert (negb ins && bool_decide (pins = []) && native.2 && bool_decide (length native.1 = 0%nat) = false) as ->.
  - destruct native.2; [|by rewrite andb_false_r]. rewrite (bool_decide_false (_ = 0%nat)); [by rewrite andb_false_r|].
    intros El. apply He; [done|]. by apply length_zero_iff_nil.
  - cbn [mbind result_bind]. unfold add_ca_pem in *. apply bind_Ok in Hr as (rs & Hrs & Hr). apply (add_roots_after native.1) in Hrs. rewrite app_nil_r in Hrs.
    rewrite Hrs. cbn [mbind result_bind]. destruct (pem_certs pem); [done|]. apply Ok_inj in Hr. by subst.
Qed.

(** For the same section of a configuration the clients of VLESS and AnyTLS outbounds agree
    on protocol versions, ECH, the client's certificate, SNI and pins, and without a
    configured CA on the roots; but a configured CA replaces the system's roots for AnyTLS,
    and is added to them for VLESS. *)
Theorem tls_clients_agree tls name ech ct :
  native_ok → load_static_ech read_file tls = Ok ech → build_client_tls native read_file tls ech = Ok ct →
  ∃ ct', http_tls native read_file (client_tls tls name) = Ok ct' ∧
    ct'.(c_ech) = ct.(c_ech) ∧ ct'.(c_versions) = ct.(c_versions) ∧ ct'.(c_auth) = ct.(c_auth) ∧ ct'.(c_enable_sni) = ct.(c_enable_sni) ∧
    ct'.(c_verifier) = match ct.(c_verifier) with
                       | RootsVerifier roots => RootsVerifier
                           (if is_nil tls.(tls_certificate) && is_none tls.(tls_certificate_path) then roots else native.1 ++ roots)
                       | direct => direct
                       end.
Proof.
  intros Hn He Hb. unfold build_client_tls in Hb. apply bind_Ok in Hb as (ca & Hca & Hb). apply bind_Ok in Hb as (cc & Hcc & Hb).
  apply bind_Ok in Hb as (ck & Hck & Hb). apply bind_Ok in Hb as (pins & Hp & Hb). apply bind_Ok in Hb as (mi & Hmi & Hb).
  apply bind_Ok in Hb as (ma & Hma & Hb).
  unfold build_client_config in Hb. cbn [certificate_public_key_sha256 ca_pem client_certificate client_key insecure] in Hb.
  destruct (_ && is_some ca) eqn:E1; [done|]. destruct (negb (eqb _ _)) eqn:E2; [done|].
  apply bind_Ok in Hb as (roots & Hr & Hb). apply bind_Ok in Hb as ([e vs] & Hv & Hb). apply bind_Ok in Hb as (auth & Ha & Hb).
  apply Ok_inj in Hb. subst ct.
  assert (Hca' : is_nil tls.(tls_certificate) && is_none tls.(tls_certificate_path) = negb (is_some ca)).
  { unfold load_optional_material in Hca. destruct tls.(tls_certificate), tls.(tls_certificate_path) as [p|]; try done;
      [destruct (read_file p); [|done]|..]; apply Ok_inj in Hca; by subst. }
  eexists. split.
  - apply http_tls_options. exists ca, cc, ck, ech, pins, mi, ma. split_and!; try done.
    unfold build_client_config. cbn [certificate_public_key_sha256 ca_pem client_certificate client_key insecure].
    rewrite E1, E2, (client_roots_native _ _ _ _ _ _ _ _ _ _ _ _ Hn Hr). cbn [mbind result_bind].
    change (client_versions _) with (client_versions (mkClientOptions tls.(tls_insecure) (negb (is_some ca)) ca tls.(tls_alpn) ech pins cc ck tls.(tls_disable_sni) mi ma)).
    rewrite Hv. cbn [mbind result_bind].
    change (client_auth _) with (client_auth (mkClientOptions tls.(tls_insecure) (negb (is_some ca)) ca tls.(tls_alpn) ech pins cc ck tls.(tls_disable_sni) mi ma)).
    rewrite Ha. cbn [mbind result_bind]. reflexivity.
  - cbn [c_ech c_versions c_auth c_enable_sni c_verifier disable_sni]. split_and!; try done. rewrite Hca'.
    destruct (_ || _); [done|]. by destruct ca.
Qed.

End trust.

(** ** Creation *)

Lemma built_valid `{HttpLib} x c : Config.build x = Ok c → validate c = Ok c.
Proof.
  unfold Config.build. destruct (negb _); [done|]. intros Hb. repeat (apply bind_Ok in Hb as ([? ?] & _ & Hb)).
  apply bind_Ok in Hb as (? & _ & Hb). repeat (apply bind_Ok in Hb as ([? ?] & _ & Hb)). by apply validate_stable in Hb as [? _].
Qed.

Lemma validate_parts `{HttpLib} c c' : validate c = Ok c' →
  validate_headers c.(headers) = Ok tt ∧
  (∀ h, c.(host) = Some h → is_Some (header_value h)) ∧
  (∀ t, c.(token) = Some t → is_Some (header_value (lit "Bearer " ++ t))) ∧
  XmuxConfig_validate c.(xmux) = Ok tt.
Proof.
  unfold validate. destruct (normalize_path _ _) as [p q]. intros Hv. do 8 apply bind_Ok in Hv as ([] & _ & Hv).
  apply bind_Ok in Hv as ([] & Hh & Hv). apply bind_Ok in Hv as ([] & Hhost & Hv). apply bind_Ok in Hv as ([] & Ht & Hv).
  apply bind_Ok in Hv as ([] & Hx & Hv). split_and!; [done| | |done].
  - intros h E. rewrite E in Hhost. apply bind_Ok in Hhost as (v & Hc & _). apply context_Ok in Hc. by exists v.
  - intros t E. rewrite E in Ht. apply bind_Ok in Ht as (v & Hc & _). apply context_Ok in Hc. by exists v.
Qed.

Lemma add_validated_headers `{HttpLib} hs : ∀ h, validate_headers hs = Ok tt → ∃ h', add_headers hs h = Ok h'.
Proof.
  unfold validate_headers. induction hs as [|[name value] hs IH]; intros h Hv; cbn [add_headers]; [by eexists|].
  apply iter_result_Ok in Hv. apply Forall_cons in Hv as [Hv Hvs].
  apply bind_Ok in Hv as ([] & _ & Hv). apply bind_Ok in Hv as (n & Hn & Hv). apply bind_Ok in Hv as (v & Hval & _).
  apply context_Ok in Hn, Hval. rewrite Hn, Hval. cbn [context mbind result_bind]. apply IH. by apply iter_result_Ok.
Qed.

Lemma request_base_built `{HL : HttpLaws} server c u : validate c = Ok c → url_parse server = Some u →
  ∃ base, build_request_base server c = Ok base.
Proof.
  intros Hv Hu. apply validate_parts in Hv as (Hh & Hhost & Ht & _). unfold build_request_base, add_common_headers.
  rewrite Hu. cbn [context mbind result_bind]. destruct (add_validated_headers c.(headers) headers_new Hh) as [h ->]. cbn [mbind result_bind].
  assert (Hcommon : ∃ h', match c.(token) with
      | Some t => v ← context (header_value (lit "Bearer " ++ t)) "invalid header value"; Ok (headers_insert h AUTHORIZATION v)
      | None => Ok h end = Ok h').
  { destruct c.(token) as [t|]; [|by eexists]. destruct (Ht t eq_refl) as [v ->]. by eexists. }
  destruct Hcommon as [h' ->]. cbn [mbind result_bind]. destruct c.(host) as [hv|]; [|by eexists].
  destruct (Hhost hv eq_refl) as [v ->]. destruct (header_name_token (lit "host")) as [n ->]; [|by eexists].
  apply (bool_decide_unpack _). vm_compute. exact I.
Qed.

Lemma sample_validated pick r : RangeConfig_validate r = Ok tt → ∃ n, sample pick r = Ok n.
Proof.
  unfold RangeConfig_validate, sample. destruct (r.(to) =? 0); [by eexists|]. destruct (r.(from) >? r.(to)) eqn:E; [done|].
  intros _. rewrite (proj2 (Z.leb_le _ _)) by lia. by eexists.
Qed.

Lemma manager_created {C} draw draw' x (client : C) : XmuxConfig_validate x = Ok tt →
  ∃ m, Xmux.new draw draw' x (Ok client) = Ok m.
Proof.
  unfold XmuxConfig_validate. destruct (_ && _); [done|]. intros Hv. apply iter_result_Ok in Hv. rewrite !Forall_cons in Hv.
  destruct Hv as (H1 & H2 & _). unfold Xmux.new. cbn [mbind result_bind]. destruct (sample_validated draw _ H1) as [n ->].
  cbn [mbind result_bind]. destruct (sample_validated draw' _ H2) as [n' ->]. by eexists.
Qed.

Section created.
Context `{T : TlsLib} `{H : HttpLib} `{HL : !HttpLaws H} `{R : !ReqwestLib}.
Context (host : Host) (to_socket_addrs : str → Z → result (list SocketAddr)) (draw draw' : Z → Z → Z).

Abbreviation tls_of o := (default default_tls o.(out_tls)).

(** An ECH configuration that is written in the configuration or in a file. *)
Definition static_ech (tls : TlsConfig) : bool :=
  match enabled_ech tls with Some ech => negb (no_material ech.(ech_config) ech.(ech_config_path)) | None => false end.

(** What the validation of a VLESS outbound leaves to the creation of its client: static
    ECH only with TLS that verifies certificates, TLS material that loads, and a URL. *)
Record vless_ready (has_dns : bool) (o : OutboundConfig) : Prop := mkReady {
  ready_ech : static_ech (tls_of o) = true → (tls_of o).(tls_enabled) = true ∧ (tls_of o).(tls_insecure) = false;
  ready_tls : ∃ ech ct, load_static_ech host.(h_read) (tls_of o) = Ok ech ∧
    build_client_tls host.(h_native) host.(h_read) (tls_of o) ech = Ok ct;
  ready_url : ∀ config, vless_client_config to_socket_addrs has_dns o = Ok config →
    ∃ url name, url_parse config.(cc_server) = Some url ∧ host_str url = Some name;
}.

(** The HTTP library builds a client from any settings. *)
Definition http_works : Prop := ∀ settings, ∃ client, http_build settings = Some client.

Lemma vless_client_config_spec has_dns o config : vless_client_config to_socket_addrs has_dns o = Ok config →
  ∃ name, validate config.(cc_transport) = Ok config.(cc_transport) ∧ config.(cc_tls) = client_tls (tls_of o) name ∧
    ((tls_of o).(tls_enabled) = true → starts_with (lit "https://") config.(cc_server) = true).
Proof.
  unfold vless_client_config. intros Hc. apply bind_Ok in Hc as (x & _ & Hc). apply bind_Ok in Hc as (transport & Ht & Hc).
  apply built_valid in Ht. apply bind_Ok in Hc as (server & _ & Hc). destruct (_ && _); [done|]. apply bind_Ok in Hc as (a & _ & Hc).
  apply Ok_inj in Hc. subst config. cbn [cc_transport cc_tls cc_server]. eexists. split; [done|]. split; [done|].
  intros ->. apply starts_with_true. by eexists.
Qed.

Lemma ech_sources_static tls name : (ech_sources (client_tls tls name) ≠ 0)%nat → static_ech tls = true.
Proof.
  unfold ech_sources, client_tls, static_ech. cbn [ct_ech_config ct_ech_config_path ct_ech_config_bytes].
  destruct (enabled_ech tls) as [ech|]; cbn [mbind option_bind]; [|done]. unfold no_material.
  by destruct ech.(ech_config), ech.(ech_config_path).
Qed.

Lemma ech_sources_loaded tls name m : load_ech_pem host.(h_read) (client_tls tls name) = Ok m →
  (ech_sources (client_tls tls name) ≤ 1)%nat.
Proof.
  unfold load_ech_pem, ech_sources.
  destruct (ct_ech_config _), (ct_ech_config_path _), (ct_ech_config_bytes _); try done; cbn; lia.
Qed.

(** The client of a VLESS outbound can be created. *)
Lemma client_created has_dns o : http_works → native_ok host.(h_native) → vless_ready has_dns o →
  client_works (client_new host.(h_native) host.(h_read) draw draw') to_socket_addrs has_dns o.
Proof.
  intros Hw Hn [He (ech & ct & Hech & Hct) Hurl] _ config Hc. destruct (Hurl config Hc) as (url & hname & Hu & Hh).
  destruct (vless_client_config_spec _ _ _ Hc) as (name & Hv & Htls & Hs).
  destruct (tls_clients_agree _ _ _ name _ _ Hn Hech Hct) as (ct' & Hct' & _).
  apply load_ech_static with (name := name) in Hech. assert (Hle := ech_sources_loaded _ _ _ Hech).
  assert (Hsrc := ech_sources_static (tls_of o) name). unfold client_new. rewrite Hv. cbn [mbind result_bind cc_listen cc_server cc_connect_addr cc_transport cc_tls].
  rewrite Htls. set (n := ech_sources _) in *. rewrite (proj2 (Nat.ltb_ge 1 n) Hle).
  assert (negb (n =? 0)%nat && negb (starts_with (lit "https://") config.(cc_server)) = false) as ->.
  { destruct (Nat.eqb_spec n 0) as [|E]; [done|]. destruct (He (Hsrc E)) as [E1 _]. by rewrite (Hs E1). }
  assert (negb (n =? 0)%nat && (client_tls (tls_of o) name).(ct_insecure) = false) as ->.
  { destruct (Nat.eqb_spec n 0) as [|E]; [done|]. by destruct (He (Hsrc E)) as [_ E2]. }
  assert (Hres : ∃ r, http_resolve (mkClientConfig config.(cc_listen) config.(cc_server) config.(cc_connect_addr) config.(cc_transport) (client_tls (tls_of o) name)) = Ok r).
  { unfold http_resolve. cbn [cc_connect_addr cc_server]. destruct config.(cc_connect_addr); [|by eexists]. rewrite Hu.
    cbn [context mbind result_bind]. rewrite Hh. by eexists. }
  destruct Hres as [r Hr]. unfold build_http_client. rewrite Hr. cbn [mbind result_bind cc_tls]. rewrite Hct'. cbn [mbind result_bind].
  match goal with |- context [http_build ?s] => destruct (Hw s) as [client ->] end. cbn [context].
  destruct (validate_parts _ _ Hv) as (_ & _ & _ & Hx). destruct (manager_created draw draw' _ client Hx) as [m ->]. cbn [mbind result_bind].
  destruct (request_base_built _ _ _ Hv Hu) as [base ->]. by eexists.
Qed.

End created.
