(* ===== verification/Clash.v ===== *)
(** * The Clash API (src/src/clash.rs)

    The handlers of the API as functions on the part of the runtime they read and change:
    the groups (shared with the data plane), the mode and the final outbound.  [serde_json]
    is the parameter [json_parse]; the routing of paths to handlers is the crate [axum]'s.
    Then the extraction of the dashboard's archive. *)

From S2P Require Import Prelude RustStr Util Http Protocol Outbound.

(** ** Values *)

(** [serde_json::Value]; an object has each key once. *)
Inductive json :=
  | JNull
  | JBool (b : bool)
  | JNum (n : Z)
  | JStr (s : str)
  | JArr (items : list json)
  | JObj (fields : list (str * json)).

(** [value.get(key)] *)
Definition json_get (key : str) (v : json) : option json :=
  match v with
  | JObj fields => find_map (λ '(k, v), if str_eqb k key then Some v else None) fields
  | _ => None
  end.

Definition as_str (v : json) : option str := match v with JStr s => Some s | _ => None end.

(** [map.insert(key, value)] *)
Fixpoint json_insert (key : str) (v : json) (fields : list (str * json)) : list (str * json) :=
  match fields with
  | [] => [(key, v)]
  | (k, w) :: fields => if str_eqb k key then (key, v) :: fields else (k, w) :: json_insert key v fields
  end.

(** ** The API *)

(** The runtime as the API sees it. *)
Record Api {A X : Type} := mkApi {
  runtime : Runtime (AnyTlsClient := A) (XhttpClient := X);
  clash_mode : option str;
  final_outbound : str;
}.
Arguments Api : clear implicits.
Arguments mkApi {A X}.

Inductive Call :=
  | Version
  | GetConfigs
  | PatchConfigs (body : bytes)
  | GetProxies
  | GetProxy (name : str)
  | UpdateProxy (name : str) (body : bytes)
  | ProxyDelay (name : str).

Record Response := mkResponse { status : Z; content : option json }.

Definition OK : Z := 200.
Definition NO_CONTENT : Z := 204.
Definition BAD_REQUEST : Z := 400.
Definition UNAUTHORIZED : Z := 401.
Definition NOT_FOUND : Z := 404.
Definition SERVICE_UNAVAILABLE : Z := 503.

Definition bare (status : Z) : Response := mkResponse status None.
Definition json_response (v : json) : Response := mkResponse OK (Some v).

Definition modes : list str := [lit "rule"; lit "global"; lit "direct"].

Section api.
Context `{HL : HttpLib} {A X : Type}.
Context (json_parse : bytes → option json).  (* serde_json::from_slice *)
(** What a probe measures within ten seconds. *)
Context (probe_delay : Dialer (AnyTlsClient := A) (XhttpClient := X) → option Z).
(** The iteration orders of the two hash maps. *)
Context (group_keys dialer_keys : list str).
Context (pkg_version : str).

Abbreviation Api := (Api A X).

(** [config.secret.filter(|value| !value.is_empty())] *)
Definition api_secret (secret : option str) : option str :=
  s ← secret; match s with [] => None | _ => Some s end.

Definition authenticated (h : HeaderMap) (secret : option str) : bool :=
  match secret with
  | None => true
  | Some secret =>
    match v ← head (get_all h AUTHORIZATION); to_str v with
    | Some value => str_eqb value (lit "Bearer " ++ secret)
    | None => false
    end
  end.

(** [to_bytes(body, 64 KiB)] and [from_slice] *)
Definition body_json (body : bytes) : option json :=
  if Z.of_nat (length body) >? 1024 * 64 then None else json_parse body.

Definition version (secret : option str) : Response :=
  if negb (authenticated headers_new secret) then bare UNAUTHORIZED
  else json_response (JObj [(lit "version", JStr pkg_version); (lit "premium", JBool false);
                            (lit "meta", JBool true)]).

Definition get_configs (secret : option str) (s : Api) : Response :=
  if negb (authenticated headers_new secret) then bare UNAUTHORIZED
  else json_response (JObj
    [(lit "mode", JStr (default (lit "rule") s.(clash_mode)));
     (lit "mode-list", JArr (JStr <$> modes));
     (lit "port", JNum 0); (lit "socks-port", JNum 0); (lit "mixed-port", JNum 0);
     (lit "allow-lan", JBool false); (lit "bind-address", JStr (lit "*"));
     (lit "log-level", JStr (lit "info")); (lit "ipv6", JBool false)]).

Definition patch_configs (secret : option str) (h : HeaderMap) (s : Api) (body : bytes) : Api * Response :=
  if negb (authenticated h secret) then (s, bare UNAUTHORIZED) else
  match body_json body with
  | None => (s, bare BAD_REQUEST)
  | Some patch =>
    let s := match v ← json_get (lit "mode") patch; as_str v with
             | Some mode =>
               if existsb (str_eqb mode) modes then mkApi s.(runtime) (Some mode) s.(final_outbound) else s
             | None => s
             end in
    (s, bare NO_CONTENT)
  end.

Definition group_of (rt : Runtime (AnyTlsClient := A) (XhttpClient := X)) (tag : str) : option Group :=
  id ← rt.(groups) !! tag; rt.(store) !! id.

Definition kind_name (k : GroupKind) : str :=
  match k with Selector => lit "Selector" | UrlTest => lit "URLTest" end.

Definition clash_type (d : Dialer (AnyTlsClient := A) (XhttpClient := X)) : str :=
  match d with
  | Direct => lit "Direct"
  | Block => lit "Reject"
  | AnyTls _ => lit "AnyTLS"
  | VlessDialer _ _ _ => lit "VLESS"
  | GroupDialer _ => lit "Group"
  end.

Definition proxy_entry (rt : Runtime (AnyTlsClient := A) (XhttpClient := X)) (tag : str) : json :=
  match group_of rt tag with
  | Some g =>
    JObj [(lit "type", JStr (kind_name g.(g_kind))); (lit "name", JStr tag); (lit "udp", JBool true);
          (lit "now", JStr g.(selected)); (lit "all", JArr (JStr <$> g.(members)))]
  | None =>
    let type := match dialer_for rt tag with None => lit "Direct" | Some d => clash_type d end in
    JObj [(lit "type", JStr type); (lit "name", JStr tag); (lit "udp", JBool true); (lit "history", JArr [])]
  end.

Definition tags (s : Api) : list str := outbound_tags group_keys dialer_keys s.(runtime).

Definition get_proxies (secret : option str) (h : HeaderMap) (s : Api) : Response :=
  if negb (authenticated h secret) then bare UNAUTHORIZED else
  let global := JObj
    [(lit "type", JStr (lit "Selector")); (lit "name", JStr (lit "GLOBAL")); (lit "udp", JBool true);
     (lit "now", JStr (default (lit "direct") (head (tags s)))); (lit "all", JArr (JStr <$> tags s))] in
  let insert fields tag :=
    let entry := proxy_entry s.(runtime) tag in
    match v ← json_get (lit "name") entry; as_str v with
    | Some name => json_insert name entry fields
    | None => fields
    end in
  json_response (JObj [(lit "proxies", JObj (foldl insert [(lit "GLOBAL", global)] (tags s)))]).

Definition known (s : Api) (tag : str) : bool :=
  is_group s.(runtime) tag || bool_decide (is_Some (dialer_for s.(runtime) tag)).

Definition get_proxy (secret : option str) (h : HeaderMap) (s : Api) (name : str) : Response :=
  if negb (authenticated h secret) then bare UNAUTHORIZED
  else if negb (known s name) then bare NOT_FOUND
  else json_response (proxy_entry s.(runtime) name).

Definition update_proxy (secret : option str) (h : HeaderMap) (s : Api) (name : str) (body : bytes)
    : Api * Response :=
  if negb (authenticated h secret) then (s, bare UNAUTHORIZED) else
  match body_json body with
  | None => (s, bare BAD_REQUEST)
  | Some update =>
    match v ← json_get (lit "name") update; as_str v with
    | None => (s, bare BAD_REQUEST)
    | Some member =>
      if str_eqb name (lit "GLOBAL") then
        if negb (known s member) then (s, bare BAD_REQUEST)
        else (mkApi s.(runtime) s.(clash_mode) member, bare NO_CONTENT)
      else
        let '(rt, ok) := select_in s.(runtime) name member in
        (mkApi rt s.(clash_mode) s.(final_outbound), bare (if ok : bool then NO_CONTENT else BAD_REQUEST))
    end
  end.

Definition proxy_delay (secret : option str) (h : HeaderMap) (s : Api) (name : str) : Response :=
  if negb (authenticated h secret) then bare UNAUTHORIZED else
  match dialer_for s.(runtime) name with
  | None => bare NOT_FOUND
  | Some d =>
    match probe_delay d with
    | Some delay => json_response (JObj [(lit "delay", JNum delay)])
    | None => bare SERVICE_UNAVAILABLE
    end
  end.

(** The handler of a request. *)
Definition call (secret : option str) (h : HeaderMap) (s : Api) (k : Call) : Api * Response :=
  match k with
  | Version => (s, version secret)
  | GetConfigs => (s, get_configs secret s)
  | PatchConfigs body => patch_configs secret h s body
  | GetProxies => (s, get_proxies secret h s)
  | GetProxy name => (s, get_proxy secret h s name)
  | UpdateProxy name body => update_proxy secret h s name body
  | ProxyDelay name => (s, proxy_delay secret h s name)
  end.

End api.

(** ** Access *)

Section facts.
Context `{HL : HttpLib} {laws : HttpLaws HL} {A X : Type}.
Context (json_parse : bytes → option json).
Context (probe_delay : Dialer (AnyTlsClient := A) (XhttpClient := X) → option Z).
Context (group_keys dialer_keys : list str) (pkg_version : str).

Abbreviation Api := (Api A X).
Abbreviation call := (call json_parse probe_delay group_keys dialer_keys pkg_version).

Lemma fresh_unauthenticated secret : authenticated headers_new (Some secret) = false.
Proof using laws. unfold authenticated. by rewrite get_all_new. Qed.

Lemma call_unauthenticated secret h (s : Api) k :
  authenticated h (Some secret) = false → call (Some secret) h s k = (s, bare UNAUTHORIZED).
Proof using laws.
  intros Ha. pose proof (fresh_unauthenticated secret) as Hn.
  destruct k; cbn; unfold version, get_configs, patch_configs, get_proxies, get_proxy, update_proxy, proxy_delay;
    by rewrite ?Hn, ?Ha.
Qed.

Lemma authenticated_bearer h secret :
  authenticated h (Some secret) = true →
  ∃ v, head (get_all h AUTHORIZATION) = Some v ∧ to_str v = Some (lit "Bearer " ++ secret).
Proof.
  unfold authenticated. destruct (head _) as [v|]; [|done]. cbn. intros Hv. exists v. split; [done|].
  destruct (to_str v); [|done]. by apply str_eqb_eq in Hv as ->.
Qed.

(** Only the holder of the secret is served: when the API has a secret, a request that
    changes the runtime or gets another answer than 401 came with the secret as its bearer
    token. *)
Theorem api_authenticates secret h (s : Api) k :
  call (Some secret) h s k ≠ (s, bare UNAUTHORIZED) →
  ∃ v, head (get_all h AUTHORIZATION) = Some v ∧ to_str v = Some (lit "Bearer " ++ secret).
Proof using laws.
  intros Hc. apply authenticated_bearer. destruct (authenticated h (Some secret)) eqn:E; [done|].
  by rewrite call_unauthenticated in Hc.
Qed.

(** With a secret, the version and the configuration are refused to everyone: their
    handlers look for the token in an empty header map. *)
Lemma configs_never_served secret h (s : Api) :
  call (Some secret) h s Version = (s, bare UNAUTHORIZED) ∧
  call (Some secret) h s GetConfigs = (s, bare UNAUTHORIZED).
Proof using laws.
  pose proof (fresh_unauthenticated secret) as Hn. cbn. unfold version, get_configs. by rewrite Hn.
Qed.

(** ** The runtime stays usable *)

(** The groups are in order, the final outbound is in the table, the mode is one of three. *)
Definition api_ok (s : Api) : Prop :=
  runtime_ok s.(runtime) ∧ is_Some (s.(runtime).(dialers) !! s.(final_outbound)) ∧
  ∀ m, s.(clash_mode) = Some m → m ∈ modes.

Lemma known_dialer (s : Api) tag :
  runtime_ok s.(runtime) → known s tag = true → is_Some (s.(runtime).(dialers) !! tag).
Proof.
  intros (Hg & _) Hk. unfold known, is_group in Hk. apply orb_true_iff in Hk as [Hk|Hk];
    apply bool_decide_eq_true in Hk as [x Hx].
  - by rewrite (Hg _ _ Hx).
  - unfold dialer_for, resolve_grouped_dialer in Hx. cbn [resolve_loop] in Hx.
    by destruct (dialers (runtime s) !! tag).
Qed.

(** What changes the runtime: requests to the API, and the latency tests. *)
Inductive api_step (secret : option str) : Api → Api → Prop :=
  | api_call h s k : api_step secret s (call secret h s k).1
  | api_test s rt : group_step s.(runtime) rt → 
      api_step secret s (mkApi rt s.(clash_mode) s.(final_outbound)).

(** The tables themselves never change. *)
Definition same_tables (s s' : Api) : Prop :=
  s'.(runtime).(dialers) = s.(runtime).(dialers) ∧ s'.(runtime).(groups) = s.(runtime).(groups).

Lemma select_in_tables rt tag member :
  (select_in (AnyTlsClient := A) (XhttpClient := X) rt tag member).1.(dialers) = rt.(dialers) ∧
  (select_in rt tag member).1.(groups) = rt.(groups).
Proof.
  unfold select_in. destruct (_ !! tag); [|done]. destruct (_ !! _); [|done]. by destruct (select _ _).
Qed.

Lemma group_step_tables rt rt' :
  group_step (AnyTlsClient := A) (XhttpClient := X) rt rt' →
  rt'.(dialers) = rt.(dialers) ∧ rt'.(groups) = rt.(groups).
Proof. destruct 1; [apply select_in_tables|done]. Qed.

Lemma call_cases secret h (s : Api) k :
  let s' := (call secret h s k).1 in
  s' = s ∨ (∃ m, m ∈ modes ∧ s' = mkApi s.(runtime) (Some m) s.(final_outbound)) ∨
  (∃ tag, known s tag = true ∧ s' = mkApi s.(runtime) s.(clash_mode) tag) ∨
  (∃ rt, group_step s.(runtime) rt ∧ s' = mkApi rt s.(clash_mode) s.(final_outbound)).
Proof.
  destruct k; unfold call; try (by left).
  - unfold patch_configs. destruct (negb _); [by left|]. destruct (body_json _ _) as [v|]; [|by left]. cbn [fst].
    destruct (v ← _; as_str v) as [m|]; [|by left]. destruct (existsb _ _) eqn:E; [|by left].
    right. left. exists m. split; [|done]. apply existsb_exists in E as (x & Hx & ->%str_eqb_eq).
    by apply list_elem_of_In.
  - unfold update_proxy. destruct (negb _); [by left|]. destruct (body_json _ _) as [v|]; [|by left].
    destruct (v ← _; as_str v) as [m|]; [|by left]. destruct (str_eqb _ _).
    + destruct (known s m) eqn:E; cbn; [|by left]. right. right. left. by exists m.
    + destruct (select_in _ _ _) as [rt ok] eqn:E. cbn. right. right. right. exists rt. split; [|done].
      apply (f_equal fst) in E. cbn in E. rewrite <- E. constructor.
Qed.

(** C36: Whatever is asked of the API: after any sequence of requests, with any headers and
    bodies, and of latency tests, every group forwards to one of its members, these and the
    final outbound are outbounds of the table, the mode is one of the three, and the
    outbounds and groups are the same as before. *)
Theorem api_keeps_runtime secret (s s' : Api) :
  api_ok s → rtc (api_step secret) s s' → api_ok s' ∧ same_tables s s'.
Proof.
  intros Hok Hs. induction Hs as [|s s1 s2 Hstep _ IH]; [done|].
  assert (api_ok s1 ∧ same_tables s s1) as [Hok1 [Hd Hg]].
  { assert (∀ rt, group_step s.(runtime) rt →
      api_ok (mkApi rt s.(clash_mode) s.(final_outbound)) ∧ same_tables s (mkApi rt s.(clash_mode) s.(final_outbound)))
      as Hgroup.
    { intros rt Hrt. destruct Hok as (Hr & Hf & Hm). destruct (group_step_tables _ _ Hrt) as [Hd Hg].
      split; [|done]. split_and!; cbn; [by eapply group_step_ok|by rewrite Hd|done]. }
    destruct Hstep as [h s k|s rt Hrt]; [|by apply Hgroup].
    destruct (call_cases secret h s k) as [->|[(m & Hm & ->)|[(tag & Ht & ->)|(rt & Hrt & ->)]]];
      [done|destruct Hok as (Hr & Hf & Hmo)..|by apply Hgroup].
    - split; [|done]. split_and!; [done..|]. cbn. by intros ? [= <-].
    - split; [|done]. by split_and!; [|apply known_dialer|]. }
  destruct (IH Hok1) as [Hok2 [Hd' Hg']]. split; [done|]. unfold same_tables. by rewrite Hd', Hg'.
Qed.

(** A selection is seen at once: after a request that selected a member of a group, the
    group's entry has it as its current one. *)
Lemma selection_shown secret h (s s' : Api) name body update member :
  call secret h s (UpdateProxy name body) = (s', bare NO_CONTENT) → name ≠ lit "GLOBAL" →
  body_json json_parse body = Some update → (v ← json_get (lit "name") update; as_str v) = Some member →
  ∃ entry, call secret h s' (GetProxy name) = (s', json_response entry) ∧
    json_get (lit "now") entry = Some (JStr member).
Proof.
  intros Hc Hn Hb Hm. cbn in Hc |- *. unfold update_proxy in Hc. unfold get_proxy.
  destruct (authenticated h secret); [|done]. cbn [negb] in *. rewrite Hb, Hm in Hc.
  rewrite str_eqb_neq in Hc by done. unfold select_in in Hc.
  destruct (groups (runtime s) !! name) as [id|] eqn:Hg; [|done].
  destruct (store (runtime s) !! id) as [g|] eqn:Hs; [|done].
  destruct (select g member) as [g' ok] eqn:Hsel. cbn in Hc. destruct ok; [|done]. injection Hc as <-.
  unfold known, is_group, proxy_entry, group_of. cbn. rewrite Hg. cbn. rewrite lookup_insert_eq.
  eexists. split; [done|]. unfold select in Hsel. destruct (existsb _ _); [|done]. injection Hsel as <-.
  reflexivity.
Qed.

End facts.

(** ** The dashboard *)

(** An entry of the archive. *)
Record Entry := mkEntry { entry_name : str; is_dir : bool; data : bytes }.

Inductive FsAction :=
  | CreateDir (path : str)
  | CreateFile (path : str) (data : bytes).

#[export] Instance FsAction_eq_dec : EqDecision FsAction.
Proof. solve_decision. Defined.

(** [name.split('/').skip(1).collect().join("/")] *)
Definition relative (name : str) : str := join [c_slash] (tail (split c_slash name)).

(** [Path::join]: an absolute path takes the place of the directory. *)
Definition path_join (dir rel : str) : str :=
  if starts_with [c_slash] rel then rel
  else if bool_decide (dir = []) || ends_with [c_slash] dir then dir ++ rel
  else dir ++ c_slash :: rel.

(** [Path::parent]: the last component goes, with the slashes before it. *)
Definition path_parent (p : str) : option str :=
  match trim_end_matches (Z.eqb c_slash) p with
  | [] => None
  | q =>
    let parent := join [c_slash] (removelast (split c_slash q)) in
    Some (if bool_decide (parent = []) && starts_with [c_slash] q then [c_slash] else parent)
  end.

(** The loop over the archive.  [creates] is whether [File::create] succeeds; directories
    that cannot be created are passed over. *)
Fixpoint extract (creates : str → bool) (ui_dir : str) (es : list Entry) : list FsAction * result unit :=
  match es with
  | [] => ([], Ok tt)
  | e :: es =>
    match relative e.(entry_name) with
    | [] => extract creates ui_dir es
    | rel =>
      let path := path_join ui_dir rel in
      if e.(is_dir) then let '(l, r) := extract creates ui_dir es in (CreateDir path :: l, r)
      else
        let parent := match path_parent path with Some p => [CreateDir p] | None => [] end in
        if creates path then
          let '(l, r) := extract creates ui_dir es in (parent ++ CreateFile path e.(data) :: l, r)
        else (parent, Err "create UI file")
    end
  end.

(** [ensure_ui]: a directory with something in it is left alone. *)
Definition ensure_ui (listing : option (list str)) (download : option str → result bytes)
    (unzip : bytes → result (list Entry)) (creates : str → bool) (ui_dir : str) (detour : option str)
    : list FsAction * result unit :=
  match listing with
  | Some (_ :: _) => ([], Ok tt)
  | _ =>
    match
      bytes ← download (d ← detour; match d with [] => None | _ => Some d end);
      unzip bytes
    with
    | Ok es => let '(l, r) := extract creates ui_dir es in (CreateDir ui_dir :: l, r)
    | Err e => ([CreateDir ui_dir], Err e)
    | Panic => ([CreateDir ui_dir], Panic)
    | Diverge => ([CreateDir ui_dir], Diverge)
    end
  end.

(** Where a path leads: the components, without the empty ones and the dots; two dots
    go back one. *)
Definition follow (at_ : list str) (component : str) : list str :=
  if str_eqb component [] || str_eqb component (lit ".") then at_
  else if str_eqb component (lit "..") then removelast at_
  else at_ ++ [component].

Definition location (p : str) : list str := foldl follow [] (split c_slash p).

Definition inside (dir p : str) : Prop := location dir `prefix_of` location p.

(** A name as an honest archive has it: after the first directory, components that go
    neither up nor to the root. *)
Definition honest (name : str) : Prop :=
  Forall (λ w, w ≠ lit "..") (tail (split c_slash name)) ∧ head (tail (split c_slash name)) ≠ Some [].

Lemma split_slash a b : split c_slash (a ++ c_slash :: b) = split c_slash a ++ split c_slash b.
Proof.
  induction a as [|x a IH]; [done|]. cbn. rewrite IH. destruct (x =? c_slash); [done|].
  pose proof (split_nonempty c_slash a). by destruct (split c_slash a).
Qed.

Lemma location_app a b : location (a ++ c_slash :: b) = foldl follow (location a) (split c_slash b).
Proof. unfold location. by rewrite split_slash, foldl_app. Qed.

Lemma follow_prefix at_ ws : Forall (λ w, w ≠ lit "..") ws → at_ `prefix_of` foldl follow at_ ws.
Proof.
  intros Hws. revert at_. induction Hws as [|w ws Hw _ IH]; intros at_; [done|]. cbn [foldl].
  etrans; [|apply IH]. unfold follow. destruct (_ || _); [done|]. rewrite str_eqb_neq by done.
  by apply prefix_app_r.
Qed.

Lemma split_relative name :
  relative name ≠ [] → split c_slash (relative name) = tail (split c_slash name).
Proof.
  intros Hr. unfold relative in *. pose proof (split_no_sep c_slash name) as Hs.
  destruct (split c_slash name) as [|w ws]; [done|]. apply Forall_cons in Hs as [_ Hs].
  cbn [tail] in *. apply split_join; [|done]. by destruct ws.
Qed.

Lemma honest_inside dir name :
  honest name → relative name ≠ [] → inside dir (path_join dir (relative name)).
Proof.
  intros [Hup Hroot] Hr. unfold inside, path_join. pose proof (split_relative name Hr) as Hs.
  assert (starts_with [c_slash] (relative name) = false) as ->.
  { destruct (relative name) as [|x r]; [done|]. unfold starts_with. cbn [strip_prefix].
    destruct (c_slash =? x) eqn:E; [|done]. apply Z.eqb_eq in E as <-. rewrite <- Hs in Hroot. by cbn in Hroot. }
  assert (∀ d, location d `prefix_of` location (d ++ c_slash :: relative name)) as Hd.
  { intros d. rewrite location_app, Hs. by apply follow_prefix. }
  destruct (bool_decide (dir = []) || ends_with [c_slash] dir) eqn:E; [|done].
  apply orb_true_iff in E as [->%bool_decide_eq_true|E]; [apply prefix_nil|].
  apply ends_with_true in E as [d ->].
  rewrite <- app_assoc. cbn [app]. etrans; [|apply Hd]. by rewrite location_app.
Qed.

(** An honest archive is extracted into the directory. *)
Lemma extract_inside creates dir es p b :
  Forall (λ e, honest e.(entry_name)) es → CreateFile p b ∈ (extract creates dir es).1 → inside dir p.
Proof.
  induction 1 as [|e es He _ IH]; cbn; [by intros ?%not_elem_of_nil|].
  destruct (relative (entry_name e)) as [|x r] eqn:Er; [done|]. rewrite <- Er.
  assert (inside dir (path_join dir (relative (entry_name e)))) as Hin by (apply honest_inside; [done|by rewrite Er]).
  set (path := path_join _ _) in *.
  assert (∀ l, CreateFile p b ∈ match path_parent path with Some q => [CreateDir q] | None => [] end ++ l →
    CreateFile p b ∈ l) as Hpar.
  { intros l. destruct (path_parent path); [|done]. cbn [app]. rewrite elem_of_cons. by intros [?|?]. }
  destruct (is_dir e).
  - destruct (extract creates dir es) as [l rs]. cbn. rewrite elem_of_cons. intros [?|?]; [done|]. by apply IH.
  - destruct (creates path).
    + destruct (extract creates dir es) as [l rs]. cbn. intros [[= -> ->]|Hl]%Hpar%elem_of_cons; [done|]. by apply IH.
    + cbn. intros Hl. destruct (not_elem_of_nil (CreateFile p b)). apply Hpar. by rewrite app_nil_r.
Qed.

(** Names that go up, or to the root after the first directory, lead out of it. *)
Example archive_escapes :
  let escaping name := (extract (λ _, true) (lit "/srv/ui") [mkEntry name false [1]]).1 in
  CreateFile (lit "/srv/ui/../../etc/passwd") [1] ∈ escaping (lit "x/../../etc/passwd") ∧
  location (lit "/srv/ui/../../etc/passwd") = [lit "etc"; lit "passwd"] ∧
  CreateFile (lit "/etc/passwd") [1] ∈ escaping (lit "x//etc/passwd").
Proof. cbn zeta. split_and!; [|vm_compute; reflexivity|]; by apply (bool_decide_unpack _). Qed.

(** ** A controller at work *)

Module ClashSamples.
#[local] Existing Instance Plain.lib.
#[local] Existing Instance Plain.laws.

(** Two outbounds and a group of both. *)
Definition sample_api : Api unit unit :=
  mkApi
    (mkRuntime {[lit "a" := Direct; lit "b" := Block; lit "g" := GroupDialer 0]} {[lit "g" := 0%nat]}
       {[0%nat := mkGroup Selector [lit "a"; lit "b"] (lit "a") None secs 50]})
    None (lit "a").

(** Bodies stand for the name they carry. *)
Definition named (b : bytes) : option json := Some (JObj [(lit "name", JStr b); (lit "mode", JStr b)]).

Definition bearer : HeaderMap := headers_insert headers_new AUTHORIZATION (lit "Bearer s").

Abbreviation sample_call h := (call named (λ _, Some 30) [lit "g"] [lit "a"; lit "b"; lit "g"] (lit "1") (Some (lit "s")) h).

Lemma sample_api_ok : api_ok sample_api.
Proof.
  split_and!; [split_and!|vm_compute; by eexists|done]; unfold sample_api; cbn [runtime groups dialers store].
  - intros tag id [<- <-]%lookup_singleton_Some. by vm_compute.
  - intros tag id H. apply lookup_insert_Some in H as [[_ H]|[_ H]]; [done|].
    apply lookup_insert_Some in H as [[_ H]|[_ H]]; [done|].
    apply lookup_singleton_Some in H as [_ [= <-]]. vm_compute. by eexists.
  - intros id g [<- <-]%lookup_singleton_Some. cbn [selected members]. split; [by left|].
    repeat constructor; vm_compute; by eexists.
Qed.

(** The entry of GLOBAL shows the first tag whatever was chosen. *)
Example global_choice_not_shown :
  let '(s, r) := sample_call bearer sample_api (UpdateProxy (lit "GLOBAL") (lit "b")) in
  r = bare NO_CONTENT ∧ s.(final_outbound) = lit "b" ∧
  (v ← (sample_call bearer s GetProxies).2.(content); v ← json_get (lit "proxies") v;
   v ← json_get (lit "GLOBAL") v; json_get (lit "now") v) = Some (JStr (lit "g")).
Proof. vm_compute. split_and!; reflexivity. Qed.

Lemma api_authenticates_witness :
  ∃ v, head (get_all bearer AUTHORIZATION) = Some v ∧ to_str v = Some (lit "Bearer " ++ lit "s").
Proof.
  apply (api_authenticates named (λ _, Some 30) [lit "g"] [lit "a"; lit "b"; lit "g"] (lit "1") (lit "s") bearer
    sample_api (UpdateProxy (lit "GLOBAL") (lit "b"))).
  intros H. apply (f_equal (λ r, r.2.(status))) in H. vm_compute in H. discriminate H.
Defined.

Lemma api_keeps_runtime_witness :
  let s := (sample_call bearer sample_api (UpdateProxy (lit "g") (lit "b"))).1 in
  s.(runtime).(store) !! 0%nat = Some (mkGroup Selector [lit "a"; lit "b"] (lit "b") None secs 50) ∧
  api_ok s ∧ same_tables sample_api s.
Proof.
  intros s. split; [vm_compute; reflexivity|].
  apply (api_keeps_runtime named (λ _, Some 30) [lit "g"] [lit "a"; lit "b"; lit "g"] (lit "1") (Some (lit "s"))
    sample_api s).
  - exact sample_api_ok.
  - apply rtc_once. exact (api_call _ _ _ _ _ _ bearer sample_api (UpdateProxy (lit "g") (lit "b"))).
Defined.

End ClashSamples.
