(* ===== verification/Detour.v ===== *)
(** * Detours and probes (src/src/proxy/mod.rs, src/src/vless.rs)

    The provider that carries DNS queries and downloads through an outbound, the
    latency probes of URL tests, and the other end of a VLESS detour: the relays that
    src/src/vless.rs starts for a request.  A connection is what its peer sends in
    answer to all that was written; a read past the end of it is the end of the
    stream. *)

From S2P Require Import Prelude RustStr Net Util Vless Xudp Routing DnsTransport Outbound Direct Download UdpRelay.

(** ** Connections *)

Record Conn := mkConn {
  peer : bytes → bytes;
  conn_written : bytes;
  conn_taken : nat;
}.

Definition opened (p : bytes → bytes) : Conn := mkConn p [] 0.

Definition incoming (c : Conn) : bytes := drop c.(conn_taken) (c.(peer) c.(conn_written)).

Definition send (b : bytes) (c : Conn) : Conn := mkConn c.(peer) (c.(conn_written) ++ b) c.(conn_taken).

(** Writes what a writer produces; its error comes after what it wrote. *)
Definition write_to {A} (w : writer A) (c : Conn) : result (A * Conn) :=
  a ← w.2; Ok (a, send w.1 c).

Definition read_from {A} (m : reader A) (c : Conn) : result (A * Conn) :=
  '(a, rest) ← m (incoming c);
  Ok (a, mkConn c.(peer) c.(conn_written) (length (c.(peer) c.(conn_written)) - length rest)).

(** The [anytls] crate: addresses and the framing of datagrams over a stream. *)
Class AnyTlsLib := {
  encode_anytls : Destination → result bytes;
  uot_magic : Destination;
  uot_request : bool → Destination → result bytes;
  uot_packet : Destination → bytes → bool → result bytes;
  uot_read : option Destination → reader (Destination * bytes);
}.

(** ** Relays of the VLESS server *)

(** The loop of [relay_udp]: what the pending read has of the stream, the datagrams
    sent to the target, and what was written back.  The length is read inside the
    select, the datagram after it. *)
Record UdpState := mkUdp {
  us_partial : bytes;
  us_sent : list bytes;
  us_out : bytes;
}.

Inductive udp_event :=
  | UByte (b : Z)
  | UEof
  | UDatagram (payload : bytes).  (* received from the target *)

Definition udp_init : UdpState := mkUdp [] [] [].

(** [None]: the loop does not look at the socket while it reads a datagram. *)
Definition udp_step (send_ok : bytes → bool) (s : UdpState) (e : udp_event) : option (result UdpState) :=
  match e with
  | UByte b =>
    Some (let buf := s.(us_partial) ++ [b] in
          r ← pending_read (read_datagram false) buf;
          match r with
          | None => Ok (mkUdp buf s.(us_sent) s.(us_out))
          | Some ((_, payload), rest) =>
            if send_ok payload then Ok (mkUdp rest (s.(us_sent) ++ [payload]) s.(us_out)) else Err "send"
          end)
  | UEof => Some (Err "early eof")
  | UDatagram payload =>
    if (2 <=? length s.(us_partial))%nat then None
    else
      Some (n ← context (try_uint 16 (Z.of_nat (length payload))) "UDP response is too large";
            Ok (mkUdp [] s.(us_sent) (s.(us_out) ++ to_be 2 n ++ payload)))
  end.

Fixpoint udp_run (send_ok : bytes → bool) (s : UdpState) (es : list udp_event) : option (result UdpState) :=
  match es with
  | [] => Some (Ok s)
  | e :: es => r ← udp_step send_ok s e; match r with Ok s => udp_run send_ok s es | r => Some r end
  end.

(** The network of the server: names, sockets, the targets of TCP connections and
    what answers a datagram. *)
Record World := mkWorld {
  w_lookup : Destination → option SocketAddr;
  w_bind : SocketAddr → bool;
  w_tcp : Destination → result (bytes → bytes);
  w_udp : SocketAddr → bytes → bytes;
}.

(** [relay] for [Command::Udp], when the stream holds [rest] and then every datagram
    is answered. *)
Definition serve_udp (w : World) (d : Destination) (rest : bytes) : result bytes :=
  target ← context (w.(w_lookup) d) "VLESS UDP destination did not resolve";
  if negb (w.(w_bind) target) then Err "bind" else
  match udp_run (λ _, true) udp_init (UByte <$> rest) with
  | Some (Ok s) =>
    match udp_run (λ _, true) s (UDatagram <$> (w.(w_udp) target <$> s.(us_sent))) with
    | Some r => us_out <$> r
    | None => Err "waits"
    end
  | Some (Err e) => Err e
  | Some Panic => Panic
  | Some Diverge => Diverge
  | None => Err "waits"
  end.

(** The same for [Command::Xudp] and the task of session 0. *)
Definition serve_xudp (w : World) (rest : bytes) : result bytes :=
  st ← relay_run w.(w_lookup) w.(w_bind) relay_init (EvByte <$> rest);
  match st.(rs_sessions) !! 0 with
  | None => Ok []
  | Some ch =>
    let effects := Session.run w.(w_lookup) (λ _ _, true) true 0 (Session.mkState (Domain [] 0) None)
                     (Session.Frame <$> ch.(ch_queue)) in
    let answers := omap (λ e, match e with
                              | Session.SendTo payload target => Some (EvResponse 0 (ip_destination target) (w.(w_udp) target payload))
                              | Session.Respond _ _ _ => None
                              end) effects in
    rs_out <$> relay_run w.(w_lookup) w.(w_bind) st answers
  end.

(** [serve] and [relay] on the stream of a client that wrote [b]: what it is answered. *)
Definition vless_server `{UuidLib} (users : list str) (w : World) (b : bytes) : bytes :=
  match serve users b with
  | Ok (request, hello, rest) =>
    hello ++
    match request.(command) with
    | Tcp => match w.(w_tcp) request.(Vless.destination) with Ok target => target rest | _ => [] end
    | Udp => default [] (result_ok (serve_udp w request.(Vless.destination) rest))
    | Xudp => default [] (result_ok (serve_xudp w rest))
    end
  | _ => []
  end.

(** ** The provider *)

Section provider.
Context `{U : UuidLib} `{AL : AnyTlsLib} `{UrlLib}.
Context {AnyTlsClient XhttpClient : Type}.

#[local] Abbreviation Dialer' := (Dialer (AnyTlsClient := AnyTlsClient) (XhttpClient := XhttpClient)).

(** The network of the client: [connect] of the XHTTP client, [create_stream] of the
    AnyTLS client, a datagram socket that waits five seconds ([None]: in vain), and
    [connect_direct]. *)
Record Net := mkNet {
  n_xhttp : XhttpClient → result (bytes → bytes);
  n_anytls : AnyTlsClient → bytes → result (bytes → bytes);
  n_udp : SocketAddr → bytes → result (option bytes);
  n_direct : Destination → result (bytes → bytes);
  n_setsockopt : sockopt → option string;
}.

Context (net : Net) (rt : Runtime (AnyTlsClient := AnyTlsClient) (XhttpClient := XhttpClient)).

(** A stream through a dialer to a destination; [connect_for_probe] and
    [connect_tcp_destination] differ in their last message. *)
Definition connect_stream (refusal : string) (dialer : Dialer') (d : Destination) : result Conn :=
  match dialer with
  | Direct => opened <$> net.(n_direct) d
  | VlessDialer client user _ =>
    p ← net.(n_xhttp) client;
    '(_, c) ← write_to (write_request user d) (opened p);
    '(_, c) ← read_from read_response c;
    Ok c
  | AnyTls client =>
    address ← encode_anytls d;
    opened <$> net.(n_anytls) client address
  | Block | GroupDialer _ => Err refusal
  end.

(** [DetourProvider::connect_tcp_destination] *)
Definition connect_tcp_destination (tag : str) (d : Destination) : result Conn :=
  dialer ← context (resolve_grouped_dialer rt tag) "unknown detour outbound";
  connect_stream "detour cannot use block/group outbound" dialer d.

Definition connect_tcp_inner (tag : str) (a : SocketAddr) : result Conn := connect_tcp_destination tag (ip_destination a).

(** [DetourProvider::exchange_udp_inner] *)
Definition exchange_udp_inner (tag : str) (a : SocketAddr) (request : bytes) : result bytes :=
  dialer ← context (resolve_grouped_dialer rt tag) "unknown DNS detour outbound";
  match dialer with
  | Direct =>
    _ ← direct_udp_socket net.(n_setsockopt) a default_options;
    answer ← net.(n_udp) a request;
    response ← context answer "DNS detour direct timeout";
    Ok (take (Z.to_nat 65535) response)
  | VlessDialer client user xudp =>
    let d := ip_destination a in
    p ← net.(n_xhttp) client;
    '(_, c) ← write_to (write_request_with_command user (if xudp then Xudp else Udp) d) (opened p);
    b ← (if xudp then '(b, _) ← to_result (write_xudp_packet true d request); Ok b
         else
           n ← context (try_uint 16 (Z.of_nat (length request))) "DNS query too large";
           Ok (to_be 2 n ++ request));
    '(_, c) ← read_from read_response (send b c);
    '(_, payload, _) ← read_from (read_datagram xudp) c;
    Ok payload
  | AnyTls client =>
    let d := ip_destination a in
    initial ← encode_anytls uot_magic;
    p ← net.(n_anytls) client initial;
    open ← uot_request true d;
    packet ← uot_packet d request true;
    '(_, payload, _) ← read_from (uot_read (Some d)) (send packet (send open (opened p)));
    Ok payload
  | Block | GroupDialer _ => Err "DNS detour cannot use block/group outbound"
  end.

(** [exchange_stream] of src/src/dns/transport.rs *)
Definition exchange_stream (c : Conn) (q : bytes) : result bytes :=
  b ← frame q; '(r, _) ← read_from read_frame (send b c); Ok r.

(** What [DnsTransport.query_via_detour] gets from the provider: the address of the
    server, looked up once, and a handshake for [tls] servers. *)
Definition detour_io (resolve : Endpoint → result SocketAddr) (tls : Endpoint → Conn → result Conn) (io : Io) : Io :=
  mkIo io.(io_udp) io.(io_stream) io.(io_https)
    (λ tag e q, a ← resolve e; exchange_udp_inner tag a q)
    (λ tag use_tls e q,
       a ← resolve e; c ← connect_tcp_inner tag a;
       c ← (if use_tls : bool then tls e c else Ok c);
       exchange_stream c q).

(** ** Probes *)

(** [Dialer::connect_for_probe] *)
Definition connect_for_probe (dialer : Dialer') (url : WebUrl) : result Conn :=
  host ← context (web_host url) "probe URL has no host";
  port ← context (web_port url) "probe URL has no port";
  connect_stream "cannot probe through block/group outbound" dialer (Domain host port).

(** [Dialer::warm_up]: a stream to 1.0.0.1:1 that is closed at once. *)
Definition warm_up (dialer : Dialer') : result unit :=
  match dialer with
  | Direct | Block | GroupDialer _ => Ok tt
  | _ => _ ← connect_stream "" dialer (Ip (V4 0x01000001) 1); Ok tt
  end.

Definition crlf : bytes := [13; 10].

Definition probe_request (url : WebUrl) (host : str) : bytes :=
  lit "HEAD " ++ web_path url ++ lit " HTTP/1.1" ++ crlf ++ lit "Host: " ++ host ++ crlf ++
  lit "Connection: close" ++ crlf ++ crlf.

(** [Dialer::probe_delay]: [elapsed] is the time from the request to the first byte of
    the answer, in nanoseconds. *)
Definition probe_delay (elapsed : Z) (dialer : Dialer') (url : str) : option Z :=
  url ← web_parse url;
  host ← web_host url;
  c ← result_ok (connect_for_probe dialer url);
  _ ← result_ok (read_from (read_exact 1) (send (probe_request url host) c));
  Some (Z.min (elapsed / 10 ^ 6) 65535).

(** The groups that [start_url_tests] starts a task for, with their URL. *)
Definition url_test_group (g : Group) : option str :=
  match g.(g_kind) with UrlTest => g.(g_url) | Selector => None end.

(** A round of the task of a group: [elapsed] are the times of the probes. *)
Definition url_test_round (checks : bool) (elapsed : nat → Z) (g : Group) : result Group :=
  match url_test_group g with
  | None => Ok g
  | Some url => run_url_test checks (λ _ member, dialer_for rt member) (λ turn d, probe_delay (elapsed turn) d url) g
  end.

End provider.

(** ** The answer comes back *)

Lemma read_from_Ok {A} (m : reader A) p w t a rest :
  m (drop t (p w)) = Ok (a, rest) → read_from m (mkConn p w t) = Ok (a, mkConn p w (length (p w) - length rest)).
Proof. intros H. unfold read_from, incoming. cbn [peer conn_written conn_taken]. by rewrite H. Qed.

Lemma drop_rest {A} (pre rest : list A) : drop (length (pre ++ rest) - length rest) (pre ++ rest) = rest.
Proof. rewrite length_app. replace (length pre + length rest - length rest)%nat with (length pre) by lia. apply drop_app_length. Qed.

Lemma streaming_sized : streaming (read_datagram false).
Proof.
  unfold read_datagram. apply streaming_bind; [apply streaming_u16|]. intros n.
  apply streaming_bind; [apply streaming_exact|]. intros b. apply streaming_ret.
Qed.

Lemma read_sized_datagram q rest : Z.of_nat (length q) ≤ 65535 →
  read_datagram false (to_be 2 (Z.of_nat (length q)) ++ q ++ rest) = Ok ((None, q), rest).
Proof.
  intros Hq. unfold read_datagram. erewrite rbind_eq; [|apply read_u16_app; unfold uint; lia].
  erewrite rbind_eq; [|apply read_exact_app; lia]. done.
Qed.

(** A datagram of the client is sent to the target as soon as its last byte is there. *)
Lemma udp_run_datagram q : Z.of_nat (length q) ≤ 65535 →
  udp_run (λ _, true) udp_init (UByte <$> (to_be 2 (Z.of_nat (length q)) ++ q)) = Some (Ok (mkUdp [] [q] [])).
Proof.
  intros Hq. pose proof (read_sized_datagram q [] Hq) as Hr. rewrite app_nil_r in Hr.
  set (w := to_be 2 (Z.of_nat (length q)) ++ q) in *. destruct (streaming_sized _ _ _ Hr) as (c & Hc & _ & Hp).
  rewrite app_nil_r in Hc. subst c.
  assert (Hne : w ≠ []) by (intros E; rewrite E in Hr; discriminate).
  enough (∀ y x, w = x ++ y → y ≠ [] → udp_run (λ _, true) (mkUdp x [] []) (UByte <$> y) = Some (Ok (mkUdp [] [q] []))) as H
    by (by apply (H w [])).
  induction y as [|b y IH]; intros x Hx Hy; [done|]. cbn [fmap list_fmap udp_run udp_step us_partial us_sent us_out].
  unfold pending_read. destruct y as [|b' y].
  - rewrite <- Hx, Hr. done.
  - rewrite (Hp (x ++ [b]) (b' :: y)); [|by rewrite <- app_assoc|done]. cbn [String.eqb Ascii.eqb Bool.eqb mbind result_bind option_bind].
    apply IH; [by rewrite <- app_assoc|done].
Qed.

(** A DNS server behind a TCP connection. *)
Definition dns_over_tcp (answer : bytes → bytes) (b : bytes) : bytes :=
  match read_frame b with Ok (q, _) => default [] (result_ok (frame (answer q))) | _ => [] end.

Lemma frame_fits q : Z.of_nat (length q) ≤ 65535 → ∃ b, frame q = Ok b.
Proof.
  intros Hq. unfold frame, try_uint. replace ((0 <=? Z.of_nat (length q)) && (Z.of_nat (length q) <? 2 ^ 16)) with true
    by (symmetry; apply andb_true_iff; split; [apply Z.leb_le|apply Z.ltb_lt]; lia). by eexists.
Qed.

Section answers.
Context {U : UuidLib} {UL : UuidLaws U}.
Context (users : list str) (w : World).

(** The server of a query: it can reach the DNS server, and both fit a datagram. *)
Definition reaches (a : SocketAddr) (q : bytes) : Prop :=
  encodable (ip_destination a) ∧ w.(w_lookup) (ip_destination a) = Some a ∧ w.(w_bind) a = true ∧
  Z.of_nat (length q) ≤ 65535 ∧ Z.of_nat (length (w.(w_udp) a q)) ≤ 65535.

Lemma serve_udp_answers a q : reaches a q →
  serve_udp w (ip_destination a) (to_be 2 (Z.of_nat (length q)) ++ q) =
  Ok (to_be 2 (Z.of_nat (length (w.(w_udp) a q))) ++ w.(w_udp) a q).
Proof.
  intros (_ & Hl & Hb & Hq & Hr). unfold serve_udp. rewrite Hl. cbn [context mbind result_bind]. rewrite Hb. cbn [negb].
  rewrite udp_run_datagram by done. cbn [us_sent fmap list_fmap udp_run udp_step us_partial length Nat.leb us_out app].
  unfold try_uint. replace ((0 <=? Z.of_nat (length (w_udp w a q))) && (Z.of_nat (length (w_udp w a q)) <? 2 ^ 16)) with true
    by (symmetry; apply andb_true_iff; split; [apply Z.leb_le|apply Z.ltb_lt]; lia).
  done.
Qed.

Lemma serve_xudp_answers a q : reaches a q →
  serve_xudp w (write_xudp_packet true (ip_destination a) q).1 =
  Ok (write_xudp_packet false (ip_destination a) (w.(w_udp) a q)).1.
Proof.
  intros (Hd & Hl & Hb & Hq & Hr). unfold serve_xudp, write_xudp_packet.
  destruct (read_write_xudp_frame 0 1 (ip_destination a) q [] Hd ltac:(unfold uint; lia) Hq) as [_ Hread].
  rewrite app_nil_r in Hread. set (f := mkXudpFrame 0 1 (Some (ip_destination a)) (Some q)) in *.
  rewrite <- (app_nil_r (write_xudp_frame _ _ _ _).1) in Hread. apply streaming_xudp_frame in Hread as (c & Hc & Ht & Hp).
  rewrite !app_nil_r in Hc. subst c. unfold relay_init. rewrite (relay_run_frame _ _ ∅ [] _ f Ht) by (done || by intros E; rewrite E in Ht; specialize (Ht [])).
  rewrite (on_frame_opens _ _ f (ip_destination a) a) by done. cbn [mbind result_bind rs_sessions f xf_session].
  rewrite lookup_singleton_eq. cbn [ch_queue].
  cbn [fmap list_fmap Session.run Session.step f xf_destination xf_payload Session.cached_target Session.destination]. rewrite Hl.
  cbn [Session.cached_target app omap list_omap relay_run relay_step rs_out rs_sessions].
  destruct (read_write_xudp_frame 0 2 (ip_destination a) (w.(w_udp) a q) [] Hd ltac:(unfold uint; lia) Hr) as [Hw _].
  rewrite Hw. done.
Qed.

(** What the server answers to a request of each kind. *)
Lemma vless_server_request user id c d rest : user ∈ users → uuid_parse user = Some id → encodable d →
  (write_request_with_command user c d).2 = Ok tt ∧
  vless_server users w ((write_request_with_command user c d).1 ++ rest) =
    [0; 0] ++ match c with
              | Tcp => match w.(w_tcp) d with Ok target => target rest | _ => [] end
              | Udp => default [] (result_ok (serve_udp w d rest))
              | Xudp => default [] (result_ok (serve_xudp w rest))
              end.
Proof.
  intros Hu Hid Hd. destruct (serve_request_bytes users user id c d rest Hu Hid Hd) as [Hw Hs]. split; [done|].
  unfold vless_server. rewrite Hs. by destruct c.
Qed.

Lemma read_hello rest : read_response ([0; 0] ++ rest) = Ok (tt, rest).
Proof. done. Qed.

Section detour.
Context `{AL : AnyTlsLib} {A X : Type} (net : Net (AnyTlsClient := A) (XhttpClient := X))
  (rt : Runtime (AnyTlsClient := A) (XhttpClient := X)).
(** The outbound of the tag is VLESS, and its server knows the user. *)
Context (tag : str) (client : X) (user : str) (id : bytes) (xudp : bool).
Context (Hdial : resolve_grouped_dialer rt tag = Some (VlessDialer client user xudp)).
Context (Hserver : net.(n_xhttp) client = Ok (vless_server users w)).
Context (Huser : user ∈ users) (Hid : uuid_parse user = Some id).

Lemma exchange_udp_answered a q : reaches a q → exchange_udp_inner net rt tag a q = Ok (w.(w_udp) a q).
Proof.
  intros Hr. pose proof Hr as (Hd & _ & _ & Hq & Hlen). unfold exchange_udp_inner. rewrite Hdial. cbn [context mbind result_bind].
  rewrite Hserver. cbn [mbind result_bind].
  set (request := write_request_with_command user (if xudp then Xudp else Udp) (ip_destination a)).
  assert (∃ b reply, (if xudp then '(b, _) ← to_result (write_xudp_packet true (ip_destination a) q); Ok b
    else n ← context (try_uint 16 (Z.of_nat (length q))) "DNS query too large"; Ok (to_be 2 n ++ q)) = Ok b ∧
    vless_server users w (request.1 ++ b) = [0; 0] ++ reply ∧
    ∃ from, read_datagram xudp reply = Ok ((from, w.(w_udp) a q), [])) as (b & reply & -> & Hs & from & Hread).
  { subst request. destruct xudp.
    - destruct (read_write_xudp_frame 0 1 (ip_destination a) q [] Hd ltac:(unfold uint; lia) Hq) as [Hw _].
      exists (write_xudp_packet true (ip_destination a) q).1, (write_xudp_packet false (ip_destination a) (w.(w_udp) a q)).1.
      split; [unfold to_result, write_xudp_packet; by rewrite Hw|]. split.
      + destruct (vless_server_request user id Xudp (ip_destination a) (write_xudp_packet true (ip_destination a) q).1 Huser Hid Hd) as [_ ->].
        by rewrite serve_xudp_answers.
      + exists (Some (ip_destination a)). unfold read_datagram. apply read_packet_frame. exists 2. split; [done|].
        destruct (read_write_xudp_frame 0 2 (ip_destination a) (w.(w_udp) a q) [] Hd ltac:(unfold uint; lia) Hlen) as [_ Hf].
        by rewrite app_nil_r in Hf.
    - exists (to_be 2 (Z.of_nat (length q)) ++ q), (to_be 2 (Z.of_nat (length (w.(w_udp) a q))) ++ w.(w_udp) a q). split_and!.
      + unfold try_uint. replace ((0 <=? Z.of_nat (length q)) && (Z.of_nat (length q) <? 2 ^ 16)) with true
          by (symmetry; apply andb_true_iff; split; [apply Z.leb_le|apply Z.ltb_lt]; lia). done.
      + destruct (vless_server_request user id Udp (ip_destination a) (to_be 2 (Z.of_nat (length q)) ++ q) Huser Hid Hd) as [_ ->].
        by rewrite serve_udp_answers.
      + exists None. pose proof (read_sized_datagram (w.(w_udp) a q) [] Hlen) as H. by rewrite app_nil_r in H. }
  destruct (vless_server_request user id (if xudp then Xudp else Udp) (ip_destination a) b Huser Hid Hd) as [Hok _].
  fold request in Hok. unfold write_to. rewrite Hok. cbn [mbind result_bind]. unfold send, opened. cbn [peer conn_written conn_taken app].
  rewrite (read_from_Ok read_response _ _ _ tt reply) by (rewrite Hs; apply read_hello). cbn [mbind result_bind].
  rewrite (read_from_Ok (read_datagram xudp) _ _ _ (from, w.(w_udp) a q) []); [done|].
  rewrite Hs, drop_rest. exact Hread.
Qed.

Lemma stream_answered a q answer : encodable (ip_destination a) → w.(w_tcp) (ip_destination a) = Ok (dns_over_tcp answer) →
  Z.of_nat (length q) ≤ 65535 → Z.of_nat (length (answer q)) ≤ 65535 →
  (c ← connect_tcp_inner net rt tag a; exchange_stream c q) = Ok (answer q).
Proof.
  intros Hd Ht Hq Ha. destruct (frame_fits q Hq) as [b Hb]. destruct (frame_fits (answer q) Ha) as [r Hr].
  assert (Hanswer : dns_over_tcp answer b = r).
  { unfold dns_over_tcp. pose proof (read_frame_frame q b [] Hb) as H. rewrite app_nil_r in H. rewrite H. by rewrite Hr. }
  unfold connect_tcp_inner, connect_tcp_destination. rewrite Hdial. cbn [context mbind result_bind connect_stream].
  rewrite Hserver. cbn [mbind result_bind].
  destruct (vless_server_request user id Tcp (ip_destination a) [] Huser Hid Hd) as [Hok Hs0].
  destruct (vless_server_request user id Tcp (ip_destination a) b Huser Hid Hd) as [_ Hs]. rewrite Ht in Hs0, Hs.
  rewrite Hanswer in Hs. rewrite app_nil_r in Hs0. change (dns_over_tcp answer []) with ([] : bytes) in Hs0.
  unfold write_to, write_request. rewrite Hok. cbn [mbind result_bind]. unfold send at 1, opened. cbn [peer conn_written conn_taken app].
  rewrite (read_from_Ok read_response _ _ _ tt []) by (rewrite Hs0; done). cbn [mbind result_bind].
  unfold exchange_stream. rewrite Hb. cbn [mbind result_bind]. unfold send. cbn [peer conn_written conn_taken].
  rewrite (read_from_Ok read_frame _ _ _ (answer q) []); [done|]. rewrite Hs0, Hs. cbn [length Nat.sub app drop].
  pose proof (read_frame_frame (answer q) r [] Hr) as H. by rewrite app_nil_r in H.
Qed.

(** C39: a DNS query through a VLESS detour gets the answer of its DNS server: the
    request and the query that the provider writes are read by the VLESS server as a
    request of the user and one datagram to the DNS server, and what comes back
    through the server's relay is returned, by datagram with or without XUDP, and by a
    stream when the server's type asks for it or the datagram was truncated. *)
Theorem detour_query_answered resolve tls io kind name server port path e a q answer :
  kind_in kind [""; "udp"; "tcp"]%string = true → tag ≠ [] →
  resolve e = Ok a → reaches a q →
  w.(w_tcp) (ip_destination a) = Ok (dns_over_tcp answer) → Z.of_nat (length (answer q)) ≤ 65535 →
  upstream_query (detour_io net rt resolve tls io) true
    (mkUpstream (mkServer kind name server port path (Some tag)) (Some e) (Some e)) q
  = Ok (if str_eqb kind (lit "tcp") || truncated (w.(w_udp) a q) then answer q else w.(w_udp) a q).
Proof.
  intros Hk Htag He Hr Ht Ha. pose proof Hr as (Hd & _ & _ & Hq & _).
  assert (Hu : (a0 ← resolve e; exchange_udp_inner net rt tag a0 q) = Ok (w.(w_udp) a q))
    by (rewrite He; by apply exchange_udp_answered).
  assert (Hs : (a0 ← resolve e; c ← connect_tcp_inner net rt tag a0; c ← (if false then tls e c else Ok c); exchange_stream c q) = Ok (answer q))
    by (rewrite He; by apply stream_answered).
  assert (Hkind : kind = lit "" ∨ kind = lit "udp" ∨ kind = lit "tcp").
  { unfold kind_in in Hk. cbn [existsb] in Hk. rewrite !orb_true_iff, !str_eqb_eq in Hk. naive_solver. }
  unfold upstream_query. cbn [u_config ds_detour endpoint]. destruct tag as [|t0 tag'] eqn:Etag; [done|]. rewrite <- Etag in *.
  cbn [andb context mbind result_bind]. unfold query_via_detour. cbn [ds_detour ds_type context mbind result_bind detour_io io_detour_udp io_detour_stream].
  destruct Hkind as [-> |[-> | ->]].
  - change (kind_in (lit "") [""; "udp"]%string) with true. cbn iota. rewrite Hu. cbn [mbind result_bind].
    change (str_eqb (lit "") (lit "tcp")) with false. cbn [orb]. by destruct (truncated _).
  - change (kind_in (lit "udp") [""; "udp"]%string) with true. cbn iota. rewrite Hu. cbn [mbind result_bind].
    change (str_eqb (lit "udp") (lit "tcp")) with false. cbn [orb]. by destruct (truncated _).
  - change (kind_in (lit "tcp") [""; "udp"]%string) with false. change (str_eqb (lit "tcp") (lit "tcp")) with true. cbn iota. exact Hs.
Qed.

End detour.

End answers.

(** ** Probes and corner cases *)

Section probes.
Context `{U : UuidLib} `{AL : AnyTlsLib} `{UrlLib} {A X : Type}.
Context (net : Net (AnyTlsClient := A) (XhttpClient := X)) (rt : Runtime (AnyTlsClient := A) (XhttpClient := X)).

(** The stream of a probe or a detour begins where its dialer sends it: a VLESS
    server reads the destination of the URL from the front of it. *)
Lemma connect_stream_vless {UL : UuidLaws U} users user id client p refusal d c :
  net.(n_xhttp) client = Ok p → user ∈ users → uuid_parse user = Some id → encodable d →
  connect_stream net refusal (VlessDialer client user false) d = Ok c →
  ∀ rest, serve users (c.(conn_written) ++ rest) = Ok (mkRequest Tcp d, [0; 0], rest).
Proof.
  intros Hp Hu Hid Hd Hc rest. cbn [connect_stream] in Hc. rewrite Hp in Hc. cbn [mbind result_bind] in Hc.
  unfold write_to, write_request in Hc. destruct (serve_request_bytes users user id Tcp d rest Hu Hid Hd) as [Hw Hs]. rewrite Hw in Hc.
  cbn [mbind result_bind] in Hc. apply bind_Ok in Hc as ([[] c'] & Hr & Hc). injection Hc as <-.
  unfold read_from in Hr. apply bind_Ok in Hr as ([[] tail] & _ & Hr). injection Hr as <-. exact Hs.
Qed.

Lemma probe_delay_Some elapsed dialer url delay : probe_delay net elapsed dialer url = Some delay →
  delay = Z.min (elapsed / 10 ^ 6) 65535 ∧
  ∃ u host c, web_parse url = Some u ∧ web_host u = Some host ∧ connect_for_probe net dialer u = Ok c ∧
    incoming (send (probe_request u host) c) ≠ [].
Proof.
  unfold probe_delay. intros Hp. destruct (web_parse url) as [u|]; [|done]. cbn [mbind option_bind] in Hp.
  destruct (web_host u) as [host|] eqn:Hh; [|done]. cbn [mbind option_bind] in Hp.
  destruct (connect_for_probe net dialer u) as [c| | |] eqn:Hc; try done. cbn [result_ok mbind option_bind] in Hp.
  destruct (read_from _ _) as [r| | |] eqn:Hr; try done. cbn [result_ok mbind option_bind] in Hp. injection Hp as <-.
  split; [done|]. exists u, host, c. split_and!; [done..|]. intros E. unfold read_from in Hr. rewrite E in Hr. done.
Qed.

(** A URL test measures its members and nothing else: it selects a member whose
    probe was answered, or keeps its selection, and a member that is a group that
    leads nowhere, or blocks, is never measured. *)
Theorem url_test_selects_probed checks elapsed g g' :
  url_test_round net rt checks elapsed g = Ok g' → g'.(selected) = g.(selected) ∨
  ∃ url turn dialer delay, url_test_group g = Some url ∧ g'.(selected) ∈ g.(members) ∧
    dialer_for rt g'.(selected) = Some dialer ∧ probe_delay net (elapsed turn) dialer url = Some delay ∧
    dialer ≠ Block ∧ ∀ i, dialer ≠ GroupDialer i.
Proof.
  unfold url_test_round. destruct (url_test_group g) as [url|]; [|intros [= <-]; by left].
  unfold run_url_test. intros Hrun. apply bind_Ok in Hrun as (best & Hbest & Hg). injection Hg as <-.
  destruct best as [[tag delay]|]; [|by left]. unfold select. destruct (existsb (str_eqb tag) (members g)) eqn:He; [|by left].
  right. cbn [fst selected].
  assert (Hm : ∀ ms turn best r, test_loop checks (λ _ m, dialer_for rt m) (λ t d, probe_delay net (elapsed t) d url) (tolerance g) turn ms best = Ok (Some r) →
    best = Some r ∨ ∃ t d, dialer_for rt r.1 = Some d ∧ probe_delay net (elapsed t) d url = Some r.2).
  { clear. induction ms as [|m ms IH]; intros turn best r; cbn [test_loop]; [intros [= ->]; by left|].
    destruct (dialer_for rt m) as [d|] eqn:Hd; cbn [mbind option_bind]; [|apply IH].
    destruct (probe_delay net (elapsed turn) d url) as [delay|] eqn:Hp; [|apply IH]. intros Hr.
    assert (Hnew : ∀ b, (b = Some (m, delay) ∨ b = best) → (b = Some r ∨ ∃ t d, dialer_for rt r.1 = Some d ∧ probe_delay net (elapsed t) d url = Some r.2) →
      best = Some r ∨ ∃ t d, dialer_for rt r.1 = Some d ∧ probe_delay net (elapsed t) d url = Some r.2).
    { intros b [->| ->] [Hb|Hb]; [|by right|by left|by right]. injection Hb as <-. right. by exists turn, d. }
    destruct best as [[bt bd]|]; [apply bind_Ok in Hr as (sum & _ & Hr)|]; apply IH in Hr; eapply Hnew; [|exact Hr| |exact Hr].
    - destruct (bd <=? sum); [by right|by left].
    - by left. }
  destruct (Hm _ _ _ _ Hbest) as [?|(turn & d & Hd & Hp)]; [done|]. cbn [fst snd] in Hd, Hp.
  exists url, turn, d, delay. split_and!; [done| |done|done| |].
  - apply existsb_exists in He as (x & Hx%list_elem_of_In & ->%str_eqb_eq). done.
  - intros ->. apply probe_delay_Some in Hp as (_ & u & host & c & _ & _ & Hc & _). unfold connect_for_probe in Hc.
    apply bind_Ok in Hc as (h & _ & Hc). apply bind_Ok in Hc as (port & _ & Hc). done.
  - intros i ->. apply probe_delay_Some in Hp as (_ & u & host & c & _ & _ & Hc & _). unfold connect_for_probe in Hc.
    apply bind_Ok in Hc as (h & _ & Hc). apply bind_Ok in Hc as (port & _ & Hc). done.
Qed.

(** A probe speaks plain HTTP whatever the scheme of its URL is: over a direct
    connection the first bytes are those of the request. *)
Lemma probe_without_tls elapsed u url host port p :
  web_parse url = Some u → web_host u = Some host → web_port u = Some port →
  net.(n_direct) (Domain host port) = Ok p → p (probe_request u host) ≠ [] →
  probe_delay net elapsed Direct url = Some (Z.min (elapsed / 10 ^ 6) 65535).
Proof.
  intros Hu Hh Hpt Hd Hp. unfold probe_delay. rewrite Hu. cbn [mbind option_bind]. rewrite Hh. cbn [mbind option_bind].
  unfold connect_for_probe. rewrite Hh, Hpt. cbn [context mbind result_bind connect_stream]. rewrite Hd. cbn [fmap result_fmap result_ok mbind option_bind].
  unfold read_from, incoming, send, opened. cbn [peer conn_written conn_taken app drop].
  destruct (p (probe_request u host)); done.
Qed.

End probes.

(** A datagram of the target that arrives when one byte of a length is read drops
    that byte: the client's next datagram is cut at the wrong place. *)
Theorem half_length_lost :
  let datagram := to_be 2 3 ++ [7; 8; 9] in
  udp_run (λ _, true) udp_init (UByte <$> datagram) = Some (Ok (mkUdp [] [[7; 8; 9]] [])) ∧
  udp_run (λ _, true) udp_init ((UByte <$> take 1 datagram) ++ [UDatagram [1]] ++ (UByte <$> drop 1 datagram)) =
    Some (Ok (mkUdp [3; 7; 8; 9] [] (to_be 2 1 ++ [1]))).
Proof. by vm_compute. Qed.

Module DetourSamples.

#[local] Existing Instance UuidExample.lib.
#[local] Existing Instance UuidExample.laws.

#[local] Instance no_anytls : AnyTlsLib := Build_AnyTlsLib (λ _, Err "") (Domain [] 0) (λ _ _, Err "") (λ _ _ _, Err "") (λ _, fail "").

Definition dns : SocketAddr := mkSocketAddr (V4 0x08080808) 53.
(** A server that truncates its datagrams. *)
Definition world : World :=
  mkWorld (λ _, Some dns) (λ _, true) (λ _, Ok (dns_over_tcp (λ q, q ++ [99]))) (λ _ q, take 2 q ++ [2]).
Definition tag : str := lit "out".
Definition runtime : Runtime (AnyTlsClient := unit) (XhttpClient := unit) :=
  mkRuntime {[ tag := VlessDialer tt UuidExample.user true ]} ∅ ∅.
Definition net : Net (AnyTlsClient := unit) (XhttpClient := unit) :=
  mkNet (λ _, Ok (vless_server [UuidExample.user] world)) (λ _ _, Err "") (λ _ _, Err "") (λ _, Err "") (λ _, None).

Lemma detour_query_answered_witness :
  upstream_query (detour_io net runtime (λ _, Ok dns) (λ _ _, Err "") (mkIo (λ _ _, Err "") (λ _ _, Err "") (λ _ _, Err "") (λ _ _ _, Err "") (λ _ _ _ _, Err "")))
    true (mkUpstream (mkServer (lit "udp") (lit "d") (Some (lit "8.8.8.8")) None None (Some tag)) (Some (mkEndpoint (lit "8.8.8.8") 53))
            (Some (mkEndpoint (lit "8.8.8.8") 53))) [1; 2; 3]
  = Ok [1; 2; 3; 99].
Proof.
  rewrite (detour_query_answered [UuidExample.user] world net runtime tag tt UuidExample.user UuidExample.id true
             ltac:(done) ltac:(done) ltac:(by left) ltac:(by vm_compute) _ _ _ (lit "udp") _ _ _ _ _ dns _ (λ q, q ++ [99]));
    [by vm_compute|by vm_compute|done|done| |done|by vm_compute].
  split_and!; by vm_compute.
Defined.

End DetourSamples.
