(* ===== verification/TunRun.v ===== *)
(** * The TUN inbound at work (src/src/tun.rs)

    The configuration a TUN inbound starts with (the rule-sets' networks, the addresses
    of the proxy's own servers, the physical interface), and the task that puts the
    networks of updated rule-sets in the place of the old ones: first the routes of
    TunRoutes.v, then the nftables sets of TunRedirect.v. *)

From S2P Require Import Prelude RustStr Net Util Routing DnsCache DnsTransport DnsResolver Config UdpNat Tun TunRoutes TunRedirect Download.

(** ** Addresses of the proxy's servers *)

Section bypass.
Context `{UrlLib}.

Definition endpoint_host (value : str) : option str :=
  match web_parse value with
  | Some url => web_host url
  | None => Some (trim_matches (λ c, (c =? 91) || (c =? 93)) value)
  end.

Definition dns_port (s : DnsServer) : Z :=
  default (if str_eqb s.(ds_type) (lit "tls") then 853 else if str_eqb s.(ds_type) (lit "https") then 443 else 53)
    s.(ds_port).

Definition endpoints (outbounds : list OutboundConfig) (dns : option DnsConfig) : list (str * Z) :=
  omap (λ o, server ← o.(out_server); Some (server, default 443 o.(out_server_port))) outbounds ++
  match dns with
  | Some dns => omap (λ s, host ← s.(ds_server) ≫= endpoint_host; Some (host, dns_port s)) dns.(c_servers)
  | None => []
  end.

(** [Ord for IpAddr]: IPv4 first, then by value. *)
Definition ip_le (a b : IpAddr) : bool :=
  match a, b with
  | V4 x, V4 y | V6 x, V6 y => x <=? y
  | V4 _, V6 _ => true
  | V6 _, V4 _ => false
  end.

Fixpoint dedup_ips (l : list IpAddr) : list IpAddr :=
  match l with
  | x :: l =>
    match l with
    | y :: _ => if bool_decide (x = y) then dedup_ips l else x :: dedup_ips l
    | [] => [x]
    end
  | [] => []
  end.

(** The addresses of an endpoint: [lookup] is the system's. *)
Definition endpoint_addresses (lookup : str → Z → option (list IpAddr)) (e : str * Z) : list IpAddr :=
  match parse_ip e.1 with Some ip => [ip] | None => default [] (lookup e.1 e.2) end.

Definition collect_bypass_addresses (lookup : str → Z → option (list IpAddr)) (outbounds : list OutboundConfig)
    (dns : option DnsConfig) : list IpAddr :=
  dedup_ips (sort_by ip_le (concat (map (endpoint_addresses lookup) (endpoints outbounds dns)))).

End bypass.

(** ** The start *)

Section run.
Context `{N : IpNetLib} `{R : RegexLib} `{UL : UrlLib}.

Definition with_bypass (c : TunConfig) (l : list IpAddr) : TunConfig :=
  mkTun c.(t_interface_name) c.(mtu) c.(addresses) c.(stack) c.(auto_route) c.(auto_redirect) c.(strict_route) c.(route_addresses)
    c.(route_exclude_addresses) c.(route_include_active) c.(route_exclude_active) c.(include_interfaces) c.(exclude_interfaces)
    c.(include_uids) c.(exclude_uids) c.(include_uid_ranges) c.(exclude_uid_ranges) c.(table_index) c.(rule_index)
    c.(redirect_input_mark) c.(redirect_output_mark) c.(include_macs) c.(exclude_macs) l c.(t_udp_timeout) c.(udp_mapping)
    c.(udp_filtering) c.(udp_nat_max).

(** [extend], [sort_by_key(ToString::to_string)] and [dedup] *)
Definition extend_networks (own loaded : list IpNet) : list IpNet :=
  Routing.dedup (foldr (insert_net (λ a b, str_le (ipnet_print a) (ipnet_print b))) [] (own ++ loaded)).

Definition with_networks (c : TunConfig) (include exclude : list IpNet) : TunConfig :=
  with_routes c (extend_networks c.(route_addresses) include) (extend_networks c.(route_exclude_addresses) exclude).

Definition has_address_sets (i : Inbound) : bool :=
  negb (is_nil i.(route_address_set)) || negb (is_nil i.(route_exclude_address_set)).

(** The configuration [run] installs; [load] is [load_rule_set_ip_cidrs]. *)
Definition start_config (meminfo : option str) (lookup : str → Z → option (list IpAddr)) (load : list str → result (list IpNet))
    (i : Inbound) (outbounds : list OutboundConfig) (dns : option DnsConfig) : result TunConfig :=
  c ← from_inbound meminfo i;
  let c := if c.(auto_redirect) then with_bypass c (collect_bypass_addresses lookup outbounds dns) else c in
  if has_address_sets i then
    include ← load i.(route_address_set);
    exclude ← load i.(route_exclude_address_set);
    Ok (with_networks c include exclude)
  else Ok c.

(** The interface that direct connections leave by is found before the device takes the
    default route; [detected] is what [linux_route::default_interface] finds. *)
Definition start_route (route : RouteConfig) (detected : option str) : result RouteConfig :=
  match route.(default_interface), route.(auto_detect_interface) with
  | Some _, _ | None, Some false => Ok route
  | None, _ =>
    interface ← context detected "detect physical default interface before starting TUN";
    Ok (mkRouteConfig route.(config_rules) route.(config_rule_set) route.(config_final) (Some false) (Some interface)
          route.(default_mark) route.(default_network_strategy) route.(default_fallback_delay) route.(default_http_client)
          route.(config_domain_resolver))
  end.

(** ** Updates *)

Definition parse_update_interval (value : str) : Z :=
  let '(digits, unit) := span_decimal value in
  let amount := default 60 (parse_uint 64 digits) in
  if str_eqb unit (lit "ms") then amount * millis
  else if str_eqb unit (lit "s") || str_eqb unit [] then amount * secs
  else if str_eqb unit (lit "m") then saturating_mul_u64 amount 60 * secs
  else if str_eqb unit (lit "h") then saturating_mul_u64 amount 3600 * secs
  else if str_eqb unit (lit "d") then saturating_mul_u64 amount 86400 * secs
  else 60 * secs.

(** [Iterator::min] *)
Definition minimum (l : list Z) : option Z :=
  match l with [] => None | x :: l => Some (fold_left Z.min l x) end.

Definition updater_interval (route : RouteConfig) (include_tags exclude_tags : list str) : Z :=
  Z.max secs
    (default (60 * secs)
       (minimum (map parse_update_interval
          (omap set_update_interval
             (List.filter (λ s, existsb (str_eqb s.(set_tag)) include_tags || existsb (str_eqb s.(set_tag)) exclude_tags)
                route.(config_rule_set)))))).

Context `{I : IpRoute}.

(** The device: what the kernel has, the routes of the guard, the nftables rules. *)
Record Device := mkDevice {
  d_kernel : Kernel;
  d_installed : list IpAction;
  d_nft : Ruleset;
}.

(** The task's arguments. *)
Record Updater := mkUpdater {
  base_config : TunConfig;
  static_include : list IpNet;
  static_exclude : list IpNet;
  include_tags : list str;
  exclude_tags : list str;
}.

(** One turn of the loop: the router when the included networks are read, the router when
    the excluded ones are (the rule-sets may be replaced in between), and whether nft takes
    the script, which it runs whole or not at all. *)
Record Turn := mkTurn { t_include : Router; t_exclude : Router; t_nft : bool }.

(** The configuration of a round, or the error of loading the rule-sets. *)
Definition refreshed (u : Updater) (t : Turn) : result TunConfig :=
  include ← rule_set_ip_cidrs t.(t_include) u.(include_tags);
  exclude ← rule_set_ip_cidrs t.(t_exclude) u.(exclude_tags);
  Ok (with_routes u.(base_config) (extend_networks u.(static_include) include) (extend_networks u.(static_exclude) exclude)).

(** Routes first, sets after them.  A device without automatic routes has neither. *)
Definition apply_routes (next : TunConfig) (d : Device) : Device * result unit :=
  if next.(auto_route) then
    let '(k, installed, r) := TunRoutes.replace d.(d_kernel) d.(d_installed) next in
    (mkDevice k installed d.(d_nft), r)
  else (d, Ok tt).

Definition apply_sets (nft_ok : bool) (next : TunConfig) (d : Device) : Device * result unit :=
  if next.(auto_redirect) then
    if nft_ok then (mkDevice d.(d_kernel) d.(d_installed) (run_lines d.(d_nft) (replace_lines next)), Ok tt)
    else (d, Err "nft")
  else (d, Ok tt).

Definition apply_config (nft_ok : bool) (next : TunConfig) (d : Device) : Device * result unit :=
  let '(d, r) := apply_routes next d in
  match r with Ok _ => apply_sets nft_ok next d | r => (d, r) end.

(** One turn of the loop of [run_rule_set_updater]; errors are logged. *)
Definition updater_round (u : Updater) (d : Device) (turn : Turn) : Device :=
  match refreshed u turn with
  | Ok next => (apply_config turn.(t_nft) next d).1
  | _ => d
  end.

Definition updater_rounds (u : Updater) (turns : list Turn) (d : Device) : Device :=
  fold_left (updater_round u) turns d.

End run.

(** ** The networks of a configuration *)

Section networks.
Context `{N : IpNetLib}.

Lemma elem_of_dedup x l : x ∈ Routing.dedup l ↔ x ∈ l.
Proof.
  induction l as [|y l IH]; [done|]. cbn [Routing.dedup]. destruct l as [|z l]; [done|].
  case_bool_decide as E; [subst z|]; rewrite ?elem_of_cons in *; rewrite ?IH; naive_solver.
Qed.

Lemma elem_of_insert_net le x y l : x ∈ insert_net le y l ↔ x = y ∨ x ∈ l.
Proof.
  induction l as [|z l IH]; cbn [insert_net]; [set_solver|]. destruct (le y z); [set_solver|].
  rewrite elem_of_cons, IH. set_solver.
Qed.

Lemma elem_of_sorted le x l : x ∈ foldr (insert_net le) [] l ↔ x ∈ l.
Proof. induction l as [|y l IH]; cbn [foldr]; [done|]. rewrite elem_of_insert_net, IH. by rewrite elem_of_cons. Qed.

(** Sorting and removing neighbours that are equal loses and adds nothing. *)
Lemma elem_of_extend x own loaded : x ∈ extend_networks own loaded ↔ x ∈ own ∨ x ∈ loaded.
Proof. unfold extend_networks. by rewrite elem_of_dedup, elem_of_sorted, elem_of_app. Qed.

End networks.

(** ** Routes and sets in step *)

Section in_step.
Context `{N : IpNetLib} `{R : RegexLib} `{I : IpRoute} `{L : !IpRouteLaws I} `{NF : NftLib} `{K : !NftKernel}.
Context (u : Updater) (local : list str) (outside : gset object).
Context (Hdeletes : deletes_work) (Hsteady : steady).

(** A configuration the device had: that of the start, or of a round. *)
Definition was_config (turns : list Turn) (c : TunConfig) : Prop :=
  c = u.(base_config) ∨ ∃ turn, turn ∈ turns ∧ refreshed u turn = Ok c.

(** A ruleset with the rules and the sets of a configuration. *)
Definition has_rules (c : TunConfig) (r : Ruleset) : Prop :=
  has_sets c local r ∧ ∀ ch, r.(r_chain) ch = omap (rule_of ch) (nft_rules c).

Definition device_ok (turns : list Turn) (d : Device) (c c' : TunConfig) : Prop :=
  was_config turns c ∧ was_config turns c' ∧ build_actions c = Ok d.(d_installed) ∧
  owns outside d.(d_kernel) d.(d_installed) ∧ has_rules c' d.(d_nft) ∧
  (Forall (λ t, t.(t_nft) = true) turns → c' = c).

Lemma refreshed_routes t c : refreshed u t = Ok c → ∃ i e, c = with_routes u.(base_config) i e.
Proof. unfold refreshed. intros H. inv_ok. by eexists _, _. Qed.

Lemma was_config_routes turns c : was_config turns c → ∃ i e, c = with_routes u.(base_config) i e.
Proof.
  intros [->|(t & _ & H)]; [|by eapply refreshed_routes].
  exists u.(base_config).(route_addresses), u.(base_config).(route_exclude_addresses). by destruct (base_config u).
Qed.

Lemma was_config_snoc turns t c : was_config turns c → was_config (turns ++ [t]) c.
Proof. intros [->|(t' & Ht & H)]; [by left|]. right. exists t'. split; [apply elem_of_app; by left|done]. Qed.

(** Replacing the sets gives the rules of the new configuration. *)
Lemma replace_rules i e i' e' r :
  has_rules (with_routes u.(base_config) i e) r →
  has_rules (with_routes u.(base_config) i' e') (run_lines r (replace_lines (with_routes u.(base_config) i' e'))).
Proof.
  intros [Hs Hc]. split.
  - intros kind ipv6. rewrite run_lines_sets, Hs. unfold replace_lines, both.
    rewrite !fold_left_app, !set_after_replace. by destruct kind, ipv6.
  - intros ch. rewrite run_lines_chain, Hc.
    assert (Ha : ∀ k v l, omap (rule_of ch) (replace_address_set k v l) = []) by (intros k v l; unfold replace_address_set; by destruct l).
    unfold replace_lines, both. by rewrite !omap_app, !Ha, !app_nil_r.
Qed.

Lemma device_ok_snoc turns t d c c' : device_ok turns d c c' → device_ok (turns ++ [t]) d c c'.
Proof.
  intros (H1 & H2 & H3 & H4 & H5 & H6). split_and!; [by apply was_config_snoc..|done|done|done|].
  intros Hall. apply H6. by apply Forall_app in Hall as [? _].
Qed.

Lemma updater_round_ok turns t d c c' :
  u.(base_config).(auto_route) = true → u.(base_config).(auto_redirect) = true →
  device_ok turns d c c' → ∃ c1 c1', device_ok (turns ++ [t]) (updater_round u d t) c1 c1'.
Proof.
  intros Hroute Hredirect Hok. pose proof (device_ok_snoc _ t _ _ _ Hok) as Hkeep. unfold updater_round.
  destruct (refreshed u t) as [next|e| |] eqn:Hn; [|by eauto..].
  destruct (refreshed_routes _ _ Hn) as (i & e & Hnext).
  assert (Hwas : was_config (turns ++ [t]) next) by (right; exists t; split; [apply elem_of_app; right; by left|done]).
  unfold apply_config, apply_routes. replace next.(auto_route) with true by (by rewrite Hnext).
  destruct Hok as (_ & Hc' & Hb & Ho & Hr & _). assert (H := replace_owns outside _ _ next Hdeletes Hsteady Ho).
  destruct Hkeep as (K1 & K2 & K3 & K4 & K5 & K6).
  destruct (TunRoutes.replace _ _ next) as [[k installed] [[]|msg| |]].
  2-4: destruct H as [-> Hobj]; exists c, c'; split_and!; try done;
    destruct Ho as (Ek & Ho); split; [cbn [fst d_kernel d_installed]; by rewrite Hobj|done].
  destruct H as [Hplan Hown]. unfold apply_sets. replace next.(auto_redirect) with true by (by rewrite Hnext).
  destruct t.(t_nft) eqn:Et; cbn [fst].
  - exists next, next. split_and!; try done. cbn [d_nft].
    destruct (was_config_routes _ _ Hc') as (i' & e' & ->). subst next. by eapply replace_rules.
  - exists next, c'. split_and!; try done. intros Hall. apply Forall_app in Hall as [_ Hall]. apply Forall_cons in Hall as [Hall _]. by rewrite Hall in Et.
Qed.

Lemma updater_rounds_ok turns : ∀ past d c c',
  u.(base_config).(auto_route) = true → u.(base_config).(auto_redirect) = true → device_ok past d c c' →
  ∃ c1 c1', device_ok (past ++ turns) (updater_rounds u turns d) c1 c1'.
Proof.
  induction turns as [|t turns IH]; intros past d c c' Hroute Hredirect Hok; cbn [updater_rounds fold_left]; [rewrite app_nil_r; by eauto|].
  destruct (updater_round_ok past t d c c' Hroute Hredirect Hok) as (c1 & c1' & Hok1).
  destruct (IH _ _ _ _ Hroute Hredirect Hok1) as (c2 & c2' & Hok2). exists c2, c2'. by rewrite <- app_assoc in Hok2.
Qed.

End in_step.

(** C40: the routes and the redirection follow the rule-sets: after any number of
    rounds, whatever the rule-sets hold when the two lists are read, whether they can be
    loaded, and whichever additions and nft scripts fail, the kernel has, besides the
    objects of others, exactly the plan of one of the configurations (that of the start or
    of a round), and a packet is marked for the device exactly when one of them wants it;
    as long as nft has not failed, it is the same one.  Conditions: removing what was added never fails ([deletes_work]) and
    what could be added once can be added again ([steady]); a removal that fails ends
    [replace] early and may leave the plan of no configuration. *)
Theorem updates_in_step `{N : IpNetLib} `{R : RegexLib} `{I : IpRoute} `{L : !IpRouteLaws I} `{NF : NftLib} `{K : !NftKernel}
    (u : Updater) local k0 k installed turns :
  (∀ n ip, element_contains (ipnet_print n) ip = ipnet_contains n ip) →
  (∀ a ip, ip_ok a → element_contains (print_ip a) ip = bool_decide (a = ip)) →
  (∀ n ip, ipnet_contains n ip = true → is_ipv6 (ipnet_network n) = is_ipv6 ip) →
  deletes_work → steady →
  u.(base_config).(auto_route) = true → u.(base_config).(auto_redirect) = true →
  Forall ip_ok u.(base_config).(bypass_addresses) →
  TunRoutes.install k0 u.(base_config) = (k, Ok installed) →
  let d := updater_rounds u turns (mkDevice k installed (run_lines no_rules (nft_lines u.(base_config) local))) in
  ∃ c c', was_config u turns c ∧ was_config u turns c' ∧
    build_actions c = Ok d.(d_installed) ∧ objects d.(d_kernel) = (objects k0 ∖ objs installed) ∪ objs d.(d_installed) ∧
    (∀ ch p, mark_of d.(d_nft) ch p = if redirected ch c' local p then Some u.(base_config).(redirect_input_mark) else None) ∧
    (Forall (λ t, t.(t_nft) = true) turns → c' = c).
Proof.
  intros Hnet Hip Hfam Hdel Hst Hroute Hredirect Hby Hinst d. pose proof (install_spec k0 u.(base_config) Hdel Hst) as H.
  rewrite Hinst in H. destruct H as [Hplan Hown].
  assert (Hok : device_ok u local (objects k0 ∖ objs installed) [] (mkDevice k installed (run_lines no_rules (nft_lines u.(base_config) local)))
    u.(base_config) u.(base_config)).
  { split_and!; try done; try (by left). destruct (nft_lines_run u.(base_config) local) as [Hs Hc]. by split. }
  destruct (updater_rounds_ok u local _ Hdel Hst turns [] _ _ _ Hroute Hredirect Hok) as (c & c' & H1 & H2 & H3 & H4 & H5 & H6).
  cbn [app] in *. fold d in H3, H4, H5. exists c, c'. destruct H4 as (E & _). split_and!; try done. intros ch p.
  destruct (was_config_routes u turns c' H2) as (i & e & ->). destruct H5 as [Hs Hc].
  by rewrite (mark_of_redirected Hnet Hip Hfam (with_routes u.(base_config) i e) local).
Qed.

(** ** Concrete devices *)

Module TunRunSamples.

#[local] Existing Instance Literal.regex.

(** A router without rule-sets. *)
Definition no_rules_router : Router (N := Hosts.net) := mkRouter [] ∅ [] Routing.default_options None.

Definition updater : Updater (N := Hosts.net) :=
  mkUpdater (N := Hosts.net) Hosts.config [Hosts.address 5] [] [] [].

Definition start : Kernel (IpRoute := Table.kernel) * result (list IpAction) :=
  TunRoutes.install (N := Hosts.net) (I := Table.kernel) (∅ : gset object) Hosts.config.

Lemma start_installs : ∃ k installed, start = (k, Ok installed).
Proof.
  assert (H : match start.2 with Ok _ => true | _ => false end = true) by (vm_compute; reflexivity).
  destruct start as [k [installed| | |]]; [by eexists _, _|done..].
Qed.

(** The networks of the start came from rule-sets that are gone: the first round leaves
    the static ones. *)
Lemma updates_in_step_witness : ∃ k installed,
  let d := updater_rounds (N := Hosts.net) (I := Table.kernel) updater [mkTurn no_rules_router no_rules_router true; mkTurn no_rules_router no_rules_router true]
             (mkDevice (I := Table.kernel) k installed (run_lines no_rules (nft_lines (N := Hosts.net) Hosts.config []))) in
  ∃ c, build_actions (N := Hosts.net) c = Ok d.(d_installed (I := Table.kernel)) ∧
    mark_of (NF := Hosts.nft) d.(d_nft (I := Table.kernel)) Output (Hosts.packet 5 1000 0)
    = if redirected (NF := Hosts.nft) (N := Hosts.net) Output c [] (Hosts.packet 5 1000 0) then Some 8227 else None.
Proof.
  destruct start_installs as (k & installed & E). exists k, installed.
  destruct (updates_in_step (N := Hosts.net) (I := Table.kernel) (L := Table.laws) (NF := Hosts.nft) updater [] (∅ : gset object) k installed
    [mkTurn no_rules_router no_rules_router true; mkTurn no_rules_router no_rules_router true] Hosts.element_net Hosts.element_ip Hosts.net_family Table.works Table.stays)
    as (c & c' & _ & _ & Hp & _ & Hm & Hs).
  - reflexivity.
  - reflexivity.
  - repeat constructor; lia.
  - exact E.
  - exists c. split; [exact Hp|]. rewrite <- Hs by (by repeat constructor). apply Hm.
Defined.

#[local] Existing Instance Cidr.lib.

(** The 64 rules that an accepted inbound may need are counted without its rule-sets: a
    set with seventy excluded networks leaves the window. *)
Definition seventy : list (IpAddr * Z) := map (λ i, (V4 (2 ^ 24 * Z.of_nat i), 8)) (seq 1 70).

Theorem sets_leave_window :
  ∃ acts, build_actions (with_networks (Edge.accepted Edge.lan) [] seventy) = Ok acts ∧
    existsb (λ p, 9064 <=? p) (priorities (lit "-4") acts) = true.
Proof. eexists. split; [vm_compute; reflexivity|vm_compute; reflexivity]. Qed.

End TunRunSamples.
