(* ===== verification/Startup.v ===== *)
(** * The start of the proxy (src/src/proxy/mod.rs, src/src/dns/mod.rs)

    [build_runtime] as a whole: the resolver with the cache it finds on disk, the dialers,
    the rule-sets that are downloaded through them, the router; and the cache file of the
    resolver.  The lemmas say when the start succeeds for a configuration that passed
    validation. *)

From S2P Require Import Xmux Prelude RustStr Net Util Vless DnsCache Http Protocol Routing RoutingFacts DnsRule DnsTransport.
From S2P Require Import DnsResolver Config Tls Outbound Tun Validate Download Prefetch XhttpClient.

(** ** The cache file *)

(** [serde_json] on a snapshot of the cache. *)
Class CacheCodec := {
  cache_to_vec : list PersistentEntry → option bytes;
  cache_from_slice : bytes → option (list PersistentEntry);
}.

Class CacheCodecLaws (C : CacheCodec) := {
  cache_round_trip snap : ∃ b, cache_to_vec snap = Some b ∧ cache_from_slice b = Some snap;
}.

Section persistence.
Context `{C : CacheCodec} `{HI : !HashIter CacheKey CacheEntry}.

(** The first part of [start_persistence]; [now] is the wall clock, [instant] the clock of
    the cache.  The task it spawns calls [save_cache] every 60 seconds. *)
Definition start_persistence (disk : gmap str bytes) (path : str) (cache : DnsCache) (now instant : Z) : result DnsCache :=
  match b ← disk !! path; cache_from_slice b with
  | Some snapshot => restore cache snapshot now instant
  | None => Ok cache
  end.

(** [write_ok] is whether the file could be written. *)
Definition save_cache (write_ok : bool) (disk : gmap str bytes) (path : str) (cache : DnsCache) (now instant : Z)
    : result (gmap str bytes) :=
  snap ← snapshot cache now instant;
  match cache_to_vec snap with
  | Some b => Ok (if write_ok then <[path := b]> disk else disk)
  | None => Ok disk
  end.

(** What the last save of a process wrote the next process starts with: the entries that
    have not expired in between, under their keys and with the seconds they had left. *)
Theorem cache_survives_restart `{CL : !CacheCodecLaws C} s cap never disk path now instant now2 instant2 :
  wf s → u64 cap → Z.of_nat (size s.(entries)) ≤ cap →
  (∀ k e, s.(entries) !! k = Some e →
     u64 (now + secs_since e.(expires) instant) ∧
     instant2 + (now + secs_since e.(expires) instant - now2) * nanos < 2 ^ 63 * nanos) →
  ∃ disk' s2, save_cache true disk path s now instant = Ok disk' ∧
    start_persistence disk' path (DnsCache.new cap never) now2 instant2 = Ok s2 ∧ wf s2 ∧
    abstract_of s2 ≡ₚ omap (survives now instant now2 instant2) (abstract_of s).
Proof.
  intros Hwf Hcap Hsz Hb. destruct (restore_snapshot s cap never now instant now2 instant2 Hwf Hcap Hsz Hb) as (snap & s2 & Hs & Hr & Hw & Ha).
  destruct (cache_round_trip snap) as (b & Hto & Hfrom). unfold save_cache, start_persistence. rewrite Hs. cbn [mbind result_bind].
  rewrite Hto. eexists _, s2. split_and!; [done| |done|done]. rewrite lookup_insert_eq. cbn [mbind option_bind]. by rewrite Hfrom.
Qed.

End persistence.

(** *** A codec *)

Definition key_sum (k : PersistentKey) : (str * Z * option str * option str) + (bytes * str) + str :=
  match k with
  | PersistentLookup n q s c => inl (inl (n, q, s, c))
  | PersistentWireKey q s => inl (inr (q, s))
  | PersistentEch n => inr n
  end.

Definition sum_key (x : (str * Z * option str * option str) + (bytes * str) + str) : PersistentKey :=
  match x with
  | inl (inl (n, q, s, c)) => PersistentLookup n q s c
  | inl (inr (q, s)) => PersistentWireKey q s
  | inr n => PersistentEch n
  end.

Definition entry_sum (e : PersistentEntry) :=
  (key_sum e.(p_key), match e.(p_value) with PersistentAddresses l => inl l | PersistentWire b => inr b end, e.(expires_at)).

Definition sum_entry (x : ((str * Z * option str * option str) + (bytes * str) + str) * (list IpAddr + bytes) * Z) : PersistentEntry :=
  mkPersistent (sum_key x.1.1) (match x.1.2 with inl l => PersistentAddresses l | inr b => PersistentWire b end) x.2.

(** The laws can hold: an injective text for snapshots in the place of JSON. *)
#[local] Instance text_codec : CacheCodec := {|
  cache_to_vec snap := Some (Plain.code (map entry_sum snap));
  cache_from_slice b := match Plain.uncode b with Some l => Some (map sum_entry l) | None => None end;
|}.

#[local] Instance text_codec_laws : CacheCodecLaws text_codec.
Proof.
  split. intros snap. eexists. split; [reflexivity|]. cbn. rewrite Plain.uncode_code. f_equal.
  rewrite map_map. induction snap as [|[k v e] l IH]; [done|]. cbn [map]. rewrite IH. by destruct k, v.
Qed.

(** An entry that expires beyond the range of the clock, in a file that was damaged or
    written by hand, makes the start panic. *)
Example far_expiry_panics :
  let _ := key_order CacheKey CacheEntry in
  let file := default [] (cache_to_vec [mkPersistent (PersistentEch (lit "a")) (PersistentWire []) (2 ^ 64 - 1)]) in
  start_persistence {[lit "f" := file]} (lit "f") (DnsCache.new 8 false) 0 0 = Panic.
Proof. vm_compute. reflexivity. Qed.

(** ** The runtime *)

Section runtime.
Context `{N : IpNetLib} `{RX : RegexLib} `{H : HttpLib} `{T : TlsLib} `{R : !ReqwestLib} `{C : CacheCodec}.
Context `{HI : !HashIter CacheKey CacheEntry}.

Abbreviation XRuntime := (Runtime (AnyTlsClient := AnyTlsClient) (XhttpClient := Client)).

(** What the start takes from outside: files and certificates, the default interface,
    resolved names (blocking, and by [lookup_host]), random numbers, the cache of rule-sets and downloads through a dialer
    of the table, the environment variable [XHTTP_CLASH_MODE], the file of the DNS cache
    and the clocks. *)
Record Machine := mkMachine {
  m_host : Host;
  m_interface : option str;
  m_addrs : str → Z → result (list SocketAddr);
  m_lookup : str → Z → option (list IpAddr);
  m_draw : Z → Z → Z;
  m_draw' : Z → Z → Z;
  m_url_hash : str → Z;
  m_write : Files → Path → bytes → Files * bool;
  m_files : Files;
  m_env : Files → RuleSetEnv;
  m_fetch : XRuntime → str → str → option str → result (bytes * option str * bool);
  m_mode : option str;
  m_disk : gmap str bytes;
  m_now : Z;
  m_instant : Z;
}.

(** The groups are in the table, which also serves as the provider of detours. *)
Record ProxyRuntime := mkProxy {
  pr_table : XRuntime;
  pr_router : Router;
  pr_resolver : option (Inner * DnsCache);
  pr_output_mark : option Z;
  pr_clash_mode : option str;
}.

Definition machine_client (m : Machine) : ClientConfig → result Client :=
  client_new m.(m_host).(h_native) m.(m_host).(h_read) m.(m_draw) m.(m_draw').

(** The slot that the resolver shares with the router starts empty. *)
Definition build_resolver (m : Machine) (dns : option DnsConfig) (cache_path : option str) : result (option (Inner * DnsCache)) :=
  match dns with
  | None => Ok None
  | Some config =>
    '(inner, cache) ← with_rule_sets m.(m_host).(h_roots) m.(m_host).(h_http) config (Some ∅);
    cache ← match cache_path with
            | Some path => start_persistence m.(m_disk) path cache m.(m_now) m.(m_instant)
            | None => Ok cache
            end;
    Ok (Some (inner, cache))
  end.

Definition fill_slot (sets : gmap str (list CompiledRule)) (inner : Inner) : Inner :=
  mkInner inner.(servers) inner.(DnsResolver.rules) inner.(final_tag) inner.(cache_enabled) inner.(i_strategy) inner.(i_timeout)
    inner.(i_client_subnet) (Some sets).

Definition build_runtime (m : Machine) (outbounds : list OutboundConfig) (route : option RouteConfig) (dns : option DnsConfig)
    (http_clients : list HttpClientConfig) (cache_path : option str) : result ProxyRuntime :=
  let route_config := runtime_route m.(m_interface) route in
  resolver ← build_resolver m dns cache_path;
  table ← build_dialers m.(m_host) (machine_client m) m.(m_addrs) (is_some resolver) outbounds;
  '(files, prefetched) ← prefetch_rule_sets m.(m_url_hash) m.(m_write) (m.(m_fetch) table) m.(m_files) route_config http_clients;
  router ← compile_inner (m.(m_env) files) route_config (default_outbound outbounds) true (Some prefetched);
  Ok (mkProxy table router ((λ '(inner, cache), (fill_slot router.(router_rule_sets) inner, cache)) <$> resolver) None m.(m_mode)).

End runtime.

(** ** What was validated compiles *)

Section compile.
Context `{N : IpNetLib} `{RX : RegexLib}.

(** [sets'] has a rule-set under every tag that [sets] has one for. *)
Definition covers (sets sets' : gmap str (list CompiledRule)) : Prop := ∀ tag, is_Some (sets !! tag) → is_Some (sets' !! tag).

Lemma map_result_transfer {A B B'} (f : A → result B) (g : A → result B') l bs :
  (∀ a b, a ∈ l → f a = Ok b → ∃ b', g a = Ok b') → map_result f l = Ok bs → ∃ bs', map_result g l = Ok bs'.
Proof.
  revert bs. induction l as [|a l IH]; intros bs Hfg Hf; cbn [map_result] in *; [by eexists|].
  apply bind_Ok in Hf as (b & Hb & Hf). apply bind_Ok in Hf as (bs' & Hbs & _).
  destruct (Hfg a b) as [b' ->]; [by left|done|]. cbn [mbind result_bind].
  destruct (IH bs') as [l' ->]; [|done|by eexists]. intros x y Hx. apply Hfg. by right.
Qed.

(** Whether a rule compiles depends only on which rule-sets there are. *)
Lemma compile_covers sets sets' dec rule r : covers sets sets' → Routing.compile sets dec rule = Ok r →
  ∃ r', Routing.compile sets' dec rule = Ok r'.
Proof.
  intros Hcov. revert dec r. induction rule as [rule IH] using RouteRule_nested_ind. intros dec r Hc. rewrite Forall_forall in IH.
  destruct rule. cbn [Routing.compile Routing.r_rules] in *.
  destruct (_ || _ || _); [done|]. destruct (Routing.nonempty _); [done|].
  apply bind_Ok in Hc as (mode & -> & Hc). cbn [mbind result_bind].
  destruct (match mode with Some _ => _ | None => _ end); [done|]. apply bind_Ok in Hc as (act & -> & Hc). cbn [mbind result_bind].
  apply bind_Ok in Hc as (ss & Hs & Hc). apply (map_result_transfer _ (λ tag, context (sets' !! tag) "unknown route rule-set")) in Hs as [ss' ->].
  2: { intros tag b _ Hb. apply context_Ok in Hb. destruct (Hcov tag) as [b' ->]; [by exists b|by exists b']. }
  apply bind_Ok in Hc as (ns & Hn & Hc). apply (map_result_transfer _ (Routing.compile sets' false)) in Hn as [ns' ->]; [|intros a b Ha; by apply IH].
  cbn [mbind result_bind] in *.
  do 10 (apply bind_Ok in Hc as (? & -> & Hc); cbn [mbind result_bind]). by eexists.
Qed.

Lemma load_sets_covers env env' fetch fetch' p p' l : ∀ loaded loaded' sets,
  load_rule_sets env fetch p l loaded = Ok sets →
  (∀ set, set ∈ l → ∃ rules, load_rule_set env' fetch' p' set = Ok rules) → dom loaded = dom loaded' →
  ∃ sets', load_rule_sets env' fetch' p' l loaded' = Ok sets' ∧ dom sets = dom sets'.
Proof.
  induction l as [|set l IH]; intros loaded loaded' sets Hl Hall Hd; cbn [load_rule_sets] in *.
  { apply Ok_inj in Hl. subst. by exists loaded'. }
  apply bind_Ok in Hl as (rules & _ & Hl). destruct (Hall set) as [rules' ->]; [by left|]. cbn [mbind result_bind].
  case_bool_decide as Hdup; [done|]. rewrite bool_decide_false.
  - eapply IH; [exact Hl|intros x Hx; apply Hall; by right|by rewrite !dom_insert_L, Hd].
  - intros Hs. apply Hdup. apply elem_of_dom. rewrite Hd. by apply elem_of_dom.
Qed.

(** A router that compiled when the configuration was validated compiles when it runs, with
    the same rules, if every rule-set can be loaded then. *)
Lemma compile_runs env env' config config' first first' fetch fetch' p p' router :
  compile_inner env config first fetch p = Ok router →
  config'.(config_rules) = config.(config_rules) → config'.(config_rule_set) = config.(config_rule_set) →
  (∀ set, set ∈ config.(config_rule_set) → ∃ rules, load_rule_set env' fetch' p' set = Ok rules) →
  ∃ router', compile_inner env' config' first' fetch' p' = Ok router'.
Proof.
  intros Hc Er Es Hall. unfold compile_inner in *. apply bind_Ok in Hc as (sets & Hs & Hc). apply bind_Ok in Hc as (rules & Hr & _).
  destruct (load_sets_covers _ env' _ fetch' _ p' _ _ ∅ _ Hs Hall) as (sets' & Hs' & Hd); [done|]. rewrite Er, Es, Hs'. cbn [mbind result_bind].
  apply (map_result_transfer _ (Routing.compile sets' true)) in Hr as [rules' ->]; [by eexists|].
  intros rule r _. apply compile_covers. intros tag Ht. apply elem_of_dom. rewrite <-Hd. by apply elem_of_dom.
Qed.

End compile.

(** ** What was validated starts *)

Section starts.
Context `{N : IpNetLib} `{RX : RegexLib} `{H : HttpLib} `{HL : !HttpLaws H} `{T : TlsLib} `{R : !ReqwestLib} `{C : CacheCodec}.
Context `{U : UuidLib} `{A : PaddingLib} `{HI : !HashIter CacheKey CacheEntry}.
Context (m : Machine) (env : RuleSetEnv).

Definition empty_route : RouteConfig := mkRouteConfig [] [] None None None None None None None None.

(** The parts of a route that compiling and downloading look at. *)
Definition same_sources (r r' : RouteConfig) : Prop :=
  r'.(config_rules) = r.(config_rules) ∧ r'.(config_rule_set) = r.(config_rule_set) ∧ r'.(default_http_client) = r.(default_http_client).

(** What the start needs of the machine, beyond a configuration that is valid: names and
    HTTP clients, what [vless_ready] says of each VLESS outbound, rule-sets that load, a
    cache file that is not corrupt in a way that overflows the clock. *)
Record machine_ready (c : SingBoxConfig) (cache_path : option str) : Prop := mkMachineReady {
  ready_http : http_works;
  ready_native : native_ok m.(m_host).(h_native);
  ready_names : names_resolve m.(m_addrs);
  ready_vless : Forall (λ o, o.(out_type) = lit "vless" → vless_ready m.(m_host) m.(m_addrs) (is_some c.(s_dns)) o) c.(s_outbounds);
  ready_sets : ∀ table, let route := default empty_route c.(s_route) in
    ∃ files prefetched,
      prefetch_rule_sets m.(m_url_hash) m.(m_write) (m.(m_fetch) table) m.(m_files) route c.(s_http_clients) = Ok (files, prefetched) ∧
      ∀ set, set ∈ route.(config_rule_set) → ∃ rules, load_rule_set (m.(m_env) files) true (Some prefetched) set = Ok rules;
  ready_cache : ∀ path cap never, cache_path = Some path →
    ∃ cache, start_persistence m.(m_disk) path (DnsCache.new cap never) m.(m_now) m.(m_instant) = Ok cache;
}.

Lemma prefetch_same r r' fetch files clients : same_sources r r' →
  prefetch_rule_sets m.(m_url_hash) m.(m_write) fetch files r' clients = prefetch_rule_sets m.(m_url_hash) m.(m_write) fetch files r clients.
Proof. intros (_ & E2 & E3). unfold prefetch_rule_sets, download_detour, remote_sets. by rewrite E2, E3. Qed.

Lemma runtime_route_sources detected route : same_sources (default empty_route route) (runtime_route detected route).
Proof. unfold runtime_route. change (mkRouteConfig [] [] None None None None None None None None) with empty_route. by destruct (bool_decide _). Qed.

Lemma same_sources_trans r1 r2 r3 : same_sources r1 r2 → same_sources r2 r3 → same_sources r1 r3.
Proof. intros (E1 & E2 & E3) (F1 & F2 & F3). split_and!; congruence. Qed.

Lemma resolver_sets dns sets inner cache : with_rule_sets m.(m_host).(h_roots) m.(m_host).(h_http) dns None = Ok (inner, cache) →
  ∃ inner' cap never, with_rule_sets m.(m_host).(h_roots) m.(m_host).(h_http) dns (Some sets) = Ok (inner', DnsCache.new cap never).
Proof.
  unfold with_rule_sets. intros Hr. apply bind_Ok in Hr as (u1 & -> & Hr). apply bind_Ok in Hr as (u2 & -> & Hr). cbn [mbind result_bind].
  destruct (reverse_mapping dns); [done|]. destruct (is_some_and _ _); [done|].
  apply bind_Ok in Hr as (u3 & -> & Hr). apply bind_Ok in Hr as (t & -> & Hr). apply bind_Ok in Hr as (u4 & -> & Hr).
  apply bind_Ok in Hr as (ss & -> & Hr). apply bind_Ok in Hr as (ft & -> & Hr). cbn [mbind result_bind].
  destruct (ss !! ft); [|done]. apply bind_Ok in Hr as (rs & -> & Hr). apply bind_Ok in Hr as (u5 & -> & Hr). cbn [mbind result_bind].
  by do 3 eexists.
Qed.

(** The parts of [validate_runtime] that concern the router and the resolver. *)
Lemma validated_route_dns c : validate_runtime m.(m_host) env c = Ok tt →
  (∀ route, c.(s_route) = Some route → ∃ first router, compile_inner env route first false None = Ok router) ∧
  (∀ dns, c.(s_dns) = Some dns → ∃ r, with_rule_sets m.(m_host).(h_roots) m.(m_host).(h_http) dns None = Ok r).
Proof.
  unfold validate_runtime. intros Hv. apply bind_Ok in Hv as (n & _ & Hv). destruct (n =? 0); [done|].
  apply bind_Ok in Hv as (tags & _ & Hv). apply bind_Ok in Hv as (? & _ & Hv). apply bind_Ok in Hv as (? & _ & Hv).
  apply bind_Ok in Hv as (? & Hr & Hv). apply bind_Ok in Hv as (? & Hd & _). split.
  - intros route E. rewrite E in Hr. unfold validate_route in Hr. apply bind_Ok in Hr as (router & Hc & _). by eexists _, router.
  - intros dns E. rewrite E in Hd. unfold validate_dns in Hd. apply bind_Ok in Hd as (? & _ & Hd). apply bind_Ok in Hd as (? & _ & Hd).
    apply bind_Ok in Hd as (r & Hr' & _). by exists r.
Qed.

Lemma resolver_starts c path : validate_runtime m.(m_host) env c = Ok tt → machine_ready c path →
  ∃ resolver, build_resolver m c.(s_dns) path = Ok resolver ∧ is_some resolver = is_some c.(s_dns).
Proof.
  intros Hv Hm. apply validated_route_dns in Hv as [_ Hd]. unfold build_resolver. destruct c.(s_dns) as [dns|]; [|by eexists].
  destruct (Hd dns eq_refl) as [[inner cache] Hr]. destruct (resolver_sets dns ∅ _ _ Hr) as (inner' & cap & never & ->). cbn [mbind result_bind].
  destruct path as [p|]; [|by eexists]. destruct (ready_cache _ _ Hm p cap never eq_refl) as [cache' ->]. by eexists.
Qed.

(** The runtime of a validated configuration with a proxy inbound is built, whatever route
    with the same rules and rule-sets it is given, and every outbound is in its table. *)
Lemma runtime_starts c path route : validate_runtime m.(m_host) env c = Ok tt → has_proxy_inbound c = true → machine_ready c path →
  same_sources (default empty_route c.(s_route)) (runtime_route m.(m_interface) route) →
  ∃ rt, build_runtime m c.(s_outbounds) route c.(s_dns) c.(s_http_clients) path = Ok rt ∧
    ∀ o, o ∈ c.(s_outbounds) → is_Some (rt.(pr_table).(dialers) !! tag_of o).
Proof.
  intros Hv Hp Hm Hs. destruct (resolver_starts c path Hv Hm) as (resolver & Hres & Eres).
  assert (Hval := validate_runtime_spec _ _ _ Hv).
  destruct (validated_dialers m.(m_host) (machine_client m) m.(m_addrs) c Hval Hp) as [table Ht]; [|apply Hm|].
  { eapply Forall_impl; [apply (ready_vless _ _ Hm)|]. intros o Ho Et. apply (client_created m.(m_host) m.(m_addrs) m.(m_draw) m.(m_draw') (is_some c.(s_dns)) o); [apply Hm..| |done]. by apply Ho. }
  destruct (validated_table m.(m_host) (machine_client m) m.(m_addrs) c table Hval Ht) as [_ Hdom].
  destruct (ready_sets _ _ Hm table) as (files & prefetched & Hpre & Hload).
  assert (Hrouter : ∃ router, compile_inner (m.(m_env) files) (runtime_route m.(m_interface) route) (default_outbound c.(s_outbounds)) true (Some prefetched) = Ok router).
  { destruct Hs as (E1 & E2 & _). destruct (s_route c) as [r|] eqn:Er.
    - destruct (proj1 (validated_route_dns c Hv) r Er) as (first & router & Hc). by eapply compile_runs.
    - unfold compile_inner. rewrite E1, E2. by eexists. }
  destruct Hrouter as [router Hrouter]. unfold build_runtime. rewrite Hres. cbn [mbind result_bind]. rewrite Eres, Ht. cbn [mbind result_bind].
  rewrite (prefetch_same _ _ _ _ _ Hs), Hpre. cbn [mbind result_bind]. rewrite Hrouter. cbn [mbind result_bind].
  eexists. split; [done|]. cbn [pr_table]. intros o Ho. apply elem_of_dom. rewrite Hdom. apply elem_of_union_r, elem_of_list_to_set.
  by apply list_elem_of_fmap_2.
Qed.

End starts.
