(* ===== verification/Main.v ===== *)
(** * The program (src/src/main.rs) and what its tasks set up

    [load] and [run]: a configuration is read and validated, and every inbound becomes a
    task; [Server::new] and the start of [Server::run] (server.rs), and what the SOCKS and
    HTTP (proxy/inbound.rs), transparent (proxy/tproxy.rs), AnyTLS (anytls.rs), TUN (tun.rs)
    and Clash (clash.rs) tasks do before they accept connections.  The theorem says that a
    configuration that passed the check runs. *)

From S2P Require Import Xmux Prelude RustStr Net IpText Util Vless DnsCache Http Protocol Routing RoutingFacts DnsRule DnsTransport.
From S2P Require Import DnsResolver Config Tls Outbound UdpNat Tun Validate Download Prefetch XhttpClient TunRun Startup.

(** ** Socket addresses *)

Import IpParser.

(** [read_port] and [read_scope_id] of the standard library: any number of digits. *)
Definition read_port : parser Z := λ s, '(_, s) ← read_given_char c_colon s; read_number 10 (length s) true 16 s.
Definition read_scope_id : parser Z := λ s, '(_, s) ← read_given_char 37 s; read_number 10 (length s) true 32 s.

Definition read_socket_v4 : parser SocketAddr := λ s,
  '(a, s) ← read_ipv4_addr s; '(p, s) ← read_port s; Some (mkSocketAddr (V4 a) p, s).

Definition read_socket_v6 : parser SocketAddr := λ s,
  '(_, s) ← read_given_char 91 s;
  '(a, s) ← read_ipv6_addr s;
  let s := match read_scope_id s with Some (_, s) => s | None => s end in
  '(_, s) ← read_given_char 93 s;
  '(p, s) ← read_port s;
  Some (mkSocketAddr (V6 a) p, s).

(** [str::parse::<SocketAddr>] *)
Definition parse_socket_addr (s : str) : option SocketAddr :=
  match (match read_socket_v4 s with Some r => Some r | None => read_socket_v6 s end) with
  | Some (a, []) => Some a
  | _ => None
  end.







(** ** The XHTTP server *)

Record ServerTlsConfig := mkServerTls { st_certificate : str; st_private_key : str; st_http3 : bool }.

Record ServerConfig := mkServerConfig {
  sc_listen : str;
  sc_target : str;
  sc_users : list str;
  sc_transport : TransportConfig;
  sc_tls : option ServerTlsConfig;
}.

(** How the server listens: without TLS, with a certificate and key given as text or as
    names of files, or over QUIC with what was loaded. *)
Inductive Listener :=
  | PlainHttp
  | TlsPem (certificate key : bytes)
  | TlsFiles (certificate key : str)
  | Quic (certificate key : bytes).

Section server.
Context `{H : HttpLib} `{U : UuidLib}.

(** [Server::new] *)
Definition server_new (c : ServerConfig) : result ServerConfig :=
  transport ← validate c.(sc_transport);
  if is_nil c.(sc_target) && is_nil c.(sc_users) then Err "server requires target or VLESS users" else
  _ ← iter_result (λ user, _ ← context (uuid_parse user) "invalid VLESS user UUID"; Ok tt) c.(sc_users);
  Ok (mkServerConfig c.(sc_listen) c.(sc_target) c.(sc_users) transport c.(sc_tls)).

Definition begin_certificate : str := lit "BEGIN CERTIFICATE".

(** The start of [run_h3] *)
Definition h3_material (read_file : str → option bytes) (tls : ServerTlsConfig) : result Listener :=
  certificate ← (if contains begin_certificate tls.(st_certificate) then Ok tls.(st_certificate)
                 else context (read_file tls.(st_certificate)) "read certificate");
  key ← (if contains (lit "BEGIN") tls.(st_private_key) then Ok tls.(st_private_key)
         else context (read_file tls.(st_private_key)) "read private key");
  Ok (Quic certificate key).

(** The start of [Server::run] *)
Definition server_run (read_file : str → option bytes) (c : ServerConfig) : result (SocketAddr * Listener) :=
  address ← context (parse_socket_addr c.(sc_listen)) "invalid listen address";
  listener ← match c.(sc_tls) with
             | Some tls =>
               if tls.(st_http3) then h3_material read_file tls
               else if contains begin_certificate tls.(st_certificate)
               then Ok (TlsPem tls.(st_certificate) tls.(st_private_key))
               else Ok (TlsFiles tls.(st_certificate) tls.(st_private_key))
             | None => Ok PlainHttp
             end;
  Ok (address, listener).

End server.

Definition pem (lines : list str) : str :=
  let value := join [10] lines in if ends_with [10] value then value else value ++ [10].

(** ** The tasks *)

Section main.
Context `{N : IpNetLib} `{RX : RegexLib} `{H : HttpLib} `{T : TlsLib} `{R : !ReqwestLib} `{C : CacheCodec}.
Context `{U : UuidLib} `{A : PaddingLib} `{UL : UrlLib} `{HI : !HashIter CacheKey CacheEntry}.

(** Where a task gets its runtime from: the one that the controller sees, or its own. *)
Inductive Source := Shared (rt : ProxyRuntime) | Own.

Inductive Task :=
  | TunTask (i : Inbound)
  | TproxyTask (i : Inbound) (source : Source)
  | SocksTask (i : Inbound) (source : Source)
  | AnyTlsTask (i : Inbound)
  | XhttpTask (server : ServerConfig)
  | ClashTask (api : ClashApiConfig) (rt : ProxyRuntime).

Definition is_xhttp_inbound (i : Inbound) : bool :=
  str_eqb i.(in_type) (lit "vless") && match i.(in_transport) with Some x => str_eqb x.(x_type) (lit "xhttp") | None => false end.

Definition server_tls (i : Inbound) : option ServerTlsConfig :=
  (λ v, mkServerTls (default (pem v.(tls_certificate)) v.(tls_certificate_path))
    (default (pem v.(tls_key)) v.(tls_key_path)) (existsb (str_eqb (lit "h3")) v.(tls_alpn))) <$> enabled_tls i.(in_tls).

(** The last part of the loop of [run] *)
Definition xhttp_server (i : Inbound) : result ServerConfig :=
  port ← context i.(in_listen_port) "xhttp inbound requires listen_port";
  x ← context i.(in_transport) "xhttp inbound requires transport";
  transport ← Config.build x;
  server_new (mkServerConfig (socket (default (lit "::") i.(in_listen)) port) [] (omap u_uuid i.(in_users)) transport (server_tls i)).

(** One turn of the loop over the inbounds. *)
Definition spawn_inbound (shared : option ProxyRuntime) (i : Inbound) : result (option Task) :=
  let source := match shared with Some rt => Shared rt | None => Own end in
  if str_eqb i.(in_type) (lit "tun") then Ok (Some (TunTask i))
  else if str_eqb i.(in_type) (lit "tproxy") then Ok (Some (TproxyTask i source))
  else if is_type i.(in_type) ["socks"; "http"; "mixed"]%string then Ok (Some (SocksTask i source))
  else if str_eqb i.(in_type) (lit "anytls") then Ok (Some (AnyTlsTask i))
  else if is_xhttp_inbound i then server ← xhttp_server i; Ok (Some (XhttpTask server))
  else Ok None.

Fixpoint spawn_inbounds (shared : option ProxyRuntime) (l : list Inbound) : result (list Task) :=
  match l with
  | [] => Ok []
  | i :: l =>
    task ← spawn_inbound shared i;
    tasks ← spawn_inbounds shared l;
    Ok (match task with Some t => t :: tasks | None => tasks end)
  end.

Definition clash_of (c : SingBoxConfig) : option ClashApiConfig := e ← c.(s_experimental); e.(clash_api).

Definition dns_cache_path (c : SingBoxConfig) : option str :=
  e ← c.(s_experimental); f ← e.(cache_file); if f.(cf_enabled) && f.(store_dns) then f.(cf_path) else None.

Definition runtime_of (m : Machine) (c : SingBoxConfig) (route : option RouteConfig) : result ProxyRuntime :=
  build_runtime m c.(s_outbounds) route c.(s_dns) c.(s_http_clients) (dns_cache_path c).

(** [run], up to the point where it waits for the first task to end. *)
Definition run (m : Machine) (c : SingBoxConfig) : result (list Task) :=
  shared ← match clash_of c with
           | Some _ => rt ← runtime_of m c c.(s_route); Ok (Some rt)
           | None => Ok None
           end;
  tasks ← spawn_inbounds shared c.(s_inbounds);
  let tasks := match clash_of c, shared with Some api, Some rt => tasks ++ [ClashTask api rt] | _, _ => tasks end in
  if is_nil tasks then Err "no supported inbound found" else Ok tasks.

(** [from_json] after serde, and [load] *)
Definition from_json (parse : bytes → option SingBoxConfig) (text : bytes) : result SingBoxConfig :=
  c ← context (parse text) "parse configuration";
  if is_nil c.(s_outbounds) && is_nil c.(s_inbounds) then Err "at least one inbound or outbound is required" else Ok c.

Definition load (parse : bytes → option SingBoxConfig) (m : Machine) (env : RuleSetEnv) (path : str) : result SingBoxConfig :=
  text ← context (m.(m_host).(h_read) path) "read configuration";
  c ← from_json parse text;
  _ ← validate_runtime m.(m_host) env c;
  Ok c.

(** *** What a task sets up *)




Inductive Service :=
  | SocksService (listen tag protocol : str) (users : list User)
  | TproxyService (listen tag : str) (mapping filtering : UdpNatBehavior) (timeout max : Z)
  | AnyTlsService (listen tag : str) (tls : option ServerTls) (users : list (str * str)) (padding : option str)
  | XhttpService (address : SocketAddr) (listener : Listener)
  | ClashService (address : SocketAddr) (secret : option str)
  | TunService (tag : str).


Definition tproxy_service (i : Inbound) : result Service :=
  port ← context i.(in_listen_port) "tproxy inbound requires listen_port";
  mapping ← UdpNatBehavior_parse i.(in_udp_mapping);
  filtering ← UdpNatBehavior_parse i.(in_udp_filtering);
  let max := default 0 i.(in_udp_nat_max) in
  Ok (TproxyService (socket (default (lit "::") i.(in_listen)) port) (default (lit "tproxy-in") i.(in_tag)) mapping filtering
        (Z.max (parse_duration_lenient i.(in_udp_timeout)) (1 * secs)) (if max =? 0 then 1024 else max)).




End main.

(** ** A configuration that was checked runs *)

Section runs.
Context `{N : IpNetLib} `{RX : RegexLib} `{H : HttpLib} `{HL : !HttpLaws H} `{T : TlsLib} `{R : !ReqwestLib} `{C : CacheCodec}.
Context `{U : UuidLib} `{A : PaddingLib} `{UL : UrlLib} `{HI : !HashIter CacheKey CacheEntry}.
Context (m : Machine) (env : RuleSetEnv).




















End runs.

(** ** A configuration *)

#[local] Existing Instance Cidr.lib.
#[local] Existing Instance Literal.regex.
#[local] Existing Instance Tls.Sample.lib.
#[local] Existing Instance UuidExample.lib.
#[local] Existing Instance Validate.Sample.padding.
#[local] Existing Instance Validate.Sample.order.

Module MainSamples.

(** [Plain] with URLs that are not codes read as the root path. *)
#[export] Instance http : HttpLib := {|
  HeaderName := Plain.lib.(HeaderName); HeaderName_eq_dec := Plain.lib.(HeaderName_eq_dec);
  HeaderValue := Plain.lib.(HeaderValue); HeaderMap := Plain.lib.(HeaderMap);
  header_name := Plain.lib.(header_name); header_value := Plain.lib.(header_value); to_str := Plain.lib.(to_str);
  headers_new := Plain.lib.(headers_new); get_all := Plain.lib.(get_all); names := Plain.lib.(names);
  headers_insert := Plain.lib.(headers_insert); headers_append := Plain.lib.(headers_append);
  headers_remove := Plain.lib.(headers_remove); AUTHORIZATION := Plain.lib.(AUTHORIZATION); COOKIE := Plain.lib.(COOKIE);
  SET_COOKIE := Plain.lib.(SET_COOKIE); method_ok := Plain.lib.(method_ok); Url := Plain.lib.(Url);
  url_parse s := Some (default (lit "/", []) (Plain.lib.(url_parse) s)); url_as_str := Plain.lib.(url_as_str);
  url_path := Plain.lib.(url_path); url_query := Plain.lib.(url_query); Http.set_path := Plain.lib.(Http.set_path);
  append_pair := Plain.lib.(append_pair); form_parse := Plain.lib.(form_parse); b64_encode := Plain.lib.(b64_encode);
  Http.b64_decode := Plain.lib.(Http.b64_decode); huffman_encode := Plain.lib.(huffman_encode);
|}.

#[export] Instance http_laws : HttpLaws http.
Proof.
  pose proof Plain.laws as L. destruct L. split; try assumption. intros u.
  change (Some (default (lit "/", []) (Plain.lib.(url_parse) (Plain.lib.(url_as_str) u))) = Some u). by rewrite (url_parse_as_str u).
Qed.

#[export] Instance reqwest : ReqwestLib := {| HttpClient := HttpSettings; http_build s := Some s; host_str _ := Some (lit "host") |}.
#[export] Instance urls : UrlLib := {|
  WebUrl := str; web_parse s := Some s; web_scheme _ := lit "https"; web_host u := Some u; web_port _ := Some 443; web_path _ := lit "/";
  web_query _ := None; web_join _ s := Some s; web_print u := u;
|}.
#[export] Instance codec : CacheCodec := {| cache_to_vec _ := None; cache_from_slice _ := None |}.

Definition xhttp : XHttpTransport :=
  let r := mkRange 0 0 in
  mkXHttp (lit "xhttp") None None None [] None false None None None None None None None None None None None None None None false false
    (mkXmuxConfig r r r r r 0).

Definition tls_with (enabled : bool) (ech : option EchConfig) : TlsConfig :=
  mkTls enabled None false false None None [] [] None None [] [] None [] None None [] [] ech.

Definition uuid : str := lit "00000000-0000-0000-0000-000000000001".

Definition vless_out (tls : option TlsConfig) : OutboundConfig :=
  mkOutbound (lit "vless") (Some (lit "out")) (Some (lit "server")) None (Some uuid) None None (Some xhttp) tls None None None None false
    [] None None None None.

Definition inbound (type : str) (listen : option str) (users : list User) (transport : option XHttpTransport) (tls : option TlsConfig)
    (mapping : option str) : Inbound :=
  mkInbound type None listen (Some 443) users transport tls [] None None None [] None [] None false false None None None None None
    false [] false None None [] [] [] [] [] [] [] [] [] [] [] [] [] [] [] false None mapping None None None false.

Definition vless_in (listen : option str) (tls : option TlsConfig) : Inbound :=
  inbound (lit "vless") listen [mkUser None (Some uuid) None None] (Some xhttp) tls None.


Definition machine : Machine :=
  mkMachine Validate.Sample.host (Some (lit "eth0")) Validate.Sample.addrs (λ _ _, None) (λ a _, a) (λ a _, a) (λ _, 0) (λ f _ _, (f, false)) ∅
    (λ _, Validate.Sample.env) (λ _ _ _ _, Err "no network") None ∅ 0 0.




(** *** What the check does not see *)

Definition failed_with {A} (r : result A) (msg : string) : Prop := match r with Err e => e = msg | _ => False end.

(** An ECH configuration on an outbound without TLS passes the check, but its client is
    refused when the program runs. *)
Example ech_without_tls :
  let o := vless_out (Some (tls_with false (Some (mkEch true [lit "ech"] None None [] None)))) in
  validate_outbound machine.(m_host) false o = Ok tt ∧
  failed_with (build_vless (machine_client machine) machine.(m_addrs) false o) "ECH requires HTTPS".
Proof. split; vm_compute; reflexivity. Qed.

(** Without a proxy inbound the outbounds are not checked, but the controller builds them. *)
Example controller_outbounds_unchecked :
  let clash := mkExperimental (Some (mkClash (Some (lit "127.0.0.1:9090")) None None None None [] false)) None in
  let c := mkSingBox None None None [vless_in None None] [Validate.Sample.outbound (lit "trojan") (lit "out") []] (Some clash) [] in
  validate_runtime machine.(m_host) Validate.Sample.env c = Ok tt ∧ failed_with (run machine c) "unsupported outbound type".
Proof. split; vm_compute; reflexivity. Qed.

(** A transparent inbound with an unknown NAT behaviour passes the check; without a timeout
    its UDP sessions end after a second. *)
Example tproxy_unchecked :
  let i := inbound (lit "tproxy") None [] None None (Some (lit "symmetric")) in
  validate_inbound machine.(m_host) i = Ok 1 ∧ tproxy_service i = Err "unsupported UDP NAT" ∧
  tproxy_service (inbound (lit "tproxy") None [] None None None)
  = Ok (TproxyService (lit "[::]:443") (lit "tproxy-in") EndpointIndependent EndpointIndependent (1 * secs) 1024).
Proof. split_and!; vm_compute; reflexivity. Qed.

(** The address of an XHTTP server must be a number, a host name is refused when it runs;
    and with an inline certificate the name of a key file is taken for the key itself. *)
Example server_unchecked :
  let tls := mkTls true None false false None None [lit "-----BEGIN CERTIFICATE-----"] [] None (Some (lit "/key.pem")) [] [] None [] None None [] [] None in
  let by_name := vless_in (Some (lit "localhost")) None in
  let mixed_material := vless_in None (Some tls) in
  validate_inbound machine.(m_host) by_name = Ok 1 ∧
  (server ← xhttp_server by_name; server_run machine.(m_host).(h_read) server) = Err "invalid listen address" ∧
  validate_inbound machine.(m_host) mixed_material = Ok 1 ∧
  (server ← xhttp_server mixed_material; server_run machine.(m_host).(h_read) server)
  = Ok (mkSocketAddr (V6 0) 443, TlsPem (lit "-----BEGIN CERTIFICATE-----" ++ [10]) (lit "/key.pem")).
Proof. split_and!; vm_compute; reflexivity. Qed.

End MainSamples.
