(* ===== verification/EndToEnd.v ===== *)
(** * From a client to its destination (src/src/proxy/inbound.rs with the parts it calls)

    [handle] of inbound.rs as a whole: the metadata, the handshake, the evaluation of the
    route and the dispatch.  The theorem follows a SOCKS client's data through the inbound,
    the router, a VLESS outbound, the XHTTP tunnel and the server at its far end. *)

From S2P Require Import Prelude RustStr Net Util Vless DnsMessage Http Protocol Server Tunnel Routing Sniff RouteEval LinuxRoute.
From S2P Require Import SocksUdp Config Inbound Outbound Relay.

Section connection.
Context `{N : IpNetLib} `{RX : RegexLib} `{PL : ProxyLib} `{U : UuidLib} {AnyTlsClient XhttpClient : Type}.

(** How the steps of a relay end, the table of outbounds, the router and the resolver. *)
Context (outcome : list (act (AnyTlsClient := AnyTlsClient) (XhttpClient := XhttpClient)) →
  act (AnyTlsClient := AnyTlsClient) (XhttpClient := XhttpClient) → result unit).
Context (first_read : list (act (AnyTlsClient := AnyTlsClient) (XhttpClient := XhttpClient)) → Z → option bytes).
Context (dialer : str → option (Dialer (AnyTlsClient := AnyTlsClient) (XhttpClient := XhttpClient))).
Context (encode_anytls : Destination → result bytes) (rt : Router) (resolver : option Resolver).
(** The system and its clock, for the metadata. *)
Context `{HI : !HashIter str (list IpAddr)} (sys : System) (now : Z).

(** What became of a connection: it was relayed, or it asked for a UDP association. *)
Inductive Connection :=
  | Relayed (log : list (act (AnyTlsClient := AnyTlsClient) (XhttpClient := XhttpClient))) (r : result unit)
  | Associated (auth_user : option str).

(** A connection that was accepted: its addresses, the inbound's tag, the Clash mode, the
    caches of metadata, and what a peek at the socket sees. *)
Record Accepted := mkAccepted {
  a_peer : SocketAddr;
  a_local : SocketAddr;
  a_inbound : str;
  a_mode : option str;
  a_caches : Caches;
  a_peek : nat → Z → option bytes;
}.

Definition route_input (p : Accepted) (auth_user : option str) : RouteInput :=
  mkInput p.(a_peer).(sa_ip) p.(a_peer).(sa_port) p.(a_inbound)
    (connection_metadata sys now (linux_metadata_scope rt) p.(a_peer) p.(a_local) p.(a_caches)).1 auth_user p.(a_mode).

(** A client that completes its handshake within the ten seconds it has: the bytes written
    to it during the handshake, what became of the connection, and its bytes that were not
    read. *)
Definition handle_connection (protocol : str) (users : list User) (p : Accepted) (stream : bytes) : bytes * result (Connection * bytes) :=
  match client_handshake protocol users stream with
  | (out, Ok (TcpHandshake d reply initial auth_user, rest)) =>
    (out,
     ev ← evaluate_tcp_route rt resolver p.(a_peek) initial d (route_input p auth_user);
     let '(log, r) := Relay.handle outcome first_read (match resolver with Some _ => true | None => false end) dialer encode_anytls
                        reply initial ev [] in
     Ok (Relayed log r, rest))
  | (out, Ok (UdpHandshake auth_user, rest)) => (out, Ok (Associated auth_user, rest))
  | (out, Err e) => (out, Err e)
  | (out, Panic) => (out, Panic)
  | (out, Diverge) => (out, Diverge)
  end.

(** What a relay writes into the tunnel of a VLESS outbound; [rest] is what the client sends
    while the streams are copied. *)
Definition tunnel_bytes (log : list (act (AnyTlsClient := AnyTlsClient) (XhttpClient := XhttpClient))) (rest : bytes) : bytes :=
  concat ((λ a, match a with
                | VlessRequest user d => (write_request user d).1
                | ToTarget b => b
                | Copy => rest
                | _ => []
                end) <$> log).

Abbreviation dispatch := (Relay.handle outcome first_read (match resolver with Some _ => true | None => false end) dialer encode_anytls).

(** With a VLESS outbound, and while nothing fails, the request comes first, then what was
    read of the client so far, then the copy; the client is told before anything is copied. *)
Lemma vless_log reply initial ev tag client user xudp :
  (∀ log a, outcome log a = Ok tt) → ev.(ev_decision) = Outbound tag → dialer tag = Some (VlessDialer client user xudp) →
  ∃ log, dispatch reply initial ev [] = (log, Ok tt) ∧ ConnectXhttp client ∈ log ∧ to_client log = default [] reply ∧
    ∀ rest, tunnel_bytes log rest = (write_request user ev.(ev_destination)).1 ++ initial ++ rest.
Proof.
  intros Ho Hd Hdial. unfold Relay.handle. rewrite Hd, Hdial.
  unfold mbind, handler_bind, perform, when, reply_to. rewrite !Ho.
  destruct initial as [|b initial], reply as [reply|]; cbn [nonempty]; unfold mret, handler_ret, perform; rewrite ?Ho; eexists; (split; [reflexivity|]);
    (split; [left|]); (split; [by cbn; rewrite ?app_nil_r|]); intros rest; unfold tunnel_bytes; cbn -[write_request];
    by rewrite ?app_nil_r.
Qed.

(** C3: The data of a SOCKS client reach the destination the router chose, through a VLESS
    outbound, the XHTTP tunnel and the server: when nothing fails the inbound completes the
    handshake, connects to the outbound of the route and tells the client so; and once a
    tunnel that was given what the relay writes has come to rest, which takes it a bounded
    number of steps, the server relays to that destination, with the client's data and
    nothing else.  The tunnel is one of a [plain_client] (the default layout, data in the
    body, a path other than "/", which no request would find) in packet-up, auto or
    stream-one ([modes_covered]; not stream-up), and the backend accepts every write. *)
Theorem socks_data_reaches_destination `{ULaws : !UuidLaws U} `{HL : HttpLib} `{laws : !HttpLaws HL}
    protocol users methods credentials d request data conn ev tag client user xudp
    c method_from_bytes pick spare server base id accepts reachable server_users target uid :
  protocol = lit "socks" ∨ protocol = lit "mixed" → acceptable_client users methods credentials → encodable d →
  (length methods ≤ 255)%nat → encode_address [5; 1; 0] d = Ok request →
  evaluate_tcp_route rt resolver conn.(a_peek) [] d (route_input conn (fst <$> credentials)) = Ok ev →
  ev.(ev_decision) = Outbound tag → dialer tag = Some (VlessDialer client user xudp) → encodable ev.(ev_destination) →
  (∀ log a, outcome log a = Ok tt) →
  plain_client c method_from_bytes pick server base id → modes_covered c → (∀ w b, accepts w b = true) →
  user ∈ server_users → uuid_parse user = Some uid →
  ∃ log,
    handle_connection protocol users conn (client_greeting methods ++ client_credentials credentials ++ request ++ data)
    = (server_replies users, Ok (Relayed log (Ok tt), data)) ∧
    ConnectXhttp client ∈ log ∧ to_client log = [5; 0; 0; 1; 0; 0; 0; 0; 0; 0] ∧
    ∀ n s, undisturbed c method_from_bytes pick spare base id accepts n s → s.(app) = tunnel_bytes log data →
      Z.of_nat (length s.(app)) < u64_max →
      (n ≤ 2 * length s.(app) + 3)%nat ∧
      (quiescent c method_from_bytes pick spare base id accepts s →
       backend reachable server_users target (backend_given s) = VlessRelay (Vless.mkRequest Tcp ev.(ev_destination)) [0; 0] data).
Proof.
  intros Hpr Hc Hd Hm He Hev Hdec Hdial Henc Ho Hplain Hmode Hacc Hin Hid.
  destruct (vless_log (Some [5; 0; 0; 1; 0; 0; 0; 0; 0; 0]) [] ev tag client user xudp Ho Hdec Hdial) as (log & Hlog & Hconn & Hcl & Htun).
  exists log. split_and!; [|done|done|].
  - unfold handle_connection.
    rewrite (socks_client_served protocol users methods credentials 1 d request data Hpr Hc Hd (or_introl eq_refl) Hm He).
    cbn [Z.eqb Pos.eqb]. rewrite Hev. cbn [mbind result_bind]. by rewrite Hlog.
  - intros n s Hu Happ Hlen. destruct (undisturbed_given c method_from_bytes pick spare server base id accepts n s Hplain Hmode Hacc Hu Hlen) as [Hn _].
    split; [done|]. intros Hq. rewrite Htun in Happ.
    by apply (tunnel_carries_request c method_from_bytes pick spare server base id accepts reachable server_users target user uid Tcp
      ev.(ev_destination) data n s Hplain Hmode Hacc Hu Hlen Hq Hin Hid Henc).
Qed.

End connection.

(** ** A connection *)

Module PathSamples.

#[local] Existing Instance Cidr.lib.
#[local] Existing Instance Literal.regex.
#[local] Existing Instance Plain.lib.
#[local] Existing Instance Plain.laws.
#[local] Existing Instance UuidExample.lib.
#[local] Existing Instance UuidExample.laws.
#[local] Existing Instance key_order.
#[local] Existing Instance Inbound.toy_lib.
Import Tunnel.Samples.

Definition router : Router := mkRouter [] ∅ (lit "out") Routing.default_options None.
Definition nothing : System := mkSystem (λ _, None) (λ _, None) None (λ _, false) (λ _ _, None).
Definition vless_only (_ : str) : option (Dialer (AnyTlsClient := unit) (XhttpClient := unit)) := Some (VlessDialer tt UuidExample.user true).

Definition accepted : Accepted :=
  mkAccepted (mkSocketAddr (V4 0x7f000001) 5000) (mkSocketAddr (V4 0x7f000001) 1080) (lit "in") None empty_caches (λ _ _, None).

(** Domain requests: the length of the name, the name, and the port. *)
Definition request : bytes := [5; 1; 0; 3; 11] ++ lit "example.com" ++ [1; 187].

Definition stream : bytes := client_greeting [0; 2] ++ client_credentials (Some (lit "ann", lit "pw")) ++ request ++ [7; 8].

Definition served : bytes * result (Connection (AnyTlsClient := unit) (XhttpClient := unit) * bytes) :=
  handle_connection all_well (λ _ _, None) vless_only no_encoding router None nothing 0 (lit "mixed") sample_users accepted stream.

Definition evaluated : result RouteEvaluation :=
  evaluate_tcp_route router None accepted.(a_peek) [] UuidExample.dest (route_input router nothing 0 accepted (Some (lit "ann"))).

Lemma evaluated_out : ∃ ev, evaluated = Ok ev ∧ ev.(ev_decision) = Outbound (lit "out") ∧ ev.(ev_destination) = UuidExample.dest.
Proof. eexists. split; [vm_compute; reflexivity|]. split; reflexivity. Qed.

(** A user of the inbound asks for example.com and sends two bytes; the server at the other
    end of the tunnel relays them to example.com. *)
Lemma socks_data_reaches_destination_witness :
  ∃ log s, served = (server_replies sample_users, Ok (Relayed log (Ok tt), [7; 8])) ∧ s.(app) = tunnel_bytes log [7; 8] ∧
    backend (λ _, true) [UuidExample.user] [] (backend_given s) = VlessRelay (Vless.mkRequest Tcp UuidExample.dest) [0; 0] [7; 8].
Proof.
  destruct evaluated_out as (ev & Hev & Hdec & Hdest).
  destruct (socks_data_reaches_destination all_well (λ _ _, None) vless_only no_encoding router None nothing 0
    (lit "mixed") sample_users [0; 2] (Some (lit "ann", lit "pw")) UuidExample.dest request [7; 8] accepted ev (lit "out") tt UuidExample.user true
    (in_mode ModeAuto) methods (λ _ a _, a) 0 sample_server (sample_base ModeAuto) sample_id (λ _ _, true) (λ _, true) [UuidExample.user] []
    UuidExample.id) as (log & Hs & _ & _ & Htunnel).
  - by right.
  - split; [right; left|]. split; [exact sample_known|]. by repeat split; repeat constructor.
  - apply example_encodable.
  - cbn. lia.
  - vm_compute. reflexivity.
  - exact Hev.
  - exact Hdec.
  - reflexivity.
  - rewrite Hdest. apply example_encodable.
  - intros l a. reflexivity.
  - exact (sample_plain ModeAuto).
  - exact (in_mode_covered ModeAuto ltac:(discriminate)).
  - intros w b. reflexivity.
  - constructor.
  - vm_compute. reflexivity.
  - destruct whole_undisturbed as (n & s & Hu & Hq & Happ). exists log, s. split; [exact Hs|].
    assert (Hbytes : s.(app) = tunnel_bytes log [7; 8]).
    { rewrite Happ. assert (E : served = (server_replies sample_users, Ok (Relayed log (Ok tt), [7; 8]))) by exact Hs.
      vm_compute in E. injection E as <-. vm_compute. reflexivity. }
    split; [exact Hbytes|]. rewrite <-Hdest. apply (Htunnel n s Hu Hbytes); [rewrite Happ; exact sample_stream_short|exact Hq].
Defined.

End PathSamples.
